(* ===== verification/_CoqProject ===== *)
-Q . S2P
Prelude.v
Crc32c.v
LogRecord.v
Keydir.v
Hint.v
Storage.v
Frame.v
Names.v
Json.v
Publish.v
Manifest.v
HintFile.v
Log.v
Recovery.v
Db.v
Invariant.v
Confined.v
WritePath.v
Rotation.v
Compact.v
Engine.v
Compactor.v
Reader.v
Writes.v
Api.v
WriterLoop.v
Sizes.v
Meanwhile.v
Scan.v
Commit.v
Pass.v
Snapshot.v
OpenSteps.v
Reopen.v
Crash.v
Lives.v
Deviations.v
WireFrame.v
WireRequest.v
WireResponse.v
Server.v
ServerSpec.v
ServerRange.v
Service.v
Sessions.v
Lifecycle.v
Client.v
EndToEnd.v
Clients.v
Flags.v
JsonProgress.v
Encoding.v
Cli.v
CliSpec.v
CliFormats.v
Serve.v
