(* ===== verification/Prelude.v ===== *)
(** * little-db, verified: a log-structured key-value store and its server

    little-db keeps a map from keys to values in append-only segment files, with
    the location of each key's latest value in memory (src/internal/engine).  A
    TCP server (src/internal/server) offers the map over a framed binary protocol
    (src/internal/wire); a client library (src/internal/client) and a command line
    (src/cmd/little-db) use it.  The development translates that code into
    executable functions and proves that every layer, and all of them together,
    is operations on a finite map, whatever system calls fail on the way.

    ** How the code is modelled

    A Go function is a Coq function of the same name.  A call that can fail
    returns a [result]; an error value keeps its sentinel or format string and
    the errors it wraps, which is what [errors.Is] and [errors.As] look at, but
    not the formatted operands.  State is passed explicitly: the engine's methods
    are functions of the [DB] record and an [env] (Db.v), the environment being
    the disk, a script of faults and the clock's future readings (Storage.v).
    Each system call takes its outcome from the script, so a theorem for all
    environments covers every pattern of failures; a disk holds for each file
    both what reads see and what an fsync has settled, and the same for directory
    entries, so that a power loss is an operation on it.  Integers are [Z], with
    [to_u32] and the like where the code truncates; bytes are [Init.Byte.byte].
    Goroutines are step relations where their interleaving matters (WriterLoop,
    Sessions, Lifecycle).  A compaction pass (Compactor) is a function that pauses before
    each of its actions; a script, universally quantified in its theorems, says
    what the writer does in each pause.  A read (Reader) is such a function too;
    its scripts cut a request of the writer into taking it, appending and
    flushing the record, and publishing it in the index, and stop it before what
    needs the write lock.  Elsewhere a lock makes a method one atomic step.

    ** Parts and files

    - shared: Prelude (bytes, integers, errors, the error monad and its weakest
      preconditions), Crc32c (the checksum and what it detects), Json, JsonProgress,
      Encoding (the parts of encoding/json, hex and base64 that the code uses).
    - engine/record.go: LogRecord.  engine/keydir.go: Keydir.  engine/segment.go
      and the file system: Storage, with framing lemmas in Frame.
      engine/hint.go: Hint (bytes), HintFile (files).  engine/manifest.go:
      Manifest.  Both publish files through Publish.  File names: Names.
    - engine/recovery.go: Recovery, over the logical logs of Log.
    - engine/engine.go and stats.go: Db (state, clock, append, rotation, reads),
      Engine (requests, group commit, calls, Open, Close); engine/compact.go:
      Compact (the commit, the orphan sweep), Compactor (the pass and its loop).
      Reader: the reads beside the writer, a pass and Close; Db has them alone.
    - the engine's proof: Invariant (the invariant [db_inv], the abstract map
      [abs]), Confined (what the writer leaves alone), WritePath, Rotation,
      Writes, Api (the calls), WriterLoop (all interleavings of callers, writer
      and Close), Sizes (the rotation policy, segment sizes, the widths of the
      state's fields), Meanwhile, Scan, Commit, Pass (compaction), Snapshot (reads),
      OpenSteps, Reopen, Crash (what Open needs, what the end of a process
      leaves), Lives (a directory opened, ended and opened again, many times).
    - wire/wire.go, frame.go: WireFrame; request.go: WireRequest; response.go:
      WireResponse.
    - server/server.go: Server (one connection), Sessions (many of them, turn by
      turn, on one engine), Lifecycle (accept loop, slots, Shutdown); the proof of
      Server: ServerSpec, ServerRange, Service.
    - client/client.go: Client.  Client, wire, server and engine composed: EndToEnd
      (one client), Clients (any number).
    - cmd/little-db: Flags (parseFlags), Cli (the subcommands), CliSpec,
      CliFormats; main.go's runServe and internal/logging: Serve.
    - Deviations: runs on which the code does not do what its comments say.

    ** What is proved

    - One map.  [Api.Put_refines], [Delete_refines], [BatchPut_refines]: each
      call is the operation of the abstract map or leaves it alone, on every error
      path; [Api.processBurst_group_commit]: replies wait for the fsync they share.
    - All callers.  [WriterLoop.writes_linearise] and [submit_answered]: under any
      interleaving the writes happen in one order, and whoever calls is in one
      place: waiting, or told once what became of the request.
      [Pass.Compact_keeps_map]: a compaction pass that races with the writer
      changes nothing but what the writer did.  [Snapshot.Get_linearises] and
      [ReadKeyRange_snapshot]: a read returns what the map held at one moment of
      the call, a range all of it at the same moment.
    - The state.  [Sizes.handleOne_resizes] and [segments_bounded]: a segment is
      rotated exactly when the next record is due in a new one, so only a single
      record ever exceeds MaxSegmentSize; [Sizes.reachable_typed]: ids, sizes,
      positions and timestamps stay within their Go types, which is why the model
      may add them as integers.
    - Restarts.  [Lives.directory] is a data directory from its creation on,
      through any number of lives that end in a power loss, a Close or a kill;
      [Lives.write_survives_power_loss] (SyncOnPut, an acknowledged write, a power
      loss), [Close_then_Open] (a Close, then a power loss or not) and
      [Open_restores_killed] (a kill, half-way through an append or not) say that
      the next Open serves exactly the map of the writes served.  The first two
      are for directories that no kill has left partly unsynced
      ([Deviations.sealed_unsynced]), and all three claim only the map's bindings
      once a compaction pass has run, since deletions may then come back
      ([Deviations.deleted_key_resurrects]).  They rest on
      [Recovery.recoverSegment_exact], [torn_append_dropped],
      [hint_replay_equals_scan] and the manifest theorems;
      [corruption_aborts_recovery] is for one damaged byte outside a record's
      length fields ([Deviations.damaged_length_drops] damages a length).
    - Formats.  Round trips and canonicity for records, batches, hints, manifests,
      requests, responses, frames and batch files; any one changed byte of a hint
      file, or of a record outside its length fields, is detected.
    - The service.  [Service.dispatchOnce_refines], [handleConn_converses],
      [ServerRange.handleRange_streams], [Lifecycle.Shutdown_complete];
      [Sessions.server_serialises]: all connections together are answered as by one
      serial history, each in its own order; end to end,
      [EndToEnd.client_operates_map] for one client, [Clients.clients_operate_map]
      for any number at once; [CliSpec.run_tells]: a command line makes the request
      its arguments stand for ([CliSpec.asks]) and reports the answer.

    ** Hypotheses, bounds and fuel

    [db_inv m logs db e] is the invariant, for ghost logs and a [mode] that says
    which optional parts are claimed: [m_stored] (the disk is what a later Open
    needs), [m_durable] (and survives a power loss), [m_newest] (a key's live
    record bears the highest timestamp written for it, so that a later replay
    finds it again) and [m_exact] (the index is the replay of everything ever
    written).  The theorems of Lives start from the empty directory and need no
    mode: Open establishes all four parts, but for [m_durable] after a kill.
    Compaction ends [m_exact]: it drops records, and its merged segment has a
    higher id than the active one, so that a replay by id is no longer in the
    order of writing.  A restart after one is shown to keep every binding, not
    every deletion, and nothing is shown of the restarts after that one.  [has_room]
    (for scripts: [room_left]) says
    that 32-bit segment ids and 64-bit timestamps are not used up.  [paired]
    says that no hint file lies about without its segment and that segment ids
    are left; Open is run without failing calls where it is said to succeed.  Loops over input
    carry fuel: the scan of a segment its size, a parser the length of its input,
    a connection the bytes still to come; that this is enough is part of the
    theorems about them ([recoverSegment_exact], [ReadRangeStream_exact],
    [batch_entries_terminates], [handleConn_converses], [hint_parse_terminates]).
    Parameters stand for code that is not here: net.Dial and Listen, os.Open and
    Getenv of the command line, time.ParseDuration, strconv.ParseInt, the text of
    errors.

    ** Not modelled

    Log output; the text of flag's diagnostics; delivery of signals; the
    Darwin build's fsync wrapper (another system call); the flock's effect on other processes; the
    file offset of a descriptor (segments are only ever appended to, and Open
    seeks to the end); in Compactor's scripts, a writer that is interrupted
    half-way through handling a request, since until the commit the two touch no
    common file; in WriterLoop's steps (and so in [segments_bounded] and
    [reachable_typed]) the compaction commit, which Pass has on its own; in
    Sessions a compaction pass, and a turn interrupted inside its engine call,
    which WriterLoop and Snapshot show to take effect at one moment; in Reader's scripts, a compaction commit before the lock is taken
    (the read then begins in the state the commit leaves, which
    [Compact_keeps_map] shows well formed), and the sizes that Stats adds up
    changing while it does. *)
From stdpp Require Export base option list numbers gmap strings sorting.
From Stdlib Require Export ZArith Lia.
From Stdlib Require Export Strings.Byte.

#[export] Set Warnings "-clear-no-such-hyp".

Open Scope Z_scope.

(** ** Bytes and byte slices *)

Abbreviation byte := Init.Byte.byte.
Abbreviation bytes := (list Init.Byte.byte).

(** The value of a byte, and Go's conversion [byte(z)] (truncation mod 256). *)
Definition b2z (b : byte) : Z := Z.of_N (Byte.to_N b).
Definition z2b (z : Z) : byte :=
  match Byte.of_N (Z.to_N (z mod 256)) with Some b => b | None => Byte.x00 end.

#[global] Instance byte_eq_dec : EqDecision byte := Byte.byte_eq_dec.
#[global] Program Instance byte_countable : Countable byte :=
  inj_countable Byte.to_N Byte.of_N _.
Next Obligation. intros b. apply Byte.of_to_N. Qed.

(** Go's [len], as an integer. *)
Definition zlen {A} (l : list A) : Z := Z.of_nat (length l).

(** The slice expression [l[lo:hi]] (for [0 <= lo <= hi <= len l]). *)
Definition slice {A} (l : list A) (lo hi : Z) : list A :=
  take (Z.to_nat (hi - lo)) (drop (Z.to_nat lo) l).

(** [l[lo:]] and [l[:hi]]. *)
Definition slice_from {A} (l : list A) (lo : Z) : list A := drop (Z.to_nat lo) l.
Definition slice_to {A} (l : list A) (hi : Z) : list A := take (Z.to_nat hi) l.

(** The builtin [copy(dst[off:], src)]: overwrites at [off] as many bytes of
    [src] as fit. *)
Definition copy_at (dst : bytes) (off : Z) (src : bytes) : bytes :=
  take (Z.to_nat off) dst
    ++ take (length dst - Z.to_nat off)%nat src
    ++ drop (Z.to_nat off + length src)%nat dst.

(** The index expression [l[i]] of a byte slice, as an integer. *)
Definition byte_at (l : bytes) (i : Z) : Z := b2z (nth (Z.to_nat i) l Byte.x00).

(** [make([]byte, n)]. *)
Definition make_bytes (n : Z) : bytes := replicate (Z.to_nat n) Byte.x00.

(** ** Fixed-width integers (encoding/binary) *)

(** [PutUintN]: the [n] low bytes of [z], least significant first. *)
Fixpoint le_put (n : nat) (z : Z) : bytes :=
  match n with
  | O => []
  | S n' => z2b z :: le_put n' (z / 256)
  end.

(** [UintN] in little-endian order. *)
Fixpoint le_get (bs : bytes) : Z :=
  match bs with
  | [] => 0
  | b :: bs' => b2z b + 256 * le_get bs'
  end.

(** The same in big-endian order. *)
Definition be_put (n : nat) (z : Z) : bytes := rev (le_put n z).
Definition be_get (bs : bytes) : Z := le_get (rev bs).

(** Conversions between Go's integer types. *)
Definition to_u16 (z : Z) : Z := z mod 2 ^ 16.
Definition to_u32 (z : Z) : Z := z mod 2 ^ 32.
Definition to_u64 (z : Z) : Z := z mod 2 ^ 64.
Definition to_i64 (z : Z) : Z :=
  let u := z mod 2 ^ 64 in if u <? 2 ^ 63 then u else u - 2 ^ 64.

(** ** Errors *)

(** A Go error: a sentinel made by [errors.New] (identified by its text), or a
    formatted error with the errors its [%w] verbs wrap. *)
#[warnings="-register-all"]
Inductive error : Type :=
| ESentinel (text : string)
| EWrap (format : string) (wrapped : list error).

Abbreviation errorf s := (EWrap s []).

(** [errors.Is] for a sentinel target. *)
Fixpoint errors_Is (e : error) (target : string) : bool :=
  match e with
  | ESentinel s => String.eqb s target
  | EWrap _ es => existsb (λ e', errors_Is e' target) es
  end.

(** The outcome of a fallible operation. *)
Inductive result (A : Type) : Type :=
| Ok (a : A)
| Err (e : error).
Arguments Ok {_} _.
Arguments Err {_} _.

(** Equalities of outcomes, without evaluating what they carry. *)
Lemma Ok_inj {A} (a b : A) : Ok a = Ok b → a = b.
Proof. by intros [= ->]. Qed.

Definition is_ok {A} (r : result A) : bool :=
  match r with Ok _ => true | Err _ => false end.

Definition rbind {A B} (r : result A) (f : A → result B) : result B :=
  match r with Ok a => f a | Err e => Err e end.

Declare Scope go_scope.
Delimit Scope go_scope with go.
Notation "'let?' x ':=' r 'in' k" := (rbind r (λ x, k))
  (at level 10, x pattern, r at level 100, k at level 200) : go_scope.
Open Scope go_scope.

(** ** Stateful computations that can fail *)

(** Sequencing with Go's early return: the first error ends the function, the
    effects so far stay. *)
Definition ebind {S A B} (m : S → result A * S) (k : A → S → result B * S) (s : S)
    : result B * S :=
  match m s with
  | (Ok a, s) => k a s
  | (Err e, s) => (Err e, s)
  end.
Notation "'do!' x ':=' m 'in' k" := (ebind m (λ x, k))
  (at level 10, x pattern, m at level 100, k at level 200) : go_scope.
Definition eret {S A} (a : A) (s : S) : result A * S := (Ok a, s).

(** [if err != nil { cleanup; return fmt.Errorf(...) }]: on failure of [m], run
    [h] (whose own errors are dropped) and wrap the error. *)
Definition on_error {S A} (m : S → result A * S) (h : S → S) (wrap : error → error) (s : S)
    : result A * S :=
  match m s with
  | (Ok a, s) => (Ok a, s)
  | (Err e, s) => (Err (wrap e), h s)
  end.
(** [_ = f()] *)
Definition ignore {S A} (m : S → result A * S) (s : S) : S := (m s).2.

(** ** Readers *)

Definition io_EOF : string := "EOF".
Definition io_ErrUnexpectedEOF : string := "unexpected EOF".
Definition io_ErrShortBuffer : string := "short buffer".

(** [io.ReadFull(r, buf)] with [len buf = n] on a reader whose unread bytes are
    [r]: the bytes placed in [buf], the error, and what is left unread.  A clean
    end of input is [io.EOF] only when no byte was read. *)
Definition io_ReadFull (n : Z) (r : bytes) : bytes * option error * bytes :=
  if n <=? 0 then ([], None, r)
  else match r with
       | [] => ([], Some (ESentinel io_EOF), [])
       | _ => if zlen r <? n then (r, Some (ESentinel io_ErrUnexpectedEOF), [])
              else (slice_to r n, None, slice_from r n)
       end.

(** ** Lexicographic order of byte strings ([bytes.Compare]) *)

Fixpoint bytes_Compare (a b : bytes) : Z :=
  match a, b with
  | [], [] => 0
  | [], _ :: _ => -1
  | _ :: _, [] => 1
  | x :: a', y :: b' =>
      if b2z x <? b2z y then -1
      else if b2z y <? b2z x then 1
      else bytes_Compare a' b'
  end.

(** [decided] proves a closed decidable proposition by evaluating it. *)
Ltac decided := apply (bool_decide_unpack _); vm_compute; exact I.

(** ** Lemmas: stateful computations *)

(** [Q] holds of the outcome of [m] from [s]. *)
Definition wp {S A} (m : S → result A * S) (s : S) (Q : result A → S → Prop) : Prop :=
  Q (m s).1 (m s).2.

Lemma wp_bind {S A B} (m : S → result A * S) (k : A → S → result B * S) s Q :
  wp m s (λ r s', match r with Ok a => wp (k a) s' Q | Err err => Q (Err err) s' end) →
  wp (ebind m k) s Q.
Proof. unfold wp, ebind. by destruct (m s) as [[a|err] s']. Qed.
Lemma wp_on_error {S A} (m : S → result A * S) h wrap s Q :
  wp m s (λ r s', match r with Ok a => Q (Ok a) s' | Err err => Q (Err (wrap err)) (h s') end) →
  wp (on_error m h wrap) s Q.
Proof. unfold wp, on_error. by destruct (m s) as [[a|err] s']. Qed.
Lemma wp_impl {S A} (m : S → result A * S) s (Q Q' : result A → S → Prop) :
  wp m s Q → (∀ r s', Q r s' → Q' r s') → wp m s Q'.
Proof. unfold wp. auto. Qed.
Lemma wp_run {S A} (m : S → result A * S) s Q r s' : wp m s Q → m s = (r, s') → Q r s'.
Proof. unfold wp. intros H E. by rewrite E in H. Qed.
Lemma wp_intro {S A} (m : S → result A * S) s (Q : result A → S → Prop) :
  (∀ r s', m s = (r, s') → Q r s') → wp m s Q.
Proof. unfold wp. intros H. apply H. apply surjective_pairing. Qed.
(** [zcmp] decides the integer comparisons of the goal, one branch each; those
    that contradict the hypotheses or give an error for a success are closed. *)
Ltac zcmp :=
  repeat (match goal with
          | |- context [?a =? ?b] => destruct (Z.eqb_spec a b)
          | |- context [?a <? ?b] => destruct (Z.ltb_spec a b)
          end; cbn [negb andb orb]; try discriminate; try (exfalso; lia)).

(** ** Lemmas: bytes and lengths *)

Create Rewrite HintDb golen.

Lemma b2z_bound b : 0 <= b2z b < 256.
Proof. unfold b2z. pose proof (Byte.to_N_bounded b). lia. Qed.

Lemma z2b_b2z b : z2b (b2z b) = b.
Proof.
  unfold z2b. rewrite Z.mod_small by apply b2z_bound.
  unfold b2z. rewrite N2Z.id, Byte.of_to_N. done.
Qed.

Lemma b2z_z2b z : b2z (z2b z) = z mod 256.
Proof.
  unfold z2b, b2z. pose proof (Z.mod_pos_bound z 256 ltac:(lia)).
  destruct (Byte.of_N (Z.to_N (z mod 256))) as [b|] eqn:E.
  - apply Byte.to_of_N in E. rewrite E. lia.
  - apply Byte.of_N_None_iff in E. lia.
Qed.

#[global] Instance b2z_inj : Inj (=) (=) b2z.
Proof. intros a b H. rewrite <- (z2b_b2z a), <- (z2b_b2z b). by rewrite H. Qed.

Section zlen.
Context {A : Type}.
Implicit Types l k : list A.

Lemma zlen_nonneg l : 0 <= zlen l.
Proof. unfold zlen. lia. Qed.
Lemma zlen_nil : zlen (@nil A) = 0.
Proof. done. Qed.
Lemma zlen_cons x l : zlen (x :: l) = 1 + zlen l.
Proof. unfold zlen. simpl. lia. Qed.
Lemma zlen_app l k : zlen (l ++ k) = zlen l + zlen k.
Proof. unfold zlen. rewrite length_app. lia. Qed.
Lemma zlen_0 l : zlen l = 0 → l = [].
Proof. destruct l; [done | rewrite zlen_cons; pose proof (zlen_nonneg l); lia]. Qed.
Lemma zlen_slice_to l n : 0 <= n <= zlen l → zlen (slice_to l n) = n.
Proof. unfold zlen, slice_to. rewrite length_take. lia. Qed.
Lemma zlen_slice_from l n : 0 <= n <= zlen l → zlen (slice_from l n) = zlen l - n.
Proof. unfold zlen, slice_from. rewrite length_drop. lia. Qed.
Lemma zlen_slice l lo hi : 0 <= lo <= hi → hi <= zlen l → zlen (slice l lo hi) = hi - lo.
Proof. unfold zlen, slice. rewrite length_take, length_drop. lia. Qed.
Lemma slice_to_from l n : slice_to l n ++ slice_from l n = l.
Proof. apply take_drop. Qed.
Lemma slice_to_app l k n : n = zlen l → slice_to (l ++ k) n = l.
Proof. intros ->. unfold slice_to, zlen. by rewrite Nat2Z.id, take_app_length. Qed.
Lemma slice_from_app l k n : n = zlen l → slice_from (l ++ k) n = k.
Proof. intros ->. unfold slice_from, zlen. by rewrite Nat2Z.id, drop_app_length. Qed.
Lemma slice_to_all l n : zlen l <= n → slice_to l n = l.
Proof. unfold slice_to, zlen. intros. apply take_ge. lia. Qed.
Lemma slice_from_app_r l k n :
  zlen l <= n → slice_from (l ++ k) n = slice_from k (n - zlen l).
Proof.
  unfold slice_from, zlen. intros. rewrite drop_app_ge by lia. f_equal. lia.
Qed.
Lemma slice_from_nonpos l n : n <= 0 → slice_from l n = l.
Proof. unfold slice_from. intros. by replace (Z.to_nat n) with 0%nat by lia. Qed.
Lemma slice_from_0 l : slice_from l 0 = l.
Proof. done. Qed.
Lemma slice_from_all l n : zlen l <= n → slice_from l n = [].
Proof. unfold slice_from, zlen. intros. apply drop_ge. lia. Qed.
Lemma slice_from_from l n m : 0 <= n → 0 <= m →
  slice_from (slice_from l n) m = slice_from l (n + m).
Proof. unfold slice_from. intros. rewrite drop_drop. f_equal. lia. Qed.

Lemma app_inj_zlen l l' k k' :
  l ++ k = l' ++ k' → zlen l = zlen l' → l = l' ∧ k = k'.
Proof. intros E H. apply app_inj_1; [unfold zlen in H; lia | done]. Qed.

(** The middle piece of a concatenation. *)
Lemma slice_mid l k m lo hi :
  lo = zlen l → hi = zlen l + zlen k → slice (l ++ k ++ m) lo hi = k.
Proof.
  intros -> ->. unfold slice, zlen. rewrite Nat2Z.id, drop_app_length.
  replace (Z.to_nat _) with (length k) by lia. apply take_app_length.
Qed.
Lemma slice_head k m lo hi : lo = 0 → hi = zlen k → slice (k ++ m) lo hi = k.
Proof. intros -> ->. apply (slice_mid [] k m); done. Qed.
Lemma slice_last l k lo hi :
  lo = zlen l → hi = zlen l + zlen k → slice (l ++ k) lo hi = k.
Proof. intros. rewrite <- (app_nil_r k) at 1. by apply slice_mid. Qed.
Lemma slice_slice_from l lo hi :
  slice l lo hi = slice_to (slice_from l lo) (hi - lo).
Proof. done. Qed.
(** A slice of a prefix is a slice of the whole. *)
Lemma slice_app_l l k lo hi :
  0 <= lo → hi <= zlen l → slice (l ++ k) lo hi = slice l lo hi.
Proof.
  unfold slice, zlen. intros.
  destruct (decide (hi <= lo)) as [|Hlt].
  { replace (Z.to_nat (hi - lo)) with 0%nat by lia. by rewrite !take_0. }
  rewrite drop_app_le by lia. rewrite take_app_le; [done|].
  rewrite length_drop. lia.
Qed.
Lemma slice_app_r l k lo hi :
  zlen l <= lo → slice (l ++ k) lo hi = slice k (lo - zlen l) (hi - zlen l).
Proof.
  unfold slice, zlen. intros.
  rewrite drop_app_ge by lia. f_equal; [lia | f_equal; lia].
Qed.
End zlen.

#[export] Hint Rewrite @zlen_app @zlen_cons @zlen_nil : golen.

(** [zl] normalises lengths and closes the arithmetic. *)
Ltac zl :=
  autorewrite with golen in *;
  repeat match goal with
         | |- context [zlen ?l] =>
             lazymatch goal with H : 0 <= zlen l |- _ => fail | _ =>
               pose proof (zlen_nonneg l) end
         | _ : context [zlen ?l] |- _ =>
             lazymatch goal with H : 0 <= zlen l |- _ => fail | _ =>
               pose proof (zlen_nonneg l) end
         end;
  lia.

Lemma byte_at_mid a b c i : i = zlen a → byte_at (a ++ [b] ++ c) i = b2z b.
Proof.
  intros ->. unfold byte_at, zlen. rewrite Nat2Z.id, app_nth2 by lia.
  by rewrite Nat.sub_diag.
Qed.
Lemma byte_at_app_r a b i : zlen a <= i → byte_at (a ++ b) i = byte_at b (i - zlen a).
Proof.
  unfold byte_at, zlen. intros. rewrite app_nth2 by lia. do 2 f_equal. lia.
Qed.
Lemma byte_at_app_l a b i : 0 <= i < zlen a → byte_at (a ++ b) i = byte_at a i.
Proof. unfold byte_at, zlen. intros. by rewrite app_nth1 by lia. Qed.
Lemma byte_at_head b c i : i = 0 → byte_at ([b] ++ c) i = b2z b.
Proof. by intros ->. Qed.
Lemma byte_at_bound l i : 0 <= byte_at l i < 256.
Proof. apply b2z_bound. Qed.

(** [fields] evaluates a slice or an index of an explicit concatenation whose
    pieces have known lengths. *)
Ltac fields :=
  repeat first
    [ rewrite slice_head by zl
    | rewrite byte_at_head by zl
    | rewrite slice_app_r by zl
    | rewrite slice_from_app_r by zl
    | rewrite slice_from_nonpos by zl
    | rewrite byte_at_app_r by zl ].

(** [slice_is k m] reads [k] off the front of a buffer that is [k ++ m]; what is
    left is that it is. *)
Ltac slice_is k m :=
  symmetry;
  lazymatch goal with
  | |- slice ?l ?lo ?hi = _ =>
      let E := fresh in
      cut (l = k ++ m); [intros E; rewrite E; apply slice_head; zl|]
  end.

(** ** Lemmas: fixed-width integers *)

Lemma length_le_put n z : length (le_put n z) = n.
Proof. revert z. induction n; intros; simpl; auto. Qed.
Lemma length_be_put n z : length (be_put n z) = n.
Proof. unfold be_put. by rewrite length_rev, length_le_put. Qed.
Lemma zlen_le_put n z : zlen (le_put n z) = Z.of_nat n.
Proof. unfold zlen. by rewrite length_le_put. Qed.
Lemma zlen_be_put n z : zlen (be_put n z) = Z.of_nat n.
Proof. unfold zlen. by rewrite length_be_put. Qed.
#[export] Hint Rewrite zlen_le_put zlen_be_put : golen.

Lemma le_get_bound bs : 0 <= le_get bs < 256 ^ zlen bs.
Proof.
  induction bs as [|b bs IH]; [done|].
  rewrite zlen_cons, Z.pow_add_r by (pose proof (zlen_nonneg bs); lia).
  simpl le_get. pose proof (b2z_bound b). lia.
Qed.

Lemma le_get_put n z : le_get (le_put n z) = z mod 256 ^ Z.of_nat n.
Proof.
  revert z. induction n as [|n IH]; intros z.
  { simpl. by rewrite Z.mod_1_r. }
  simpl le_put. simpl le_get. rewrite IH, b2z_z2b.
  rewrite Nat2Z.inj_succ, Z.pow_succ_r by lia.
  rewrite Z.rem_mul_r by lia. done.
Qed.

Lemma le_put_get n bs : length bs = n → le_put n (le_get bs) = bs.
Proof.
  intros <-. induction bs as [|b bs IH]; [done|]. simpl.
  pose proof (b2z_bound b).
  replace ((b2z b + 256 * le_get bs) / 256) with (le_get bs).
  2: { rewrite Z.mul_comm, Z.div_add by lia. rewrite Z.div_small by lia. lia. }
  f_equal; [|done].
  apply (inj b2z). rewrite b2z_z2b, Z.mul_comm, Z_mod_plus_full, Z.mod_small by lia. done.
Qed.

Lemma be_get_put n z : be_get (be_put n z) = z mod 256 ^ Z.of_nat n.
Proof. unfold be_get, be_put. rewrite rev_involutive. apply le_get_put. Qed.
Lemma be_put_get n bs : length bs = n → be_put n (be_get bs) = bs.
Proof.
  intros. unfold be_get, be_put. rewrite le_put_get by (by rewrite length_rev).
  apply rev_involutive.
Qed.
Lemma be_get_bound bs : 0 <= be_get bs < 256 ^ zlen bs.
Proof.
  unfold be_get. pose proof (le_get_bound (rev bs)) as H. unfold zlen in *.
  by rewrite length_rev in H.
Qed.

(** Reading back a value that fits its field. *)
Lemma le_get_put_small n z :
  0 <= z < 256 ^ Z.of_nat n → le_get (le_put n z) = z.
Proof. intros. rewrite le_get_put. by apply Z.mod_small. Qed.
Lemma be_get_put_small n z :
  0 <= z < 256 ^ Z.of_nat n → be_get (be_put n z) = z.
Proof. intros. rewrite be_get_put. by apply Z.mod_small. Qed.

(** A signed 64-bit integer survives its unsigned encoding. *)
Definition is_i64 (z : Z) : Prop := - 2 ^ 63 <= z < 2 ^ 63.
#[global] Instance is_i64_dec z : Decision (is_i64 z).
Proof. unfold is_i64. apply _. Defined.
Lemma to_i64_mod z : is_i64 z → to_i64 (z mod 2 ^ 64) = z.
Proof.
  unfold to_i64, is_i64. intros H. rewrite Z.mod_mod by lia.
  destruct (decide (0 <= z)).
  - rewrite Z.mod_small by lia. case_match; lia.
  - replace (z mod 2 ^ 64) with (z + 2 ^ 64).
    + case_match; lia.
    + symmetry. rewrite <- (Z_mod_plus_full z 1). rewrite Z.mod_small; lia.
Qed.
Lemma to_i64_id z : is_i64 z → to_i64 z = z.
Proof.
  intros H. rewrite <- (to_i64_mod z H) at 2. unfold to_i64. by rewrite Z.mod_mod by lia.
Qed.
Lemma to_i64_get_put z : is_i64 z → to_i64 (le_get (le_put 8 (to_u64 z))) = z.
Proof.
  intros. rewrite le_get_put. unfold to_u64.
  change (256 ^ Z.of_nat 8) with (2 ^ 64). rewrite Z.mod_mod by lia.
  by apply to_i64_mod.
Qed.
Lemma to_u32_small z : 0 <= z < 2 ^ 32 → to_u32 z = z.
Proof. apply Z.mod_small. Qed.
Lemma to_u64_bound z : 0 <= to_u64 z < 2 ^ 64.
Proof. apply Z.mod_pos_bound. lia. Qed.
Lemma to_i64_is z : is_i64 (to_i64 z).
Proof.
  unfold to_i64, is_i64. pose proof (Z.mod_pos_bound z (2 ^ 64) ltac:(lia)).
  case_match; lia.
Qed.

(** ** Lemmas: writing into a buffer *)

Lemma zlen_copy_at dst off src :
  0 <= off → off + zlen src <= zlen dst → zlen (copy_at dst off src) = zlen dst.
Proof.
  unfold copy_at, zlen. intros. rewrite !length_app, !length_take, length_drop. lia.
Qed.

(** Writing at the start of a region of the same length. *)
Lemma copy_at_here src m b :
  length m = length src → copy_at (m ++ b) 0 src = src ++ b.
Proof.
  intros H. unfold copy_at. simpl. rewrite Nat.sub_0_r.
  rewrite take_ge by (rewrite length_app; lia).
  by rewrite <- H, drop_app_length.
Qed.
(** Writing past a prefix. *)
Lemma copy_at_skip a b off src o :
  off = zlen a + o → 0 <= o → copy_at (a ++ b) off src = a ++ copy_at b o src.
Proof.
  intros -> Ho. unfold copy_at, zlen.
  replace (Z.to_nat (Z.of_nat (length a) + o)) with (length a + Z.to_nat o)%nat by lia.
  rewrite take_app_add, <- (app_assoc a). f_equal. f_equal.
  f_equal; [f_equal; rewrite length_app; lia|].
  replace (length a + Z.to_nat o + length src)%nat with (length a + (Z.to_nat o + length src))%nat by lia.
  by rewrite drop_app_add.
Qed.
Lemma copy_at_mid a m b off src :
  off = zlen a → length m = length src → copy_at (a ++ m ++ b) off src = a ++ src ++ b.
Proof.
  intros -> H. rewrite (copy_at_skip a (m ++ b) _ src 0) by lia.
  by rewrite copy_at_here.
Qed.

Lemma copy_at_first src m b off :
  off = 0 → zlen m = zlen src → copy_at (m ++ b) off src = src ++ b.
Proof. intros -> H. apply copy_at_here. unfold zlen in H. lia. Qed.
Lemma copy_at_after a b off src :
  zlen a <= off → copy_at (a ++ b) off src = a ++ copy_at b (off - zlen a) src.
Proof. intros. apply copy_at_skip; lia. Qed.

(** [fill] evaluates successive writes into a buffer given piece by piece. *)
Ltac fill :=
  repeat first
    [ rewrite copy_at_first by zl
    | rewrite copy_at_after by zl ].

(** Cutting a prefix of known length off a buffer. *)
Lemma split_prefix {A} (l : list A) (n : nat) :
  (n <= length l)%nat → ∃ a b, l = a ++ b ∧ length a = n.
Proof.
  intros. exists (take n l), (drop n l). split; [by rewrite take_drop|].
  rewrite length_take. lia.
Qed.
Lemma split_at {A} (l : list A) (n : Z) :
  0 <= n <= zlen l → ∃ a b, l = a ++ b ∧ zlen a = n.
Proof.
  intros H. unfold zlen in H. destruct (split_prefix l (Z.to_nat n)) as (a & b & -> & Ha); [lia|].
  exists a, b. split; [done|]. unfold zlen. lia.
Qed.

(** [peel buf n as p] names the first [n] bytes of [buf] [p]. *)
Tactic Notation "peel" hyp(buf) constr(n) "as" ident(p) :=
  let q := fresh "rest" in let Hp := fresh "Hlen" in
  destruct (split_at buf n ltac:(zl)) as (p & q & -> & Hp); rename q into buf.

(** ** Lemmas: readers *)

Lemma ReadFull_app a b n :
  n = zlen a → 0 < n → io_ReadFull n (a ++ b) = (a, None, b).
Proof.
  intros -> H. unfold io_ReadFull. destruct (Z.leb_spec (zlen a) 0); [lia|].
  destruct a as [|x a]; [done|].
  rewrite slice_to_app, slice_from_app by done.
  destruct (Z.ltb_spec (zlen ((x :: a) ++ b)) (zlen (x :: a))) as [C|]; [|done].
  rewrite zlen_app in C. pose proof (zlen_nonneg b). lia.
Qed.

(** A reader with too few bytes left: EOF when empty, ErrUnexpectedEOF otherwise. *)
Lemma ReadFull_short n r :
  zlen r < n →
  io_ReadFull n r = (r, Some (ESentinel (match r with [] => io_EOF | _ => io_ErrUnexpectedEOF end)), []).
Proof.
  intros H. unfold io_ReadFull. pose proof (zlen_nonneg r).
  destruct (Z.leb_spec n 0); [lia|].
  destruct r; [done|]. by destruct (Z.ltb_spec (zlen (b :: r)) n); [|lia].
Qed.

(** A full read returns exactly [n] bytes and leaves the rest. *)
Lemma ReadFull_ok n r a rest :
  0 < n → io_ReadFull n r = (a, None, rest) → r = a ++ rest ∧ zlen a = n.
Proof.
  unfold io_ReadFull. intros Hn. destruct (Z.leb_spec n 0); [lia|].
  destruct r as [|x r]; [done|].
  destruct (Z.ltb_spec (zlen (x :: r)) n) as [|Hlen]; [done|]. intros [= <- <-].
  split; [by rewrite slice_to_from | apply zlen_slice_to; lia].
Qed.

Lemma ReadFull_cases n r :
  0 < n →
  (∃ a b, r = a ++ b ∧ zlen a = n ∧ io_ReadFull n r = (a, None, b)) ∨
  (zlen r < n ∧
   io_ReadFull n r = (r, Some (ESentinel (match r with [] => io_EOF | _ => io_ErrUnexpectedEOF end)), [])).
Proof.
  intros Hn. destruct (Z.lt_ge_cases (zlen r) n) as [|H]; [right; split; [done|by apply ReadFull_short]|].
  left. destruct (split_prefix r (Z.to_nat n)) as (a & b & -> & Ha).
  { unfold zlen in H. lia. }
  exists a, b. assert (zlen a = n) by (unfold zlen; lia).
  split; [done|]. split; [done|]. by apply ReadFull_app.
Qed.

(** ** Lemmas: the order of byte strings *)

Definition bytes_lt (a b : bytes) : Prop := bytes_Compare a b < 0.
Definition bytes_le (a b : bytes) : Prop := bytes_Compare a b <= 0.
#[global] Instance bytes_lt_dec a b : Decision (bytes_lt a b).
Proof. unfold bytes_lt. apply _. Defined.
#[global] Instance bytes_le_dec : RelDecision bytes_le.
Proof. intros a b. unfold bytes_le. apply _. Defined.

Lemma bytes_Compare_refl a : bytes_Compare a a = 0.
Proof. induction a as [|x a IH]; simpl; [done|]. by rewrite Z.ltb_irrefl. Qed.

Lemma bytes_Compare_antisym a b : bytes_Compare b a = - bytes_Compare a b.
Proof.
  revert b. induction a as [|x a IH]; intros [|y b]; simpl; try done.
  destruct (Z.ltb_spec (b2z x) (b2z y)), (Z.ltb_spec (b2z y) (b2z x)); try lia; done.
Qed.

Lemma bytes_Compare_eq a b : bytes_Compare a b = 0 ↔ a = b.
Proof.
  split; [|intros ->; apply bytes_Compare_refl].
  revert b. induction a as [|x a IH]; intros [|y b]; simpl; try done.
  destruct (Z.ltb_spec (b2z x) (b2z y)), (Z.ltb_spec (b2z y) (b2z x)); try done.
  intros H1%IH. f_equal; [|done]. apply (inj b2z). lia.
Qed.

Lemma bytes_le_trans a b c : bytes_le a b → bytes_le b c → bytes_le a c.
Proof.
  unfold bytes_le. revert b c. induction a as [|x a IH]; intros [|y b] [|z c]; simpl; try lia.
  destruct (Z.ltb_spec (b2z x) (b2z y)), (Z.ltb_spec (b2z y) (b2z x)),
    (Z.ltb_spec (b2z y) (b2z z)), (Z.ltb_spec (b2z z) (b2z y)),
    (Z.ltb_spec (b2z x) (b2z z)), (Z.ltb_spec (b2z z) (b2z x)); try lia.
  apply IH.
Qed.

#[global] Instance bytes_le_preorder : PreOrder bytes_le.
Proof.
  split; [|intros a b c; apply bytes_le_trans].
  intros a. unfold bytes_le. by rewrite bytes_Compare_refl.
Qed.
#[global] Instance bytes_le_antisymm : AntiSymm (=) bytes_le.
Proof.
  intros a b. unfold bytes_le. rewrite (bytes_Compare_antisym a b). intros.
  apply bytes_Compare_eq. lia.
Qed.
#[global] Instance bytes_le_total : Total bytes_le.
Proof. intros a b. unfold bytes_le. rewrite (bytes_Compare_antisym a b). lia. Qed.

Lemma bytes_lt_le a b : bytes_lt a b ↔ bytes_le a b ∧ a ≠ b.
Proof. unfold bytes_lt, bytes_le. rewrite <- bytes_Compare_eq. lia. Qed.

(** Keep encoders and integer operations folded under [simpl]. *)
#[global] Arguments le_put : simpl never.
#[global] Arguments be_put : simpl never.
#[global] Arguments le_get : simpl never.
#[global] Arguments be_get : simpl never.
#[global] Arguments z2b : simpl never.
#[global] Arguments b2z : simpl never.
#[global] Arguments zlen : simpl never.
#[global] Arguments slice : simpl never.
#[global] Arguments slice_to : simpl never.
#[global] Arguments slice_from : simpl never.
#[global] Arguments copy_at : simpl never.
#[global] Arguments Z.mul : simpl never.
#[global] Arguments Z.add : simpl never.
#[global] Arguments Z.sub : simpl never.
#[global] Arguments Z.pow : simpl never.
#[global] Arguments Z.modulo : simpl never.
#[global] Arguments Z.div : simpl never.
#[global] Arguments Z.shiftl : simpl never.
#[global] Arguments Z.shiftr : simpl never.
#[global] Arguments Z.lxor : simpl never.
#[global] Arguments Z.to_nat : simpl never.
#[global] Arguments Z.of_nat : simpl never.
