(* ===== verification/Crc32c.v ===== *)
(** * CRC-32C, as the engine uses it

    [hash/crc32] with the Castagnoli table ([crc32cTable] in
    src/internal/engine/record.go): records and hint files carry
    [crc32.Checksum] over everything but the field itself.  The checksum is
    computed here, not assumed; what the codecs rely on is proved of it, namely
    that changing one byte of the covered text changes the checksum. *)
From S2P Require Import Prelude.

(** The reflected Castagnoli polynomial. *)
Definition crc32_Castagnoli : Z := 0x82F63B78.

Definition crc_bit (c : Z) : Z :=
  if Z.odd c then Z.lxor (Z.shiftr c 1) crc32_Castagnoli else Z.shiftr c 1.

(** Entry [i] of [crc32.MakeTable(crc32.Castagnoli)]. *)
Definition crc32cTable (i : Z) : Z := Nat.iter 8 crc_bit i.

(** One byte of [crc32.Update]. *)
Definition crc_byte (c : Z) (b : byte) : Z :=
  Z.lxor (crc32cTable (Z.land (Z.lxor c (b2z b)) 255)) (Z.shiftr c 8).

(** [crc32.Checksum(bs, crc32cTable)]; a [crc32.New] hash written twice is the
    checksum of the concatenation. *)
Definition crc32_Checksum (bs : bytes) : Z :=
  Z.lxor (foldl crc_byte (2 ^ 32 - 1) bs) (2 ^ 32 - 1).

(** ** Bounds *)

Definition is_u32 (z : Z) : Prop := 0 <= z < 2 ^ 32.

Lemma land_lxor_ones a b n :
  Z.land (Z.lxor a b) n = Z.lxor (Z.land a n) (Z.land b n).
Proof.
  apply Z.bits_inj. intros i. rewrite Z.lxor_spec, !Z.land_spec, Z.lxor_spec.
  by destruct (Z.testbit a i), (Z.testbit b i), (Z.testbit n i).
Qed.

Lemma lxor_bound n a b : 0 <= n → 0 <= a < 2 ^ n → 0 <= b < 2 ^ n → 0 <= Z.lxor a b < 2 ^ n.
Proof.
  intros Hn Ha Hb.
  assert (H : Z.land (Z.lxor a b) (Z.ones n) = Z.lxor a b).
  { rewrite land_lxor_ones, !Z.land_ones by lia. by rewrite !Z.mod_small. }
  rewrite <- H, Z.land_ones by lia. apply Z.mod_pos_bound. lia.
Qed.

Lemma shiftr_div_bound c k n : 0 <= k → 0 <= n → 0 <= c < 2 ^ (n + k) → 0 <= Z.shiftr c k < 2 ^ n.
Proof.
  intros. rewrite Z.shiftr_div_pow2 by lia. split; [apply Z.div_pos; lia|].
  apply Z.div_lt_upper_bound; [lia|]. rewrite <- Z.pow_add_r by lia. rewrite (Z.add_comm k n). lia.
Qed.

Definition byte_range : list Z := seqZ 0 256.
Lemma elem_of_byte_range i : i ∈ byte_range ↔ 0 <= i < 256.
Proof. unfold byte_range. rewrite elem_of_seqZ. lia. Qed.

(** Facts about the 256 table entries, by evaluation. *)
Lemma table_bound i : 0 <= i < 256 → is_u32 (crc32cTable i).
Proof.
  intros Hi%elem_of_byte_range. revert i Hi. apply Forall_forall.
  apply (bool_decide_unpack _). vm_compute. exact I.
Qed.

(** The top byte of a table entry determines its index. *)
Definition table_top (i : Z) : Z := Z.shiftr (crc32cTable i) 24.
Lemma table_top_NoDup : NoDup (table_top <$> byte_range).
Proof. apply (bool_decide_unpack _). vm_compute. exact I. Qed.
Lemma table_top_inj i j :
  0 <= i < 256 → 0 <= j < 256 → table_top i = table_top j → i = j.
Proof.
  intros Hi Hj E.
  assert (Hl : ∀ x, 0 <= x < 256 → (table_top <$> byte_range) !! Z.to_nat x = Some (table_top x)).
  { intros x Hx. rewrite list_lookup_fmap. unfold byte_range.
    rewrite lookup_seqZ_lt by lia. simpl. do 2 f_equal. lia. }
  pose proof (Hl i Hi) as H1. rewrite E in H1.
  pose proof (NoDup_lookup _ _ _ _ table_top_NoDup H1 (Hl j Hj)). lia.
Qed.

Lemma land_255 z : Z.land z 255 = z mod 2 ^ 8.
Proof. apply (Z.land_ones z 8). lia. Qed.
Lemma land_255_bound z : 0 <= Z.land z 255 < 256.
Proof. rewrite land_255. apply Z.mod_pos_bound. lia. Qed.

Lemma crc_byte_bound c b : is_u32 c → is_u32 (crc_byte c b).
Proof.
  unfold is_u32. intros Hc. unfold crc_byte. apply lxor_bound; [lia| |].
  - apply table_bound, land_255_bound.
  - apply (shiftr_div_bound c 8 32); lia.
Qed.
Lemma foldl_crc_bound bs c : is_u32 c → is_u32 (foldl crc_byte c bs).
Proof. revert c. induction bs; intros; simpl; auto using crc_byte_bound. Qed.
Lemma Checksum_bound bs : is_u32 (crc32_Checksum bs).
Proof.
  apply lxor_bound; [lia| |lia]. apply foldl_crc_bound. unfold is_u32. lia.
Qed.

(** ** Sensitivity to a changed byte *)

Lemma shiftr_lxor a b n : Z.shiftr (Z.lxor a b) n = Z.lxor (Z.shiftr a n) (Z.shiftr b n).
Proof. apply Z.shiftr_lxor. Qed.

Lemma lxor_cancel_l a b c : Z.lxor a b = Z.lxor a c → b = c.
Proof.
  intros H. rewrite <- (Z.lxor_0_l b), <- (Z.lxor_0_l c), <- (Z.lxor_nilpotent a).
  rewrite !Z.lxor_assoc. by rewrite H.
Qed.

(** Equal successors come from equal table indices and equal upper bytes. *)
Lemma crc_byte_cancel c b c' b' :
  is_u32 c → is_u32 c' → crc_byte c b = crc_byte c' b' →
  Z.land (Z.lxor c (b2z b)) 255 = Z.land (Z.lxor c' (b2z b')) 255
  ∧ Z.shiftr c 8 = Z.shiftr c' 8.
Proof.
  unfold is_u32. intros Hc Hc' E.
  assert (Hi : Z.land (Z.lxor c (b2z b)) 255 = Z.land (Z.lxor c' (b2z b')) 255).
  { apply table_top_inj; [apply land_255_bound..|]. unfold table_top.
    apply (f_equal (λ z, Z.shiftr z 24)) in E. unfold crc_byte in E.
    rewrite !shiftr_lxor, !(Z.shiftr_shiftr _ 8 24) in E by lia.
    rewrite !(Z.shiftr_div_pow2 _ (8 + 24)), !(Z.div_small _ (2 ^ (8 + 24))) in E by lia.
    by rewrite !Z.lxor_0_r in E. }
  split; [done|]. unfold crc_byte in E. rewrite Hi in E. by apply lxor_cancel_l in E.
Qed.

Lemma crc_byte_inj_l c c' b : is_u32 c → is_u32 c' → crc_byte c b = crc_byte c' b → c = c'.
Proof.
  intros Hc Hc' E. destruct (crc_byte_cancel c b c' b Hc Hc' E) as [Hi Hs].
  rewrite !land_lxor_ones, !(Z.lxor_comm _ (Z.land (b2z b) 255)) in Hi.
  apply lxor_cancel_l in Hi.
  rewrite !land_255 in Hi. rewrite !(Z.shiftr_div_pow2 _ 8) in Hs by lia.
  rewrite (Z.div_mod c (2 ^ 8)), (Z.div_mod c' (2 ^ 8)) by lia. lia.
Qed.

Lemma crc_byte_inj_r c b b' : is_u32 c → crc_byte c b = crc_byte c b' → b = b'.
Proof.
  intros Hc E. destruct (crc_byte_cancel c b c b' Hc Hc E) as [Hi _].
  rewrite !land_lxor_ones in Hi. apply lxor_cancel_l in Hi.
  rewrite !land_255 in Hi.
  rewrite !(Z.mod_small (b2z _) (2 ^ 8)) in Hi by (apply b2z_bound).
  by apply (inj b2z).
Qed.

Lemma foldl_crc_inj bs c c' :
  is_u32 c → is_u32 c' → foldl crc_byte c bs = foldl crc_byte c' bs → c = c'.
Proof.
  revert c c'. induction bs as [|b bs IH]; intros c c' Hc Hc' E; [done|]. simpl in E.
  apply IH in E; [|by apply crc_byte_bound..]. by eapply crc_byte_inj_l.
Qed.

(** Changing exactly one byte changes the checksum. *)
Lemma Checksum_one_byte pre b b' post :
  b ≠ b' → crc32_Checksum (pre ++ b :: post) ≠ crc32_Checksum (pre ++ b' :: post).
Proof.
  intros Hb E. apply Hb. unfold crc32_Checksum in E.
  rewrite !(Z.lxor_comm _ (2 ^ 32 - 1)) in E. apply lxor_cancel_l in E.
  rewrite !foldl_app in E. simpl in E.
  assert (H : is_u32 (foldl crc_byte (2 ^ 32 - 1) pre)) by (apply foldl_crc_bound; unfold is_u32; lia).
  apply foldl_crc_inj in E; [|by apply crc_byte_bound..]. by eapply crc_byte_inj_r.
Qed.

(** The check value of CRC-32C for "123456789". *)
Example crc_check_value :
  crc32_Checksum (z2b <$> [49;50;51;52;53;54;55;56;57]) = 0xE3069283.
Proof. vm_compute. reflexivity. Qed.

(** A text whose first four bytes hold the checksum of the rest. *)
Definition checksummed (l : bytes) : Prop :=
  crc32_Checksum (slice_from l 4) = le_get (slice l 0 4).

Lemma checksummed_one_byte pre b b' post :
  4 <= zlen (pre ++ b :: post) → b ≠ b' →
  checksummed (pre ++ b :: post) → ¬ checksummed (pre ++ b' :: post).
Proof.
  unfold checksummed. intros Hlen Hb H H'. rewrite !zlen_app, !zlen_cons in Hlen.
  destruct (Z.lt_ge_cases (zlen pre) 4) as [Hs|Hs].
  - (* in the checksum field *)
    destruct (split_at post (3 - zlen pre)) as (q & r & -> & Hq); [zl|].
    assert (E : ∀ x, slice (pre ++ x :: q ++ r) 0 4 = pre ++ x :: q
                     ∧ slice_from (pre ++ x :: q ++ r) 4 = r).
    { intros x. change (x :: q ++ r) with ((x :: q) ++ r). rewrite app_assoc. split.
      - apply slice_head; zl.
      - apply slice_from_app. zl. }
    destruct (E b) as [E1 E2], (E b') as [E1' E2']. rewrite E1, E2 in H. rewrite E1', E2' in H'.
    rewrite H in H'. apply (f_equal (le_put 4)) in H'.
    rewrite !le_put_get in H' by (unfold zlen in *; rewrite length_app; simpl; lia).
    apply app_inv_head in H'. congruence.
  - (* in the covered text *)
    rewrite !slice_app_l in H, H' by lia. rewrite <- H in H'.
    destruct (split_at pre 4) as (h & t & -> & Hh); [zl|].
    rewrite <- !app_assoc, !(slice_from_app h) in H' by done.
    by apply Checksum_one_byte in H'.
Qed.

(** The same with the checksum in the last four bytes. *)
Definition trailer_checksummed (l : bytes) : Prop :=
  le_get (slice_from l (zlen l - 4)) = crc32_Checksum (slice_to l (zlen l - 4)).

Lemma trailer_split (text crc : bytes) :
  zlen crc = 4 →
  slice_from (text ++ crc) (zlen (text ++ crc) - 4) = crc
  ∧ slice_to (text ++ crc) (zlen (text ++ crc) - 4) = text.
Proof. intros. split; [apply slice_from_app; zl | apply slice_to_app; zl]. Qed.

Lemma trailer_checksummed_one_byte pre b b' post :
  4 <= zlen (pre ++ b :: post) → b ≠ b' →
  trailer_checksummed (pre ++ b :: post) → ¬ trailer_checksummed (pre ++ b' :: post).
Proof.
  unfold trailer_checksummed. intros Hlen Hb. rewrite !zlen_app, !zlen_cons in Hlen.
  destruct (Z.lt_ge_cases (zlen post) 4) as [Hs|Hs].
  - (* in the checksum field *)
    destruct (split_at pre (zlen pre - (3 - zlen post))) as (q & r & -> & Hq); [zl|].
    intros H H'.
    assert (E : ∀ x, (q ++ r) ++ x :: post = q ++ (r ++ x :: post)) by (intros; by rewrite <- app_assoc).
    rewrite !E in H, H'.
    assert (Hr : zlen r = 3 - zlen post) by zl.
    destruct (trailer_split q (r ++ b :: post)) as [E1 E2]; [zl|].
    destruct (trailer_split q (r ++ b' :: post)) as [E1' E2']; [zl|].
    rewrite E1, E2 in H. rewrite E1', E2', <- H in H'. apply (f_equal (le_put 4)) in H'.
    rewrite !le_put_get in H' by (unfold zlen in *; rewrite length_app; simpl; lia).
    apply app_inv_head in H'. congruence.
  - destruct (split_at post (zlen post - 4)) as (q & crc & -> & Hq); [lia|].
    intros H H'.
    assert (E : ∀ x, pre ++ x :: q ++ crc = (pre ++ x :: q) ++ crc) by (intros; by rewrite <- app_assoc).
    rewrite !E in H, H'.
    destruct (trailer_split (pre ++ b :: q) crc) as [E1 E2]; [zl|].
    destruct (trailer_split (pre ++ b' :: q) crc) as [E1' E2']; [zl|].
    rewrite E1, E2 in H. rewrite E1', E2' in H'. rewrite H in H'.
    by apply Checksum_one_byte in H'.
Qed.
