(* ===== verification/LogRecord.v ===== *)
(** * The record codec (src/internal/engine/record.go)

    PUT, TOMBSTONE and BATCH records: [encode] and [encodeBatchRecord] fill a
    caller's buffer field by field as the code does, [readRecord] and
    [decodeBatchBody] parse.  The reference format is [record_image]; the
    encoders are proved to produce it whatever the buffer held before. *)
From S2P Require Import Prelude Crc32c.

(** ** Constants *)

Definition recordHeaderSize : Z := 4 + 8 + 1 + 4 + 4.
Definition maxKeyLen : Z := 64 * 1024.
Definition maxValLen : Z := 16 * 1024 * 1024.
Definition batchCountSize : Z := 4.
Definition batchEntryHeaderSize : Z := 1 + 4 + 4.
Definition maxBatchBodyLen : Z := Z.shiftl 1 30.
Definition maxBatchEntries : Z := Z.shiftl 1 20.

Definition recordFlagPut : Z := 0.
Definition recordFlagTombstone : Z := 1.
Definition recordFlagBatch : Z := 2.

Definition errBadCRC : string := "record: crc mismatch".
Definition errBadFlag : string := "record: unknown flag".
Definition errKeyTooLarge : string := "record: key exceeds max size".
Definition errValueTooLarge : string := "record: value exceeds max size".
Definition errBadBatchBody : string := "record: malformed batch body".

(** ** Data *)

(** [record]; a nil value is the empty list. *)
Record record := mkRecord {
  rec_tstamp : Z;
  rec_flag : Z;
  rec_key : bytes;
  rec_value : bytes;
}.

(** [BatchEntry] (engine.go). *)
Record BatchEntry := mkBatchEntry {
  be_Key : bytes;
  be_Value : bytes;
  be_Delete : bool;
}.

Record batchEntryDecoded := mkBatchEntryDecoded {
  bd_flag : Z;
  bd_key : bytes;
  bd_value : bytes;
  bd_valuePos : Z;
}.

(** ** Single records *)

Definition encodedSize (r : record) : Z :=
  recordHeaderSize + zlen (rec_key r) + zlen (rec_value r).

(** [encode]: the number of bytes written or the error, and the buffer. *)
Definition encode (r : record) (buf : bytes) : result Z * bytes :=
  if (zlen (rec_key r) =? 0) || (maxKeyLen <? zlen (rec_key r))
  then (Err (ESentinel errKeyTooLarge), buf)
  else if maxValLen <? zlen (rec_value r)
  then (Err (ESentinel errValueTooLarge), buf)
  else
    let n := encodedSize r in
    if zlen buf <? n then (Err (ESentinel io_ErrShortBuffer), buf)
    else
      let buf := copy_at buf 4 (le_put 8 (to_u64 (rec_tstamp r))) in
      let buf := copy_at buf 12 [z2b (rec_flag r)] in
      let buf := copy_at buf 13 (le_put 4 (to_u32 (zlen (rec_key r)))) in
      let buf := copy_at buf 17 (le_put 4 (to_u32 (zlen (rec_value r)))) in
      let buf := copy_at buf recordHeaderSize (rec_key r) in
      let buf := copy_at buf (recordHeaderSize + zlen (rec_key r)) (rec_value r) in
      let sum := crc32_Checksum (slice buf 4 n) in
      let buf := copy_at buf 0 (le_put 4 sum) in
      (Ok n, buf).

(** The header checks of [readRecord], by kind of record. *)
Definition header_bad (flag keyLen valLen : Z) : option string :=
  if negb (flag =? recordFlagPut) && negb (flag =? recordFlagTombstone)
     && negb (flag =? recordFlagBatch)
  then Some errBadFlag
  else if flag =? recordFlagBatch then
    if negb (keyLen =? 0) then Some errBadFlag
    else if valLen <? batchCountSize then Some errBadBatchBody
    else if maxBatchBodyLen <? valLen then Some errBadBatchBody
    else None
  else if (keyLen =? 0) || (maxKeyLen <? keyLen) then Some errKeyTooLarge
  else if maxValLen <? valLen then Some errValueTooLarge
  else None.

(** [readRecord] on the unread bytes of a reader: the record or the error, the
    reported byte count, and the bytes left unread. *)
Definition readRecord (r : bytes) : result record * Z * bytes :=
  match io_ReadFull recordHeaderSize r with
  | (_, Some err, r) => (Err err, 0, r)
  | (hdr, None, r) =>
    let expectedCRC := le_get (slice hdr 0 4) in
    let tstamp := to_i64 (le_get (slice hdr 4 12)) in
    let flag := byte_at hdr 12 in
    let keyLen := le_get (slice hdr 13 17) in
    let valLen := le_get (slice hdr 17 21) in
    match header_bad flag keyLen valLen with
    | Some e => (Err (ESentinel e), recordHeaderSize, r)
    | None =>
      match io_ReadFull (to_u32 (keyLen + valLen)) r with
      | (_, Some err, r) => (Err err, recordHeaderSize, r)
      | (body, None, r) =>
        if negb (crc32_Checksum (slice_from hdr 4 ++ body) =? expectedCRC)
        then (Err (ESentinel errBadCRC), recordHeaderSize + zlen body, r)
        else
          let value :=
            if flag =? recordFlagBatch then body
            else if flag =? recordFlagPut then slice_from body keyLen
            else [] in
          (Ok (mkRecord tstamp flag (slice_to body keyLen) value),
           recordHeaderSize + zlen body, r)
      end
    end
  end.

(** ** Batch records *)

(** The decode loop of [decodeBatchBody]: [n] entries to go, the next at [off]. *)
Fixpoint decodeBatchEntries (n : nat) (body : bytes) (recordStart off : Z)
    : result (Z * list batchEntryDecoded) :=
  match n with
  | O => Ok (off, [])
  | S n' =>
    let bad s := Err (EWrap s [ESentinel errBadBatchBody]) in
    if zlen body <? off + batchEntryHeaderSize then bad "%w: entry %d header past body end"%string
    else
      let innerFlag := byte_at body off in
      let kLen := le_get (slice body (off + 1) (off + 5)) in
      let vLen := le_get (slice body (off + 5) (off + 9)) in
      if negb (innerFlag =? recordFlagPut) && negb (innerFlag =? recordFlagTombstone)
      then bad "%w: entry %d unknown inner flag %d"%string
      else if (kLen =? 0) || (maxKeyLen <? kLen) then bad "%w: entry %d invalid key length %d"%string
      else if maxValLen <? vLen then bad "%w: entry %d invalid value length %d"%string
      else if (innerFlag =? recordFlagTombstone) && negb (vLen =? 0)
      then bad "%w: entry %d tombstone with non-zero value"%string
      else
        let kvEnd := off + batchEntryHeaderSize + kLen + vLen in
        if zlen body <? kvEnd then bad "%w: entry %d body past body end"%string
        else
          let key := slice body (off + batchEntryHeaderSize) (off + batchEntryHeaderSize + kLen) in
          let value := if innerFlag =? recordFlagPut
                       then slice body (off + batchEntryHeaderSize + kLen) kvEnd else [] in
          let absValuePos := recordStart + (recordHeaderSize + off + batchEntryHeaderSize + kLen) in
          let? (off', out) := decodeBatchEntries n' body recordStart kvEnd in
          Ok (off', mkBatchEntryDecoded innerFlag key value absValuePos :: out)
  end.

Definition decodeBatchBody (body : bytes) (recordStart : Z) : result (list batchEntryDecoded) :=
  let bad s := Err (EWrap s [ESentinel errBadBatchBody]) in
  if zlen body <? batchCountSize then bad "%w: body too short for count"%string
  else
    let count := le_get (slice body 0 4) in
    if maxBatchEntries <? count then bad "%w: count=%d exceeds maxBatchEntries=%d"%string
    else
      let minEntryBytes := batchEntryHeaderSize + 1 in
      let maxPossibleEntries := (zlen body - batchCountSize) / minEntryBytes in
      if maxPossibleEntries <? count then bad "%w: count=%d exceeds capacity of %d-byte body"%string
      else
        let? (off, out) := decodeBatchEntries (Z.to_nat count) body recordStart batchCountSize in
        if negb (off =? zlen body) then bad "%w: %d trailing bytes after %d entries"%string
        else Ok out.

Definition entryBodySize (e : BatchEntry) : Z :=
  batchEntryHeaderSize + zlen (be_Key e) + (if be_Delete e then 0 else zlen (be_Value e)).

Definition encodedBatchBodySize (entries : list BatchEntry) : Z :=
  foldl (λ n e, n + entryBodySize e) batchCountSize entries.

(** The loop of [encodeBatchRecord]: entries written from [off] on. *)
Fixpoint encodeBatchEntries (entries : list BatchEntry) (buf : bytes) (off : Z)
    : result Z * bytes :=
  match entries with
  | [] => (Ok off, buf)
  | e :: entries' =>
    if (zlen (be_Key e) =? 0) || (maxKeyLen <? zlen (be_Key e))
    then (Err (ESentinel errKeyTooLarge), buf)
    else if negb (be_Delete e) && (maxValLen <? zlen (be_Value e))
    then (Err (ESentinel errValueTooLarge), buf)
    else
      let innerFlag := if be_Delete e then recordFlagTombstone else recordFlagPut in
      let v := if be_Delete e then [] else be_Value e in
      let buf := copy_at buf off [z2b innerFlag] in
      let buf := copy_at buf (off + 1) (le_put 4 (to_u32 (zlen (be_Key e)))) in
      let buf := copy_at buf (off + 5) (le_put 4 (to_u32 (zlen v))) in
      let buf := copy_at buf (off + batchEntryHeaderSize) (be_Key e) in
      let buf := copy_at buf (off + batchEntryHeaderSize + zlen (be_Key e)) v in
      encodeBatchEntries entries' buf (off + batchEntryHeaderSize + zlen (be_Key e) + zlen v)
  end.

Definition encodeBatchRecord (buf : bytes) (tstamp : Z) (entries : list BatchEntry)
    : result Z * bytes :=
  let bodyLen := encodedBatchBodySize entries in
  let total := recordHeaderSize + bodyLen in
  if zlen buf <? total then (Err (ESentinel io_ErrShortBuffer), buf)
  else
    let buf := copy_at buf 4 (le_put 8 (to_u64 tstamp)) in
    let buf := copy_at buf 12 [z2b recordFlagBatch] in
    let buf := copy_at buf 13 (le_put 4 0) in
    let buf := copy_at buf 17 (le_put 4 (to_u32 bodyLen)) in
    let buf := copy_at buf recordHeaderSize (le_put 4 (to_u32 (zlen entries))) in
    match encodeBatchEntries entries buf (recordHeaderSize + batchCountSize) with
    | (Err e, buf) => (Err e, buf)
    | (Ok _, buf) =>
      let sum := crc32_Checksum (slice buf 4 total) in
      let buf := copy_at buf 0 (le_put 4 sum) in
      (Ok total, buf)
    end.

(** ** The reference format *)

(** The header after its CRC field. *)
Definition header_tail (ts flag klen vlen : Z) : bytes :=
  le_put 8 (to_u64 ts) ++ [z2b flag] ++ le_put 4 klen ++ le_put 4 vlen.

Definition record_image (ts flag klen vlen : Z) (body : bytes) : bytes :=
  (le_put 4 (crc32_Checksum (header_tail ts flag klen vlen ++ body))
     ++ header_tail ts flag klen vlen) ++ body.

Definition put_image (r : record) : bytes :=
  record_image (rec_tstamp r) (rec_flag r) (zlen (rec_key r)) (zlen (rec_value r))
    (rec_key r ++ rec_value r).

Definition entry_flag (e : BatchEntry) : Z :=
  if be_Delete e then recordFlagTombstone else recordFlagPut.
Definition entry_value (e : BatchEntry) : bytes :=
  if be_Delete e then [] else be_Value e.
Definition entry_image (e : BatchEntry) : bytes :=
  [z2b (entry_flag e)] ++ le_put 4 (zlen (be_Key e)) ++ le_put 4 (zlen (entry_value e))
    ++ be_Key e ++ entry_value e.
Definition entries_image (es : list BatchEntry) : bytes := concat (entry_image <$> es).
Definition batch_body (es : list BatchEntry) : bytes :=
  le_put 4 (zlen es) ++ entries_image es.
Definition batch_image (ts : Z) (es : list BatchEntry) : bytes :=
  record_image ts recordFlagBatch 0 (zlen (batch_body es)) (batch_body es).

(** What the writer accepts. *)
Definition key_ok (k : bytes) : Prop := 0 < zlen k <= maxKeyLen.
Definition value_ok (v : bytes) : Prop := zlen v <= maxValLen.
Definition record_ok (r : record) : Prop :=
  is_i64 (rec_tstamp r) ∧ key_ok (rec_key r) ∧ value_ok (rec_value r)
  ∧ (rec_flag r = recordFlagPut ∨ rec_flag r = recordFlagTombstone ∧ rec_value r = []).
Definition entry_ok (e : BatchEntry) : Prop :=
  key_ok (be_Key e) ∧ (be_Delete e = false → value_ok (be_Value e)).
Definition batch_ok (es : list BatchEntry) : Prop :=
  Forall entry_ok es ∧ zlen es <= maxBatchEntries ∧ zlen (batch_body es) <= maxBatchBodyLen.

(** The header fields [readRecord] and the recovery scan accept. *)
Definition header_ok (flag klen vlen : Z) : Prop :=
  (flag = recordFlagBatch ∧ klen = 0 ∧ batchCountSize <= vlen <= maxBatchBodyLen) ∨
  ((flag = recordFlagPut ∨ flag = recordFlagTombstone)
   ∧ 0 < klen <= maxKeyLen ∧ 0 <= vlen <= maxValLen).

#[global] Instance key_ok_dec k : Decision (key_ok k).
Proof. unfold key_ok. apply _. Defined.
#[global] Instance value_ok_dec v : Decision (value_ok v).
Proof. unfold value_ok. apply _. Defined.
#[global] Instance record_ok_dec r : Decision (record_ok r).
Proof. unfold record_ok. apply _. Defined.
#[global] Instance entry_ok_dec e : Decision (entry_ok e).
Proof. unfold entry_ok. apply _. Defined.
#[global] Instance batch_ok_dec es : Decision (batch_ok es).
Proof. unfold batch_ok. apply _. Defined.
#[global] Instance header_ok_dec f k v : Decision (header_ok f k v).
Proof. unfold header_ok. apply _. Defined.

Ltac consts :=
  unfold key_ok, value_ok, header_ok, recordHeaderSize, maxKeyLen, maxValLen, batchCountSize,
    batchEntryHeaderSize, maxBatchBodyLen, maxBatchEntries, recordFlagPut, recordFlagTombstone,
    recordFlagBatch in *;
  change (Z.shiftl 1 30) with 1073741824 in *;
  change (Z.shiftl 1 20) with 1048576 in *.

Lemma zlen_header_tail ts f k v : zlen (header_tail ts f k v) = 17.
Proof. unfold header_tail. zl. Qed.
#[export] Hint Rewrite zlen_header_tail : golen.
Lemma zlen_record_image ts f k v body : zlen (record_image ts f k v body) = 21 + zlen body.
Proof. unfold record_image. zl. Qed.
#[export] Hint Rewrite zlen_record_image : golen.
Lemma zlen_entry_image e : zlen (entry_image e) = entryBodySize e.
Proof.
  unfold entry_image, entryBodySize, entry_value. consts. destruct (be_Delete e); zl.
Qed.
#[export] Hint Rewrite zlen_entry_image : golen.

#[global] Arguments entry_image : simpl never.
#[global] Arguments record_image : simpl never.

Lemma foldl_entryBodySize es n :
  foldl (λ n e, n + entryBodySize e) n es = n + zlen (entries_image es).
Proof.
  unfold entries_image. revert n.
  induction es as [|e es IH]; intros n; cbn [fmap list_fmap concat foldl]; [rewrite zlen_nil; lia|].
  rewrite IH. zl.
Qed.
Lemma encodedBatchBodySize_spec es : encodedBatchBodySize es = zlen (batch_body es).
Proof.
  unfold encodedBatchBodySize, batch_body. rewrite foldl_entryBodySize. consts. zl.
Qed.

Lemma entryBodySize_min e : entry_ok e → 10 <= entryBodySize e.
Proof.
  intros [Hk _]. unfold entryBodySize. consts. destruct (be_Delete e); zl.
Qed.
Lemma entries_image_min es : Forall entry_ok es → 10 * zlen es <= zlen (entries_image es).
Proof.
  unfold entries_image. induction 1 as [|e es He _ IH]; [done|].
  apply entryBodySize_min in He. cbn [fmap list_fmap concat]. zl.
Qed.

(** *** Fields of a header *)

Definition header (crc ts flag klen vlen : Z) : bytes :=
  le_put 4 crc ++ header_tail ts flag klen vlen.

Lemma zlen_header c ts f k v : zlen (header c ts f k v) = 21.
Proof. unfold header. zl. Qed.
#[export] Hint Rewrite zlen_header : golen.

Section header_fields.
Context (c ts f k v : Z).
Lemma header_crc : slice (header c ts f k v) 0 4 = le_put 4 c.
Proof. unfold header. by fields. Qed.
Lemma header_tstamp : slice (header c ts f k v) 4 12 = le_put 8 (to_u64 ts).
Proof. unfold header, header_tail. by fields. Qed.
Lemma header_flag : byte_at (header c ts f k v) 12 = f mod 256.
Proof. unfold header, header_tail. fields. apply b2z_z2b. Qed.
Lemma header_keyLen : slice (header c ts f k v) 13 17 = le_put 4 k.
Proof. unfold header, header_tail. by fields. Qed.
Lemma header_valLen : slice (header c ts f k v) 17 21 = le_put 4 v.
Proof. unfold header, header_tail. rewrite <- (app_nil_r (le_put 4 v)) at 1. by fields. Qed.
Lemma header_from_4 : slice_from (header c ts f k v) 4 = header_tail ts f k v.
Proof. unfold header. apply slice_from_app. zl. Qed.
End header_fields.

(** Every 21-byte string is the header of its own fields. *)
Lemma header_eta hdr :
  zlen hdr = 21 →
  hdr = header (le_get (slice hdr 0 4)) (to_i64 (le_get (slice hdr 4 12))) (byte_at hdr 12)
          (le_get (slice hdr 13 17)) (le_get (slice hdr 17 21)).
Proof.
  intros H.
  assert (∃ a b f k v, hdr = a ++ b ++ [f] ++ k ++ v ∧ length a = 4%nat ∧ length b = 8%nat
            ∧ length k = 4%nat ∧ length v = 4%nat) as (a & b & f & k & v & -> & Ha & Hb & Hk & Hv).
  { unfold zlen in H. do 21 (destruct hdr as [|? hdr]; [simpl in H; lia|]).
    destruct hdr; [|simpl in H; lia].
    eexists [_;_;_;_], [_;_;_;_;_;_;_;_], _, [_;_;_;_], [_;_;_;_]. done. }
  clear H.
  assert (zlen a = 4 ∧ zlen b = 8 ∧ zlen k = 4 ∧ zlen v = 4) as (Za & Zb & Zk & Zv)
    by (unfold zlen; lia).
  unfold header, header_tail.
  rewrite <- (app_nil_r v). fields. rewrite app_nil_r.
  rewrite !le_put_get by done. rewrite z2b_b2z. f_equal. f_equal.
  unfold to_i64, to_u64. rewrite <- (le_put_get 8 b) at 1 by done. f_equal.
  pose proof (le_get_bound b). rewrite Zb in *. change (256 ^ 8) with (2 ^ 64) in *.
  rewrite (Z.mod_small (le_get b)) by lia. case_match; [by rewrite Z.mod_small|].
  rewrite <- (Z_mod_plus_full _ 1), Z.mod_small; lia.
Qed.

(** *** The encoders produce the format, whatever the buffer held *)

Lemma encode_image r buf :
  key_ok (rec_key r) → value_ok (rec_value r) → encodedSize r <= zlen buf →
  encode r buf = (Ok (encodedSize r), put_image r ++ slice_from buf (encodedSize r)).
Proof.
  intros Hk Hv Hb. unfold encode. unfold encodedSize in *. consts.
  destruct (Z.eqb_spec (zlen (rec_key r)) 0); [lia|].
  destruct (Z.ltb_spec (64 * 1024) (zlen (rec_key r))); [lia|].
  destruct (Z.ltb_spec (16 * 1024 * 1024) (zlen (rec_value r))); [lia|].
  destruct (Z.ltb_spec (zlen buf) (4 + 8 + 1 + 4 + 4 + zlen (rec_key r) + zlen (rec_value r))); [lia|].
  cbn [orb]. cbv zeta.
  set (K := rec_key r) in *. set (V := rec_value r) in *.
  peel buf 4 as p1. peel buf 8 as p2. peel buf 1 as p3. peel buf 4 as p4. peel buf 4 as p5.
  peel buf (zlen K) as p6. peel buf (zlen V) as p7.
  fill. fields.
  rewrite !to_u32_small by zl.
  replace (slice _ _ _)
    with (header_tail (rec_tstamp r) (rec_flag r) (zlen K) (zlen V) ++ K ++ V).
  { unfold put_image, record_image, header_tail. by rewrite <- !app_assoc. }
  slice_is (header_tail (rec_tstamp r) (rec_flag r) (zlen K) (zlen V) ++ K ++ V) buf.
  unfold header_tail. by rewrite <- !app_assoc.
Qed.

(** The batch encoder's loop writes the entry images one after the other. *)
Lemma encodeBatchEntries_image es pre m post off :
  Forall entry_ok es → off = zlen pre → zlen m = zlen (entries_image es) →
  encodeBatchEntries es (pre ++ m ++ post) off
  = (Ok (off + zlen (entries_image es)), pre ++ entries_image es ++ post).
Proof.
  unfold entries_image. intros Hok. revert pre m off.
  induction Hok as [|e es [Hk Hv] _ IH]; intros pre m off -> Hm;
    cbn [fmap list_fmap concat encodeBatchEntries] in *.
  { apply zlen_0 in Hm as ->. by rewrite zlen_nil, Z.add_0_r. }
  pose proof (zlen_entry_image e) as He. unfold entryBodySize in He.
  assert (0 < zlen (be_Key e) <= maxKeyLen ∧ zlen (entry_value e) <= maxValLen) as [HK HV].
  { unfold entry_value. destruct (be_Delete e); consts; [split; [done|rewrite zlen_nil; lia]|auto]. }
  destruct (Z.eqb_spec (zlen (be_Key e)) 0); [lia|].
  destruct (Z.ltb_spec maxKeyLen (zlen (be_Key e))); [lia|]. cbn [orb].
  replace (negb (be_Delete e) && (maxValLen <? zlen (be_Value e))) with false.
  2: { unfold entry_value in HV. destruct (be_Delete e); [done|]. cbn. symmetry. by apply Z.ltb_ge. }
  change (if be_Delete e then recordFlagTombstone else recordFlagPut) with (entry_flag e).
  change (if be_Delete e then [] else be_Value e) with (entry_value e).
  assert (Hs : zlen (entry_image e) = 9 + zlen (be_Key e) + zlen (entry_value e)).
  { rewrite He. unfold entry_value. consts. destruct (be_Delete e); zl. }
  consts. set (K := be_Key e) in *. set (V := entry_value e) in *.
  peel m 1 as p1. peel m 4 as p2. peel m 4 as p3. peel m (zlen K) as p4. peel m (zlen V) as p5.
  rewrite <- !app_assoc. cbv zeta. fill. rewrite !to_u32_small by zl.
  transitivity (encodeBatchEntries es ((pre ++ entry_image e) ++ m ++ post) (zlen (pre ++ entry_image e))).
  - unfold entry_image. fold K V. rewrite <- !app_assoc. f_equal. zl.
  - rewrite IH; [|zl..]. f_equal; [f_equal; zl|]. by rewrite <- !app_assoc.
Qed.

Lemma encodeBatchRecord_image buf ts es :
  batch_ok es → recordHeaderSize + encodedBatchBodySize es <= zlen buf →
  encodeBatchRecord buf ts es
  = (Ok (recordHeaderSize + encodedBatchBodySize es),
     batch_image ts es ++ slice_from buf (recordHeaderSize + encodedBatchBodySize es)).
Proof.
  intros (Hes & Hcount & Hsize) Hb. unfold encodeBatchRecord.
  rewrite encodedBatchBodySize_spec in *.
  assert (Hbody : zlen (batch_body es) = 4 + zlen (entries_image es)) by (unfold batch_body; zl).
  destruct (Z.ltb_spec (zlen buf) (recordHeaderSize + zlen (batch_body es))); [lia|].
  consts. cbv zeta. rewrite Hbody in *.
  peel buf 4 as p1. peel buf 8 as p2. peel buf 1 as p3. peel buf 4 as p4. peel buf 4 as p5.
  peel buf 4 as p6. peel buf (zlen (entries_image es)) as p7.
  fill. rewrite !to_u32_small by zl.
  set (pre := p1 ++ le_put 8 (to_u64 ts) ++ [z2b 2] ++ le_put 4 0
                 ++ le_put 4 (4 + zlen (entries_image es)) ++ le_put 4 (zlen es)).
  replace (p1 ++ _) with (pre ++ p7 ++ buf) by (unfold pre; by rewrite <- !app_assoc).
  rewrite encodeBatchEntries_image; [|done|unfold pre; zl|done].
  unfold pre. rewrite <- !app_assoc. fill. fields.
  replace (slice _ _ _)
    with (header_tail ts 2 0 (zlen (batch_body es)) ++ batch_body es).
  { unfold batch_image, record_image, header_tail. consts. rewrite Hbody. unfold batch_body.
    by rewrite <- !app_assoc. }
  slice_is (header_tail ts 2 0 (zlen (batch_body es)) ++ batch_body es) buf.
  rewrite Hbody. unfold header_tail, batch_body. by rewrite <- !app_assoc.
Qed.

(** *** Parsing *)

Ltac zcases :=
  repeat match goal with
         | |- context [?a =? ?b] => destruct (Z.eqb_spec a b)
         | |- context [?a <? ?b] => destruct (Z.ltb_spec a b)
         | H : context [?a =? ?b] |- _ => destruct (Z.eqb_spec a b)
         | H : context [?a <? ?b] |- _ => destruct (Z.ltb_spec a b)
         end; cbn [negb andb orb] in *.

Lemma header_bad_None flag klen vlen :
  0 <= klen → 0 <= vlen → header_bad flag klen vlen = None ↔ header_ok flag klen vlen.
Proof.
  intros Hk Hv. unfold header_bad, header_ok. consts. zcases; subst;
    (split; [intros; try discriminate; try lia | intros; try done; exfalso; lia]).
Qed.

(** The record a header and a body stand for. *)
Definition parsed (ts flag klen : Z) (body : bytes) : record :=
  mkRecord ts flag (slice_to body klen)
    (if flag =? recordFlagBatch then body
     else if flag =? recordFlagPut then slice_from body klen else []).

(** [readRecord] by cases on what follows the header. *)
Lemma readRecord_header c ts flag klen vlen r :
  is_i64 ts → 0 <= flag < 256 → header_ok flag klen vlen →
  readRecord (header c ts flag klen vlen ++ r)
  = match io_ReadFull (klen + vlen) r with
    | (_, Some err, r) => (Err err, recordHeaderSize, r)
    | (body, None, r) =>
        if negb (crc32_Checksum (header_tail ts flag klen vlen ++ body) =? c mod 2 ^ 32)
        then (Err (ESentinel errBadCRC), recordHeaderSize + zlen body, r)
        else (Ok (parsed ts flag klen body), recordHeaderSize + zlen body, r)
    end.
Proof.
  intros Hts Hf Hok. unfold readRecord.
  assert (Hk : 0 <= klen < 2 ^ 32 ∧ 0 <= vlen < 2 ^ 32 ∧ klen + vlen < 2 ^ 32)
    by (revert Hok; consts; lia).
  rewrite ReadFull_app by (consts; zl).
  rewrite header_crc, header_tstamp, header_flag, header_keyLen, header_valLen, header_from_4.
  rewrite to_i64_get_put, !le_get_put, (Z.mod_small flag) by (done || lia).
  change (256 ^ Z.of_nat 4) with (2 ^ 32).
  rewrite (Z.mod_small klen), (Z.mod_small vlen) by lia.
  cbv zeta.
  rewrite (proj2 (header_bad_None flag klen vlen ltac:(lia) ltac:(lia)) Hok).
  rewrite to_u32_small by lia. done.
Qed.

Lemma crc_field_bound bs : crc32_Checksum bs mod 2 ^ 32 = crc32_Checksum bs.
Proof. apply Z.mod_small. apply Checksum_bound. Qed.

(** Reading back a record image. *)
Lemma readRecord_image ts flag klen vlen body rest :
  is_i64 ts → 0 <= flag < 256 → header_ok flag klen vlen → zlen body = klen + vlen →
  readRecord (record_image ts flag klen vlen body ++ rest)
  = (Ok (parsed ts flag klen body), recordHeaderSize + zlen body, rest).
Proof.
  intros Hts Hf Hok Hlen. unfold record_image. rewrite <- app_assoc.
  change (le_put 4 ?c ++ header_tail ?a ?b ?d ?e) with (header c a b d e).
  rewrite readRecord_header by done.
  rewrite ReadFull_app by (revert Hok; consts; lia).
  rewrite crc_field_bound, Z.eqb_refl. done.
Qed.

(** Every strict prefix of a record image is a torn write. *)
Lemma readRecord_torn ts flag klen vlen body p q :
  is_i64 ts → 0 <= flag < 256 → header_ok flag klen vlen → zlen body = klen + vlen →
  record_image ts flag klen vlen body = p ++ q → q ≠ [] →
  ∃ n, readRecord p
       = (Err (ESentinel (if decide (p = [] ∨ zlen p = 21) then io_EOF else io_ErrUnexpectedEOF)), n, []).
Proof.
  intros Hts Hf Hok Hlen E Hq.
  assert (Hlq : 0 < zlen q) by (destruct q; [done|zl]).
  assert (Hp : zlen p < 21 + zlen body).
  { apply (f_equal zlen) in E. rewrite zlen_record_image in E. zl. }
  destruct (Z.lt_ge_cases (zlen p) 21) as [Hs|Hs].
  - exists 0. unfold readRecord. rewrite ReadFull_short by done.
    destruct p as [|x p]; [by rewrite decide_True by auto|].
    rewrite decide_False by (intros [?|?]; [done|lia]). done.
  - unfold record_image in E. change (le_put 4 ?c ++ header_tail ?a ?b ?d ?e) with (header c a b d e) in E.
    set (c := crc32_Checksum _) in E.
    destruct (split_at p 21) as (h & p' & -> & Hh); [lia|].
    assert (h = header c ts flag klen vlen ∧ body = p' ++ q) as [-> ->].
    { rewrite <- app_assoc in E. apply app_inj_zlen in E as [-> ->]; [done|zl]. }
    rewrite readRecord_header by done.
    rewrite ReadFull_short by zl. eexists. f_equal. f_equal.
    destruct p' as [|x p'].
    + rewrite decide_True by (right; zl). done.
    + rewrite decide_False; [done|]. intros [C|C].
      * apply (f_equal zlen) in C. zl.
      * zl.
Qed.

(** What a successful read has checked. *)
Lemma readRecord_Ok l r n rest :
  readRecord l = (Ok r, n, rest) →
  ∃ hdr body, l = hdr ++ body ++ rest ∧ zlen hdr = 21
    ∧ zlen body = le_get (slice hdr 13 17) + le_get (slice hdr 17 21)
    ∧ crc32_Checksum (slice_from hdr 4 ++ body) = le_get (slice hdr 0 4)
    ∧ n = 21 + zlen body.
Proof.
  unfold readRecord.
  destruct (ReadFull_cases recordHeaderSize l) as [(hdr & l' & -> & Hh & ->)|[_ ->]];
    [consts; lia| |done].
  pose proof (le_get_bound (slice hdr 13 17)) as Bk. pose proof (le_get_bound (slice hdr 17 21)) as Bv.
  set (k := le_get (slice hdr 13 17)) in *. set (v := le_get (slice hdr 17 21)) in *. cbv zeta.
  destruct (header_bad _ _ _) eqn:Hbad; [done|].
  apply header_bad_None in Hbad; [|lia..].
  rewrite to_u32_small by (revert Hbad; consts; lia).
  destruct (ReadFull_cases (k + v) l') as [(body & l'' & -> & Hb & ->)|[_ ->]];
    [revert Hbad; consts; lia| |done].
  destruct (Z.eqb_spec (crc32_Checksum (slice_from hdr 4 ++ body)) (le_get (slice hdr 0 4))) as [Hc|];
    [|done]. cbn [negb]. intros [= <- <- <-].
  exists hdr, body. split; [done|]. split; [done|]. auto.
Qed.

Lemma record_image_checksummed ts flag klen vlen body :
  checksummed (record_image ts flag klen vlen body).
Proof.
  unfold checksummed, record_image. rewrite <- app_assoc.
  rewrite slice_from_app, slice_head by zl.
  rewrite le_get_put_small; [done|]. apply Checksum_bound.
Qed.

(** A slice that avoids the changed byte does not see the change. *)
Lemma slice_other_byte pre (b b' : byte) post lo hi :
  0 <= lo → hi <= zlen pre ∨ zlen pre < lo →
  slice (pre ++ b :: post) lo hi = slice (pre ++ b' :: post) lo hi.
Proof.
  intros Hlo [H|H]; [by rewrite !slice_app_l by lia|].
  change (b :: post) with ([b] ++ post). change (b' :: post) with ([b'] ++ post).
  rewrite !app_assoc, !(slice_app_r (pre ++ _)) by zl. f_equal; zl.
Qed.

Lemma corrupt_image_rejected ts flag klen vlen body pre b b' post rest r n rest' :
  is_i64 ts → 0 <= flag < 256 → header_ok flag klen vlen → zlen body = klen + vlen →
  record_image ts flag klen vlen body = pre ++ b :: post → b ≠ b' →
  zlen pre < 13 ∨ 21 <= zlen pre →
  readRecord ((pre ++ b' :: post) ++ rest) ≠ (Ok r, n, rest').
Proof.
  intros Hts Hf Hok Hlen E Hb Hpos H.
  apply readRecord_Ok in H as (hdr & body' & El & Hh & Hb' & Hc & _).
  assert (Himg : zlen (pre ++ b' :: post) = 21 + klen + vlen).
  { apply (f_equal zlen) in E. rewrite zlen_record_image in E. zl. }
  assert (Hs : ∀ lo hi, 13 <= lo → lo <= hi → hi <= 21 →
            slice hdr lo hi = slice (header (crc32_Checksum (header_tail ts flag klen vlen ++ body))
                                       ts flag klen vlen) lo hi).
  { intros lo hi ???. transitivity (slice (hdr ++ body' ++ rest') lo hi).
    { symmetry. apply slice_app_l; lia. }
    rewrite <- El, slice_app_l by zl.
    rewrite (slice_other_byte pre b' b post) by lia. rewrite <- E. unfold record_image.
    apply slice_app_l; zl. }
  rewrite !Hs, header_keyLen, header_valLen in Hb' by lia.
  assert (0 <= klen < 2 ^ 32 ∧ 0 <= vlen < 2 ^ 32) by (revert Hok; consts; lia).
  rewrite !le_get_put_small in Hb' by (change (256 ^ Z.of_nat 4) with (2 ^ 32); lia).
  assert (Eh : pre ++ b' :: post = hdr ++ body').
  { rewrite app_assoc in El. apply app_inj_zlen in El as [-> _]; [done|zl]. }
  apply (checksummed_one_byte pre b b' post); [zl|done| |].
  - rewrite <- E. apply record_image_checksummed.
  - rewrite Eh. unfold checksummed. rewrite slice_app_l by lia.
    destruct (split_at hdr 4) as (h4 & h17 & -> & H4); [lia|].
    rewrite <- app_assoc, slice_from_app by done. rewrite slice_from_app in Hc by done. done.
Qed.

(** *** Batches *)

(** What [decodeBatchBody] yields for entries written from body offset [off]. *)
Fixpoint decoded_entries (es : list BatchEntry) (recordStart off : Z) : list batchEntryDecoded :=
  match es with
  | [] => []
  | e :: es' =>
      mkBatchEntryDecoded (entry_flag e) (be_Key e) (entry_value e)
        (recordStart + (recordHeaderSize + off + batchEntryHeaderSize + zlen (be_Key e)))
      :: decoded_entries es' recordStart (off + entryBodySize e)
  end.

Lemma entry_image_size e :
  entry_ok e → zlen (entry_image e) = 9 + zlen (be_Key e) + zlen (entry_value e)
  ∧ key_ok (be_Key e) ∧ value_ok (entry_value e).
Proof.
  intros [Hk Hv]. rewrite zlen_entry_image. unfold entryBodySize, entry_value.
  destruct (be_Delete e); consts; repeat split; try zl; try apply Hk; by apply Hv.
Qed.

Lemma decodeBatchEntries_image es pre post start :
  Forall entry_ok es →
  decodeBatchEntries (length es) (pre ++ entries_image es ++ post) start (zlen pre)
  = Ok (zlen pre + zlen (entries_image es), decoded_entries es start (zlen pre)).
Proof.
  unfold entries_image. intros Hok. revert pre.
  induction Hok as [|e es He _ IH]; intros pre;
    cbn [fmap list_fmap concat length decodeBatchEntries decoded_entries].
  { by rewrite zlen_nil, Z.add_0_r. }
  destruct (entry_image_size e He) as (Hs & Hk & Hv). set (K := be_Key e) in *.
  set (V := entry_value e) in *. set (es' := concat _).
  rewrite <- app_assoc. set (rest := es' ++ post).
  destruct (Z.ltb_spec (zlen (pre ++ entry_image e ++ rest)) (zlen pre + batchEntryHeaderSize));
    [consts; zl|].
  assert (HF : byte_at (pre ++ entry_image e ++ rest) (zlen pre) = entry_flag e
    ∧ slice (pre ++ entry_image e ++ rest) (zlen pre + 1) (zlen pre + 5) = le_put 4 (zlen K)
    ∧ slice (pre ++ entry_image e ++ rest) (zlen pre + 5) (zlen pre + 9) = le_put 4 (zlen V)
    ∧ slice (pre ++ entry_image e ++ rest) (zlen pre + 9) (zlen pre + 9 + zlen K) = K
    ∧ slice (pre ++ entry_image e ++ rest) (zlen pre + 9 + zlen K) (zlen pre + 9 + zlen K + zlen V) = V).
  { unfold entry_image. fold K V. rewrite <- !app_assoc. fields. rewrite b2z_z2b.
    repeat split. unfold entry_flag. by destruct (be_Delete e). }
  destruct HF as (F1 & F2 & F3 & F4 & F5).
  consts. change (1 + 4 + 4) with 9 in *. rewrite F1, F2, F3.
  assert (Hbig : 16 * 1024 * 1024 < 256 ^ Z.of_nat 4) by done.
  rewrite !le_get_put_small by zl. rewrite F4, F5. cbv zeta.
  assert (HFl : entry_flag e = 0 ∨ entry_flag e = 1 ∧ V = []).
  { unfold V, entry_flag, entry_value. destruct (be_Delete e); consts; auto. }
  assert (HV1 : entry_flag e = 1 → zlen V = 0).
  { destruct HFl as [->|[_ ->]]; [done|by rewrite zlen_nil]. }
  replace (negb (entry_flag e =? 0) && _) with false by lia.
  replace ((zlen K =? 0) || _) with false by lia.
  replace (16 * 1024 * 1024 <? zlen V) with false by lia.
  replace ((entry_flag e =? 1) && _) with false by lia.
  replace (zlen (pre ++ entry_image e ++ rest) <? _) with false by zl.
  replace (zlen pre + 9 + zlen K + zlen V) with (zlen (pre ++ entry_image e)) by zl.
  unfold rest, es'. rewrite (app_assoc pre), IH. cbn [rbind]. f_equal. f_equal; [zl|].
  rewrite zlen_app, zlen_entry_image. f_equal. f_equal.
  destruct HFl as [->|[-> HV0]]; [done|]. by rewrite HV0.
Qed.

Lemma decodeBatchBody_image es start :
  Forall entry_ok es → zlen es <= maxBatchEntries →
  decodeBatchBody (batch_body es) start = Ok (decoded_entries es start 4).
Proof.
  intros Hes Hcount. unfold decodeBatchBody.
  pose proof (entries_image_min es Hes) as Hmin.
  assert (Hb : zlen (batch_body es) = 4 + zlen (entries_image es)) by (unfold batch_body; zl).
  assert (E : slice (batch_body es) 0 4 = le_put 4 (zlen es)) by (unfold batch_body; by fields).
  rewrite E. consts. rewrite le_get_put_small by (change (256 ^ Z.of_nat 4) with (2 ^ 32); zl).
  replace (zlen (batch_body es) <? 4) with false by zl.
  replace (1048576 <? zlen es) with false by lia.
  replace ((_ - 4) / _ <? zlen es) with false.
  2: { symmetry. apply Z.ltb_ge. apply Z.div_le_lower_bound; lia. }
  pose proof (decodeBatchEntries_image es (le_put 4 (zlen es)) [] start Hes) as H.
  rewrite app_nil_r, zlen_le_put in H. change (Z.of_nat 4) with 4 in H.
  fold (batch_body es) in H. replace (Z.to_nat (zlen es)) with (length es) by (unfold zlen; lia).
  rewrite H. cbn [rbind]. rewrite Hb, Z.eqb_refl. done.
Qed.

(** The absolute value positions of a decoded batch: in a file holding the
    record at [start], each entry's value is found at its [valuePos]. *)
Lemma decoded_entries_pos es (file pre post : bytes) start off :
  Forall entry_ok es → file = pre ++ entries_image es ++ post →
  zlen pre = start + recordHeaderSize + off → 0 <= off →
  Forall (λ d, slice file (bd_valuePos d) (bd_valuePos d + zlen (bd_value d)) = bd_value d
               ∧ start <= bd_valuePos d
               ∧ bd_valuePos d + zlen (bd_value d) <= zlen pre + zlen (entries_image es))
    (decoded_entries es start off).
Proof.
  unfold entries_image. intros Hok. revert pre off.
  induction Hok as [|e es He _ IH]; intros pre off -> Hp Hoff;
    cbn [fmap list_fmap concat decoded_entries]; [constructor|].
  destruct (entry_image_size e He) as (Hs & Hk & Hv). constructor.
  - cbn [bd_valuePos bd_value]. rewrite <- app_assoc. consts. split; [|zl].
    unfold entry_image. rewrite <- !app_assoc. by fields.
  - eapply Forall_impl; [apply (IH (pre ++ entry_image e))|].
    + cbn [fmap list_fmap concat]. by rewrite <- !app_assoc.
    + rewrite zlen_app, zlen_entry_image. lia.
    + pose proof (entryBodySize_min e He). lia.
    + cbn beta. rewrite !zlen_app. intros d (H1 & H2 & H3). split; [done|]. lia.
Qed.

(** The decoder accepts nothing but entry images. *)
Lemma decodeBatchEntries_Ok n pre rest start off' ds :
  decodeBatchEntries n (pre ++ rest) start (zlen pre) = Ok (off', ds) →
  ∃ es post, length es = n ∧ Forall entry_ok es ∧ rest = entries_image es ++ post
    ∧ off' = zlen pre + zlen (entries_image es) ∧ ds = decoded_entries es start (zlen pre).
Proof.
  revert pre rest off' ds. induction n as [|n IH]; intros pre rest off' ds H;
    cbn [decodeBatchEntries] in H.
  { injection H as <- <-. exists [], rest. repeat split; [constructor|]. change (zlen (entries_image [])) with 0. lia. }
  cbv zeta in H.
  destruct (Z.ltb_spec (zlen (pre ++ rest)) (zlen pre + batchEntryHeaderSize)) as [|Hl]; [done|].
  revert H. consts. change (1 + 4 + 4) with 9 in *.
  peel rest 1 as f. peel rest 4 as k. peel rest 4 as v.
  destruct f as [|f0 [|]]; [done| |exfalso; revert Hlen; rewrite !zlen_cons; zl].
  assert (Hk4 : length k = 4%nat) by (unfold zlen in *; lia).
  assert (Hv4 : length v = 4%nat) by (unfold zlen in *; lia).
  assert (F : byte_at (pre ++ [f0] ++ k ++ v ++ rest) (zlen pre) = b2z f0
    ∧ slice (pre ++ [f0] ++ k ++ v ++ rest) (zlen pre + 1) (zlen pre + 5) = k
    ∧ slice (pre ++ [f0] ++ k ++ v ++ rest) (zlen pre + 5) (zlen pre + 9) = v)
    by (by fields).
  destruct F as (-> & -> & ->).
  pose proof (le_get_bound k) as Bk. pose proof (le_get_bound v) as Bv.
  destruct (negb (b2z f0 =? 0) && negb (b2z f0 =? 1)) eqn:C1; [done|].
  destruct ((le_get k =? 0) || (64 * 1024 <? le_get k)) eqn:C2; [done|].
  destruct (16 * 1024 * 1024 <? le_get v) eqn:C3; [done|].
  destruct ((b2z f0 =? 1) && negb (le_get v =? 0)) eqn:C4; [done|].
  destruct (zlen _ <? zlen pre + 9 + le_get k + le_get v) eqn:C5; [done|].
  peel rest (le_get k) as K. peel rest (le_get v) as V.
  set (l := pre ++ [f0] ++ k ++ v ++ K ++ V ++ rest).
  replace (slice l (zlen pre + 9) (zlen pre + 9 + le_get k)) with K by (unfold l; by fields).
  replace (slice l (zlen pre + 9 + le_get k) _) with V by (unfold l; by fields).
  set (e := mkBatchEntry K V (b2z f0 =? 1)).
  assert (HV : entry_value e = V).
  { unfold entry_value, e. cbn. destruct (b2z f0 =? 1) eqn:?; [|done]. symmetry. apply zlen_0. lia. }
  assert (Hf : entry_flag e = b2z f0).
  { unfold entry_flag, e. consts. cbn [be_Delete]. destruct (b2z f0 =? 1) eqn:?; lia. }
  assert (Hv0 : (if b2z f0 =? 0 then V else []) = entry_value e).
  { rewrite HV. destruct (b2z f0 =? 0) eqn:?; [done|]. symmetry. apply zlen_0. lia. }
  assert (He : entry_image e = [f0] ++ k ++ v ++ K ++ V).
  { unfold entry_image. rewrite Hf, z2b_b2z, HV. cbn [be_Key e].
    rewrite Hlen2, Hlen3, !le_put_get by done. done. }
  assert (Hl2 : l = (pre ++ entry_image e) ++ rest).
  { unfold l. rewrite He. by rewrite <- !app_assoc. }
  rewrite Hl2, Hv0, <- Hf. clear Hl2 Hv0.
  replace (zlen pre + 9 + le_get k + le_get v) with (zlen (pre ++ entry_image e)) by (rewrite He; zl).
  destruct (decodeBatchEntries n _ start _) as [[off2 ds2]|] eqn:E; [|done]. cbn [rbind].
  intros [= <- <-]. apply IH in E as (es & post & <- & Hes & -> & -> & ->).
  exists (e :: es), post. split; [done|]. split.
  { constructor; [|done]. split; cbn [be_Key be_Value e]; consts; [lia|intros _; lia]. }
  split. { unfold entries_image. cbn [fmap list_fmap concat]. rewrite He. by rewrite <- !app_assoc. }
  split. { unfold entries_image. cbn [fmap list_fmap concat]. zl. }
  cbn [decoded_entries]. rewrite zlen_app, zlen_entry_image. f_equal. f_equal.
  consts. cbn [be_Key e]. lia.
Qed.

Lemma decodeBatchBody_Ok body start ds :
  decodeBatchBody body start = Ok ds →
  ∃ es, Forall entry_ok es ∧ zlen es <= maxBatchEntries
    ∧ body = batch_body es ∧ ds = decoded_entries es start 4.
Proof.
  unfold decodeBatchBody. destruct (Z.ltb_spec (zlen body) batchCountSize) as [|Hl]; [done|].
  cbv zeta. destruct (Z.ltb_spec maxBatchEntries (le_get (slice body 0 4))) as [|Hm]; [done|].
  destruct (_ <? _); [done|]. consts. peel body 4 as c.
  rewrite slice_head in * by zl. rewrite <- Hlen.
  destruct (decodeBatchEntries _ _ _ _) as [[off ds']|] eqn:E; [|done]. cbn [rbind].
  destruct (Z.eqb_spec off (zlen (c ++ body))) as [->|]; [|done]. intros [= ->].
  apply decodeBatchEntries_Ok in E as (es & post & Hn & Hes & -> & Ho & ->).
  rewrite !zlen_app in Ho. assert (post = []) as -> by (apply zlen_0; lia).
  assert (Hc : le_get c = zlen es). { pose proof (le_get_bound c). unfold zlen. lia. }
  exists es. split; [done|]. split; [lia|]. split.
  - unfold batch_body. rewrite <- Hc, le_put_get, app_nil_r; [done|]. unfold zlen in Hlen. lia.
  - by rewrite Hlen.
Qed.

(** ** Properties of the codec *)

(** C33: [encode] and [readRecord] are inverse.  Whatever bytes the reused
    encode buffer held, the encoder fills exactly [encodedSize] of them and the
    reader gives the record back, consuming exactly those bytes and leaving
    whatever follows unread. *)
Theorem encode_readRecord r buf rest :
  record_ok r → encodedSize r <= zlen buf →
  ∃ out, encode r buf = (Ok (encodedSize r), out)
    ∧ slice_from out (encodedSize r) = slice_from buf (encodedSize r)
    ∧ readRecord (slice_to out (encodedSize r) ++ rest) = (Ok r, encodedSize r, rest).
Proof.
  intros (Hts & Hk & Hv & Hf) Hb. pose proof Hk as Hk'. pose proof Hv as Hv'.
  assert (Hs : zlen (put_image r) = encodedSize r).
  { unfold put_image, encodedSize. consts. zl. }
  exists (put_image r ++ slice_from buf (encodedSize r)).
  split; [by apply encode_image|]. rewrite slice_from_app, slice_to_app by done.
  split; [done|]. unfold put_image. rewrite readRecord_image; [|done| | |zl].
  - f_equal. f_equal; [|unfold encodedSize; consts; zl]. f_equal.
    destruct r as [ts fl K V]. unfold parsed. cbn in *.
    rewrite slice_to_app, slice_from_app by done. consts.
    destruct Hf as [->|[-> ->]]; done.
  - consts. lia.
  - right. consts. split; [|split; zl]. destruct Hf as [->|[-> _]]; auto.
Qed.

Lemma encode_readRecord_witness :
  let r := mkRecord 7 0 [x61] [x62; x63] in
  record_ok r ∧ encodedSize r <= zlen (make_bytes 40)
  ∧ ∃ out, encode r (make_bytes 40) = (Ok (encodedSize r), out)
    ∧ slice_from out (encodedSize r) = slice_from (make_bytes 40) (encodedSize r)
    ∧ readRecord (slice_to out (encodedSize r) ++ [x00]) = (Ok r, encodedSize r, [x00]).
Proof.
  split; [decided|]. split; [decided|].
  apply (encode_readRecord (mkRecord 7 0 [x61] [x62; x63]) (make_bytes 40) [x00]); decided.
Defined.

(** C34: a batch is written and read back whole: the encoded record is read as
    one BATCH record whose body decodes to the entries in order, and in any
    file that holds the record at [start] each decoded [valuePos] is where that
    entry's value bytes are. *)
Theorem batch_roundtrip buf ts es rest :
  is_i64 ts → batch_ok es → recordHeaderSize + encodedBatchBodySize es <= zlen buf →
  let total := recordHeaderSize + encodedBatchBodySize es in
  ∃ out body, encodeBatchRecord buf ts es = (Ok total, out)
    ∧ readRecord (slice_to out total ++ rest) = (Ok (mkRecord ts recordFlagBatch [] body), total, rest)
    ∧ ∀ pre, ∃ ds, decodeBatchBody body (zlen pre) = Ok ds
      ∧ map bd_flag ds = map entry_flag es ∧ map bd_key ds = map be_Key es
      ∧ map bd_value ds = map entry_value es
      ∧ Forall (λ d, slice (pre ++ slice_to out total ++ rest) (bd_valuePos d)
                       (bd_valuePos d + zlen (bd_value d)) = bd_value d) ds.
Proof.
  intros Hts Hok Hb total. pose proof Hok as (Hes & Hcount & Hsize).
  assert (Hs : zlen (batch_image ts es) = total).
  { unfold batch_image, total. rewrite encodedBatchBodySize_spec, zlen_record_image. consts. lia. }
  exists (batch_image ts es ++ slice_from buf total), (batch_body es).
  split; [by apply encodeBatchRecord_image|]. rewrite slice_to_app by done.
  assert (H4 : 4 <= zlen (batch_body es)) by (unfold batch_body; zl).
  split.
  { unfold batch_image. rewrite readRecord_image; [|done|by consts| |zl].
    - f_equal. f_equal. unfold total. by rewrite encodedBatchBodySize_spec.
    - left. consts. lia. }
  intros pre. exists (decoded_entries es (zlen pre) 4).
  split; [by apply decodeBatchBody_image|].
  assert (Hm : ∀ s o, map bd_flag (decoded_entries es s o) = map entry_flag es
    ∧ map bd_key (decoded_entries es s o) = map be_Key es
    ∧ map bd_value (decoded_entries es s o) = map entry_value es).
  { clear. induction es as [|e es IH]; intros s o; [done|]. cbn.
    by destruct (IH s (o + entryBodySize e)) as (-> & -> & ->). }
  destruct (Hm (zlen pre) 4) as (E1 & E2 & E3). repeat split; [done..|].
  eapply Forall_impl;
    [apply (decoded_entries_pos es (pre ++ batch_image ts es ++ rest)
              (pre ++ header (crc32_Checksum (header_tail ts 2 0 (zlen (batch_body es)) ++ batch_body es))
                        ts 2 0 (zlen (batch_body es)) ++ le_put 4 (zlen es)) rest)|].
  - done.
  - unfold batch_image, record_image, batch_body, header. consts. by rewrite <- !app_assoc.
  - consts. zl.
  - lia.
  - cbn beta. intros d (H & _). exact H.
Qed.

Lemma batch_roundtrip_witness :
  let es := [mkBatchEntry [x61] [x62] false; mkBatchEntry [x63] [] true] in
  batch_ok es ∧ let total := recordHeaderSize + encodedBatchBodySize es in
  ∃ out body, encodeBatchRecord (make_bytes 64) 9 es = (Ok total, out)
    ∧ readRecord (slice_to out total ++ []) = (Ok (mkRecord 9 recordFlagBatch [] body), total, [])
    ∧ ∀ pre, ∃ ds, decodeBatchBody body (zlen pre) = Ok ds
      ∧ map bd_flag ds = map entry_flag es ∧ map bd_key ds = map be_Key es
      ∧ map bd_value ds = map entry_value es
      ∧ Forall (λ d, slice (pre ++ slice_to out total ++ []) (bd_valuePos d)
                       (bd_valuePos d + zlen (bd_value d)) = bd_value d) ds.
Proof.
  split; [decided|]. apply (batch_roundtrip (make_bytes 64) 9 _ []); decided.
Defined.

(** A torn record is never taken for a record.  Reading any strict prefix
    of an encoded PUT, TOMBSTONE or BATCH record fails with [io.EOF] or
    [io.ErrUnexpectedEOF]; it is [io.EOF] exactly when the prefix is empty or
    stops at the end of the header. *)
Theorem torn_record_rejected ts flag klen vlen body p q :
  is_i64 ts → 0 <= flag < 256 → header_ok flag klen vlen → zlen body = klen + vlen →
  record_image ts flag klen vlen body = p ++ q → q ≠ [] →
  ∃ n, readRecord p
       = (Err (ESentinel (if decide (p = [] ∨ zlen p = 21) then io_EOF else io_ErrUnexpectedEOF)), n, []).
Proof. apply readRecord_torn. Qed.

(** A PUT of the one-byte key "a" cut off right after its header. *)
Lemma torn_record_rejected_witness :
  ∃ n, readRecord (slice_to (record_image 7 0 1 0 [x61]) 21) = (Err (ESentinel io_EOF), n, []).
Proof.
  destruct (torn_record_rejected 7 0 1 0 [x61] (slice_to (record_image 7 0 1 0 [x61]) 21)
              (slice_from (record_image 7 0 1 0 [x61]) 21)) as [n H];
    [decided..|symmetry; apply slice_to_from|decided|].
  exists n. exact H.
Defined.

(** C36: one changed byte is detected.  If any one byte of a record outside its
    two length fields (the checksum, the timestamp, the flag, or the body)
    changes, [readRecord] does not return a record, whatever bytes follow. *)
Theorem corrupt_byte_detected ts flag klen vlen body pre b b' post rest :
  is_i64 ts → 0 <= flag < 256 → header_ok flag klen vlen → zlen body = klen + vlen →
  record_image ts flag klen vlen body = pre ++ b :: post → b ≠ b' →
  zlen pre < 13 ∨ 21 <= zlen pre →
  ∃ e n rest', readRecord ((pre ++ b' :: post) ++ rest) = (Err e, n, rest').
Proof.
  intros. destruct (readRecord ((pre ++ b' :: post) ++ rest)) as [[[r|e] n] rest'] eqn:E; [|eauto].
  exfalso. revert E. by eapply corrupt_image_rejected.
Qed.

Lemma corrupt_byte_detected_witness :
  ∃ e n rest', readRecord ((slice_to (record_image 7 0 1 0 [x61]) 21 ++ [x62]) ++ [])
               = (Err e, n, rest').
Proof.
  apply (corrupt_byte_detected 7 0 1 0 [x61] (slice_to (record_image 7 0 1 0 [x61]) 21) x61 x62 []);
    decided.
Defined.

(** C35: the batch decoder accepts exactly the encoder's bodies.  If
    [decodeBatchBody] succeeds on any bytes, these are the canonical encoding
    of some valid entries, and the result is those entries with their
    positions; so every accepted length and position lies inside the body. *)
Theorem decodeBatchBody_canonical body start ds :
  decodeBatchBody body start = Ok ds ↔
  ∃ es, Forall entry_ok es ∧ zlen es <= maxBatchEntries
    ∧ body = batch_body es ∧ ds = decoded_entries es start 4.
Proof.
  split; [apply decodeBatchBody_Ok|]. intros (es & Hes & Hn & -> & ->).
  by apply decodeBatchBody_image.
Qed.
