(* ===== verification/Keydir.v ===== *)
(** * The in-memory index (src/internal/engine/keydir.go)

    A finite map from key bytes to the location of the latest write.  Every
    operation holds the keydir's lock for its whole body, so each is one atomic
    step on the map; [snapshotRange] sees Go's unspecified map iteration order
    as an arbitrary listing of the map. *)
From S2P Require Import Prelude.

Record keydirEntry := mkEntry {
  fileID : Z;
  valuePos : Z;
  valueLen : Z;
  tstamp : Z;
}.

#[global] Instance keydirEntry_eq_dec : EqDecision keydirEntry.
Proof. solve_decision. Defined.

Abbreviation keydir := (gmap bytes keydirEntry).

Definition newKeydir : keydir := ∅.

Definition get (k : keydir) (key : bytes) : option keydirEntry := k !! key.

Definition put (k : keydir) (key : bytes) (e : keydirEntry) : keydir := <[key := e]> k.

Definition putIfNewer (k : keydir) (key : bytes) (e : keydirEntry) : keydir :=
  match k !! key with
  | Some existing => if tstamp existing <=? tstamp e then <[key := e]> k else k
  | None => <[key := e]> k
  end.

Definition delete (k : keydir) (key : bytes) : keydir := base.delete key k.

Definition compareAndSwap (k : keydir) (key : bytes) (expected newEntry : keydirEntry)
    : bool * keydir :=
  match k !! key with
  | None => (false, k)
  | Some cur => if decide (cur = expected) then (true, <[key := newEntry]> k) else (false, k)
  end.

Record keydirOp := mkOp {
  op_key : bytes;
  op_entry : keydirEntry;
  op_delete : bool;
}.

Definition applyOp (k : keydir) (op : keydirOp) : keydir :=
  if op_delete op then base.delete (op_key op) k else <[op_key op := op_entry op]> k.

Definition applyBatch (k : keydir) (ops : list keydirOp) : keydir := foldl applyOp k ops.

Definition size (k : keydir) : Z := Z.of_nat (base.size k).

Abbreviation rangePair := (bytes * keydirEntry)%type.

(** The filter of [snapshotRange]; [None] is a nil bound. *)
Definition in_range (start end_ : option bytes) (kb : bytes) : bool :=
  match start with
  | Some s => negb (bytes_Compare kb s <? 0)
  | None => true
  end
  && match end_ with
     | Some e => bytes_Compare kb e <? 0
     | None => true
     end.

Definition key_le (a b : rangePair) : Prop := bytes_le a.1 b.1.
#[global] Instance key_le_dec : RelDecision key_le.
Proof. intros a b. unfold key_le. apply _. Defined.

(** [snapshotRange] when the map is iterated in the order [iter]. *)
Definition snapshotRange_iter (iter : list rangePair) (start end_ : option bytes)
    : list rangePair :=
  merge_sort key_le (List.filter (λ p, in_range start end_ p.1) iter).

Definition snapshotRange (k : keydir) (start end_ : option bytes) : list rangePair :=
  snapshotRange_iter (map_to_list k) start end_.

(** ** Lemmas *)

#[global] Instance key_le_trans : Transitive key_le.
Proof. intros [a ?] [b ?] [c ?]. unfold key_le. apply bytes_le_trans. Qed.
#[global] Instance key_le_total : Total key_le.
Proof. intros [a ?] [b ?]. unfold key_le. apply (total bytes_le). Qed.

Lemma lookup_putIfNewer k key e :
  putIfNewer k key e !! key = Some (match k !! key with
    | Some existing => if tstamp existing <=? tstamp e then e else existing
    | None => e end).
Proof.
  unfold putIfNewer. destruct (k !! key) as [x|] eqn:E; [case_match|];
    by rewrite ?lookup_insert_eq.
Qed.
Lemma lookup_putIfNewer_ne k key key' e :
  key ≠ key' → putIfNewer k key e !! key' = k !! key'.
Proof.
  intros. unfold putIfNewer. repeat case_match; by rewrite ?lookup_insert_ne.
Qed.

Lemma lookup_applyOp k op key :
  applyOp k op !! key =
  if decide (op_key op = key) then (if op_delete op then None else Some (op_entry op))
  else k !! key.
Proof.
  unfold applyOp. destruct (decide (op_key op = key)) as [<-|Hne], (op_delete op);
    by rewrite ?lookup_delete_eq, ?lookup_insert_eq, ?lookup_delete_ne, ?lookup_insert_ne.
Qed.

(** The last operation on [key] in a batch decides. *)
Definition last_op (key : bytes) (ops : list keydirOp) : option keydirOp :=
  last (filter (λ op, op_key op = key) ops).

Lemma lookup_applyBatch k ops key :
  applyBatch k ops !! key =
  match last_op key ops with
  | Some op => if op_delete op then None else Some (op_entry op)
  | None => k !! key
  end.
Proof.
  unfold applyBatch, last_op. induction ops as [|op ops IH] using rev_ind; [done|].
  rewrite foldl_app, filter_app. cbn [foldl]. rewrite lookup_applyOp.
  destruct (decide (op_key op = key)).
  - rewrite filter_cons_True, filter_nil, last_snoc by done. done.
  - by rewrite filter_cons_False, filter_nil, app_nil_r.
Qed.

(** *** Range snapshots *)

Lemma in_range_spec start end_ kb :
  in_range start end_ kb = true ↔
  (∀ s, start = Some s → bytes_le s kb) ∧ (∀ e, end_ = Some e → bytes_lt kb e).
Proof.
  unfold in_range, bytes_le, bytes_lt. rewrite andb_true_iff.
  assert (H : ∀ s, bytes_Compare s kb = - bytes_Compare kb s) by (intros; apply bytes_Compare_antisym).
  destruct start as [s|], end_ as [e|]; rewrite ?negb_true_iff, ?Z.ltb_lt, ?Z.ltb_ge;
    (split; [intros [H1 H2]; split; intros ? [= <-]; rewrite ?H; lia
            | intros [H1 H2]; split; try done;
              try (specialize (H1 _ eq_refl); rewrite H in H1; lia);
              try (by apply H2)]).
Qed.

Lemma elem_of_snapshotRange_iter iter start end_ p :
  p ∈ snapshotRange_iter iter start end_ ↔ in_range start end_ p.1 = true ∧ p ∈ iter.
Proof.
  unfold snapshotRange_iter. rewrite merge_sort_Permutation.
  rewrite !list_elem_of_In, filter_In. tauto.
Qed.

Lemma snapshotRange_iter_sorted iter start end_ :
  NoDup iter.*1 →
  StronglySorted bytes_lt (snapshotRange_iter iter start end_).*1.
Proof.
  intros Hnd. unfold snapshotRange_iter.
  set (l := List.filter _ _).
  assert (Hl : NoDup l.*1).
  { unfold l. clear -Hnd. induction iter as [|[a e] iter IH]; [done|].
    cbn [fmap list_fmap fst] in Hnd. apply NoDup_cons in Hnd as [Hni Hnd]. cbn [List.filter].
    destruct (in_range _ _ _); [|by apply IH].
    cbn [fmap list_fmap fst]. constructor; [|by apply IH].
    intros ([a' e'] & -> & Hin)%list_elem_of_fmap. cbn [fst] in *. apply Hni.
    apply list_elem_of_In, filter_In in Hin as [Hin%list_elem_of_In _].
    apply list_elem_of_fmap. by exists (a', e'). }
  pose proof (StronglySorted_merge_sort key_le l) as Hs.
  assert (Hnd' : NoDup (merge_sort key_le l).*1) by (by rewrite merge_sort_Permutation).
  revert Hs Hnd'. generalize (merge_sort key_le l). clear.
  intros l. induction 1 as [|p l _ IH Hall]; cbn [fmap list_fmap]; intros Hnd; [constructor|].
  apply NoDup_cons in Hnd as [Hni Hnd]. constructor; [by apply IH|].
  apply Forall_forall. intros k ([k' e'] & -> & Hin)%list_elem_of_fmap.
  apply bytes_lt_le. split.
  - rewrite Forall_forall in Hall. by apply (Hall (k', e')).
  - intros E. apply Hni. rewrite E. apply list_elem_of_fmap. by exists (k', e').
Qed.

(** Two strictly sorted listings of the same pairs are equal. *)
Lemma sorted_pairs_unique (l l' : list rangePair) :
  StronglySorted bytes_lt l.*1 → StronglySorted bytes_lt l'.*1 →
  (∀ p, p ∈ l ↔ p ∈ l') → l = l'.
Proof.
  intros H H' Hiff.
  assert (Hirr : ∀ a, ¬ bytes_lt a a) by (intros a; unfold bytes_lt; rewrite bytes_Compare_refl; lia).
  assert (Hnd : ∀ l : list rangePair, StronglySorted bytes_lt l.*1 → NoDup l).
  { clear -Hirr. intros l Hs. apply (NoDup_fmap_1 fst). remember l.*1 as ks eqn:E. clear E.
    induction Hs as [|a ks _ IH Hall]; constructor; [|done].
    intros Hin. rewrite Forall_forall in Hall. by apply (Hirr a), Hall. }
  assert (Hle : ∀ l : list rangePair, StronglySorted bytes_lt l.*1 → StronglySorted key_le l).
  { clear. intros l. induction l as [|p l IH]; cbn [fmap list_fmap]; intros Hs; [constructor|].
    inversion Hs as [|? ? Hs' Hall]; subst. constructor; [by apply IH|].
    apply Forall_forall. intros q Hq. rewrite Forall_forall in Hall.
    apply bytes_lt_le, Hall, list_elem_of_fmap. by exists q. }
  assert (Hperm : l ≡ₚ l') by (apply NoDup_Permutation; auto).
  clear Hiff. revert l' H' Hperm. induction l as [|p l IH]; intros [|p' l'] H' Hperm; try done.
  { by apply Permutation_nil_cons in Hperm. }
  { symmetry in Hperm. by apply Permutation_nil_cons in Hperm. }
  cbn [fmap list_fmap] in H, H'. inversion H as [|? ? Hs Hall]; inversion H' as [|? ? Hs' Hall']; subst.
  assert (p = p') as ->.
  { assert (Hp : p ∈ p' :: l') by (rewrite <- Hperm; set_solver).
    assert (Hp' : p' ∈ p :: l) by (rewrite Hperm; set_solver).
    apply elem_of_cons in Hp as [?|Hp1]; [done|]. apply elem_of_cons in Hp' as [?|Hp1']; [done|].
    exfalso. rewrite Forall_forall in Hall, Hall'.
    assert (bytes_lt p.1 p'.1) as H1 by (apply Hall, list_elem_of_fmap; by eexists).
    assert (bytes_lt p'.1 p.1) as H2 by (apply Hall', list_elem_of_fmap; by eexists).
    unfold bytes_lt in H1, H2. rewrite (bytes_Compare_antisym p.1) in H2. lia. }
  f_equal. apply Permutation_cons_inv in Hperm. by apply IH.
Qed.

(** *** Replaying puts *)

Definition replay_puts (k : keydir) (l : list rangePair) : keydir :=
  foldl (λ k p, putIfNewer k p.1 p.2) k l.

Lemma putIfNewer_comm k a ea b eb :
  a ≠ b ∨ tstamp ea ≠ tstamp eb →
  putIfNewer (putIfNewer k a ea) b eb = putIfNewer (putIfNewer k b eb) a ea.
Proof.
  intros H. apply map_eq. intros x.
  destruct (decide (a = b)) as [<-|Hne].
  - destruct H as [?|Ht]; [done|]. destruct (decide (a = x)) as [<-|].
    + rewrite !lookup_putIfNewer.
      destruct (k !! a) as [e0|];
        repeat (case_match; rewrite ?Z.leb_le, ?Z.leb_gt in * ); f_equal; lia.
    + by rewrite !lookup_putIfNewer_ne.
  - destruct (decide (a = x)) as [<-|]; [|destruct (decide (b = x)) as [<-|]].
    + by rewrite lookup_putIfNewer_ne, !lookup_putIfNewer, lookup_putIfNewer_ne by done.
    + by rewrite lookup_putIfNewer, (lookup_putIfNewer_ne _ a), lookup_putIfNewer_ne,
        lookup_putIfNewer by done.
    + by rewrite !lookup_putIfNewer_ne.
Qed.

Lemma replay_puts_perm k l l' :
  NoDup ((λ p : rangePair, (p.1, tstamp p.2)) <$> l) → l ≡ₚ l' →
  replay_puts k l = replay_puts k l'.
Proof.
  intros Hnd Hp. revert k. induction Hp as [|p l l' Hp IH|p q l|l l1 l2 H1 IH1 H2 IH2]; intros k.
  - done.
  - cbn. apply NoDup_cons in Hnd as [_ Hnd]. by apply IH.
  - cbn. rewrite putIfNewer_comm; [done|].
    apply NoDup_cons in Hnd as [Hni _]. destruct p as [a ea], q as [b eb]. cbn in *.
    destruct (decide (b = a)) as [->|]; [|by left]. right. intros Ht. apply Hni.
    rewrite Ht. apply list_elem_of_here.
  - rewrite IH1 by done. apply IH2. by rewrite <- H1.
Qed.

Lemma replay_puts_mono k l key e :
  k !! key = Some e → ∃ e', replay_puts k l !! key = Some e' ∧ tstamp e <= tstamp e'.
Proof.
  revert k e. induction l as [|[a ea] l IH]; intros k e H; [by exists e|].
  cbn. destruct (decide (a = key)) as [->|Hne].
  - pose proof (lookup_putIfNewer k key ea) as H'. rewrite H in H'.
    destruct (IH _ _ H') as (e' & ? & Hle). exists e'. split; [done|].
    revert Hle. case_match; rewrite ?Z.leb_le, ?Z.leb_gt in *; lia.
  - apply IH. by rewrite lookup_putIfNewer_ne.
Qed.

Lemma replay_puts_newest k l p :
  p ∈ l → ∃ e, replay_puts k l !! p.1 = Some e ∧ tstamp p.2 <= tstamp e.
Proof.
  revert k. induction l as [|q l IH]; intros k Hp; [by apply not_elem_of_nil in Hp|].
  apply elem_of_cons in Hp as [<-|Hp]; [|by apply IH].
  cbn. pose proof (lookup_putIfNewer k p.1 p.2) as H.
  destruct (replay_puts_mono _ l _ _ H) as (e' & ? & Hle). exists e'. split; [done|].
  revert Hle. destruct (k !! p.1); [case_match|]; rewrite ?Z.leb_le, ?Z.leb_gt in *; lia.
Qed.

(** ** Properties *)

(** A range snapshot is the sorted range, whatever the map order.  For any
    order in which Go iterates the map, [snapshotRange] returns the same list:
    its keys are strictly ascending under [bytes.Compare], and it holds exactly
    the index entries with [start <= key < end] (a nil bound being open). *)
Theorem snapshotRange_spec (k : keydir) (iter : list rangePair) (start end_ : option bytes) :
  iter ≡ₚ map_to_list k →
  let l := snapshotRange_iter iter start end_ in
  l = snapshotRange k start end_
  ∧ StronglySorted bytes_lt l.*1
  ∧ ∀ key e, (key, e) ∈ l ↔
      k !! key = Some e ∧ (∀ s, start = Some s → bytes_le s key)
      ∧ (∀ x, end_ = Some x → bytes_lt key x).
Proof.
  intros Hi l.
  assert (Hs : ∀ it, it ≡ₚ map_to_list k → StronglySorted bytes_lt (snapshotRange_iter it start end_).*1).
  { intros it Hit. apply snapshotRange_iter_sorted. rewrite Hit. apply NoDup_fst_map_to_list. }
  split.
  { apply sorted_pairs_unique; [by apply Hs..|]. intros p. unfold l, snapshotRange.
    by rewrite !elem_of_snapshotRange_iter, Hi. }
  split; [by apply Hs|]. intros key e. unfold l.
  rewrite elem_of_snapshotRange_iter, in_range_spec, Hi, elem_of_map_to_list. cbn [fst]. tauto.
Qed.

Lemma snapshotRange_spec_witness :
  let k : keydir := {[ [x62] := mkEntry 0 5 1 1; [x61] := mkEntry 0 9 1 2 ]} in
  map_to_list k ≡ₚ map_to_list k
  ∧ let l := snapshotRange_iter (map_to_list k) None (Some [x62]) in
    l = snapshotRange k None (Some [x62])
    ∧ StronglySorted bytes_lt l.*1
    ∧ ∀ key e, (key, e) ∈ l ↔
        k !! key = Some e ∧ (∀ s, None = Some s → bytes_le s key)
        ∧ (∀ x, Some [x62] = Some x → bytes_lt key x).
Proof. split; [reflexivity|]. apply snapshotRange_spec. reflexivity. Defined.

(** Replaying puts is order independent.  When no two replayed puts of one
    key carry the same timestamp, [putIfNewer] gives the same index in every
    replay order, and the entry kept for a key is at least as new as each put
    replayed for it. *)
Theorem putIfNewer_order_independent (k : keydir) (l l' : list rangePair) :
  NoDup ((λ p : rangePair, (p.1, tstamp p.2)) <$> l) → l ≡ₚ l' →
  replay_puts k l = replay_puts k l'
  ∧ ∀ p, p ∈ l → ∃ e, replay_puts k l' !! p.1 = Some e ∧ tstamp p.2 <= tstamp e.
Proof.
  intros Hnd Hp. split; [by apply replay_puts_perm|].
  intros p Hin. apply replay_puts_newest. by rewrite <- Hp.
Qed.

Lemma putIfNewer_order_independent_witness :
  let p := ([x61], mkEntry 0 5 1 1) in let q := ([x61], mkEntry 2 9 1 2) in
  replay_puts ∅ [p; q] = replay_puts ∅ [q; p]
  ∧ ∀ r, r ∈ [p; q] → ∃ e, replay_puts ∅ [q; p] !! r.1 = Some e ∧ tstamp r.2 <= tstamp e.
Proof.
  apply putIfNewer_order_independent; [decided|]. apply Permutation_swap.
Defined.
