(* ===== verification/Hint.v ===== *)
(** * Hint files (src/internal/engine/hint.go)

    The serialised form of a segment's replay metadata: [hint_serialise] is the
    buffer [writeHintFile] fills and publishes, [hint_parse] what [readHintFile]
    does with the bytes of the file.  The file operations around them are in
    the storage layer. *)
From S2P Require Import Prelude Crc32c LogRecord.

Definition hintEntryHeaderSize : Z := 24.
Definition hintFileHeaderSize : Z := 8.
Definition hintFileFooterSize : Z := 8.
Definition hintVersion : Z := 1.
Definition hintValuePosTombstone : Z := -1.
(** 'H' 'I' 'N' 'T' *)
Definition hintMagic : bytes := [x48; x49; x4e; x54].

Record hintEntry := mkHint {
  he_key : bytes;
  he_valuePos : Z;
  he_valueLen : Z;
  he_tstamp : Z;
}.

#[global] Instance hintEntry_eq_dec : EqDecision hintEntry.
Proof. solve_decision. Defined.

(** The validation loop of [writeHintFile]; the size of the entries section. *)
Fixpoint hint_validate (entries : list hintEntry) (entriesBytes : Z) : result Z :=
  match entries with
  | [] => Ok entriesBytes
  | e :: entries' =>
    if zlen (he_key e) =? 0 then Err (errorf "hint: entry %d has empty key"%string)
    else if maxKeyLen <? zlen (he_key e)
    then Err (errorf "hint: entry %d key length %d exceeds %d"%string)
    else if maxValLen <? he_valueLen e
    then Err (errorf "hint: entry %d value length %d exceeds %d"%string)
    else hint_validate entries' (entriesBytes + (hintEntryHeaderSize + zlen (he_key e)))
  end.

(** The entry loop: fills [buf] from [off] on and returns the final offset. *)
Fixpoint hint_fill (entries : list hintEntry) (buf : bytes) (off : Z) : bytes * Z :=
  match entries with
  | [] => (buf, off)
  | e :: entries' =>
    let buf := copy_at buf off (le_put 4 (to_u32 (zlen (he_key e)))) in
    let buf := copy_at buf (off + 4) (le_put 4 (he_valueLen e)) in
    let buf := copy_at buf (off + 8) (le_put 8 (to_u64 (he_valuePos e))) in
    let buf := copy_at buf (off + 16) (le_put 8 (to_u64 (he_tstamp e))) in
    let buf := copy_at buf (off + hintEntryHeaderSize) (he_key e) in
    hint_fill entries' buf (off + (hintEntryHeaderSize + zlen (he_key e)))
  end.

(** The buffer [writeHintFile] writes out. *)
Definition hint_serialise (entries : list hintEntry) : result bytes :=
  if 2 ^ 32 - 1 <? zlen entries then Err (errorf "hint: too many entries (%d)"%string)
  else
    let? entriesBytes := hint_validate entries 0 in
    let total := hintFileHeaderSize + entriesBytes + hintFileFooterSize in
    let buf := make_bytes total in
    let buf := copy_at buf 0 hintMagic in
    let buf := copy_at buf 4 (le_put 2 hintVersion) in
    let (buf, off) := hint_fill entries buf hintFileHeaderSize in
    let buf := copy_at buf off (le_put 4 (to_u32 (zlen entries))) in
    let off := off + 4 in
    let sum := crc32_Checksum (slice_to buf off) in
    Ok (copy_at buf off (le_put 4 sum)).

Definition fuel_exhausted : string := "out of fuel".

(** The parse loop of [readHintFile], from [off] to [entriesEnd]. *)
Fixpoint hint_entries (fuel : nat) (data : bytes) (off entriesEnd : Z) : result (list hintEntry) :=
  if negb (off <? entriesEnd) then Ok []
  else match fuel with
  | O => Err (ESentinel fuel_exhausted)
  | S fuel' =>
    if entriesEnd - off <? hintEntryHeaderSize
    then Err (errorf "hint: truncated entry header at offset %d"%string)
    else
      let keyLen := le_get (slice data off (off + 4)) in
      let valLen := le_get (slice data (off + 4) (off + 8)) in
      let valPos := to_i64 (le_get (slice data (off + 8) (off + 16))) in
      let tstamp := to_i64 (le_get (slice data (off + 16) (off + 24))) in
      if (keyLen =? 0) || (maxKeyLen <? keyLen)
      then Err (errorf "hint: invalid key_len %d at offset %d"%string)
      else if maxValLen <? valLen
      then Err (errorf "hint: invalid val_len %d at offset %d"%string)
      else
        let bodyStart := off + hintEntryHeaderSize in
        let bodyEnd := bodyStart + keyLen in
        if entriesEnd <? bodyEnd
        then Err (errorf "hint: key extends past entries section (offset %d, key_len %d)"%string)
        else
          let? entries := hint_entries fuel' data bodyEnd entriesEnd in
          Ok (mkHint (slice data bodyStart bodyEnd) valPos valLen tstamp :: entries)
  end.

(** [readHintFile] on the contents of the file. *)
Definition hint_parse (data : bytes) : result (list hintEntry) :=
  if zlen data <? hintFileHeaderSize + hintFileFooterSize
  then Err (errorf "hint: file too short (%d bytes)"%string)
  else if negb (bool_decide (slice data 0 4 = hintMagic))
  then Err (errorf "hint: bad magic %x"%string)
  else if negb (le_get (slice data 4 6) =? hintVersion)
  then Err (errorf "hint: unsupported version %d (want %d)"%string)
  else
    let crcOff := zlen data - 4 in
    let gotCRC := le_get (slice_from data crcOff) in
    let wantCRC := crc32_Checksum (slice_to data crcOff) in
    if negb (gotCRC =? wantCRC)
    then Err (errorf "hint: CRC mismatch (got %08x want %08x)"%string)
    else
      let declaredCount := le_get (slice data (crcOff - 4) crcOff) in
      let entriesEnd := crcOff - 4 in
      let? entries := hint_entries (length data) data hintFileHeaderSize entriesEnd in
      if negb (to_u32 (zlen entries) =? declaredCount)
      then Err (errorf "hint: entry_count mismatch (declared %d, parsed %d)"%string)
      else Ok entries.

(** ** The reference format *)

Definition hint_entry_image (e : hintEntry) : bytes :=
  le_put 4 (zlen (he_key e)) ++ le_put 4 (he_valueLen e) ++ le_put 8 (to_u64 (he_valuePos e))
    ++ le_put 8 (to_u64 (he_tstamp e)) ++ he_key e.
Definition hint_entries_image (es : list hintEntry) : bytes := concat (hint_entry_image <$> es).
Definition hint_text (es : list hintEntry) : bytes :=
  hintMagic ++ le_put 2 hintVersion ++ [x00; x00] ++ hint_entries_image es ++ le_put 4 (zlen es).
Definition hint_image (es : list hintEntry) : bytes :=
  hint_text es ++ le_put 4 (crc32_Checksum (hint_text es)).

Definition hint_ok (e : hintEntry) : Prop :=
  key_ok (he_key e) ∧ 0 <= he_valueLen e <= maxValLen
  ∧ is_i64 (he_valuePos e) ∧ is_i64 (he_tstamp e).
#[global] Instance hint_ok_dec e : Decision (hint_ok e).
Proof. unfold hint_ok. apply _. Defined.

Lemma zlen_hint_entry_image e : zlen (hint_entry_image e) = 24 + zlen (he_key e).
Proof. unfold hint_entry_image. zl. Qed.
#[export] Hint Rewrite zlen_hint_entry_image : golen.

Ltac hconsts :=
  unfold hintEntryHeaderSize, hintFileHeaderSize, hintFileFooterSize, hintVersion in *.

Lemma hint_validate_ok es n :
  Forall hint_ok es → hint_validate es n = Ok (n + zlen (hint_entries_image es)).
Proof.
  unfold hint_entries_image. intros Hok. revert n.
  induction Hok as [|e es (Hk & Hv & _) _ IH]; intros n;
    cbn [hint_validate fmap list_fmap concat]; [by rewrite zlen_nil, Z.add_0_r|].
  hconsts. consts.
  replace (zlen (he_key e) =? 0) with false by lia.
  replace (64 * 1024 <? zlen (he_key e)) with false by lia.
  replace (16 * 1024 * 1024 <? he_valueLen e) with false by lia.
  rewrite IH. f_equal. zl.
Qed.

Lemma hint_fill_image es pre m post off :
  Forall hint_ok es → off = zlen pre → zlen m = zlen (hint_entries_image es) →
  hint_fill es (pre ++ m ++ post) off
  = (pre ++ hint_entries_image es ++ post, off + zlen (hint_entries_image es)).
Proof.
  unfold hint_entries_image. intros Hok. revert pre m off.
  induction Hok as [|e es (Hk & Hv & _) _ IH]; intros pre m off -> Hm;
    cbn [fmap list_fmap concat hint_fill] in *.
  { apply zlen_0 in Hm as ->. by rewrite zlen_nil, Z.add_0_r. }
  hconsts. consts. set (K := he_key e) in *.
  pose proof (zlen_hint_entry_image e) as He. fold K in He.
  peel m 4 as p1. peel m 4 as p2. peel m 8 as p3. peel m 8 as p4. peel m (zlen K) as p5.
  rewrite <- !app_assoc. cbv zeta. fill. rewrite to_u32_small by lia.
  transitivity (hint_fill es ((pre ++ hint_entry_image e) ++ m ++ post) (zlen (pre ++ hint_entry_image e))).
  - unfold hint_entry_image. fold K. rewrite <- !app_assoc. f_equal. zl.
  - rewrite IH; [|zl..]. f_equal; [|zl]. by rewrite <- !app_assoc.
Qed.

Lemma hint_serialise_image es :
  Forall hint_ok es → zlen es < 2 ^ 32 → hint_serialise es = Ok (hint_image es).
Proof.
  intros Hok Hn. unfold hint_serialise.
  replace (2 ^ 32 - 1 <? zlen es) with false by lia.
  rewrite hint_validate_ok by done. cbn [rbind]. hconsts.
  set (n := zlen (hint_entries_image es)). assert (Hn0 : 0 <= n) by apply zlen_nonneg.
  assert (Hb : zlen (make_bytes (8 + (0 + n) + 8)) = 16 + n).
  { unfold make_bytes, zlen. rewrite length_replicate. unfold n. zl. }
  assert (Hz : ∃ a b c, make_bytes (8 + (0 + n) + 8) = a ++ b ++ [x00; x00] ++ c
             ∧ zlen a = 4 ∧ zlen b = 2 ∧ zlen c = n + 8).
  { unfold make_bytes. replace (Z.to_nat (8 + (0 + n) + 8)) with (4 + (2 + (2 + Z.to_nat (n + 8))))%nat
      by (unfold n; zl).
    rewrite !replicate_add. exists (replicate 4 x00), (replicate 2 x00), (replicate (Z.to_nat (n + 8)) x00).
    split; [done|]. unfold zlen. rewrite !length_replicate. unfold n. zl. }
  destruct Hz as (a & b & c & -> & Ha & Hb' & Hc). clear Hb.
  peel c n as m. peel c 4 as p.
  assert (zlen hintMagic = 4) by done. fill.
  set (pre := hintMagic ++ le_put 2 1 ++ [x00; x00]).
  assert (Hp : zlen pre = 8) by (unfold pre; zl).
  replace (hintMagic ++ _) with (pre ++ m ++ p ++ c) by (unfold pre; by rewrite <- !app_assoc).
  rewrite hint_fill_image by (done || lia). rewrite to_u32_small by zl. fill.
  assert (c = c ++ []) as -> by (by rewrite app_nil_r). fill.
  unfold hint_image, hint_text. hconsts.
  set (text := pre ++ hint_entries_image es ++ le_put 4 (zlen es)).
  replace (slice_to _ _) with text.
  2: { symmetry.
       assert (E : pre ++ hint_entries_image es ++ le_put 4 (zlen es) ++ c ++ []
                   = text ++ c ++ []) by (unfold text; by rewrite <- !app_assoc).
       rewrite E. apply slice_to_app. unfold text. zl. }
  f_equal. rewrite app_nil_r. unfold text, pre. by rewrite <- !app_assoc.
Qed.

(** *** Parsing *)

Lemma hint_entries_parse es pre post fuel :
  Forall hint_ok es → (length es < fuel)%nat →
  hint_entries fuel (pre ++ hint_entries_image es ++ post) (zlen pre)
    (zlen pre + zlen (hint_entries_image es)) = Ok es.
Proof.
  unfold hint_entries_image. intros Hok. revert pre fuel.
  induction Hok as [|e es (Hk & Hv & Hp & Ht) _ IH]; intros pre [|fuel] Hf; try (simpl in Hf; lia);
    cbn [fmap list_fmap concat hint_entries].
  { replace (negb _) with true by zl. done. }
  pose proof (zlen_hint_entry_image e) as He. set (es' := concat _).
  replace (negb _) with false by zl. rewrite <- app_assoc. set (rest := es' ++ post).
  hconsts. consts.
  assert (F : slice (pre ++ hint_entry_image e ++ rest) (zlen pre) (zlen pre + 4) = le_put 4 (zlen (he_key e))
    ∧ slice (pre ++ hint_entry_image e ++ rest) (zlen pre + 4) (zlen pre + 8) = le_put 4 (he_valueLen e)
    ∧ slice (pre ++ hint_entry_image e ++ rest) (zlen pre + 8) (zlen pre + 16) = le_put 8 (to_u64 (he_valuePos e))
    ∧ slice (pre ++ hint_entry_image e ++ rest) (zlen pre + 16) (zlen pre + 24) = le_put 8 (to_u64 (he_tstamp e))
    ∧ slice (pre ++ hint_entry_image e ++ rest) (zlen pre + 24) (zlen pre + 24 + zlen (he_key e)) = he_key e).
  { unfold hint_entry_image. rewrite <- !app_assoc. by fields. }
  destruct F as (-> & -> & -> & -> & F5).
  replace (_ <? 24) with false by zl.
  change (256 ^ Z.of_nat 4) with (2 ^ 32) in *.
  rewrite !le_get_put_small, !to_i64_get_put by (done || (change (256 ^ Z.of_nat 4) with (2 ^ 32); lia)).
  cbv zeta.
  replace ((zlen (he_key e) =? 0) || _) with false by lia.
  replace (16 * 1024 * 1024 <? he_valueLen e) with false by lia.
  replace (_ <? zlen pre + 24 + zlen (he_key e)) with false by zl.
  rewrite F5. unfold rest. rewrite app_assoc.
  replace (zlen pre + 24 + zlen (he_key e)) with (zlen (pre ++ hint_entry_image e)) by zl.
  replace (zlen pre + zlen (hint_entry_image e ++ es')) with (zlen (pre ++ hint_entry_image e) + zlen es') by zl.
  unfold es'. rewrite IH by (simpl in Hf; lia). cbn [rbind]. by destruct e.
Qed.

Lemma hint_entries_image_min es : zlen es <= zlen (hint_entries_image es).
Proof.
  unfold hint_entries_image. induction es as [|e es IH]; [done|].
  cbn [fmap list_fmap concat]. pose proof (zlen_nonneg (he_key e)). zl.
Qed.

Lemma zlen_hint_text es : zlen (hint_text es) = 12 + zlen (hint_entries_image es).
Proof. unfold hint_text. assert (zlen hintMagic = 4) by done. zl. Qed.

Lemma hint_parse_image es :
  Forall hint_ok es → zlen es < 2 ^ 32 → hint_parse (hint_image es) = Ok es.
Proof.
  intros Hok Hn. unfold hint_parse.
  pose proof (zlen_hint_text es) as Ht.
  assert (Hl : zlen (hint_image es) = 16 + zlen (hint_entries_image es)).
  { unfold hint_image. zl. }
  assert (Hm : zlen hintMagic = 4) by done.
  destruct (trailer_split (hint_text es) (le_put 4 (crc32_Checksum (hint_text es)))) as [E1 E2]; [zl|].
  fold (hint_image es) in E1, E2. rewrite E1, E2.
  assert (F : slice (hint_image es) 0 4 = hintMagic ∧ slice (hint_image es) 4 6 = le_put 2 1
    ∧ slice (hint_image es) (zlen (hint_image es) - 4 - 4) (zlen (hint_image es) - 4) = le_put 4 (zlen es)).
  { rewrite Hl. unfold hint_image, hint_text. hconsts. rewrite <- !app_assoc. by fields. }
  destruct F as (-> & -> & ->). hconsts.
  replace (zlen (hint_image es) <? 8 + 8) with false by zl.
  rewrite bool_decide_true by done. cbn [negb].
  rewrite (le_get_put_small 2) by done. cbn [negb Z.eqb Pos.eqb].
  rewrite le_get_put_small by apply Checksum_bound. rewrite Z.eqb_refl. cbn [negb]. cbv zeta.
  pose proof (hint_entries_image_min es) as Hmin.
  assert (E : hint_entries (length (hint_image es)) (hint_image es) 8 (zlen (hint_image es) - 4 - 4) = Ok es).
  { pose proof (hint_entries_parse es (hintMagic ++ le_put 2 1 ++ [x00; x00])
      (le_put 4 (zlen es) ++ le_put 4 (crc32_Checksum (hint_text es))) (length (hint_image es)) Hok) as H.
    rewrite !zlen_app, zlen_le_put, Hm in H. change (4 + (Z.of_nat 2 + zlen [x00; x00])) with 8 in H.
    replace (zlen (hint_image es) - 4 - 4) with (8 + zlen (hint_entries_image es)) by lia.
    rewrite <- H by (unfold zlen in *; lia).
    f_equal. unfold hint_image, hint_text. hconsts. by rewrite <- !app_assoc. }
  rewrite E. cbn [rbind]. rewrite to_u32_small by zl.
  rewrite le_get_put_small by (change (256 ^ Z.of_nat 4) with (2 ^ 32); zl).
  by rewrite Z.eqb_refl.
Qed.

(** The parser accepts only checksummed files. *)
Lemma hint_parse_checksummed data es : hint_parse data = Ok es → trailer_checksummed data.
Proof.
  unfold hint_parse, trailer_checksummed. repeat case_match; try done. intros _. lia.
Qed.

(** Each round of the loop moves at least 25 bytes on, so the file's length is
    more fuel than it can use. *)
Lemma hint_entries_fuel fuel data off entriesEnd :
  entriesEnd - off < 25 * Z.of_nat fuel →
  hint_entries fuel data off entriesEnd ≠ Err (ESentinel fuel_exhausted).
Proof.
  revert off. induction fuel as [|fuel IH]; intros off Hf; cbn [hint_entries].
  - replace (negb _) with true by lia. done.
  - destruct (negb _); [done|]. destruct (_ <? _); [done|]. cbv zeta.
    do 3 (case_match; [done|]).
    hconsts. pose proof (le_get_bound (slice data off (off + 4))).
    specialize (IH (off + 24 + le_get (slice data off (off + 4))) ltac:(lia)).
    destruct (hint_entries fuel _ _ _) as [|e]; cbn [rbind]; [done|]. congruence.
Qed.

(** ** Properties *)

(** C37: hint files round trip.  Serialising any valid entries (live PUTs and
    tombstones, in any order, up to 2^32 - 1 of them) and parsing the result
    gives the same entries in the same order. *)
Theorem hint_roundtrip es :
  Forall hint_ok es → zlen es < 2 ^ 32 →
  ∃ data, hint_serialise es = Ok data ∧ hint_parse data = Ok es.
Proof.
  intros Hok Hn. exists (hint_image es). split; [by apply hint_serialise_image | by apply hint_parse_image].
Qed.

Definition sample_hints : list hintEntry :=
  [mkHint [x61] 22 3 7; mkHint [x62; x63] (-1) 0 9].

Lemma hint_roundtrip_witness :
  ∃ data, hint_serialise sample_hints = Ok data ∧ hint_parse data = Ok sample_hints.
Proof. apply hint_roundtrip; decided. Defined.

(** C38: a damaged hint is never trusted.  Changing any single byte of a hint
    file the parser accepts, wherever it is, makes the parser reject the file,
    so that recovery falls back to the data scan. *)
Theorem hint_corruption_detected data es pre b b' post :
  hint_parse data = Ok es → data = pre ++ b :: post → b ≠ b' →
  ∃ e, hint_parse (pre ++ b' :: post) = Err e.
Proof.
  intros H -> Hb. destruct (hint_parse (pre ++ b' :: post)) as [es'|e] eqn:E; [|eauto].
  exfalso. assert (Hl : 16 <= zlen (pre ++ b :: post)).
  { revert H. unfold hint_parse. hconsts. case_match; [done|]. lia. }
  apply hint_parse_checksummed in H, E.
  revert E. apply (trailer_checksummed_one_byte pre b b' post); [lia|done|done].
Qed.

Lemma hint_corruption_detected_witness :
  ∃ e, hint_parse (slice_to (hint_image sample_hints) 8 ++ x02 :: slice_from (hint_image sample_hints) 9)
       = Err e.
Proof.
  apply (hint_corruption_detected (hint_image sample_hints) sample_hints _ x01);
    [vm_compute; reflexivity|vm_compute; reflexivity|decided].
Defined.

(** The parse loop terminates: on any bytes, with the file's length as
    fuel, [hint_parse] returns entries or one of the code's own errors. *)
Theorem hint_parse_terminates data : hint_parse data ≠ Err (ESentinel fuel_exhausted).
Proof.
  unfold hint_parse. do 4 (case_match; [done|]).
  pose proof (hint_entries_fuel (length data) data hintFileHeaderSize (zlen data - 4 - 4)) as Hfuel.
  destruct (hint_entries _ _ _ _) as [es|e]; cbn [rbind].
  - by case_match.
  - intros [= ->]. apply Hfuel; [|done]. hconsts. unfold zlen. lia.
Qed.
