(* ===== verification/Storage.v ===== *)
(** * Files, buffered writers and segments

    The data directory as the engine's system calls see it, and
    src/internal/engine/segment.go on top of it.  A file is an inode with its
    contents and the contents known to be on stable storage; the directory maps
    names to inodes, with a second map for what a directory fsync has made
    durable.  Every call that can fail takes its outcome from a script of
    faults in the environment, so that the theorems, which quantify over the
    script, cover every combination of failing calls. *)
From S2P Require Import Prelude.

(** ** The file system *)

Record inode := mkInode {
  i_data : bytes;
  i_synced : bytes;
}.

Record disk := mkDisk {
  d_inodes : gmap N inode;
  d_dir : gmap bytes N;
  d_sdir : gmap bytes N;
  d_next : N;
}.

Definition empty_disk : disk := mkDisk ∅ ∅ ∅ 0.

(** A fault script entry: [None] lets the call succeed, [Some n] makes it fail
    (a failing write having written [n] bytes).  Past its end nothing fails. *)
Record env := mkEnv {
  e_disk : disk;
  e_faults : list (option Z);
  e_clock : list Z;
}.

Definition set_disk (d : disk) (e : env) : env := mkEnv d (e_faults e) (e_clock e).

Definition EIO : string := "input/output error".
Definition os_ErrNotExist : string := "file does not exist".
Definition os_ErrExist : string := "file already exists".

(** A system call: [ok] is its effect, [partial n] what a failure leaves behind. *)
Definition sys {A} (ok : disk → result A * disk) (partial : Z → disk → disk) (e : env)
    : result A * env :=
  match e_faults e with
  | Some n :: fs => (Err (ESentinel EIO), mkEnv (partial n (e_disk e)) fs (e_clock e))
  | None :: fs => let (r, d) := ok (e_disk e) in (r, mkEnv d fs (e_clock e))
  | [] => let (r, d) := ok (e_disk e) in (r, mkEnv d [] (e_clock e))
  end.

Definition no_effect : Z → disk → disk := λ _ d, d.

(** [time.Now().UnixNano()]: the next reading of the clock, in any order. *)
Definition time_Now (e : env) : Z * env :=
  match e_clock e with
  | t :: ts => (to_i64 t, mkEnv (e_disk e) (e_faults e) ts)
  | [] => (0, e)
  end.

Definition set_inode (ino : N) (i : inode) (d : disk) : disk :=
  mkDisk (<[ino := i]> (d_inodes d)) (d_dir d) (d_sdir d) (d_next d).
Definition set_dir (dir : gmap bytes N) (d : disk) : disk :=
  mkDisk (d_inodes d) dir (d_sdir d) (d_next d).

Definition alloc (name : bytes) (d : disk) : N * disk :=
  (d_next d,
   mkDisk (<[d_next d := mkInode [] []]> (d_inodes d)) (<[name := d_next d]> (d_dir d))
     (d_sdir d) (d_next d + 1)).

Definition append_data (bs : bytes) (ino : N) (d : disk) : disk :=
  match d_inodes d !! ino with
  | Some i => set_inode ino (mkInode (i_data i ++ bs) (i_synced i)) d
  | None => d
  end.
Definition sync_data (ino : N) (d : disk) : disk :=
  match d_inodes d !! ino with
  | Some i => set_inode ino (mkInode (i_data i) (i_data i)) d
  | None => d
  end.
Definition truncate_data (n : Z) (ino : N) (d : disk) : disk :=
  match d_inodes d !! ino with
  | Some i => set_inode ino (mkInode (slice_to (i_data i) n) (i_synced i)) d
  | None => d
  end.
Definition open_trunc (name : bytes) (d : disk) : N * disk :=
  match d_dir d !! name with
  | Some ino => (ino, truncate_data 0 ino d)
  | None => alloc name d
  end.
Definition link_rename (from to : bytes) (ino : N) (d : disk) : disk :=
  set_dir (<[to := ino]> (base.delete from (d_dir d))) d.
Definition unlink (name : bytes) (d : disk) : disk := set_dir (base.delete name (d_dir d)) d.
Definition sync_dir (d : disk) : disk := mkDisk (d_inodes d) (d_dir d) (d_dir d) (d_next d).

Definition file_data (d : disk) (ino : N) : bytes :=
  match d_inodes d !! ino with Some i => i_data i | None => [] end.
Definition file_synced (d : disk) (ino : N) : bytes :=
  match d_inodes d !! ino with Some i => i_synced i | None => [] end.

(** [os.OpenFile(name, O_RDWR|O_CREATE|O_EXCL)] *)
Definition os_create_excl (name : bytes) : env → result N * env :=
  sys (λ d, match d_dir d !! name with
            | Some _ => (Err (ESentinel os_ErrExist), d)
            | None => ((Ok (alloc name d).1), (alloc name d).2)
            end) no_effect.

(** [os.OpenFile(name, O_RDWR|O_CREATE|O_TRUNC)] *)
Definition os_create_trunc (name : bytes) : env → result N * env :=
  sys (λ d, (Ok (open_trunc name d).1, (open_trunc name d).2)) no_effect.

(** [os.OpenFile(name, O_RDONLY)] and [O_RDWR] *)
Definition os_open (name : bytes) : env → result N * env :=
  sys (λ d, (match d_dir d !! name with
             | Some ino => Ok ino
             | None => Err (ESentinel os_ErrNotExist)
             end, d)) no_effect.

(** [f.Write(bs)] at the end of the file: all of it, or a prefix and an error. *)
Definition file_Write (ino : N) (bs : bytes) : env → result unit * env :=
  sys (λ d, (Ok tt, append_data bs ino d)) (λ n d, append_data (slice_to bs n) ino d).

(** [fullSync(f)] on a file. *)
Definition file_Sync (ino : N) : env → result unit * env :=
  sys (λ d, (Ok tt, sync_data ino d)) no_effect.

Definition file_Close : env → result unit * env := sys (λ d, (Ok tt, d)) no_effect.

(** [f.Stat().Size()] *)
Definition file_Size (ino : N) : env → result Z * env :=
  sys (λ d, (Ok (zlen (file_data d ino)), d)) no_effect.

(** [f.ReadAt(p, off)] with [len p = n]: exactly [n] bytes or an error. *)
Definition file_ReadAt (ino : N) (n off : Z) : env → result bytes * env :=
  sys (λ d, (if zlen (file_data d ino) <? off + n then Err (ESentinel io_EOF)
             else Ok (slice (file_data d ino) off (off + n)), d)) no_effect.

(** The whole contents ([io.ReadAll]). *)
Definition file_ReadAll (ino : N) : env → result bytes * env :=
  sys (λ d, (Ok (file_data d ino), d)) no_effect.

Definition file_Truncate (ino : N) (n : Z) : env → result unit * env :=
  sys (λ d, (Ok tt, truncate_data n ino d)) no_effect.

(** [f.Seek(0, io.SeekEnd)]: appends go to the end of the file from here on. *)
Definition file_SeekEnd : env → result unit * env := sys (λ d, (Ok tt, d)) no_effect.

Definition os_Rename (from to : bytes) : env → result unit * env :=
  sys (λ d, match d_dir d !! from with
            | Some ino => (Ok tt, link_rename from to ino d)
            | None => (Err (ESentinel os_ErrNotExist), d)
            end) no_effect.

Definition os_Remove (name : bytes) : env → result unit * env :=
  sys (λ d, (match d_dir d !! name with
             | Some _ => Ok tt
             | None => Err (ESentinel os_ErrNotExist)
             end, unlink name d)) no_effect.

(** [os.ReadDir]: the names in the directory, in order. *)
Definition os_ReadDir : env → result (list bytes) * env :=
  sys (λ d, (Ok (merge_sort bytes_le (elements (dom (d_dir d)))), d)) no_effect.

(** Opening the directory and fsyncing it. *)
Definition dir_Open : env → result unit * env := sys (λ d, (Ok tt, d)) no_effect.
Definition dir_Sync : env → result unit * env := sys (λ d, (Ok tt, sync_dir d)) no_effect.

(** [syncDir] (manifest.go). *)
Definition syncDir : env → result unit * env :=
  do! _ := on_error dir_Open Datatypes.id (λ e, EWrap "open dir for fsync: %w" [e]) in
  do! _ := on_error dir_Sync (ignore file_Close) (λ e, EWrap "fsync dir: %w" [e]) in
  on_error file_Close Datatypes.id (λ e, EWrap "close dir: %w" [e]).

(** ** Buffered writers ([bufio.Writer] of 64 KiB) *)

Definition bufio_size : Z := 64 * 1024.

Record bufio := mkBufio {
  b_pending : bytes;
  b_err : option error;   (* a failed write is remembered and returned for ever *)
}.

Definition bufio_new : bufio := mkBufio [] None.

Definition bufio_Flush (ino : N) (b : bufio) (e : env) : result unit * bufio * env :=
  match b_err b with
  | Some err => (Err err, b, e)
  | None =>
    match b_pending b with
    | [] => (Ok tt, b, e)
    | p => match file_Write ino p e with
           | (Ok _, e) => (Ok tt, mkBufio [] None, e)
           | (Err err, e) => (Err err, mkBufio p (Some err), e)
           end
    end
  end.

(** [Write]: small writes are buffered; a write that does not fit fills and
    flushes the buffer, and what is left is written directly when it does not
    fit an empty one. *)
Definition bufio_WriteRest (ino : N) (p : bytes) (b : bufio) (e : env) : result unit * bufio * env :=
  if bufio_size <? zlen p then
    match file_Write ino p e with
    | (Ok _, e) => (Ok tt, b, e)
    | (Err err, e) => (Err err, mkBufio (b_pending b) (Some err), e)
    end
  else (Ok tt, mkBufio (b_pending b ++ p) None, e).

Definition bufio_Write (ino : N) (b : bufio) (p : bytes) (e : env) : result unit * bufio * env :=
  match b_err b with
  | Some err => (Err err, b, e)
  | None =>
    let avail := bufio_size - zlen (b_pending b) in
    if zlen p <=? avail then (Ok tt, mkBufio (b_pending b ++ p) None, e)
    else match b_pending b with
         | [] => bufio_WriteRest ino p b e
         | _ =>
           match bufio_Flush ino (mkBufio (b_pending b ++ slice_to p avail) None) e with
           | (Err err, b, e) => (Err err, b, e)
           | (Ok _, b, e) => bufio_WriteRest ino (slice_from p avail) b e
           end
         end
  end.

(** ** Segments (segment.go) *)

Definition segmentFileExt : bytes := String.list_byte_of_string ".seg".

(** [fmt.Sprintf("%010d", id)] for an id of at most ten digits. *)
Fixpoint decimal (n : nat) (z : Z) : bytes :=
  match n with
  | O => []
  | S n' => decimal n' (z / 10) ++ [z2b (48 + z mod 10)]
  end.

Definition segmentFilename (id : Z) : bytes := decimal 10 id ++ segmentFileExt.

(** [segment]; its [path] is [segmentFilename] of its id. *)
Record segment := mkSegment {
  s_id : Z;
  s_file : N;
  s_bw : option bufio;
  s_size : Z;
}.

Definition s_path (s : segment) : bytes := segmentFilename (s_id s).

Definition createSegment (id : Z) : env → result segment * env :=
  do! f := on_error (os_create_excl (segmentFilename id)) Datatypes.id
             (λ e, EWrap "create segment %d: %w" [e]) in
  eret (mkSegment id f (Some bufio_new) 0).

Definition openSegmentReadWrite (id : Z) : env → result segment * env :=
  do! f := on_error (os_open (segmentFilename id)) Datatypes.id
             (λ e, EWrap "open segment %s: %w" [e]) in
  do! size := on_error (file_Size f) (ignore file_Close) Datatypes.id in
  eret (mkSegment id f None size).

(** [append]; a nil writer never occurs (only segments opened for appending
    are appended to). *)
Definition append (s : segment) (buf : bytes) (e : env) : result Z * segment * env :=
  let offset := s_size s in
  let b := match s_bw s with Some b => b | None => bufio_new end in
  match bufio_Write (s_file s) b buf e with
  | (Err err, b, e) => (Err err, mkSegment (s_id s) (s_file s) (Some b) (s_size s), e)
  | (Ok _, b, e) =>
      (Ok offset, mkSegment (s_id s) (s_file s) (Some b) (s_size s + zlen buf), e)
  end.

Definition flush (s : segment) (e : env) : result unit * segment * env :=
  match s_bw s with
  | None => (Ok tt, s, e)
  | Some b =>
    let '(r, b, e) := bufio_Flush (s_file s) b e in
    (r, mkSegment (s_id s) (s_file s) (Some b) (s_size s), e)
  end.

Definition sync (s : segment) (e : env) : result unit * segment * env :=
  match flush s e with
  | (Err err, s, e) => (Err err, s, e)
  | (Ok _, s, e) => let (r, e) := file_Sync (s_file s) e in (r, s, e)
  end.

Definition readAt (s : segment) (n off : Z) : env → result bytes * env :=
  file_ReadAt (s_file s) n off.

Definition close (s : segment) (e : env) : result unit * env :=
  let '(_, s, e) := flush s e in file_Close e.

(** ** Lemmas: system calls *)

Lemma sys_cases {A} (ok : disk → result A * disk) partial e :
  (∃ fs, sys ok partial e = ((ok (e_disk e)).1, mkEnv (ok (e_disk e)).2 fs (e_clock e))) ∨
  (∃ n fs, sys ok partial e = (Err (ESentinel EIO), mkEnv (partial n (e_disk e)) fs (e_clock e))).
Proof.
  unfold sys. destruct (e_faults e) as [|[n|] fs]; [left; exists []|right; eauto|left; exists fs];
    by destruct (ok (e_disk e)).
Qed.

Lemma sys_no_faults {A} (ok : disk → result A * disk) partial e :
  e_faults e = [] → sys ok partial e = ((ok (e_disk e)).1, mkEnv (ok (e_disk e)).2 [] (e_clock e)).
Proof. unfold sys. intros ->. by destruct (ok (e_disk e)). Qed.

(** Only the script moved. *)
Definition same_disk (e e' : env) : Prop := e_disk e' = e_disk e ∧ e_clock e' = e_clock e.

#[global] Instance same_disk_preorder : PreOrder same_disk.
Proof. split; [by intros e|]. intros a b c [] []. split; congruence. Qed.

(** [e'] is [e] after [q] was appended to file [ino]. *)
Record appended (ino : N) (q : bytes) (e e' : env) : Prop := mkAppended {
  app_dir : d_dir (e_disk e') = d_dir (e_disk e);
  app_sdir : d_sdir (e_disk e') = d_sdir (e_disk e);
  app_next : d_next (e_disk e') = d_next (e_disk e);
  app_clock : e_clock e' = e_clock e;
  app_dom : dom (d_inodes (e_disk e')) = dom (d_inodes (e_disk e));
  app_data : file_data (e_disk e') ino = file_data (e_disk e) ino ++ q;
  app_other : ∀ j, j ≠ ino → d_inodes (e_disk e') !! j = d_inodes (e_disk e) !! j;
}.

Definition has_file (ino : N) (e : env) : Prop := ino ∈ dom (d_inodes (e_disk e)).

Lemma appended_nil ino e e' : same_disk e e' → appended ino [] e e'.
Proof. intros [Hd Hc]. constructor; rewrite ?Hd, ?app_nil_r; done. Qed.
Lemma appended_refl ino e : appended ino [] e e.
Proof. by apply appended_nil. Qed.
Lemma appended_trans ino q q' e1 e2 e3 :
  appended ino q e1 e2 → appended ino q' e2 e3 → appended ino (q ++ q') e1 e3.
Proof.
  intros [? ? ? ? ? D1 O1] [? ? ? ? ? D2 O2]. constructor; try congruence.
  - by rewrite D2, D1, app_assoc.
  - intros j Hj. by rewrite O2, O1.
Qed.
Lemma appended_has_file ino q e e' j : appended ino q e e' → has_file j e → has_file j e'.
Proof. unfold has_file. intros [] ?. congruence. Qed.
Lemma appended_other_data ino q e e' j :
  appended ino q e e' → j ≠ ino → file_data (e_disk e') j = file_data (e_disk e) j.
Proof. intros [] ?. unfold file_data. by rewrite app_other0. Qed.

Lemma append_data_appended ino bs e fs c :
  has_file ino e → c = e_clock e → appended ino bs e (mkEnv (append_data bs ino (e_disk e)) fs c).
Proof.
  intros [i Hi]%elem_of_dom ->. unfold append_data, file_data, set_inode. rewrite Hi.
  constructor; simpl; try done.
  - rewrite dom_insert_lookup_L by eauto. done.
  - unfold file_data. simpl. by rewrite lookup_insert_eq, Hi.
  - intros. by rewrite lookup_insert_ne.
Qed.

(** A write appends all its bytes, or fails having appended the first few. *)
Lemma file_Write_spec ino bs e r e' :
  has_file ino e → file_Write ino bs e = (r, e') →
  ∃ q, appended ino q e e' ∧ q `prefix_of` bs ∧ (is_ok r → q = bs).
Proof.
  unfold file_Write. intros Hf.
  destruct (sys_cases (λ d, (Ok tt, append_data bs ino d)) (λ n d, append_data (slice_to bs n) ino d) e)
    as [(fs & ->)|(n & fs & ->)]; intros [= <- <-].
  - exists bs. split; [by apply append_data_appended|done].
  - exists (slice_to bs n). split; [by apply append_data_appended|]. split; [|done].
    exists (slice_from bs n). by rewrite slice_to_from.
Qed.

Lemma bufio_Flush_spec ino b e r b' e' :
  has_file ino e → b_err b = None → bufio_Flush ino b e = (r, b', e') →
  ∃ q, appended ino q e e' ∧
    match r with
    | Ok _ => b' = bufio_new ∧ q = b_pending b
    | Err _ => b_err b' ≠ None ∧ q `prefix_of` b_pending b
    end.
Proof.
  intros Hf Hb. unfold bufio_Flush. rewrite Hb. destruct b as [[|x p] err]; simpl in *.
  - intros [= <- <- <-]. exists []. split; [apply appended_refl|]. by subst.
  - destruct (file_Write ino (x :: p) e) as [r1 e1] eqn:E.
    destruct (file_Write_spec _ _ _ _ _ Hf E) as (q & Ha & Hp & Hq).
    destruct r1; intros [= <- <- <-]; exists q; (split; [done|]); [by rewrite Hq|done].
Qed.

Lemma bufio_WriteRest_spec ino b p e r b' e' :
  has_file ino e → b_err b = None → b_pending b = [] → bufio_WriteRest ino p b e = (r, b', e') →
  ∃ q, appended ino q e e' ∧
    match r with
    | Ok _ => b_err b' = None ∧ q ++ b_pending b' = p
    | Err _ => b_err b' ≠ None ∧ q `prefix_of` p
    end.
Proof.
  intros Hf Hb Hp. unfold bufio_WriteRest. destruct b as [pend err]; simpl in *; subst.
  case_match.
  - destruct (file_Write ino p e) as [r1 e1] eqn:E.
    destruct (file_Write_spec _ _ _ _ _ Hf E) as (q & Ha & Hpre & Hq).
    destruct r1; intros [= <- <- <-]; exists q; (split; [done|]); [|done].
    simpl. rewrite app_nil_r. split; [done|by apply Hq].
  - intros [= <- <- <-]. exists []. split; [apply appended_refl|done].
Qed.

(** What a buffered write has put in the file followed by what it still holds is
    what was pending followed by the new bytes; a failed one has put a prefix. *)
Lemma bufio_Write_spec ino b p e r b' e' :
  has_file ino e → b_err b = None → bufio_Write ino b p e = (r, b', e') →
  ∃ q, appended ino q e e' ∧
    match r with
    | Ok _ => b_err b' = None ∧ q ++ b_pending b' = b_pending b ++ p
    | Err _ => b_err b' ≠ None ∧ q `prefix_of` b_pending b ++ p
    end.
Proof.
  intros Hf Hb. unfold bufio_Write. rewrite Hb. case_match.
  { intros [= <- <- <-]. exists []. split; [apply appended_refl|done]. }
  destruct (b_pending b) as [|x pend] eqn:Hp.
  { intros Hw. destruct (bufio_WriteRest_spec _ _ _ _ _ _ _ Hf Hb Hp Hw) as (q & ? & ?). by exists q. }
  set (avail := bufio_size - zlen (x :: pend)).
  destruct (bufio_Flush _ _ _) as [[[u|err] b1] e1] eqn:E;
    destruct (bufio_Flush_spec ino (mkBufio ((x :: pend) ++ slice_to p avail) None) _ _ _ _ Hf eq_refl E)
      as (q & Ha & Hq).
  - destruct Hq as [-> ->]. intros Hw.
    destruct (bufio_WriteRest_spec ino bufio_new (slice_from p avail) e1 r b' e')
      as (q' & Ha' & Hr); [by eapply appended_has_file|done|done|done|].
    eexists. split; [by eapply appended_trans|]. cbn [b_pending]. destruct r.
    + destruct Hr as [? Hr]. split; [done|].
      by rewrite <- (app_assoc _ q'), Hr, <- app_assoc, slice_to_from.
    + destruct Hr as [? [k Hr]]. split; [done|]. exists k.
      by rewrite <- !app_assoc, <- Hr, slice_to_from.
  - intros [= <- <- <-]. exists q. split; [done|]. destruct Hq as [? [k Hk]]. split; [done|].
    cbn [b_pending] in Hk. exists (k ++ slice_from p avail).
    by rewrite app_assoc, <- Hk, <- app_assoc, slice_to_from.
Qed.

(** ** Lemmas: segments *)

(** A segment whose writer is healthy and flushed, with its file. *)
Definition quiescent (s : segment) (e : env) : Prop :=
  has_file (s_file s) e ∧ s_bw s = Some bufio_new
  ∧ s_size s = zlen (file_data (e_disk e) (s_file s)).

Definition writer_failed (s : segment) : Prop := ∃ b, s_bw s = Some b ∧ b_err b ≠ None.

Definition s_pending (s : segment) : bytes :=
  match s_bw s with Some b => b_pending b | None => [] end.

Definition healthy (s : segment) : Prop := ∃ p, s_bw s = Some (mkBufio p None).

(** Appending to a healthy segment: on success the new bytes are behind what the
    file and the buffer held; on failure the writer has failed for good. *)
Lemma append_spec s buf e r s' e' :
  has_file (s_file s) e → healthy s → append s buf e = (r, s', e') →
  s_id s' = s_id s ∧ s_file s' = s_file s ∧
  ∃ q, appended (s_file s) q e e' ∧
    match r with
    | Ok off => off = s_size s ∧ healthy s' ∧ q ++ s_pending s' = s_pending s ++ buf
                ∧ s_size s' = s_size s + zlen buf
    | Err _ => writer_failed s' ∧ s_size s' = s_size s ∧ q `prefix_of` s_pending s ++ buf
    end.
Proof.
  intros Hf [p Hb]. unfold append. rewrite Hb.
  destruct (bufio_Write _ _ _ _) as [[r1 b1] e1] eqn:E.
  destruct (bufio_Write_spec _ (mkBufio p None) _ _ _ _ _ Hf eq_refl E) as (q & Ha & Hq).
  destruct r1; intros [= <- <- <-]; simpl; (split; [done|]); (split; [done|]); exists q; (split; [done|]).
  - destruct Hq as [Hn Hq]. split; [done|]. split.
    { exists (b_pending b1). simpl. destruct b1; simpl in *. by subst. }
    split; [|done]. unfold s_pending. rewrite Hb. done.
  - destruct Hq as [Hn Hq]. split; [by exists b1|]. split; [done|]. unfold s_pending. by rewrite Hb.
Qed.

Lemma flush_spec s e r s' e' :
  has_file (s_file s) e → healthy s → flush s e = (r, s', e') →
  s_id s' = s_id s ∧ s_file s' = s_file s ∧ s_size s' = s_size s ∧
  ∃ q, appended (s_file s) q e e' ∧
    match r with
    | Ok _ => s_bw s' = Some bufio_new ∧ q = s_pending s
    | Err _ => writer_failed s' ∧ q `prefix_of` s_pending s
    end.
Proof.
  intros Hf [p Hb]. unfold flush. rewrite Hb.
  destruct (bufio_Flush _ _ _) as [[r1 b1] e1] eqn:E.
  destruct (bufio_Flush_spec _ (mkBufio p None) _ _ _ _ Hf eq_refl E) as (q & Ha & Hq).
  intros [= <- <- <-]; simpl. repeat (split; [done|]). exists q. split; [done|].
  destruct r1.
  - destruct Hq as [-> ->]. unfold s_pending. by rewrite Hb.
  - destruct Hq as [Hn Hq]. split; [by exists b1|]. unfold s_pending. by rewrite Hb.
Qed.

(** Once a writer has failed, appends and flushes fail and change nothing. *)
Lemma append_failed s buf e :
  writer_failed s → ∃ err, append s buf e = (Err err, s, e).
Proof.
  intros (b & Hb & Hn). unfold append, bufio_Write. rewrite Hb.
  destruct (b_err b) as [err|] eqn:E; [|done]. exists err. by destruct s; simpl in *; subst.
Qed.
Lemma flush_failed s e :
  writer_failed s → ∃ err, flush s e = (Err err, s, e).
Proof.
  intros (b & Hb & Hn). unfold flush, bufio_Flush. rewrite Hb.
  destruct (b_err b) as [err|] eqn:E; [|done]. exists err. by destruct s; simpl in *; subst.
Qed.

(** The append-then-flush sequence of the write path, from a quiescent segment. *)
Definition append_flush (s : segment) (buf : bytes) (e : env) : result Z * segment * env :=
  match append s buf e with
  | (Err err, s, e) => (Err err, s, e)
  | (Ok off, s, e) =>
    match flush s e with
    | (Err err, s, e) => (Err err, s, e)
    | (Ok _, s, e) => (Ok off, s, e)
    end
  end.

Lemma append_flush_spec s buf e r s' e' :
  quiescent s e → append_flush s buf e = (r, s', e') →
  s_id s' = s_id s ∧ s_file s' = s_file s ∧
  ∃ q, appended (s_file s) q e e' ∧
    match r with
    | Ok off => off = s_size s ∧ q = buf ∧ quiescent s' e'
    | Err _ => writer_failed s' ∧ q `prefix_of` buf
    end.
Proof.
  intros (Hf & Hb & Hs). unfold append_flush.
  assert (Hp : s_pending s = []) by (unfold s_pending; by rewrite Hb).
  destruct (append s buf e) as [[r1 s1] e1] eqn:E1.
  destruct (append_spec s buf e _ _ _ Hf ltac:(by exists []) E1) as (Hi & Hfi & q & Ha & Hq).
  rewrite Hp in Hq. destruct r1 as [off|err].
  2: { intros [= <- <- <-]. split; [done|]. split; [done|]. exists q. by destruct Hq as (? & ? & ?). }
  destruct Hq as (-> & Hh & Hq & Hsz). cbn [app] in Hq.
  assert (Hf1 : has_file (s_file s1) e1) by (rewrite Hfi; by eapply appended_has_file).
  destruct (flush s1 e1) as [[r2 s2] e2] eqn:E2.
  destruct (flush_spec _ _ _ _ _ Hf1 Hh E2) as (Hi2 & Hfi2 & Hsz2 & q2 & Ha2 & Hq2).
  rewrite Hfi in Ha2. pose proof (appended_trans _ _ _ _ _ _ Ha Ha2) as Ha3.
  destruct r2 as [u|err]; intros [= <- <- <-]; (split; [congruence|]); (split; [congruence|]);
    eexists; (split; [done|]).
  - destruct Hq2 as [Hb2 ->]. split; [done|]. rewrite Hq. split; [done|].
    split; [|split; [done|]]; rewrite Hfi2, Hfi; [by eapply appended_has_file|].
    rewrite (app_data _ _ _ _ Ha3), Hsz2, Hsz, zlen_app, Hs, Hq. done.
  - destruct Hq2 as [Hn [k Hk]]. split; [done|]. exists k. by rewrite <- app_assoc, <- Hk.
Qed.
