(* ===== verification/Frame.v ===== *)
(** * What the system calls leave alone

    Reasoning about directory operations: a well-formed disk, the frame
    relation [framed P d d'] (under the names in [P] the directory is unchanged
    and the files linked there have the same contents), and each call's place in it.  The components
    above prove their own operations framed by composing these lemmas. *)
From S2P Require Import Prelude Storage.

(** A disk as the file system keeps it: inode numbers are allocated in order,
    every name is linked to an inode, and no inode has two names. *)
Record disk_ok (d : disk) : Prop := {
  dk_fresh : ∀ i, i ∈ dom (d_inodes d) → (i < d_next d)%N;
  dk_linked : ∀ n i, d_dir d !! n = Some i → i ∈ dom (d_inodes d);
  dk_inj : ∀ n n' i, d_dir d !! n = Some i → d_dir d !! n' = Some i → n = n';
}.

(** A file keeps its contents; what is durable of it only grows to all of it. *)
Record same_file (i : N) (d d' : disk) : Prop := {
  sf_data : file_data d' i = file_data d i;
  sf_synced : file_synced d' i = file_synced d i ∨ file_synced d' i = file_data d' i;
}.

#[global] Instance same_file_preorder i : PreOrder (same_file i).
Proof.
  split; [by intros d; split; auto|]. intros a b c [D1 S1] [D2 S2]. split; [congruence|].
  destruct S2 as [->| ->]; [|auto]. destruct S1 as [->|S1]; [auto|right; congruence].
Qed.

Record framed (P : bytes → Prop) (d d' : disk) : Prop := {
  fr_ok : disk_ok d';
  fr_dir : ∀ n, P n → d_dir d' !! n = d_dir d !! n;
  fr_file : ∀ n i, P n → d_dir d !! n = Some i → same_file i d d';
  fr_sdir : ∀ n, P n → d_sdir d' !! n = d_sdir d !! n ∨ d_sdir d' !! n = d_dir d' !! n;
}.

Lemma framed_refl P d : disk_ok d → framed P d d.
Proof. split; [done..| |by left]. intros. reflexivity. Qed.

Lemma framed_trans P d1 d2 d3 : framed P d1 d2 → framed P d2 d3 → framed P d1 d3.
Proof.
  intros [O1 D1 F1 S1] [O2 D2 F2 S2]. split; [done| | |].
  - intros n Hn. by rewrite D2, D1.
  - intros n i Hn H. etransitivity; [by eapply F1|]. eapply F2; [done|]. by rewrite D1.
  - intros n Hn. destruct (S2 n Hn) as [->| ->]; [|by right].
    destruct (S1 n Hn) as [->| ->]; [by left|right]. by rewrite D2.
Qed.

Lemma framed_weaken (P Q : bytes → Prop) d d' :
  framed P d d' → (∀ n, Q n → P n) → framed Q d d'.
Proof. intros [? D F S] H. split; [done|auto| |auto]. intros n i Hn. apply F. auto. Qed.

Lemma framed_linked P d d' n i : framed P d d' → P n → d_dir d !! n = Some i → d_dir d' !! n = Some i.
Proof. intros [_ D _ _] Hn H. by rewrite D. Qed.

Lemma framed_data P d d' n i :
  framed P d d' → P n → d_dir d !! n = Some i → file_data d' i = file_data d i.
Proof. intros [_ _ F _] Hn H. by destruct (F n i Hn H). Qed.

(** ** The transformers *)

Section transformers.
Context (d : disk) (Hd : disk_ok d).

Lemma set_inode_ok ino i : ino ∈ dom (d_inodes d) → disk_ok (set_inode ino i d).
Proof using Hd.
  intros H. destruct Hd as [F L I]. split; cbn; [|intros n j Hn|done].
  - intros j. rewrite dom_insert_L. intros [->%elem_of_singleton|]%elem_of_union; auto.
  - rewrite dom_insert_L. set_solver.
Qed.

Lemma set_inode_framed P ino i :
  ino ∈ dom (d_inodes d) → (∀ n, P n → d_dir d !! n ≠ Some ino) →
  framed P d (set_inode ino i d).
Proof using Hd.
  intros H HP. split; [by apply set_inode_ok|done| |by left]. cbn. intros n j Hn Hj.
  assert (j ≠ ino) by (intros ->; by eapply HP).
  split; [|left]; unfold file_data, file_synced; cbn; by rewrite lookup_insert_ne.
Qed.

Lemma append_data_framed P bs ino :
  (∀ n, P n → d_dir d !! n ≠ Some ino) → framed P d (append_data bs ino d).
Proof using Hd.
  intros HP. unfold append_data. destruct (d_inodes d !! ino) eqn:E; [|by apply framed_refl].
  apply set_inode_framed; [by eapply elem_of_dom_2|done].
Qed.

Lemma truncate_data_framed P k ino :
  (∀ n, P n → d_dir d !! n ≠ Some ino) → framed P d (truncate_data k ino d).
Proof using Hd.
  intros HP. unfold truncate_data. destruct (d_inodes d !! ino) eqn:E; [|by apply framed_refl].
  apply set_inode_framed; [by eapply elem_of_dom_2|done].
Qed.

(** An fsync frames every name, its own file included. *)
Lemma sync_data_framed P ino : framed P d (sync_data ino d).
Proof using Hd.
  unfold sync_data. destruct (d_inodes d !! ino) eqn:E; [|by apply framed_refl].
  split; [apply set_inode_ok; by eapply elem_of_dom_2|done| |by left]. cbn. intros n j Hn Hj.
  unfold set_inode. destruct (decide (j = ino)) as [->|].
  - split; [|right]; unfold file_data, file_synced; cbn; rewrite lookup_insert_eq; [by rewrite E|done].
  - split; [|left]; unfold file_data, file_synced; cbn; by rewrite lookup_insert_ne.
Qed.

Lemma sync_dir_framed P : framed P d (sync_dir d).
Proof using Hd.
  destruct Hd as [F L I]. split; [split; done|done| |by right]. intros. split; [done|by left].
Qed.

Lemma unlink_framed (P : bytes → Prop) name : ¬ P name → framed P d (unlink name d).
Proof using Hd.
  intros HP. destruct Hd as [F L I]. split; [split; cbn| | |by left].
  - done.
  - intros n i [? Hi]%lookup_delete_Some. by eapply L.
  - intros n n' i [? Hi]%lookup_delete_Some [? Hi']%lookup_delete_Some. by eapply I.
  - intros n Hn. cbn. rewrite lookup_delete_ne; [done|]. by intros ->.
  - intros n i Hn H. split; [done|by left].
Qed.

Lemma link_rename_framed (P : bytes → Prop) from to ino :
  d_dir d !! from = Some ino → ¬ P from → ¬ P to → framed P d (link_rename from to ino d).
Proof using Hd.
  intros E Hf Ht. destruct Hd as [F L I]. split; [split; cbn| | |by left].
  - done.
  - intros n i [[-> ->]|[? [? Hi]%lookup_delete_Some]]%lookup_insert_Some; by eapply L.
  - intros n n' i [[<- <-]|[H1 [H2 Hi]%lookup_delete_Some]]%lookup_insert_Some
      [[<- H3]|[H3 [H4 Hi']%lookup_delete_Some]]%lookup_insert_Some; [done| | |by eapply I].
    + by destruct H4; eapply I.
    + subst. by destruct H2; eapply I.
  - intros n Hn. cbn. rewrite lookup_insert_ne, lookup_delete_ne; [done|by intros ->|by intros ->].
  - intros n i Hn H. split; [done|by left].
Qed.

(** A created file takes a fresh inode, so every linked file is framed. *)
Lemma alloc_framed (P : bytes → Prop) name :
  d_dir d !! name = None → ¬ P name → framed P d (alloc name d).2.
Proof using Hd.
  intros Hn HP. destruct Hd as [F L I].
  assert (Hnew : d_next d ∉ dom (d_inodes d)) by (intros H; apply F in H; lia).
  split; [split; cbn| | |by left].
  - intros i. rewrite dom_insert_L. intros [->%elem_of_singleton|H%F]%elem_of_union; lia.
  - intros n i. rewrite dom_insert_L. intros [[<- <-]|[? ?%L]]%lookup_insert_Some; set_solver.
  - intros n n' i [[<- <-]|[H1 Hi]]%lookup_insert_Some [[<- H3]|[H3 Hi']]%lookup_insert_Some;
      [done| | |by eapply I].
    + by apply L in Hi'.
    + subst. by apply L in Hi.
  - intros n Hn'. cbn. rewrite lookup_insert_ne; [done|]. by intros ->.
  - intros n i _ H.
    assert (i ≠ d_next d) by (intros ->; by apply L in H).
    split; [|left]; unfold file_data, file_synced; cbn; by rewrite lookup_insert_ne.
Qed.

Lemma open_trunc_framed (P : bytes → Prop) name : ¬ P name → framed P d (open_trunc name d).2.
Proof using Hd.
  intros HP. unfold open_trunc. destruct (d_dir d !! name) as [ino|] eqn:E.
  - apply truncate_data_framed. intros n Hn Hi. destruct HP.
    by rewrite (dk_inj _ Hd _ _ _ E Hi).
  - by apply alloc_framed.
Qed.

Lemma open_trunc_spec name ino d' :
  open_trunc name d = (ino, d') →
  d_dir d' = <[name := ino]> (d_dir d) ∧ file_data d' ino = [] ∧ ino ∈ dom (d_inodes d').
Proof using Hd.
  unfold open_trunc. destruct (d_dir d !! name) as [j|] eqn:E.
  - intros [= <- <-]. destruct (proj1 (elem_of_dom _ _) (dk_linked _ Hd _ _ E)) as [x Hx].
    unfold truncate_data. rewrite Hx. cbn. split; [by rewrite insert_id|].
    unfold file_data, set_inode. cbn. rewrite lookup_insert_eq. cbn. split; [done|]. set_solver.
  - intros [= <- <-]. cbn. split; [done|]. unfold file_data. cbn. rewrite lookup_insert_eq.
    split; [done|]. set_solver.
Qed.
End transformers.

Lemma file_data_append bs ino d :
  ino ∈ dom (d_inodes d) → file_data (append_data bs ino d) ino = file_data d ino ++ bs.
Proof.
  intros [i Hi]%elem_of_dom. unfold append_data, file_data, set_inode. rewrite Hi. cbn.
  by rewrite lookup_insert_eq.
Qed.
Lemma file_data_append_ne bs ino d j :
  j ≠ ino → file_data (append_data bs ino d) j = file_data d j.
Proof.
  intros. unfold append_data, file_data, set_inode. destruct (d_inodes d !! ino) eqn:?; [|done]. cbn.
  by rewrite lookup_insert_ne.
Qed.
Lemma file_synced_sync ino d : file_synced (sync_data ino d) ino = file_data (sync_data ino d) ino.
Proof.
  unfold sync_data, file_synced, file_data, set_inode. destruct (d_inodes d !! ino) eqn:E; cbn.
  - by rewrite lookup_insert_eq.
  - by rewrite E.
Qed.
Lemma file_data_sync ino d j : file_data (sync_data ino d) j = file_data d j.
Proof.
  unfold sync_data, file_data, set_inode. destruct (d_inodes d !! ino) eqn:E; [|done]. cbn.
  destruct (decide (j = ino)) as [->|]; [by rewrite lookup_insert_eq, E|by rewrite lookup_insert_ne].
Qed.
Lemma dir_append bs ino d : d_dir (append_data bs ino d) = d_dir d.
Proof. unfold append_data. by case_match. Qed.
Lemma dir_sync ino d : d_dir (sync_data ino d) = d_dir d.
Proof. unfold sync_data. by case_match. Qed.
Lemma inodes_append bs ino d : dom (d_inodes (append_data bs ino d)) = dom (d_inodes d).
Proof.
  unfold append_data. destruct (d_inodes d !! ino) eqn:E; [|done]. cbn.
  rewrite dom_insert_lookup_L; [done|by eauto].
Qed.
Lemma inodes_sync ino d : dom (d_inodes (sync_data ino d)) = dom (d_inodes d).
Proof.
  unfold sync_data. destruct (d_inodes d !! ino) eqn:E; [|done]. cbn.
  rewrite dom_insert_lookup_L; [done|by eauto].
Qed.

(** ** The calls *)

(** A call either did its work or failed with an I/O error. *)
Lemma sys_inv {A} (ok : disk → result A * disk) partial e r e' :
  sys ok partial e = (r, e') →
  (r = (ok (e_disk e)).1 ∧ e_disk e' = (ok (e_disk e)).2) ∨
  (r = Err (ESentinel EIO) ∧ ∃ n, e_disk e' = partial n (e_disk e)).
Proof.
  destruct (sys_cases ok partial e) as [(fs & ->)|(n & fs & ->)]; intros [= <- <-]; [left|right]; eauto.
Qed.

Lemma file_Close_inv e r e' : file_Close e = (r, e') → e_disk e' = e_disk e ∧
  (r = Ok tt ∨ r = Err (ESentinel EIO)).
Proof. by intros [[-> ->]|[-> [n ->]]]%sys_inv; eauto. Qed.
Lemma file_Sync_inv ino e r e' : file_Sync ino e = (r, e') →
  (r = Ok tt ∧ e_disk e' = sync_data ino (e_disk e)) ∨
  (r = Err (ESentinel EIO) ∧ e_disk e' = e_disk e).
Proof. by intros [[-> ->]|[-> [n ->]]]%sys_inv; eauto. Qed.
Lemma file_Write_inv ino bs e r e' : file_Write ino bs e = (r, e') →
  (r = Ok tt ∧ e_disk e' = append_data bs ino (e_disk e)) ∨
  (r = Err (ESentinel EIO) ∧ ∃ n, e_disk e' = append_data (slice_to bs n) ino (e_disk e)).
Proof. by intros [[-> ->]|[-> [n ->]]]%sys_inv; eauto. Qed.
Lemma os_create_trunc_inv name e r e' : os_create_trunc name e = (r, e') →
  (∃ ino, r = Ok ino ∧ open_trunc name (e_disk e) = (ino, e_disk e')) ∨
  (r = Err (ESentinel EIO) ∧ e_disk e' = e_disk e).
Proof.
  intros [[-> ->]|[-> [n ->]]]%sys_inv; [|by eauto]. left. cbn.
  destruct (open_trunc name (e_disk e)) as [ino d']. by exists ino.
Qed.
Lemma os_create_excl_inv name e r e' : os_create_excl name e = (r, e') →
  (∃ ino, r = Ok ino ∧ d_dir (e_disk e) !! name = None ∧ alloc name (e_disk e) = (ino, e_disk e')) ∨
  (∃ s, r = Err (ESentinel s) ∧ e_disk e' = e_disk e).
Proof.
  intros [[-> ->]|[-> [n ->]]]%sys_inv; [|by eauto].
  destruct (d_dir (e_disk e) !! name) eqn:E; [right; by eauto|left]. cbn. by eexists.
Qed.
Lemma os_open_inv name e r e' : os_open name e = (r, e') →
  e_disk e' = e_disk e ∧
  ((∃ ino, r = Ok ino ∧ d_dir (e_disk e) !! name = Some ino) ∨
   (r = Err (ESentinel os_ErrNotExist) ∧ d_dir (e_disk e) !! name = None) ∨
   r = Err (ESentinel EIO)).
Proof.
  intros [[-> ->]|[-> [n ->]]]%sys_inv; [|by eauto]. cbn. split; [done|].
  destruct (d_dir (e_disk e) !! name) eqn:E; eauto.
Qed.
Lemma os_Rename_inv from to e r e' : os_Rename from to e = (r, e') →
  (∃ ino, r = Ok tt ∧ d_dir (e_disk e) !! from = Some ino
     ∧ e_disk e' = link_rename from to ino (e_disk e)) ∨
  (∃ s, r = Err (ESentinel s) ∧ s ∈ [os_ErrNotExist; EIO] ∧ e_disk e' = e_disk e).
Proof.
  intros [[-> ->]|[-> [n ->]]]%sys_inv.
  - destruct (d_dir (e_disk e) !! from) eqn:E; [left; by eauto|right]. eexists. split; [done|].
    split; [set_solver|done].
  - right. eexists. split; [done|]. split; [set_solver|done].
Qed.
Lemma os_Remove_inv name e r e' : os_Remove name e = (r, e') →
  e_disk e' = unlink name (e_disk e) ∨ e_disk e' = e_disk e.
Proof. intros [[-> ->]|[-> [n ->]]]%sys_inv; auto. Qed.
Lemma os_ReadDir_inv e r e' : os_ReadDir e = (r, e') →
  e_disk e' = e_disk e ∧
  (r = Ok (merge_sort bytes_le (elements (dom (d_dir (e_disk e))))) ∨ r = Err (ESentinel EIO)).
Proof. by intros [[-> ->]|[-> [n ->]]]%sys_inv; eauto. Qed.
Lemma file_ReadAll_inv ino e r e' : file_ReadAll ino e = (r, e') →
  e_disk e' = e_disk e ∧ (r = Ok (file_data (e_disk e) ino) ∨ r = Err (ESentinel EIO)).
Proof. by intros [[-> ->]|[-> [n ->]]]%sys_inv; eauto. Qed.
Lemma dir_Open_inv e r e' : dir_Open e = (r, e') → e_disk e' = e_disk e ∧
  (r = Ok tt ∨ r = Err (ESentinel EIO)).
Proof. by intros [[-> ->]|[-> [n ->]]]%sys_inv; eauto. Qed.
Lemma dir_Sync_inv e r e' : dir_Sync e = (r, e') →
  (r = Ok tt ∧ e_disk e' = sync_dir (e_disk e)) ∨
  (r = Err (ESentinel EIO) ∧ e_disk e' = e_disk e).
Proof. by intros [[-> ->]|[-> [n ->]]]%sys_inv; eauto. Qed.

Lemma ignore_Close_disk e : e_disk (ignore file_Close e) = e_disk e.
Proof. unfold ignore. destruct (file_Close e) eqn:E. cbn. by apply file_Close_inv in E as [-> _]. Qed.

Lemma ignore_Remove_framed (P : bytes → Prop) name e :
  disk_ok (e_disk e) → ¬ P name → framed P (e_disk e) (e_disk (ignore (os_Remove name) e)).
Proof.
  intros Hd HP. unfold ignore. destruct (os_Remove name e) eqn:E. cbn.
  apply os_Remove_inv in E as [->| ->]; [by apply unlink_framed|by apply framed_refl].
Qed.

Lemma syncDir_spec e r e' :
  syncDir e = (r, e') →
  (e_disk e' = e_disk e ∨ e_disk e' = sync_dir (e_disk e)) ∧
  (is_ok r → e_disk e' = sync_dir (e_disk e)) ∧
  (∀ err, r = Err err → ∃ f, err = EWrap f [ESentinel EIO]).
Proof.
  unfold syncDir, ebind, on_error.
  destruct (dir_Open e) as [r1 e1] eqn:E1. apply dir_Open_inv in E1 as [D1 [->| ->]].
  2: { intros [= <- <-]. rewrite D1. split; [auto|]. split; [done|]. intros ? [= <-]. eauto. }
  destruct (dir_Sync e1) as [r2 e2] eqn:E2. apply dir_Sync_inv in E2 as [[-> D2]|[-> D2]].
  2: { intros [= <- <-]. rewrite ignore_Close_disk, D2, D1. split; [auto|]. split; [done|].
       intros ? [= <-]. eauto. }
  destruct (file_Close e2) as [r3 e3] eqn:E3. apply file_Close_inv in E3 as [D3 [->| ->]];
    intros [= <- <-]; cbn in *; rewrite D3, D2, D1; (split; [auto|]); (split; [done|]);
    intros ? [= <-]; eauto.
Qed.

Lemma syncDir_framed P e r e' :
  disk_ok (e_disk e) → syncDir e = (r, e') → framed P (e_disk e) (e_disk e').
Proof.
  intros Hd [[->| ->] _]%syncDir_spec; [by apply framed_refl|by apply sync_dir_framed].
Qed.

(** *** The calls when nothing fails *)

Definition quiet (e : env) : Prop := e_faults e = [].

Lemma sys_quiet {A} (ok : disk → result A * disk) partial e : quiet e → quiet (sys ok partial e).2.
Proof. intros Hq. rewrite sys_no_faults by done. done. Qed.

Section quiet.
Context (e : env) (Hq : quiet e).
Let at_disk (d : disk) : env := mkEnv d [] (e_clock e).

Lemma os_open_quiet name :
  os_open name e = (match d_dir (e_disk e) !! name with
                    | Some ino => Ok ino
                    | None => Err (ESentinel os_ErrNotExist)
                    end, at_disk (e_disk e)).
Proof using Hq. apply sys_no_faults, Hq. Qed.
Lemma file_ReadAll_quiet ino : file_ReadAll ino e = (Ok (file_data (e_disk e) ino), at_disk (e_disk e)).
Proof using Hq. apply sys_no_faults, Hq. Qed.
Lemma file_Close_quiet : file_Close e = (Ok tt, at_disk (e_disk e)).
Proof using Hq. apply sys_no_faults, Hq. Qed.
Lemma file_Write_quiet ino bs : file_Write ino bs e = (Ok tt, at_disk (append_data bs ino (e_disk e))).
Proof using Hq. apply sys_no_faults, Hq. Qed.
Lemma file_Sync_quiet ino : file_Sync ino e = (Ok tt, at_disk (sync_data ino (e_disk e))).
Proof using Hq. apply sys_no_faults, Hq. Qed.
Lemma file_Size_quiet ino : file_Size ino e = (Ok (zlen (file_data (e_disk e) ino)), at_disk (e_disk e)).
Proof using Hq. apply sys_no_faults, Hq. Qed.
Lemma os_create_trunc_quiet name :
  os_create_trunc name e = (Ok (open_trunc name (e_disk e)).1, at_disk (open_trunc name (e_disk e)).2).
Proof using Hq. apply sys_no_faults, Hq. Qed.
Lemma os_create_excl_quiet name :
  d_dir (e_disk e) !! name = None →
  os_create_excl name e = (Ok (alloc name (e_disk e)).1, at_disk (alloc name (e_disk e)).2).
Proof using Hq. intros H. unfold os_create_excl. rewrite sys_no_faults by apply Hq. by rewrite H. Qed.
Lemma os_ReadDir_quiet :
  os_ReadDir e = (Ok (merge_sort bytes_le (elements (dom (d_dir (e_disk e))))), at_disk (e_disk e)).
Proof using Hq. apply sys_no_faults, Hq. Qed.
Lemma file_ReadAt_quiet ino n off :
  file_ReadAt ino n off e
  = (if zlen (file_data (e_disk e) ino) <? off + n then Err (ESentinel io_EOF)
     else Ok (slice (file_data (e_disk e) ino) off (off + n)), at_disk (e_disk e)).
Proof using Hq. apply sys_no_faults, Hq. Qed.
Lemma syncDir_quiet : syncDir e = (Ok tt, at_disk (sync_dir (e_disk e))).
Proof using Hq.
  unfold syncDir, ebind, on_error, dir_Open. rewrite sys_no_faults by apply Hq. cbn [fst snd e_disk].
  unfold dir_Sync. rewrite sys_no_faults by done. cbn [fst snd e_disk].
  unfold file_Close. by rewrite sys_no_faults.
Qed.
End quiet.
