(* ===== verification/Names.v ===== *)
(** * File names and the segment listing

    Decimal numbers, the ["%010d.seg"] names of src/internal/engine/segment.go
    and hint.go, how [listSegments] and [sweepOrphans] recognise them again
    ([filepath.Ext] and [fmt.Sscanf]), and [listSegments] itself. *)
From S2P Require Import Prelude Storage Hint Frame.

(** ** Decimal digits *)

Definition digit (z : Z) : byte := z2b (48 + z mod 10).
Definition is_digit (b : byte) : bool := (48 <=? b2z b) && (b2z b <=? 57).
Definition digits_value (ds : bytes) : Z := foldl (λ n b, 10 * n + (b2z b - 48)) 0 ds.

(** [strconv.FormatUint(z, 10)] for a number of at most [n] digits. *)
Fixpoint itoa (n : nat) (z : Z) : bytes :=
  match n with
  | O => []
  | S n' => if z <? 10 then [digit z] else itoa n' (z / 10) ++ [digit z]
  end.

(** ** Recognising a name *)

Definition hintFileExt : bytes := String.list_byte_of_string ".hint".
Definition hintFilename (id : Z) : bytes := decimal 10 id ++ hintFileExt.

(** [filepath.Ext]: the suffix from the last dot on. *)
Fixpoint filepath_Ext (name : bytes) : bytes :=
  match name with
  | [] => []
  | b :: rest =>
    match filepath_Ext rest with
    | [] => if decide (b = x2e) then name else []
    | ext => ext
    end
  end.

Fixpoint skip_blanks (s : bytes) : bytes :=
  match s with
  | b :: s' => if (b2z b =? 32) || (b2z b =? 9) || ((11 <=? b2z b) && (b2z b <=? 13))
               then skip_blanks s' else s
  | [] => []
  end.

(** At most [width] digits and what follows them. *)
Fixpoint scan_digits (width : nat) (s : bytes) : bytes * bytes :=
  match width, s with
  | S w, b :: s' => if is_digit b then let (ds, r) := scan_digits w s' in (b :: ds, r) else ([], s)
  | _, _ => ([], s)
  end.

Definition has_prefix (p s : bytes) : bool := bool_decide (take (length p) s = p).

(** [fmt.Sscanf(name, "%010d"+ext, &id)] for a uint32 [id]: leading blanks are
    skipped, one to ten digits are read, the value must fit, the extension must
    follow, and what comes after it is not looked at. *)
Definition Sscanf_id (ext name : bytes) : option Z :=
  let (ds, rest) := scan_digits 10 (skip_blanks name) in
  if bool_decide (ds = []) then None
  else if 2 ^ 32 <=? digits_value ds then None
  else if has_prefix ext rest then Some (digits_value ds)
  else None.

(** ** Sorting segment ids *)

(** One round of the insertion sort of [listSegments] and [recover]: the new
    element moves left past every greater one. *)
Fixpoint insert_id (x : Z) (l : list Z) : list Z :=
  match l with
  | [] => [x]
  | y :: l' => if x <? y then x :: l else y :: insert_id x l'
  end.
Definition sort_ids (l : list Z) : list Z := foldl (λ acc x, insert_id x acc) [] l.

Definition segment_id_of (name : bytes) : option Z :=
  if decide (filepath_Ext name = segmentFileExt) then Sscanf_id segmentFileExt name else None.

Definition listSegments : env → result (list Z) * env :=
  do! entries := os_ReadDir in
  eret (sort_ids (omap segment_id_of entries)).

(** ** Lemmas *)

Definition is_u32 (z : Z) : Prop := 0 <= z < 2 ^ 32.
#[global] Instance is_u32_dec z : Decision (is_u32 z).
Proof. unfold is_u32. apply _. Defined.

Lemma b2z_digit z : b2z (digit z) = 48 + z mod 10.
Proof.
  unfold digit. rewrite b2z_z2b. pose proof (Z.mod_pos_bound z 10). rewrite Z.mod_small; lia.
Qed.
Lemma is_digit_digit z : is_digit (digit z) = true.
Proof.
  unfold is_digit. rewrite b2z_digit. pose proof (Z.mod_pos_bound z 10). lia.
Qed.

Lemma digits_value_snoc ds b : digits_value (ds ++ [b]) = 10 * digits_value ds + (b2z b - 48).
Proof. unfold digits_value. by rewrite foldl_app. Qed.

Lemma decimal_value n z : 0 <= z < 10 ^ Z.of_nat n → digits_value (decimal n z) = z.
Proof.
  revert z. induction n as [|n IH]; intros z Hz; [change (10 ^ Z.of_nat 0) with 1 in Hz; cbn; lia|].
  rewrite Nat2Z.inj_succ, Z.pow_succ_r in Hz by lia.
  cbn [decimal]. change (z2b (48 + z mod 10)) with (digit z).
  rewrite digits_value_snoc, IH, b2z_digit.
  - pose proof (Z.div_mod z 10). lia.
  - split; [apply Z.div_pos; lia|apply Z.div_lt_upper_bound; lia].
Qed.
Lemma decimal_digits n z : Forall (λ b, is_digit b = true) (decimal n z).
Proof.
  revert z. induction n as [|n IH]; intros z; [constructor|]. cbn.
  apply Forall_app. split; [done|]. constructor; [apply is_digit_digit|constructor].
Qed.
Lemma length_decimal n z : length (decimal n z) = n.
Proof. revert z. induction n as [|n IH]; intros z; [done|]. cbn. rewrite length_app, IH. cbn. lia. Qed.

Lemma itoa_value n z : 0 <= z < 10 ^ Z.of_nat n → (0 < n)%nat → digits_value (itoa n z) = z.
Proof.
  revert z. induction n as [|n IH]; intros z Hz Hn; [lia|].
  rewrite Nat2Z.inj_succ, Z.pow_succ_r in Hz by lia. cbn [itoa].
  destruct (Z.ltb_spec z 10).
  { unfold digits_value. cbn. rewrite b2z_digit, Z.mod_small by lia. lia. }
  rewrite digits_value_snoc, IH, b2z_digit.
  - pose proof (Z.div_mod z 10). lia.
  - split; [apply Z.div_pos; lia|apply Z.div_lt_upper_bound; lia].
  - destruct n; [change (10 ^ Z.of_nat 0) with 1 in Hz; lia|lia].
Qed.
Lemma itoa_digits n z : Forall (λ b, is_digit b = true) (itoa n z).
Proof.
  revert z. induction n as [|n IH]; intros z; [constructor|]. cbn. case_match.
  - constructor; [apply is_digit_digit|constructor].
  - apply Forall_app. split; [done|]. constructor; [apply is_digit_digit|constructor].
Qed.

Lemma scan_digits_app w ds r :
  Forall (λ b, is_digit b = true) ds → length ds = w → scan_digits w (ds ++ r) = (ds, r).
Proof.
  intros H. revert w. induction H as [|b ds Hb _ IH]; intros w <-; [by destruct r|].
  cbn. rewrite Hb. by rewrite IH.
Qed.
Lemma skip_blanks_digit b s : is_digit b = true → skip_blanks (b :: s) = b :: s.
Proof.
  unfold is_digit. cbn. intros [H1 H2]%andb_prop.
  destruct (_ || _) eqn:E; [|done]. lia.
Qed.
Lemma filepath_Ext_app ds ext :
  Forall (λ b, is_digit b = true) ds → filepath_Ext ext = ext → ext ≠ [] →
  filepath_Ext (ds ++ ext) = ext.
Proof.
  intros H He Hn. induction H as [|b ds Hb _ IH]; [done|]. cbn. rewrite IH. by destruct ext.
Qed.

(** The names the engine gives are read back as the id they were given for. *)
Lemma Sscanf_id_decimal ext z : is_u32 z → Sscanf_id ext (decimal 10 z ++ ext) = Some z.
Proof.
  intros Hz. unfold Sscanf_id.
  assert (skip_blanks (decimal 10 z ++ ext) = decimal 10 z ++ ext) as ->.
  { pose proof (decimal_digits 10 z) as Hd. pose proof (length_decimal 10 z) as Hl.
    destruct (decimal 10 z) as [|b ds]; [done|]. inversion Hd; subst.
    cbn [app]. by apply skip_blanks_digit. }
  rewrite scan_digits_app by (apply decimal_digits || apply length_decimal).
  unfold is_u32 in Hz. rewrite decimal_value by (change (10 ^ Z.of_nat 10) with 10000000000; lia).
  rewrite bool_decide_false by (intros E; by apply (f_equal length) in E; rewrite length_decimal in E).
  destruct (Z.leb_spec (2 ^ 32) z); [lia|].
  unfold has_prefix. by rewrite bool_decide_true by apply firstn_all.
Qed.

Lemma segment_id_of_filename z : is_u32 z → segment_id_of (segmentFilename z) = Some z.
Proof.
  intros Hz. unfold segment_id_of, segmentFilename.
  rewrite filepath_Ext_app; [|apply decimal_digits|by vm_compute|done].
  rewrite decide_True by done. by apply Sscanf_id_decimal.
Qed.
Lemma segmentFilename_inj z z' :
  is_u32 z → is_u32 z' → segmentFilename z = segmentFilename z' → z = z'.
Proof.
  intros H H' E. pose proof (segment_id_of_filename z H) as H1.
  rewrite E, segment_id_of_filename in H1 by done. congruence.
Qed.
Lemma hintFilename_inj z z' : is_u32 z → is_u32 z' → hintFilename z = hintFilename z' → z = z'.
Proof.
  intros H H' E%(f_equal (Sscanf_id hintFileExt)). unfold hintFilename in E.
  rewrite !Sscanf_id_decimal in E by done. congruence.
Qed.
Lemma Ext_segmentFilename z : filepath_Ext (segmentFilename z) = segmentFileExt.
Proof. apply filepath_Ext_app; [apply decimal_digits|by vm_compute|done]. Qed.
Lemma Ext_hintFilename z : filepath_Ext (hintFilename z) = hintFileExt.
Proof. apply filepath_Ext_app; [apply decimal_digits|by vm_compute|done]. Qed.
Lemma segment_not_hint z z' : segmentFilename z ≠ hintFilename z'.
Proof.
  intros E. apply (f_equal filepath_Ext) in E. rewrite Ext_segmentFilename, Ext_hintFilename in E.
  discriminate.
Qed.

Lemma insert_id_perm x l : insert_id x l ≡ₚ x :: l.
Proof.
  induction l as [|y l IH]; cbn; [done|]. case_match; [done|]. rewrite IH. apply perm_swap.
Qed.
Lemma sort_ids_perm l : sort_ids l ≡ₚ l.
Proof.
  unfold sort_ids. rewrite <- (app_nil_r l) at 2. generalize (@nil Z).
  induction l as [|x l IH]; intros acc; cbn; [done|]. rewrite IH, insert_id_perm.
  by rewrite Permutation_middle.
Qed.
Lemma insert_id_sorted x l : StronglySorted Z.le l → StronglySorted Z.le (insert_id x l).
Proof.
  induction 1 as [|y l Hl IH Hy]; cbn; [repeat constructor|].
  destruct (Z.ltb_spec x y).
  - constructor; [by constructor|]. constructor; [lia|]. eapply Forall_impl; [done|]. cbn. lia.
  - constructor; [done|]. rewrite insert_id_perm. by constructor.
Qed.
Lemma sort_ids_sorted l : StronglySorted Z.le (sort_ids l).
Proof.
  unfold sort_ids. assert (StronglySorted Z.le []) as H by constructor.
  revert H. generalize (@nil Z). induction l as [|x l IH]; intros acc H; cbn; [done|].
  by apply IH, insert_id_sorted.
Qed.
Lemma elem_of_sort_ids x l : x ∈ sort_ids l ↔ x ∈ l.
Proof. by rewrite sort_ids_perm. Qed.
(** The sort does not see the order of its input (a Go map's iteration order). *)
Lemma sort_ids_unique l l' : l ≡ₚ l' → sort_ids l = sort_ids l'.
Proof.
  intros H. apply (StronglySorted_unique Z.le); [apply sort_ids_sorted..|].
  by rewrite !sort_ids_perm.
Qed.
Lemma sort_ids_id l : StronglySorted Z.le l → sort_ids l = l.
Proof.
  intros H. apply (StronglySorted_unique Z.le); [apply sort_ids_sorted|done|].
  by rewrite sort_ids_perm.
Qed.

(** [listSegments] finds exactly the files with a segment's name. *)
Lemma listSegments_inv e r e' :
  listSegments e = (r, e') →
  e_disk e' = e_disk e ∧
  match r with
  | Ok ids => StronglySorted Z.le ids ∧
      (∀ id, id ∈ ids ↔ ∃ n, is_Some (d_dir (e_disk e) !! n) ∧ segment_id_of n = Some id)
  | Err err => err = ESentinel EIO
  end.
Proof.
  unfold listSegments, ebind. destruct (os_ReadDir e) as [r1 e1] eqn:E.
  apply os_ReadDir_inv in E as [D [->| ->]]; [|by intros [= <- <-]].
  intros [= <- <-]. split; [done|]. split; [apply sort_ids_sorted|].
  intros id. rewrite elem_of_sort_ids, list_elem_of_omap.
  split; intros (n & H & Hid); exists n; (split; [|done]); revert H;
    rewrite merge_sort_Permutation, elem_of_elements, elem_of_dom; done.
Qed.

#[global] Arguments segmentFilename : simpl never.
#[global] Arguments hintFilename : simpl never.
#[global] Arguments decimal : simpl never.
