(* ===== verification/Json.v ===== *)
(** * encoding/json, as far as the manifest and batch files need it

    The JSON grammar of RFC 8259 as [encoding/json] accepts it (with its nesting
    limit), as a parser from bytes to values, with the contents of strings as
    UTF-8: escapes decoded, surrogate pairs joined, and what is not valid UTF-8
    replaced by U+FFFD. *)
From S2P Require Import Prelude Names.

#[warnings="-register-all"]
Inductive json :=
| JNull
| JBool (b : bool)
| JNum (lit : bytes)
| JStr (s : bytes)
| JArr (l : list json)
| JObj (l : list (bytes * json)).

Definition json_maxDepth : nat := Z.to_nat 10000.

Fixpoint skip_ws (s : bytes) : bytes :=
  match s with
  | b :: s' => if (b2z b =? 32) || (b2z b =? 9) || (b2z b =? 10) || (b2z b =? 13)
               then skip_ws s' else s
  | [] => []
  end.

(** *** Strings: what follows the opening quote *)

Definition hex_value (b : byte) : option Z :=
  let z := b2z b in
  if (48 <=? z) && (z <=? 57) then Some (z - 48)
  else if (97 <=? z) && (z <=? 102) then Some (z - 87)
  else if (65 <=? z) && (z <=? 70) then Some (z - 55)
  else None.

Definition hex4 (a b c d : byte) : option Z :=
  x ← hex_value a; y ← hex_value b; z ← hex_value c; w ← hex_value d;
  Some (((x * 16 + y) * 16 + z) * 16 + w).

Definition json_escape (b : byte) : option byte :=
  let z := b2z b in
  if (z =? 34) || (z =? 92) || (z =? 47) then Some b
  else if z =? 98 then Some x08
  else if z =? 102 then Some x0c
  else if z =? 110 then Some x0a
  else if z =? 114 then Some x0d
  else if z =? 116 then Some x09
  else None.

(** [utf8.EncodeRune] of a code point that is not a surrogate. *)
Definition utf8_encode (u : Z) : bytes :=
  if u <? 128 then [z2b u]
  else if u <? 2048 then [z2b (192 + u / 64); z2b (128 + u mod 64)]
  else if u <? 65536 then [z2b (224 + u / 4096); z2b (128 + u / 64 mod 64); z2b (128 + u mod 64)]
  else [z2b (240 + u / 262144); z2b (128 + u / 4096 mod 64); z2b (128 + u / 64 mod 64); z2b (128 + u mod 64)].

Definition replacement : bytes := [xef; xbf; xbd].

Definition byte_in (lo hi : Z) (b : byte) : bool := (lo <=? b2z b) && (b2z b <=? hi).
Definition continuation : byte → bool := byte_in 128 191.

(** The length of the valid UTF-8 sequence that starts with a byte from 128 up,
    0 if there is none ([utf8.DecodeRune]). *)
Definition utf8_size (s : bytes) : nat :=
  match s with
  | c :: c1 :: s2 =>
    if byte_in 194 223 c then (if continuation c1 then 2%nat else 0%nat)
    else match s2 with
         | c2 :: s3 =>
           if byte_in 224 239 c then
             (if byte_in (if b2z c =? 224 then 160 else 128) (if b2z c =? 237 then 159 else 191) c1
                 && continuation c2 then 3%nat else 0%nat)
           else match s3 with
                | c3 :: _ =>
                  (if byte_in 240 244 c
                      && byte_in (if b2z c =? 240 then 144 else 128) (if b2z c =? 244 then 143 else 191) c1
                      && continuation c2 && continuation c3 then 4%nat else 0%nat)
                | [] => 0%nat
                end
         | [] => 0%nat
         end
  | _ => 0%nat
  end.

Definition emit (bs : bytes) (r : option (bytes * bytes)) : option (bytes * bytes) :=
  '(t, rest) ← r; Some (bs ++ t, rest).

Definition is_surrogate (u : Z) : bool := (55296 <=? u) && (u <? 57344).

Fixpoint json_string (s : bytes) : option (bytes * bytes) :=
  match s with
  | [] => None
  | c :: s1 =>
    if b2z c =? 34 then Some ([], s1)
    else if b2z c <? 32 then None
    else if b2z c =? 92 then
      match s1 with
      | [] => None
      | c1 :: s2 =>
        if b2z c1 =? 117 then
          match s2 with
          | h1 :: h2 :: h3 :: h4 :: s3 =>
              u ← hex4 h1 h2 h3 h4;
              if is_surrogate u then
                match s3 with
                | b1 :: b2 :: g1 :: g2 :: g3 :: g4 :: s4 =>
                    if (b2z b1 =? 92) && (b2z b2 =? 117) then
                      match hex4 g1 g2 g3 g4 with
                      | Some u1 =>
                          if (u <? 56320) && (56320 <=? u1) && (u1 <? 57344)
                          then emit (utf8_encode (65536 + (u - 55296) * 1024 + (u1 - 56320))) (json_string s4)
                          else emit replacement (json_string s3)
                      | None => emit replacement (json_string s3)
                      end
                    else emit replacement (json_string s3)
                | _ => emit replacement (json_string s3)
                end
              else emit (utf8_encode u) (json_string s3)
          | _ => None
          end
        else b ← json_escape c1; emit [b] (json_string s2)
      end
    else if b2z c <? 128 then emit [c] (json_string s1)
    else match utf8_size s, s1 with
         | 2%nat, c1 :: s2 => emit [c; c1] (json_string s2)
         | 3%nat, c1 :: c2 :: s3 => emit [c; c1; c2] (json_string s3)
         | 4%nat, c1 :: c2 :: c3 :: s4 => emit [c; c1; c2; c3] (json_string s4)
         | _, _ => emit replacement (json_string s1)
         end
  end.

(** *** Numbers *)

Fixpoint span_digits (s : bytes) : bytes * bytes :=
  match s with
  | b :: s' => if is_digit b then let (ds, r) := span_digits s' in (b :: ds, r) else ([], s)
  | [] => ([], [])
  end.

(** A non-empty run of digits. *)
Definition digits1 (s : bytes) : option (bytes * bytes) :=
  match span_digits s with
  | ([], _) => None
  | p => Some p
  end.

(** "0", or a run of digits that does not start with 0. *)
Definition json_int (s : bytes) : option (bytes * bytes) :=
  match s with
  | b :: s' => if b2z b =? 48 then Some ([b], s') else digits1 s
  | [] => None
  end.

Definition json_frac (s : bytes) : option (bytes * bytes) :=
  match s with
  | b :: s' => if b2z b =? 46 then '(ds, r) ← digits1 s'; Some (b :: ds, r) else Some ([], s)
  | [] => Some ([], [])
  end.

Definition json_sign (s : bytes) : bytes * bytes :=
  match s with
  | b :: s' => if (b2z b =? 43) || (b2z b =? 45) then ([b], s') else ([], s)
  | [] => ([], [])
  end.

Definition json_exp (s : bytes) : option (bytes * bytes) :=
  match s with
  | b :: s' =>
    if (b2z b =? 101) || (b2z b =? 69) then
      let (sg, s1) := json_sign s' in '(ds, r) ← digits1 s1; Some (b :: sg ++ ds, r)
    else Some ([], s)
  | [] => Some ([], [])
  end.

Definition json_number (s : bytes) : option (bytes * bytes) :=
  let (m, s0) := match s with
                 | b :: s' => if b2z b =? 45 then ([b], s') else ([], s)
                 | [] => ([], [])
                 end in
  '(i, s1) ← json_int s0;
  '(f, s2) ← json_frac s1;
  '(x, s3) ← json_exp s2;
  Some (m ++ i ++ f ++ x, s3).

(** *** Values *)

Section containers.
Context (value : bytes → option (json * bytes)).

(** The elements of a non-empty array, after its bracket. *)
Fixpoint json_elements (fuel : nat) (s : bytes) : option (list json * bytes) :=
  match fuel with
  | O => None
  | S n =>
    '(v, r) ← value s;
    match skip_ws r with
    | c :: r' =>
      if b2z c =? 44 then '(vs, r2) ← json_elements n r'; Some (v :: vs, r2)
      else if b2z c =? 93 then Some ([v], r') else None
    | [] => None
    end
  end.

(** The members of a non-empty object, after its brace. *)
Fixpoint json_members (fuel : nat) (s : bytes) : option (list (bytes * json) * bytes) :=
  match fuel with
  | O => None
  | S n =>
    match skip_ws s with
    | q :: s1 =>
      if b2z q =? 34 then
        '(k, r) ← json_string s1;
        match skip_ws r with
        | c :: r' =>
          if b2z c =? 58 then
            '(v, r2) ← value r';
            match skip_ws r2 with
            | c2 :: r3 =>
              if b2z c2 =? 44 then '(ms, r4) ← json_members n r3; Some ((k, v) :: ms, r4)
              else if b2z c2 =? 125 then Some ([(k, v)], r3) else None
            | [] => None
            end
          else None
        | [] => None
        end
      else None
    | [] => None
    end
  end.
End containers.

Definition json_literal (s : bytes) : option (json * bytes) :=
  if has_prefix (String.list_byte_of_string "null") s then Some (JNull, drop 4 s)
  else if has_prefix (String.list_byte_of_string "true") s then Some (JBool true, drop 4 s)
  else if has_prefix (String.list_byte_of_string "false") s then Some (JBool false, drop 5 s)
  else '(n, r) ← json_number s; Some (JNum n, r).

(** [depth] is the nesting still allowed; a list of [n] bytes has at most [n]
    elements. *)
Fixpoint json_value (depth : nat) (s : bytes) : option (json * bytes) :=
  match skip_ws s with
  | [] => None
  | c :: s1 =>
    if b2z c =? 34 then '(t, r) ← json_string s1; Some (JStr t, r)
    else if b2z c =? 91 then
      match depth with
      | O => None
      | S d =>
        match skip_ws s1 with
        | c1 :: r => if b2z c1 =? 93 then Some (JArr [], r)
                     else '(vs, r) ← json_elements (json_value d) (S (length s1)) s1; Some (JArr vs, r)
        | [] => None
        end
      end
    else if b2z c =? 123 then
      match depth with
      | O => None
      | S d =>
        match skip_ws s1 with
        | c1 :: r => if b2z c1 =? 125 then Some (JObj [], r)
                     else '(ms, r) ← json_members (json_value d) (S (length s1)) s1; Some (JObj ms, r)
        | [] => None
        end
      end
    else json_literal (c :: s1)
  end.

Definition json_parse (s : bytes) : option json :=
  '(v, r) ← json_value json_maxDepth s;
  match skip_ws r with [] => Some v | _ => None end.

(** [strconv.ParseInt]/[ParseUint] of a number literal, for the integer fields
    of a Go struct: only an optional sign and digits. *)
Definition all_digits (s : bytes) : bool := forallb is_digit s && negb (bool_decide (s = [])).
Definition json_uint (bits : Z) (lit : bytes) : option Z :=
  if all_digits lit then
    let v := digits_value lit in if v <? 2 ^ bits then Some v else None
  else None.
Definition json_int64 (lit : bytes) : option Z :=
  match lit with
  | b :: ds =>
    if b2z b =? 45 then
      if all_digits ds then
        let v := - digits_value ds in if - 2 ^ 63 <=? v then Some v else None
      else None
    else if all_digits lit then
      let v := digits_value lit in if v <? 2 ^ 63 then Some v else None
    else None
  | [] => None
  end.

(** Field names match an ASCII name up to simple case folding: that of ASCII
    letters, and of the two other letters that fold to one, the long s (U+017F)
    and the Kelvin sign (U+212A). *)
Definition lower (b : byte) : Z := if (65 <=? b2z b) && (b2z b <=? 90) then b2z b + 32 else b2z b.
Fixpoint fold_name (s : bytes) : list Z :=
  match s with
  | xc5 :: xbf :: s' => 115 :: fold_name s'
  | xe2 :: x84 :: xaa :: s' => 107 :: fold_name s'
  | b :: s' => lower b :: fold_name s'
  | [] => []
  end.
Definition equal_fold (a b : bytes) : bool := bool_decide (fold_name a = fold_name b).

(** ** Lemmas: parsing printed text *)

(** Bytes that stand for themselves in a string. *)
Definition plain (b : byte) : bool := negb ((b2z b <? 32) || (b2z b =? 34) || (b2z b =? 92)) && (b2z b <? 128).

Lemma json_string_plain s r :
  Forall (λ b, plain b = true) s → json_string (s ++ x22 :: r) = Some (s, r).
Proof.
  induction 1 as [|b s Hb _ IH]; [done|]. unfold plain in Hb. apply andb_prop in Hb as [Hb H128].
  cbn. rewrite IH. destruct (b2z b <? 32), (b2z b =? 34), (b2z b =? 92); try done. by rewrite H128.
Qed.

(** What may follow a number without continuing it. *)
Definition stops_number (r : bytes) : Prop :=
  match r with
  | [] => True
  | b :: _ => is_digit b = false ∧ b2z b ≠ 46 ∧ b2z b ≠ 101 ∧ b2z b ≠ 69
  end.

Lemma span_digits_app ds r :
  Forall (λ b, is_digit b = true) ds → stops_number r → span_digits (ds ++ r) = (ds, r).
Proof.
  intros H Hr. induction H as [|b ds Hb _ IH]; cbn.
  - destruct r as [|b r]; [done|]. cbn. by destruct Hr as [-> _].
  - by rewrite Hb, IH.
Qed.

Lemma itoa_cons n z : 0 <= z → (0 < n)%nat →
  ∃ b ds, itoa n z = b :: ds ∧ is_digit b = true ∧ (b2z b = 48 → z < 10 ^ Z.of_nat n → ds = []).
Proof.
  revert z. induction n as [|n IH]; intros z Hz Hn; [lia|]. cbn [itoa].
  destruct (Z.ltb_spec z 10) as [|H10].
  { exists (digit z), []. split; [done|]. split; [apply is_digit_digit|done]. }
  destruct n as [|n].
  { exists (digit z), []. split; [done|]. split; [apply is_digit_digit|done]. }
  destruct (IH (z / 10)) as (b & ds & E & Hb & H0); [apply Z.div_pos; lia|lia|].
  rewrite E. exists b, (ds ++ [digit z]). split; [done|]. split; [done|]. intros H48 Hlt.
  exfalso. rewrite Nat2Z.inj_succ, Z.pow_succ_r in Hlt by lia.
  assert (Hlt' : z / 10 < 10 ^ Z.of_nat (S n)) by (apply Z.div_lt_upper_bound; lia).
  assert (ds = []) as -> by auto.
  assert (Hv : digits_value (itoa (S n) (z / 10)) = z / 10).
  { apply itoa_value; [|lia]. split; [apply Z.div_pos; lia|done]. }
  rewrite E in Hv. unfold digits_value in Hv. cbn in Hv. rewrite H48 in Hv.
  assert (1 <= z / 10) by (apply Z.div_le_lower_bound; lia). lia.
Qed.

Lemma json_number_itoa n z r :
  0 <= z < 10 ^ Z.of_nat n → (0 < n)%nat → stops_number r →
  json_number (itoa n z ++ r) = Some (itoa n z, r).
Proof.
  intros Hz Hn Hr. destruct (itoa_cons n z) as (b & ds & E & Hb & H0); [lia..|].
  assert (Hd : Forall (λ b, is_digit b = true) (b :: ds)) by (rewrite <- E; apply itoa_digits).
  assert (Hf : json_frac r = Some ([], r)).
  { destruct r as [|c r]; [done|]. cbn. destruct Hr as (_ & H & _). by destruct (Z.eqb_spec (b2z c) 46). }
  assert (Hx : json_exp r = Some ([], r)).
  { destruct r as [|c r]; [done|]. cbn. destruct Hr as (_ & _ & H1 & H2).
    by destruct (Z.eqb_spec (b2z c) 101), (Z.eqb_spec (b2z c) 69). }
  assert (Hi : json_int ((b :: ds) ++ r) = Some (b :: ds, r)).
  { cbn [app json_int]. destruct (Z.eqb_spec (b2z b) 48) as [H48|].
    - assert (ds = []) as -> by (apply H0; [done|lia]). done.
    - unfold digits1. change (b :: ds ++ r) with ((b :: ds) ++ r).
      by rewrite (span_digits_app _ _ Hd Hr). }
  rewrite E. unfold json_number. cbn [app].
  destruct (Z.eqb_spec (b2z b) 45) as [H45|_].
  { unfold is_digit in Hb. rewrite H45 in Hb. done. }
  change (b :: ds ++ r) with ((b :: ds) ++ r). rewrite Hi. cbn. rewrite Hf. cbn. rewrite Hx. cbn.
  by rewrite app_nil_r.
Qed.

Lemma is_digit_range b : is_digit b = true ↔ 48 <= b2z b <= 57.
Proof. unfold is_digit. lia. Qed.

Lemma has_prefix_head x p b s : b ≠ x → has_prefix (x :: p) (b :: s) = false.
Proof. intros H. unfold has_prefix. cbn. rewrite bool_decide_false; [done|]. intros [= E]. done. Qed.

Lemma skip_ws_head b s : 32 < b2z b → skip_ws (b :: s) = b :: s.
Proof.
  intros H. cbn. destruct (Z.eqb_spec (b2z b) 32), (Z.eqb_spec (b2z b) 9), (Z.eqb_spec (b2z b) 10),
    (Z.eqb_spec (b2z b) 13); (done || lia).
Qed.

Lemma json_value_itoa d n z r :
  0 <= z < 10 ^ Z.of_nat n → (0 < n)%nat → stops_number r →
  json_value d (itoa n z ++ r) = Some (JNum (itoa n z), r).
Proof.
  intros Hz Hn Hr. pose proof (json_number_itoa n z r Hz Hn Hr) as H.
  destruct (itoa_cons n z) as (b & ds & E & Hb & _); [lia..|]. rewrite E in *.
  apply is_digit_range in Hb.
  destruct d; cbn [app json_value]; rewrite skip_ws_head by lia;
    destruct (Z.eqb_spec (b2z b) 34), (Z.eqb_spec (b2z b) 91), (Z.eqb_spec (b2z b) 123); try lia;
    unfold json_literal;
    change (String.list_byte_of_string "null") with [x6e; x75; x6c; x6c];
    change (String.list_byte_of_string "true") with [x74; x72; x75; x65];
    change (String.list_byte_of_string "false") with [x66; x61; x6c; x73; x65];
    rewrite !has_prefix_head by (intros ->; destruct Hb as [_ Hb]; by apply Hb);
    cbn [app] in H; by rewrite H.
Qed.

Lemma all_digits_itoa n z : (0 < n)%nat → 0 <= z → all_digits (itoa n z) = true.
Proof.
  intros. unfold all_digits. apply andb_true_intro. split.
  - apply forallb_forall. pose proof (itoa_digits n z) as Hd. rewrite Forall_forall in Hd.
    intros x Hx. apply Hd. by apply list_elem_of_In.
  - destruct (itoa_cons n z) as (b & ds & -> & _); [lia..|]. done.
Qed.
Lemma json_uint_itoa z : is_u32 z → json_uint 32 (itoa 10 z) = Some z.
Proof.
  unfold is_u32, json_uint. intros. rewrite all_digits_itoa by lia.
  rewrite itoa_value by (change (10 ^ Z.of_nat 10) with 10000000000; lia).
  by destruct (Z.ltb_spec z (2 ^ 32)); [|lia].
Qed.
