(* ===== verification/Publish.v ===== *)
(** * Atomic publication of a file

    The write-to-temporary, fsync, close, rename sequence that manifest.go's
    [writeManifest] and hint.go's [writeHintFile] both consist of, and what it
    leaves on disk whichever call fails. *)
From S2P Require Import Prelude Storage Frame.

(** What a name reads as. *)
Definition read_file (d : disk) (name : bytes) : option bytes := file_data d <$> d_dir d !! name.

(** The error formats of the five steps. *)
Record publish_msgs := mkMsgs {
  m_open : string; m_write : string; m_fsync : string; m_close : string; m_rename : string;
}.

Definition publish (m : publish_msgs) (tmpPath finalPath data : bytes) : env → result unit * env :=
  let discard e := ignore (os_Remove tmpPath) (ignore file_Close e) in
  do! tmp := on_error (os_create_trunc tmpPath) Datatypes.id (λ e, EWrap (m_open m) [e]) in
  do! _ := on_error (file_Write tmp data) discard (λ e, EWrap (m_write m) [e]) in
  do! _ := on_error (file_Sync tmp) discard (λ e, EWrap (m_fsync m) [e]) in
  do! _ := on_error file_Close (ignore (os_Remove tmpPath)) (λ e, EWrap (m_close m) [e]) in
  on_error (os_Rename tmpPath finalPath) (ignore (os_Remove tmpPath)) (λ e, EWrap (m_rename m) [e]).

(** Only the durable directory is out of the calls' reach. *)
Lemma sdir_append bs ino d : d_sdir (append_data bs ino d) = d_sdir d.
Proof. unfold append_data. by case_match. Qed.
Lemma sdir_sync ino d : d_sdir (sync_data ino d) = d_sdir d.
Proof. unfold sync_data. by case_match. Qed.
Lemma sdir_open_trunc name d : d_sdir (open_trunc name d).2 = d_sdir d.
Proof. unfold open_trunc, truncate_data. by repeat case_match. Qed.

Lemma ignore_Remove_sdir name e : d_sdir (e_disk (ignore (os_Remove name) e)) = d_sdir (e_disk e).
Proof.
  unfold ignore. destruct (os_Remove name e) eqn:E. cbn. by apply os_Remove_inv in E as [->| ->].
Qed.

(** An error made of a failed system call. *)
Definition io_error (err : error) : Prop :=
  ∃ f s, err = EWrap f [ESentinel s] ∧ s ∈ [os_ErrNotExist; EIO].

Lemma io_error_EIO f : io_error (EWrap f [ESentinel EIO]).
Proof. exists f, EIO. split; [done|set_solver]. Qed.
#[export] Hint Resolve io_error_EIO : core.

Section publish.
Context (m : publish_msgs) (tmp final data : bytes).
Context (Hne : tmp ≠ final).
Let other (n : bytes) : Prop := n ≠ tmp ∧ n ≠ final.

(** Dropping the temporary file is invisible under every other name. *)
Lemma discard_framed d e :
  framed (λ n, n ≠ tmp) d (e_disk e) →
  framed (λ n, n ≠ tmp) d (e_disk (ignore (os_Remove tmp) e)).
Proof using Type.
  intros H. eapply framed_trans; [done|]. apply ignore_Remove_framed; [apply H|by intros []].
Qed.

Lemma publish_spec e r e' :
  disk_ok (e_disk e) → publish m tmp final data e = (r, e') →
  d_sdir (e_disk e') = d_sdir (e_disk e) ∧
  match r with
  | Ok _ => framed other (e_disk e) (e_disk e') ∧ d_dir (e_disk e') !! tmp = None ∧
      ∃ ino, d_dir (e_disk e') !! final = Some ino
        ∧ file_data (e_disk e') ino = data ∧ file_synced (e_disk e') ino = data
  | Err err => framed (λ n, n ≠ tmp) (e_disk e) (e_disk e') ∧ io_error err
  end.
Proof using Hne.
  intros Hd. unfold publish, ebind, on_error.
  destruct (os_create_trunc tmp e) as [r1 e1] eqn:E1.
  apply os_create_trunc_inv in E1 as [(ino & -> & E1)|[-> D1]].
  2: { intros [= <- <-]. unfold Datatypes.id. rewrite D1. split; [done|]. split; [by apply framed_refl|auto]. }
  pose proof (open_trunc_framed _ Hd (λ n, n ≠ tmp) tmp ltac:(by intros [])) as F1.
  pose proof (sdir_open_trunc tmp (e_disk e)) as S1.
  destruct (open_trunc_spec _ Hd _ _ _ E1) as (Dir1 & Dat1 & In1).
  rewrite E1 in F1, S1. cbn in F1, S1.
  destruct (file_Write ino data e1) as [r2 e2] eqn:E2.
  assert (W : ∀ bs, framed (λ n, n ≠ tmp) (e_disk e) (append_data bs ino (e_disk e1))).
  { intros bs. eapply framed_trans; [done|]. apply append_data_framed; [apply F1|].
    intros n Hn Hi. apply Hn. eapply (dk_inj _ (fr_ok _ _ _ F1)); [done|].
    rewrite Dir1. by rewrite lookup_insert_eq. }
  apply file_Write_inv in E2 as [[-> D2]|[-> [k D2]]].
  2: { intros [= <- <-]. rewrite ignore_Remove_sdir, ignore_Close_disk, D2, sdir_append.
       split; [done|]. split; [|done]. apply discard_framed. by rewrite ignore_Close_disk, D2. }
  destruct (file_Sync ino e2) as [r3 e3] eqn:E3. specialize (W data). rewrite <- D2 in W.
  apply file_Sync_inv in E3 as [[-> D3]|[-> D3]].
  2: { intros [= <- <-]. rewrite ignore_Remove_sdir, ignore_Close_disk, D3, D2, sdir_append.
       split; [done|]. split; [|done]. apply discard_framed. by rewrite ignore_Close_disk, D3. }
  assert (F3 : framed (λ n, n ≠ tmp) (e_disk e) (e_disk e3)).
  { eapply framed_trans; [done|]. rewrite D3. apply sync_data_framed. apply W. }
  assert (S3 : d_sdir (e_disk e3) = d_sdir (e_disk e)) by (by rewrite D3, sdir_sync, D2, sdir_append).
  destruct (file_Close e3) as [r4 e4] eqn:E4. apply file_Close_inv in E4 as [D4 [->| ->]].
  2: { intros [= <- <-]. rewrite ignore_Remove_sdir, D4. split; [done|]. split; [|done].
       apply discard_framed. by rewrite D4. }
  destruct (os_Rename tmp final e4) as [r5 e5] eqn:E5.
  assert (Dir4 : d_dir (e_disk e4) = <[tmp:=ino]> (d_dir (e_disk e))).
  { by rewrite D4, D3, dir_sync, D2, dir_append, Dir1. }
  apply os_Rename_inv in E5 as [(j & -> & Hj & D5)|(s & -> & Hs & D5)].
  2: { intros [= <- <-]. rewrite ignore_Remove_sdir, D5, D4. split; [done|]. split.
       - apply discard_framed. by rewrite D5, D4.
       - eexists _, _. by split. }
  rewrite Dir4, lookup_insert_eq in Hj. injection Hj as <-.
  intros [= <- <-]. rewrite D5. split; [by rewrite D4|]. split; [|split].
  - eapply framed_trans.
    + eapply framed_weaken; [exact F3|]. by intros n [].
    + rewrite D4. apply link_rename_framed; [apply F3| |by intros []..].
      by rewrite <- D4, Dir4, lookup_insert_eq.
  - cbn. by rewrite lookup_insert_ne, lookup_delete_eq.
  - exists ino. cbn. rewrite lookup_insert_eq. split; [done|].
    change (file_data (e_disk e4) ino = data ∧ file_synced (e_disk e4) ino = data).
    rewrite D4, D3, file_synced_sync, file_data_sync, D2, file_data_append, Dat1; done.
Qed.
End publish.

(** A framed name reads the same. *)
Lemma framed_read P d d' n : framed P d d' → P n → read_file d' n = read_file d n.
Proof.
  intros F Hn. unfold read_file. rewrite (fr_dir _ _ _ F n Hn).
  destruct (d_dir d !! n) as [i|] eqn:E; [|done]. cbn. f_equal. by eapply framed_data.
Qed.

(** Without faults the publication goes through. *)
Lemma publish_quiet m tmp final data e :
  disk_ok (e_disk e) → quiet e → ∃ e', publish m tmp final data e = (Ok tt, e') ∧ quiet e'.
Proof.
  intros Hd Hq. unfold publish, ebind, on_error. rewrite os_create_trunc_quiet by done.
  destruct (open_trunc tmp (e_disk e)) as [ino d1] eqn:E1.
  destruct (open_trunc_spec _ Hd _ _ _ E1) as (Dir1 & _ & _). cbn [fst snd].
  rewrite file_Write_quiet, file_Sync_quiet, file_Close_quiet by done. cbn [e_disk e_clock].
  unfold os_Rename. rewrite sys_no_faults by done. cbn [e_disk].
  rewrite dir_sync, dir_append, Dir1, lookup_insert_eq. by eexists.
Qed.
