(* ===== verification/Manifest.v ===== *)
(** * The manifest (src/internal/engine/manifest.go)

    The durable list of live segments and the active one: its JSON schema, its
    atomic replacement, and the checks of the reader. *)
From S2P Require Import Prelude Storage Frame Names Json Publish.

Definition manifestFilename : bytes := String.list_byte_of_string "MANIFEST".
Definition manifestTmpFilename : bytes := String.list_byte_of_string "MANIFEST.tmp".
Definition manifestVersion : Z := 1.

Definition errManifestMissing : string := "manifest: not present".
Definition ErrManifestPublishedButUncertain : string := "manifest: rename ok, durability uncertain".

Record manifestV1 := mkManifest {
  Version : Z;
  Segments : list Z;
  Active : option Z;
}.

#[global] Instance manifestV1_eq_dec : EqDecision manifestV1.
Proof. solve_decision. Defined.

(** ** The JSON form of the schema *)

Definition lit (s : string) : bytes := String.list_byte_of_string s.

Definition marshal_u32 (z : Z) : bytes := itoa 10 z.

Fixpoint marshal_ids (ids : list Z) : bytes :=
  match ids with
  | [] => []
  | [id] => marshal_u32 id
  | id :: ids' => marshal_u32 id ++ lit "," ++ marshal_ids ids'
  end.

(** A quote, which the strings below cannot hold. *)
Definition q : bytes := [x22].
Definition member (name : string) : bytes := q ++ lit name ++ q ++ lit ":".

(** [json.Marshal] of a version-1 manifest with a non-nil segment list. *)
Definition json_Marshal (m : manifestV1) : bytes :=
  lit "{" ++ member "version" ++ itoa 19 (Version m)
    ++ lit "," ++ member "segments" ++ lit "[" ++ marshal_ids (Segments m) ++ lit "]"
    ++ lit "," ++ member "active"
    ++ match Active m with Some a => marshal_u32 a | None => lit "null" end
    ++ lit "}".

Definition errJSON : string := "json: cannot unmarshal".

Definition unmarshal_u32 (v : json) : option Z :=
  match v with
  | JNull => Some 0
  | JNum n => json_uint 32 n
  | _ => None
  end.

(** One member of the object, into the field it names; others are ignored, a
    null leaves a number alone and clears a list or a pointer. *)
Definition unmarshal_member (m : manifestV1) (kv : bytes * json) : option manifestV1 :=
  let (k, v) := kv in
  if equal_fold k (lit "version") then
    match v with
    | JNull => Some m
    | JNum n => z ← json_int64 n; Some (mkManifest z (Segments m) (Active m))
    | _ => None
    end
  else if equal_fold k (lit "segments") then
    match v with
    | JNull => Some (mkManifest (Version m) [] (Active m))
    | JArr l => ids ← mapM unmarshal_u32 l; Some (mkManifest (Version m) ids (Active m))
    | _ => None
    end
  else if equal_fold k (lit "active") then
    match v with
    | JNull => Some (mkManifest (Version m) (Segments m) None)
    | JNum n => z ← json_uint 32 n; Some (mkManifest (Version m) (Segments m) (Some z))
    | _ => None
    end
  else Some m.

Fixpoint unmarshal_members (m : manifestV1) (kvs : list (bytes * json)) : option manifestV1 :=
  match kvs with
  | [] => Some m
  | kv :: kvs' => m' ← unmarshal_member m kv; unmarshal_members m' kvs'
  end.

(** [json.Unmarshal(data, &m)] with [m] zero. *)
Definition json_Unmarshal (data : bytes) : result manifestV1 :=
  let m0 := mkManifest 0 [] None in
  match json_parse data with
  | Some (JObj kvs) =>
      match unmarshal_members m0 kvs with Some m => Ok m | None => Err (ESentinel errJSON) end
  | Some JNull => Ok m0
  | _ => Err (ESentinel errJSON)
  end.

(** ** Reading *)

(** The checks of [readManifest] on the decoded schema. *)
Fixpoint strictly_ascending (ids : list Z) : bool :=
  match ids with
  | x :: (y :: _) as l => negb (y <=? x) && strictly_ascending l
  | _ => true
  end.

Definition manifest_checks (m : manifestV1) : result (list Z * Z) :=
  if negb (Version m =? manifestVersion) then Err (errorf "manifest: unsupported version %d")
  else if negb (strictly_ascending (Segments m))
  then Err (errorf "manifest: segments not strictly ascending (entry %d <= %d)")
  else match Active m with
       | None => Err (errorf "manifest: missing active segment id")
       | Some activeID =>
         if existsb (Z.eqb activeID) (Segments m) then Ok (Segments m, activeID)
         else Err (errorf "manifest: active segment %d not listed in segments %v")
       end.

Definition readManifest (e : env) : result (list Z * Z) * env :=
  match os_open manifestFilename e with
  | (Err err, e) =>
      if errors_Is err os_ErrNotExist then (Err (ESentinel errManifestMissing), e)
      else (Err (EWrap "manifest: open: %w" [err]), e)
  | (Ok f, e) =>
      let (r, e) := file_ReadAll f e in
      let e := ignore file_Close e in
      (match r with
       | Err err => Err (EWrap "manifest: read: %w" [err])
       | Ok data => match json_Unmarshal data with
                    | Err err => Err (EWrap "manifest: parse: %w" [err])
                    | Ok m => manifest_checks m
                    end
       end, e)
  end.

(** ** Writing *)

(** Drop the elements equal to their predecessor. *)
Fixpoint dedup (ids : list Z) : list Z :=
  match ids with
  | x :: (y :: _) as l => if x =? y then dedup l else x :: dedup l
  | l => l
  end.

Definition manifest_msgs : publish_msgs :=
  mkMsgs "manifest: open tmp: %w" "manifest: write tmp: %w" "manifest: fsync tmp: %w"
    "manifest: close tmp: %w" "manifest: rename: %w".

Definition writeManifest (ids : list Z) (active : Z) : env → result unit * env :=
  let ids := dedup (sort_ids ids) in
  if negb (existsb (Z.eqb active) ids)
  then λ e, (Err (errorf "manifest: active %d not in segments %v"), e)
  else
    let data := json_Marshal (mkManifest manifestVersion ids (Some active)) in
    do! _ := publish manifest_msgs manifestTmpFilename manifestFilename data in
    on_error syncDir Datatypes.id
      (λ e, EWrap "%w: %v" [ESentinel ErrManifestPublishedButUncertain]).

(** ** Reconciling with the directory *)

Definition reconcileManifest (onDisk : list Z) (e : env) : result (list Z * Z * bool) * env :=
  match readManifest e with
  | (Err err, e) =>
      if errors_Is err errManifestMissing then (Ok (onDisk, 0, true), e) else (Err err, e)
  | (Ok (manifest, manifestActive), e) =>
      (if forallb (λ id, existsb (Z.eqb id) onDisk) manifest
       then Ok (manifest, manifestActive, false)
       else Err (errorf "manifest: live segment %d listed but file missing on disk"), e)
  end.

(** ** Lemmas: the JSON round trip *)

Lemma plain_lit (s : string) :
  forallb plain (lit s) = true → Forall (λ b, plain b = true) (lit s).
Proof. intros H. apply Forall_forall; intros x Hx; apply (proj1 (forallb_forall _ _) H); by apply list_elem_of_In. Qed.

Lemma skip_ws_quote r : skip_ws (x22 :: r) = x22 :: r.
Proof. done. Qed.

Lemma member_app name s : member name ++ s = x22 :: lit name ++ x22 :: x3a :: s.
Proof. unfold member, q. by rewrite <- !app_assoc. Qed.

(** One member of an object, followed by another or by the end. *)
Lemma json_members_more value n name v text r rest :
  forallb plain (lit name) = true → value (text ++ x2c :: r) = Some (v, x2c :: r) →
  json_members value n r = Some (rest.1, rest.2) →
  json_members value (S n) (member name ++ text ++ x2c :: r)
  = Some ((lit name, v) :: rest.1, rest.2).
Proof.
  intros Hn Hv Hr. rewrite member_app.
  cbn [json_members]. rewrite skip_ws_quote. change (b2z x22 =? 34) with true. cbn iota.
  rewrite json_string_plain by (by apply plain_lit). cbn [mbind option_bind].
  change (skip_ws (x3a :: ?s)) with (x3a :: s). change (b2z x3a =? 58) with true. cbn iota.
  rewrite Hv. cbn [mbind option_bind]. change (skip_ws (x2c :: r)) with (x2c :: r).
  change (b2z x2c =? 44) with true. cbn iota. rewrite Hr. done.
Qed.
Lemma json_members_last value n name v text r :
  forallb plain (lit name) = true → value (text ++ x7d :: r) = Some (v, x7d :: r) →
  json_members value (S n) (member name ++ text ++ x7d :: r) = Some ([(lit name, v)], r).
Proof.
  intros Hn Hv. rewrite member_app.
  cbn [json_members]. rewrite skip_ws_quote. change (b2z x22 =? 34) with true. cbn iota.
  rewrite json_string_plain by (by apply plain_lit). cbn [mbind option_bind].
  change (skip_ws (x3a :: ?s)) with (x3a :: s). change (b2z x3a =? 58) with true. cbn iota.
  rewrite Hv. cbn [mbind option_bind]. change (skip_ws (x7d :: r)) with (x7d :: r).
  done.
Qed.

Lemma u32_ten z : is_u32 z → 0 <= z < 10 ^ Z.of_nat 10.
Proof. unfold is_u32. change (10 ^ Z.of_nat 10) with 10000000000. lia. Qed.

Lemma json_elements_ids d n ids r :
  Forall is_u32 ids → ids ≠ [] → (length ids <= n)%nat →
  json_elements (json_value d) n (marshal_ids ids ++ x5d :: r)
  = Some (map (λ z, JNum (itoa 10 z)) ids, r).
Proof.
  intros Hids. revert n. induction Hids as [|z ids Hz Hids IH]; intros n Hne Hn; [done|].
  destruct n as [|n]; cbn [length] in Hn; [lia|]. apply u32_ten in Hz.
  destruct ids as [|z' ids].
  - cbn [marshal_ids json_elements map]. unfold marshal_u32.
    rewrite (json_value_itoa d 10 z (x5d :: r)) by (done || lia). done.
  - change (marshal_ids (z :: z' :: ids)) with (itoa 10 z ++ [x2c] ++ marshal_ids (z' :: ids)).
    rewrite <- !app_assoc. change ([x2c] ++ ?s) with (x2c :: s). cbn [json_elements].
    rewrite (json_value_itoa d 10 z (x2c :: _)) by (done || lia). cbn [mbind option_bind].
    change (skip_ws (x2c :: ?s)) with (x2c :: s). cbn iota. change (b2z x2c =? 44) with true.
    cbn iota. rewrite IH by (done || lia). done.
Qed.

Lemma marshal_ids_head ids :
  Forall is_u32 ids → ids ≠ [] → ∃ b s, marshal_ids ids = b :: s ∧ 48 <= b2z b <= 57.
Proof.
  intros H Hne. destruct ids as [|z ids]; [done|]. inversion H as [|? ? [Hz _] _]; subst.
  destruct (itoa_cons 10 z) as (b & ds & E & Hb & _); [done|lia|]. apply is_digit_range in Hb.
  exists b. destruct ids as [|z' ids]; cbn [marshal_ids]; unfold marshal_u32; rewrite E; cbn; eauto.
Qed.

Lemma length_marshal_ids ids :
  Forall is_u32 ids → (length ids <= length (marshal_ids ids))%nat.
Proof.
  induction 1 as [|z ids [Hz _] _ IH]; [done|].
  destruct (itoa_cons 10 z) as (b & ds & E & _); [done|lia|].
  destruct ids as [|z' ids].
  - cbn [marshal_ids]. unfold marshal_u32. rewrite E. cbn [length]. lia.
  - change (marshal_ids (z :: z' :: ids)) with (itoa 10 z ++ lit "," ++ marshal_ids (z' :: ids)).
    rewrite E, !length_app. cbn [length] in *. lia.
Qed.

Lemma json_value_ids d ids r :
  Forall is_u32 ids → ids ≠ [] →
  json_value (S d) (x5b :: marshal_ids ids ++ x5d :: r)
  = Some (JArr (map (λ z, JNum (itoa 10 z)) ids), r).
Proof.
  intros H Hne. destruct (marshal_ids_head ids H Hne) as (b & s & E & Hb).
  cbn [json_value]. change (skip_ws (x5b :: ?t)) with (x5b :: t).
  change (b2z x5b =? 34) with false. change (b2z x5b =? 91) with true. cbn iota.
  rewrite E. cbn [app]. rewrite skip_ws_head by lia.
  destruct (Z.eqb_spec (b2z b) 93); [lia|].
  change (b :: s ++ x5d :: r) with ((b :: s) ++ x5d :: r). rewrite <- E, json_elements_ids; [done..|].
  pose proof (length_marshal_ids ids H). rewrite length_app. lia.
Qed.

Lemma mapM_unmarshal_u32 ids :
  Forall is_u32 ids → mapM unmarshal_u32 (map (λ z, JNum (itoa 10 z)) ids) = Some ids.
Proof.
  induction 1 as [|z ids Hz _ IH]; [done|]. cbn [map mapM]. cbn [unmarshal_u32].
  rewrite json_uint_itoa by done. cbn [mbind option_bind]. by rewrite IH.
Qed.

Definition manifest_ok (m : manifestV1) : Prop :=
  Version m = manifestVersion ∧ Segments m ≠ [] ∧ Forall is_u32 (Segments m)
  ∧ ∃ a, Active m = Some a ∧ is_u32 a.

Lemma json_value_object d s :
  (∃ s', s = x22 :: s') →
  json_value (S d) (x7b :: s)
  = '(ms, r) ← json_members (json_value d) (S (length s)) s; Some (JObj ms, r).
Proof. by intros [s' ->]. Qed.

(** The three members as [encoding/json] reads them back. *)
Lemma json_parse_Marshal ids a :
  Forall is_u32 ids → ids ≠ [] → is_u32 a →
  json_parse (json_Marshal (mkManifest manifestVersion ids (Some a)))
  = Some (JObj [(lit "version", JNum (itoa 19 1));
                (lit "segments", JArr (map (λ z, JNum (itoa 10 z)) ids));
                (lit "active", JNum (itoa 10 a))]).
Proof.
  intros Hids Hne Ha. unfold json_parse.
  assert (∃ d, json_maxDepth = S (S d)) as [d Hd].
  { exists (Z.to_nat 9998). unfold json_maxDepth. lia. }
  rewrite Hd. unfold json_Marshal. cbn [Version Segments Active].
  change (lit "{" ++ ?s) with (x7b :: s).
  set (body := member "version" ++ _).
  assert (Hb : body = member "version" ++ itoa 19 1 ++ x2c :: member "segments"
    ++ (x5b :: marshal_ids ids ++ [x5d]) ++ x2c :: member "active" ++ itoa 10 a ++ x7d :: []).
  { unfold body, manifestVersion, marshal_u32. cbn [app]. by rewrite <- !app_assoc. }
  assert (Hl : ∃ n, length body = S (S (S n))).
  { rewrite Hb, length_app. change (length (member "version")) with 10%nat. by eexists. }
  destruct Hl as [n Hn]. rewrite (json_value_object (S d) body) by (rewrite Hb, member_app; eauto).
  rewrite Hn, Hb.
  rewrite (json_members_more _ _ _ (JNum (itoa 19 1)) _ _
    ([(lit "segments", JArr (map (λ z, JNum (itoa 10 z)) ids)); (lit "active", JNum (itoa 10 a))], []));
    [done|done| |].
  - apply json_value_itoa; [by vm_compute|lia|done].
  - rewrite (json_members_more _ _ _ (JArr (map (λ z, JNum (itoa 10 z)) ids)) _ _
      ([(lit "active", JNum (itoa 10 a))], [])); [done|done| |].
    + cbn [app]. rewrite <- app_assoc. by apply json_value_ids.
    + apply json_members_last; [done|]. apply json_value_itoa; [by apply u32_ten|lia|done].
Qed.

Lemma json_Unmarshal_Marshal m : manifest_ok m → json_Unmarshal (json_Marshal m) = Ok m.
Proof.
  destruct m as [v ids ac]. intros (Hv & Hne & Hids & a & Ha & Hu).
  cbn [Version Segments Active] in *. subst.
  unfold json_Unmarshal. rewrite json_parse_Marshal by done.
  cbn [unmarshal_members]. cbn [unmarshal_member].
  change (equal_fold (lit "version") (lit "version")) with true. cbn iota.
  change (json_int64 (itoa 19 1)) with (Some 1). cbn [mbind option_bind].
  change (equal_fold (lit "segments") (lit "version")) with false.
  change (equal_fold (lit "segments") (lit "segments")) with true. cbn iota.
  rewrite mapM_unmarshal_u32 by done. cbn [mbind option_bind].
  change (equal_fold (lit "active") (lit "version")) with false.
  change (equal_fold (lit "active") (lit "segments")) with false.
  change (equal_fold (lit "active") (lit "active")) with true. cbn iota.
  rewrite json_uint_itoa by done. done.
Qed.

Lemma json_Unmarshal_Err data err : json_Unmarshal data = Err err → err = ESentinel errJSON.
Proof. unfold json_Unmarshal. repeat (case_match; try done); congruence. Qed.

#[global] Opaque json_Unmarshal json_Marshal.

(** ** Lemmas: canonical lists *)

Definition canonical (ids : list Z) : list Z := dedup (sort_ids ids).

Lemma elem_of_dedup x l : x ∈ dedup l ↔ x ∈ l.
Proof.
  induction l as [|y l IH]; [done|]. destruct l as [|z l]; [done|].
  change (dedup (y :: z :: l)) with (if y =? z then dedup (z :: l) else y :: dedup (z :: l)).
  destruct (Z.eqb_spec y z) as [->|].
  - rewrite IH. rewrite !elem_of_cons. tauto.
  - rewrite elem_of_cons, IH, (elem_of_cons (z :: l)). done.
Qed.
Lemma elem_of_canonical x ids : x ∈ canonical ids ↔ x ∈ ids.
Proof. unfold canonical. by rewrite elem_of_dedup, elem_of_sort_ids. Qed.

Lemma dedup_head x l : ∃ l', dedup (x :: l) = x :: l'.
Proof.
  revert x. induction l as [|y l IH]; intros x; [by eexists|].
  change (dedup (x :: y :: l)) with (if x =? y then dedup (y :: l) else x :: dedup (y :: l)).
  destruct (Z.eqb_spec x y) as [->|]; [apply IH|by eexists].
Qed.
Lemma dedup_ascending l : StronglySorted Z.le l → strictly_ascending (dedup l) = true.
Proof.
  induction 1 as [|x l Hl IH Hx]; [done|]. destruct l as [|y l]; [done|].
  change (dedup (x :: y :: l)) with (if x =? y then dedup (y :: l) else x :: dedup (y :: l)).
  destruct (Z.eqb_spec x y) as [|Hne]; [done|].
  destruct (dedup_head y l) as [l' E]. rewrite E in *. cbn [strictly_ascending] in *.
  rewrite IH, andb_true_r. inversion Hx; subst. by destruct (Z.leb_spec y x); [lia|].
Qed.
Lemma canonical_ascending ids : strictly_ascending (canonical ids) = true.
Proof. apply dedup_ascending, sort_ids_sorted. Qed.

Lemma existsb_elem_of x l : existsb (Z.eqb x) l = true ↔ x ∈ l.
Proof.
  rewrite existsb_exists. split.
  - intros (y & H & ->%Z.eqb_eq). by apply list_elem_of_In.
  - intros H. exists x. split; [by apply list_elem_of_In|apply Z.eqb_refl].
Qed.

(** ** Lemmas: reading and writing *)

Definition manifest_text (ids : list Z) (active : Z) : bytes :=
  json_Marshal (mkManifest manifestVersion ids (Some active)).

(** What the file says, if it can be read. *)
Definition manifest_of (d : disk) : result (list Z * Z) :=
  match read_file d manifestFilename with
  | None => Err (ESentinel errManifestMissing)
  | Some data => match json_Unmarshal data with
                 | Err err => Err (EWrap "manifest: parse: %w" [err])
                 | Ok m => manifest_checks m
                 end
  end.

Lemma manifest_checks_ok ids a :
  strictly_ascending ids = true → a ∈ ids →
  manifest_checks (mkManifest manifestVersion ids (Some a)) = Ok (ids, a).
Proof.
  intros H Ha. unfold manifest_checks. cbn [Version Segments Active]. rewrite H.
  by rewrite (proj2 (existsb_elem_of a ids) Ha).
Qed.

Lemma manifest_of_text d ids a :
  read_file d manifestFilename = Some (manifest_text (canonical ids) a) →
  Forall is_u32 ids → a ∈ ids → manifest_of d = Ok (canonical ids, a).
Proof.
  intros H Hids Ha. unfold manifest_of. rewrite H. unfold manifest_text.
  rewrite Forall_forall in Hids.
  rewrite json_Unmarshal_Marshal.
  - apply manifest_checks_ok; [apply canonical_ascending|by apply elem_of_canonical].
  - split; [done|]. cbn. split; [|split].
    + intros E. apply (proj2 (elem_of_canonical a ids)) in Ha. rewrite E in Ha. by apply not_elem_of_nil in Ha.
    + apply Forall_forall. intros x Hx. apply Hids. by apply elem_of_canonical.
    + eauto.
Qed.

(** Reading changes nothing and says what the file says, or fails. *)
Lemma readManifest_spec e r e' :
  readManifest e = (r, e') →
  e_disk e' = e_disk e ∧ (r = manifest_of (e_disk e) ∨ ∃ f, r = Err (EWrap f [ESentinel EIO])).
Proof.
  unfold readManifest, manifest_of, read_file.
  destruct (os_open manifestFilename e) as [r1 e1] eqn:E1.
  apply os_open_inv in E1 as [D1 [(ino & -> & Hi)|[[-> Hi]| ->]]].
  - rewrite Hi. cbn [fmap option_fmap option_map].
    destruct (file_ReadAll ino e1) as [r2 e2] eqn:E2. apply file_ReadAll_inv in E2 as [D2 [->| ->]];
      intros [= <- <-]; rewrite ignore_Close_disk, D2, D1; eauto.
  - rewrite Hi. intros [= <- <-]. auto.
  - intros [= <- <-]. eauto.
Qed.

(** A name bound durably to durable contents. *)
Definition durable_file (d : disk) (name data : bytes) : Prop :=
  ∃ ino, d_dir d !! name = Some ino ∧ d_sdir d !! name = Some ino
    ∧ file_data d ino = data ∧ file_synced d ino = data.

Definition not_manifest (n : bytes) : Prop := n ≠ manifestTmpFilename ∧ n ≠ manifestFilename.

Lemma manifest_names_ne : manifestTmpFilename ≠ manifestFilename.
Proof. decided. Qed.

Lemma io_error_not_uncertain err :
  io_error err → errors_Is err ErrManifestPublishedButUncertain = false.
Proof. intros (f & s & -> & Hs). cbn. rewrite !elem_of_cons in Hs. destruct Hs as [->|[->|Hs]]; [done..|by apply not_elem_of_nil in Hs]. Qed.

Lemma writeManifest_spec ids a e r e' :
  disk_ok (e_disk e) → writeManifest ids a e = (r, e') →
  framed not_manifest (e_disk e) (e_disk e') ∧
  match r with
  | Ok _ => a ∈ ids ∧ durable_file (e_disk e') manifestFilename (manifest_text (canonical ids) a)
      ∧ d_sdir (e_disk e') = d_dir (e_disk e')
  | Err err =>
      if errors_Is err ErrManifestPublishedButUncertain
      then a ∈ ids ∧ read_file (e_disk e') manifestFilename = Some (manifest_text (canonical ids) a)
           ∧ (d_sdir (e_disk e') = d_sdir (e_disk e) ∨ d_sdir (e_disk e') = d_dir (e_disk e'))
      else framed (λ n, n ≠ manifestTmpFilename) (e_disk e) (e_disk e')
           ∧ d_sdir (e_disk e') = d_sdir (e_disk e)
  end.
Proof.
  intros Hd. unfold writeManifest. fold (canonical ids).
  destruct (existsb (Z.eqb a) (canonical ids)) eqn:Ha; cbn [negb].
  2: { intros [= <- <-]. split; [by apply framed_refl|]. cbn. split; [by apply framed_refl|done]. }
  apply existsb_elem_of in Ha. apply (proj1 (elem_of_canonical a ids)) in Ha. unfold ebind at 1.
  destruct (publish _ _ _ _ e) as [r1 e1] eqn:E1.
  apply publish_spec in E1 as [S1 E1]; [|apply manifest_names_ne|done].
  destruct r1 as [[]|err].
  2: { destruct E1 as [F Hio]. intros [= <- <-]. split.
       - eapply framed_weaken; [done|]. by intros n [].
       - by rewrite (io_error_not_uncertain _ Hio). }
  destruct E1 as (F & Htmp & ino & Hi & Hdat & Hsyn).
  unfold on_error. destruct (syncDir e1) as [r2 e2] eqn:E2.
  pose proof (syncDir_framed not_manifest _ _ _ (fr_ok _ _ _ F) E2) as F2.
  apply syncDir_spec in E2 as (D2 & Hok & Herr).
  destruct r2 as [[]|err].
  - intros [= <- <-]. split; [by eapply framed_trans|]. split; [done|].
    rewrite Hok by done. split; [|done]. exists ino. repeat split; done.
  - destruct (Herr _ eq_refl) as [f ->]. intros [= <- <-]. unfold Datatypes.id.
    split; [by eapply framed_trans|].
    change (errors_Is (EWrap _ _) _) with true. cbn iota. split; [done|].
    assert (d_dir (e_disk e2) = d_dir (e_disk e1) ∧ file_data (e_disk e2) ino = file_data (e_disk e1) ino)
      as [Dir2 Dat2] by (by destruct D2 as [->| ->]).
    unfold read_file. rewrite Dir2, Hi. cbn [fmap option_fmap option_map]. rewrite Dat2, Hdat.
    split; [done|]. destruct D2 as [->| ->]; auto.
Qed.

Lemma writeManifest_quiet ids a e :
  disk_ok (e_disk e) → quiet e → a ∈ ids →
  ∃ e', writeManifest ids a e = (Ok tt, e') ∧ quiet e'.
Proof.
  intros Hd Hq Ha. unfold writeManifest. fold (canonical ids).
  rewrite (proj2 (existsb_elem_of _ _) (proj2 (elem_of_canonical _ _) Ha)). cbn [negb].
  unfold ebind at 1. edestruct publish_quiet as (e1 & -> & H1); [done..|].
  unfold on_error. rewrite syncDir_quiet by done. by eexists.
Qed.

Lemma readManifest_quiet e :
  quiet e → ∃ e', readManifest e = (manifest_of (e_disk e), e') ∧ quiet e'.
Proof.
  intros Hq. unfold readManifest, manifest_of, read_file. rewrite os_open_quiet by done.
  destruct (d_dir (e_disk e) !! manifestFilename) as [ino|].
  - rewrite file_ReadAll_quiet by done. unfold ignore. rewrite file_Close_quiet by done.
    eexists. split; [reflexivity|done].
  - eexists. split; [reflexivity|done].
Qed.

(** What a manifest write leaves behind, in terms of what a reader then sees. *)
Lemma writeManifest_outcome ids a e r e' :
  disk_ok (e_disk e) → Forall is_u32 ids → writeManifest ids a e = (r, e') →
  match r with
  | Ok _ => manifest_of (e_disk e') = Ok (canonical ids, a)
  | Err err => if errors_Is err ErrManifestPublishedButUncertain
               then manifest_of (e_disk e') = Ok (canonical ids, a)
               else manifest_of (e_disk e') = manifest_of (e_disk e)
  end.
Proof.
  intros Hd Hids H. apply writeManifest_spec in H as [F H]; [|done]. destruct r as [[]|err].
  - destruct H as (Ha & (ino & Hi & _ & Hdat & _) & _). apply manifest_of_text; [|done..].
    unfold read_file. by rewrite Hi, <- Hdat.
  - destruct (errors_Is err _).
    + destruct H as (Ha & H & _). by apply manifest_of_text.
    + destruct H as [F' _]. unfold manifest_of. rewrite (framed_read _ _ _ _ F'); [done|].
      apply not_eq_sym, manifest_names_ne.
Qed.

(** ** Properties of the manifest *)

(** Writing and reading the manifest are inverse.  Without faults,
    [writeManifest] on any list of ids that contains the active one succeeds,
    and [readManifest] (through the JSON text and every check) then returns
    the ids sorted, without duplicates and with none lost, and the active. *)
Theorem manifest_roundtrip ids a e :
  disk_ok (e_disk e) → quiet e → Forall is_u32 ids → a ∈ ids →
  ∃ e1 e2 live, writeManifest ids a e = (Ok tt, e1) ∧ readManifest e1 = (Ok (live, a), e2)
    ∧ strictly_ascending live = true ∧ ∀ x, x ∈ live ↔ x ∈ ids.
Proof.
  intros Hd Hq Hids Ha. destruct (writeManifest_quiet ids a e Hd Hq Ha) as (e1 & H1 & Hq1).
  pose proof (writeManifest_outcome _ _ _ _ _ Hd Hids H1) as Hm. cbn in Hm.
  destruct (readManifest_quiet e1 Hq1) as (e2 & H2 & _). rewrite Hm in H2.
  exists e1, e2, (canonical ids). split; [done|]. split; [done|].
  split; [apply canonical_ascending|]. intros x. apply elem_of_canonical.
Qed.

Lemma empty_disk_ok : disk_ok empty_disk.
Proof. split; intros *; cbn; [set_solver|by rewrite lookup_empty|by rewrite lookup_empty]. Qed.

Lemma manifest_roundtrip_witness :
  ∃ e1 e2 live, writeManifest [7; 0; 3; 7] 3 (mkEnv empty_disk [] []) = (Ok tt, e1)
    ∧ readManifest e1 = (Ok (live, 3), e2)
    ∧ strictly_ascending live = true ∧ ∀ x, x ∈ live ↔ x ∈ [7; 0; 3; 7].
Proof.
  apply (manifest_roundtrip [7; 0; 3; 7] 3 (mkEnv empty_disk [] []));
    [apply empty_disk_ok|done|decided|decided].
Defined.

(** C25: a manifest write is atomic and reports what happened.  Whichever calls
    fail, no other file is touched, and afterwards a reader sees either exactly
    what it saw before, and the error is not [ErrManifestPublishedButUncertain],
    or the new manifest, and the write either succeeded with the file and its
    name durable or failed with [ErrManifestPublishedButUncertain]. *)
Theorem writeManifest_atomic ids a e r e' :
  disk_ok (e_disk e) → Forall is_u32 ids → writeManifest ids a e = (r, e') →
  (∀ n, not_manifest n → read_file (e_disk e') n = read_file (e_disk e) n) ∧
  ((∃ err, r = Err err ∧ errors_Is err ErrManifestPublishedButUncertain = false
      ∧ manifest_of (e_disk e') = manifest_of (e_disk e)) ∨
   (manifest_of (e_disk e') = Ok (canonical ids, a)
    ∧ match r with
      | Ok _ => durable_file (e_disk e') manifestFilename (manifest_text (canonical ids) a)
      | Err err => errors_Is err ErrManifestPublishedButUncertain = true
      end)).
Proof.
  intros Hd Hids H. pose proof (writeManifest_outcome _ _ _ _ _ Hd Hids H) as Hm.
  apply writeManifest_spec in H as [F H]; [|done].
  split; [intros n Hn; by eapply framed_read|]. destruct r as [[]|err].
  - right. split; [done|]. apply H.
  - destruct (errors_Is err _) eqn:E; [by right|left]. by exists err.
Qed.

(** The directory fsync fails after the rename. *)
Lemma writeManifest_atomic_witness :
  let e := mkEnv empty_disk [None; None; None; None; None; None; Some 0] [] in
  let p := writeManifest [1; 0] 0 e in
  (∀ n, not_manifest n → read_file (e_disk p.2) n = read_file (e_disk e) n) ∧
  ((∃ err, p.1 = Err err ∧ errors_Is err ErrManifestPublishedButUncertain = false
      ∧ manifest_of (e_disk p.2) = manifest_of (e_disk e)) ∨
   (manifest_of (e_disk p.2) = Ok (canonical [1; 0], 0)
    ∧ match p.1 with
      | Ok _ => durable_file (e_disk p.2) manifestFilename (manifest_text (canonical [1; 0]) 0)
      | Err err => errors_Is err ErrManifestPublishedButUncertain = true
      end)).
Proof.
  intros e p. apply (writeManifest_atomic [1; 0] 0 e p.1 p.2);
    [apply empty_disk_ok|decided|apply surjective_pairing].
Defined.

(** C26: the live set is never guessed.  When [reconcileManifest] succeeds it
    has either found no manifest and adopts the directory listing, or returns
    the manifest's own list and active id, every listed segment being on disk;
    and it fails when a listed segment's file is missing. *)
Theorem reconcileManifest_spec onDisk e r e' :
  reconcileManifest onDisk e = (r, e') →
  e_disk e' = e_disk e ∧
  match r with
  | Ok (live, _, true) => live = onDisk ∧ read_file (e_disk e) manifestFilename = None
  | Ok (live, act, false) => manifest_of (e_disk e) = Ok (live, act)
      ∧ strictly_ascending live = true ∧ act ∈ live ∧ ∀ id, id ∈ live → id ∈ onDisk
  | Err _ => quiet e →
      (∃ live act id, manifest_of (e_disk e) = Ok (live, act) ∧ id ∈ live ∧ id ∉ onDisk)
      ∨ ∃ err, manifest_of (e_disk e) = Err err
  end.
Proof.
  unfold reconcileManifest. destruct (readManifest e) as [r1 e1] eqn:E1.
  pose proof (readManifest_spec _ _ _ E1) as [D1 Hr].
  assert (Hq : quiet e → r1 = manifest_of (e_disk e)).
  { intros H. destruct (readManifest_quiet e H) as (e2 & E2 & _). congruence. }
  destruct r1 as [[live act]|err].
  - destruct Hr as [Hr|[f [=]]]. intros [= <- <-]. split; [done|].
    assert (Hc : strictly_ascending live = true ∧ act ∈ live).
    { unfold manifest_of in Hr. destruct (read_file _ _) as [data|]; [|done].
      destruct (json_Unmarshal data) as [m|]; [|done]. unfold manifest_checks in Hr.
      destruct (negb (Version m =? _)); [done|].
      destruct (strictly_ascending (Segments m)) eqn:Ha; [|done]. cbn in Hr.
      destruct (Active m) as [a|]; [|done]. destruct (existsb _ _) eqn:Hx; [|done].
      injection Hr as -> ->. split; [done|]. by apply existsb_elem_of. }
    destruct (forallb _ live) eqn:Hf.
    + split; [done|]. split; [apply Hc|]. split; [apply Hc|]. intros id Hid.
      rewrite forallb_forall in Hf. apply existsb_elem_of, Hf. by apply list_elem_of_In.
    + intros _. left. exists live, act.
      assert (¬ Forall (λ id, id ∈ onDisk) live) as Hn.
      { intros Hall. apply not_true_iff_false in Hf. apply Hf, forallb_forall. intros x Hx.
        apply existsb_elem_of. rewrite Forall_forall in Hall. apply Hall. by apply list_elem_of_In. }
      apply not_Forall_Exists in Hn; [|apply _]. apply Exists_exists in Hn as (id & ? & ?). by exists id.
  - destruct (errors_Is err errManifestMissing) eqn:Hm.
    + intros [= <- <-]. split; [done|]. split; [done|].
      destruct Hr as [Hr|[f [= ->]]]; [|done]. unfold manifest_of in Hr.
      destruct (read_file _ _) as [data|]; [exfalso|done].
      destruct (json_Unmarshal data) as [m|e0] eqn:Hj.
      * unfold manifest_checks in Hr. repeat (case_match; try done); by simplify_eq.
      * apply json_Unmarshal_Err in Hj. by simplify_eq.
    + intros [= <- <-]. split; [done|]. intros H. right. exists err. by rewrite <- Hq.
Qed.

Lemma reconcileManifest_spec_witness :
  let p := reconcileManifest [0; 2] (mkEnv empty_disk [] []) in
  e_disk p.2 = empty_disk ∧
  match p.1 with
  | Ok (live, _, true) => live = [0; 2] ∧ read_file empty_disk manifestFilename = None
  | Ok (live, act, false) => manifest_of empty_disk = Ok (live, act)
      ∧ strictly_ascending live = true ∧ act ∈ live ∧ ∀ id, id ∈ live → id ∈ [0; 2]
  | Err _ => quiet (mkEnv empty_disk [] []) →
      (∃ live act id, manifest_of empty_disk = Ok (live, act) ∧ id ∈ live ∧ id ∉ [0; 2])
      ∨ ∃ err, manifest_of empty_disk = Err err
  end.
Proof.
  intros p. apply (reconcileManifest_spec [0; 2] (mkEnv empty_disk [] []) p.1 p.2). apply surjective_pairing.
Defined.
