(* ===== verification/HintFile.v ===== *)
(** * Hint sidecars on disk (the file operations of src/internal/engine/hint.go)

    [writeHintFile], [readHintFile] and [removeHintFile] around the serialiser
    and the parser of Hint. *)
From S2P Require Import Prelude Hint Storage Frame Names Publish.

Definition errHintMissing : string := "hint: not present".

Definition hintTmpname (id : Z) : bytes := hintFilename id ++ String.list_byte_of_string ".tmp".

Definition hint_msgs : publish_msgs :=
  mkMsgs "hint: open tmp: %w" "hint: write tmp: %w" "hint: fsync tmp: %w"
    "hint: close tmp: %w" "hint: rename: %w".

Definition writeHintFile (segmentID : Z) (entries : list hintEntry) (e : env) : result unit * env :=
  match hint_serialise entries with
  | Err err => (Err err, e)
  | Ok buf =>
    (do! _ := publish hint_msgs (hintTmpname segmentID) (hintFilename segmentID) buf in
     do! _ := on_error dir_Open Datatypes.id (λ e, EWrap "hint: open dir for fsync: %w" [e]) in
     do! _ := on_error dir_Sync (ignore file_Close) (λ e, EWrap "hint: fsync dir: %w" [e]) in
     file_Close) e
  end.

Definition readHintFile (segmentID : Z) (e : env) : result (list hintEntry) * env :=
  match os_open (hintFilename segmentID) e with
  | (Err err, e) =>
      if errors_Is err os_ErrNotExist then (Err (ESentinel errHintMissing), e)
      else (Err (EWrap "hint: open: %w" [err]), e)
  | (Ok f, e) =>
      let (r, e) := file_ReadAll f e in
      let e := ignore file_Close e in
      (match r with
       | Err err => Err (EWrap "hint: read: %w" [err])
       | Ok data => hint_parse data
       end, e)
  end.

Definition removeHintFile (segmentID : Z) (e : env) : result unit * env :=
  match os_Remove (hintFilename segmentID) e with
  | (Err err, e) =>
      if errors_Is err os_ErrNotExist then (Ok tt, e) else (Err (EWrap "hint: remove: %w" [err]), e)
  | (Ok _, e) => (Ok tt, e)
  end.

(** ** Lemmas *)

Lemma hintTmpname_ne id : hintTmpname id ≠ hintFilename id.
Proof.
  intros E. apply (f_equal length) in E. unfold hintTmpname in E. rewrite length_app in E. cbn in E. lia.
Qed.

Definition not_hint (id : Z) (n : bytes) : Prop := n ≠ hintTmpname id ∧ n ≠ hintFilename id.

Lemma Ext_hintTmpname id : filepath_Ext (hintTmpname id) = String.list_byte_of_string ".tmp".
Proof.
  unfold hintTmpname, hintFilename. rewrite <- app_assoc.
  pose proof (decimal_digits 10 id) as H. induction H as [|b l Hb _ IH]; [done|].
  cbn [app filepath_Ext]. rewrite IH. done.
Qed.
Lemma segment_not_hint_file id id' : not_hint id (segmentFilename id').
Proof.
  split; [|apply segment_not_hint]. intros E. apply (f_equal filepath_Ext) in E.
  rewrite Ext_hintTmpname, Ext_segmentFilename in E. done.
Qed.

Lemma writeHintFile_spec id es e r e' :
  disk_ok (e_disk e) → writeHintFile id es e = (r, e') →
  framed (not_hint id) (e_disk e) (e_disk e') ∧
  (is_ok r → ∃ buf i, hint_serialise es = Ok buf ∧ d_dir (e_disk e') !! hintFilename id = Some i
     ∧ file_data (e_disk e') i = buf ∧ file_synced (e_disk e') i = buf
     ∧ d_sdir (e_disk e') = d_dir (e_disk e')).
Proof.
  intros Hd. unfold writeHintFile. destruct (hint_serialise es) as [buf|err] eqn:Eb.
  2: { intros [= <- <-]. split; [by apply framed_refl|done]. }
  unfold ebind at 1. destruct (publish _ _ _ _ e) as [r1 e1] eqn:E1.
  apply publish_spec in E1 as [S1 E1]; [|apply hintTmpname_ne|done].
  destruct r1 as [[]|err].
  2: { destruct E1 as [F _]. intros [= <- <-]. split; [|done].
       eapply framed_weaken; [done|]. by intros n []. }
  destruct E1 as (F & _ & ino & Hi & Hdat & Hsyn). intros H.
  assert (D : (e_disk e' = e_disk e1 ∧ ¬ is_ok r) ∨ e_disk e' = sync_dir (e_disk e1)).
  { revert H. unfold ebind, on_error.
    destruct (dir_Open e1) as [r2 e2] eqn:E2. apply dir_Open_inv in E2 as [D2 [->| ->]].
    2: { intros [= <- <-]. auto. }
    destruct (dir_Sync e2) as [r3 e3] eqn:E3. apply dir_Sync_inv in E3 as [[-> D3]|[-> D3]].
    2: { intros [= <- <-]. left. rewrite ignore_Close_disk, D3. auto. }
    intros H. apply file_Close_inv in H as [D4 _]. right. rewrite D4, D3, D2. auto. }
  assert (F2 : framed (not_hint id) (e_disk e1) (e_disk e')).
  { destruct D as [[-> _]| ->]; [apply framed_refl|apply sync_dir_framed]; apply F. }
  split; [by eapply framed_trans|]. intros Hr. destruct D as [[_ []]|D]; [done|]. exists buf, ino. by rewrite D.
Qed.

Lemma writeHintFile_quiet id es buf e :
  disk_ok (e_disk e) → quiet e → hint_serialise es = Ok buf →
  ∃ e', writeHintFile id es e = (Ok tt, e') ∧ quiet e'.
Proof.
  intros Hd Hq Hb. unfold writeHintFile. rewrite Hb. unfold ebind at 1.
  edestruct publish_quiet as (e1 & -> & H1); [done..|].
  unfold ebind, on_error, dir_Open. rewrite sys_no_faults by done. cbn [fst snd e_disk].
  unfold dir_Sync. rewrite sys_no_faults by done. cbn [fst snd e_disk].
  unfold file_Close. rewrite sys_no_faults by done. by eexists.
Qed.

(** What recovery sees of a hint: nothing, a parse error, or entries. *)
Definition hint_of (d : disk) (id : Z) : result (list hintEntry) :=
  match read_file d (hintFilename id) with
  | None => Err (ESentinel errHintMissing)
  | Some data => hint_parse data
  end.

Lemma readHintFile_spec id e r e' :
  readHintFile id e = (r, e') →
  e_disk e' = e_disk e ∧ (r = hint_of (e_disk e) id ∨ ∃ f, r = Err (EWrap f [ESentinel EIO])).
Proof.
  unfold readHintFile, hint_of, read_file.
  destruct (os_open _ e) as [r1 e1] eqn:E1.
  apply os_open_inv in E1 as [D1 [(ino & -> & Hi)|[[-> Hi]| ->]]].
  - rewrite Hi. cbn [fmap option_fmap option_map].
    destruct (file_ReadAll ino e1) as [r2 e2] eqn:E2. apply file_ReadAll_inv in E2 as [D2 [->| ->]];
      intros [= <- <-]; rewrite ignore_Close_disk, D2, D1; eauto.
  - rewrite Hi. intros [= <- <-]. auto.
  - intros [= <- <-]. eauto.
Qed.

Lemma readHintFile_quiet id e :
  quiet e → ∃ e', readHintFile id e = (hint_of (e_disk e) id, e') ∧ quiet e' ∧ e_disk e' = e_disk e.
Proof.
  intros Hq. unfold readHintFile, hint_of, read_file. rewrite os_open_quiet by done.
  destruct (d_dir (e_disk e) !! hintFilename id) as [ino|].
  - rewrite file_ReadAll_quiet by done. unfold ignore. rewrite file_Close_quiet by done.
    by eexists.
  - by eexists.
Qed.

Lemma removeHintFile_framed (P : bytes → Prop) id e r e' :
  disk_ok (e_disk e) → ¬ P (hintFilename id) → removeHintFile id e = (r, e') →
  framed P (e_disk e) (e_disk e').
Proof.
  intros Hd HP. unfold removeHintFile. pose proof (ignore_Remove_framed P (hintFilename id) e Hd HP) as F.
  unfold ignore in F. destruct (os_Remove _ e) as [[]  e1]; [by intros [= <- <-]|].
  case_match; by intros [= <- <-].
Qed.

Lemma ignore_removeHint_framed (P : bytes → Prop) id e :
  disk_ok (e_disk e) → ¬ P (hintFilename id) → framed P (e_disk e) (e_disk (ignore (removeHintFile id) e)).
Proof.
  intros Hd HP. unfold ignore. destruct (removeHintFile id e) eqn:E. by eapply removeHintFile_framed.
Qed.

Lemma removeHint_quiet id e : quiet e → quiet (ignore (removeHintFile id) e).
Proof.
  intros Hq. unfold ignore, removeHintFile, os_Remove. rewrite sys_no_faults by done.
  destruct (d_dir (e_disk e) !! hintFilename id); [done|]. cbn [fst snd]. by case_match.
Qed.
