(* ===== verification/Log.v ===== *)
(** * The log as a sequence of logical records

    The reference view of a segment file: the records it holds, the bytes they
    are, and the index updates they stand for.  Both the writer (which applies
    an update as it appends) and recovery (which replays them, gated by
    timestamps) are stated against it. *)
From S2P Require Import Prelude Crc32c LogRecord Keydir.

(** A PUT, a TOMBSTONE (whose value bytes a reader skips), or a BATCH. *)
Inductive logrec :=
| LPut (ts : Z) (key value : bytes)
| LDel (ts : Z) (key skipped : bytes)
| LBatch (ts : Z) (entries : list BatchEntry).

Definition log_ts (l : logrec) : Z :=
  match l with LPut ts _ _ | LDel ts _ _ | LBatch ts _ => ts end.

Definition log_image (l : logrec) : bytes :=
  match l with
  | LPut ts k v => record_image ts recordFlagPut (zlen k) (zlen v) (k ++ v)
  | LDel ts k v => record_image ts recordFlagTombstone (zlen k) (zlen v) (k ++ v)
  | LBatch ts es => batch_image ts es
  end.

Definition log_ok (l : logrec) : Prop :=
  is_i64 (log_ts l) ∧
  match l with
  | LPut _ k v | LDel _ k v => key_ok k ∧ value_ok v
  | LBatch _ es => batch_ok es
  end.
#[global] Instance log_ok_dec l : Decision (log_ok l).
Proof. unfold log_ok. destruct l; apply _. Defined.

Definition log_images (ls : list logrec) : bytes := concat (log_image <$> ls).

(** One index update: a key, the record's timestamp, and the new location or
    the removal. *)
Record update := mkUpdate {
  u_key : bytes;
  u_ts : Z;
  u_entry : option keydirEntry;
}.

Definition batch_update (fid ts : Z) (d : batchEntryDecoded) : update :=
  mkUpdate (bd_key d) ts
    (if bd_flag d =? recordFlagPut
     then Some (mkEntry fid (bd_valuePos d) (to_u32 (zlen (bd_value d))) ts) else None).

(** The updates of a record that starts at offset [start] of segment [fid]. *)
Definition log_updates (fid start : Z) (l : logrec) : list update :=
  match l with
  | LPut ts k v => [mkUpdate k ts (Some (mkEntry fid (start + (recordHeaderSize + zlen k)) (to_u32 (zlen v)) ts))]
  | LDel ts k _ => [mkUpdate k ts None]
  | LBatch ts es => batch_update fid ts <$> decoded_entries es start 4
  end.

Fixpoint logs_updates (fid start : Z) (ls : list logrec) : list update :=
  match ls with
  | [] => []
  | l :: ls' => log_updates fid start l ++ logs_updates fid (start + zlen (log_image l)) ls'
  end.

(** How the writer applies an update, and how recovery does. *)
Definition write_update (kd : keydir) (u : update) : keydir :=
  match u_entry u with
  | Some e => <[u_key u := e]> kd
  | None => base.delete (u_key u) kd
  end.

Definition replay_update (kd : keydir) (u : update) : keydir :=
  match u_entry u with
  | Some e => putIfNewer kd (u_key u) e
  | None => match kd !! u_key u with
            | Some existing => if tstamp existing <=? u_ts u then base.delete (u_key u) kd else kd
            | None => kd
            end
  end.

Definition max_ts (last : Z) (ls : list logrec) : Z := foldl (λ m l, Z.max m (log_ts l)) last ls.

(** ** Lemmas *)

Lemma log_images_cons l ls : log_images (l :: ls) = log_image l ++ log_images ls.
Proof. done. Qed.
Lemma log_images_app ls ls' : log_images (ls ++ ls') = log_images ls ++ log_images ls'.
Proof. unfold log_images. by rewrite fmap_app, concat_app. Qed.

Lemma logs_updates_app fid start ls ls' :
  logs_updates fid start (ls ++ ls')
  = logs_updates fid start ls ++ logs_updates fid (start + zlen (log_images ls)) ls'.
Proof.
  revert start. induction ls as [|l ls IH]; intros start; cbn [app logs_updates].
  - unfold log_images. cbn. by rewrite Z.add_0_r.
  - rewrite IH, log_images_cons, zlen_app, <- app_assoc, Z.add_assoc. done.
Qed.

Lemma log_image_nonempty l : 21 <= zlen (log_image l).
Proof. destruct l; unfold log_image, batch_image; zl. Qed.

(** Header fields of an image. *)
Definition log_flag (l : logrec) : Z :=
  match l with
  | LPut _ _ _ => recordFlagPut
  | LDel _ _ _ => recordFlagTombstone
  | LBatch _ _ => recordFlagBatch
  end.
Definition log_klen (l : logrec) : Z :=
  match l with LPut _ k _ | LDel _ k _ => zlen k | LBatch _ _ => 0 end.
Definition log_vlen (l : logrec) : Z :=
  match l with LPut _ _ v | LDel _ _ v => zlen v | LBatch _ es => zlen (batch_body es) end.
Definition log_body (l : logrec) : bytes :=
  match l with LPut _ k v | LDel _ k v => k ++ v | LBatch _ es => batch_body es end.

Lemma log_image_eq l :
  log_image l = record_image (log_ts l) (log_flag l) (log_klen l) (log_vlen l) (log_body l).
Proof. by destruct l. Qed.
Lemma log_body_len l : zlen (log_body l) = log_klen l + log_vlen l.
Proof. destruct l; cbn; zl. Qed.
Lemma log_header_ok l : log_ok l → header_ok (log_flag l) (log_klen l) (log_vlen l) ∧ 0 <= log_flag l < 256.
Proof.
  intros [_ H]. destruct l; cbn; consts.
  - destruct H. split; [right; zl|lia].
  - destruct H. split; [right; zl|lia].
  - destruct H as (_ & _ & H). revert H. unfold batch_body. consts. intros. split; [left; zl|lia].
Qed.

Lemma log_ok_i64 l : log_ok l → is_i64 (log_ts l).
Proof. by intros []. Qed.

(** Where the bytes of an update's value are, in a file that holds the record. *)
Definition entry_value_in (file : bytes) (e : keydirEntry) : bytes :=
  slice file (valuePos e) (valuePos e + valueLen e).

(** An entry that lies within the first [size] bytes of a file. *)
Definition entry_in (size : Z) (e : keydirEntry) : Prop :=
  0 <= valuePos e ∧ 0 <= valueLen e ∧ valuePos e + valueLen e <= size.

(** The value an update writes. *)
Definition log_values (l : logrec) : list (option bytes) :=
  match l with
  | LPut _ _ v => [Some v]
  | LDel _ _ _ => [None]
  | LBatch _ es => (λ e, if be_Delete e then None else Some (be_Value e)) <$> es
  end.
Definition log_keys (l : logrec) : list bytes :=
  match l with LPut _ k _ | LDel _ k _ => [k] | LBatch _ es => be_Key <$> es end.

(** What an update says, as seen in the file: the location holds the value. *)
Definition update_spec (file : bytes) (fid lo hi ts : Z) (k : bytes) (v : option bytes) (u : update) : Prop :=
  u_key u = k ∧ u_ts u = ts ∧
  match v, u_entry u with
  | Some v, Some e => fileID e = fid ∧ tstamp e = ts ∧ lo <= valuePos e
      ∧ entry_in hi e ∧ entry_value_in file e = v
  | None, None => True
  | _, _ => False
  end.

Lemma u32_len v : value_ok v → to_u32 (zlen v) = zlen v.
Proof. unfold value_ok. consts. intros. apply to_u32_small. zl. Qed.

Lemma log_updates_spec file pre l post fid :
  log_ok l → file = pre ++ log_image l ++ post →
  Forall2 (λ kv u, update_spec file fid (zlen pre) (zlen pre + zlen (log_image l)) (log_ts l) kv.1 kv.2 u)
    (zip (log_keys l) (log_values l)) (log_updates fid (zlen pre) l).
Proof.
  intros [_ Hok] ->. destruct l as [ts k v|ts k v|ts es]; cbn [log_keys log_values log_updates zip zip_with].
  - destruct Hok as [Hk Hv]. constructor; [|constructor].
    split; [done|]. split; [done|]. cbn [u_entry snd fst]. split; [done|]. split; [done|].
    unfold entry_in, entry_value_in. cbn [valuePos valueLen]. rewrite (u32_len _ Hv).
    unfold log_image. rewrite zlen_record_image. consts. split; [zl|]. split; [zl|].
    unfold record_image, header_tail. rewrite <- !app_assoc. by fields.
  - constructor; [|constructor]. done.
  - destruct Hok as (Hes & _ & _).
    assert (Hv : Forall (λ e, value_ok (entry_value e)) es).
    { eapply Forall_impl; [done|]. intros e He. apply (entry_image_size e He). }
    assert (Hpos : Forall (λ d, slice (pre ++ batch_image ts es ++ post) (bd_valuePos d) (bd_valuePos d + zlen (bd_value d)) = bd_value d
               ∧ zlen pre <= bd_valuePos d
               ∧ bd_valuePos d + zlen (bd_value d) <= zlen pre + zlen (batch_image ts es)) (decoded_entries es (zlen pre) 4)).
    { eapply Forall_impl.
      - apply (decoded_entries_pos es (pre ++ batch_image ts es ++ post) (pre ++ header (crc32_Checksum (header_tail ts 2 0 (zlen (batch_body es)) ++ batch_body es))
                        ts 2 0 (zlen (batch_body es)) ++ le_put 4 (zlen es)) post); [done| |consts; zl|lia].
        unfold batch_image, record_image, header. unfold batch_body at 3. consts. by rewrite <- !app_assoc.
      - cbn beta. intros d (H1 & H2 & H3). split; [exact H1|]. split; [done|].
        revert H3. unfold batch_image. rewrite zlen_record_image. unfold batch_body. zl. }
    revert Hpos. cbn [log_image log_ts]. generalize (pre ++ batch_image ts es ++ post) as file.
    generalize (zlen (batch_image ts es)) as n. generalize 4 as off.
    clear Hes. induction Hv as [|e es Hv _ IH]; intros off n file Hpos; [constructor|].
    cbn [decoded_entries] in *. inversion Hpos as [|? ? [H1 [H2 H3]] Hpos']; subst.
    cbn [fmap list_fmap zip zip_with]. constructor; [|by apply IH].
    split; [done|]. split; [done|]. unfold batch_update. cbn [bd_flag bd_value bd_valuePos] in *.
    unfold entry_flag, entry_value in *. cbn [fst snd].
    destruct (be_Delete e); consts; cbn [Z.eqb Pos.eqb u_entry]; [done|].
    split; [done|]. split; [done|]. unfold entry_in, entry_value_in. cbn [valuePos valueLen].
    rewrite to_u32_small by (consts; zl). split; [done|]. split; [|done]. split; [|split; [zl|done]].
    pose proof (zlen_nonneg pre). lia.
Qed.
