(* ===== verification/Recovery.v ===== *)
(** * Recovery (src/internal/engine/recovery.go)

    The segment reader, the scan of one segment with its torn-tail truncation,
    the hint fast path, and the replay of all segments in id order.  The parts
    of [DB] these touch are passed explicitly: the index [kd] and [lastTstamp]. *)
From S2P Require Import Prelude Crc32c LogRecord Keydir Hint Storage Frame Names Publish HintFile Log.

(** ** The sequential reader *)

Record segmentSequentialReader := mkReader {
  rd_seg : segment;
  rd_off : Z;
}.

(** The bytes a pread of [n] at [off] returns: fewer than [n] at end of file. *)
Definition file_Pread (ino : N) (n off : Z) : env → result bytes * env :=
  sys (λ d, (Ok (slice (file_data d ino) off (off + n)), d)) no_effect.

(** [Read(p)] with [len p = n > 0]: bytes, error, and the reader after it. *)
Definition reader_Read (r : segmentSequentialReader) (n : Z) (e : env)
    : bytes * option error * segmentSequentialReader * env :=
  let segSize := s_size (rd_seg r) in
  if segSize <=? rd_off r then ([], Some (ESentinel io_EOF), r, e)
  else
    let remaining := segSize - rd_off r in
    let n := if remaining <? n then remaining else n in
    match file_Pread (s_file (rd_seg r)) n (rd_off r) e with
    | (Err err, e) => ([], Some err, r, e)
    | (Ok p, e) =>
        let r := mkReader (rd_seg r) (rd_off r + zlen p) in
        let err := if zlen p <? n then if 0 <? zlen p then None else Some (ESentinel io_EOF) else None in
        (p, err, r, e)
    end.

(** The loop of [io.ReadFull] on it, with [acc] read so far; since a pread is
    short only at the end of the file, a third turn never happens. *)
Fixpoint reader_loop (fuel : nat) (r : segmentSequentialReader) (n : Z) (acc : bytes) (e : env)
    : bytes * option error * segmentSequentialReader * env :=
  if n <=? zlen acc then (acc, None, r, e)
  else match fuel with
  | O => (acc, Some (ESentinel fuel_exhausted), r, e)
  | S fuel' =>
    match reader_Read r (n - zlen acc) e with
    | (p, None, r, e) => reader_loop fuel' r n (acc ++ p) e
    | (p, Some err, r, e) =>
        let acc := acc ++ p in
        if n <=? zlen acc then (acc, None, r, e)
        else if (0 <? zlen acc) && errors_Is err io_EOF
        then (acc, Some (ESentinel io_ErrUnexpectedEOF), r, e)
        else (acc, Some err, r, e)
    end
  end.
Definition reader_ReadFull (r : segmentSequentialReader) (n : Z) (e : env) :=
  reader_loop 2 r n [] e.

(** ** Applying records *)

Definition applyRecordOnRecovery (kd : keydir) (fileID recordStart : Z) (rec : record) : keydir :=
  if rec_flag rec =? recordFlagPut then
    putIfNewer kd (rec_key rec)
      (mkEntry fileID (recordStart + (recordHeaderSize + zlen (rec_key rec)))
         (to_u32 (zlen (rec_value rec))) (rec_tstamp rec))
  else if rec_flag rec =? recordFlagTombstone then
    match get kd (rec_key rec) with
    | None => delete kd (rec_key rec)
    | Some existing =>
        if tstamp existing <=? rec_tstamp rec then delete kd (rec_key rec) else kd
    end
  else kd.

Definition applyBatchEntryOnRecovery (kd : keydir) (fileID valuePos : Z) (rec : record) : keydir :=
  if rec_flag rec =? recordFlagPut then
    putIfNewer kd (rec_key rec)
      (mkEntry fileID valuePos (to_u32 (zlen (rec_value rec))) (rec_tstamp rec))
  else if rec_flag rec =? recordFlagTombstone then
    match get kd (rec_key rec) with
    | None => delete kd (rec_key rec)
    | Some existing =>
        if tstamp existing <=? rec_tstamp rec then delete kd (rec_key rec) else kd
    end
  else kd.

(** ** Scanning one segment *)

(** What one turn of the scan loop decides. *)
Inductive scan_step :=
| Stop (lastGoodOffset : Z)
| Next (kd : keydir) (lastTstamp : Z).

(** The checks of a header whose body lies within the file. *)
Definition scan_header_bad (flag keyLen valLen : Z) : option string :=
  if negb (flag =? recordFlagPut) && negb (flag =? recordFlagTombstone)
     && negb (flag =? recordFlagBatch)
  then Some "mid-segment unknown flag %d at offset %d"%string
  else if flag =? recordFlagBatch then
    if negb (keyLen =? 0) then Some "mid-segment batch record with key_len=%d at offset %d"%string
    else if valLen <? batchCountSize then Some "mid-segment batch body too short (%d) at offset %d"%string
    else if maxBatchBodyLen <? valLen then Some "mid-segment batch body too large (%d) at offset %d"%string
    else None
  else if (keyLen =? 0) || (maxKeyLen <? keyLen)
  then Some "mid-segment invalid key length %d at offset %d"%string
  else if maxValLen <? valLen then Some "mid-segment invalid value length %d at offset %d"%string
  else None.

(** The checksum test of a complete record, its decoding and application. *)
Definition scan_body (kd : keydir) (lastTstamp fileID recordStart : Z) (hdr body : bytes)
    : result (keydir * Z) :=
  let expectedCRC := le_get (slice hdr 0 4) in
  let tstamp := to_i64 (le_get (slice hdr 4 12)) in
  let flag := byte_at hdr 12 in
  let keyLen := le_get (slice hdr 13 17) in
  if negb (crc32_Checksum (slice_from hdr 4 ++ body) =? expectedCRC)
  then Err (EWrap "mid-segment CRC mismatch at offset %d: %w" [ESentinel errBadCRC])
  else
    let last := if lastTstamp <? tstamp then tstamp else lastTstamp in
    if flag =? recordFlagBatch then
      match decodeBatchBody body recordStart with
      | Err err => Err (EWrap "decode batch at offset %d: %w" [err])
      | Ok entries =>
        Ok (foldl (λ kd d, applyBatchEntryOnRecovery kd fileID (bd_valuePos d)
                             (mkRecord tstamp (bd_flag d) (bd_key d) (bd_value d))) kd entries, last)
      end
    else
      let rec := mkRecord tstamp flag (slice_to body keyLen)
                   (if flag =? recordFlagPut then slice_from body keyLen else []) in
      Ok (applyRecordOnRecovery kd fileID recordStart rec, last).

(** One turn of the loop, from the record boundary [rd_off r]. *)
Definition scan_record (allowTornTail : bool) (kd : keydir) (lastTstamp : Z)
    (r : segmentSequentialReader) (e : env) : result (scan_step * segmentSequentialReader) * env :=
  let seg := rd_seg r in
  let recordStart := rd_off r in
  match reader_ReadFull r recordHeaderSize e with
  | (hdr, Some err, r, e) =>
      let nh := zlen hdr in
      if errors_Is err io_EOF && (nh =? 0) then (Ok (Stop recordStart, r), e)
      else if errors_Is err io_ErrUnexpectedEOF || errors_Is err io_EOF then
        if negb allowTornTail then (Err (errorf "sealed segment %d has partial header at offset %d (read %d/%d bytes)"), e)
        else (Ok (Stop recordStart, r), e)
      else (Err (EWrap "read header at offset %d: %w" [err]), e)
  | (hdr, None, r, e) =>
    let flag := byte_at hdr 12 in
    let keyLen := le_get (slice hdr 13 17) in
    let valLen := le_get (slice hdr 17 21) in
    let bodyLen := keyLen + valLen in
    let segSize := s_size seg in
    if segSize <? recordStart + recordHeaderSize + bodyLen then
      if negb allowTornTail then (Err (errorf "sealed segment %d has record body past EOF at offset %d (need %d, have %d)"), e)
      else (Ok (Stop recordStart, r), e)
    else
      match scan_header_bad flag keyLen valLen with
      | Some msg => (Err (errorf msg), e)
      | None =>
        match reader_ReadFull r bodyLen e with
        | (_, Some err, r, e) => (Err (EWrap "read body at offset %d: %w" [err]), e)
        | (body, None, r, e) =>
          match scan_body kd lastTstamp (s_id seg) recordStart hdr body with
          | Err err => (Err err, e)
          | Ok (kd, lastTstamp) => (Ok (Next kd lastTstamp, r), e)
          end
        end
      end
  end.

Fixpoint scan_loop (fuel : nat) (allowTornTail : bool) (kd : keydir) (lastTstamp : Z)
    (r : segmentSequentialReader) (e : env) : result (keydir * Z * Z) * env :=
  match fuel with
  | O => (Err (ESentinel fuel_exhausted), e)
  | S fuel' =>
    match scan_record allowTornTail kd lastTstamp r e with
    | (Err err, e) => (Err err, e)
    | (Ok (Stop lastGoodOffset, _), e) => (Ok (kd, lastTstamp, lastGoodOffset), e)
    | (Ok (Next kd lastTstamp, r), e) => scan_loop fuel' allowTornTail kd lastTstamp r e
    end
  end.

(** Every turn that goes on consumes a header at least. *)
Definition scan_fuel (seg : segment) : nat := S (Z.to_nat (s_size seg)).

Definition recoverSegment (kd : keydir) (lastTstamp : Z) (seg : segment) (allowTornTail : bool)
    (e : env) : result (keydir * Z * segment) * env :=
  match scan_loop (scan_fuel seg) allowTornTail kd lastTstamp (mkReader seg 0) e with
  | (Err err, e) => (Err err, e)
  | (Ok (kd, lastTstamp, lastGoodOffset), e) =>
    if lastGoodOffset <? s_size seg then
      if negb allowTornTail then (Err (errorf "sealed segment %d unexpectedly has %d trailing bytes after last record"), e)
      else
        match file_Truncate (s_file seg) lastGoodOffset e with
        | (Err err, e) => (Err (EWrap "truncate segment %d to %d: %w" [err]), e)
        | (Ok _, e) =>
            (Ok (kd, lastTstamp, mkSegment (s_id seg) (s_file seg) (s_bw seg) lastGoodOffset), e)
        end
    else (Ok (kd, lastTstamp, seg), e)
  end.

(** ** The hint fast path *)

Definition hint_in_bounds (seg : segment) (h : hintEntry) : bool :=
  (he_valuePos h =? hintValuePosTombstone)
  || negb ((he_valuePos h <? 0) || (s_size seg <? he_valuePos h)
           || (s_size seg - he_valuePos h <? he_valueLen h)).

Definition apply_hint (seg : segment) (st : keydir * Z) (h : hintEntry) : keydir * Z :=
  let (kd, lastTstamp) := st in
  let kd :=
    if he_valuePos h =? hintValuePosTombstone then
      match get kd (he_key h) with
      | None => delete kd (he_key h)
      | Some existing => if tstamp existing <=? he_tstamp h then delete kd (he_key h) else kd
      end
    else putIfNewer kd (he_key h) (mkEntry (s_id seg) (he_valuePos h) (he_valueLen h) (he_tstamp h)) in
  (kd, if lastTstamp <? he_tstamp h then he_tstamp h else lastTstamp).

(** [(used, err)] is [Ok (Some state)], [Ok None] or [Err err]. *)
Definition tryRecoverFromHint (kd : keydir) (lastTstamp : Z) (seg : segment) (e : env)
    : result (option (keydir * Z)) * env :=
  match readHintFile (s_id seg) e with
  | (Err err, e) =>
      if errors_Is err errHintMissing then (Ok None, e) else (Err err, e)
  | (Ok entries, e) =>
      if forallb (hint_in_bounds seg) entries
      then (Ok (Some (foldl (apply_hint seg) (kd, lastTstamp) entries)), e)
      else (Err (errorf "hint entry %d refs offset %d (len %d) outside segment size %d"), e)
  end.

(** ** All segments, in ascending id order *)

Definition recover_one (haveActive : bool) (activeID : Z) (kd : keydir) (lastTstamp : Z)
    (seg : segment) (e : env) : result (keydir * Z * segment) * env :=
  let isActive := haveActive && (s_id seg =? activeID) in
  let scan e :=
    match recoverSegment kd lastTstamp seg isActive e with
    | (Err err, e) => (Err (EWrap "recover segment %d: %w" [err]), e)
    | ok => ok
    end in
  if isActive then scan e
  else match tryRecoverFromHint kd lastTstamp seg e with
       | (Ok (Some (kd, lastTstamp)), e) => (Ok (kd, lastTstamp, seg), e)
       | (_, e) => scan e
       end.

Fixpoint recover_ids (haveActive : bool) (activeID : Z) (ids : list Z)
    (segments : gmap Z segment) (kd : keydir) (lastTstamp : Z) (e : env)
    : result (gmap Z segment * keydir * Z) * env :=
  match ids with
  | [] => (Ok (segments, kd, lastTstamp), e)
  | id :: ids' =>
    match segments !! id with
    | None => recover_ids haveActive activeID ids' segments kd lastTstamp e
    | Some seg =>
      match recover_one haveActive activeID kd lastTstamp seg e with
      | (Err err, e) => (Err err, e)
      | (Ok (kd, lastTstamp, seg), e) =>
          recover_ids haveActive activeID ids' (<[id := seg]> segments) kd lastTstamp e
      end
    end
  end.

Definition recover (haveActive : bool) (activeID : Z) (segments : gmap Z segment)
    (kd : keydir) (lastTstamp : Z) (e : env) : result (gmap Z segment * keydir * Z) * env :=
  recover_ids haveActive activeID (sort_ids (elements (dom segments))) segments kd lastTstamp e.

(** ** Lemmas: the reader *)

(** A segment whose size is its file's. *)
Definition seg_sized (seg : segment) (d : disk) : Prop := s_size seg = zlen (file_data d (s_file seg)).

Lemma file_Pread_inv ino n off e r e' :
  file_Pread ino n off e = (r, e') →
  e_disk e' = e_disk e ∧
  (r = Ok (slice (file_data (e_disk e) ino) off (off + n)) ∨ r = Err (ESentinel EIO)).
Proof. by intros [[-> ->]|[-> [k ->]]]%sys_inv; eauto. Qed.
Lemma file_Pread_quiet ino n off e :
  quiet e → file_Pread ino n off e
            = (Ok (slice (file_data (e_disk e) ino) off (off + n)), mkEnv (e_disk e) [] (e_clock e)).
Proof. intros. by apply sys_no_faults. Qed.

(** The reader is [io.ReadFull] on the rest of the file, up to I/O errors. *)
Lemma reader_ReadFull_spec r n e bs err r' e' :
  seg_sized (rd_seg r) (e_disk e) → 0 <= rd_off r <= s_size (rd_seg r) →
  reader_ReadFull r n e = (bs, err, r', e') →
  let rest := slice_from (file_data (e_disk e) (s_file (rd_seg r))) (rd_off r) in
  e_disk e' = e_disk e ∧ (quiet e → quiet e') ∧
  ((¬ quiet e ∧ err = Some (ESentinel EIO)) ∨
   (r' = mkReader (rd_seg r) (rd_off r + zlen bs) ∧ ∃ rest', io_ReadFull n rest = (bs, err, rest'))).
Proof.
  intros Hs Ho. unfold reader_ReadFull. set (data := file_data _ _). set (seg := rd_seg r) in *.
  unfold seg_sized in Hs. fold data in Hs.
  assert (Hrest : zlen (slice_from data (rd_off r)) = zlen data - rd_off r) by (apply zlen_slice_from; lia).
  cbn [reader_loop]. rewrite zlen_nil. destruct (Z.leb_spec n 0) as [Hn|Hn].
  { intros [= <- <- <- <-]. split; [done|]. split; [done|]. right. rewrite zlen_nil, Z.add_0_r.
    split; [by destruct r|]. unfold io_ReadFull. destruct (Z.leb_spec n 0); [by eexists|lia]. }
  unfold reader_Read. fold seg. rewrite Z.sub_0_r.
  destruct (Z.leb_spec (s_size seg) (rd_off r)) as [He|He].
  { cbn [app]. rewrite zlen_nil. destruct (Z.leb_spec n 0); [lia|]. cbn [andb].
    intros [= <- <- <- <-]. split; [done|]. split; [done|]. right. rewrite zlen_nil, Z.add_0_r.
    split; [by destruct r|]. rewrite (zlen_0 (slice_from data (rd_off r))) by lia.
    rewrite ReadFull_short by (rewrite zlen_nil; lia). by eexists. }
  set (m := if s_size seg - rd_off r <? n then s_size seg - rd_off r else n).
  destruct (file_Pread (s_file seg) m (rd_off r) e) as [r1 e1] eqn:E1.
  assert (Hq1 : quiet e → quiet e1 ∧ r1 ≠ Err (ESentinel EIO)).
  { intros Hq. rewrite file_Pread_quiet in E1 by done. by injection E1 as <- <-. }
  apply file_Pread_inv in E1 as [D1 [->| ->]].
  2: { cbn [app]. rewrite zlen_nil. destruct (Z.leb_spec n 0); [lia|]. cbn [andb Z.ltb].
       intros [= <- <- <- <-]. split; [done|]. split; [naive_solver|]. left. split; [naive_solver|done]. }
  fold data.
  assert (Hm : 0 < m ∧ m <= s_size seg - rd_off r ∧ m <= n) by (unfold m; destruct (Z.ltb_spec (s_size seg - rd_off r) n); lia).
  assert (Hp : zlen (slice data (rd_off r) (rd_off r + m)) = m) by (rewrite zlen_slice by lia; lia).
  assert (Hpe : slice data (rd_off r) (rd_off r + m) = slice_to (slice_from data (rd_off r)) m).
  { rewrite slice_slice_from. f_equal. lia. }
  rewrite Hp, Z.ltb_irrefl. cbn [app]. rewrite Hp. unfold m in *. clear m.
  destruct (Z.ltb_spec (s_size seg - rd_off r) n) as [Hlt|Hge].
  - destruct (Z.leb_spec n (s_size seg - rd_off r)); [lia|].
    cbn [rd_seg rd_off]. destruct (Z.leb_spec (s_size seg) (rd_off r + (s_size seg - rd_off r))); [|lia].
    rewrite app_nil_r, Hp. destruct (Z.leb_spec n (s_size seg - rd_off r)); [lia|].
    destruct (Z.ltb_spec 0 (s_size seg - rd_off r)); [|lia]. cbn [andb].
    change (errors_Is (ESentinel io_EOF) io_EOF) with true. cbn iota.
    intros [= <- <- <- <-]. split; [done|]. split; [naive_solver|]. right. rewrite Hp.
    split; [done|]. rewrite Hpe, slice_to_all by lia.
    rewrite ReadFull_short by lia.
    destruct (slice_from data (rd_off r)); [rewrite zlen_nil in Hrest; lia|by eexists].
  - rewrite Z.leb_refl. intros [= <- <- <- <-]. split; [done|]. split; [naive_solver|]. right.
    rewrite Hp. split; [done|]. exists (slice_from (slice_from data (rd_off r)) n).
    rewrite <- (slice_to_from (slice_from data (rd_off r)) n) at 1. rewrite Hpe.
    apply ReadFull_app; [|lia]. rewrite zlen_slice_to; lia.
Qed.

(** ** Lemmas: one turn of the scan *)

(** What a crash in the middle of an append leaves: some bytes, but fewer than
    a header or fewer than the header announces. *)
Definition torn (tail : bytes) : Prop :=
  tail ≠ [] ∧
  (zlen tail < 21 ∨ zlen tail < 21 + le_get (slice tail 13 17) + le_get (slice tail 17 21)).

Lemma scan_header_bad_None flag klen vlen :
  0 <= klen → 0 <= vlen → scan_header_bad flag klen vlen = None ↔ header_ok flag klen vlen.
Proof.
  intros Hk Hv. unfold scan_header_bad, header_ok. consts. zcases; subst;
    (split; [intros; try discriminate; try lia | intros; try done; exfalso; lia]).
Qed.

Lemma zmax_if (a b : Z) : (if a <? b then b else a) = Z.max a b.
Proof. destruct (Z.ltb_spec a b); lia. Qed.

Lemma applyRecord_update kd fid start ts k v :
  applyRecordOnRecovery kd fid start (mkRecord ts recordFlagPut k v)
  = foldl replay_update kd (log_updates fid start (LPut ts k v)).
Proof. done. Qed.
Lemma applyTombstone_update kd fid start ts k v :
  applyRecordOnRecovery kd fid start (mkRecord ts recordFlagTombstone k [])
  = foldl replay_update kd (log_updates fid start (LDel ts k v)).
Proof.
  unfold applyRecordOnRecovery, get, delete. cbn. unfold replay_update. cbn.
  destruct (kd !! k) eqn:E; [done|]. by apply delete_id.
Qed.
Lemma applyBatch_update kd fid ts ds :
  Forall (λ d, (bd_flag d = recordFlagPut ∨ bd_flag d = recordFlagTombstone)) ds →
  foldl (λ kd d, applyBatchEntryOnRecovery kd fid (bd_valuePos d)
                   (mkRecord ts (bd_flag d) (bd_key d) (bd_value d))) kd ds
  = foldl replay_update kd (batch_update fid ts <$> ds).
Proof.
  intros H. revert kd. induction H as [|d ds Hd _ IH]; intros kd; [done|].
  cbn [fmap list_fmap foldl]. rewrite IH. f_equal.
  unfold applyBatchEntryOnRecovery, batch_update, replay_update, get, delete.
  cbn [rec_flag rec_key rec_value rec_tstamp u_entry u_key u_ts].
  destruct Hd as [-> | ->]; consts; cbn [Z.eqb Pos.eqb]; [done|].
  destruct (kd !! bd_key d) eqn:E; [done|]. by apply delete_id.
Qed.

Lemma decoded_entries_flags es start off :
  Forall (λ d, (bd_flag d = recordFlagPut ∨ bd_flag d = recordFlagTombstone)) (decoded_entries es start off).
Proof.
  revert off. induction es as [|e es IH]; intros off; constructor; [|done].
  cbn. unfold entry_flag. destruct (be_Delete e); auto.
Qed.

(** The header of an image, field by field. *)
Lemma image_header l hdr body :
  log_ok l → zlen hdr = 21 → hdr ++ body = log_image l →
  hdr = header (crc32_Checksum (header_tail (log_ts l) (log_flag l) (log_klen l) (log_vlen l) ++ log_body l))
          (log_ts l) (log_flag l) (log_klen l) (log_vlen l) ∧ body = log_body l.
Proof.
  intros Hok Hh E. rewrite log_image_eq in E. unfold record_image in E.
  apply app_inj_zlen in E; [done|zl].
Qed.

Lemma image_fields l c :
  log_ok l →
  let h := header c (log_ts l) (log_flag l) (log_klen l) (log_vlen l) in
  to_i64 (le_get (slice h 4 12)) = log_ts l ∧ byte_at h 12 = log_flag l
  ∧ le_get (slice h 13 17) = log_klen l ∧ le_get (slice h 17 21) = log_vlen l.
Proof.
  intros Hok h. destruct (log_header_ok l Hok) as [Hh Hf].
  unfold h. rewrite header_tstamp, header_flag, header_keyLen, header_valLen.
  rewrite to_i64_get_put by (by apply log_ok_i64). rewrite Z.mod_small by done.
  assert (0 <= log_klen l < 2 ^ 32 ∧ 0 <= log_vlen l < 2 ^ 32) by (revert Hh; consts; lia).
  by rewrite !le_get_put_small by (change (256 ^ Z.of_nat 4) with (2 ^ 32); lia).
Qed.

Lemma scan_body_spec kd last fid off hdr body :
  zlen hdr = 21 → zlen body = le_get (slice hdr 13 17) + le_get (slice hdr 17 21) →
  header_ok (byte_at hdr 12) (le_get (slice hdr 13 17)) (le_get (slice hdr 17 21)) →
  match scan_body kd last fid off hdr body with
  | Ok (kd', last') => ∃ l, log_ok l ∧ hdr ++ body = log_image l
      ∧ kd' = foldl replay_update kd (log_updates fid off l) ∧ last' = Z.max last (log_ts l)
  | Err _ => ∀ l, log_ok l → hdr ++ body ≠ log_image l
  end.
Proof.
  intros Hh Hb Hok. unfold scan_body. rewrite zmax_if.
  set (ts := to_i64 _). set (fl := byte_at hdr 12) in *.
  set (k := le_get (slice hdr 13 17)) in *. set (v := le_get (slice hdr 17 21)) in *.
  pose proof (header_eta hdr Hh) as Eta. fold ts fl k v in Eta.
  destruct (Z.eqb_spec (crc32_Checksum (slice_from hdr 4 ++ body)) (le_get (slice hdr 0 4))) as [Hc|Hc]; cbn [negb].
  2: { intros l Hl E. destruct (image_header l hdr body Hl Hh E) as [E1 E2]. apply Hc.
       rewrite E1, E2, header_from_4, header_crc. rewrite le_get_put_small; [done|]. apply Checksum_bound. }
  assert (Htail : slice_from hdr 4 = header_tail ts fl k v) by (rewrite Eta; apply header_from_4).
  assert (Himg : hdr ++ body = record_image ts fl k v body).
  { unfold record_image. rewrite <- Htail, Hc. f_equal. rewrite le_put_get.
    - rewrite <- (slice_to_from hdr 4) at 1. f_equal.
    - assert (zlen (slice hdr 0 4) = 4) by (rewrite zlen_slice by lia; lia). unfold zlen in *. lia. }
  assert (Hts : is_i64 ts) by apply to_i64_is.
  destruct Hok as [(Hfl & Hk & Hv)|(Hfl & Hk & Hv)].
  - rewrite Hfl. rewrite Z.eqb_refl.
    destruct (decodeBatchBody body off) as [ds|err] eqn:Ed.
    + apply decodeBatchBody_Ok in Ed as (es & Hes & Hn & -> & ->). exists (LBatch ts es).
      assert (Hv' : v = zlen (batch_body es)) by lia.
      split. { split; [done|]. split; [done|]. split; [done|]. lia. }
      split. { rewrite Himg, Hfl, Hk, Hv'. done. }
      split; [|done]. apply applyBatch_update, decoded_entries_flags.
    + intros l Hl E. destruct (image_header l hdr body Hl Hh E) as [E1 E2].
      pose proof (image_fields l) as HF. edestruct HF as (_ & F2 & _); [done|].
      rewrite <- E1 in F2. fold fl in F2. destruct l as [| |ts' es]; cbn in F2; rewrite Hfl in F2; [done..|].
      destruct Hl as [_ (Hes & Hn & _)]. cbn [log_body] in E2.
      rewrite E2, decodeBatchBody_image in Ed; done.
  - assert (Hne : (fl =? recordFlagBatch) = false) by (destruct Hfl as [-> | ->]; done).
    rewrite Hne. destruct (split_at body k) as (K & V & -> & HK); [lia|].
    rewrite slice_to_app, slice_from_app by done. rewrite zlen_app in Hb.
    assert (HV : zlen V = v) by lia.
    destruct Hfl as [Hfl|Hfl]; rewrite Hfl.
    + exists (LPut ts K V). split. { split; [done|]. unfold key_ok, value_ok. lia. }
      split. { rewrite Himg, Hfl. cbn. by rewrite HK, HV. }
      split; [|done]. by rewrite applyRecord_update.
    + exists (LDel ts K V). split. { split; [done|]. unfold key_ok, value_ok. lia. }
      split. { rewrite Himg, Hfl. cbn. by rewrite HK, HV. }
      split; [|done]. by rewrite (applyTombstone_update _ _ _ _ _ V).
Qed.

Lemma scan_body_Err kd last fid off hdr body err :
  scan_body kd last fid off hdr body = Err err → ∃ f es, err = EWrap f es.
Proof. unfold scan_body. repeat case_match; intros; simplify_eq; eauto. Qed.

(** The input of a turn that the scan accepts. *)
Definition scannable (allow : bool) (rest : bytes) : Prop :=
  rest = [] ∨ (allow = true ∧ torn rest) ∨ ∃ l tail, log_ok l ∧ rest = log_image l ++ tail.

Lemma EIO_not_EOF : errors_Is (ESentinel EIO) io_EOF = false ∧ errors_Is (ESentinel EIO) io_ErrUnexpectedEOF = false.
Proof. done. Qed.

Lemma image_not_torn l tail : log_ok l → ¬ torn (log_image l ++ tail).
Proof.
  intros Hl [_ Ht]. rewrite log_image_eq in Ht. unfold record_image in Ht. rewrite <- app_assoc in Ht.
  change (le_put 4 ?c ++ header_tail ?a ?b ?d ?e) with (header c a b d e) in Ht.
  set (c := crc32_Checksum _) in Ht.
  destruct (image_fields l c Hl) as (_ & _ & F3 & F4).
  rewrite !(slice_app_l (header _ _ _ _ _)) in Ht by zl. rewrite F3, F4 in Ht.
  pose proof (log_body_len l). revert Ht. zl.
Qed.

(** A prefix of [rest] as long as the header says. *)
Lemma image_prefix l tail hdr r2 :
  log_ok l → zlen hdr = 21 → hdr ++ r2 = log_image l ++ tail →
  le_get (slice hdr 13 17) = log_klen l ∧ le_get (slice hdr 17 21) = log_vlen l
  ∧ byte_at hdr 12 = log_flag l ∧ r2 = log_body l ++ tail ∧ hdr ++ log_body l = log_image l.
Proof.
  intros Hl Hh E. rewrite log_image_eq in *. unfold record_image in *.
  rewrite <- app_assoc in E. apply app_inj_zlen in E as [E1 E2]; [|zl]. subst hdr r2.
  change (le_put 4 ?c ++ header_tail ?a ?b ?d ?e) with (header c a b d e).
  destruct (image_fields l (crc32_Checksum (header_tail (log_ts l) (log_flag l) (log_klen l) (log_vlen l) ++ log_body l)) Hl)
    as (_ & F2 & F3 & F4). done.
Qed.

(** What the scan has to reject. *)
Lemma torn_unscannable rest : torn rest → ¬ scannable false rest.
Proof. intros Ht [E|[[? _]|(l & tail & Hl & ->)]]; [by destruct Ht|done|by apply (image_not_torn l tail Hl)]. Qed.

Section unscannable.
Context (allow : bool) (h r2 : bytes) (Hh : zlen h = 21) (Hnt : ¬ torn (h ++ r2)).
Let k : Z := le_get (slice h 13 17).
Let v : Z := le_get (slice h 17 21).

Lemma unscannable_intro :
  (∀ l tail, log_ok l → k = log_klen l → v = log_vlen l → byte_at h 12 = log_flag l →
     r2 = log_body l ++ tail → h ++ log_body l = log_image l → False) → ¬ scannable allow (h ++ r2).
Proof using All.
  intros H [[-> _]%app_eq_nil|[[_ ?]|(l & tail & Hl & Hi)]]; [by rewrite zlen_nil in Hh|done|].
  destruct (image_prefix l tail h r2 Hl Hh Hi) as (F1 & F2 & F3 & F4 & F5). by eapply H.
Qed.

Lemma header_unscannable msg : scan_header_bad (byte_at h 12) k v = Some msg → ¬ scannable allow (h ++ r2).
Proof using All.
  intros Hbad. apply unscannable_intro. intros l tail Hl F1 F2 F3 _ _.
  destruct (log_header_ok l Hl) as [Hok _]. pose proof (le_get_bound (slice h 13 17)). pose proof (le_get_bound (slice h 17 21)).
  apply scan_header_bad_None in Hok; [|subst k v; lia..]. congruence.
Qed.
End unscannable.

(** What the scan says of the record at [off]. *)
Definition scanned_record (allow : bool) (kd : keydir) (last : Z) (seg : segment) (off : Z) (e : env) (rest : bytes)
    (res : result (scan_step * segmentSequentialReader)) (e' : env) : Prop :=
  e_disk e' = e_disk e ∧ (quiet e → quiet e') ∧
  match res with
  | Ok (Stop g, _) => g = off ∧ (rest = [] ∨ (allow = true ∧ torn rest))
  | Ok (Next kd' last', r') => ∃ l tail, log_ok l ∧ rest = log_image l ++ tail
      ∧ kd' = foldl replay_update kd (log_updates (s_id seg) off l) ∧ last' = Z.max last (log_ts l)
      ∧ r' = mkReader seg (off + zlen (log_image l))
  | Err err => (¬ quiet e ∧ ∃ f, err = EWrap f [ESentinel EIO]) ∨
      (¬ scannable allow rest ∧ err ≠ ESentinel fuel_exhausted)
  end.

Lemma scanned_later allow kd last seg off (e e1 : env) rest res e' :
  e_disk e1 = e_disk e → (quiet e → quiet e1) →
  scanned_record allow kd last seg off e1 rest res e' → scanned_record allow kd last seg off e rest res e'.
Proof.
  intros D Q (D' & Q' & H). split; [congruence|]. split; [auto|]. destruct res as [[[] ?]|err]; [done|done|].
  destruct H as [[Hn H]|H]; [left|by right]. split; [auto|done].
Qed.

(** After a header that is in order and whose body is in the file. *)
Lemma scan_record_body allow kd last seg off (e : env) res e' pre h body tail :
  let k := le_get (slice h 13 17) in let v := le_get (slice h 17 21) in
  seg_sized seg (e_disk e) → file_data (e_disk e) (s_file seg) = pre ++ h ++ body ++ tail → zlen pre = off → zlen h = 21 →
  zlen body = k + v → header_ok (byte_at h 12) k v → ¬ torn (h ++ body ++ tail) →
  match reader_ReadFull (mkReader seg (off + 21)) (k + v) e with
  | (_, Some err, r, e) => (Err (EWrap "read body at offset %d: %w" [err]), e)
  | (body, None, r, e) =>
    match scan_body kd last (s_id seg) off h body with
    | Err err => (Err err, e)
    | Ok (kd, lastTstamp) => (Ok (Next kd lastTstamp, r), e)
    end
  end = (res, e') →
  scanned_record allow kd last seg off e (h ++ body ++ tail) res e'.
Proof.
  intros k v Hs Hd Hp Hh Hb Hbad Hnt. pose proof (zlen_nonneg pre).
  pose proof (zlen_nonneg body). pose proof (zlen_nonneg tail).
  assert (s_size seg = off + (21 + (k + v + zlen tail))) by (rewrite Hs, Hd, !zlen_app; lia).
  destruct (reader_ReadFull (mkReader seg (off + 21)) (k + v) e) as [[[bd err] r3] e3] eqn:E3.
  apply reader_ReadFull_spec in E3 as (D & Q3 & E3); [|done|cbn; lia].
  cbn [rd_seg rd_off] in E3. rewrite Hd, (app_assoc pre), slice_from_app in E3 by zl.
  destruct E3 as [[Hnq ->]|(-> & rest'' & E3)].
  { intros [= <- <-]. split; [done|]. split; [auto|]. left. split; [auto|]. eauto. }
  rewrite ReadFull_app in E3 by (revert Hbad; consts; lia). injection E3 as <- <- <-.
  pose proof (scan_body_spec kd last (s_id seg) off h body Hh Hb Hbad) as Hsb.
  destruct (scan_body _ _ _ _ _ _) as [[kd' last']|err] eqn:Esb.
  - intros [= <- <-]. split; [done|]. split; [auto|]. destruct Hsb as (l & Hl & Hi & -> & ->).
    exists l, tail. split; [done|]. split; [by rewrite <- Hi, <- app_assoc|].
    split; [done|]. split; [done|]. f_equal. rewrite <- Hi. zl.
  - intros [= <- <-]. split; [done|]. split; [auto|]. right. split.
    + apply unscannable_intro; [done..|]. intros l tail' Hl F1 F2 F3 F4 F5.
      apply app_inj_zlen in F4 as [-> _]; [by apply (Hsb l)|]. rewrite log_body_len. fold k v in F1, F2. lia.
    + intros ->. by apply scan_body_Err in Esb as (f & es & [=]).
Qed.

Lemma scan_record_spec allow kd last seg off e res e' pre rest :
  seg_sized seg (e_disk e) → file_data (e_disk e) (s_file seg) = pre ++ rest → zlen pre = off →
  scan_record allow kd last (mkReader seg off) e = (res, e') →
  scanned_record allow kd last seg off e rest res e'.
Proof.
  intros Hs Hd Hp. unfold scan_record. cbn [rd_seg rd_off].
  assert (Hsize : s_size seg = off + zlen rest) by (rewrite Hs, Hd, zlen_app; lia).
  pose proof (zlen_nonneg pre). pose proof (zlen_nonneg rest).
  assert (Hrest : slice_from (file_data (e_disk e) (s_file seg)) off = rest) by (rewrite Hd; by apply slice_from_app).
  destruct (reader_ReadFull (mkReader seg off) recordHeaderSize e) as [[[hdr err] r1] e1] eqn:E1.
  apply reader_ReadFull_spec in E1 as (D1 & Q1 & E1); [|done|cbn; lia].
  cbn [rd_seg rd_off] in E1. rewrite Hrest in E1.
  destruct E1 as [[Hnq ->]|(-> & rest' & E1)].
  { intros [= <- <-]. split; [done|]. split; [done|]. left. eauto. }
  destruct (ReadFull_cases recordHeaderSize rest) as [(h & r2 & Er & Hh & E2)|[Hlt E2]]; [by consts| |];
    rewrite E2 in E1; injection E1 as <- <- <-.
  2: { destruct rest as [|b rest].
       - cbn. intros [= <- <-]. split; [done|]. split; [done|]. auto.
       - assert (Hz : (zlen (b :: rest) =? 0) = false) by zl. rewrite Hz, andb_false_r.
         change (errors_Is (ESentinel io_ErrUnexpectedEOF) io_ErrUnexpectedEOF) with true. cbn [orb].
         assert (Ht : torn (b :: rest)). { split; [done|]. left. by revert Hlt; consts. }
         destruct allow; cbn [negb]; intros [= <- <-]; (split; [done|]); (split; [done|]).
         + auto.
         + right. split; [by apply torn_unscannable|done]. }
  rewrite Er in *. clear rest Er E2. pose proof (le_get_bound (slice h 13 17)) as Bk.
  pose proof (le_get_bound (slice h 17 21)) as Bv. set (fl := byte_at h 12).
  set (k := le_get (slice h 13 17)) in *. set (v := le_get (slice h 17 21)) in *.
  rewrite zlen_app, Hh in *. consts. change (4 + 8 + 1 + 4 + 4) with 21 in *.
  assert (Fk : slice (h ++ r2) 13 17 = slice h 13 17 ∧ slice (h ++ r2) 17 21 = slice h 17 21).
  { by rewrite !slice_app_l by lia. }
  destruct (Z.ltb_spec (s_size seg) (off + 21 + (k + v))) as [Hpast|Hfit].
  { assert (Ht : torn (h ++ r2)).
    { split; [intros [-> _]%app_eq_nil; rewrite zlen_nil in Hh; lia|]. right.
      destruct Fk as [-> ->]. rewrite zlen_app. fold k v. lia. }
    destruct allow; cbn [negb]; intros [= <- <-]; (split; [done|]); (split; [done|]).
    - auto.
    - right. split; [by apply torn_unscannable|done]. }
  assert (Hnt : ¬ torn (h ++ r2)).
  { intros [_ Ht]. destruct Fk as [F1 F2]. rewrite F1, F2, zlen_app in Ht. fold k v in Ht. lia. }
  destruct (scan_header_bad fl k v) as [msg|] eqn:Hbad.
  { intros [= <- <-]. split; [done|]. split; [done|]. right. split; [by eapply header_unscannable|done]. }
  apply scan_header_bad_None in Hbad; [|lia..].
  destruct (split_at r2 (k + v)) as (body & tail & -> & Hb); [lia|]. intros H'.
  eapply (scanned_later _ _ _ _ _ e e1); [done|done|].
  eapply scan_record_body; [by rewrite D1|by rewrite D1, Hd|done|done|done|done|done|exact H'].
Qed.

(** ** Lemmas: the whole scan *)

(** A file the scan accepts: whole records, then nothing or (where allowed) a
    torn tail. *)
Definition segment_log (allow : bool) (rest : bytes) (ls : list logrec) (tail : bytes) : Prop :=
  Forall log_ok ls ∧ rest = log_images ls ++ tail ∧ (tail = [] ∨ (allow = true ∧ torn tail)).

Lemma log_image_prefix l l' s s' :
  log_ok l → log_ok l' → log_image l ++ s = log_image l' ++ s' → log_image l = log_image l' ∧ s = s'.
Proof.
  intros Hl Hl' E. pose proof (log_image_nonempty l) as Hn.
  destruct (split_at (log_image l) 21) as (hdr & b & Eb & Hh); [lia|].
  rewrite Eb, <- app_assoc in E.
  destruct (image_prefix l' s' hdr (b ++ s) Hl' Hh E) as (F1 & F2 & _ & F4 & F5).
  destruct (image_prefix l [] hdr b Hl Hh) as (G1 & G2 & _ & G4 & _).
  { by rewrite app_nil_r, <- Eb. }
  rewrite app_nil_r in G4. subst b. apply app_inj_zlen in F4 as [F4 ->].
  - split; [|done]. rewrite Eb, F4. done.
  - rewrite !log_body_len. congruence.
Qed.

Lemma scan_loop_spec fuel allow kd last seg off e res e' pre rest :
  seg_sized seg (e_disk e) → file_data (e_disk e) (s_file seg) = pre ++ rest → zlen pre = off →
  (Z.to_nat (zlen rest) < fuel)%nat →
  scan_loop fuel allow kd last (mkReader seg off) e = (res, e') →
  e_disk e' = e_disk e ∧ (quiet e → quiet e') ∧
  match res with
  | Ok (kd', last', good) => ∃ ls tail, segment_log allow rest ls tail
      ∧ good = off + zlen (log_images ls)
      ∧ kd' = foldl replay_update kd (logs_updates (s_id seg) off ls) ∧ last' = max_ts last ls
  | Err err => (¬ quiet e ∧ ∃ f, err = EWrap f [ESentinel EIO]) ∨
      (err ≠ ESentinel fuel_exhausted ∧ ∀ ls tail, ¬ segment_log allow rest ls tail)
  end.
Proof.
  revert kd last off e pre rest. induction fuel as [|fuel IH]; intros kd last off e pre rest Hs Hd Hp Hf; [lia|].
  cbn [scan_loop]. destruct (scan_record allow kd last (mkReader seg off) e) as [r1 e1] eqn:E1.
  pose proof (scan_record_spec _ _ _ _ _ _ _ _ _ _ Hs Hd Hp E1) as (D1 & Q1 & H1).
  destruct r1 as [[[g|kd1 last1] r']|err].
  - destruct H1 as [-> H1]. intros [= <- <-]. split; [done|]. split; [done|].
    exists [], rest. split; [by repeat split|]. split; [|done]. change (zlen (log_images [])) with 0. lia.
  - destruct H1 as (l & tail & Hl & -> & -> & -> & ->). intros E2.
    pose proof (log_image_nonempty l). pose proof (zlen_nonneg tail).
    assert (Hs1 : seg_sized seg (e_disk e1)) by (by rewrite D1).
    eapply (IH _ _ _ e1 (pre ++ log_image l) tail) in E2 as (D2 & Q2 & H2);
      [|done|by rewrite D1, <- app_assoc|by rewrite zlen_app, Hp|rewrite zlen_app in Hf; lia].
    split; [congruence|]. split; [auto|]. destruct res as [[[kd' last'] good]|err].
    + destruct H2 as (ls & tl & (Hls & -> & Ht) & -> & -> & ->). exists (l :: ls), tl.
      split. { split; [by constructor|]. split; [|done]. by rewrite log_images_cons, app_assoc. }
      rewrite log_images_cons, zlen_app. split; [lia|]. cbn [logs_updates]. by rewrite foldl_app.
    + destruct H2 as [[Hnq ?]|[Hne H2]]; [left; auto|right]. split; [done|].
      intros ls tl (Hls & E & Ht). destruct Hls as [|l' ls Hl' Hls].
      * cbn in E. subst tl. destruct Ht as [Hn|[_ Ht]].
        -- apply (f_equal zlen) in Hn. rewrite zlen_app, zlen_nil in Hn. lia.
        -- by apply (image_not_torn l tail Hl).
      * rewrite log_images_cons, <- app_assoc in E. apply log_image_prefix in E as [_ ->]; [|done..].
        by apply (H2 ls tl).
  - intros [= <- <-]. split; [done|]. split; [done|]. destruct H1 as [?|[Hns Hne]]; [auto|right].
    split; [done|]. intros ls tl (Hls & -> & Ht). apply Hns. destruct Hls as [|l ls Hl _].
    + destruct Ht as [->|?]; [by left|right; by left].
    + right. right. exists l, (log_images ls ++ tl). by rewrite log_images_cons, app_assoc.
Qed.

Lemma file_Truncate_inv ino n e r e' :
  file_Truncate ino n e = (r, e') →
  (r = Ok tt ∧ e_disk e' = truncate_data n ino (e_disk e)) ∨
  (r = Err (ESentinel EIO) ∧ e_disk e' = e_disk e).
Proof. by intros [[-> ->]|[-> [k ->]]]%sys_inv; eauto. Qed.
Lemma file_Truncate_quiet ino n e :
  quiet e → file_Truncate ino n e = (Ok tt, mkEnv (truncate_data n ino (e_disk e)) [] (e_clock e)).
Proof. intros. by apply sys_no_faults. Qed.

Lemma file_data_truncate n ino d :
  file_data (truncate_data n ino d) ino = slice_to (file_data d ino) n.
Proof.
  unfold truncate_data, file_data, set_inode. destruct (d_inodes d !! ino) as [i|] eqn:E; cbn.
  - by rewrite lookup_insert_eq.
  - rewrite E. unfold slice_to. by rewrite take_nil.
Qed.

(** What [recoverSegment] leaves of the disk: the file cut to its records. *)
Lemma recoverSegment_full kd last seg allow e res e' :
  let data := file_data (e_disk e) (s_file seg) in
  seg_sized seg (e_disk e) →
  recoverSegment kd last seg allow e = (res, e') →
  (quiet e → quiet e') ∧
  match res with
  | Ok (kd', last', seg') => ∃ ls tail, segment_log allow data ls tail
      ∧ kd' = foldl replay_update kd (logs_updates (s_id seg) 0 ls) ∧ last' = max_ts last ls
      ∧ seg' = mkSegment (s_id seg) (s_file seg) (s_bw seg) (zlen (log_images ls))
      ∧ (tail = [] ∧ e_disk e' = e_disk e
         ∨ tail ≠ [] ∧ e_disk e' = truncate_data (zlen (log_images ls)) (s_file seg) (e_disk e))
  | Err err => e_disk e' = e_disk e ∧
      ((¬ quiet e ∧ ∃ f, err = EWrap f [ESentinel EIO]) ∨
       (err ≠ ESentinel fuel_exhausted ∧ ∀ ls tail, ¬ segment_log allow data ls tail))
  end.
Proof.
  intros data Hs. unfold recoverSegment.
  destruct (scan_loop _ _ _ _ _ e) as [r1 e1] eqn:E1.
  eapply (scan_loop_spec _ _ _ _ _ _ _ _ _ [] data) in E1 as (D1 & Q1 & H1); [|done|done|done|].
  2: { unfold scan_fuel. rewrite Hs. fold data. lia. }
  destruct r1 as [[[kd' last'] good]|err]; [|by intros [= <- <-]].
  destruct H1 as (ls & tail & Hlog & -> & -> & ->). rewrite Z.add_0_l.
  assert (Hd : data = log_images ls ++ tail) by apply Hlog.
  assert (Hsz : s_size seg = zlen (log_images ls) + zlen tail) by (rewrite Hs; fold data; by rewrite Hd, zlen_app).
  destruct (Z.ltb_spec (zlen (log_images ls)) (s_size seg)) as [Hlt|Hge].
  - assert (Htn : tail ≠ []) by (intros ->; rewrite zlen_nil in Hsz; lia).
    destruct allow; cbn [negb].
    2: { destruct Hlog as (_ & _ & [?|[? _]]); done. }
    destruct (file_Truncate _ _ e1) as [r2 e2] eqn:E2.
    assert (Q2 : quiet e1 → quiet e2 ∧ r2 = Ok tt).
    { intros Hq. rewrite file_Truncate_quiet in E2 by done. by injection E2 as <- <-. }
    apply file_Truncate_inv in E2 as [[-> D2]|[-> D2]]; intros [= <- <-]; (split; [naive_solver|]).
    + exists ls, tail. split; [done|]. split; [done|]. split; [done|]. split; [done|]. right.
      by rewrite D2, D1.
    + split; [congruence|]. left. split; [|eauto]. intros Hq. by destruct (Q2 (Q1 Hq)).
  - intros [= <- <-]. split; [done|]. exists ls, tail. split; [done|]. split; [done|]. split; [done|].
    pose proof (zlen_nonneg tail). assert (tail = []) as -> by (apply zlen_0; lia).
    split; [|auto]. destruct seg; cbn in *. f_equal. rewrite zlen_nil in Hsz. lia.
Qed.

(** ** Lemmas: the records of a file are unique *)

Lemma segment_log_tail l rest ls tail allow :
  log_ok l → segment_log allow (log_image l ++ rest) ls tail →
  ∃ l' ls', ls = l' :: ls' ∧ log_image l' = log_image l ∧ segment_log allow rest ls' tail.
Proof.
  intros Hl (Hls & E & Ht). destruct Hls as [|l' ls' Hl' Hls].
  - exfalso. cbn in E. subst tail. destruct Ht as [Hn|[_ Ht]].
    + apply (f_equal zlen) in Hn. pose proof (log_image_nonempty l). revert Hn. zl.
    + by apply (image_not_torn l rest Hl).
  - rewrite log_images_cons, <- app_assoc in E. apply log_image_prefix in E as [E ->]; [|done..].
    exists l', ls'. split; [done|]. split; [done|]. done.
Qed.

(** Records with one image are one record, up to what a TOMBSTONE skips. *)
Lemma log_image_updates l l' fid start :
  log_ok l → log_ok l' → log_image l = log_image l' →
  log_ts l = log_ts l' ∧ log_updates fid start l = log_updates fid start l'.
Proof.
  intros Hl Hl' E.
  destruct (split_at (log_image l) 21) as (hdr & b & Eb & Hh); [pose proof (log_image_nonempty l); lia|].
  rewrite Eb in E. destruct (image_header l hdr b Hl Hh (eq_sym Eb)) as [E1 B1].
  destruct (image_header l' hdr b Hl' Hh E) as [E2 B2].
  set (c := crc32_Checksum _) in E1. set (c' := crc32_Checksum _) in E2.
  destruct (image_fields l c Hl) as (T1 & F1 & K1 & V1). destruct (image_fields l' c' Hl') as (T2 & F2 & K2 & V2).
  rewrite <- E1 in *. rewrite <- E2 in *. split; [congruence|].
  assert (Ht : log_ts l = log_ts l') by congruence. assert (Hf : log_flag l = log_flag l') by congruence.
  assert (Hk : log_klen l = log_klen l') by congruence. assert (Hb : log_body l = log_body l') by congruence.
  clear -Hl Hl' Ht Hf Hk Hb.
  destruct l as [ts k v|ts k v|ts es], l' as [ts' k' v'|ts' k' v'|ts' es']; try done; cbn in *; subst ts'.
  - apply app_inj_zlen in Hb as [-> ->]; done.
  - apply app_inj_zlen in Hb as [-> ->]; done.
  - destruct Hl as [_ (O1 & O2 & _)], Hl' as [_ (O1' & O2' & _)].
    pose proof (decodeBatchBody_image es start O1 O2) as D.
    rewrite Hb, (decodeBatchBody_image es' start O1' O2') in D. by injection D as ->.
Qed.

Lemma segment_log_unique allow rest ls tail ls' tail' fid start :
  segment_log allow rest ls tail → segment_log allow rest ls' tail' →
  log_images ls = log_images ls' ∧ tail = tail'
  ∧ logs_updates fid start ls = logs_updates fid start ls' ∧ (∀ n, max_ts n ls = max_ts n ls').
Proof.
  intros (Hls & -> & Ht) H'. revert ls' start H'.
  induction Hls as [|l ls Hl Hls IH]; intros ls' start H'.
  - cbn in H'. destruct H' as (Hls' & E & Ht'). destruct Hls' as [|l' ls' Hl' Hls']; [by cbn in E; subst|].
    exfalso. rewrite log_images_cons, <- app_assoc in E. destruct Ht as [-> |[_ Ht]].
    + apply (f_equal zlen) in E. pose proof (log_image_nonempty l'). revert E. zl.
    + rewrite E in Ht. by apply (image_not_torn l' (log_images ls' ++ tail') Hl').
  - rewrite log_images_cons, <- app_assoc in H'. pose proof H' as (Hall & _).
    apply segment_log_tail in H' as (l' & ls'' & -> & Ei & H'); [|done].
    inversion Hall as [|? ? Hl' _]; subst.
    destruct (IH ls'' (start + zlen (log_image l)) H') as (E1 & -> & E2 & E3).
    destruct (log_image_updates l' l fid start Hl' Hl Ei) as [Et Eu].
    rewrite !log_images_cons, Ei, E1. split; [done|]. split; [done|].
    cbn [logs_updates]. rewrite Ei, Eu, E2. split; [done|].
    intros n. unfold max_ts in *. cbn [foldl]. by rewrite Et.
Qed.

(** Any strict, non-empty prefix of a record is a torn tail. *)
Lemma prefix_torn l p q : log_ok l → log_image l = p ++ q → p ≠ [] → q ≠ [] → torn p.
Proof.
  intros Hl E Hp Hq. split; [done|].
  destruct (Z.lt_ge_cases (zlen p) 21) as [|Hge]; [by left|right].
  assert (0 < zlen q) by (destruct q; [done|zl]).
  destruct (split_at p 21) as (hdr & b & -> & Hh); [lia|].
  rewrite <- app_assoc in E.
  destruct (image_prefix l [] hdr (b ++ q) Hl Hh) as (F1 & F2 & _ & F4 & _); [by rewrite app_nil_r|].
  rewrite !(slice_app_l hdr) by lia. rewrite F1, F2, zlen_app, <- Z.add_assoc, <- log_body_len.
  rewrite app_nil_r in F4. rewrite <- F4, zlen_app. lia.
Qed.

(** ** Properties of the segment scan *)

(** C10: [recoverSegment] accepts exactly the well-formed segments.  On any file
    and any outcome of the calls: if it succeeds, the file was a sequence of
    whole valid records followed by nothing, or, for the active segment only,
    by a torn tail; the index and the clock are those records replayed in
    order, and the file and the segment's size are cut to exactly the records.
    If it fails, the disk is untouched and either a call failed or the file is
    not of that form.  The loop's fuel, one turn per byte, always suffices. *)
Theorem recoverSegment_exact kd last seg allow e res e' :
  let data := file_data (e_disk e) (s_file seg) in
  seg_sized seg (e_disk e) → recoverSegment kd last seg allow e = (res, e') →
  match res with
  | Ok (kd', last', seg') => ∃ ls tail, segment_log allow data ls tail
      ∧ kd' = foldl replay_update kd (logs_updates (s_id seg) 0 ls) ∧ last' = max_ts last ls
      ∧ s_size seg' = zlen (log_images ls) ∧ file_data (e_disk e') (s_file seg') = log_images ls
  | Err err => e_disk e' = e_disk e ∧ err ≠ ESentinel fuel_exhausted ∧
      (quiet e → ∀ ls tail, ¬ segment_log allow data ls tail)
  end.
Proof.
  intros data Hs H. apply recoverSegment_full in H as [_ H]; [|done].
  destruct res as [[[kd' last'] seg']|err].
  - destruct H as (ls & tail & Hlog & -> & -> & -> & HD). exists ls, tail.
    split; [done|]. split; [done|]. split; [done|]. split; [done|]. cbn [s_file].
    assert (Hd : data = log_images ls ++ tail) by apply Hlog. fold data in Hd.
    destruct HD as [[-> ->]|[_ ->]].
    + fold data. by rewrite Hd, app_nil_r.
    + rewrite file_data_truncate. fold data. rewrite Hd. by apply slice_to_app.
  - destruct H as [HD H]. split; [done|]. destruct H as [[Hnq [f ->]]|[Hne H]]; [by split|]. by split.
Qed.

Definition sample_log : list logrec := [LPut 5 [x61] [x31; x32]; LDel 6 [x62] []].

(** A disk that holds one file under a segment's name. *)
Definition one_segment (id : Z) (data : bytes) : disk :=
  mkDisk {[ 0%N := mkInode data data ]} {[ segmentFilename id := 0%N ]} {[ segmentFilename id := 0%N ]} 1.

Lemma recoverSegment_exact_witness :
  let data := log_images sample_log ++ [x00; x01] in
  let e := mkEnv (one_segment 3 data) [] [] in
  let seg := mkSegment 3 0 None (zlen data) in
  let p := recoverSegment ∅ 0 seg true e in
  match p.1 with
  | Ok (kd', last', seg') => ∃ ls tail, segment_log true (file_data (e_disk e) 0) ls tail
      ∧ kd' = foldl replay_update ∅ (logs_updates 3 0 ls) ∧ last' = max_ts 0 ls
      ∧ s_size seg' = zlen (log_images ls) ∧ file_data (e_disk p.2) (s_file seg') = log_images ls
  | Err err => e_disk p.2 = e_disk e ∧ err ≠ ESentinel fuel_exhausted ∧
      (quiet e → ∀ ls tail, ¬ segment_log true (file_data (e_disk e) 0) ls tail)
  end.
Proof.
  intros data e seg p. apply (recoverSegment_exact ∅ 0 seg true e p.1 p.2); [|apply surjective_pairing].
  vm_compute. reflexivity.
Defined.

(** C22: a torn append is dropped whole.  If a crash left any strict, non-empty
    prefix of one more record (a PUT, a TOMBSTONE or a whole BATCH) behind the
    records of the active segment, recovery succeeds with exactly those
    records, as if the append had not begun, and cuts the file back to them;
    on a sealed segment the same bytes make recovery fail. *)
Theorem torn_append_dropped kd last seg e ls l p q :
  Forall log_ok ls → log_ok l → log_image l = p ++ q → p ≠ [] → q ≠ [] →
  file_data (e_disk e) (s_file seg) = log_images ls ++ p → seg_sized seg (e_disk e) → quiet e →
  (∃ seg' e', recoverSegment kd last seg true e
     = (Ok (foldl replay_update kd (logs_updates (s_id seg) 0 ls), max_ts last ls, seg'), e')
     ∧ s_size seg' = zlen (log_images ls) ∧ file_data (e_disk e') (s_file seg') = log_images ls)
  ∧ ∃ err e', recoverSegment kd last seg false e = (Err err, e') ∧ e_disk e' = e_disk e.
Proof.
  intros Hls Hl Hi Hp Hq Hd Hs Hquiet.
  assert (Hlog : segment_log true (log_images ls ++ p) ls p).
  { split; [done|]. split; [done|]. right. split; [done|]. by eapply prefix_torn. }
  split.
  - destruct (recoverSegment kd last seg true e) as [res e'] eqn:E.
    apply recoverSegment_full in E as [_ H]; [|done]. rewrite Hd in H. destruct res as [[[kd' last'] seg']|err].
    + destruct H as (ls' & tail & Hlog' & -> & -> & -> & HD).
      destruct (segment_log_unique _ _ _ _ _ _ (s_id seg) 0 Hlog Hlog') as (Ei & -> & Eu & Em).
      eexists _, e'. rewrite Eu, Em, Ei. split; [reflexivity|]. split; [done|]. cbn [s_file].
      destruct HD as [[? _]|[_ ->]]; [done|]. rewrite file_data_truncate, Hd, <- Ei. by apply slice_to_app.
    + destruct H as [_ [[? _]|[_ H]]]; [done|]. by edestruct H.
  - destruct (recoverSegment kd last seg false e) as [res e'] eqn:E.
    apply recoverSegment_full in E as [_ H]; [|done]. rewrite Hd in H. destruct res as [[[kd' last'] seg']|err].
    + exfalso. destruct H as (ls' & tail & (Hls' & Ed & Ht) & _). destruct Ht as [->|[? _]]; [|done].
      assert (Hlog' : segment_log true (log_images ls ++ p) ls' []).
      { split; [done|]. split; [done|]. by left. }
      by destruct (segment_log_unique _ _ _ _ _ _ 0 0 Hlog Hlog') as (_ & ? & _).
    + exists err, e'. split; [done|]. apply H.
Qed.

(** Eight bytes of a BATCH behind two records. *)
Lemma torn_append_dropped_witness :
  let l := LBatch 9 [mkBatchEntry [x61] [x33] false; mkBatchEntry [x62] [] true] in
  let p := slice_to (log_image l) 30 in
  let data := log_images sample_log ++ p in
  let e := mkEnv (one_segment 3 data) [] [] in
  let seg := mkSegment 3 0 None (zlen data) in
  (∃ seg' e', recoverSegment ∅ 0 seg true e
     = (Ok (foldl replay_update ∅ (logs_updates (s_id seg) 0 sample_log), max_ts 0 sample_log, seg'), e')
     ∧ s_size seg' = zlen (log_images sample_log)
     ∧ file_data (e_disk e') (s_file seg') = log_images sample_log)
  ∧ ∃ err e', recoverSegment ∅ 0 seg false e = (Err err, e') ∧ e_disk e' = e_disk e.
Proof.
  intros l p data e seg.
  apply (torn_append_dropped ∅ 0 seg e sample_log l p (slice_from (log_image l) 30));
    [decided|decided|symmetry; apply slice_to_from|decided|decided|vm_compute; reflexivity..].
Defined.

(** C23: a damaged byte outside the length fields stops the scan of a segment.  If
    one byte of a record's checksum, timestamp, flag or body differs from what
    was written, [recoverSegment] fails whatever comes before and after the
    record, on the active segment too, and leaves the file as it is.  The two
    length fields are not covered: on the active segment a damaged length that
    points past the end of the file is taken for a torn tail
    ([Deviations.damaged_length_drops]), and on a sealed one the checksum, over
    a body of another length, is no guarantee. *)
Theorem corruption_aborts_recovery kd last seg allow e ls l pre b b' post rest :
  Forall log_ok ls → log_ok l → log_image l = pre ++ b :: post → b ≠ b' →
  zlen pre < 13 ∨ 21 <= zlen pre →
  file_data (e_disk e) (s_file seg) = log_images ls ++ (pre ++ b' :: post) ++ rest →
  seg_sized seg (e_disk e) →
  ∃ err e', recoverSegment kd last seg allow e = (Err err, e') ∧ e_disk e' = e_disk e.
Proof.
  intros Hls Hl Hi Hb Hpos Hd Hs.
  destruct (recoverSegment kd last seg allow e) as [res e'] eqn:E.
  apply recoverSegment_full in E as [_ H]; [|done]. rewrite Hd in H.
  destruct res as [[[kd' last'] seg']|err]; [exfalso|exists err, e'; split; [done|apply H]].
  destruct H as (ls' & tail & Hlog & _). clear Hd. revert ls' Hlog.
  induction Hls as [|l0 ls Hl0 Hls IH]; intros ls' Hlog.
  - destruct (log_header_ok l Hl) as [Hok Hf]. pose proof Hi as Hi'. rewrite log_image_eq in Hi'.
    pose proof (corrupt_image_rejected (log_ts l) (log_flag l) (log_klen l) (log_vlen l) (log_body l)
      pre b b' post rest) as Hrej.
    assert (Himg : zlen (pre ++ b' :: post) = 21 + zlen (log_body l)).
    { transitivity (zlen (log_image l)); [rewrite Hi; zl|]. rewrite log_image_eq. zl. }
    destruct Hlog as (Hls' & E & Ht). cbn [app] in E. destruct Hls' as [|l' ls' Hl' Hls'].
    + cbn in E. subst tail. destruct Ht as [Hn|[_ [_ Ht]]].
      * apply (f_equal zlen) in Hn. revert Hn. pose proof (zlen_nonneg (log_body l)). zl.
      * assert (Hsl : ∀ lo hi, 13 <= lo → lo <= hi → hi <= 21 →
          slice ((pre ++ b' :: post) ++ rest) lo hi = slice (log_image l) lo hi).
        { intros lo hi ???. rewrite slice_app_l by (pose proof (zlen_nonneg (log_body l)); lia).
          rewrite Hi. apply slice_other_byte; lia. }
        rewrite !Hsl in Ht by lia.
        destruct (split_at (log_image l) 21) as (h & bd & Eb & Hh); [pose proof (log_image_nonempty l); lia|].
        destruct (image_prefix l [] h bd Hl Hh) as (F1 & F2 & _); [by rewrite app_nil_r|].
        rewrite Eb, !slice_app_l, F1, F2, zlen_app, Himg, log_body_len in Ht by lia.
        pose proof (zlen_nonneg rest). pose proof (log_body_len l). pose proof (zlen_nonneg (log_body l)).
        destruct Ht; lia.
    + destruct (log_header_ok l' Hl') as [Hok' Hf'].
      assert (E' : (pre ++ b' :: post) ++ rest = log_image l' ++ log_images ls' ++ tail).
      { rewrite app_assoc. exact E. }
      rewrite log_image_eq in E'. eapply Hrej; [by apply log_ok_i64|done|done|apply log_body_len|done|done|done|].
      rewrite E'. apply readRecord_image; [by apply log_ok_i64|done|done|apply log_body_len].
  - rewrite log_images_cons, <- app_assoc in Hlog. apply segment_log_tail in Hlog as (l' & ls'' & -> & _ & H); [|done].
    by apply (IH ls'').
Qed.

Lemma corruption_aborts_recovery_witness :
  let data := log_images [LDel 6 [x62] []] ++ (slice_to (log_image (LPut 5 [x61] [x31; x32])) 22 ++ [x39; x32]) ++ [] in
  let e := mkEnv (one_segment 3 data) [] [] in
  ∃ err e', recoverSegment ∅ 0 (mkSegment 3 0 None (zlen data)) true e = (Err err, e') ∧ e_disk e' = e_disk e.
Proof.
  intros data e.
  apply (corruption_aborts_recovery ∅ 0 (mkSegment 3 0 None (zlen data)) true e [LDel 6 [x62] []]
    (LPut 5 [x61] [x31; x32]) (slice_to (log_image (LPut 5 [x61] [x31; x32])) 22) x31 x39 [x32] []);
    [decided|decided|vm_compute; reflexivity|decided|decided|vm_compute; reflexivity|vm_compute; reflexivity].
Defined.

(** ** Lemmas: hints *)

(** A hint that stands for the records of its segment: inside the file, and
    with the same effect from every state. *)
Definition hint_stands_for (seg : segment) (hs : list hintEntry) (ls : list logrec) : Prop :=
  forallb (hint_in_bounds seg) hs = true ∧
  ∀ kd last, foldl (apply_hint seg) (kd, last) hs
    = (foldl replay_update kd (logs_updates (s_id seg) 0 ls), max_ts last ls).

(** A segment's hint file is absent, unusable, or stands for its records. *)
Definition hint_harmless (d : disk) (seg : segment) (ls : list logrec) : Prop :=
  match hint_of d (s_id seg) with
  | Ok hs => forallb (hint_in_bounds seg) hs = false ∨ hint_stands_for seg hs ls
  | Err _ => True
  end.

Definition is_put (l : logrec) : bool := match l with LPut _ _ _ => true | _ => false end.

(** The hint entries of a segment of PUTs, from offset [start]. *)
Fixpoint put_hints (start : Z) (ls : list logrec) : list hintEntry :=
  match ls with
  | [] => []
  | l :: ls' =>
    match l with
    | LPut ts k v => [mkHint k (start + (recordHeaderSize + zlen k)) (zlen v) ts]
    | _ => []
    end ++ put_hints (start + zlen (log_image l)) ls'
  end.

Lemma put_hints_apply seg ls : ∀ start kd last,
  Forall log_ok ls → forallb is_put ls = true → 0 <= start →
  foldl (apply_hint seg) (kd, last) (put_hints start ls)
  = (foldl replay_update kd (logs_updates (s_id seg) start ls), max_ts last ls).
Proof.
  induction ls as [|l ls IH]; intros start kd last Hok Hp Hs; [done|].
  inversion Hok as [|? ? Hl Hls]; subst. cbn [forallb] in Hp. apply andb_prop in Hp as [Hl1 Hp].
  destruct l as [ts k v| |]; try done. pose proof (log_image_nonempty (LPut ts k v)).
  cbn [put_hints app logs_updates log_updates]. cbn [foldl]. unfold apply_hint at 2.
  cbn [he_valuePos he_key he_valueLen he_tstamp]. rewrite zmax_if.
  destruct (Z.eqb_spec (start + (recordHeaderSize + zlen k)) hintValuePosTombstone) as [E|_].
  { exfalso. revert E. unfold hintValuePosTombstone. consts. zl. }
  rewrite IH by (done || lia). f_equal. f_equal. destruct Hl as (_ & _ & Hv). by rewrite u32_len.
Qed.

Lemma put_hints_in_bounds seg ls : ∀ start,
  forallb is_put ls = true → 0 <= start → start + zlen (log_images ls) <= s_size seg →
  forallb (hint_in_bounds seg) (put_hints start ls) = true.
Proof.
  induction ls as [|l ls IH]; intros start Hp Hs Hb; [done|].
  cbn [forallb] in Hp. apply andb_prop in Hp as [Hl1 Hp].
  rewrite log_images_cons, zlen_app in Hb. pose proof (zlen_nonneg (log_images ls)).
  pose proof (log_image_nonempty l).
  destruct l as [ts k v| |]; try done. cbn [put_hints app forallb]. rewrite IH by (done || lia).
  rewrite andb_true_r. unfold hint_in_bounds. cbn [he_valuePos he_valueLen].
  cbn [log_image] in Hb. rewrite zlen_record_image, zlen_app in Hb.
  pose proof (zlen_nonneg k). pose proof (zlen_nonneg v). consts.
  apply orb_true_intro. right. apply negb_true_iff. repeat (apply orb_false_intro); lia.
Qed.

Lemma put_hints_stand_for seg ls :
  Forall log_ok ls → forallb is_put ls = true → zlen (log_images ls) <= s_size seg →
  hint_stands_for seg (put_hints 0 ls) ls.
Proof.
  intros Hok Hp Hs. split; [by apply put_hints_in_bounds|]. intros. by apply put_hints_apply.
Qed.

Lemma tryRecoverFromHint_quiet kd last seg e :
  quiet e →
  ∃ e', tryRecoverFromHint kd last seg e
    = (match hint_of (e_disk e) (s_id seg) with
       | Err err => if errors_Is err errHintMissing then Ok None else Err err
       | Ok hs => if forallb (hint_in_bounds seg) hs
                  then Ok (Some (foldl (apply_hint seg) (kd, last) hs))
                  else Err (errorf "hint entry %d refs offset %d (len %d) outside segment size %d")
       end, e') ∧ quiet e' ∧ e_disk e' = e_disk e.
Proof.
  intros Hq. unfold tryRecoverFromHint. destruct (readHintFile_quiet (s_id seg) e Hq) as (e' & -> & Hq' & D).
  exists e'. split; [|done]. destruct (hint_of _ _) as [hs|err]; by case_match.
Qed.

(** ** Lemmas: all segments *)

Definition cut (seg : segment) (ls : list logrec) : segment :=
  mkSegment (s_id seg) (s_file seg) (s_bw seg) (zlen (log_images ls)).

Lemma truncate_data_id n ino d :
  zlen (file_data d ino) <= n → file_data (truncate_data n ino d) ino = file_data d ino.
Proof. intros. rewrite file_data_truncate. by apply slice_to_all. Qed.

Lemma recoverSegment_quiet kd last seg allow ls tail e :
  quiet e → seg_sized seg (e_disk e) → segment_log allow (file_data (e_disk e) (s_file seg)) ls tail →
  ∃ e', recoverSegment kd last seg allow e
    = (Ok (foldl replay_update kd (logs_updates (s_id seg) 0 ls), max_ts last ls, cut seg ls), e')
    ∧ quiet e'
    ∧ e_disk e' = (if decide (tail = []) then e_disk e
                   else truncate_data (zlen (log_images ls)) (s_file seg) (e_disk e)).
Proof.
  intros Hq Hs Hlog. destruct (recoverSegment kd last seg allow e) as [res e'] eqn:E.
  apply recoverSegment_full in E as [Hq' H]; [|done]. destruct res as [[[kd' last'] seg']|err].
  - destruct H as (ls' & tail' & Hlog' & -> & -> & -> & HD).
    destruct (segment_log_unique _ _ _ _ _ _ (s_id seg) 0 Hlog Hlog') as (Ei & -> & Eu & Em).
    exists e'. unfold cut. rewrite Eu, Em, Ei. split; [done|]. split; [auto|].
    destruct HD as [[-> ->]|[Hn ->]]; [by rewrite decide_True|by rewrite decide_False].
  - exfalso. destruct H as [_ [[? _]|[_ H]]]; [done|]. by eapply H.
Qed.

Section recover_all.
Context (logs : Z → list logrec) (tails : Z → bytes) (haveActive : bool) (act : Z).

Definition isAct (id : Z) : bool := haveActive && (id =? act).

(** A segment that recovery can replay as [logs id]. *)
Record seg_ready (d : disk) (id : Z) (seg : segment) : Prop := {
  sr_id : s_id seg = id;
  sr_u32 : is_u32 id;
  sr_linked : d_dir d !! segmentFilename id = Some (s_file seg);
  sr_sized : seg_sized seg d;
  sr_log : segment_log (isAct id) (file_data d (s_file seg)) (logs id) (tails id);
  sr_hint : isAct id = false → hint_harmless d seg (logs id);
}.

Lemma recover_one_quiet kd last seg id e :
  disk_ok (e_disk e) → quiet e → seg_ready (e_disk e) id seg →
  ∃ e', recover_one haveActive act kd last seg e
    = (Ok (foldl replay_update kd (logs_updates id 0 (logs id)), max_ts last (logs id),
           cut seg (logs id)), e')
    ∧ quiet e' ∧ framed (λ n, n ≠ segmentFilename id ∨ isAct id = false ∨ tails id = []) (e_disk e) (e_disk e')
    ∧ d_dir (e_disk e') = d_dir (e_disk e)
    ∧ file_data (e_disk e') (s_file seg) = log_images (logs id).
Proof.
  intros Hd Hq [Hid Hu Hlk Hs Hlog Hh]. unfold recover_one. rewrite Hid. fold (isAct id).
  assert (Hdata := proj1 (proj2 Hlog)).
  assert (Hscan : ∀ e1, quiet e1 → e_disk e1 = e_disk e →
    ∃ e', match recoverSegment kd last seg (isAct id) e1 with
          | (Err err, e) => (Err (EWrap "recover segment %d: %w" [err]), e)
          | ok => ok
          end = (Ok (foldl replay_update kd (logs_updates id 0 (logs id)), max_ts last (logs id),
                     cut seg (logs id)), e')
    ∧ quiet e' ∧ framed (λ n, n ≠ segmentFilename id ∨ isAct id = false ∨ tails id = []) (e_disk e) (e_disk e')
    ∧ d_dir (e_disk e') = d_dir (e_disk e)
    ∧ file_data (e_disk e') (s_file seg) = log_images (logs id)).
  { intros e1 Hq1 D1.
    destruct (recoverSegment_quiet kd last seg (isAct id) (logs id) (tails id) e1)
      as (e' & -> & Hq' & HD); [done|by rewrite D1..|].
    exists e'. rewrite Hid. split; [done|]. split; [done|]. rewrite HD, D1.
    destruct (decide (tails id = [])) as [Ht|Ht].
    - split; [by apply framed_refl|]. split; [done|]. by rewrite Hdata, Ht, app_nil_r.
    - assert (Ha : isAct id = true) by (by destruct Hlog as (_ & _ & [?|[? _]])).
      split; [|split].
      + apply truncate_data_framed; [done|]. intros n [Hn|[Hn|Hn]] Hi; [|congruence|done].
        apply Hn. by eapply dk_inj.
      + unfold truncate_data. by case_match.
      + rewrite file_data_truncate, Hdata. by apply slice_to_app. }
  destruct (isAct id) eqn:Ha; [by apply Hscan|].
  destruct (tryRecoverFromHint_quiet kd last seg e Hq) as (e1 & -> & Hq1 & D1).
  specialize (Hh eq_refl). unfold hint_harmless in Hh. rewrite Hid in *.
  destruct (hint_of (e_disk e) id) as [hs|err].
  - destruct Hh as [->|[-> Hst]]; [by apply Hscan|]. rewrite Hst, Hid.
    assert (Htl : tails id = []) by (by destruct Hlog as (_ & _ & [?|[? _]])).
    exists e1. split.
    { f_equal. f_equal. f_equal. destruct seg as [sid sf sb ss]. unfold cut. cbn in *. f_equal.
      rewrite Hs. cbn. by rewrite Hdata, Htl, app_nil_r. }
    split; [done|]. rewrite D1. split; [by apply framed_refl|]. split; [done|].
    by rewrite Hdata, Htl, app_nil_r.
  - destruct (errors_Is err errHintMissing); by apply Hscan.
Qed.

Lemma seg_ready_framed (P : bytes → Prop) d d' id seg :
  framed P d d' → P (segmentFilename id) → P (hintFilename id) →
  seg_ready d id seg → seg_ready d' id seg.
Proof.
  intros F Hs Hh [Hid Hu Hlk Hsz Hlog Hhint].
  pose proof (framed_data _ _ _ _ _ F Hs Hlk) as Hdat.
  split; [done|done|by rewrite (fr_dir _ _ _ F)| | |].
  - unfold seg_sized. by rewrite Hdat.
  - by rewrite Hdat.
  - intros Ha. specialize (Hhint Ha). unfold hint_harmless, hint_of in *. rewrite Hid in *.
    by rewrite (framed_read _ _ _ _ F Hh).
Qed.

(** The updates of the segments in [ids], in that order. *)
Definition replayed (ids : list Z) : list update := ids ≫= λ id, logs_updates id 0 (logs id).
Definition replayed_ts (last : Z) (ids : list Z) : Z := foldl (λ n id, max_ts n (logs id)) last ids.

Lemma recover_ids_quiet ids : ∀ segs kd last e,
  NoDup ids → disk_ok (e_disk e) → quiet e →
  (∀ id, id ∈ ids → ∃ seg, segs !! id = Some seg ∧ seg_ready (e_disk e) id seg) →
  ∃ segs' e', recover_ids haveActive act ids segs kd last e
    = (Ok (segs', foldl replay_update kd (replayed ids), replayed_ts last ids), e')
  ∧ quiet e'
  ∧ framed (λ n, ∀ id, id ∈ ids → n ≠ segmentFilename id ∨ isAct id = false ∨ tails id = []) (e_disk e) (e_disk e')
  ∧ d_dir (e_disk e') = d_dir (e_disk e)
  ∧ (∀ id, segs' !! id = if decide (id ∈ ids) then (λ seg, cut seg (logs id)) <$> segs !! id else segs !! id)
  ∧ (∀ id seg, id ∈ ids → segs !! id = Some seg → file_data (e_disk e') (s_file seg) = log_images (logs id)).
Proof.
  induction ids as [|id ids IH]; intros segs kd last e Hnd Hd Hq Hall.
  { exists segs, e. cbn. split; [done|]. split; [done|]. split; [by apply framed_refl|]. split; [done|].
    split; [done|]. intros id seg Hin. by apply not_elem_of_nil in Hin. }
  apply NoDup_cons in Hnd as [Hni Hnd].
  destruct (Hall id) as (seg & Hseg & Hr); [apply list_elem_of_here|].
  cbn [recover_ids]. rewrite Hseg.
  destruct (recover_one_quiet kd last seg id e Hd Hq Hr) as (e1 & -> & Hq1 & F1 & Dir1 & Dat1).
  pose proof (sr_u32 _ _ _ Hr) as Hu.
  assert (Hne : ∀ id', id' ∈ ids → is_u32 id' → segmentFilename id' ≠ segmentFilename id).
  { intros id' Hin Hu' E. apply segmentFilename_inj in E; [by subst|done..]. }
  edestruct (IH (<[id := cut seg (logs id)]> segs)) as (segs' & e2 & E2 & Hq2 & F2 & Dir2 & Hm & Hdat);
    [done|apply F1|done| |].
  { intros id' Hin. destruct (Hall id') as (seg' & Hseg' & Hr'); [by apply list_elem_of_further|].
    exists seg'. assert (id ≠ id') by (by intros ->). rewrite lookup_insert_ne by done.
    split; [done|]. eapply seg_ready_framed; [exact F1| | |done].
    - left. apply Hne; [done|by eapply sr_u32].
    - left. intros E. symmetry in E. by apply segment_not_hint in E. }
  exists segs', e2. split; [|split; [done|split; [|split; [|split]]]].
  - rewrite E2. unfold replayed. cbn [mbind list_bind]. by rewrite foldl_app.
  - eapply framed_trans; [eapply framed_weaken; [exact F1|]|eapply framed_weaken; [exact F2|]].
    + intros n Hn. apply Hn, list_elem_of_here.
    + intros n Hn id' Hin. apply Hn. by apply list_elem_of_further.
  - congruence.
  - intros id'. rewrite Hm. destruct (decide (id' ∈ ids)) as [Hin|Hin].
    + assert (id ≠ id') by (by intros ->). rewrite lookup_insert_ne by done.
      rewrite decide_True by (by apply list_elem_of_further). done.
    + destruct (decide (id' = id)) as [->|Hne'].
      * rewrite lookup_insert_eq, decide_True by apply list_elem_of_here. by rewrite Hseg.
      * rewrite lookup_insert_ne by done. rewrite decide_False; [done|].
        rewrite elem_of_cons. tauto.
  - intros id' seg' [->|Hin]%elem_of_cons Hseg'.
    + assert (seg' = seg) as -> by congruence. rewrite <- Dat1.
      eapply (framed_data _ _ _ (segmentFilename id) _ F2).
      * intros id' Hin. left. destruct (Hall id') as (? & _ & Hr'); [by apply list_elem_of_further|].
        apply not_eq_sym, Hne; [done|by eapply sr_u32].
      * rewrite Dir1. apply Hr.
    + apply Hdat; [done|]. rewrite lookup_insert_ne; [done|]. by intros ->.
Qed.
End recover_all.

(** C24: replaying a hint is replaying the segment.  For a segment of PUTs (what
    the compactor emits) whose hint file holds one entry per record, the fast
    path rebuilds the same index and the same clock, from any state, as the
    scan of the data does. *)
Theorem hint_replay_equals_scan kd last seg e ls :
  Forall log_ok ls → forallb is_put ls = true → quiet e →
  file_data (e_disk e) (s_file seg) = log_images ls → seg_sized seg (e_disk e) →
  hint_of (e_disk e) (s_id seg) = Ok (put_hints 0 ls) →
  ∃ kd' last' e1 e2, tryRecoverFromHint kd last seg e = (Ok (Some (kd', last')), e1)
    ∧ recoverSegment kd last seg false e = (Ok (kd', last', seg), e2)
    ∧ kd' = foldl replay_update kd (logs_updates (s_id seg) 0 ls).
Proof.
  intros Hok Hp Hq Hd Hs Hh.
  assert (Hsz : s_size seg = zlen (log_images ls)) by (by rewrite Hs, Hd).
  destruct (tryRecoverFromHint_quiet kd last seg e Hq) as (e1 & E1 & _ & _).
  rewrite Hh, put_hints_in_bounds, put_hints_apply in E1 by (done || lia).
  destruct (recoverSegment_quiet kd last seg false ls [] e Hq Hs) as (e2 & E2 & _ & _).
  { split; [done|]. rewrite app_nil_r. split; [done|]. by left. }
  eexists _, _, e1, e2. split; [done|]. split; [|done]. rewrite E2. f_equal. f_equal.
  f_equal. destruct seg. unfold cut. cbn in *. by f_equal.
Qed.

(** Two PUTs of one key in a merged segment with its hint. *)
Definition hinted_disk : disk :=
  let ls := [LPut 5 [x61] [x31]; LPut 7 [x61] [x32; x33]] in
  let hint := hint_image (put_hints 0 ls) in
  mkDisk {[ 0%N := mkInode (log_images ls) []; 1%N := mkInode hint [] ]}
    {[ segmentFilename 3 := 0%N; hintFilename 3 := 1%N ]} ∅ 2.

Lemma hint_replay_equals_scan_witness :
  let ls := [LPut 5 [x61] [x31]; LPut 7 [x61] [x32; x33]] in
  let e := mkEnv hinted_disk [] [] in
  let seg := mkSegment 3 0 None (zlen (log_images ls)) in
  ∃ kd' last' e1 e2, tryRecoverFromHint ∅ 0 seg e = (Ok (Some (kd', last')), e1)
    ∧ recoverSegment ∅ 0 seg false e = (Ok (kd', last', seg), e2)
    ∧ kd' = foldl replay_update ∅ (logs_updates (s_id seg) 0 ls).
Proof.
  intros ls e seg.
  apply (hint_replay_equals_scan ∅ 0 seg e ls); [decided|decided|done|vm_compute; reflexivity..].
Defined.
