(* ===== verification/Db.v ===== *)
(** * The engine's state (src/internal/engine/engine.go, stats.go)

    The [DB] record, the state monad its methods are written in, the write
    path's building blocks (clock, encode buffer, appends to the active
    segment) and [rotateActive].  The writer goroutine is the only one to
    change this state outside Open and Close, so its methods are functions of
    the whole state; the locks only order them. *)
From S2P Require Import Prelude LogRecord Keydir Storage Names Manifest.

Definition ErrKeyNotFound : string := "engine: key not found".
Definition ErrDBClosed : string := "engine: db closed".
Definition ErrKeyTooLarge : string := "engine: key exceeds 64 KiB".
Definition ErrValueTooLarge : string := "engine: value exceeds 16 MiB".
Definition ErrEmptyKey : string := "engine: empty key".
Definition ErrBatchTooLarge : string := "engine: batch exceeds size limit".
Definition ErrInvalidBatchEntry : string := "engine: invalid batch entry".
Definition ErrWritesDisabled : string := "engine: writes disabled (manifest durability uncertain)".

Definition defaultMaxSegmentSize : Z := 256 * 1024 * 1024.
Definition defaultWriteQueueDepth : Z := 64.
Definition defaultMaxBatchEncodedSize : Z := 64 * 1024 * 1024.

(** [Options]; the logger has no effect on the state and is left out. *)
Record Options := mkOptions {
  Dir : string;
  MaxSegmentSize : Z;
  SyncOnPut : bool;
  WriteQueueDepth : Z;
  MaxBatchEncodedSize : Z;
  CompactionInterval : Z;
}.

Record Stats := mkStats {
  KeyCount : Z;
  BytesOnDisk : Z;
}.

(** [active] is a pointer into [segments]: it is kept as the segment's id.  A
    nil [segments] map (after Close) is [None].  [encBuf] is the whole backing
    array of the reused encode buffer. *)
Record DB := mkDB {
  opts : Options;
  active : option Z;
  nextID : Z;
  lastTstamp : Z;
  encBuf : bytes;
  segments : option (gmap Z segment);
  index : keydir;
  closed : bool;
  closeErr : option error;
  writesDisabled : bool;
  cachedStats : option Stats;
}.

(** Reading a nil map finds nothing. *)
Definition segs (db : DB) : gmap Z segment := default ∅ (segments db).

Definition set_active (a : option Z) (db : DB) : DB :=
  mkDB (opts db) a (nextID db) (lastTstamp db) (encBuf db) (segments db) (index db) (closed db)
    (closeErr db) (writesDisabled db) (cachedStats db).
Definition set_nextID (n : Z) (db : DB) : DB :=
  mkDB (opts db) (active db) n (lastTstamp db) (encBuf db) (segments db) (index db) (closed db)
    (closeErr db) (writesDisabled db) (cachedStats db).
Definition set_lastTstamp (t : Z) (db : DB) : DB :=
  mkDB (opts db) (active db) (nextID db) t (encBuf db) (segments db) (index db) (closed db)
    (closeErr db) (writesDisabled db) (cachedStats db).
Definition set_encBuf (b : bytes) (db : DB) : DB :=
  mkDB (opts db) (active db) (nextID db) (lastTstamp db) b (segments db) (index db) (closed db)
    (closeErr db) (writesDisabled db) (cachedStats db).
Definition set_segments (m : option (gmap Z segment)) (db : DB) : DB :=
  mkDB (opts db) (active db) (nextID db) (lastTstamp db) (encBuf db) m (index db) (closed db)
    (closeErr db) (writesDisabled db) (cachedStats db).
Definition set_index (k : keydir) (db : DB) : DB :=
  mkDB (opts db) (active db) (nextID db) (lastTstamp db) (encBuf db) (segments db) k (closed db)
    (closeErr db) (writesDisabled db) (cachedStats db).
Definition set_closed (err : option error) (st : Stats) (db : DB) : DB :=
  mkDB (opts db) (active db) (nextID db) (lastTstamp db) (encBuf db) (segments db) (index db) true
    err (writesDisabled db) (Some st).
Definition set_writesDisabled (db : DB) : DB :=
  mkDB (opts db) (active db) (nextID db) (lastTstamp db) (encBuf db) (segments db) (index db) (closed db)
    (closeErr db) true (cachedStats db).

Definition put_segment (s : segment) (db : DB) : DB :=
  set_segments (Some (<[s_id s := s]> (segs db))) db.

(** ** The state monad *)

Abbreviation state := (DB * env)%type.
Abbreviation M A := (state → result A * state).

Definition lift {A} (m : env → result A * env) : M A :=
  λ s, let (r, e) := m s.2 in (r, (s.1, e)).
Definition lift_ (f : env → env) : state → state := λ s, (s.1, f s.2).
Definition modify (f : DB → DB) : M unit := λ s, (Ok tt, (f s.1, s.2)).
Definition get_db : M DB := λ s, (Ok s.1, s).
Definition fail {A} (err : error) : M A := λ s, (Err err, s).

Definition nil_dereference : error := errorf "nil pointer dereference".

(** Run [f] on the active segment; only a DB without one would panic. *)
Definition with_active {A} (f : segment → env → result A * segment * env) : M A :=
  λ s, let (db, e) := s in
  match active db ≫= λ a, segs db !! a with
  | None => (Err nil_dereference, s)
  | Some seg => let '(r, seg, e) := f seg e in (r, (put_segment seg db, e))
  end.

Definition active_size (db : DB) : Z :=
  match active db ≫= λ a, segs db !! a with Some seg => s_size seg | None => 0 end.

(** ** Building blocks of the write path *)

(** [db.nextID.Add(1) - 1] on a uint32. *)
Definition claimID : M Z :=
  λ s, let n := to_u32 (nextID s.1 + 1) in (Ok (to_u32 (n - 1)), (set_nextID n s.1, s.2)).

(** The monotonic timestamp of the writer. *)
Definition tick : M Z :=
  λ s, let (now, e) := time_Now s.2 in
       let now := if now <=? lastTstamp s.1 then to_i64 (lastTstamp s.1 + 1) else now in
       (Ok now, (set_lastTstamp now s.1, e)).

(** Grow [encBuf] to [need] bytes if its capacity is less, and encode into it. *)
Definition encode_buffer (need : Z) (enc : bytes → result Z * bytes) : M bytes :=
  λ s, let buf := if zlen (encBuf s.1) <? need then make_bytes need else encBuf s.1 in
       let (r, out) := enc (slice_to buf need) in
       let s := (set_encBuf (out ++ slice_from buf need) s.1, s.2) in
       match r with
       | Err err => (Err err, s)
       | Ok _ => (Ok out, s)
       end.

Definition append_active (buf : bytes) : M Z :=
  do! offset := with_active (λ seg, append seg buf) in
  do! _ := with_active flush in
  eret offset.

(** ** Rotation *)

Definition live_ids (db : DB) : list Z := elements (dom (segs db)).

(** [next.close(); os.Remove(next.path)] *)
Definition discard_segment (next : segment) (e : env) : env :=
  ignore (os_Remove (s_path next)) (ignore (close next) e).

(** Everything before the write lock is taken. *)
Definition rotate_prepare : M segment :=
  do! _ := with_active sync in
  do! id := claimID in
  do! next := lift (createSegment id) in
  do! _ := on_error (lift syncDir) (lift_ (discard_segment next))
             (λ err, EWrap "rotate: fsync data dir before manifest: %w" [err]) in
  λ s, let (db, e) := s in
    let live := live_ids db ++ [s_id next] in
    match writeManifest live (s_id next) e with
    | (Err err, e) =>
        if errors_Is err ErrManifestPublishedButUncertain
        then (Err (EWrap "rotate: %w: %v" [ESentinel ErrWritesDisabled]),
              (set_writesDisabled db, ignore (close next) e))
        else (Err (EWrap "rotate: persist manifest: %w" [err]), (db, discard_segment next e))
    | (Ok _, e) => (Ok next, (db, e))
    end.

(** Under the lock. *)
Definition rotate_publish (next : segment) : M unit :=
  modify (λ db, set_active (Some (s_id next)) (put_segment next db)).

Definition rotateActive : M unit := do! next := rotate_prepare in rotate_publish next.

(** ** Reading *)

Definition statsLocked (db : DB) : Stats :=
  mkStats (to_u64 (Keydir.size (index db)))
    (map_fold (λ _ seg n, to_u64 (n + to_u64 (s_size seg))) 0 (segs db)).

Definition db_Stats (db : DB) : Stats :=
  match segments db with
  | None => match cachedStats db with Some s => s | None => mkStats 0 0 end
  | Some _ => statsLocked db
  end.

(** [Get]: the closed check is made before and under the read lock; between
    them only Close can have run, which is the closed state itself. *)
Definition Get (key : bytes) : M bytes :=
  λ s, let (db, e) := s in
  if zlen key =? 0 then (Err (ESentinel ErrEmptyKey), s)
  else if closed db then (Err (ESentinel ErrDBClosed), s)
  else match Keydir.get (index db) key with
       | None => (Err (ESentinel ErrKeyNotFound), s)
       | Some entry =>
         match segs db !! fileID entry with
         | None => (Err (ESentinel ErrKeyNotFound), s)
         | Some seg =>
           if 0 <? valueLen entry then
             match readAt seg (valueLen entry) (valuePos entry) e with
             | (Err err, e) => (Err (EWrap "engine: read value: %w" [err]), (db, e))
             | (Ok buf, e) => (Ok buf, (db, e))
             end
           else (Ok [], s)
         end
       end.

Definition Read (key : bytes) : M bytes := Get key.

(** The materialisation loop of [ReadKeyRange]. *)
Fixpoint materialise (db : DB) (pairs : list rangePair) (e : env) : result (list (bytes * bytes)) * env :=
  match pairs with
  | [] => (Ok [], e)
  | (key, entry) :: pairs' =>
    match segs db !! fileID entry with
    | None => (Err (errorf "engine: ReadKeyRange: keydir/segments out of sync for key %q (file %d)"), e)
    | Some seg =>
      let read := if 0 <? valueLen entry then readAt seg (valueLen entry) (valuePos entry)
                  else eret [] in
      match read e with
      | (Err err, e) => (Err (EWrap "engine: ReadKeyRange read value for key %q: %w" [err]), e)
      | (Ok val, e) =>
        match materialise db pairs' e with
        | (Err err, e) => (Err err, e)
        | (Ok rest, e) => (Ok ((key, val) :: rest), e)
        end
      end
    end
  end.

(** The callbacks: [fn] may keep state [A]; it returns whether to go on. *)
Fixpoint visit {A} (fn : bytes → bytes → A → bool * A) (l : list (bytes * bytes)) (a : A) : A :=
  match l with
  | [] => a
  | (k, v) :: l' => let (go, a) := fn k v a in if go then visit fn l' a else a
  end.

(** [ReadKeyRange] with a callback over a state [A]; a nil callback is [None]. *)
Definition ReadKeyRange {A} (start end_ : option bytes) (fn : option (bytes → bytes → A → bool * A))
    (a : A) : M A :=
  λ s, let (db, e) := s in
  match fn with
  | None => (Err (errorf "engine: ReadKeyRange: nil callback"), s)
  | Some fn =>
    if closed db then (Err (ESentinel ErrDBClosed), s)
    else if match start, end_ with
            | Some x, Some y => negb (bytes_Compare x y <? 0)
            | _, _ => false
            end
    then (Ok a, s)
    else
      let pairs := snapshotRange (index db) start end_ in
      match materialise db pairs e with
      | (Err err, e) => (Err err, (db, e))
      | (Ok l, e) => (Ok (visit fn l a), (db, e))
      end
  end.
