(* ===== verification/Invariant.v ===== *)
(** * The engine's invariant

    What holds of an open [DB] and its disk between two steps of the writer,
    for a ghost log per segment: each segment file holds exactly its log, every
    index entry is the location some record of the log wrote, and no timestamp
    is ahead of the clock.  [abs] is the key-value map the index and the files
    stand for; [keeps] relates states between which that map did not change. *)
From S2P Require Import Prelude LogRecord Keydir Storage Frame Names Publish Manifest HintFile Log Recovery Db.

Abbreviation logmap := (Z → list logrec).

Definition upd (logs : logmap) (id : Z) (ls : list logrec) : logmap :=
  λ i, if decide (i = id) then ls else logs i.

Lemma upd_eq logs id ls : upd logs id ls id = ls.
Proof. unfold upd. by rewrite decide_True. Qed.
Lemma upd_ne logs id ls i : i ≠ id → upd logs id ls i = logs i.
Proof. unfold upd. intros. by rewrite decide_False. Qed.

(** A sealed segment has nothing left to flush. *)
Definition clean (s : segment) : Prop := s_bw s = None ∨ s_bw s = Some bufio_new.

(** The active segment is flushed and holds its log, or its writer has failed
    for good in the middle of one record; a sealed segment holds its log. *)
Record seg_inv (logs : logmap) (act : option Z) (e : env) (id : Z) (s : segment) : Prop := {
  si_id : s_id s = id;
  si_u32 : is_u32 id;
  si_linked : d_dir (e_disk e) !! segmentFilename id = Some (s_file s);
  si_logs : Forall log_ok (logs id);
  si_data :
    let data := file_data (e_disk e) (s_file s) in
    if decide (act = Some id)
    then (quiescent s e ∧ data = log_images (logs id))
         ∨ (writer_failed s ∧ ∃ l p, log_ok l ∧ p `prefix_of` log_image l ∧ data = log_images (logs id) ++ p)
    else clean s ∧ s_size s = zlen data ∧ data = log_images (logs id);
}.

(** The index updates a segment's log stands for. *)
Definition all_updates (logs : logmap) (id : Z) : list update := logs_updates id 0 (logs id).

(** [en] is what the newest update of [k] wrote, whatever the order the
    segments are read in: in its own segment the later updates of [k] are
    older than it and the earlier ones not newer, elsewhere all are older.
    Unless [newest], only that some update of [k] wrote it. *)
Record winner (newest : bool) (logs : logmap) (live : Z → Prop) (k : bytes) (en : keydirEntry) : Prop := {
  wn_here : ∃ pre post,
    all_updates logs (fileID en) = pre ++ mkUpdate k (tstamp en) (Some en) :: post
    ∧ (∀ u, u ∈ pre → u_key u = k → newest = true → u_ts u <= tstamp en)
    ∧ (∀ u, u ∈ post → u_key u = k → newest = true → u_ts u < tstamp en);
  wn_other : ∀ id u, live id → id ≠ fileID en → u ∈ all_updates logs id → u_key u = k →
    newest = true → u_ts u < tstamp en;
}.

Definition is_live_id (db : DB) (id : Z) : Prop := is_Some (segs db !! id).

Lemma elem_of_live_ids db id : id ∈ live_ids db ↔ is_live_id db id.
Proof. unfold live_ids, is_live_id. by rewrite elem_of_elements, elem_of_dom. Qed.
Lemma elem_of_sorted_live db id : id ∈ sort_ids (live_ids db) ↔ is_live_id db id.
Proof. by rewrite elem_of_sort_ids, elem_of_live_ids. Qed.

(** What a later Open needs of the disk: the manifest lists the live segments,
    ids not handed out yet have no hint file, the hints of sealed segments are
    right and the active segment has none. *)
Record stored (logs : logmap) (db : DB) (e : env) : Prop := {
  st_manifest : ∀ a, writesDisabled db = false → active db = Some a →
    manifest_of (e_disk e) = Ok (canonical (live_ids db), a);
  st_next : is_u32 (nextID db);
  st_below : ∀ id, is_u32 id → is_live_id db id ∨ is_Some (d_dir (e_disk e) !! hintFilename id) →
    id < nextID db;
  st_hint : ∀ id s, segs db !! id = Some s →
    if decide (active db = Some id) then d_dir (e_disk e) !! hintFilename id = None
    else hint_harmless (e_disk e) s (logs id);
}.

(** A name whose entry in the directory is on stable storage, and one whose
    file is too. *)
Definition named (d : disk) (n : bytes) : Prop := d_sdir d !! n = d_dir d !! n.
Definition settled (d : disk) (n : bytes) : Prop :=
  named d n ∧ ∀ i, d_dir d !! n = Some i → file_synced d i = file_data d i.

(** All but the contents of the active segment survives a power loss. *)
Record durable (db : DB) (e : env) : Prop := {
  du_named : ∀ id, is_live_id db id → named (e_disk e) (segmentFilename id);
  du_sealed : ∀ id, is_live_id db id → active db ≠ Some id → settled (e_disk e) (segmentFilename id);
  du_hint : ∀ id, is_live_id db id → settled (e_disk e) (hintFilename id);
  du_manifest : writesDisabled db = false → settled (e_disk e) manifestFilename;
}.

(** The index is the replay of the whole logs, deletions included; this needs
    every record ever written, so compaction ends it. *)
Record exact (logs : logmap) (db : DB) : Prop := {
  ex_index : index db = foldl replay_update ∅ (concat (all_updates logs <$> sort_ids (live_ids db)));
  ex_last : ∀ a id, active db = Some a → is_live_id db id → id <= a;
  ex_below : ∀ id, is_live_id db id → id < nextID db;
}.

(** Which of the optional parts are claimed. *)
Record mode := mkMode { m_stored : bool; m_durable : bool; m_exact : bool; m_newest : bool }.

Record db_inv (m : mode) (logs : logmap) (db : DB) (e : env) : Prop := {
  di_disk : disk_ok (e_disk e);
  di_open : segments db = Some (segs db);
  di_active : ∃ a s, active db = Some a ∧ segs db !! a = Some s;
  di_seg : ∀ id s, segs db !! id = Some s → seg_inv logs (active db) e id s;
  di_index : ∀ k en, index db !! k = Some en →
    is_live_id db (fileID en) ∧ winner (m_newest m) logs (is_live_id db) k en;
  di_clock : is_i64 (lastTstamp db);
  di_ts : ∀ id l, is_live_id db id → l ∈ logs id → log_ts l <= lastTstamp db;
  di_stored : m_stored m = true → stored logs db e;
  di_durable : m_durable m = true → durable db e;
  di_exact : m_exact m = true → exact logs db;
}.

(** Rotation keeps [m] unless the next id is the last of its width. *)
Definition id_left (m : mode) (db : DB) : Prop :=
  (m_durable m = true → m_stored m = true)
  ∧ (m_stored m || m_exact m = true → nextID db < 2 ^ 32 - 1).

(** ** The abstract map *)

Definition value_of (m : gmap Z segment) (d : disk) (en : keydirEntry) : option bytes :=
  s ← m !! fileID en; Some (entry_value_in (file_data d (s_file s)) en).

Definition abs (db : DB) (e : env) : gmap bytes bytes :=
  omap (value_of (segs db) (e_disk e)) (index db).

Definition log_value (logs : logmap) (en : keydirEntry) : bytes :=
  entry_value_in (log_images (logs (fileID en))) en.

(** An update of a log: its entry is the location of its value in the file. *)
Lemma logs_updates_spec ls : ∀ fid file pre post u,
  Forall log_ok ls → file = pre ++ log_images ls ++ post →
  u ∈ logs_updates fid (zlen pre) ls →
  ∃ l kv, l ∈ ls ∧ kv ∈ zip (log_keys l) (log_values l)
    ∧ update_spec file fid (zlen pre) (zlen pre + zlen (log_images ls)) (log_ts l) kv.1 kv.2 u.
Proof.
  induction ls as [|l ls IH]; intros fid file pre post u Hok -> Hu; [by apply not_elem_of_nil in Hu|].
  inversion Hok as [|? ? Hl Hls]; subst. cbn [logs_updates] in Hu.
  rewrite log_images_cons, <- app_assoc, zlen_app in *.
  pose proof (zlen_nonneg (log_images ls)). pose proof (log_image_nonempty l).
  apply elem_of_app in Hu as [Hu|Hu].
  - pose proof (log_updates_spec _ pre l (log_images ls ++ post) fid Hl eq_refl) as H2.
    apply list_elem_of_lookup in Hu as [i Hi].
    destruct (Forall2_lookup_r _ _ _ _ _ H2 Hi) as (kv & Hkv & Hs).
    exists l, kv. split; [by left|]. split; [by eapply list_elem_of_lookup_2|].
    destruct Hs as (E1 & E2 & E3). split; [done|]. split; [done|].
    destruct (kv.2), (u_entry u); [|done..]. destruct E3 as (? & ? & ? & [? [? ?]] & ?).
    split; [done|]. split; [done|]. split; [done|]. split; [|done]. split; [done|]. split; [done|lia].
  - rewrite <- zlen_app in Hu.
    destruct (IH fid (pre ++ log_image l ++ log_images ls ++ post) (pre ++ log_image l) post u) as (l' & kv & Hin & Hkv & Hs);
      [done|by rewrite <- !app_assoc|done|].
    exists l', kv. split; [by right|]. split; [done|].
    destruct Hs as (E1 & E2 & E3). split; [done|]. split; [done|]. rewrite zlen_app in E3.
    destruct (kv.2), (u_entry u); [|done..]. destruct E3 as (? & ? & ? & [? [? ?]] & ?).
    split; [done|]. split; [done|]. split; [lia|]. split; [|done]. split; [done|]. split; [done|lia].
Qed.

Lemma backed_entry fid ls k ts en :
  Forall log_ok ls → mkUpdate k ts (Some en) ∈ logs_updates fid 0 ls →
  fileID en = fid ∧ tstamp en = ts ∧ entry_in (zlen (log_images ls)) en
  ∧ ∃ l, l ∈ ls ∧ log_ts l = ts ∧ (k, Some (entry_value_in (log_images ls) en)) ∈ zip (log_keys l) (log_values l).
Proof.
  intros Hok Hu. eapply (logs_updates_spec ls fid _ [] []) in Hu as (l & [k' v] & Hin & Hkv & (E1 & E2 & E3));
    [|done|done]. cbn in *. rewrite app_nil_r in E3. destruct v as [v|]; [|done].
  destruct E3 as (-> & -> & _ & Hr & Hv). rewrite Z.add_0_l in Hr. subst. split; [done|]. split; [done|].
  split; [done|]. by exists l.
Qed.

Lemma entry_value_app file more en :
  entry_in (zlen file) en → entry_value_in (file ++ more) en = entry_value_in file en.
Proof. intros (H1 & H2 & H3). unfold entry_value_in. apply slice_app_l; lia. Qed.

(** An update carries the timestamp of one of the records. *)
Lemma all_updates_ts logs id u :
  u ∈ all_updates logs id → ∃ l, l ∈ logs id ∧ u_ts u = log_ts l.
Proof.
  unfold all_updates. generalize 0. induction (logs id) as [|l ls IH]; intros start H; cbn in H;
    [by apply not_elem_of_nil in H|].
  apply elem_of_app in H as [H|H].
  - exists l. split; [by left|]. destruct l; cbn in H; try (apply list_elem_of_singleton in H; by subst).
    apply list_elem_of_fmap in H as (d & -> & _). done.
  - destruct (IH _ H) as (l' & ? & ?). exists l'. split; [by right|done].
Qed.

Section inv.
Context (m : mode) (logs : logmap) (db : DB) (e : env) (Hinv : db_inv m logs db e).

Lemma inv_has_file id s : segs db !! id = Some s → has_file (s_file s) e.
Proof using Hinv.
  intros H. eapply (dk_linked _ (di_disk _ _ _ _ Hinv)). apply (di_seg _ _ _ _ Hinv _ _ H).
Qed.

(** Every segment's file starts with its log. *)
Lemma inv_file id s :
  segs db !! id = Some s → ∃ tail, file_data (e_disk e) (s_file s) = log_images (logs id) ++ tail.
Proof using Hinv.
  intros H. destruct (di_seg _ _ _ _ Hinv _ _ H) as [_ _ _ _ Hd]. cbn zeta in Hd.
  destruct (decide (active db = Some id)).
  - destruct Hd as [[_ ->]|[_ (l & p & _ & _ & ->)]]; [exists []; by rewrite app_nil_r|by exists p].
  - destruct Hd as (_ & _ & ->). exists []. by rewrite app_nil_r.
Qed.

Lemma inv_entry k en :
  index db !! k = Some en →
  ∃ s, segs db !! fileID en = Some s
    ∧ entry_in (zlen (log_images (logs (fileID en)))) en
    ∧ entry_in (zlen (file_data (e_disk e) (s_file s))) en
    ∧ value_of (segs db) (e_disk e) en = Some (log_value logs en)
    ∧ ∃ l, l ∈ logs (fileID en) ∧ log_ts l = tstamp en
        ∧ (k, Some (log_value logs en)) ∈ zip (log_keys l) (log_values l).
Proof using Hinv.
  intros H. destruct (di_index _ _ _ _ Hinv _ _ H) as [[s Hs] [(pre & post & Hb & _) _]].
  assert (Hu : mkUpdate k (tstamp en) (Some en) ∈ logs_updates (fileID en) 0 (logs (fileID en))).
  { unfold all_updates in Hb. rewrite Hb. apply elem_of_app. right. by left. }
  exists s. split; [done|].
  destruct (di_seg _ _ _ _ Hinv _ _ Hs) as [_ _ _ Hok _].
  destruct (backed_entry _ _ _ _ _ Hok Hu) as (_ & _ & Hin & l & Hl & Ht & Hv).
  destruct (inv_file _ _ Hs) as [tail Ht']. split; [done|]. split.
  { rewrite Ht', zlen_app. pose proof (zlen_nonneg tail). destruct Hin as (? & ? & ?). repeat split; lia. }
  split.
  - unfold value_of. rewrite Hs. cbn. f_equal. rewrite Ht'. by apply entry_value_app.
  - by exists l.
Qed.

Lemma abs_logs : abs db e = log_value logs <$> index db.
Proof using Hinv.
  apply map_eq. intros k. unfold abs. rewrite lookup_omap, lookup_fmap.
  destruct (index db !! k) as [en|] eqn:E; [|done]. cbn.
  destruct (inv_entry _ _ E) as (s & _ & _ & _ & -> & _). done.
Qed.
End inv.

(** ** What the index holds is within the limits *)

Lemma log_value_ok l k v : log_ok l → (k, Some v) ∈ zip (log_keys l) (log_values l) → key_ok k ∧ value_ok v.
Proof.
  intros [_ Hok] H. destruct l as [t k' v'|t k' v'|t es]; cbn [log_keys log_values zip zip_with] in *.
  - apply list_elem_of_singleton in H as [= -> ->]. exact Hok.
  - by apply list_elem_of_singleton in H.
  - destruct Hok as (Hes & _). rewrite zip_with_fmap_l, zip_with_fmap_r, zip_with_diag in H.
    apply list_elem_of_fmap in H as (x & Hx & Hin). rewrite Forall_forall in Hes. destruct (Hes _ Hin) as [Hk Hv].
    destruct (be_Delete x); [done|]. injection Hx as -> ->. auto.
Qed.

Lemma inv_limits m logs (db : DB) (e : env) k en :
  db_inv m logs db e → index db !! k = Some en →
  key_ok k ∧ value_ok (log_value logs en) ∧ is_i64 (tstamp en).
Proof.
  intros Hi E. destruct (inv_entry _ _ _ _ Hi _ _ E) as (s & Hs & _ & _ & _ & l & Hl & <- & Hz).
  destruct (di_seg _ _ _ _ Hi _ _ Hs) as [_ _ _ Hlogs _]. rewrite Forall_forall in Hlogs.
  destruct (log_value_ok l k _ (Hlogs l Hl) Hz). split; [done|]. split; [done|]. by apply Hlogs.
Qed.

Lemma abs_key_value m logs (db : DB) (e : env) k v :
  db_inv m logs db e → abs db e !! k = Some v → key_ok k ∧ value_ok v.
Proof.
  intros Hi. rewrite (abs_logs _ _ _ _ Hi), lookup_fmap. destruct (index db !! k) as [en|] eqn:E; [|done].
  intros [= <-]. by destruct (inv_limits _ _ _ _ _ _ Hi E) as (? & ? & _).
Qed.

(** ** Steps that keep the map *)

(** The index is the same and the logs it points into at most grow. *)
Record keeps (m : mode) (logs logs' : logmap) (s s' : state) : Prop := {
  kp_inv : db_inv m logs' s'.1 s'.2;
  kp_index : index s'.1 = index s.1;
  kp_logs : ∀ id, is_live_id s.1 id → is_live_id s'.1 id ∧ logs id `prefix_of` logs' id;
  kp_ts : lastTstamp s.1 <= lastTstamp s'.1;
  kp_opts : opts s'.1 = opts s.1;
  kp_closed : closed s'.1 = closed s.1;
  kp_disabled : writesDisabled s.1 = true → writesDisabled s'.1 = true;
}.

Lemma keeps_refl m logs s : db_inv m logs s.1 s.2 → keeps m logs logs s s.
Proof. by split. Qed.
Lemma keeps_trans m logs1 logs2 logs3 s1 s2 s3 :
  keeps m logs1 logs2 s1 s2 → keeps m logs2 logs3 s2 s3 → keeps m logs1 logs3 s1 s3.
Proof.
  intros [I1 X1 L1 T1 O1 C1 D1] [I2 X2 L2 T2 O2 C2 D2]. split; [done|congruence| |lia|congruence..|auto].
  intros id H. destruct (L1 id H) as [H1 E1]. destruct (L2 id H1) as [H2 E2]. split; [done|by etrans].
Qed.

Lemma log_value_prefix logs logs' en :
  logs (fileID en) `prefix_of` logs' (fileID en) →
  entry_in (zlen (log_images (logs (fileID en)))) en → log_value logs' en = log_value logs en.
Proof. intros [k Hk] H. unfold log_value. rewrite Hk, log_images_app. by apply entry_value_app. Qed.

Lemma keeps_abs m logs logs' db e db' e' :
  db_inv m logs db e → keeps m logs logs' (db, e) (db', e') → abs db' e' = abs db e.
Proof.
  intros Hi [Hi' Hx Hl _ _ _ _]. cbn [fst snd] in *. rewrite (abs_logs _ _ _ _ Hi), (abs_logs _ _ _ _ Hi'), Hx.
  apply map_eq. intros k. rewrite !lookup_fmap. destruct (index db !! k) as [en|] eqn:E; [|done].
  cbn. f_equal. destruct (inv_entry _ _ _ _ Hi _ _ E) as (sg & Hs & Hin & _).
  apply log_value_prefix; [|done]. apply Hl. by exists sg.
Qed.

(** Appends frame every other name. *)
Lemma appended_framed ino q e e' :
  disk_ok (e_disk e) → appended ino q e e' →
  framed (λ n, d_dir (e_disk e) !! n ≠ Some ino) (e_disk e) (e_disk e').
Proof.
  intros [F L I] [Dir Sd Nx _ Dom _ Oth]. split; [split| | |].
  - intros i. rewrite Dom, Nx. apply F.
  - intros n i. rewrite Dir, Dom. apply L.
  - intros n n' i. rewrite Dir. apply I.
  - intros n _. by rewrite Dir.
  - intros n i Hn Hi. assert (i ≠ ino) by congruence.
    split; [|left]; unfold file_data, file_synced; by rewrite Oth.
  - intros n _. left. by rewrite Sd.
Qed.

(** A segment whose file is framed keeps its invariant. *)
Lemma seg_inv_framed (P : bytes → Prop) logs act e e' id s :
  framed P (e_disk e) (e_disk e') → P (segmentFilename id) →
  seg_inv logs act e id s → seg_inv logs act e' id s.
Proof.
  intros F HP [Hid Hu Hlk Hok Hd].
  pose proof (framed_data _ _ _ _ _ F HP Hlk) as Hdat.
  pose proof (framed_linked _ _ _ _ _ F HP Hlk) as Hlk'.
  split; [done..|]. cbn zeta in *. rewrite Hdat. destruct (decide _); [|done].
  destruct Hd as [[(Hf & Hb & Hs) Hd]|Hd]; [left|by right]. split; [|done].
  split; [|split; [done|by rewrite Hdat]]. by eapply (dk_linked _ (fr_ok _ _ _ F)).
Qed.

Lemma framed_named P d d' n : framed P d d' → P n → named d n → named d' n.
Proof.
  unfold named. intros F HP H. destruct (fr_sdir _ _ _ F n HP) as [->|?]; [|done].
  rewrite H. by rewrite (fr_dir _ _ _ F n HP).
Qed.
Lemma framed_settled P d d' n : framed P d d' → P n → settled d n → settled d' n.
Proof.
  intros F HP [H S]. split; [by eapply framed_named|]. intros i Hi.
  rewrite (fr_dir _ _ _ F n HP) in Hi. destruct (fr_file _ _ _ F n i HP Hi) as [D [E|E]]; [|done].
  rewrite E, D. auto.
Qed.

(** The names an open [DB] relies on. *)
Definition reserved (db : DB) (n : bytes) : Prop :=
  (n = manifestFilename ∧ writesDisabled db = false)
  ∨ ∃ id, (n = segmentFilename id ∧ is_live_id db id)
          ∨ (n = hintFilename id ∧ (is_live_id db id ∨ is_u32 id ∧ nextID db <= id)).

Lemma hint_harmless_framed P d d' s ls :
  framed P d d' → P (hintFilename (s_id s)) → hint_harmless d s ls → hint_harmless d' s ls.
Proof. intros F HP. unfold hint_harmless, hint_of. by rewrite (framed_read _ _ _ _ F HP). Qed.

(** The parts about other files than the active segment's, when the active
    segment's state and log may have changed. *)
Section framed.
Context (P : bytes → Prop) (db db' : DB) (e e' : env) (F : framed P (e_disk e) (e_disk e')).
Context (Hw : writesDisabled db' = writesDisabled db) (Ha : active db' = active db).
Context (Hn : nextID db' = nextID db) (Hl : live_ids db' = live_ids db).

Lemma same_live id : is_live_id db' id ↔ is_live_id db id.
Proof using Hl. by rewrite <- !elem_of_live_ids, Hl. Qed.

Lemma stored_framed logs logs' :
  (∀ n, reserved db n → (∀ id, n ≠ segmentFilename id) → P n) →
  (∀ id s, segs db' !! id = Some s → active db ≠ Some id → segs db !! id = Some s ∧ logs' id = logs id) →
  (∀ id s, segs db !! id = Some s → s_id s = id) →
  stored logs db e → stored logs' db' e'.
Proof using F Hw Ha Hn Hl.
  intros HP Hsame Hids [M N B H].
  assert (HPh : ∀ id, is_live_id db id ∨ is_u32 id ∧ nextID db <= id → P (hintFilename id)).
  { intros id Hi. apply HP; [right; exists id; by right|]. intros j Hj. by apply (segment_not_hint j id). }
  split.
  - intros a Hw' Ha'. rewrite Hw in Hw'. rewrite Ha in Ha'. rewrite Hl. unfold manifest_of.
    rewrite (framed_read _ _ _ _ F); [by apply M|]. apply HP; [by left|]. intros id Hid.
    apply (f_equal filepath_Ext) in Hid. rewrite Ext_segmentFilename in Hid. discriminate.
  - by rewrite Hn.
  - intros id Hu Hid. rewrite same_live in Hid. rewrite Hn.
    destruct (Z.lt_ge_cases id (nextID db)) as [|Hge]; [done|].
    apply (B id Hu). destruct Hid as [?|Hh]; [by left|right].
    rewrite (fr_dir _ _ _ F) in Hh; [done|]. apply HPh. by right.
  - intros id s Hs. assert (is_live_id db id) as Hlid by (apply same_live; by exists s).
    rewrite Ha. destruct (decide (active db = Some id)) as [Hact|Hact].
    + rewrite (fr_dir _ _ _ F) by auto. destruct Hlid as [s0 Hs0]. specialize (H id s0 Hs0).
      by rewrite decide_True in H.
    + destruct (Hsame id s Hs Hact) as [Hs0 ->]. specialize (H id s Hs0). rewrite decide_False in H by done.
      eapply hint_harmless_framed; [done| |done]. rewrite (Hids _ _ Hs0). auto.
Qed.

Lemma durable_framed :
  (∀ n, reserved db n → (∀ a, active db = Some a → n ≠ segmentFilename a) → P n) →
  (∀ id, is_live_id db id → is_u32 id) → (∀ a, active db = Some a → is_live_id db a) →
  (∀ a, active db = Some a → named (e_disk e) (segmentFilename a) → named (e_disk e') (segmentFilename a)) →
  durable db e → durable db' e'.
Proof using F Hw Ha Hl.
  intros HP Hu Hact Hna [N S H M].
  assert (HPs : ∀ id, is_live_id db id → active db ≠ Some id → P (segmentFilename id)).
  { intros id Hi Hne. apply HP; [right; exists id; by left|]. intros a Haa E. apply Hne. rewrite Haa. f_equal.
    symmetry. apply segmentFilename_inj; auto. }
  split.
  - intros id Hi. rewrite same_live in Hi. destruct (decide (active db = Some id)) as [E|E].
    + apply Hna; auto.
    + eapply framed_named; eauto.
  - intros id Hi Hne. rewrite same_live in Hi. rewrite Ha in Hne. eapply framed_settled; eauto.
  - intros id Hi. rewrite same_live in Hi. eapply framed_settled; [done| |auto].
    apply HP; [right; exists id; right; auto|]. intros a _ E. by apply (segment_not_hint a id).
  - rewrite Hw. intros Hw'. eapply framed_settled; [done| |auto]. apply HP; [by left|].
    intros a _ E. apply (f_equal filepath_Ext) in E. rewrite Ext_segmentFilename in E. discriminate.
Qed.
End framed.

(** A change of the environment outside the reserved names keeps everything. *)
Lemma inv_framed (P : bytes → Prop) m logs db e e' :
  db_inv m logs db e → framed P (e_disk e) (e_disk e') → (∀ n, reserved db n → P n) →
  db_inv m logs db e'.
Proof.
  intros Hi F HP.
  assert (HPs : ∀ id, is_live_id db id → P (segmentFilename id)).
  { intros id H. apply HP. right. exists id. by left. }
  destruct Hi as [Hd Ho Ha Hs Hx Hc Ht Hst Hdu Hex].
  split; [apply F|done|done| |done|done|done| | |done].
  - intros id s H. eapply seg_inv_framed; [done| |by apply Hs]. apply HPs. by exists s.
  - intros Hm. eapply stored_framed; [done..| | | |by apply Hst].
    + auto.
    + by auto.
    + intros id s H. apply (si_id _ _ _ _ _ (Hs id s H)).
  - intros Hm. eapply durable_framed; [done..| | | | |by apply Hdu].
    + auto.
    + intros id [s H]. apply (si_u32 _ _ _ _ _ (Hs id s H)).
    + intros a E. destruct Ha as (a' & s & E' & Hs'). exists s. congruence.
    + intros a E. apply (framed_named _ _ _ _ F). apply HPs. destruct Ha as (a' & s & E' & Hs').
      exists s. congruence.
Qed.

(** ** What a reader relies on *)

(** The mode that claims none of the optional parts: the index points at values
    in the files of live segments. *)
Definition glance : mode := mkMode false false false false.

Lemma winner_glance nw logs live k en : winner nw logs live k en → winner false logs live k en.
Proof. by intros [(pre & post & E & _) _]; split; [exists pre, post|]. Qed.

Lemma inv_glance m logs db e : db_inv m logs db e → db_inv glance logs db e.
Proof.
  intros [? ? ? ? Hx ? ? _ _ _]. split; try done. intros k en H. destruct (Hx k en H) as [? W].
  split; [done|]. by eapply winner_glance.
Qed.

Lemma keeps_glance m logs logs' s s' : keeps m logs logs' s s' → keeps glance logs logs' s s'.
Proof. intros [? ? ? ? ? ? ?]. split; try done. by eapply inv_glance. Qed.

(** It reads the segments' files and no others. *)
Lemma glance_framed (P : bytes → Prop) logs db e e' :
  db_inv glance logs db e → framed P (e_disk e) (e_disk e') → (∀ id, is_live_id db id → P (segmentFilename id)) →
  db_inv glance logs db e'.
Proof.
  intros [Hd Ho Ha Hs Hx Hc Ht _ _ _] F HP. split; [apply F|done|done| |done..].
  intros id s H. eapply seg_inv_framed; [done| |by apply Hs]. apply HP. by exists s.
Qed.

Lemma keeps_framed (P : bytes → Prop) m logs db e e' :
  db_inv m logs db e → framed P (e_disk e) (e_disk e') → (∀ n, reserved db n → P n) →
  keeps m logs logs (db, e) (db, e').
Proof. intros Hi F HP. split; cbn; [by eapply inv_framed|done|done|lia|done..]. Qed.

(** The scalar fields that no part of the invariant reads. *)
Lemma keeps_encBuf m logs db e b : db_inv m logs db e → keeps m logs logs (db, e) (set_encBuf b db, e).
Proof.
  intros [? ? ? ? ? ? ? Hs Hd Hx]. split; cbn; [|done|done|lia|done..]. split; cbn; try done.
  - intros Hm. by destruct (Hs Hm).
  - intros Hm. by destruct (Hd Hm).
  - intros Hm. by destruct (Hx Hm).
Qed.
Lemma keeps_disabled m logs db e : db_inv m logs db e → keeps m logs logs (db, e) (set_writesDisabled db, e).
Proof.
  intros [? ? ? ? ? ? ? Hs Hd Hx]. split; cbn; [|done|done|lia|done..]. split; cbn; try done.
  - intros Hm. by destruct (Hs Hm).
  - intros Hm. by destruct (Hd Hm).
  - intros Hm. by destruct (Hx Hm).
Qed.
Lemma keeps_tstamp m logs db e t :
  db_inv m logs db e → is_i64 t → lastTstamp db <= t → keeps m logs logs (db, e) (set_lastTstamp t db, e).
Proof.
  intros [? ? ? ? ? ? Ht Hs Hd Hx] Hi Hle. split; cbn; [|done|done|lia|done..]. split; cbn; try done.
  - intros id l H Hl. specialize (Ht id l H Hl). lia.
  - intros Hm. by destruct (Hs Hm).
  - intros Hm. by destruct (Hd Hm).
  - intros Hm. by destruct (Hx Hm).
Qed.
Lemma keeps_nextID m logs db e n :
  db_inv m logs db e → (m_stored m || m_exact m = true → is_u32 n ∧ nextID db <= n) →
  keeps m logs logs (db, e) (set_nextID n db, e).
Proof.
  intros [? ? ? ? ? ? ? Hs Hd Hx] Hn. split; cbn; [|done|done|lia|done..]. split; cbn; try done.
  - intros Hm. destruct (Hs Hm) as [M N B H]. rewrite Hm in Hn. destruct (Hn eq_refl).
    split; cbn; [done|done| |done]. intros id Hu Hl. specialize (B id Hu Hl). lia.
  - intros Hm. by destruct (Hd Hm).
  - intros Hm. destruct (Hx Hm) as [E L B]. rewrite Hm, orb_true_r in Hn. destruct (Hn eq_refl).
    split; cbn; [done|done|]. intros id Hl. specialize (B id Hl). cbn. lia.
Qed.
