(* ===== verification/Confined.v ===== *)
(** * What the writer leaves alone

    Between two of its steps a compaction pass may find that the writer has
    worked.  [confined] is what the pass relies on: sealed segments and their
    files are untouched, the index finds less and less in them, and new segments
    take new ids. *)
From S2P Require Import Prelude LogRecord Keydir Storage Frame Names Publish Manifest HintFile Log Recovery Db Invariant.

Definition sealed (db : DB) (id : Z) (s : segment) : Prop := segs db !! id = Some s ∧ active db ≠ Some id.

(** The names the writer does not touch. *)
Definition away (db : DB) (n : bytes) : Prop :=
  not_manifest n ∧ (∀ a, active db = Some a → n ≠ segmentFilename a)
  ∧ ∀ i, is_u32 i → nextID db <= i → n ≠ segmentFilename i.

(** At most [k] ids are claimed on the way. *)
Record confined (k : Z) (logs logs' : logmap) (s s' : state) : Prop := {
  cf_next : nextID s.1 <= nextID s'.1 <= nextID s.1 + k;
  cf_active : ∀ a, active s'.1 = Some a → active s.1 = Some a ∨ is_u32 a ∧ nextID s.1 <= a;
  cf_sealed : ∀ id sg, sealed s.1 id sg → sealed s'.1 id sg ∧ logs' id = logs id;
  cf_live : ∀ id, is_live_id s'.1 id → is_live_id s.1 id ∨ nextID s.1 <= id;
  cf_index : ∀ key en sg, sealed s.1 (fileID en) sg → index s'.1 !! key = Some en → index s.1 !! key = Some en;
  cf_disk : framed (away s.1) (e_disk s.2) (e_disk s'.2);
}.

Lemma confined_trans k1 k2 k logs1 logs2 logs3 s1 s2 s3 :
  confined k1 logs1 logs2 s1 s2 → confined k2 logs2 logs3 s2 s3 → k = k1 + k2 → confined k logs1 logs3 s1 s3.
Proof.
  intros [N1 A1 S1 L1 X1 D1] [N2 A2 S2 L2 X2 D2] ->. split.
  - lia.
  - intros a Ha. destruct (A2 a Ha) as [H|[? ?]]; [auto|right; split; [done|lia]].
  - intros id sg H. destruct (S1 id sg H) as [H1 E1]. destruct (S2 id sg H1) as [H2 E2]. split; [done|congruence].
  - intros id H. destruct (L2 id H) as [H'|?]; [auto|right; lia].
  - intros key en sg H Hk. destruct (S1 _ _ H) as [H1 _]. eauto.
  - eapply framed_trans; [exact D1|]. eapply framed_weaken; [exact D2|]. intros n (M & A & I).
    split; [done|]. split; [|intros i Hi Hn; apply I; [done|lia]].
    intros a Ha. destruct (A1 a Ha) as [?|[? ?]]; auto.
Qed.

(** Changes of what [confined] does not look at. *)
Lemma confined_same logs (db db' : DB) (e e' : env) :
  nextID db' = nextID db → active db' = active db → segs db' = segs db → index db' = index db →
  framed (away db) (e_disk e) (e_disk e') → confined 0 logs logs (db, e) (db', e').
Proof.
  intros N A S X F. split; cbn; [lia| | | | |done].
  - rewrite A. by left.
  - unfold sealed. by rewrite A, S.
  - unfold is_live_id. rewrite S. by left.
  - by rewrite X.
Qed.

Lemma confined_refl logs (s : state) : disk_ok (e_disk s.2) → confined 0 logs logs s s.
Proof. intros H. destruct s. by apply confined_same; try apply framed_refl. Qed.

Lemma confined_le k k' logs logs' s s' : confined k logs logs' s s' → k <= k' → confined k' logs logs' s s'.
Proof. intros [[? ?] ? ? ? ? ?] ?. split; try done. lia. Qed.

(** A step that changes the active segment, and the index to entries in it. *)
Lemma confined_put logs logs' (db : DB) (e e' : env) a seg kd :
  active db = Some a → s_id seg = a → is_live_id db a →
  (∀ i, i ≠ a → logs' i = logs i) →
  (∀ key en, kd !! key = Some en → fileID en = a ∨ index db !! key = Some en) →
  framed (λ n, n ≠ segmentFilename a) (e_disk e) (e_disk e') →
  confined 0 logs logs' (db, e) (set_index kd (put_segment seg db), e').
Proof.
  intros Ha Hid Hl Hlogs Hkd F. split; cbn; [lia|by left| | | |].
  - intros id sg [Hs Hne]. cbn in *. assert (id ≠ a) by congruence. split; [|by apply Hlogs]. split; [|done].
    cbn. by rewrite Hid, lookup_insert_ne.
  - intros id. unfold is_live_id. cbn. rewrite Hid. intros [sg [[<- _]|[_ H]]%lookup_insert_Some]; [by left|].
    left. by exists sg.
  - intros key en sg [_ Hne] Hk. destruct (Hkd key en Hk) as [E|]; [|done]. cbn in Hne. congruence.
  - eapply framed_weaken; [exact F|]. intros n (_ & A & _). by apply A.
Qed.

(** A new active segment under a fresh id. *)
Lemma confined_rotate logs (db : DB) (e e' : env) id next :
  is_u32 id → nextID db = id → s_id next = id → (∀ i, is_live_id db i → i < id) →
  framed (away db) (e_disk e) (e_disk e') →
  confined 1 logs (upd logs id []) (db, e)
    (set_active (Some id) (put_segment next (set_nextID (id + 1) db)), e').
Proof.
  intros Hu Hn Hid Hlt F. split; cbn; [lia| | | | |done].
  - intros a [= <-]. right. split; [done|lia].
  - intros i sg [Hs Hne]. cbn in *. assert (i < id) by (apply Hlt; by exists sg).
    split; [split; cbn; [rewrite Hid, lookup_insert_ne by lia; done|intros [= ->]; lia]|]. rewrite upd_ne; [done|lia].
  - intros i. unfold is_live_id. cbn. rewrite Hid. intros [sg [[<- _]|[_ H]]%lookup_insert_Some]; [right; lia|].
    left. by exists sg.
  - by auto.
Qed.
