(* ===== verification/WritePath.v ===== *)
(** * The write path's building blocks keep the invariant

    The clock, the encode buffer, appends to the active segment and rotation:
    what each leaves of the state whichever calls fail. *)
From S2P Require Import Prelude LogRecord Keydir Hint Storage Frame Names Publish Manifest HintFile Log Recovery Db Invariant Confined.

Lemma wp_lift {A} (m : env → result A * env) db e Q :
  wp m e (λ r e', Q r (db, e')) → wp (lift m) (db, e) Q.
Proof. unfold wp, lift. cbn [fst snd]. by destruct (m e). Qed.

(** ** The clock *)

Lemma time_Now_spec e : is_i64 (time_Now e).1 ∧ e_disk (time_Now e).2 = e_disk e.
Proof.
  unfold time_Now. destruct (e_clock e) as [|t ts]; cbn; [done|]. split; [apply to_i64_is|done].
Qed.

Lemma tick_spec m logs db e :
  db_inv m logs db e → lastTstamp db < 2 ^ 63 - 1 →
  wp tick (db, e) (λ r s', keeps m logs logs (db, e) s' ∧
    ∃ now, r = Ok now ∧ is_i64 now ∧ lastTstamp db < now ∧ s'.1 = set_lastTstamp now db
      ∧ e_disk s'.2 = e_disk e).
Proof.
  intros Hi Hl. unfold wp, tick. cbn [fst snd]. destruct (time_Now_spec e) as [Hr Hd].
  destruct (time_Now e) as [now e']. cbn [fst snd] in *.
  set (now' := if now <=? lastTstamp db then _ else _).
  assert (is_i64 now' ∧ lastTstamp db < now') as [H1 H2].
  { unfold now'. pose proof (di_clock _ _ _ _ Hi) as Hc. unfold is_i64 in *.
    destruct (Z.leb_spec now (lastTstamp db)); [|done]. rewrite to_i64_id by (unfold is_i64; lia). unfold is_i64. lia. }
  split; [|by exists now'].
  eapply keeps_trans; [apply (keeps_tstamp _ _ _ _ now'); [done|done|lia]|].
  eapply (keeps_framed (λ _, True)); [apply keeps_tstamp; [done|done|lia]|rewrite Hd; apply framed_refl, Hi|done].
Qed.

(** ** The encode buffer *)

Lemma encode_buffer_run (db : DB) (e : env) need enc image :
  0 <= need → (∀ b, zlen b = need → enc b = (Ok need, image)) →
  wp (encode_buffer need enc) (db, e) (λ r s', r = Ok image ∧ ∃ b, s' = (set_encBuf b db, e)).
Proof.
  intros Hn He. unfold wp, encode_buffer. cbn [fst snd]. set (buf := if _ <? need then _ else _).
  assert (zlen (slice_to buf need) = need) as Hb.
  { apply zlen_slice_to. unfold buf. destruct (Z.ltb_spec (zlen (encBuf db)) need); [|lia].
    unfold make_bytes, zlen. rewrite length_replicate. lia. }
  rewrite (He _ Hb). split; [done|by eexists].
Qed.

Lemma encode_buffer_spec m logs db e need enc image :
  db_inv m logs db e → 0 <= need → (∀ b, zlen b = need → enc b = (Ok need, image)) →
  wp (encode_buffer need enc) (db, e) (λ r s', keeps m logs logs (db, e) s' ∧ r = Ok image
    ∧ ∃ b, s' = (set_encBuf b db, e)).
Proof.
  intros Hi Hn He. eapply wp_impl; [by apply encode_buffer_run|]. intros r s' (-> & b & ->).
  split; [by apply keeps_encBuf|]. split; [done|by eexists].
Qed.

(** ** The active segment *)

Lemma put_segment_id db s :
  segments db = Some (segs db) → segs db !! s_id s = Some s → put_segment s db = db.
Proof.
  intros Ho H. unfold put_segment. rewrite fin_maps.insert_id by done. rewrite <- Ho. by destruct db.
Qed.

Lemma quiescent_flush s e : s_bw s = Some bufio_new → flush s e = (Ok tt, s, e).
Proof. intros H. unfold flush. rewrite H. cbn. rewrite <- H. by destruct s. Qed.

Lemma sync_disk_framed P e e' ino :
  disk_ok (e_disk e) → e_disk e' = e_disk e ∨ e_disk e' = sync_data ino (e_disk e) →
  framed P (e_disk e) (e_disk e').
Proof. intros Hd [->| ->]; [by apply framed_refl|by apply sync_data_framed]. Qed.

(** What the active segment is. *)
Definition active_at (db : DB) (a : Z) (s : segment) : Prop :=
  active db = Some a ∧ segs db !! a = Some s.

Lemma inv_active m logs db e : db_inv m logs db e → ∃ a s, active_at db a s ∧ seg_inv logs (Some a) e a s.
Proof.
  intros Hi. destruct (di_active _ _ _ _ Hi) as (a & s & Ha & Hs). exists a, s. split; [done|].
  rewrite <- Ha. by apply (di_seg _ _ _ _ Hi).
Qed.

Lemma with_active_run {A} (f : segment → env → result A * segment * env) db e a s :
  active_at db a s →
  with_active f (db, e) = let '(r, s', e') := f s e in (r, (put_segment s' db, e')).
Proof. intros [Ha Hs]. unfold with_active. rewrite Ha. cbn. by rewrite Hs. Qed.

Lemma active_size_run db a s : active_at db a s → active_size db = s_size s.
Proof. intros [Ha Hs]. unfold active_size. rewrite Ha. cbn. by rewrite Hs. Qed.

Lemma sync_active_spec m logs db e :
  db_inv m logs db e →
  wp (with_active sync) (db, e) (λ r s', keeps m logs logs (db, e) s' ∧ s'.1 = db ∧
    (∀ P, framed P (e_disk e) (e_disk s'.2)) ∧
    match r with
    | Ok _ => ∃ a s, active_at db a s ∧ quiescent s s'.2
        ∧ file_data (e_disk s'.2) (s_file s) = log_images (logs a)
        ∧ file_synced (e_disk s'.2) (s_file s) = file_data (e_disk s'.2) (s_file s)
    | Err _ => True
    end).
Proof.
  intros Hi. destruct (inv_active _ _ _ _ Hi) as (a & s & Ha & [Hid Hu Hlk Hok Hd]).
  cbn zeta in Hd. rewrite decide_True in Hd by done.
  unfold wp. rewrite (with_active_run sync _ _ _ _ Ha). unfold sync.
  assert (Hput : put_segment s db = db) by (apply put_segment_id; [apply Hi|rewrite Hid; apply Ha]).
  destruct Hd as [[(Hf & Hb & Hs) Hd]|[Hw _]].
  - rewrite quiescent_flush by done. destruct (file_Sync (s_file s) e) as [r e'] eqn:E.
    cbn [fst snd]. rewrite Hput. apply file_Sync_inv in E.
    assert (F : ∀ P, framed P (e_disk e) (e_disk e')).
    { intros P. apply (sync_disk_framed _ _ _ (s_file s)); [apply Hi|]. destruct E as [[_ ->]|[_ ->]]; auto. }
    split; [by eapply (keeps_framed (λ _, True))|]. split; [done|]. split; [done|].
    destruct E as [[-> E]|[-> E]]; [|done]. exists a, s. split; [done|].
    rewrite E, file_synced_sync, !file_data_sync.
    split; [|done]. split; [unfold has_file; by rewrite E, inodes_sync|]. split; [done|].
    by rewrite E, file_data_sync.
  - destruct (flush_failed s e Hw) as [err ->]. cbn [fst snd]. rewrite Hput.
    split; [by apply keeps_refl|]. split; [done|]. split; [|done]. intros P. apply framed_refl, Hi.
Qed.

(** ** Applying a record's updates *)

Lemma foldl_write_lookup us kd k :
  (foldl write_update kd us !! k = kd !! k ∧ ∀ u, u ∈ us → u_key u ≠ k)
  ∨ ∃ pre u post, us = pre ++ u :: post ∧ u_key u = k ∧ foldl write_update kd us !! k = u_entry u
      ∧ ∀ u', u' ∈ post → u_key u' ≠ k.
Proof.
  induction us as [|u us IH] using rev_ind; [left; split; [done|]; by intros u ?%not_elem_of_nil|].
  rewrite foldl_app. cbn [foldl]. destruct (decide (u_key u = k)) as [<-|Hne].
  - right. exists us, u, []. split; [done|]. split; [done|]. split; [|by intros u' ?%not_elem_of_nil].
    unfold write_update. destruct (u_entry u); [by rewrite lookup_insert_eq|by rewrite lookup_delete_eq].
  - assert (write_update (foldl write_update kd us) u !! k = foldl write_update kd us !! k) as ->.
    { unfold write_update. destruct (u_entry u); [by rewrite lookup_insert_ne|by rewrite lookup_delete_ne]. }
    destruct IH as [[E H]|(pre & u0 & post & -> & Hk & E & H)]; [left|right].
    + split; [done|]. intros u' [?| ->%list_elem_of_singleton]%elem_of_app; auto.
    + exists pre, u0, (post ++ [u]). split; [by rewrite <- app_assoc|]. split; [done|]. split; [done|].
      intros u' [?| ->%list_elem_of_singleton]%elem_of_app; auto.
Qed.

Lemma log_updates_shape fid start l u :
  u ∈ log_updates fid start l →
  u_ts u = log_ts l ∧ ∀ en, u_entry u = Some en → fileID en = fid ∧ tstamp en = log_ts l.
Proof.
  destruct l as [ts k v|ts k v|ts es]; cbn; intros H.
  1, 2: apply list_elem_of_singleton in H as ->; split; [done|]; intros en [=]; by subst.
  apply list_elem_of_fmap in H as (d & -> & _). split; [done|]. cbn. intros en. case_match; intros [=]; by subst.
Qed.

(** Newer updates are replayed as they were written. *)
Lemma replay_new t us : ∀ kd,
  (∀ k en, kd !! k = Some en → tstamp en <= t) →
  (∀ u, u ∈ us → u_ts u = t ∧ ∀ en, u_entry u = Some en → tstamp en = t) →
  foldl replay_update kd us = foldl write_update kd us.
Proof.
  induction us as [|u us IH]; intros kd Hkd Hus; [done|]. cbn [foldl].
  destruct (Hus u) as [Hu He]; [by left|].
  assert (replay_update kd u = write_update kd u) as ->.
  { unfold replay_update, write_update. destruct (u_entry u) as [en|].
    - unfold putIfNewer. rewrite (He en eq_refl). destruct (kd !! u_key u) as [x|] eqn:E; [|done].
      specialize (Hkd _ _ E). destruct (Z.leb_spec (tstamp x) t); [done|lia].
    - destruct (kd !! u_key u) as [x|] eqn:E.
      + specialize (Hkd _ _ E). destruct (Z.leb_spec (tstamp x) (u_ts u)); [done|lia].
      + by rewrite delete_id. }
  apply IH; [|intros; apply Hus; by right].
  intros k en. unfold write_update. destruct (u_entry u) as [x|].
  - intros [[_ <-]|[_ H]]%lookup_insert_Some; [specialize (He _ eq_refl); lia|eauto].
  - intros [_ H]%lookup_delete_Some. eauto.
Qed.

(** Every record of the live logs is older than [t]. *)
Definition fresh_ts (logs : logmap) (db : DB) (t : Z) : Prop :=
  ∀ id l, is_live_id db id → l ∈ logs id → log_ts l < t.

Lemma index_old m logs db e t k en :
  db_inv m logs db e → fresh_ts logs db t → index db !! k = Some en → tstamp en < t.
Proof.
  intros Hi Hf H. destruct (di_index _ _ _ _ Hi _ _ H) as [Hl [(pre & post & E & _) _]].
  destruct (all_updates_ts logs (fileID en) (mkUpdate k (tstamp en) (Some en))) as (l & Hin & Ht).
  { rewrite E. apply elem_of_app. right. by left. }
  cbn in Ht. rewrite Ht. eauto.
Qed.

Section append_record.
Context (m : mode) (logs : logmap) (db : DB) (e : env) (Hinv : db_inv m logs db e).
Context (a : Z) (l : logrec) (Hlive : is_live_id db a) (Hfresh : fresh_ts logs db (log_ts l)).
Let start : Z := zlen (log_images (logs a)).
Let us : list update := log_updates a start l.
Let logs' : logmap := upd logs a (logs a ++ [l]).

Lemma all_updates_append : all_updates logs' a = all_updates logs a ++ us.
Proof using Type.
  unfold all_updates, logs'. rewrite upd_eq, logs_updates_app. cbn [logs_updates].
  rewrite app_nil_r, Z.add_0_l. done.
Qed.
Lemma all_updates_other id : id ≠ a → all_updates logs' id = all_updates logs id.
Proof using Type. intros. unfold all_updates, logs'. by rewrite upd_ne. Qed.

Lemma old_update_ts id u : is_live_id db id → u ∈ all_updates logs id → u_ts u < log_ts l.
Proof using Hfresh. intros Hl (x & Hx & ->)%all_updates_ts. eauto. Qed.

Lemma winner_append k en :
  foldl write_update (index db) us !! k = Some en →
  is_live_id db (fileID en) ∧ winner (m_newest m) logs' (is_live_id db) k en.
Proof using Hinv Hlive Hfresh.
  intros H. destruct (foldl_write_lookup us (index db) k) as [[E Hno]|(pre & u & post & Eus & Hk & E & Hpost)];
    rewrite H in E.
  - destruct (di_index _ _ _ _ Hinv k en (eq_sym E)) as [Hl [(pre & post & Eu & Hpre & Hpost) Ho]]. split; [done|].
    split.
    + destruct (decide (fileID en = a)) as [Ea|Hne].
      * exists pre, (post ++ us). rewrite Ea, all_updates_append, <- Ea, Eu. split; [by rewrite <- app_assoc|].
        split; [done|]. intros u [?|Hu]%elem_of_app Hk; [auto|]. by destruct (Hno u Hu).
      * exists pre, post. by rewrite all_updates_other.
    + intros id u Hid Hne Hu Hk. destruct (decide (id = a)) as [->|].
      * rewrite all_updates_append in Hu. apply elem_of_app in Hu as [Hu|Hu]; [by eapply Ho|].
        by destruct (Hno u Hu).
      * rewrite all_updates_other in Hu by done. by eapply Ho.
  - destruct (log_updates_shape a start l u) as [Ht He].
    { fold us. rewrite Eus. apply elem_of_app. right. by left. }
    destruct (He en (eq_sym E)) as [Hf Hts]. rewrite Hf. split; [done|].
    assert (Eu : u = mkUpdate k (tstamp en) (Some en)).
    { destruct u as [uk ut ue]. cbn in *. subst. congruence. }
    split; rewrite Hf.
    + exists (all_updates logs a ++ pre), post. rewrite all_updates_append, Eus, Eu, <- app_assoc.
      split; [done|]. split; [|intros u' Hu' Hk'; by destruct (Hpost u' Hu')].
      intros u' [Hu'|Hu']%elem_of_app _.
      * pose proof (old_update_ts a u' Hlive Hu'). lia.
      * destruct (log_updates_shape a start l u') as [-> _]; [|lia].
        fold us. rewrite Eus. apply elem_of_app. by left.
    + intros id u' Hid Hne Hu' _ _. rewrite all_updates_other in Hu' by done.
      rewrite Hts. by apply (old_update_ts id).
Qed.

Lemma exact_append :
  exact logs db → active db = Some a →
  foldl write_update (index db) us = foldl replay_update ∅ (concat (all_updates logs' <$> sort_ids (live_ids db))).
Proof using Hinv Hlive Hfresh.
  intros [Hidx Hlast _] Ha.
  assert (∃ ids, sort_ids (live_ids db) = ids ++ [a] ∧ a ∉ ids) as (ids & Es & Hn).
  { assert (Hin : a ∈ sort_ids (live_ids db)).
    { by apply elem_of_sorted_live. }
    pose proof (sort_ids_sorted (live_ids db)) as Hs.
    assert (Hnd : NoDup (sort_ids (live_ids db))) by (rewrite sort_ids_perm; unfold live_ids; apply NoDup_elements).
    assert (Hmax : ∀ x, x ∈ sort_ids (live_ids db) → x <= a).
    { intros x Hx. apply (Hlast a x Ha). by apply elem_of_sorted_live. }
    destruct (sort_ids (live_ids db)) as [|x xs _] using rev_ind; [by apply not_elem_of_nil in Hin|].
    apply NoDup_app in Hnd as (_ & Hd & _). exists xs.
    apply elem_of_app in Hin as [Hin|Hx%list_elem_of_singleton].
    - exfalso. apply StronglySorted_app_1_elem_of with (x1 := a) (x2 := x) in Hs; [|done|by left].
      assert (x = a) as -> by (apply Z.le_antisymm; [apply Hmax, elem_of_app; right; by left|done]).
      apply (Hd a Hin). by left.
    - subst x. split; [done|]. intros Hx. apply (Hd a Hx). by left. }
  rewrite Hidx, Es, !fmap_app, !concat_app, !foldl_app. cbn [fmap list_fmap concat].
  rewrite !app_nil_r, all_updates_append, foldl_app.
  assert (all_updates logs' <$> ids = all_updates logs <$> ids) as ->.
  { apply list_fmap_ext. intros i x Hx. apply all_updates_other. intros ->. apply Hn. by eapply list_elem_of_lookup_2. }
  symmetry. apply (replay_new (log_ts l)).
  - intros k en Hk. pose proof (index_old _ _ _ _ (log_ts l) k en Hinv Hfresh) as H.
    rewrite Hidx, Es, fmap_app, concat_app, foldl_app in H. cbn [fmap list_fmap concat] in H.
    rewrite app_nil_r in H. specialize (H Hk). lia.
  - intros u Hu. destruct (log_updates_shape a start l u Hu) as [? Hen]. split; [done|]. intros en He.
    by apply Hen.
Qed.
End append_record.

(** ** Replacing the active segment *)

Lemma winner_live nw logs (P Q : Z → Prop) k en :
  (∀ id, P id ↔ Q id) → winner nw logs P k en → winner nw logs Q k en.
Proof. intros H [W O]. split; [done|]. intros id u Hid. apply O. by apply H. Qed.

Lemma live_ids_put db a s s' :
  segs db !! a = Some s → live_ids (set_segments (Some (<[a := s']> (segs db))) db) = live_ids db.
Proof. intros H. unfold live_ids. cbn. rewrite dom_insert_lookup_L by eauto. done. Qed.

(** The invariant after bytes [q] reached the active file, with a new index. *)
Lemma inv_append m logs logs' db e e' a s s' q k :
  db_inv m logs db e → active_at db a s → appended (s_file s) q e e' →
  s_id s' = a → s_file s' = s_file s →
  (∀ id, id ≠ a → logs' id = logs id) → Forall log_ok (logs' a) →
  (∀ l, l ∈ logs' a → log_ts l <= lastTstamp db) →
  (quiescent s' e' ∧ file_data (e_disk e') (s_file s) = log_images (logs' a)
   ∨ (writer_failed s' ∧ ∃ l p, log_ok l ∧ p `prefix_of` log_image l
        ∧ file_data (e_disk e') (s_file s) = log_images (logs' a) ++ p)) →
  (∀ key en, k !! key = Some en → is_live_id db (fileID en) ∧ winner (m_newest m) logs' (is_live_id db) key en) →
  (exact logs db → k = foldl replay_update ∅ (concat (all_updates logs' <$> sort_ids (live_ids db)))) →
  db_inv m logs' (set_index k (put_segment s' db)) e'.
Proof.
  intros Hi [Ha Hs] Happ Hid Hfile Hoth Hok Hts Hdata Hk Hex. pose proof Hi as [Hd Ho _ Hseg _ Hc Ht Hst Hdu Hxt].
  pose proof (appended_framed _ _ _ _ Hd Happ) as F.
  set (db' := set_index k (put_segment s' db)).
  assert (Hsegs : segs db' = <[a := s']> (segs db)) by (unfold db', put_segment; by rewrite Hid).
  assert (Hids : live_ids db' = live_ids db).
  { unfold live_ids. by rewrite Hsegs, dom_insert_lookup_L by eauto. }
  assert (Hlive : ∀ id, is_live_id db' id ↔ is_live_id db id).
  { intros id. by rewrite <- !elem_of_live_ids, Hids. }
  pose proof (Hseg a s Hs) as [_ Hu Hlk _ _].
  assert (HP : ∀ n, n ≠ segmentFilename a → d_dir (e_disk e) !! n ≠ Some (s_file s)).
  { intros n Hn E. apply Hn. by apply (dk_inj _ Hd _ _ _ E). }
  split; fold db'.
  - apply F.
  - by rewrite Hsegs, <- Hid.
  - exists a, s'. by rewrite Hsegs, lookup_insert_eq.
  - intros id x. rewrite Hsegs. intros [[<- <-]|[Hne Hx]]%lookup_insert_Some.
    + split; [done|done| |done|].
      * rewrite Hfile. by rewrite (app_dir _ _ _ _ Happ).
      * cbn zeta. rewrite decide_True by done. rewrite Hfile. exact Hdata.
    + pose proof (Hseg id x Hx) as Hxi.
      assert (seg_inv logs (active db) e' id x) as [? ? ? Hl Hdd].
      { eapply seg_inv_framed; [done| |done]. apply HP. intros E. apply Hne. symmetry.
        apply segmentFilename_inj; [apply (si_u32 _ _ _ _ _ Hxi)|done|done]. }
      split; [done|done|done|by rewrite Hoth|]. cbn zeta in *. by rewrite Hoth.
  - intros key en Hke. rewrite Hlive. destruct (Hk key en Hke) as [Hl Hwn]. split; [done|].
    eapply winner_live; [|done]. intros. by rewrite Hlive.
  - done.
  - intros id l Hid' Hl. rewrite Hlive in Hid'. destruct (decide (id = a)) as [->|Hne]; [by apply Hts|].
    rewrite Hoth in Hl by done. by apply (Ht id).
  - intros Hm. apply (stored_framed _ db db' e e' F eq_refl eq_refl eq_refl Hids logs).
    + intros n _ Hn. apply HP, Hn.
    + intros id x. rewrite Hsegs. intros [[<- <-]|[Hne Hx]]%lookup_insert_Some Hact; [done|]. by rewrite Hoth.
    + intros id x Hx. apply (Hseg id x Hx).
    + by apply Hst.
  - intros Hm. apply (durable_framed _ db db' e e' F eq_refl eq_refl Hids).
    + intros n _ Hn. by apply HP, Hn.
    + intros id [x Hx]. apply (Hseg id x Hx).
    + intros b Hb. rewrite Hb in Ha. injection Ha as ->. by exists s.
    + intros b _. unfold named. by rewrite (app_dir _ _ _ _ Happ), (app_sdir _ _ _ _ Happ).
    + by apply Hdu.
  - intros Hm. destruct (Hxt Hm) as [E L B]. split.
    + rewrite Hids. apply Hex. by split.
    + intros b id Hb. rewrite Hlive. by apply L.
    + intros id. rewrite Hlive. apply B.
Qed.

(** ** Appending one record *)

Lemma put_segment_twice s s' db :
  s_id s' = s_id s → put_segment s' (put_segment s db) = put_segment s' db.
Proof. intros H. unfold put_segment. cbn. by rewrite H, insert_insert_eq. Qed.
Lemma active_at_put db a s s' : active_at db a s → s_id s' = a → active_at (put_segment s' db) a s'.
Proof. intros [Ha _] <-. split; [done|]. cbn. by rewrite lookup_insert_eq. Qed.

(** [append_active] is [append_flush] on the active segment. *)
Lemma append_active_run db e a s buf :
  active_at db a s → s_id s = a →
  append_active buf (db, e)
  = let '(r, s', e') := append_flush s buf e in (r, (put_segment s' db, e')).
Proof.
  intros Ha Hid. unfold append_active, ebind at 1. rewrite (with_active_run _ _ _ _ _ Ha).
  unfold append_flush.
  assert (H : ∀ r s1 e1, append s buf e = (r, s1, e1) → s_id s1 = s_id s).
  { intros r s1 e1. unfold append. destruct (bufio_Write _ _ _ _) as [[[] ?] ?]; by intros [= _ <- _]. }
  destruct (append s buf e) as [[r1 s1] e1] eqn:E1. specialize (H _ _ _ eq_refl).
  destruct r1 as [off|err]; [|done]. unfold ebind.
  rewrite (with_active_run _ _ _ a s1) by (eapply active_at_put; [done|congruence]).
  assert (H2 : ∀ r s2 e2, flush s1 e1 = (r, s2, e2) → s_id s2 = s_id s1).
  { intros r s2 e2. unfold flush. destruct (s_bw s1); [|by intros [= _ <- _]].
    destruct (bufio_Flush _ _ _) as [[] ?]. by intros [= _ <- _]. }
  destruct (flush s1 e1) as [[r2 s2] e2]. specialize (H2 _ _ _ eq_refl).
  rewrite put_segment_twice by done. by destruct r2.
Qed.

Lemma index_unchanged db s : put_segment s db = set_index (index db) (put_segment s db).
Proof. by destruct db. Qed.

Lemma append_active_spec m logs db e l :
  db_inv m logs db e → log_ok l → log_ts l <= lastTstamp db → fresh_ts logs db (log_ts l) →
  wp (append_active (log_image l)) (db, e) (λ r s',
    ∃ a seg, active db = Some a ∧ is_live_id db a ∧ s_id seg = a ∧ s'.1 = put_segment seg db
      ∧ framed (λ n, n ≠ segmentFilename a) (e_disk e) (e_disk s'.2) ∧
    match r with
    | Err _ => keeps m logs logs (db, e) s'
    | Ok off => off = zlen (log_images (logs a))
        ∧ db_inv m (upd logs a (logs a ++ [l]))
            (set_index (foldl write_update (index db) (log_updates a off l)) s'.1) s'.2
    end).
Proof.
  intros Hi Hl Hts Hf. destruct (inv_active _ _ _ _ Hi) as (a & s & Ha & [Hid Hu Hlk Hok Hd]).
  cbn zeta in Hd. rewrite decide_True in Hd by done.
  assert (Hlive : is_live_id db a) by (exists s; apply Ha).
  unfold wp. rewrite (append_active_run _ _ _ _ _ Ha Hid).
  destruct Hd as [[Hq Hd]|[Hw Hd]].
  2: { unfold append_flush. destruct (append_failed s (log_image l) e Hw) as [err ->]. cbn [fst snd].
       exists a, s. split; [apply Ha|]. split; [done|]. split; [done|]. split; [done|].
       split; [apply framed_refl, Hi|]. rewrite put_segment_id; [by apply keeps_refl|apply Hi|rewrite Hid; apply Ha]. }
  destruct (append_flush s (log_image l) e) as [[r s'] e'] eqn:E.
  destruct (append_flush_spec _ _ _ _ _ _ Hq E) as (Hid' & Hfile & q & Happ & Hr). cbn [fst snd].
  rewrite Hid in Hid'. exists a, s'. split; [apply Ha|]. split; [done|]. split; [done|]. split; [done|]. split.
  { eapply framed_weaken; [by eapply appended_framed; [apply Hi|]|]. intros n Hn E'. apply Hn.
    by apply (dk_inj _ (di_disk _ _ _ _ Hi) _ _ _ E'). }
  destruct r as [off|err].
  - destruct Hr as (-> & -> & Hq').
    assert (Hoff : s_size s = zlen (log_images (logs a))) by (rewrite <- Hd; apply Hq). split; [done|].
    rewrite Hoff. eapply inv_append; [exact Hi|exact Ha|exact Happ|done|done| | | | | |].
    + intros id Hne. by apply upd_ne.
    + rewrite upd_eq. apply Forall_app. split; [done|by apply Forall_singleton].
    + rewrite upd_eq. intros x [Hx| ->%list_elem_of_singleton]%elem_of_app; [|done].
      by apply (di_ts _ _ _ _ Hi a).
    + left. split; [done|]. rewrite upd_eq, log_images_app, (app_data _ _ _ _ Happ), Hd.
      unfold log_images. cbn. by rewrite app_nil_r.
    + intros key en. by eapply winner_append.
    + intros Hx. eapply exact_append; [done..|apply Ha].
  - destruct Hr as [Hw Hpre]. rewrite (index_unchanged db s'). split; cbn; [|done| |lia|done..].
    + eapply inv_append; [exact Hi|exact Ha|exact Happ|done|done|done|done| | | |].
      * intros x Hx. by apply (di_ts _ _ _ _ Hi a).
      * right. split; [done|]. exists l, q. split; [done|]. split; [done|].
        by rewrite (app_data _ _ _ _ Happ), Hd.
      * intros key en Hk. by apply (di_index _ _ _ _ Hi).
      * intros Hx. apply Hx.
    + intros id Hlid. split; [|done]. unfold is_live_id. cbn. rewrite Hid'.
      apply lookup_insert_is_Some'. by right.
Qed.
