(* ===== verification/Rotation.v ===== *)
(** * Rotation keeps the invariant

    The new segment is created, made durable and published in the manifest
    before it becomes the active one; whichever call fails, the engine goes on
    with the old active segment and the map is unchanged. *)
From S2P Require Import Prelude LogRecord Keydir Hint Storage Frame Names Publish Manifest HintFile Log Recovery Db Invariant Confined WritePath.

(** ** Names *)

Lemma segment_not_manifest id : not_manifest (segmentFilename id).
Proof.
  split; intros E; apply (f_equal filepath_Ext) in E; rewrite Ext_segmentFilename in E; discriminate.
Qed.
Lemma hint_not_manifest id : not_manifest (hintFilename id).
Proof.
  split; intros E; apply (f_equal filepath_Ext) in E; rewrite Ext_hintFilename in E; discriminate.
Qed.
#[export] Hint Resolve segment_not_manifest hint_not_manifest : core.

Lemma reserved_not_manifest db n :
  writesDisabled db = true → reserved db n → not_manifest n.
Proof. intros Hw [[_ E]|(id & [[-> _]|[-> _]])]; [congruence|done..]. Qed.

Lemma canonical_perm ids ids' : ids ≡ₚ ids' → canonical ids = canonical ids'.
Proof. intros H. unfold canonical. by rewrite (sort_ids_unique _ _ H). Qed.

(** The name of a segment that is not live is not reserved. *)
Lemma reserved_not_new m logs db e id n :
  db_inv m logs db e → is_u32 id → ¬ is_live_id db id → reserved db n → n ≠ segmentFilename id.
Proof.
  intros Hi Hu Hn [[-> _]|(id' & [[-> Hl]|[-> _]])] E.
  - apply (f_equal filepath_Ext) in E. rewrite Ext_segmentFilename in E. discriminate.
  - destruct Hl as [s Hs]. pose proof (di_seg _ _ _ _ Hi _ _ Hs) as Hsi.
    apply segmentFilename_inj in E as ->; [|apply Hsi|done]. apply Hn. by exists s.
  - symmetry in E. by apply segment_not_hint in E.
Qed.

(** ** A new, empty active segment *)

Section new_segment.
Context (m : mode) (logs : logmap) (db : DB) (e : env) (id : Z) (ino : N) (a : Z) (s : segment).
Context (Hi : db_inv m logs (set_writesDisabled db) e) (Ha : active_at db a s).
Context (Hq : quiescent s e) (Hdat : file_data (e_disk e) (s_file s) = log_images (logs a)).
Context (Hu : is_u32 id) (Hnew : ¬ is_live_id db id).
Context (Hlk : d_dir (e_disk e) !! segmentFilename id = Some ino) (Hempty : file_data (e_disk e) ino = []).
Context (Hstored : m_stored m = true →
  manifest_of (e_disk e) = Ok (canonical (live_ids db ++ [id]), id) ∧ id < nextID db
  ∧ d_dir (e_disk e) !! hintFilename id = None).
Context (Hdurable : m_durable m = true →
  named (e_disk e) (segmentFilename id) ∧ settled (e_disk e) (segmentFilename a)
  ∧ settled (e_disk e) (hintFilename id) ∧ settled (e_disk e) manifestFilename).
Context (Hexact : m_exact m = true → id < nextID db ∧ ∀ i, is_live_id db i → i < id).
Let next : segment := mkSegment id ino (Some bufio_new) 0.
Let db' : DB := set_active (Some id) (put_segment next db).
Let logs' : logmap := upd logs id [].

Lemma new_live i : is_live_id db' i ↔ is_live_id db i ∨ i = id.
Proof using Type.
  unfold is_live_id. cbn. rewrite lookup_insert_is_Some'. split; intros [H|H]; auto.
Qed.
Lemma new_live_ids : live_ids db' ≡ₚ live_ids db ++ [id].
Proof using Hnew.
  unfold live_ids. cbn. rewrite dom_insert_L, elements_union_singleton, Permutation_app_comm; [done|].
  by rewrite elem_of_dom.
Qed.
Lemma new_sorted : (∀ i, is_live_id db i → i < id) → sort_ids (live_ids db') = sort_ids (live_ids db) ++ [id].
Proof using Hnew.
  intros H. rewrite (sort_ids_unique _ _ new_live_ids).
  rewrite <- (sort_ids_id (sort_ids (live_ids db) ++ [id])).
  - apply sort_ids_unique. by rewrite sort_ids_perm.
  - apply StronglySorted_app_2; [|apply sort_ids_sorted|repeat constructor].
    intros x y Hx%elem_of_sorted_live ->%list_elem_of_singleton. specialize (H x Hx). lia.
Qed.

Lemma inv_new_segment : db_inv m logs' db' e.
Proof using Hi Ha Hq Hdat Hu Hnew Hlk Hempty Hstored Hdurable Hexact.
  destruct Hi as [Hd Ho _ Hseg Hx Hc Ht Hst Hdu Hex]. cbn in *.
  assert (Hold : ∀ i, is_live_id db i → logs' i = logs i).
  { intros i Hl. apply upd_ne. by intros ->. }
  assert (Hupd : ∀ i, is_live_id db i → all_updates logs' i = all_updates logs i).
  { intros i Hl. unfold all_updates. by rewrite Hold. }
  split; cbn; [done|done| | | |done| | | |].
  - exists id, next. by rewrite lookup_insert_eq.
  - intros i x [[<- <-]|[Hne Hxs]]%lookup_insert_Some.
    + split; [done|done|done| |]; unfold logs'; rewrite upd_eq; [constructor|].
      cbn zeta. rewrite decide_True by done. left. cbn [s_file next].
      split; [|by rewrite Hempty]. split; [by eapply dk_linked|]. split; [done|]. cbn. by rewrite Hempty.
    + destruct (Hseg i x Hxs) as [Hid Hui Hlki Hok Hdi]. assert (is_live_id db i) as Hl by by exists x.
      split; [done|done|done|by rewrite Hold|]. rewrite Hold by done. cbn zeta in *.
      rewrite decide_False by (intros [= ->]; done). destruct Ha as [Ha1 Ha2].
      destruct (decide (active db = Some i)) as [E|E]; [|done].
      assert (i = a) as -> by congruence. assert (x = s) as -> by congruence.
      destruct Hq as (_ & Hb & Hs). split; [by right|]. split; done.
  - intros k en Hk. destruct (Hx k en Hk) as [Hl [W O]]. change (is_live_id db (fileID en)) in Hl.
    split; [apply new_live; auto|]. split.
    + by rewrite Hupd.
    + intros i u Hli Hne Hin Hkey. apply new_live in Hli as [Hli| ->].
      * rewrite Hupd in Hin by done. by eapply O.
      * unfold all_updates, logs' in Hin. rewrite upd_eq in Hin. by apply not_elem_of_nil in Hin.
  - intros i l Hli Hl. apply new_live in Hli as [Hli| ->]; [rewrite Hold in Hl by done; by apply (Ht i)|].
    unfold logs' in Hl. rewrite upd_eq in Hl. by apply not_elem_of_nil in Hl.
  - intros Hm. destruct (Hst Hm) as [_ N B H], (Hstored Hm) as (Hman & Hlt & Hnh). cbn in *. split; cbn.
    + intros b _ [= <-]. rewrite Hman. by rewrite (canonical_perm _ _ new_live_ids).
    + done.
    + intros i Hui [Hl|Hl]; [|by apply B; auto]. apply new_live in Hl as [Hl| ->]; [apply B; auto|done].
    + intros i x [[<- <-]|[Hne Hxs]]%lookup_insert_Some; [by rewrite decide_True|].
      rewrite decide_False by congruence. rewrite Hold by by exists x. specialize (H i x Hxs). cbn in H.
      destruct (decide (active db = Some i)); [|done]. unfold hint_harmless, hint_of, read_file.
      rewrite (si_id _ _ _ _ _ (Hseg i x Hxs)). by rewrite H.
  - intros Hm. destruct (Hdu Hm) as [N S H M], (Hdurable Hm) as (H1 & H2 & H3 & H4). cbn in *. split; cbn.
    + intros i [Hl| ->]%new_live; auto.
    + intros i [Hl| ->]%new_live Hne; [|done]. destruct (decide (active db = Some i)) as [E|]; [|auto].
      destruct Ha as [Ha1 _]. by assert (i = a) as -> by congruence.
    + intros i [Hl| ->]%new_live; auto.
    + done.
  - intros Hm. destruct (Hex Hm) as [E L B], (Hexact Hm) as [Hlt Hmax]. cbn in *. split; cbn.
    + rewrite new_sorted, fmap_app, concat_app, foldl_app by done.
      assert (all_updates logs' <$> sort_ids (live_ids db) = all_updates logs <$> sort_ids (live_ids db)) as ->.
      { apply list_fmap_ext. intros j i Hj. apply Hupd. apply elem_of_sorted_live. by eapply list_elem_of_lookup_2. }
      cbn [fmap list_fmap concat]. unfold all_updates at 2. unfold logs' at 1. by rewrite upd_eq.
    + intros b i [= <-] [Hl| ->]%new_live; [|done]. specialize (Hmax i Hl). lia.
    + intros i [Hl| ->]%new_live; [|done]. by apply B.
Qed.
End new_segment.

(** ** The steps of a rotation *)

Lemma claimID_spec m logs db e :
  db_inv m logs db e → id_left m db →
  wp claimID (db, e) (λ r s', ∃ id n, r = Ok id ∧ s' = (set_nextID n db, e) ∧ is_u32 id
    ∧ keeps m logs logs (db, e) s'
    ∧ (m_stored m || m_exact m = true → id = nextID db ∧ n = id + 1)).
Proof.
  intros Hi [_ Hl]. unfold wp, claimID. cbn [fst snd].
  set (n := to_u32 (nextID db + 1)). exists (to_u32 (n - 1)), n.
  assert (Hn : m_stored m || m_exact m = true → to_u32 (n - 1) = nextID db ∧ n = nextID db + 1).
  { intros Hm. specialize (Hl Hm). assert (0 <= nextID db) as H0.
    { destruct (m_stored m) eqn:Es; [apply (st_next _ _ _ (di_stored _ _ _ _ Hi Es))|]. cbn in Hm.
      destruct (inv_active _ _ _ _ Hi) as (a & s & [Ha Hs] & [_ Hu _ _ _]).
      pose proof (ex_below _ _ (di_exact _ _ _ _ Hi Hm) a ltac:(by exists s)). unfold is_u32 in Hu. lia. }
    unfold n. rewrite (to_u32_small (nextID db + 1)) by lia. split; [|done].
    rewrite Z.add_simpl_r. apply to_u32_small. lia. }
  split; [done|]. split; [done|]. split; [apply Z.mod_pos_bound; lia|]. split.
  - apply keeps_nextID; [done|]. intros Hm. destruct (Hn Hm) as [E1 E2]. specialize (Hl Hm).
    pose proof (Z.mod_pos_bound (n - 1) (2 ^ 32) ltac:(lia)) as Hb. unfold to_u32 in E1. rewrite E1 in Hb.
    rewrite E2. unfold is_u32. lia.
  - intros Hm. destruct (Hn Hm) as [E1 E2]. by rewrite E1.
Qed.

Lemma createSegment_inv id e r e' :
  createSegment id e = (r, e') →
  (∃ ino, r = Ok (mkSegment id ino (Some bufio_new) 0) ∧ d_dir (e_disk e) !! segmentFilename id = None
     ∧ e_disk e' = (alloc (segmentFilename id) (e_disk e)).2 ∧ ino = d_next (e_disk e))
  ∨ (∃ err, r = Err err ∧ e_disk e' = e_disk e).
Proof.
  unfold createSegment, ebind, on_error. destruct (os_create_excl _ e) as [r1 e1] eqn:E.
  apply os_create_excl_inv in E as [(ino & -> & Hn & E)|(x & -> & E)].
  - intros [= <- <-]. left. exists ino. split; [done|]. split; [done|]. split; [by rewrite E|by apply (f_equal fst) in E].
  - intros [= <- <-]. right. by eexists.
Qed.

Lemma discard_segment_framed (P : bytes → Prop) next e :
  disk_ok (e_disk e) → s_bw next = Some bufio_new → ¬ P (s_path next) →
  framed P (e_disk e) (e_disk (discard_segment next e)).
Proof.
  intros Hd Hb HP. unfold discard_segment.
  assert (E : e_disk (ignore (close next) e) = e_disk e).
  { unfold ignore, close. rewrite quiescent_flush by done. apply ignore_Close_disk. }
  rewrite <- E. apply ignore_Remove_framed; [by rewrite E|done].
Qed.

Lemma ignore_close_disk s e : s_bw s = Some bufio_new → e_disk (ignore (close s) e) = e_disk e.
Proof. intros Hb. unfold ignore, close. rewrite quiescent_flush by done. apply ignore_Close_disk. Qed.

Lemma not_live_unlinked m logs db e id :
  db_inv m logs db e → d_dir (e_disk e) !! segmentFilename id = None → ¬ is_live_id db id.
Proof.
  intros Hi Hn [s Hs]. pose proof (si_linked _ _ _ _ _ (di_seg _ _ _ _ Hi _ _ Hs)). congruence.
Qed.

(** A created file is invisible to the open database. *)
Lemma create_framed m logs db e e' id :
  db_inv m logs db e → d_dir (e_disk e) !! segmentFilename id = None →
  e_disk e' = (alloc (segmentFilename id) (e_disk e)).2 →
  framed (λ n, n ≠ segmentFilename id) (e_disk e) (e_disk e')
  ∧ d_dir (e_disk e') !! segmentFilename id = Some (d_next (e_disk e))
  ∧ file_data (e_disk e') (d_next (e_disk e)) = [].
Proof.
  intros Hi Hn E. split.
  - rewrite E. apply alloc_framed; [apply Hi|done|by intros []].
  - rewrite E. unfold file_data. cbn. by rewrite !lookup_insert_eq.
Qed.

Lemma keeps_new m logs db e e' id :
  db_inv m logs db e → is_u32 id → ¬ is_live_id db id →
  framed (λ n, n ≠ segmentFilename id) (e_disk e) (e_disk e') →
  keeps m logs logs (db, e) (db, e').
Proof. intros Hi Hu Hn F. eapply keeps_framed; [done..|]. intros n. by eapply reserved_not_new. Qed.

Lemma settled_unlinked d n : d_sdir d !! n = None → d_dir d !! n = None → settled d n.
Proof. intros H1 H2. split; [unfold named; congruence|]. intros i. congruence. Qed.

(** ** Rotation *)

(** A rotation's outcome: the map is kept and the logs of live segments are the
    old ones or empty. *)
Definition rotated (m : mode) (logs : logmap) (s : state) (r : result unit) (s' : state) : Prop :=
  ∃ logs', keeps m logs logs' s s' ∧ lastTstamp s'.1 = lastTstamp s.1
    ∧ (∀ id, is_live_id s'.1 id → is_live_id s.1 id ∧ logs' id = logs id ∨ logs' id = [])
    ∧ (m_stored m = true → confined 1 logs logs' s s')
    ∧ match r with Ok _ => writesDisabled s'.1 = writesDisabled s.1 | Err _ => True end.

Lemma rotated_err m logs s err s' :
  keeps m logs logs s s' → lastTstamp s'.1 = lastTstamp s.1 → segs s'.1 = segs s.1 → active s'.1 = active s.1 →
  (m_stored m = true → nextID s.1 <= nextID s'.1 <= nextID s.1 + 1 ∧ framed (away s.1) (e_disk s.2) (e_disk s'.2)) →
  rotated m logs s (Err err) s'.
Proof.
  intros K T E A H. exists logs. split; [done|]. split; [done|]. split; [|split; [|done]].
  - intros id. unfold is_live_id. rewrite E. auto.
  - intros Hm. destruct (H Hm) as [Hn F]. split; [done| | | | |done].
    + rewrite A. by left.
    + unfold sealed. by rewrite A, E.
    + unfold is_live_id. rewrite E. by left.
    + by rewrite (kp_index _ _ _ _ _ K).
Qed.

(** The files a rotation creates are not among those others rely on. *)
Lemma rotation_framed (db : DB) (d d' : disk) id :
  is_u32 id → nextID db <= id → framed (λ n, n ≠ segmentFilename id ∧ not_manifest n) d d' → framed (away db) d d'.
Proof. intros Hu Hle F. eapply framed_weaken; [exact F|]. intros n (M & _ & I). split; [by apply I|done]. Qed.

Section publish_segment.
Context (m : mode) (logs : logmap) (db0 : DB) (e0 : env).
Context (Hi0 : db_inv m logs db0 e0) (Hmode : m_durable m = true → m_stored m = true).
Context (a : Z) (s : segment) (Ha : active_at db0 a s) (Hbw : s_bw s = Some bufio_new).
Context (Hsync : file_synced (e_disk e0) (s_file s) = file_data (e_disk e0) (s_file s)).
Context (id n : Z) (Hu : is_u32 id) (Hn : m_stored m || m_exact m = true → id = nextID db0 ∧ n = id + 1).
Let db : DB := set_nextID n db0.
Context (Hi : db_inv m logs db e0).
Context (e3 : env) (F3 : framed (λ x, x ≠ segmentFilename id) (e_disk e0) (e_disk e3)).
Context (S3 : d_sdir (e_disk e3) = d_dir (e_disk e3)).
Context (Hlk : d_dir (e_disk e3) !! segmentFilename id = Some (d_next (e_disk e0))).
Context (Hempty : file_data (e_disk e3) (d_next (e_disk e0)) = []).
Context (Hnl : ¬ is_live_id db id).
Let next : segment := mkSegment id (d_next (e_disk e0)) (Some bufio_new) 0.

Lemma publish_disabled e4 :
  framed not_manifest (e_disk e3) (e_disk e4) → db_inv m logs (set_writesDisabled db) e4.
Proof using Hi Hu Hnl F3.
  intros F4. pose proof (kp_inv _ _ _ _ _ (keeps_disabled _ _ _ _ Hi)) as H1. cbn in H1.
  eapply (inv_framed not_manifest); [|exact F4|].
  - eapply inv_framed; [exact H1|exact F3|]. intros x Hx. by eapply reserved_not_new.
  - intros x. by apply reserved_not_manifest.
Qed.

Lemma publish_new e4 :
  writeManifest (live_ids db ++ [id]) id e3 = (Ok tt, e4) →
  db_inv m (upd logs id []) (set_active (Some id) (put_segment next db)) e4.
Proof using All.
  intros E4. pose proof (writeManifest_spec _ _ _ _ _ (fr_ok _ _ _ F3) E4) as [F4 (_ & Hdur & S4)].
  pose proof (publish_disabled e4 F4) as Hdis.
  assert (Hlive : ∀ i x, segs db !! i = Some x → is_u32 i).
  { intros i x Hx. apply (di_seg _ _ _ _ Hi _ _ Hx). }
  assert (Hman : manifest_of (e_disk e4) = Ok (canonical (live_ids db ++ [id]), id)).
  { eapply (writeManifest_outcome _ _ _ (Ok tt)); [apply F3| |exact E4].
    apply Forall_app. split; [|by apply Forall_singleton]. apply Forall_forall.
    intros i [x Hx]%elem_of_live_ids. eauto. }
  assert (Hhint : m_stored m = true → d_dir (e_disk e0) !! hintFilename id = None).
  { intros Hm. destruct (d_dir (e_disk e0) !! hintFilename id) eqn:E; [|done].
    pose proof (st_below _ _ _ (di_stored _ _ _ _ Hi0 Hm) id Hu (or_intror (ex_intro _ _ E))).
    rewrite Hm in Hn. destruct (Hn eq_refl). lia. }
  assert (Hhint3 : m_stored m = true → d_dir (e_disk e3) !! hintFilename id = None).
  { intros Hm. rewrite (fr_dir _ _ _ F3); [auto|]. intros E. symmetry in E. by apply segment_not_hint in E. }
  destruct (di_seg _ _ _ _ Hdis a s) as [_ Hua Hlka _ Hda]; [apply Ha|]. cbn zeta in Hda.
  rewrite decide_True in Hda by apply Ha.
  assert (quiescent s e4 ∧ file_data (e_disk e4) (s_file s) = log_images (logs a)) as [Hq Hd].
  { destruct Hda as [?|[(b & Hb & He) _]]; [done|]. rewrite Hbw in Hb. by injection Hb as <-. }
  assert (Hne : segmentFilename a ≠ segmentFilename id).
  { intros E. apply segmentFilename_inj in E as ->; [|done|done]. apply Hnl. exists s. apply Ha. }
  apply (inv_new_segment _ _ _ _ id _ a s); [done|apply Ha|done|done|done|done| | | | |].
  - by rewrite (fr_dir _ _ _ F4).
  - rewrite (framed_data _ _ _ _ _ F4 (segment_not_manifest id) Hlk). done.
  - intros Hm. split; [done|]. rewrite Hm in Hn. destruct (Hn eq_refl) as [-> ->]. cbn. split; [lia|].
    rewrite (fr_dir _ _ _ F4) by done. by apply Hhint3.
  - intros Hm. pose proof (Hmode Hm) as Hms. split; [|split; [|split]].
    + eapply framed_named; [exact F4|done|]. unfold named. by rewrite S3.
    + eapply (framed_settled _ _ _ _ F4); [done|]. eapply (framed_settled _ _ _ _ F3); [done|].
      split; [apply (du_named _ _ (di_durable _ _ _ _ Hi0 Hm)); exists s; apply Ha|].
      intros i Hia. destruct (di_seg _ _ _ _ Hi0 a s) as [_ _ Hl0 _ _]; [apply Ha|].
      assert (i = s_file s) as -> by congruence. done.
    + eapply (framed_settled _ _ _ _ F4); [done|]. apply settled_unlinked; [rewrite S3|]; by apply Hhint3.
    + destruct Hdur as (i & H1 & H2 & H3 & H4). split; [unfold named; congruence|]. intros j Hj. congruence.
  - intros Hm. rewrite Hm, orb_true_r in Hn. destruct (Hn eq_refl) as [E ->]. cbn. split; [lia|].
    rewrite E. apply (ex_below _ _ (di_exact _ _ _ _ Hi0 Hm)).
Qed.
End publish_segment.

(** What readers see while the new segment waits to be published. *)
Lemma prepared_glance logs (db : DB) (e e0 e3 e4 : env) id n :
  keeps glance logs logs (db, e) (set_nextID n db, e0) → is_u32 id → ¬ is_live_id db id →
  framed (λ x, x ≠ segmentFilename id) (e_disk e0) (e_disk e3) → framed not_manifest (e_disk e3) (e_disk e4) →
  keeps glance logs logs (db, e) (set_nextID n db, e4).
Proof.
  intros K Hu Hnl F3 F4. pose proof (kp_inv _ _ _ _ _ K) as Hi. cbn [fst snd] in Hi.
  eapply keeps_trans; [exact K|]. split; cbn [fst snd]; [|done|done|lia|done..].
  eapply (glance_framed (λ x, x ≠ segmentFilename id ∧ not_manifest x)); [exact Hi| |].
  - eapply framed_trans; eapply framed_weaken; [exact F3|by intros x []|exact F4|by intros x []].
  - intros i [s Hs]. split; [|done]. intros E. apply segmentFilename_inj in E as ->; [|apply (di_seg _ _ _ _ Hi _ _ Hs)|done].
    apply Hnl. by exists s.
Qed.

(** A rotation up to the write lock: it has failed, or publishing the new
    segment completes it; nothing a reader can see has changed. *)
Definition prepared (m : mode) (logs : logmap) (s : state) (r : result segment) (s' : state) : Prop :=
  match r with
  | Ok next => keeps glance logs logs s s' ∧ wp (rotate_publish next) s' (rotated m logs s)
  | Err err => rotated m logs s (Err err) s'
  end.

(** The outcomes of publishing the manifest. *)
Section outcomes.
Context (m : mode) (logs : logmap) (db : DB) (e e0 : env) (a : Z) (s : segment) (id n : Z) (e3 : env).
Context (Hi : db_inv m logs db e) (Hl : id_left m db) (K0 : keeps m logs logs (db, e) (db, e0)).
Context (Ha : active_at db a s) (Hbw : s_bw s = Some bufio_new).
Context (Hsync : file_synced (e_disk e0) (s_file s) = file_data (e_disk e0) (s_file s)).
Context (Hu : is_u32 id) (Hn : m_stored m || m_exact m = true → id = nextID db ∧ n = id + 1).
Context (K01 : keeps m logs logs (db, e) (set_nextID n db, e0)).
Context (Hout : ∀ d', framed (λ x, x ≠ segmentFilename id ∧ not_manifest x) (e_disk e0) d' → m_stored m = true →
  nextID db <= n <= nextID db + 1 ∧ framed (away db) (e_disk e) d').
Context (F3 : framed (λ x, x ≠ segmentFilename id) (e_disk e0) (e_disk e3)) (Hnl : ¬ is_live_id db id).
Let next : segment := mkSegment id (d_next (e_disk e0)) (Some bufio_new) 0.

Lemma created_out d' : framed not_manifest (e_disk e3) d' →
  framed (λ x, x ≠ segmentFilename id ∧ not_manifest x) (e_disk e0) d'.
Proof using F3.
  intros F4. eapply framed_trans; eapply framed_weaken; [exact F3|by intros x []|exact F4|by intros x []].
Qed.

Lemma rotation_ready e4 :
  d_sdir (e_disk e3) = d_dir (e_disk e3) → d_dir (e_disk e3) !! segmentFilename id = Some (d_next (e_disk e0)) →
  file_data (e_disk e3) (d_next (e_disk e0)) = [] →
  writeManifest (live_ids db ++ [id]) id e3 = (Ok tt, e4) →
  prepared m logs (db, e) (Ok next) (set_nextID n db, e4).
Proof using All.
  intros S3 Hlk Hem E4. pose proof (kp_inv _ _ _ _ _ K0) as Hi0. pose proof (kp_inv _ _ _ _ _ K01) as Hi1. cbn [fst snd] in Hi0, Hi1.
  pose proof (writeManifest_spec _ _ _ _ _ (fr_ok _ _ _ F3) E4) as [F4 _].
  split; [eapply prepared_glance; [eapply keeps_glance; exact K01|done|exact Hnl|done|done]|].
  exists (upd logs id []). split; [eapply keeps_trans; [exact K01|]|].
  - split; cbn [fst snd]; [|done| |cbn; lia|done..].
    + eapply (publish_new m logs db e0 Hi0 (proj1 Hl) a s); eassumption.
    + intros i Hli. split; [by apply (new_live (set_nextID n db)); left|]. rewrite upd_ne; [done|]. by intros ->.
  - split; [done|]. split.
    + intros i [Hli| ->]%(new_live (set_nextID n db)); [left|right; apply upd_eq]. split; [done|]. rewrite upd_ne; [done|]. by intros ->.
    + split; [|done]. intros Hm. destruct (Hout (e_disk e4)) as [_ F]; [by apply created_out|done|].
      rewrite Hm in Hn. destruct (Hn eq_refl) as [-> ->].
      apply (confined_rotate logs db e e4 (nextID db)); [done|done|done| |exact F].
      intros i Hl'. pose proof Hl' as [x Hx]. apply (st_below _ _ _ (di_stored _ _ _ _ Hi Hm)); [|by left].
      apply (di_seg _ _ _ _ Hi _ _ Hx).
Qed.

Lemma rotation_uncertain err e4 :
  framed not_manifest (e_disk e3) (e_disk e4) →
  rotated m logs (db, e) (Err err) (set_writesDisabled (set_nextID n db), ignore (close next) e4).
Proof using Hi K01 Hu Hnl F3 Hout.
  intros F4. pose proof (kp_inv _ _ _ _ _ K01) as Hi1. cbn [fst snd] in Hi1.
  apply rotated_err; [|done|done|done|apply Hout; cbn [fst snd]; rewrite ignore_close_disk by done; by apply created_out].
  eapply keeps_trans; [exact K01|].
  eapply keeps_trans; [by apply keeps_disabled|]. split; cbn [fst snd]; [|done| |done|done..]; [|by auto].
  eapply (inv_framed (λ _, True)); [eapply (publish_disabled m logs db e0 id n); eassumption| |done].
  rewrite ignore_close_disk by done. apply framed_refl, F4.
Qed.

Lemma rotation_failed err e4 :
  framed (λ x, x ≠ manifestTmpFilename) (e_disk e3) (e_disk e4) →
  rotated m logs (db, e) (Err err) (set_nextID n db, discard_segment next e4).
Proof using Hi K01 Hu Hnl F3 Hout.
  intros F4. pose proof (kp_inv _ _ _ _ _ K01) as Hi1. cbn [fst snd] in Hi1.
  assert (F5 : framed (λ x, x ≠ segmentFilename id ∧ x ≠ manifestTmpFilename) (e_disk e0)
    (e_disk (discard_segment next e4))).
  { eapply framed_trans; [eapply framed_weaken; [exact F3|by intros x []]|].
    eapply framed_trans; [eapply framed_weaken; [exact F4|by intros x []]|].
    apply discard_segment_framed; [apply F4|done|by intros [[] _]]. }
  apply rotated_err; [|done|done|done|apply Hout; eapply framed_weaken; [exact F5|by intros x (? & ? & ?)]].
  eapply keeps_trans; [exact K01|]. eapply keeps_framed; [done|exact F5|].
  intros x Hx. split; [by eapply reserved_not_new|]. intros ->.
  destruct Hx as [[? _]|(i & [[Ei _]|[Ei _]])]; [by apply manifest_names_ne| |].
  - by destruct (segment_not_manifest i) as [[] _].
  - by destruct (hint_not_manifest i) as [[] _].
Qed.
End outcomes.

Lemma rotate_prepare_spec m logs db e :
  db_inv m logs db e → id_left m db → wp rotate_prepare (db, e) (prepared m logs (db, e)).
Proof.
  intros Hi Hl. unfold rotate_prepare.
  apply wp_bind. eapply wp_impl; [by apply sync_active_spec|].
  intros r [db0 e0] (K0 & E0 & Hfr & H0). cbn [fst snd] in *. subst db0.
  destruct r as [[]|err]; [|apply rotated_err; [done..|intros _; split; [cbn; lia|apply Hfr]]].
  destruct H0 as (a & s & Ha & (Hf & Hbw & Hs) & Hdat & Hsync).
  pose proof (kp_inv _ _ _ _ _ K0) as Hi0. cbn [fst snd] in Hi0.
  apply wp_bind. eapply wp_impl; [by eapply claimID_spec|].
  intros r s1 (id & n & -> & -> & Hu & K1 & Hn).
  pose proof (kp_inv _ _ _ _ _ K1) as Hi1. cbn [fst snd] in Hi1. pose proof (keeps_trans _ _ _ _ _ _ _ K0 K1) as K01.
  assert (Hout : ∀ d', framed (λ x, x ≠ segmentFilename id ∧ not_manifest x) (e_disk e0) d' → m_stored m = true →
    nextID db <= n <= nextID db + 1 ∧ framed (away db) (e_disk e) d').
  { intros d' F Hm. rewrite Hm in Hn. destruct (Hn eq_refl) as [-> ->]. split; [lia|].
    eapply framed_trans; [apply Hfr|]. by eapply (rotation_framed _ _ _ (nextID db)). }
  apply wp_bind, wp_lift, wp_intro. intros r2 e2 E2.
  apply createSegment_inv in E2 as [(ino & -> & Hnone & E2 & ->)|(err & -> & E2)].
  2: { apply rotated_err; [|done|done|done|apply Hout; cbn [fst snd]; rewrite E2; apply framed_refl, Hi0].
       eapply keeps_trans; [exact K01|].
       apply (keeps_framed (λ _, True)); [done|rewrite E2; apply framed_refl, Hi0|done]. }
  destruct (create_framed _ _ _ _ _ _ Hi1 Hnone E2) as (F2 & Hlk2 & Hem2).
  pose proof (not_live_unlinked _ _ _ _ _ Hi1 Hnone) as Hnl.
  apply wp_bind, wp_on_error, wp_lift, wp_intro. intros r3 e3 E3.
  pose proof (syncDir_framed (λ x, x ≠ segmentFilename id) _ _ _ (fr_ok _ _ _ F2) E3) as F23.
  pose proof (framed_trans _ _ _ _ F2 F23) as F3.
  destruct r3 as [[]|err].
  2: { apply (rotation_failed m logs db e e0 id n e3 Hi Hu K01 Hout F3 Hnl). apply framed_refl, F3. }
  apply syncDir_spec in E3 as (_ & E3 & _). specialize (E3 I). unfold wp. cbn [s_id fst snd].
  destruct (writeManifest _ id e3) as [r4 e4] eqn:E4.
  pose proof (writeManifest_spec _ _ _ _ _ (fr_ok _ _ _ F3) E4) as [F4 Herr]. destruct r4 as [[]|err].
  - apply (rotation_ready m logs db e e0 a s id n e3); try done; by rewrite E3.
  - destruct (errors_Is err _); cbn [prepared fst snd].
    + by eapply rotation_uncertain.
    + eapply rotation_failed; try done. apply Herr.
Qed.

Lemma rotateActive_spec m logs db e :
  db_inv m logs db e → id_left m db → wp rotateActive (db, e) (rotated m logs (db, e)).
Proof.
  intros Hi Hl. apply wp_bind. eapply wp_impl; [by apply rotate_prepare_spec|]. by intros [next|err] s' H; [apply H|].
Qed.
