(* ===== verification/Compact.v ===== *)
(** * The compaction commit and the orphan sweep (src/internal/engine/compact.go)

    What a compaction hands to the writer and how the writer commits it; and the
    sweep of Open.  The pass that builds the commit is in Compactor. *)
From S2P Require Import Prelude LogRecord Keydir Hint Storage Names Manifest HintFile Recovery Db.

Record rewrite := mkRewrite {
  rw_key : bytes;
  oldEntry : keydirEntry;
  newEntry : keydirEntry;
}.

Record compactCommit := mkCommit {
  newSeg : option segment;
  rewrites : list rewrite;
  oldSegs : list segment;
}.

(** ** The commit, on the writer *)

Definition apply_rewrites (k : keydir) (rws : list rewrite) : keydir :=
  foldl (λ k r, (compareAndSwap k (rw_key r) (oldEntry r) (newEntry r)).2) k rws.

Fixpoint retire (uncertain : bool) (olds : list segment) (e : env) : env :=
  match olds with
  | [] => e
  | s :: olds' =>
    let e := ignore (close s) e in
    let e := if uncertain then e
             else ignore (removeHintFile (s_id s)) (ignore (os_Remove (s_path s)) e) in
    retire uncertain olds' e
  end.

Definition candidate_ids (cc : compactCommit) : list Z := s_id <$> oldSegs cc.

Definition commit_live (db : DB) (cc : compactCommit) : list Z :=
  filter (λ id, id ∉ candidate_ids cc) (live_ids db)
    ++ match newSeg cc with Some ns => [s_id ns] | None => [] end.

(** Everything before the write lock is taken; the result is
    [manifestUncertain]. *)
Definition commit_prepare (cc : compactCommit) : M bool :=
  λ s, let (db, e) := s in
  match active db with
  | None => (Err nil_dereference, s)
  | Some activeID =>
    let barrier := match newSeg cc with
                   | Some _ => on_error syncDir Datatypes.id
                                 (λ err, EWrap "compact: fsync data dir before manifest: %w" [err])
                   | None => eret tt
                   end in
    match barrier e with
    | (Err err, e) => (Err err, (db, e))
    | (Ok _, e) =>
      match writeManifest (commit_live db cc) activeID e with
      | (Ok _, e) => (Ok false, (db, e))
      | (Err err, e) =>
          if errors_Is err ErrManifestPublishedButUncertain then (Ok true, (db, e))
          else (Err (EWrap "compact: persist manifest: %w" [err]), (db, e))
      end
    end
  end.

(** What is done under the lock. *)
Definition commit_publish (cc : compactCommit) (db : DB) : DB :=
  let m := match newSeg cc with Some ns => <[s_id ns := ns]> (segs db) | None => segs db end in
  let k := apply_rewrites (index db) (rewrites cc) in
  let m := foldl (λ m s, base.delete (s_id s) m) m (oldSegs cc) in
  set_index k (set_segments (Some m) db).

Definition handleCompactCommit (cc : compactCommit) : M unit :=
  do! uncertain := commit_prepare cc in
  do! _ := modify (commit_publish cc) in
  λ s, (Ok tt, lift_ (retire uncertain (oldSegs cc)) s).

(** ** The orphan sweep of Open *)

Definition orphan_id (name : bytes) : option Z :=
  let ext := filepath_Ext name in
  if decide (ext = segmentFileExt ∨ ext = hintFileExt) then Sscanf_id ext name else None.

Fixpoint sweep_names (live : list Z) (names : list bytes) (e : env) : env :=
  match names with
  | [] => e
  | name :: names' =>
    let e := match orphan_id name with
             | Some id => if decide (id ∈ live) then e else ignore (os_Remove name) e
             | None => e
             end in
    sweep_names live names' e
  end.

Definition sweepOrphans (e : env) : result unit * env :=
  match readManifest e with
  | (Err err, e) => if errors_Is err errManifestMissing then (Ok tt, e) else (Err err, e)
  | (Ok (manifest, _), e) =>
    match os_ReadDir e with
    | (Err err, e) => (Err err, e)
    | (Ok names, e) => (Ok tt, sweep_names manifest names e)
    end
  end.
