(* ===== verification/Engine.v ===== *)
(** * The engine's operations (src/internal/engine/engine.go)

    The writer's request handlers and group commit, the calls that submit to
    it, and Open and Close. *)
From S2P Require Import Prelude LogRecord Keydir Hint Storage Names Manifest HintFile Recovery Db Compact.

(** ** Requests *)

(** [writeRequest], one constructor per [writeKind]. *)
Inductive writeRequest :=
| writeKindPut (key value : bytes)
| writeKindDelete (key : bytes)
| writeKindBatch (entries : list BatchEntry)
| writeKindCompactCommit (compact : compactCommit).

Definition validateKeyValue (key value : bytes) : option error :=
  if zlen key =? 0 then Some (ESentinel ErrEmptyKey)
  else if maxKeyLen <? zlen key then Some (ESentinel ErrKeyTooLarge)
  else if maxValLen <? zlen value then Some (ESentinel ErrValueTooLarge)
  else None.

(** ** The writer *)

(** Publishing a write in the index, the last thing a handler does. *)
Definition update_index (f : keydir → keydir) : M bool :=
  do! _ := modify (λ db, set_index (f (index db)) db) in eret true.

Definition record_rotates (rec : record) (db : DB) : bool :=
  MaxSegmentSize (opts db) <? active_size db + encodedSize rec.

(** Append and flush a record; the result is its index update. *)
Definition write_record (rec : record) : M (keydir → keydir) :=
  do! buf := encode_buffer (encodedSize rec) (encode rec) in
  do! offset := append_active buf in
  do! db := get_db in
  eret (λ k,
    if rec_flag rec =? recordFlagTombstone then Keydir.delete k (rec_key rec)
    else Keydir.put k (rec_key rec)
           (mkEntry (default 0 (active db)) (offset + (recordHeaderSize + zlen (rec_key rec)))
              (to_u32 (zlen (rec_value rec))) (rec_tstamp rec))).

(** The append of a PUT or a TOMBSTONE; the result says the active segment was
    written. *)
Definition handleRecord (flag : Z) (key value : bytes) : M bool :=
  do! now := tick in
  let rec := mkRecord now flag key value in
  do! db := get_db in
  do! _ := (if record_rotates rec db then rotateActive else eret tt) in
  do! f := write_record rec in
  update_index f.

(** The index operations of a batch whose record is at [offset]; [bodyOff] is
    the offset of the next entry in the body. *)
Fixpoint batch_ops (fid now offset bodyOff : Z) (entries : list BatchEntry) : list keydirOp :=
  match entries with
  | [] => []
  | e :: entries' =>
    let valLen := if be_Delete e then 0 else zlen (be_Value e) in
    let valuePos := offset + (recordHeaderSize + bodyOff + batchEntryHeaderSize + zlen (be_Key e)) in
    mkOp (be_Key e) (mkEntry fid valuePos (to_u32 valLen) now) (be_Delete e)
    :: batch_ops fid now offset (bodyOff + (batchEntryHeaderSize + zlen (be_Key e) + valLen)) entries'
  end.

Definition batch_rotates (entries : list BatchEntry) (db : DB) : bool :=
  let encodedSize := recordHeaderSize + encodedBatchBodySize entries in
  (0 <? active_size db) && (MaxSegmentSize (opts db) <? active_size db + encodedSize).

Definition write_batch (now : Z) (entries : list BatchEntry) : M (keydir → keydir) :=
  do! buf := encode_buffer (recordHeaderSize + encodedBatchBodySize entries)
               (λ b, encodeBatchRecord b now entries) in
  do! offset := append_active buf in
  do! db := get_db in
  eret (λ k, applyBatch k (batch_ops (default 0 (active db)) now offset batchCountSize entries)).

Definition handleBatch (entries : list BatchEntry) : M bool :=
  do! now := tick in
  do! db := get_db in
  do! _ := (if batch_rotates entries db then rotateActive else eret tt) in
  do! f := write_batch now entries in
  update_index f.

Definition handleOne (req : writeRequest) : M bool :=
  do! db := get_db in
  if writesDisabled db then fail (ESentinel ErrWritesDisabled)
  else match req with
       | writeKindBatch entries => handleBatch entries
       | writeKindCompactCommit cc => do! _ := handleCompactCommit cc in eret false
       | writeKindPut key value => handleRecord recordFlagPut key value
       | writeKindDelete key => handleRecord recordFlagTombstone key []
       end.

(** The append phase of a burst, in order. *)
Fixpoint handle_all (burst : list writeRequest) (s : state) : list (result bool) * state :=
  match burst with
  | [] => ([], s)
  | req :: burst' =>
    let (r, s) := handleOne req s in
    let (rs, s) := handle_all burst' s in (r :: rs, s)
  end.

Definition appended_active (r : result bool) : bool :=
  match r with Ok true => true | _ => false end.

(** The reply to a request, given what a failed fsync made of it. *)
Definition reply (wrapped : option error) (r : result bool) : result unit :=
  match r with
  | Err err => Err err
  | Ok touched => match wrapped with
                  | Some w => if touched then Err w else Ok tt
                  | None => Ok tt
                  end
  end.

Definition processBurst (burst : list writeRequest) (s : state) : list (result unit) * state :=
  let (results, s) := handle_all burst s in
  if existsb appended_active results && SyncOnPut (opts s.1) then
    match with_active sync s with
    | (Err err, s) => (reply (Some (EWrap "engine: fsync: %w" [err])) <$> results, s)
    | (Ok _, s) => (reply None <$> results, s)
    end
  else (reply None <$> results, s).

(** [drainAfterClose]: what is still in the channel is one last burst. *)
Definition drainAfterClose (queue : list writeRequest) (s : state) : list (result unit) * state :=
  match queue with [] => ([], s) | _ => processBurst queue s end.

(** ** The mutating calls *)

(** The gate of [submit], before the request reaches the channel. *)
Definition submit_gate (db : DB) : option error :=
  if closed db then Some (ESentinel ErrDBClosed)
  else if writesDisabled db then Some (ESentinel ErrWritesDisabled)
  else None.

(** [submit] when the request is served in a burst of its own. *)
Definition submit (req : writeRequest) : M unit :=
  λ s, match submit_gate s.1 with
       | Some err => (Err err, s)
       | None => match processBurst [req] s with
                 | ([r], s) => (r, s)
                 | (_, s) => (Err (errorf "no reply"), s)
                 end
       end.

Definition Put (key value : bytes) : M unit :=
  match validateKeyValue key value with
  | Some err => fail err
  | None => submit (writeKindPut key value)
  end.

Definition Delete (key : bytes) : M unit :=
  if zlen key =? 0 then fail (ESentinel ErrEmptyKey)
  else if maxKeyLen <? zlen key then fail (ESentinel ErrKeyTooLarge)
  else submit (writeKindDelete key).

Definition invalid_entry (err : string) : error :=
  EWrap "%w: entry %d: %w" [ESentinel ErrInvalidBatchEntry; ESentinel err].

Fixpoint validate_entries (entries : list BatchEntry) : option error :=
  match entries with
  | [] => None
  | e :: entries' =>
    if zlen (be_Key e) =? 0 then Some (invalid_entry ErrEmptyKey)
    else if maxKeyLen <? zlen (be_Key e) then Some (invalid_entry ErrKeyTooLarge)
    else if negb (be_Delete e) && (maxValLen <? zlen (be_Value e))
    then Some (invalid_entry ErrValueTooLarge)
    else validate_entries entries'
  end.

Definition BatchPut (entries : list BatchEntry) : M unit :=
  if zlen entries =? 0 then eret tt
  else if maxBatchEntries <? zlen entries
  then fail (EWrap "%w: %d entries exceeds maxBatchEntries=%d" [ESentinel ErrBatchTooLarge])
  else match validate_entries entries with
       | Some err => fail err
       | None =>
         do! db := get_db in
         if MaxBatchEncodedSize (opts db) <? recordHeaderSize + encodedBatchBodySize entries
         then fail (ESentinel ErrBatchTooLarge)
         else submit (writeKindBatch entries)
       end.

(** ** Close *)

Fixpoint close_each (l : list segment) (e : env) : option error * env :=
  match l with
  | [] => (None, e)
  | s :: l' =>
    let (r, e) := close s e in
    let (firstErr, e) := close_each l' e in
    (match r with Err err => Some err | Ok _ => firstErr end, e)
  end.

Definition closeAllSegmentsLocked (s : state) : option error * state :=
  let (firstErr, e) := close_each ((map_to_list (segs s.1)).*2) s.2 in
  (firstErr, (set_active None (set_segments None s.1), e)).

(** Closing the LOCK file; its error is dropped. *)
Definition releaseLock (s : state) : state := lift_ (ignore file_Close) s.

(** [Close] once the writer has drained its queue and exited. *)
Definition Close : M unit :=
  λ s, if closed s.1 then (match closeErr s.1 with Some err => Err err | None => Ok tt end, s)
  else
    let snap := statsLocked s.1 in
    let (err1, s) := match active s.1 with
                     | None => (None, s)
                     | Some _ => match with_active sync s with
                                 | (Err err, s) => (Some err, s)
                                 | (Ok _, s) => (None, s)
                                 end
                     end in
    let (err2, s) := closeAllSegmentsLocked s in
    let s := releaseLock s in
    let firstErr := match err1 with Some _ => err1 | None => err2 end in
    let s := (set_closed firstErr snap s.1, s.2) in
    (match firstErr with Some err => Err err | None => Ok tt end, s).

(** ** Open *)

Definition resolve_options (o : Options) : result Options :=
  if String.eqb (Dir o) "" then Err (errorf "engine: Options.Dir is required")
  else
    let seg := if MaxSegmentSize o =? 0 then defaultMaxSegmentSize else MaxSegmentSize o in
    if seg <? 0 then Err (errorf "engine: Options.MaxSegmentSize must be >= 0")
    else
      let depth := if WriteQueueDepth o =? 0 then defaultWriteQueueDepth else WriteQueueDepth o in
      if depth <? 0 then Err (errorf "engine: Options.WriteQueueDepth must be >= 0")
      else
        let batch := if MaxBatchEncodedSize o =? 0 then defaultMaxBatchEncodedSize
                     else MaxBatchEncodedSize o in
        if batch <? 0 then Err (errorf "engine: Options.MaxBatchEncodedSize must be >= 0")
        else if recordHeaderSize + maxBatchBodyLen <? batch
        then Err (errorf "engine: Options.MaxBatchEncodedSize must be <= %d")
        else if CompactionInterval o <? 0
        then Err (errorf "engine: Options.CompactionInterval must be >= 0")
        else Ok (mkOptions (Dir o) seg (SyncOnPut o) depth batch (CompactionInterval o)).

Definition lockFilename : bytes := String.list_byte_of_string "LOCK".

(** [os.OpenFile(LOCK, O_RDWR|O_CREATE)] and the flock on it. *)
Definition os_open_create (name : bytes) : env → result N * env :=
  sys (λ d, match d_dir d !! name with
            | Some ino => (Ok ino, d)
            | None => (Ok (alloc name d).1, (alloc name d).2)
            end) no_effect.
Definition flock : env → result unit * env := sys (λ d, (Ok tt, d)) no_effect.
Definition flockExclusiveNonblocking : env → result unit * env :=
  on_error flock Datatypes.id (λ err, EWrap "flock data dir: %w (another process may hold it)" [err]).
Definition acquireDataDirLock : env → result unit * env :=
  do! _ := on_error (os_open_create lockFilename) Datatypes.id (λ err, EWrap "open lockfile: %w" [err]) in
  on_error flockExclusiveNonblocking (ignore file_Close) Datatypes.id.

Definition os_MkdirAll : env → result unit * env := sys (λ d, (Ok tt, d)) no_effect.

Fixpoint open_segments (ids : list Z) : M unit :=
  match ids with
  | [] => eret tt
  | id :: ids' =>
    do! seg := lift (openSegmentReadWrite id) in
    do! _ := modify (λ db,
      let db := set_segments (Some (<[id := seg]> (segs db))) db in
      if nextID db <? to_u32 (id + 1) then set_nextID (to_u32 (id + 1)) db else db) in
    open_segments ids'
  end.

(** Step around every segment file on disk, manifest-listed or not. *)
Definition skip_orphan_ids (onDisk : list Z) (db : DB) : DB :=
  match last onDisk with
  | None => db
  | Some maxOnDisk => if nextID db <? to_u32 (maxOnDisk + 1) then set_nextID (to_u32 (maxOnDisk + 1)) db else db
  end.

Definition run_recover (haveActive : bool) (activeID : Z) : M unit :=
  λ s, let (db, e) := s in
  match recover haveActive activeID (segs db) (index db) (lastTstamp db) e with
  | (Err err, e) => (Err err, (db, e))
  | (Ok (m, k, t), e) =>
      (Ok tt, (set_segments (Some m) (set_index k (set_lastTstamp t db)), e))
  end.

(** Make the recovered active segment the append target if it has room. *)
Definition promote_active (haveActive : bool) (activeID : Z) : M unit :=
  λ s, let (db, e) := s in
  if haveActive then
    match segs db !! activeID with
    | None => (Err nil_dereference, s)
    | Some seg =>
      if s_size seg <? MaxSegmentSize (opts db) then
        match file_SeekEnd e with
        | (Err err, e) => (Err err, (db, e))
        | (Ok _, e) =>
            (Ok tt, (set_active (Some activeID)
                       (put_segment (mkSegment (s_id seg) (s_file seg) (Some bufio_new) (s_size seg)) db), e))
        end
      else (Ok tt, s)
    end
  else (Ok tt, s).

(** Otherwise open a fresh one; the result says so. *)
Definition fresh_active : M bool :=
  do! db := get_db in
  match active db with
  | Some _ => eret false
  | None =>
    do! freshID := claimID in
    do! seg := lift (createSegment freshID) in
    do! _ := modify (λ db, set_active (Some (s_id seg)) (put_segment seg db)) in
    eret true
  end.

(** [closeAllSegmentsLocked] and [releaseLock] on a failed Open. *)
Definition teardown (s : state) : state := releaseLock (closeAllSegmentsLocked s).2.

Definition open_body : M unit :=
  do! onDisk := on_error (lift listSegments) releaseLock Datatypes.id in
  do! (existing, manifestActive, bootstrapped) :=
    on_error (lift (reconcileManifest onDisk)) releaseLock Datatypes.id in
  do! _ := on_error (open_segments existing) teardown Datatypes.id in
  do! _ := modify (skip_orphan_ids onDisk) in
  let haveActive := negb (bool_decide (existing = [])) in
  let activeID := if bootstrapped then default 0 (last existing) else manifestActive in
  do! _ := on_error (run_recover haveActive activeID) teardown (λ err, EWrap "engine: recover: %w" [err]) in
  do! _ := on_error (promote_active haveActive activeID) teardown Datatypes.id in
  do! created := on_error fresh_active teardown Datatypes.id in
  do! db := get_db in
  do! _ := (if bootstrapped || created
            then on_error (lift (writeManifest (sort_ids (live_ids db)) (default 0 (active db)))) teardown
                   (λ err, EWrap "engine: write manifest: %w" [err])
            else eret tt) in
  λ s, (Ok tt, lift_ (ignore sweepOrphans) s).

Definition Open (o : Options) (e : env) : result DB * env :=
  match resolve_options o with
  | Err err => (Err err, e)
  | Ok o =>
    (do! _ := on_error os_MkdirAll Datatypes.id (λ err, EWrap "engine: mkdir %s: %w" [err]) in
     do! _ := on_error acquireDataDirLock Datatypes.id (λ err, EWrap "engine: %w" [err]) in
     λ e, match open_body (mkDB o None 0 0 (make_bytes (64 * 1024)) (Some ∅) newKeydir false None false None, e) with
          | (Err err, (_, e)) => (Err err, e)
          | (Ok _, (db, e)) => (Ok db, e)
          end) e
  end.
