(* ===== verification/Compactor.v ===== *)
(** * The compactor (src/internal/engine/compact.go)

    A pass runs on the goroutine of its caller, without a lock on the index or
    the segments, while the writer goes on serving requests and Close may begin.
    It is a function of the shared state and of a script: before each of its
    actions (a lookup, a system call, the submission of the commit) it pauses,
    and the script says what the writer does in the pause. *)
From S2P Require Import Prelude LogRecord Keydir Hint Storage Names Manifest HintFile Recovery Db Compact Engine.

Definition compactionMinCandidates : nat := 2.

(** ** Meanwhile *)

(** The writer's steps, finer than its bursts: one request handled, the fsync
    of a group commit; and Close publishing [closed]. *)
Variant writerStep :=
| Handles (req : writeRequest)
| Fsyncs
| Closes.

(** The shared state, the script of the pauses to come, and the requests
    handled in the pauses so far with their results, which only the
    specification looks at. *)
Record pstate := mkP {
  p_script : list (list writerStep);
  p_served : list (writeRequest * result bool);
  p_state : state;
}.

Definition p_db (p : pstate) : DB := (p_state p).1.
Definition p_env (p : pstate) : env := (p_state p).2.
Definition with_state (s : state) (p : pstate) : pstate := mkP (p_script p) (p_served p) s.
Definition with_env (e : env) (p : pstate) : pstate := with_state (p_db p, e) p.

(** Scripts are limited to what the widths allow: a request that would use up
    the ids (one is left to the pass) or the timestamps is passed over. *)
Definition room_left (db : DB) : bool := (nextID db <? 2 ^ 32 - 2) && (lastTstamp db <? 2 ^ 63 - 1).

(** [db.closed.Store(true)] *)
Definition set_closing (db : DB) : DB :=
  mkDB (opts db) (active db) (nextID db) (lastTstamp db) (encBuf db) (segments db) (index db) true
    (closeErr db) (writesDisabled db) (cachedStats db).

Definition writer_step (p : pstate) (w : writerStep) : pstate :=
  match w with
  | Handles req =>
      if room_left (p_db p)
      then let (r, s) := handleOne req (p_state p) in mkP (p_script p) (p_served p ++ [(req, r)]) s
      else p
  | Fsyncs => with_state (with_active sync (p_state p)).2 p
  | Closes => with_state (set_closing (p_db p), p_env p) p
  end.

Definition pause (p : pstate) : pstate :=
  match p_script p with
  | [] => p
  | ws :: script => foldl writer_step (mkP script (p_served p) (p_state p)) ws
  end.

Abbreviation PM A := (pstate → result A * pstate).

(** The pass's own actions, each preceded by a pause. *)
Definition paused {A} (m : PM A) : PM A := λ p, m (pause p).
Definition on_state {A} (m : M A) : PM A :=
  paused (λ p, let (r, s) := m (p_state p) in (r, with_state s p)).
Definition on_env {A} (m : env → result A * env) : PM A := on_state (lift m).
Definition on_env_ (f : env → env) (p : pstate) : pstate :=
  let p := pause p in with_env (f (p_env p)) p.

(** ** Copying the live records *)

(** The variables of the scan: the merged segment, the rewrites accumulated, the
    reused encode buffer. *)
Record cstate := mkCState {
  cs_newSeg : segment;
  cs_rewrites : list rewrite;
  cs_encBuf : bytes;
}.

Abbreviation CM A := (cstate * pstate → result A * (cstate * pstate)).

(** [readRecord] on the reader at [off]; any failing pread fails the read. *)
Definition seg_readRecord (c : segment) (off : Z) : env → result (record * Z) * env :=
  sys (λ d, match readRecord (slice (file_data d (s_file c)) off (s_size c)) with
            | (Ok rec, n, _) => (Ok (rec, n), d)
            | (Err err, _, _) => (Err err, d)
            end) no_effect.

(** Copy the record for one live key: re-encode, append, note the rewrite. *)
Definition copy_live (encode_msg append_msg : string) (c : segment) (rec : record) (valuePos : Z)
    : CM unit :=
  λ s, let (cs, p) := s in
  let need := encodedSize rec in
  let buf := if zlen (cs_encBuf cs) <? need then make_bytes need else cs_encBuf cs in
  let (r, out) := encode rec (slice_to buf need) in
  let encBuf := out ++ slice_from buf need in
  match r with
  | Err err => (Err (EWrap encode_msg [err]), (mkCState (cs_newSeg cs) (cs_rewrites cs) encBuf, p))
  | Ok _ =>
    let p := pause p in
    match Storage.append (cs_newSeg cs) out (p_env p) with
    | (Err err, ns, e) => (Err (EWrap append_msg [err]),
                           (mkCState ns (cs_rewrites cs) encBuf, with_env e p))
    | (Ok newOffset, ns, e) =>
      let valLen := to_u32 (zlen (rec_value rec)) in
      let rw := mkRewrite (rec_key rec)
                  (mkEntry (s_id c) valuePos valLen (rec_tstamp rec))
                  (mkEntry (s_id ns) (newOffset + (recordHeaderSize + zlen (rec_key rec))) valLen
                     (rec_tstamp rec)) in
      (Ok tt, (mkCState ns (cs_rewrites cs ++ [rw]) encBuf, with_env e p))
    end
  end.

(** The keydir lookup: is the value at [valuePos] of [c] the key's current one? *)
Definition is_live (c : segment) (key : bytes) (valuePos valLen : Z) (db : DB) : bool :=
  match Keydir.get (index db) key with
  | None => false
  | Some cur => negb (negb (fileID cur =? s_id c) || negb (Keydir.valuePos cur =? valuePos)
                      || negb (valueLen cur =? valLen))
  end.

Definition copy_if_live (encode_msg append_msg : string) (c : segment) (rec : record) (valuePos : Z)
    : CM unit :=
  λ s, let (cs, p) := s in
  let p := pause p in
  if is_live c (rec_key rec) valuePos (to_u32 (zlen (rec_value rec))) (p_db p)
  then copy_live encode_msg append_msg c rec valuePos (cs, p) else (Ok tt, (cs, p)).

Fixpoint copy_batch (c : segment) (tstamp : Z) (ds : list batchEntryDecoded) : CM unit :=
  match ds with
  | [] => eret tt
  | d :: ds' =>
    do! _ := (if bd_flag d =? recordFlagTombstone then eret tt
              else copy_if_live "compact: encode merged batch entry (segment %d offset %d): %w"
                     "compact: append batch entry to merged segment: %w" c
                     (mkRecord tstamp recordFlagPut (bd_key d) (bd_value d)) (bd_valuePos d)) in
    copy_batch c tstamp ds'
  end.

(** One record of the scan. *)
Definition compact_record (c : segment) (recordStart : Z) (rec : record) : CM unit :=
  if rec_flag rec =? recordFlagTombstone then eret tt
  else if rec_flag rec =? recordFlagPut then
    copy_if_live "compact: encode merged record for key (segment %d offset %d): %w"
      "compact: append to merged segment: %w" c rec
      (recordStart + (recordHeaderSize + zlen (rec_key rec)))
  else if rec_flag rec =? recordFlagBatch then
    match decodeBatchBody (rec_value rec) recordStart with
    | Err err => λ s, (Err (EWrap "compact: decode batch at segment %d offset %d: %w" [err]), s)
    | Ok entries => copy_batch c (rec_tstamp rec) entries
    end
  else λ s, (Err (errorf "compact: unknown record flag %d at segment %d offset %d"), s).

Fixpoint compact_loop (fuel : nat) (c : segment) (off : Z) (s : cstate * pstate)
    : result unit * (cstate * pstate) :=
  match fuel with
  | O => (Err (ESentinel fuel_exhausted), s)
  | S fuel' =>
    let p := pause s.2 in
    match seg_readRecord c off (p_env p) with
    | (Err err, e) =>
        if errors_Is err io_EOF then (Ok tt, (s.1, with_env e p))
        else (Err (EWrap "compact: read segment %d at offset %d: %w" [err]), (s.1, with_env e p))
    | (Ok (rec, n), e) =>
        match compact_record c off rec (s.1, with_env e p) with
        | (Err err, s) => (Err err, s)
        | (Ok _, s) => compact_loop fuel' c (off + n) s
        end
    end
  end.

Definition compactSegmentInto (c : segment) : CM unit := compact_loop (scan_fuel c) c 0.

Fixpoint compact_segments (cs : list segment) : CM unit :=
  match cs with
  | [] => eret tt
  | c :: cs' => do! _ := compactSegmentInto c in compact_segments cs'
  end.

(** ** One pass *)

(** The snapshot of the immutable segments, oldest id first. *)
Definition compact_candidates (db : DB) : list segment :=
  match active db with
  | None => []
  | Some activeID =>
      omap (λ id, segs db !! id) (sort_ids (filter (λ id, id ≠ activeID) (live_ids db)))
  end.

Definition hint_of_rewrite (r : rewrite) : hintEntry :=
  mkHint (rw_key r) (valuePos (newEntry r)) (valueLen (newEntry r)) (tstamp (newEntry r)).

(** Steps 4 and 5 of [compactOnce]: fsync the merged segment, write its hint. *)
Definition compact_publish (newID : Z) (ns : segment) (rws : list rewrite) (candidates : list segment)
    : PM compactCommit :=
  paused (λ p,
  match sync ns (p_env p) with
  | (Err err, ns, e) =>
      (Err (EWrap "compact: fsync merged segment: %w" [err]), on_env_ (discard_segment ns) (with_env e p))
  | (Ok _, ns, e) =>
      (do! _ := on_error (on_env (writeHintFile newID (hint_of_rewrite <$> rws))) (on_env_ (discard_segment ns))
                  (λ err, EWrap "compact: write hint: %w" [err]) in
       eret (mkCommit (Some ns) rws candidates)) (with_env e p)
  end).

(** Steps 2 to 5 of [compactOnce]: everything before the commit is submitted.
    The commit, with the merged segment to clean up if it is refused. *)
Definition compact_prepare (candidates : list segment) : PM compactCommit :=
  do! newID := on_state claimID in
  do! ns := on_error (on_env (createSegment newID)) Datatypes.id
              (λ err, EWrap "compact: create merged segment: %w" [err]) in
  λ p, match compact_segments candidates (mkCState ns [] [], p) with
  | (Err err, (cs, p)) => (Err err, on_env_ (discard_segment (cs_newSeg cs)) p)
  | (Ok _, (cs, p)) =>
    match cs_rewrites cs with
    | [] => (Ok (mkCommit None [] candidates), on_env_ (discard_segment (cs_newSeg cs)) p)
    | rws => compact_publish newID (cs_newSeg cs) rws candidates p
    end
  end.

(** The clean-up after a refused commit. *)
Definition compact_rollback (cc : compactCommit) : pstate → pstate :=
  match newSeg cc with
  | None => Datatypes.id
  | Some ns => λ p, on_env_ (ignore (removeHintFile (s_id ns))) (on_env_ (discard_segment ns) p)
  end.

(** [submit]: past the gate the commit waits in the channel for its burst. *)
Definition submit_commit (cc : compactCommit) : PM unit :=
  paused (λ p,
  match submit_gate (p_db p) with
  | Some err => (Err err, p)
  | None => (do! _ := on_state (handleOne (writeKindCompactCommit cc)) in eret tt) p
  end).

Definition compactOnce : PM unit :=
  paused (λ p,
  if closed (p_db p) then (Err (ESentinel ErrDBClosed), p)
  else
    let p := pause p in
    let candidates := compact_candidates (p_db p) in
    if (length candidates <? compactionMinCandidates)%nat then (Ok tt, p)
    else
      (do! cc := compact_prepare candidates in
       on_error (submit_commit cc) (compact_rollback cc) Datatypes.id) p).

Definition Compact : PM unit :=
  λ p, if closed (p_db p) then (Err (ESentinel ErrDBClosed), p) else compactOnce p.

(** With nothing happening meanwhile. *)
Definition alone {A} (m : PM A) : M A := λ s, let (r, p) := m (mkP [] [] s) in (r, p_state p).

(** The background compactor: what its [select] received, in order, a tick with
    the script of the pass it starts.  The loop stays parked when nothing more
    arrives; the errors of its passes go to the log. *)
Variant compactorEvent := Ticked (script : list (list writerStep)) | DoneClosed.
Fixpoint compactorLoop (events : list compactorEvent) (p : pstate) : list error * pstate :=
  match events with
  | [] | DoneClosed :: _ => ([], p)
  | Ticked script :: events =>
      let p := mkP script (p_served p) (p_state p) in
      if closed (p_db p) then ([], p) else
      let (r, p) := compactOnce p in
      let (warned, p) := compactorLoop events p in
      (match r with Err err => err :: warned | Ok _ => warned end, p)
  end.
