(* ===== verification/Reader.v ===== *)
(** * Readers beside the writer (src/internal/engine/engine.go)

    [Get] and [ReadKeyRange] run on their callers' goroutines under the read
    lock of [segmentsMu].  The lock stops what takes the write lock (publishing
    a rotated segment, a compaction commit, the teardown of Close) and nothing
    else: the writer goes on appending and publishing records, and a compaction
    pass goes on merging.  As in Compactor a call is a function of the shared
    state and of a script of what the others do in the pauses between its
    actions; here a request of the writer is cut where a reader can tell. *)
From S2P Require Import Prelude LogRecord Keydir Hint Storage Names Manifest HintFile Recovery Db Compact Engine Compactor.

(** ** The writer, up to what readers can see or stop *)

(** Where a request stands: finished; about to append its record; with its
    record in the file and the index still to be updated; or waiting for the
    write lock. *)
Variant progress :=
| Replied (r : result bool)
| Writing (write : M (keydir → keydir))
| Indexing (f : keydir → keydir)
| Waiting (rest : M bool).

Section stages.
Context (locked : bool).

(** Rotation, if it is due; while readers hold the lock only up to it. *)
Definition stage_write (rotates : DB → bool) (write : M (keydir → keydir)) (s : state) : progress * state :=
  if rotates s.1 then
    if locked then
      match rotate_prepare s with
      | (Err err, s) => (Replied (Err err), s)
      | (Ok next, s) =>
          (Waiting (do! _ := rotate_publish next in do! f := write in update_index f), s)
      end
    else
      match rotateActive s with
      | (Err err, s) => (Replied (Err err), s)
      | (Ok _, s) => (Writing write, s)
      end
  else (Writing write, s).

Definition stage_ticked (k : Z → state → progress * state) (s : state) : progress * state :=
  match tick s with
  | (Err err, s) => (Replied (Err err), s)
  | (Ok now, s) => k now s
  end.

Definition stage_record (flag : Z) (key value : bytes) : state → progress * state :=
  stage_ticked (λ now, let rec := mkRecord now flag key value in
    stage_write (record_rotates rec) (write_record rec)).

Definition stage_batch (entries : list BatchEntry) : state → progress * state :=
  stage_ticked (λ now, stage_write (batch_rotates entries) (write_batch now entries)).

Definition stage_commit (cc : compactCommit) (s : state) : progress * state :=
  match commit_prepare cc s with
  | (Err err, s) => (Replied (Err err), s)
  | (Ok uncertain, s) =>
      let rest := do! _ := modify (commit_publish cc) in
                  λ s, (Ok false, lift_ (retire uncertain (oldSegs cc)) s) in
      if locked then (Waiting rest, s) else let (r, s) := rest s in (Replied r, s)
  end.

(** [handleOne] up to its append, or as far as it comes. *)
Definition stage (req : writeRequest) (s : state) : progress * state :=
  if writesDisabled s.1 then (Replied (Err (ESentinel ErrWritesDisabled)), s)
  else match req with
       | writeKindBatch entries => stage_batch entries s
       | writeKindCompactCommit cc => stage_commit cc s
       | writeKindPut key value => stage_record recordFlagPut key value s
       | writeKindDelete key => stage_record recordFlagTombstone key [] s
       end.
End stages.

(** The rest of it. *)
Definition resume (p : progress) : M bool :=
  match p with
  | Replied r => λ s, (r, s)
  | Writing write => do! f := write in update_index f
  | Indexing f => update_index f
  | Waiting rest => rest
  end.

(** ** Meanwhile *)

(** The others' actions: the writer takes a request, appends it, publishes it,
    syncs; Close
    sets [closed], and has run; a pass creates its merged segment, appends to
    it, syncs it, writes its hint, drops it. *)
Variant others_action :=
| Starts (req : writeRequest)
| Writes
| Indexes
| Syncs
| Closing
| Shuts
| Merges
| Copies (ns : segment) (buf : bytes)
| MergedSync (ns : segment)
| MergedHint (id : Z) (entries : list hintEntry)
| Drops (ns : segment).

(** The script of the pauses to come, the request the writer has under way, and
    the requests it has handled with their results, which only the specification
    looks at. *)
Record rdstate := mkR {
  r_script : list (list others_action);
  r_writer : option (writeRequest * progress);
  r_served : list (writeRequest * result bool);
  r_state : state;
}.

Definition r_db (p : rdstate) : DB := (r_state p).1.
Definition r_env (p : rdstate) : env := (r_state p).2.
Definition put_state (s : state) (p : rdstate) : rdstate := mkR (r_script p) (r_writer p) (r_served p) s.
Definition put_env (e : env) (p : rdstate) : rdstate := put_state (r_db p, e) p.
Definition advance (req : writeRequest) (pr : progress) (s : state) (p : rdstate) : rdstate :=
  match pr with
  | Replied r => mkR (r_script p) None (r_served p ++ [(req, r)]) s
  | _ => mkR (r_script p) (Some (req, pr)) (r_served p) s
  end.

(** A pass's merged segment is none of the engine's. *)
Definition foreign (db : DB) (ns : segment) : bool :=
  (0 <=? s_id ns) && (s_id ns <? 2 ^ 32) && bool_decide (segs db !! s_id ns = None)
  && forallb (λ s, negb (s_file s =? s_file ns)%N) ((map_to_list (segs db)).*2).

Definition on_foreign (ns : segment) (f : env → env) (p : rdstate) : rdstate :=
  if foreign (r_db p) ns then put_env (f (r_env p)) p else p.

(** [locked]: readers hold the lock. *)
Definition step (locked : bool) (p : rdstate) (w : others_action) : rdstate :=
  match segments (r_db p) with
  | None => p
  | Some _ =>
    match w, r_writer p with
    | Starts req, None =>
        if room_left (r_db p) then
          let (pr, s) := stage locked req (r_state p) in advance req pr s p
        else p
    | Writes, Some (req, Writing write) =>
        let (r, s) := write (r_state p) in
        advance req (match r with Ok f => Indexing f | Err err => Replied (Err err) end) s p
    | Indexes, Some (req, Indexing f) =>
        let (r, s) := update_index f (r_state p) in advance req (Replied r) s p
    | Syncs, None => put_state (with_active sync (r_state p)).2 p
    | Closing, _ => put_state (set_closing (r_db p), r_env p) p
    | Shuts, None => if locked then p else put_state (Close (r_state p)).2 p
    | Merges, _ => put_state ((do! id := claimID in lift (createSegment id)) (r_state p)).2 p
    | Copies ns buf, _ => on_foreign ns (λ e, let '(_, _, e) := Storage.append ns buf e in e) p
    | MergedSync ns, _ => on_foreign ns (λ e, let '(_, _, e) := sync ns e in e) p
    | MergedHint id entries, _ => put_env (writeHintFile id entries (r_env p)).2 p
    | Drops ns, _ => on_foreign ns (discard_segment ns) p
    | _, _ => p
    end
  end.

Definition rpause (locked : bool) (p : rdstate) : rdstate :=
  match r_script p with
  | [] => p
  | ws :: script => foldl (step locked) (mkR script (r_writer p) (r_served p) (r_state p)) ws
  end.

Abbreviation RM A := (rdstate → result A * rdstate).

(** ** The reads *)

(** Finding the segment and reading from its file are one action: a segment
    keeps its descriptor. *)
Definition Get (key : bytes) : RM bytes :=
  λ p,
  if zlen key =? 0 then (Err (ESentinel ErrEmptyKey), p)
  else if closed (r_db p) then (Err (ESentinel ErrDBClosed), p)
  else
    let p := rpause false p in
    if closed (r_db p) then (Err (ESentinel ErrDBClosed), p)
    else
      let p := rpause true p in
      match Keydir.get (index (r_db p)) key with
      | None => (Err (ESentinel ErrKeyNotFound), p)
      | Some entry =>
        let p := rpause true p in
        match segs (r_db p) !! fileID entry with
        | None => (Err (ESentinel ErrKeyNotFound), p)
        | Some seg =>
          if 0 <? valueLen entry then
            match readAt seg (valueLen entry) (valuePos entry) (r_env p) with
            | (Err err, e) => (Err (EWrap "engine: read value: %w" [err]), put_env e p)
            | (Ok buf, e) => (Ok buf, put_env e p)
            end
          else (Ok [], p)
        end
      end.

Fixpoint materialise (pairs : list rangePair) (p : rdstate) : result (list (bytes * bytes)) * rdstate :=
  match pairs with
  | [] => (Ok [], p)
  | (key, entry) :: pairs' =>
    let p := rpause true p in
    match segs (r_db p) !! fileID entry with
    | None => (Err (errorf "engine: ReadKeyRange: keydir/segments out of sync for key %q (file %d)"), p)
    | Some seg =>
      let read := if 0 <? valueLen entry then readAt seg (valueLen entry) (valuePos entry)
                  else eret [] in
      match read (r_env p) with
      | (Err err, e) => (Err (EWrap "engine: ReadKeyRange read value for key %q: %w" [err]), put_env e p)
      | (Ok val, e) =>
        match materialise pairs' (put_env e p) with
        | (Err err, p) => (Err err, p)
        | (Ok rest, p) => (Ok ((key, val) :: rest), p)
        end
      end
    end
  end.

Definition ReadKeyRange {A} (start end_ : option bytes) (fn : option (bytes → bytes → A → bool * A))
    (a : A) : RM A :=
  λ p,
  match fn with
  | None => (Err (errorf "engine: ReadKeyRange: nil callback"), p)
  | Some fn =>
    if closed (r_db p) then (Err (ESentinel ErrDBClosed), p)
    else if match start, end_ with
            | Some x, Some y => negb (bytes_Compare x y <? 0)
            | _, _ => false
            end
    then (Ok a, p)
    else
      let p := rpause false p in
      if closed (r_db p) then (Err (ESentinel ErrDBClosed), p)
      else
        let p := rpause true p in
        let pairs := snapshotRange (index (r_db p)) start end_ in
        match materialise pairs p with
        | (Err err, p) => (Err err, p)
        | (Ok l, p) => (Ok (visit fn l a), p)
        end
  end.

(** A call in a given state. *)
Definition reading (script : list (list others_action)) (s : state) : rdstate := mkR script None [] s.

(** ** Lemmas *)

(** The stages of a request make up its handler. *)
Lemma stage_write_resume locked rotates write s :
  (let (pr, s) := stage_write locked rotates write s in resume pr s)
  = (do! db := get_db in
     do! _ := (if rotates db then rotateActive else eret tt) in
     do! f := write in
     update_index f) s.
Proof.
  unfold stage_write, rotateActive, ebind. cbn [get_db]. destruct (rotates s.1); [|done].
  destruct locked; destruct (rotate_prepare s) as [[next|err] s1]; try done; cbn [resume]; unfold ebind;
    by destruct (rotate_publish next s1) as [[]].
Qed.

Lemma stage_handleOne locked req s : handleOne req s = let (pr, s') := stage locked req s in resume pr s'.
Proof.
  unfold handleOne, stage, ebind at 1. cbn [get_db]. destruct (writesDisabled s.1); [done|].
  assert (Ht : ∀ (k : Z → state → progress * state) (m : Z → M bool), (∀ now s, (let (pr, s) := k now s in resume pr s) = m now s) →
    (do! now := tick in m now) s = let (pr, s') := stage_ticked k s in resume pr s').
  { intros k m H. unfold stage_ticked, ebind. destruct (tick s) as [[now|err] s1]; [by rewrite <- H|done]. }
  destruct req as [key value|key|entries|cc].
  - apply Ht. intros. apply stage_write_resume.
  - apply Ht. intros. apply stage_write_resume.
  - apply Ht. intros. apply stage_write_resume.
  - unfold stage_commit, handleCompactCommit, ebind. destruct (commit_prepare cc s) as [[]]; [|done]. by destruct locked.
Qed.

(** Left alone, the reads are those of one state. *)
Lemma pause_nil locked w served s : rpause locked (mkR [] w served s) = mkR [] w served s.
Proof. done. Qed.

Lemma Get_alone key s :
  Db.Get key s = let (r, p) := Get key (reading [] s) in (r, r_state p).
Proof.
  destruct s as [db e]. unfold Db.Get, Get, reading. cbn [r_db r_env r_state fst].
  destruct (zlen key =? 0); [done|]. destruct (closed db) eqn:Hc; [done|]. rewrite !pause_nil.
  unfold r_db, r_env. cbn [r_state fst snd]. rewrite Hc. destruct (Keydir.get (index db) key) as [en|]; [|done].
  destruct (segs db !! fileID en) as [seg|]; [|done]. destruct (0 <? valueLen en); [|done].
  by destruct (readAt _ _ _ e) as [[]].
Qed.

Lemma materialise_alone pairs : ∀ served (db : DB) (e : env),
  materialise pairs (mkR [] None served (db, e))
  = let (r, e) := Db.materialise db pairs e in (r, mkR [] None served (db, e)).
Proof.
  induction pairs as [|[k en] pairs IH]; intros served db e; [done|].
  cbn [materialise Db.materialise]. rewrite pause_nil. unfold r_db, r_env. cbn [r_state fst snd].
  destruct (segs db !! fileID en) as [seg|]; [|done].
  destruct ((if 0 <? valueLen en then _ else _) e) as [[v|err] e1]; [|done].
  unfold put_env, put_state. cbn [r_script r_writer r_served r_db r_state fst]. rewrite IH.
  by destruct (Db.materialise db pairs e1) as [[]].
Qed.

Lemma ReadKeyRange_alone {A} start end_ (fn : option (bytes → bytes → A → bool * A)) (a : A) s :
  Db.ReadKeyRange start end_ fn a s
  = let (r, p) := ReadKeyRange start end_ fn a (reading [] s) in (r, r_state p).
Proof.
  destruct s as [db e]. unfold Db.ReadKeyRange, ReadKeyRange, reading. destruct fn as [fn|]; [|done].
  rewrite !pause_nil. unfold r_db. cbn [r_state fst]. destruct (closed db); [done|].
  match goal with |- context [if ?b then (Ok a, _) else _] => destruct b; [done|] end.
  rewrite materialise_alone. by destruct (Db.materialise db _ e) as [[]].
Qed.
