(* ===== verification/Writes.v ===== *)
(** * The writer implements a key-value map

    The abstract map a request updates, and the proof that the writer's
    handlers, composed of clock, rotation, encoding, append and index update,
    implement it: a request that succeeds applies exactly its updates, one that
    fails applies none, whichever calls fail. *)
From S2P Require Import Prelude LogRecord Keydir Storage Frame Names Publish Manifest HintFile Log Recovery Db Invariant Confined WritePath Rotation Compact Engine.

(** ** The specification *)

Abbreviation kvmap := (gmap bytes bytes).

Definition apply_kv (M : kvmap) (kv : bytes * option bytes) : kvmap :=
  match kv.2 with Some v => <[kv.1 := v]> M | None => base.delete kv.1 M end.

(** What a request does to the map. *)
Definition spec_apply (req : writeRequest) (M : kvmap) : kvmap :=
  match req with
  | writeKindPut k v => <[k := v]> M
  | writeKindDelete k => base.delete k M
  | writeKindBatch es =>
      foldl (λ M e, if be_Delete e then base.delete (be_Key e) M else <[be_Key e := be_Value e]> M) M es
  | writeKindCompactCommit _ => M
  end.

(** The requests the public calls let through. *)
Definition request_ok (req : writeRequest) : Prop :=
  match req with
  | writeKindPut k v => key_ok k ∧ value_ok v
  | writeKindDelete k => key_ok k
  | writeKindBatch es => batch_ok es
  | writeKindCompactCommit _ => False
  end.

(** ** A record's updates are its requests' *)

Section abs.
Context (logs : logmap).

Lemma fmap_write_update us : ∀ kvs kd,
  Forall2 (λ kv u, u_key u = kv.1 ∧ match kv.2, u_entry u with
                                    | Some v, Some en => log_value logs en = v
                                    | None, None => True
                                    | _, _ => False
                                    end) kvs us →
  log_value logs <$> foldl write_update kd us = foldl apply_kv (log_value logs <$> kd) kvs.
Proof using Type.
  induction us as [|u us IH]; intros kvs kd H; inversion H as [|kv ? kvs' ? [Hk He] Hr]; subst; [done|].
  cbn [foldl]. rewrite (IH kvs') by done. f_equal. unfold write_update, apply_kv. rewrite Hk.
  destruct (kv.2), (u_entry u); try done; [by rewrite fmap_insert, He|by rewrite fmap_delete].
Qed.
End abs.

(** The map after a record was appended and applied. *)
Lemma abs_append m m' logs db e db' e' a l :
  let logs' := upd logs a (logs a ++ [l]) in
  db_inv m logs db e → log_ok l → db_inv m' logs' db' e' →
  index db' = foldl write_update (index db) (log_updates a (zlen (log_images (logs a))) l) →
  abs db' e' = foldl apply_kv (abs db e) (zip (log_keys l) (log_values l)).
Proof.
  intros logs' Hi Hl Hi' Hx. rewrite (abs_logs _ _ _ _ Hi), (abs_logs _ _ _ _ Hi'), Hx.
  rewrite (fmap_write_update logs' _ (zip (log_keys l) (log_values l))).
  - f_equal. apply map_eq. intros k. rewrite !lookup_fmap. destruct (index db !! k) as [en|] eqn:E; [|done].
    cbn. f_equal. destruct (inv_entry _ _ _ _ Hi _ _ E) as (s & Hs & Hin & _).
    apply log_value_prefix; [|done]. unfold logs', upd. case_decide as Hd; [|done]. rewrite Hd. by eexists.
  - eapply Forall2_impl.
    + apply (log_updates_spec (log_images (logs' a)) (log_images (logs a)) l [] a Hl).
      unfold logs'. rewrite upd_eq, log_images_app. done.
    + intros [k v] u (E1 & _ & H). cbn [fst snd] in *. split; [done|]. destruct v, (u_entry u) as [en|]; try done.
      destruct H as (Hf & _ & _ & _ & Hv). unfold log_value. by rewrite Hf.
Qed.

(** ** One write *)

(** What a handler did: all of a record's updates, or nothing. *)
Definition wrote (m : mode) (logs : logmap) (l : logrec) (s : state) (r : result bool) (s' : state) : Prop :=
  opts s'.1 = opts s.1 ∧ closed s'.1 = closed s.1 ∧ lastTstamp s'.1 = lastTstamp s.1 ∧
  ∃ logs', db_inv m logs' s'.1 s'.2 ∧ (m_stored m = true → confined 1 logs logs' s s') ∧
  match r with
  | Ok b => b = true ∧ writesDisabled s'.1 = writesDisabled s.1
      ∧ abs s'.1 s'.2 = foldl apply_kv (abs s.1 s.2) (zip (log_keys l) (log_values l))
  | Err _ => abs s'.1 s'.2 = abs s.1 s.2
  end.

Lemma fresh_rotated logs logs' db db' t :
  fresh_ts logs db t →
  (∀ id, is_live_id db' id → is_live_id db id ∧ logs' id = logs id ∨ logs' id = []) →
  fresh_ts logs' db' t.
Proof.
  intros Hf H id l Hl Hin. destruct (H id Hl) as [[Hl' E]|E]; rewrite E in Hin; [eauto|].
  by apply not_elem_of_nil in Hin.
Qed.

(** What an append leaves: its index update is not yet published. *)
Definition appended_record (m : mode) (logs : logmap) (l : logrec) (s : state) (r : result (keydir → keydir)) (s' : state) : Prop :=
  ∃ a seg b, active s.1 = Some a ∧ is_live_id s.1 a ∧ s_id seg = a ∧ s'.1 = put_segment seg (set_encBuf b s.1)
    ∧ framed (λ n, n ≠ segmentFilename a) (e_disk s.2) (e_disk s'.2) ∧
  match r with
  | Ok f => f (index s.1) = foldl write_update (index s.1) (log_updates a (zlen (log_images (logs a))) l)
      ∧ db_inv m (upd logs a (logs a ++ [l])) (set_index (f (index s.1)) s'.1) s'.2
  | Err _ => keeps m logs logs s s'
  end.

(** [w] appends the record [l]. *)
Definition writes (m : mode) (l : logrec) (w : M (keydir → keydir)) : Prop :=
  ∀ logs (db : DB) (e : env),
    db_inv m logs db e → log_ts l <= lastTstamp db → fresh_ts logs db (log_ts l) →
    wp w (db, e) (appended_record m logs l (db, e)).

Lemma append_writes (m : mode) (need : Z) (enc : bytes → result Z * bytes) (l : logrec) (ops : DB → Z → keydir → keydir) :
  log_ok l → zlen (log_image l) = need → (∀ b, zlen b = need → enc b = (Ok need, log_image l)) →
  (∀ db off a, active db = Some a → ops db off (index db) = foldl write_update (index db) (log_updates a off l)) →
  writes m l (do! buf := encode_buffer need enc in
              do! offset := append_active buf in
              do! db := get_db in
              eret (ops db offset)).
Proof.
  intros Hl Hz Henc Hops logs db e Hi Hts Hf. apply wp_bind.
  eapply wp_impl; [eapply encode_buffer_spec; [done|rewrite <- Hz; apply zlen_nonneg|done]|].
  intros r s2 (K2 & -> & b & ->). pose proof (kp_inv _ _ _ _ _ K2) as Hi2. cbn [fst snd] in Hi2.
  apply wp_bind. eapply wp_impl; [by apply append_active_spec|].
  intros r [db3 e3] (a & seg & Ha & Hla & Hsid & E3 & F3 & H3). cbn [fst snd] in *. subst db3.
  unfold wp. destruct r as [off|err]; cbn [ebind get_db eret fst snd]; exists a, seg, b; repeat (split; [done|]);
    [|by eapply keeps_trans].
  destruct H3 as (-> & H3). pose proof (Hops (put_segment seg (set_encBuf b db)) (zlen (log_images (logs a))) a Ha) as Ho.
  change (index (put_segment _ _)) with (index db) in Ho. split; [done|]. cbn [fst snd]. by rewrite Ho.
Qed.

Lemma write_tail m l w logs (db : DB) (e : env) (cond : bool) :
  writes m l w → log_ok l → db_inv m logs db e → id_left m db → log_ts l <= lastTstamp db → fresh_ts logs db (log_ts l) →
  writesDisabled db = false →
  wp (do! _ := (if cond then rotateActive else eret tt) in
      do! f := w in
      update_index f) (db, e) (wrote m logs l (db, e)).
Proof.
  intros Hw Hl Hi Hleft Hts Hf Hdis.
  assert (Hrot : wp (if cond then rotateActive else eret tt) (db, e) (rotated m logs (db, e))).
  { destruct cond; [by apply rotateActive_spec|]. exists logs. split; [by apply keeps_refl|].
    split; [done|]. split; [by left|]. split; [|done]. intros _.
    eapply confined_le; [by apply confined_refl, Hi|lia]. }
  apply wp_bind. eapply wp_impl; [exact Hrot|]. intros r [db1 e1] (logs1 & K1 & T1 & L1 & C1 & D1). cbn [fst snd] in *.
  pose proof (kp_inv _ _ _ _ _ K1) as Hi1. cbn [fst snd] in Hi1.
  pose proof (keeps_abs _ _ _ _ _ _ _ Hi K1) as A1.
  destruct r as [[]|err].
  2: { split; [apply K1|]. split; [apply K1|]. split; [done|]. exists logs1. split; [done|]. by split. }
  apply wp_bind. eapply wp_impl.
  { apply (Hw logs1); [done|lia|]. eapply (fresh_rotated logs); [done|]. exact L1. }
  intros r [db3 e3] (a & seg & b & Ha & Hla & Hsid & E3 & F3 & H3). cbn [fst snd] in *. subst db3.
  assert (C3 : m_stored m = true → ∀ logs3 kd, (∀ i, i ≠ a → logs3 i = logs1 i) →
    (∀ key en, kd !! key = Some en → fileID en = a ∨ index db1 !! key = Some en) →
    confined 1 logs logs3 (db, e) (set_index kd (put_segment seg (set_encBuf b db1)), e3)).
  { intros Hm logs3 kd Hl3 Hkd. eapply (confined_trans 1 0); [by apply C1| |done].
    change (index db1) with (index (set_encBuf b db1)) in Hkd.
    eapply (confined_trans 0 0); [|eapply confined_put; [exact Ha|done|done|exact Hl3|exact Hkd|exact F3]|done].
    apply confined_same; [done..|]. apply framed_refl, Hi1. }
  destruct r as [f|err].
  - destruct H3 as (Ef & Hi3). unfold wp, wrote, update_index. cbn [ebind modify eret fst snd].
    change (index (put_segment _ _)) with (index db1). split; [cbn; apply K1|]. split; [cbn; apply K1|]. split; [done|].
    eexists. split; [exact Hi3|]. split.
    { intros Hm. apply C3; [done|intros; by apply upd_ne|]. intros key en Hk. rewrite Ef in Hk.
      destruct (foldl_write_lookup (log_updates a (zlen (log_images (logs1 a))) l) (index db1) key)
        as [[E _]|(pre & u & post & Eus & _ & E & _)]; rewrite Hk in E; [by right|left].
      eapply (log_updates_shape a _ l u); [|done]. rewrite Eus. apply elem_of_app. right. by left. }
    split; [done|]. split; [exact D1|]. rewrite <- A1. eapply abs_append; [exact Hi1|done|exact Hi3|exact Ef].
  - pose proof (keeps_abs _ _ _ _ _ _ _ Hi1 H3) as A3. unfold wp, wrote. cbn [fst snd].
    split; [cbn; apply K1|]. split; [cbn; apply K1|]. split; [done|].
    exists logs1. split; [apply H3|]. split; [|by rewrite A3, A1].
    intros Hm. rewrite (index_unchanged (set_encBuf b db1) seg). apply C3; [done|done|auto].
Qed.
(** ** The handlers *)

(** A state from which one more write is within the widths. *)
Definition has_room (m : mode) (db : DB) : Prop := lastTstamp db < 2 ^ 63 - 1 ∧ id_left m db.

(** What serving a request does. *)
Definition served (m : mode) (logs : logmap) (req : writeRequest) (s : state) (r : result bool) (s' : state) : Prop :=
  opts s'.1 = opts s.1 ∧ closed s'.1 = closed s.1 ∧ lastTstamp s.1 <= lastTstamp s'.1 ∧
  ∃ logs', db_inv m logs' s'.1 s'.2 ∧ (m_stored m = true → confined 1 logs logs' s s') ∧
  match r with
  | Ok b => b = true ∧ writesDisabled s'.1 = writesDisabled s.1 ∧ lastTstamp s.1 < lastTstamp s'.1
      ∧ abs s'.1 s'.2 = spec_apply req (abs s.1 s.2)
  | Err _ => abs s'.1 s'.2 = abs s.1 s.2
  end.

Lemma served_wrote m logs logs1 req l (db : DB) (e : env) (s1 : state) (now : Z) r s' :
  db_inv m logs db e → keeps m logs logs1 (db, e) s1 →
  lastTstamp db < now → s1.1 = set_lastTstamp now db → (m_stored m = true → confined 0 logs logs1 (db, e) s1) →
  foldl apply_kv (abs db e) (zip (log_keys l) (log_values l)) = spec_apply req (abs db e) →
  wrote m logs1 l s1 r s' → served m logs req (db, e) r s'.
Proof.
  intros Hi K Hlt E Hcf Hspec (O & C & T & logs' & Hi' & Hcf' & H). destruct s1 as [db1 e1]. cbn [fst snd] in *.
  pose proof (keeps_abs _ _ _ _ _ _ _ Hi K) as A. subst db1. cbn in O, C, T.
  split; [done|]. split; [done|]. split; [cbn; lia|]. exists logs'. split; [done|]. split.
  { intros Hm. by eapply (confined_trans 0 1); [apply Hcf|apply Hcf'|]. }
  destruct r as [b|err].
  - destruct H as (-> & W & H). split; [done|]. split; [done|]. split; [cbn; lia|]. by rewrite H, A.
  - by rewrite H, A.
Qed.

(** After the clock: the rest of a handler writes the record. *)
Lemma handler_spec m logs req (db : DB) (e : env) (rest : Z → M bool) (mk : Z → logrec) :
  db_inv m logs db e → has_room m db → writesDisabled db = false →
  (∀ now, is_i64 now → log_ts (mk now) = now ∧ log_ok (mk now)) →
  (∀ now, foldl apply_kv (abs db e) (zip (log_keys (mk now)) (log_values (mk now))) = spec_apply req (abs db e)) →
  (∀ now db1 e1, is_i64 now → db_inv m logs db1 e1 → id_left m db1 → log_ok (mk now) → log_ts (mk now) <= lastTstamp db1 →
     fresh_ts logs db1 (log_ts (mk now)) → writesDisabled db1 = false →
     wp (rest now) (db1, e1) (wrote m logs (mk now) (db1, e1))) →
  wp (do! now := tick in rest now) (db, e) (served m logs req (db, e)).
Proof.
  intros Hi [Hroom Hleft] Hdis Hmk Hspec Hrest. apply wp_bind.
  eapply wp_impl; [by apply tick_spec|]. intros r [db1 e1] (K & now & -> & Hnow & Hlt & E & D).
  cbn [fst snd] in *. destruct (Hmk now Hnow) as [Et Hok]. subst db1.
  pose proof (kp_inv _ _ _ _ _ K) as Hi1. cbn [fst snd] in Hi1.
  eapply wp_impl; [apply Hrest; [exact Hnow|exact Hi1|exact Hleft|done|rewrite Et; cbn; lia| |done]|].
  - rewrite Et. intros id l Hl Hin. cbn in Hl. pose proof (di_ts _ _ _ _ Hi id l Hl Hin). lia.
  - intros r s' H. eapply served_wrote; [exact Hi|exact K|exact Hlt|done| |apply Hspec|exact H].
    intros _. apply confined_same; [done..|]. rewrite D. apply framed_refl, Hi.
Qed.

Lemma encode_record_image r b :
  key_ok (rec_key r) → value_ok (rec_value r) → zlen b = encodedSize r →
  encode r b = (Ok (encodedSize r), put_image r).
Proof.
  intros Hk Hv Hb. rewrite (encode_image r b Hk Hv) by lia. rewrite slice_from_all by lia. by rewrite app_nil_r.
Qed.
Lemma zlen_put_image r : zlen (put_image r) = encodedSize r.
Proof. unfold put_image, encodedSize. rewrite zlen_record_image. consts. zl. Qed.

(** The record of a PUT or a TOMBSTONE, as the log has it. *)
Definition record_log (flag now : Z) (k v : bytes) : logrec :=
  if flag =? recordFlagPut then LPut now k v else LDel now k [].
Definition record_flag_ok (flag : Z) (v : bytes) : Prop :=
  flag = recordFlagPut ∨ flag = recordFlagTombstone ∧ v = [].

Lemma record_log_ok flag now k v :
  is_i64 now → key_ok k → value_ok v → record_flag_ok flag v →
  log_ts (record_log flag now k v) = now ∧ log_ok (record_log flag now k v).
Proof. intros ? ? ? [->|[-> ->]]; done. Qed.

Lemma write_record_spec m flag now k v :
  is_i64 now → key_ok k → value_ok v → record_flag_ok flag v →
  writes m (record_log flag now k v) (write_record (mkRecord now flag k v)).
Proof.
  intros Hnow Hk Hv Hflag.
  assert (Himg : log_image (record_log flag now k v) = put_image (mkRecord now flag k v)).
  { unfold record_log, put_image. destruct Hflag as [->|[-> ->]]; done. }
  unfold write_record. apply append_writes; [by apply record_log_ok|by rewrite Himg, zlen_put_image| |].
  - intros b Hb. rewrite Himg. by apply encode_record_image.
  - intros db off a Ha. unfold record_log. rewrite Ha. destruct Hflag as [->|[-> ->]]; done.
Qed.

Lemma handleRecord_spec m logs (db : DB) (e : env) flag k v :
  db_inv m logs db e → has_room m db → writesDisabled db = false → key_ok k → value_ok v →
  record_flag_ok flag v →
  wp (handleRecord flag k v) (db, e)
    (served m logs (if flag =? recordFlagPut then writeKindPut k v else writeKindDelete k) (db, e)).
Proof.
  intros Hi Hroom Hdis Hk Hv Hflag. unfold handleRecord.
  apply (handler_spec m logs _ _ _ _ (λ now, record_log flag now k v)); [done|done|done| | |].
  - intros now Hnow. by apply record_log_ok.
  - intros now. unfold record_log. destruct Hflag as [->|[-> ->]]; cbn; done.
  - intros now db1 e1 Hnow Hi1 Hleft Hok Hts Hfresh Hdis1. apply wp_bind. unfold wp at 1. cbn [get_db fst snd].
    apply write_tail; [by apply write_record_spec|done..].
Qed.

(** The index operations of a batch are its record's updates. *)
Lemma batch_ops_updates fid now offset es : ∀ bodyOff kd,
  applyBatch kd (batch_ops fid now offset bodyOff es)
  = foldl write_update kd (batch_update fid now <$> decoded_entries es offset bodyOff).
Proof.
  induction es as [|x es IH]; intros bodyOff kd; [done|].
  cbn [batch_ops decoded_entries fmap list_fmap]. unfold applyBatch in *. cbn [foldl]. rewrite IH.
  f_equal. unfold applyOp, write_update, batch_update, entry_flag, entry_value.
  cbn [op_delete op_key op_entry bd_flag bd_key bd_value bd_valuePos u_key u_entry]. by destruct (be_Delete x).
Qed.

Lemma spec_apply_batch (es : list BatchEntry) (M : kvmap) :
  foldl apply_kv M (zip (be_Key <$> es) ((λ e, if be_Delete e then None else Some (be_Value e)) <$> es))
  = spec_apply (writeKindBatch es) M.
Proof.
  cbn [spec_apply]. revert M. induction es as [|x es IH]; intros M; [done|].
  cbn [fmap list_fmap zip zip_with foldl]. rewrite <- IH. f_equal. unfold apply_kv. cbn.
  by destruct (be_Delete x).
Qed.

Lemma write_batch_spec m now (es : list BatchEntry) :
  is_i64 now → batch_ok es → writes m (LBatch now es) (write_batch now es).
Proof.
  intros Hnow Hes. assert (Hsz : recordHeaderSize + encodedBatchBodySize es = zlen (batch_image now es)).
  { unfold batch_image. rewrite zlen_record_image, encodedBatchBodySize_spec. done. }
  unfold write_batch. apply append_writes; [done|by rewrite Hsz| |].
  - intros b Hb. rewrite (encodeBatchRecord_image b now es Hes) by lia.
    rewrite slice_from_all by lia. by rewrite app_nil_r.
  - intros db off a Ha. rewrite Ha. cbn [default]. rewrite batch_ops_updates. done.
Qed.

Lemma handleBatch_spec m logs (db : DB) (e : env) (es : list BatchEntry) :
  db_inv m logs db e → has_room m db → writesDisabled db = false → batch_ok es →
  wp (handleBatch es) (db, e) (served m logs (writeKindBatch es) (db, e)).
Proof.
  intros Hi Hroom Hdis Hes. unfold handleBatch.
  apply (handler_spec m logs _ _ _ _ (λ now, LBatch now es)); [done|done|done|done| |].
  - intros now. apply spec_apply_batch.
  - intros now db1 e1 Hnow Hi1 Hleft Hok Hts Hfresh Hdis1. apply wp_bind. unfold wp at 1. cbn [get_db fst snd].
    apply write_tail; [by apply write_batch_spec|done..].
Qed.

(** *** All of the writer's requests but the compaction commit *)

Lemma handleOne_spec m logs req (db : DB) (e : env) :
  db_inv m logs db e → has_room m db → request_ok req →
  wp (handleOne req) (db, e) (λ r s',
    if writesDisabled db then r = Err (ESentinel ErrWritesDisabled) ∧ s' = (db, e)
    else served m logs req (db, e) r s').
Proof.
  intros Hi Hroom Hreq. unfold handleOne. apply wp_bind. unfold wp at 1. cbn [get_db fst snd].
  destruct (writesDisabled db) eqn:Hdis; [done|].
  destruct req as [k v|k|es|cc]; cbn in Hreq; [| | |done].
  - destruct Hreq. by apply (handleRecord_spec m logs _ _ recordFlagPut k v); [..|left].
  - by apply (handleRecord_spec m logs _ _ recordFlagTombstone k []); [..|right].
  - by eapply handleBatch_spec.
Qed.

(** ** Group commit *)

(** The map after the requests that were served. *)
Fixpoint apply_served (burst : list writeRequest) (results : list (result bool)) (M : kvmap) : kvmap :=
  match burst, results with
  | req :: burst', Ok _ :: rs => apply_served burst' rs (spec_apply req M)
  | _ :: burst', Err _ :: rs => apply_served burst' rs M
  | _, _ => M
  end.

Lemma apply_served_app b1 r1 b2 r2 : ∀ M,
  length b1 = length r1 → apply_served (b1 ++ b2) (r1 ++ r2) M = apply_served b2 r2 (apply_served b1 r1 M).
Proof.
  revert r1. induction b1 as [|req b1 IH]; intros [|r r1] M Hl; try done. cbn. injection Hl as Hl. destruct r; by apply IH.
Qed.

(** Every request of the burst finds room. *)
Fixpoint burst_room (m : mode) (burst : list writeRequest) (s : state) : Prop :=
  match burst with
  | [] => True
  | req :: burst' => has_room m s.1 ∧ burst_room m burst' (handleOne req s).2
  end.

(** A result of the append phase: the index holds what it says. *)
Definition was_served (r : result bool) : Prop := match r with Ok b => b = true | Err _ => True end.

Lemma handle_all_spec m burst : ∀ logs (db : DB) (e : env) rs s',
  db_inv m logs db e → Forall request_ok burst → burst_room m burst (db, e) →
  handle_all burst (db, e) = (rs, s') →
  length rs = length burst ∧ Forall was_served rs ∧ opts s'.1 = opts db ∧ closed s'.1 = closed db
  ∧ ∃ logs', db_inv m logs' s'.1 s'.2 ∧ abs s'.1 s'.2 = apply_served burst rs (abs db e).
Proof.
  induction burst as [|req burst IH]; intros logs db e rs s' Hi Hok Hroom.
  - intros [= <- <-]. split; [done|]. split; [constructor|]. split; [done|]. split; [done|]. by exists logs.
  - inversion Hok as [|? ? Hreq Hrest]; subst. destruct Hroom as [Hr1 Hr2]. cbn [handle_all].
    pose proof (handleOne_spec m logs req db e Hi Hr1 Hreq) as H1. unfold wp in H1.
    destruct (handleOne req (db, e)) as [r [db1 e1]]. cbn [fst snd] in *.
    assert (∃ logs1, db_inv m logs1 db1 e1 ∧ was_served r ∧ opts db1 = opts db ∧ closed db1 = closed db
      ∧ abs db1 e1 = match r with Ok _ => spec_apply req (abs db e) | Err _ => abs db e end)
      as (logs1 & Hi1 & Hw & O1 & C1 & A1).
    { destruct (writesDisabled db).
      - destruct H1 as [-> [= -> ->]]. by exists logs.
      - destruct H1 as (O & C & _ & logs1 & Hi1 & _ & H). exists logs1. destruct r; cbn in *.
        + destruct H as (-> & _ & _ & ?). done.
        + done. }
    destruct (handle_all burst (db1, e1)) as [rs1 s1] eqn:E. intros [= <- <-].
    destruct (IH _ _ _ _ _ Hi1 Hrest Hr2 E) as (HL & HF & O & C & logs' & Hi' & A).
    split; [cbn; by rewrite HL|]. split; [by constructor|]. split; [congruence|]. split; [congruence|].
    exists logs'. split; [done|]. rewrite A, A1. by destruct r.
Qed.

(** The active segment has nothing buffered and its writer has not failed. *)
Definition flushed (db : DB) (e : env) : Prop := ∀ a s, active_at db a s → quiescent s e.

(** Every live segment's file is on stable storage, name and contents, and no
    write is under way. *)
Definition all_durable (db : DB) (e : env) : Prop :=
  (∀ id, is_live_id db id → settled (e_disk e) (segmentFilename id)) ∧ flushed db e.

Lemma sync_active_durable m logs (db : DB) (e : env) :
  db_inv m logs db e →
  wp (with_active sync) (db, e) (λ r s', keeps m logs logs (db, e) s' ∧ s'.1 = db ∧
    (is_ok r → m_durable m = true → all_durable db s'.2)).
Proof.
  intros Hi. eapply wp_impl; [by apply sync_active_spec|]. intros r [db1 e1] (K & E & _ & H). cbn [fst snd] in *. subst db1.
  split; [done|]. split; [done|]. destruct r as [u|err]; [|done]. intros _ Hm.
  pose proof (kp_inv _ _ _ _ _ K) as Hi1. cbn [fst snd] in Hi1. pose proof (di_durable _ _ _ _ Hi1 Hm) as Hd.
  destruct H as (a & s & [Ha Hs] & Hq & _ & Hsync). split.
  2: { intros a' s' [Ha' Hs']. assert (a' = a) as -> by congruence. by assert (s' = s) as -> by congruence. }
  intros id Hl. destruct (decide (active db = Some id)) as [Eid|Hne].
  - assert (id = a) as -> by congruence. split; [by apply (du_named _ _ Hd)|]. intros i Hi'.
    rewrite (si_linked _ _ _ _ _ (di_seg _ _ _ _ Hi1 _ _ Hs)) in Hi'. by injection Hi' as <-.
  - by apply (du_sealed _ _ Hd).
Qed.

(** A single request that succeeds leaves writes enabled. *)
Lemma burst_enabled m logs req (db : DB) (e : env) s' :
  db_inv m logs db e → has_room m db → request_ok req → writesDisabled db = false →
  processBurst [req] (db, e) = ([Ok tt], s') → writesDisabled s'.1 = false.
Proof.
  intros Hi Hr Hq Hw. unfold processBurst, handle_all. pose proof (handleOne_spec m logs req db e Hi Hr Hq) as H.
  unfold wp in H. rewrite Hw in H. destruct (handleOne req (db, e)) as [r [db1 e1]]. cbn [fst snd] in *.
  destruct H as (_ & _ & _ & logs1 & Hi1 & _ & H). destruct r as [b|err]; [|by cbn].
  destruct H as (_ & Hw1 & _); cbn in Hw1; rewrite Hw in Hw1.
  destruct (_ && _); [|intros E%(f_equal snd); cbn in E; by subst s'].
  pose proof (sync_active_durable m logs1 db1 e1 Hi1) as Hs. unfold wp in Hs.
  destruct (with_active sync (db1, e1)) as [r [db2 e2]]. cbn [fst snd] in Hs. destruct Hs as (_ & -> & _).
  destruct r; intros E%(f_equal snd); cbn in E; by subst s'.
Qed.

Lemma processBurst_results m logs burst (db : DB) (e : env) replies s' :
  db_inv m logs db e → Forall request_ok burst → burst_room m burst (db, e) →
  processBurst burst (db, e) = (replies, s') →
  let results := (handle_all burst (db, e)).1 in
  Forall was_served results ∧
  ∃ logs', length results = length burst ∧ db_inv m logs' s'.1 s'.2
    ∧ opts s'.1 = opts db ∧ closed s'.1 = closed db
    ∧ abs s'.1 s'.2 = apply_served burst results (abs db e)
    ∧ ((replies = reply None <$> results
        ∧ (SyncOnPut (opts db) = true → m_durable m = true → Ok tt ∈ replies → all_durable s'.1 s'.2))
       ∨ ∃ err, SyncOnPut (opts db) = true ∧ replies = reply (Some (EWrap "engine: fsync: %w" [err])) <$> results
           ∧ Ok tt ∉ replies).
Proof.
  intros Hi Hok Hroom. unfold processBurst. destruct (handle_all burst (db, e)) as [rs [db1 e1]] eqn:E.
  destruct (handle_all_spec _ _ _ _ _ _ _ Hi Hok Hroom E) as (HL & HF & O & C & logs1 & Hi1 & A).
  cbn [fst snd] in *. rewrite O.
  assert (Hno : ∀ w, existsb appended_active rs = false → Ok tt ∉ reply w <$> rs).
  { intros w Hx Hin. apply list_elem_of_fmap in Hin as (r & Hr & Hin). rewrite Forall_forall in HF.
    specialize (HF r Hin). destruct r as [b|]; [|by destruct w]. cbn in HF. subst b.
    assert (existsb appended_active rs = true); [|congruence]. apply existsb_exists. exists (Ok true).
    split; [by apply list_elem_of_In|done]. }
  destruct (existsb appended_active rs) eqn:Hx; cbn [andb].
  2: { intros [= <- <-]. split; [exact HF|]; exists logs1. repeat (split; [done|]). left. split; [done|]. intros _ _ Hin.
       by destruct (Hno None eq_refl). }
  destruct (SyncOnPut (opts db)) eqn:Hsync.
  2: { intros [= <- <-]. split; [exact HF|]; exists logs1. repeat (split; [done|]). by left. }
  pose proof (sync_active_durable m logs1 db1 e1 Hi1) as Hs. unfold wp in Hs.
  destruct (with_active sync (db1, e1)) as [r [db2 e2]]. cbn [fst snd] in Hs. destruct Hs as (K & -> & Hd).
  pose proof (keeps_abs _ _ _ _ _ _ _ Hi1 K) as A2. pose proof (kp_inv _ _ _ _ _ K) as Hi2. cbn [fst snd] in Hi2.
  destruct r as [u|err]; intros [= <- <-]; (split; [exact HF|]); exists logs1; cbn [fst snd]; rewrite A2; repeat (split; [done|]).
  - left. split; [done|]. intros _ Hm _. by apply Hd.
  - right. exists err. split; [done|]. split; [done|]. intros Hin.
    apply list_elem_of_fmap in Hin as (r & Hr & Hin). rewrite Forall_forall in HF. specialize (HF r Hin).
    destruct r as [b|]; [|done]. cbn in HF. by subst b.
Qed.

Lemma processBurst_spec m logs burst (db : DB) (e : env) replies s' :
  db_inv m logs db e → Forall request_ok burst → burst_room m burst (db, e) →
  processBurst burst (db, e) = (replies, s') →
  ∃ results logs', length results = length burst ∧ db_inv m logs' s'.1 s'.2
    ∧ opts s'.1 = opts db ∧ closed s'.1 = closed db
    ∧ abs s'.1 s'.2 = apply_served burst results (abs db e)
    ∧ ((replies = reply None <$> results
        ∧ (SyncOnPut (opts db) = true → m_durable m = true → Ok tt ∈ replies → all_durable s'.1 s'.2))
       ∨ ∃ err, SyncOnPut (opts db) = true ∧ replies = reply (Some (EWrap "engine: fsync: %w" [err])) <$> results
           ∧ Ok tt ∉ replies).
Proof.
  intros Hi Hok Hroom H. destruct (processBurst_results _ _ _ _ _ _ _ Hi Hok Hroom H) as [_ Hr]. by eexists.
Qed.
