(* ===== verification/Api.v ===== *)
(** * The engine's calls

    Put, Delete and BatchPut as seen by a caller whose request is served in a
    burst of its own, and the reads Get and ReadKeyRange of one state (Snapshot
    has them beside the other goroutines): each is an operation on the abstract
    key-value map. *)
From S2P Require Import Prelude LogRecord Keydir Storage Frame Names Publish Manifest HintFile Log Recovery Db Invariant WritePath Rotation Compact Engine Writes.

(** ** Mutations *)

(** What a call with effect [f] on the map did.  A failed fsync is the one
    error after which the effect may be visible. *)
Definition call_outcome (m : mode) (f : kvmap → kvmap) (db : DB) (e : env) (r : result unit) (s' : state) : Prop :=
  opts s'.1 = opts db ∧ closed s'.1 = closed db ∧ ∃ logs', db_inv m logs' s'.1 s'.2 ∧
  match r with
  | Ok _ => abs s'.1 s'.2 = f (abs db e)
      ∧ (SyncOnPut (opts db) = true → m_durable m = true → all_durable s'.1 s'.2)
  | Err err => abs s'.1 s'.2 = abs db e
      ∨ SyncOnPut (opts db) = true ∧ (∃ err', err = EWrap "engine: fsync: %w" [err'])
        ∧ abs s'.1 s'.2 = f (abs db e)
  end.

Lemma submit_spec m logs (db : DB) (e : env) req :
  db_inv m logs db e → has_room m db → request_ok req →
  wp (submit req) (db, e) (λ r s',
    match submit_gate db with
    | Some err => r = Err err ∧ s' = (db, e)
    | None => call_outcome m (spec_apply req) db e r s'
    end).
Proof.
  intros Hi Hroom Hreq. unfold wp, submit. cbn [fst]. destruct (submit_gate db); [done|].
  destruct (processBurst [req] (db, e)) as [replies s'] eqn:E.
  destruct (processBurst_spec m logs [req] db e replies s' Hi) as
    (results & logs' & HL & Hi' & O & C & A & Hrep); [by repeat constructor|done|done|].
  destruct results as [|r []]; try done. cbn [apply_served] in A.
  destruct Hrep as [[-> Hd]|(err & Hs & -> & Hn)]; cbn [fmap list_fmap fst snd] in *.
  - split; [done|]. split; [done|]. exists logs'. split; [done|]. destruct r as [b|err]; cbn in *.
    + split; [done|]. intros H1 H2. apply Hd; [done|done|by left].
    + by left.
  - split; [done|]. split; [done|]. exists logs'. split; [done|]. destruct r as [b|err']; cbn in *.
    + destruct b; [right|]; [split; [done|]; split; [by eexists|done]|]. exfalso. apply Hn. by left.
    + by left.
Qed.

Lemma validateKeyValue_ok k v : validateKeyValue k v = None ↔ key_ok k ∧ value_ok v.
Proof.
  unfold validateKeyValue, key_ok, value_ok. pose proof (zlen_nonneg k).
  zcases; split; intros; try done; try lia.
Qed.

Lemma validate_entries_ok es : validate_entries es = None ↔ Forall entry_ok es.
Proof.
  induction es as [|x es IH]; [done|]. cbn [validate_entries]. rewrite Forall_cons, <- IH.
  unfold entry_ok, key_ok, value_ok. pose proof (zlen_nonneg (be_Key x)).
  destruct (be_Delete x); cbn [negb andb]; zcases; split; intros; try done; try lia;
    try (split; [split; [lia|intros; lia || done]|done]); destruct_and!; try done; exfalso; auto with lia.
Qed.

Lemma batch_valid (db : DB) es :
  MaxBatchEncodedSize (opts db) <= recordHeaderSize + maxBatchBodyLen →
  zlen es <= maxBatchEntries → validate_entries es = None →
  recordHeaderSize + encodedBatchBodySize es <= MaxBatchEncodedSize (opts db) → batch_ok es.
Proof.
  intros Hopt Hn Hv Hs. split; [by apply validate_entries_ok|]. split; [done|].
  rewrite <- encodedBatchBodySize_spec. lia.
Qed.

(** What the calls refuse before a request is built. *)
Definition delete_rejected (k : bytes) : option error :=
  if zlen k =? 0 then Some (ESentinel ErrEmptyKey)
  else if maxKeyLen <? zlen k then Some (ESentinel ErrKeyTooLarge) else None.
Definition batch_rejected (db : DB) (es : list BatchEntry) : option error :=
  if maxBatchEntries <? zlen es
  then Some (EWrap "%w: %d entries exceeds maxBatchEntries=%d" [ESentinel ErrBatchTooLarge])
  else match validate_entries es with
       | Some err => Some err
       | None => if MaxBatchEncodedSize (opts db) <? recordHeaderSize + encodedBatchBodySize es
                 then Some (ESentinel ErrBatchTooLarge) else None
       end.

(** The validation error, or the gate's. *)
Definition refused (invalid : option error) (db : DB) : option error :=
  match invalid with Some err => Some err | None => submit_gate db end.

(** ** A concrete open database *)

Definition init_opts : Options := mkOptions "d" 64 true 64 (64 * 1024 * 1024) 0.

Definition init_dir : gmap bytes N := {[ segmentFilename 0 := 0%N; manifestFilename := 1%N ]}.
Definition init_inodes : gmap N inode :=
  let text := manifest_text [0] 0 in {[ 0%N := mkInode [] []; 1%N := mkInode text text ]}.
Definition init_disk : disk := mkDisk init_inodes init_dir init_dir 2.
Definition init_segs : gmap Z segment := {[ 0 := mkSegment 0 0 (Some bufio_new) 0 ]}.

Definition init_db : DB :=
  mkDB init_opts (Some 0) 1 0 [] (Some init_segs) ∅ false None false None.

Definition init_env : env := mkEnv init_disk [] [].

Definition full_mode : mode := mkMode true true true true.

Lemma init_hint id : d_dir init_disk !! hintFilename id = None.
Proof.
  change (d_dir init_disk) with init_dir. unfold init_dir. rewrite lookup_insert_ne by apply segment_not_hint. rewrite lookup_singleton_ne; [done|].
  intros E. symmetry in E. revert E. apply hint_not_manifest.
Qed.

Lemma init_dir_Some n i :
  init_dir !! n = Some i → n = segmentFilename 0 ∧ i = 0%N ∨ n = manifestFilename ∧ i = 1%N.
Proof. unfold init_dir. intros [[<- <-]|[_ [<- <-]%lookup_singleton_Some]]%lookup_insert_Some; auto. Qed.
Lemma init_segs_Some id s : init_segs !! id = Some s → id = 0 ∧ s = mkSegment 0 0 (Some bufio_new) 0.
Proof. unfold init_segs. by intros [<- <-]%lookup_singleton_Some. Qed.

Lemma init_disk_ok : disk_ok init_disk.
Proof.
  assert (Hd : dom init_inodes = {[ 0%N; 1%N ]}) by by vm_compute.
  split; cbn [init_disk d_inodes d_dir d_next].
  - intros i. rewrite Hd. set_unfold. intros [->| ->]; lia.
  - intros n i [[_ ->]|[_ ->]]%init_dir_Some; rewrite Hd; set_solver.
  - intros n n' i [[-> ->]|[-> ->]]%init_dir_Some [[-> ?]|[-> ?]]%init_dir_Some; done.
Qed.

Lemma init_inv : db_inv full_mode (λ _, []) init_db init_env.
Proof.
  assert (Hl : ∀ id, is_live_id init_db id → id = 0) by by intros id [s [-> _]%init_segs_Some].
  split; [apply init_disk_ok|done| | | |done| | | |].
  - exists 0, (mkSegment 0 0 (Some bufio_new) 0). done.
  - intros id s [-> ->]%init_segs_Some.
    split; [done|done| |constructor|]; [by vm_compute|]. cbn zeta. rewrite decide_True by done. left.
    split; [|by vm_compute]. split; [|by vm_compute]. unfold has_file. cbn. set_solver.
  - intros k en H. change ((∅ : keydir) !! k = Some en) in H. by rewrite lookup_empty in H.
  - intros id l _ H. by apply not_elem_of_nil in H.
  - intros _. split; [|done| |].
    + intros a _ [= <-]. by vm_compute.
    + intros id _ [->%Hl|[i Hi]]; [done|]. by rewrite init_hint in Hi.
    + intros id s [-> ->]%init_segs_Some. rewrite decide_True by done. apply init_hint.
  - intros _. split.
    + intros id _. done.
    + intros id ->%Hl. done.
    + intros id _. split; [done|]. intros i Hi. by rewrite init_hint in Hi.
    + intros _. split; [done|]. intros i Hi. assert (i = 1%N) as -> by (vm_compute in Hi; congruence). by vm_compute.
  - intros _. split; [by vm_compute| |].
    + intros a id [= <-] ->%Hl. done.
    + intros id ->%Hl. done.
Qed.

(** ** Properties: mutations *)

Lemma Put_run m logs (db : DB) (e : env) (k v : bytes) r s' :
  db_inv m logs db e → has_room m db → Put k v (db, e) = (r, s') →
  match refused (validateKeyValue k v) db with
  | Some err => r = Err err ∧ s' = (db, e)
  | None => key_ok k ∧ value_ok v ∧ call_outcome m (λ M, <[k := v]> M) db e r s'
  end.
Proof.
  intros Hi Hroom H. unfold Put in H. pose proof (validateKeyValue_ok k v) as Hv.
  destruct (validateKeyValue k v) as [err|]; cbn [refused]; [by injection H as <- <-|].
  destruct (proj1 Hv eq_refl) as [Hk Hval].
  pose proof (wp_run _ _ _ _ _ (submit_spec m logs db e (writeKindPut k v) Hi Hroom (conj Hk Hval)) H) as Hs.
  by destruct (submit_gate db).
Qed.

(** C5: Put implements the map's insertion.  From any open database and for any
    outcome of the system calls: an invalid pair, a closed engine or disabled
    writes are refused with the code's error and no effect; otherwise success
    means the map is the old one with exactly this binding and, with
    SyncOnPut, that every record is on stable storage; an error means the map is
    unchanged, unless it is the failed fsync of an applied write; and the
    database stays well formed, so later calls behave as specified too. *)
Theorem Put_refines m logs (db : DB) (e : env) (k v : bytes) r s' :
  db_inv m logs db e → has_room m db → Put k v (db, e) = (r, s') →
  match refused (validateKeyValue k v) db with
  | Some err => r = Err err ∧ s' = (db, e)
  | None => key_ok k ∧ value_ok v ∧ call_outcome m (λ M, <[k := v]> M) db e r s'
  end.
Proof. intros. by eapply Put_run. Qed.

Lemma Put_refines_witness :
  let p := Put [x61] [x31; x32] (init_db, init_env) in
  match refused (validateKeyValue [x61] [x31; x32]) init_db with
  | Some err => p.1 = Err err ∧ p.2 = (init_db, init_env)
  | None => key_ok [x61] ∧ value_ok [x31; x32]
      ∧ call_outcome full_mode (λ M, <[[x61] := [x31; x32]]> M) init_db init_env p.1 p.2
  end.
Proof.
  intros p. apply (Put_refines full_mode (λ _, []) init_db init_env [x61] [x31; x32] p.1 p.2);
    [apply init_inv|split; [done|split; [done|intros _; done]]|apply surjective_pairing].
Defined.

Lemma Delete_run m logs (db : DB) (e : env) (k : bytes) r s' :
  db_inv m logs db e → has_room m db → Delete k (db, e) = (r, s') →
  match refused (delete_rejected k) db with
  | Some err => r = Err err ∧ s' = (db, e)
  | None => key_ok k ∧ call_outcome m (λ M, base.delete k M) db e r s'
  end.
Proof.
  intros Hi Hroom H. unfold Delete, delete_rejected in *.
  destruct (Z.eqb_spec (zlen k) 0); [by injection H as <- <-|].
  destruct (Z.ltb_spec maxKeyLen (zlen k)); [by injection H as <- <-|]. cbn [refused].
  assert (Hk : key_ok k) by (pose proof (zlen_nonneg k); unfold key_ok; lia).
  pose proof (wp_run _ _ _ _ _ (submit_spec m logs db e (writeKindDelete k) Hi Hroom Hk) H) as Hs.
  by destruct (submit_gate db).
Qed.

(** C19: Delete implements the map's removal, deleting an absent key included. *)
Theorem Delete_refines m logs (db : DB) (e : env) (k : bytes) r s' :
  db_inv m logs db e → has_room m db → Delete k (db, e) = (r, s') →
  match refused (delete_rejected k) db with
  | Some err => r = Err err ∧ s' = (db, e)
  | None => key_ok k ∧ call_outcome m (λ M, base.delete k M) db e r s'
  end.
Proof. intros. by eapply Delete_run. Qed.

Lemma Delete_refines_witness :
  let p := Delete [x61] (init_db, init_env) in
  match refused (delete_rejected [x61]) init_db with
  | Some err => p.1 = Err err ∧ p.2 = (init_db, init_env)
  | None => key_ok [x61] ∧ call_outcome full_mode (λ M, base.delete [x61] M) init_db init_env p.1 p.2
  end.
Proof.
  intros p. apply (Delete_refines full_mode (λ _, []) init_db init_env [x61] p.1 p.2);
    [apply init_inv|split; [done|split; [done|intros _; done]]|apply surjective_pairing].
Defined.

Lemma BatchPut_run m logs (db : DB) (e : env) (es : list BatchEntry) r s' :
  db_inv m logs db e → has_room m db →
  MaxBatchEncodedSize (opts db) <= recordHeaderSize + maxBatchBodyLen →
  BatchPut es (db, e) = (r, s') →
  if decide (es = []) then r = Ok tt ∧ s' = (db, e)
  else match refused (batch_rejected db es) db with
       | Some err => r = Err err ∧ s' = (db, e)
       | None => batch_ok es ∧ call_outcome m (spec_apply (writeKindBatch es)) db e r s'
       end.
Proof.
  intros Hi Hroom Hopt H. unfold BatchPut, batch_rejected in *.
  destruct (decide (es = [])) as [->|Hne]; [by injection H as <- <-|].
  destruct (Z.eqb_spec (zlen es) 0) as [E|_]; [by apply zlen_0 in E|].
  destruct (Z.ltb_spec maxBatchEntries (zlen es)) as [|Hn]; [by injection H as <- <-|].
  destruct (validate_entries es) as [err|] eqn:Hv; [by injection H as <- <-|].
  unfold ebind in H. cbn [get_db fst] in H.
  destruct (Z.ltb_spec (MaxBatchEncodedSize (opts db)) (recordHeaderSize + encodedBatchBodySize es)) as [|Hs];
    [by injection H as <- <-|]. cbn [refused].
  pose proof (batch_valid db es Hopt Hn Hv Hs) as Hok.
  pose proof (wp_run _ _ _ _ _ (submit_spec m logs db e (writeKindBatch es) Hi Hroom Hok) H) as Hsub.
  by destruct (submit_gate db).
Qed.

(** C6: BatchPut is all or nothing.  With a batch limit that Open accepts, a
    non-empty batch is either refused whole, or on success every entry is
    applied, in order, later entries of a key over earlier ones; on an error
    none is (but for the failed fsync of an applied batch). *)
Theorem BatchPut_refines m logs (db : DB) (e : env) (es : list BatchEntry) r s' :
  db_inv m logs db e → has_room m db →
  MaxBatchEncodedSize (opts db) <= recordHeaderSize + maxBatchBodyLen →
  BatchPut es (db, e) = (r, s') →
  if decide (es = []) then r = Ok tt ∧ s' = (db, e)
  else match refused (batch_rejected db es) db with
       | Some err => r = Err err ∧ s' = (db, e)
       | None => batch_ok es ∧ call_outcome m (spec_apply (writeKindBatch es)) db e r s'
       end.
Proof. intros. by eapply BatchPut_run. Qed.

Lemma BatchPut_refines_witness :
  let es := [mkBatchEntry [x61] [x31] false; mkBatchEntry [x61] [] true; mkBatchEntry [x62] [x32] false] in
  let p := BatchPut es (init_db, init_env) in
  if decide (es = []) then p.1 = Ok tt ∧ p.2 = (init_db, init_env)
  else match refused (batch_rejected init_db es) init_db with
       | Some err => p.1 = Err err ∧ p.2 = (init_db, init_env)
       | None => batch_ok es ∧ call_outcome full_mode (spec_apply (writeKindBatch es)) init_db init_env p.1 p.2
       end.
Proof.
  intros es p. apply (BatchPut_refines full_mode (λ _, []) init_db init_env es p.1 p.2);
    [apply init_inv|split; [done|split; [done|intros _; done]]|decided|apply surjective_pairing].
Defined.

(** C13: group commit.  A burst of requests is served in order; each is applied
    whole or not at all, and the replies are given only after the one fsync: if
    it succeeds, every request that was applied is told so and all is on stable
    storage; if it fails, no caller of the burst is told its write succeeded. *)
Theorem processBurst_group_commit m logs burst (db : DB) (e : env) replies s' :
  db_inv m logs db e → Forall request_ok burst → burst_room m burst (db, e) →
  processBurst burst (db, e) = (replies, s') →
  ∃ results logs', length results = length burst ∧ db_inv m logs' s'.1 s'.2
    ∧ abs s'.1 s'.2 = apply_served burst results (abs db e)
    ∧ ((replies = reply None <$> results
        ∧ (SyncOnPut (opts db) = true → m_durable m = true → Ok tt ∈ replies → all_durable s'.1 s'.2))
       ∨ ∃ err, SyncOnPut (opts db) = true ∧ replies = reply (Some (EWrap "engine: fsync: %w" [err])) <$> results
           ∧ Ok tt ∉ replies).
Proof.
  intros Hi Hok Hroom H. destruct (processBurst_spec _ _ _ _ _ _ _ Hi Hok Hroom H)
    as (results & logs' & ? & ? & _ & _ & ? & ?). by exists results, logs'.
Qed.

Lemma processBurst_group_commit_witness :
  let burst := [writeKindPut [x61] [x31]; writeKindDelete [x61]; writeKindPut [x62] []] in
  let p := processBurst burst (init_db, init_env) in
  ∃ results logs', length results = length burst ∧ db_inv full_mode logs' p.2.1 p.2.2
    ∧ abs p.2.1 p.2.2 = apply_served burst results (abs init_db init_env)
    ∧ ((p.1 = reply None <$> results
        ∧ (SyncOnPut (opts init_db) = true → m_durable full_mode = true → Ok tt ∈ p.1 → all_durable p.2.1 p.2.2))
       ∨ ∃ err, SyncOnPut (opts init_db) = true ∧ p.1 = reply (Some (EWrap "engine: fsync: %w" [err])) <$> results
           ∧ Ok tt ∉ p.1).
Proof.
  intros burst p. apply (processBurst_group_commit full_mode (λ _, []) burst init_db init_env p.1 p.2);
    [apply init_inv|repeat constructor; decided| |apply surjective_pairing].
  repeat split; vm_compute; intros; reflexivity || discriminate.
Defined.

(** ** Reads *)

Lemma file_ReadAt_inv ino n off e r e' :
  file_ReadAt ino n off e = (r, e') → off + n <= zlen (file_data (e_disk e) ino) →
  e_disk e' = e_disk e ∧ (r = Ok (slice (file_data (e_disk e) ino) off (off + n)) ∨ r = Err (ESentinel EIO) ∧ ¬ quiet e).
Proof.
  intros H Hb. assert (Hq : quiet e → r = Ok (slice (file_data (e_disk e) ino) off (off + n))).
  { intros Hq. rewrite file_ReadAt_quiet in H by done.
    destruct (Z.ltb_spec (zlen (file_data (e_disk e) ino)) (off + n)); [lia|]. by injection H as <- _. }
  apply sys_inv in H as [[-> ->]|[-> [k ->]]]; cbn.
  - destruct (Z.ltb_spec (zlen (file_data (e_disk e) ino)) (off + n)); [lia|]. auto.
  - split; [done|]. right. split; [done|]. intros Hq'. by specialize (Hq Hq').
Qed.

(** Reading an entry's value: the bytes of the map, or the failed pread. *)
Definition read_entry (seg : segment) (en : keydirEntry) : env → result bytes * env :=
  if 0 <? valueLen en then readAt seg (valueLen en) (valuePos en) else eret [].

Lemma read_entry_spec m logs (db : DB) (e0 e : env) k en seg r e' :
  db_inv m logs db e0 → e_disk e = e_disk e0 → index db !! k = Some en → segs db !! fileID en = Some seg →
  read_entry seg en e = (r, e') →
  e_disk e' = e_disk e ∧ (quiet e → quiet e') ∧
  match r with Ok v => abs db e0 !! k = Some v | Err err => err = ESentinel EIO ∧ ¬ quiet e end.
Proof.
  intros Hi Hd Hk Hs H. destruct (inv_entry _ _ _ _ Hi _ _ Hk) as (s & Hs' & _ & (H1 & H2 & H3) & Hval & _).
  assert (s = seg) as -> by congruence.
  assert (Hq : quiet e → quiet e').
  { intros Hq. unfold read_entry, readAt in H. destruct (0 <? valueLen en).
    - rewrite file_ReadAt_quiet in H by done. by injection H as _ <-.
    - by injection H as _ <-. }
  assert (Habs : abs db e0 !! k = Some (entry_value_in (file_data (e_disk e) (s_file seg)) en)).
  { unfold abs. rewrite lookup_omap, Hk. cbn. unfold value_of. by rewrite Hs, Hd. }
  unfold read_entry, readAt in H. destruct (Z.ltb_spec 0 (valueLen en)).
  - apply file_ReadAt_inv in H as [D H]; [|by rewrite Hd]. split; [done|]. split; [done|].
    by destruct H as [->|[-> Hn]].
  - injection H as <- <-. split; [done|]. split; [done|]. rewrite Habs. unfold entry_value_in.
    replace (valuePos en + valueLen en) with (valuePos en) by lia. unfold slice. by rewrite Z.sub_diag.
Qed.

(** A value returned is the key's current one, ErrKeyNotFound is returned exactly
    for a key not in the map, and without I/O errors there is no other outcome. *)
Lemma Get_run m logs (db : DB) (e : env) k r s' :
  db_inv m logs db e → Get k (db, e) = (r, s') →
  s'.1 = db ∧ e_disk s'.2 = e_disk e ∧
  if zlen k =? 0 then r = Err (ESentinel ErrEmptyKey)
  else if closed db then r = Err (ESentinel ErrDBClosed)
  else match r with
       | Ok v => abs db e !! k = Some v
       | Err err => (err = ESentinel ErrKeyNotFound ∧ abs db e !! k = None)
           ∨ (err = EWrap "engine: read value: %w" [ESentinel EIO] ∧ is_Some (abs db e !! k) ∧ ¬ quiet e)
       end.
Proof.
  intros Hi H. unfold Get in H. destruct (zlen k =? 0); [by injection H as <- <-|].
  destruct (closed db); [by injection H as <- <-|]. unfold Keydir.get in H.
  destruct (index db !! k) as [en|] eqn:Hk.
  2: { injection H as <- <-. repeat (split; [done|]). left. split; [done|].
       unfold abs. by rewrite lookup_omap, Hk. }
  destruct (inv_entry _ _ _ _ Hi _ _ Hk) as (s & Hs & _ & _ & Hv & _). rewrite Hs in H.
  destruct (read_entry s en e) as [r1 e1] eqn:E1.
  destruct (read_entry_spec _ _ _ _ _ _ _ _ _ _ Hi eq_refl Hk Hs E1) as (D & _ & Hr).
  unfold read_entry in E1. destruct (0 <? valueLen en).
  - rewrite E1 in H. destruct r1 as [v|err]; injection H as <- <-; cbn [fst snd]; (split; [done|]); (split; [done|]).
    + done.
    + right. destruct Hr as [-> Hn]. split; [done|]. split; [|done]. unfold abs. rewrite lookup_omap, Hk. cbn.
      by rewrite Hv.
  - injection E1 as <- <-. injection H as <- <-. done.
Qed.

Lemma materialise_spec m logs (db : DB) (e0 : env) pairs : ∀ e r e',
  db_inv m logs db e0 → e_disk e = e_disk e0 → (∀ k en, (k, en) ∈ pairs → index db !! k = Some en) →
  materialise db pairs e = (r, e') →
  e_disk e' = e_disk e ∧
  match r with
  | Ok l => l.*1 = pairs.*1 ∧ ∀ k v, (k, v) ∈ l → abs db e0 !! k = Some v
  | Err err => ¬ quiet e ∧ err = EWrap "engine: ReadKeyRange read value for key %q: %w" [ESentinel EIO]
  end.
Proof.
  induction pairs as [|[k en] pairs IH]; intros e r e' Hi Hd Hin H.
  - injection H as <- <-. split; [done|]. split; [done|]. intros k v Hkv. by apply not_elem_of_nil in Hkv.
  - assert (Hk : index db !! k = Some en) by (apply Hin; by left).
    destruct (inv_entry _ _ _ _ Hi _ _ Hk) as (s & Hs & _). cbn [materialise] in H. rewrite Hs in H.
    fold (read_entry s en) in H. destruct (read_entry s en e) as [r1 e1] eqn:E1.
    destruct (read_entry_spec _ _ _ _ _ _ _ _ _ _ Hi Hd Hk Hs E1) as (D & Q & Hr).
    destruct r1 as [v|err]; [|injection H as <- <-; split; [done|by destruct Hr as [-> ?]]].
    destruct (materialise db pairs e1) as [r2 e2] eqn:E2.
    destruct (IH e1 r2 e2 Hi) as [D2 H2]; [congruence|intros; apply Hin; by right|done|].
    destruct r2 as [l|err]; injection H as <- <-; (split; [congruence|]).
    + destruct H2 as [H2 H3]. split; [cbn; by rewrite H2|]. intros k' v' [[= -> ->]|?]%elem_of_cons; auto.
    + destruct H2 as [H2 ->]. split; [|done]. intros Hq. auto.
Qed.

(** The bindings of [M] with [start <= key < end_], in key order. *)
Definition range_of (M : kvmap) (start end_ : option bytes) (l : list (bytes * bytes)) : Prop :=
  StronglySorted bytes_lt l.*1 ∧
  ∀ k v, (k, v) ∈ l ↔ M !! k = Some v ∧ (∀ s, start = Some s → bytes_le s k)
                        ∧ (∀ x, end_ = Some x → bytes_lt k x).

(** An inverted range is empty. *)
Lemma range_of_empty (M : kvmap) start end_ :
  match start, end_ with Some x, Some y => negb (bytes_Compare x y <? 0) | _, _ => false end = true →
  range_of M start end_ [].
Proof.
  intros He. split; [constructor|]. intros k v. split; [by intros ?%not_elem_of_nil|]. intros (_ & H1 & H2).
  destruct start as [x|]; [|done]. destruct end_ as [y|]; [|done].
  specialize (H1 x eq_refl). specialize (H2 y eq_refl). apply negb_true_iff, Z.ltb_ge in He.
  assert (bytes_le y x) as Hyx by (unfold bytes_le; rewrite bytes_Compare_antisym; lia).
  apply bytes_lt_le in H2 as [H2 Hne]. destruct Hne. apply (anti_symm bytes_le); [done|]. by etrans.
Qed.

Lemma elem_of_snapshotRange kd start end_ k en :
  (k, en) ∈ snapshotRange kd start end_ ↔
  kd !! k = Some en ∧ (∀ s, start = Some s → bytes_le s k) ∧ (∀ x, end_ = Some x → bytes_lt k x).
Proof. unfold snapshotRange. rewrite elem_of_snapshotRange_iter, in_range_spec, elem_of_map_to_list. cbn [fst]. tauto. Qed.

(** The values of a keydir snapshot make up the range. *)
Lemma range_of_snapshot (db : DB) (e : env) start end_ l :
  l.*1 = (snapshotRange (index db) start end_).*1 → (∀ k v, (k, v) ∈ l → abs db e !! k = Some v) →
  range_of (abs db e) start end_ l.
Proof.
  intros Hkeys Hvals. split; [rewrite Hkeys; apply snapshotRange_iter_sorted, NoDup_fst_map_to_list|].
  assert (Hin : ∀ k, k ∈ l.*1 ↔ ∃ en, (k, en) ∈ snapshotRange (index db) start end_).
  { intros k. rewrite Hkeys, list_elem_of_fmap. split; [intros ([k' en] & -> & ?); by exists en|intros [en ?]; by exists (k, en)]. }
  intros k v. split.
  - intros Hkv. split; [by apply Hvals|]. assert (k ∈ l.*1) as Hk by (apply list_elem_of_fmap; by exists (k, v)).
    apply Hin in Hk as [en Hk]. by apply elem_of_snapshotRange in Hk as [_ ?].
  - intros (Hv & Hb). assert (k ∈ l.*1) as Hk.
    { apply Hin. unfold abs in Hv. rewrite lookup_omap in Hv. destruct (index db !! k) as [en|] eqn:Hk; [|done].
      exists en. by apply elem_of_snapshotRange. }
    apply list_elem_of_fmap in Hk as ([k' v'] & -> & Hk). cbn [fst] in *.
    pose proof (Hvals _ _ Hk) as Hv'. by assert (v' = v) as -> by congruence.
Qed.

(** When it succeeds, the callback has been run over the bindings of the map with
    start <= key < end in ascending key order, up to where it asked to stop; a
    failed read yields an error before the callback is ever run. *)
Lemma ReadKeyRange_run {A} m logs (db : DB) (e : env) start end_
    (fn : option (bytes → bytes → A → bool * A)) (a : A) r s' :
  db_inv m logs db e → ReadKeyRange start end_ fn a (db, e) = (r, s') →
  s'.1 = db ∧ e_disk s'.2 = e_disk e ∧
  match r with
  | Ok out => closed db = false
      ∧ ∃ f l, fn = Some f ∧ range_of (abs db e) start end_ l ∧ out = visit f l a
  | Err err => fn = None ∨ closed db = true ∧ err = ESentinel ErrDBClosed 
      ∨ closed db = false ∧ ¬ quiet e ∧ err = EWrap "engine: ReadKeyRange read value for key %q: %w" [ESentinel EIO]
  end.
Proof.
  intros Hi H. unfold ReadKeyRange in H. destruct fn as [f|]; [|injection H as <- <-; cbn; auto].
  destruct (closed db) eqn:Hc; [injection H as <- <-; split_and!; [done|done|by right; left]|].
  destruct (match start, end_ with Some x, Some y => _ | _, _ => false end) eqn:Hempty.
  - injection H as <- <-. split; [done|]. split; [done|]. split; [done|]. exists f, []. split; [done|]. split; [|done].
    by apply range_of_empty.
  - destruct (materialise db (snapshotRange (index db) start end_) e) as [r1 e1] eqn:E1.
    destruct (materialise_spec _ _ _ _ _ _ _ _ Hi eq_refl
      ltac:(intros k en Hkn; by apply elem_of_snapshotRange in Hkn as [? _]) E1) as [D Hr].
    destruct r1 as [l|err]; injection H as <- <-; (split; [done|]); (split; [done|]); [|by right; right].
    split; [done|]. destruct Hr as [Hkeys Hvals]. exists f, l. split; [done|]. split; [|done]. by apply range_of_snapshot.
Qed.
