(* ===== verification/WriterLoop.v ===== *)
(** * The writer goroutine and its callers (engine.go, submit, writerLoop, Close)

    Any number of callers send requests into a bounded channel while the writer
    takes them out in bursts, and Close shuts the channel down.  A step is one
    atomic action of one of them; the theorems are about every interleaving. *)
From S2P Require Import Prelude LogRecord Keydir Storage Frame Names Publish Manifest HintFile Log Recovery Db Invariant WritePath Rotation Compact Engine Writes Api.

(** ** The shared state *)

(** A request and the caller that waits on its reply channel. *)
Abbreviation waiting := (nat * writeRequest)%type.

Record wstate := mkW {
  w_db : state;
  (** callers past the gate of [submit], holding [submitMu] for reading *)
  w_senders : list waiting;
  (** the buffer of [reqCh] *)
  w_queue : list waiting;
  (** [closed], and the [done] channel, which is closed with it *)
  w_closed : bool;
  (** the writer has returned *)
  w_exited : bool;
  (** replies received, by caller *)
  w_replies : list (nat * result unit);
  (** what was processed, in order: a history for the specification *)
  w_served : list (waiting * result bool);
  (** every call of [submit] ever made: a history that no step but a call adds to *)
  w_called : list waiting;
}.

(** The callers that wait somewhere or have a reply. *)
Definition callers (x : wstate) : list nat := (w_senders x).*1 ++ (w_queue x).*1 ++ (w_replies x).*1.

Definition gate (x : wstate) : option error :=
  if w_closed x then Some (ESentinel ErrDBClosed)
  else if writesDisabled (w_db x).1 then Some (ESentinel ErrWritesDisabled)
  else None.

(** A burst, its callers answered. *)
Definition serve_burst (burst rest : list waiting) (exited : bool) (x : wstate) : wstate :=
  let (results, _) := handle_all burst.*2 (w_db x) in
  let (replies, s) := processBurst burst.*2 (w_db x) in
  mkW s (w_senders x) rest (w_closed x) exited (w_replies x ++ zip burst.*1 replies) (w_served x ++ zip burst results)
    (w_called x).

Section steps.
(** What a burst may require of the database. *)
Context (room : list writeRequest → state → Prop).

Variant wstep (x : wstate) : wstate → Prop :=
| step_refused id req err :
    id ∉ (w_called x).*1 → gate x = Some err →
    wstep x (mkW (w_db x) (w_senders x) (w_queue x) (w_closed x) (w_exited x) (w_replies x ++ [(id, Err err)]) (w_served x)
      (w_called x ++ [(id, req)]))
| step_enter id req :
    id ∉ (w_called x).*1 → gate x = None →
    wstep x (mkW (w_db x) ((id, req) :: w_senders x) (w_queue x) (w_closed x) (w_exited x) (w_replies x) (w_served x)
      (w_called x ++ [(id, req)]))
| step_send l r before after :
    w_senders x = before ++ (l, r) :: after → Z.of_nat (length (w_queue x)) < WriteQueueDepth (opts (w_db x).1) →
    wstep x (mkW (w_db x) (before ++ after) (w_queue x ++ [(l, r)]) (w_closed x) (w_exited x) (w_replies x) (w_served x) (w_called x))
| step_burst burst rest :
    w_exited x = false → w_queue x = burst ++ rest → burst ≠ [] →
    Z.of_nat (length burst) <= WriteQueueDepth (opts (w_db x).1) → room burst.*2 (w_db x) →
    wstep x (serve_burst burst rest false x)
| step_close :
    w_closed x = false → w_senders x = [] →
    wstep x (mkW (w_db x) [] (w_queue x) true (w_exited x) (w_replies x) (w_served x) (w_called x))
| step_exit :
    w_closed x = true → w_exited x = false → room (w_queue x).*2 (w_db x) →
    wstep x (serve_burst (w_queue x) [] true x).

Inductive wsteps : wstate → wstate → Prop :=
| wsteps_refl x : wsteps x x
| wsteps_step x y z : wsteps x y → wstep y z → wsteps x z.
End steps.

(** Open starts the writer with an empty channel. *)
Definition started (s : state) : wstate := mkW s [] [] false false [] [] [].

(** ** Lemmas *)

Lemma length_handle_all burst : ∀ s, length (handle_all burst s).1 = length burst.
Proof.
  induction burst as [|req burst IH]; intros s; [done|]. cbn [handle_all]. destruct (handleOne req s) as [r s1].
  specialize (IH s1). destruct (handle_all burst s1) as [rs s2]. cbn in *. by rewrite IH.
Qed.
Lemma length_replies burst s : length (processBurst burst s).1 = length burst.
Proof.
  unfold processBurst. pose proof (length_handle_all burst s) as H. destruct (handle_all burst s) as [rs s1]. cbn in H.
  destruct (_ && _); [destruct (with_active sync s1) as [[|] s2]|]; cbn; by rewrite length_map.
Qed.

(** The calls that the gate refused are those that are neither waiting nor served:
    with them, every call made is in one place, and the replies went to the
    served and the refused. *)
Definition accounted (refused : list waiting) (x : wstate) : Prop :=
  w_called x ≡ₚ w_senders x ++ w_queue x ++ (w_served x).*1 ++ refused
  ∧ (w_replies x).*1 ≡ₚ (w_served x).*1.*1 ++ refused.*1.

(** The protocol's invariant: nobody calls twice under one name, each call is in
    one place, nobody is left once the writer has gone. *)
Record protocol (x : wstate) : Prop := {
  pt_called : NoDup (w_called x).*1;
  pt_accounted : ∃ refused, accounted refused x;
  pt_closed : w_closed x = true → w_senders x = [];
  pt_exited : w_exited x = true → w_closed x = true ∧ w_queue x = [];
}.

Lemma nodup_perm {A} (l l' : list A) : l ≡ₚ l' → NoDup l' → NoDup l.
Proof. by intros ->. Qed.

Lemma accounted_callers refused x : accounted refused x → callers x ≡ₚ (w_called x).*1.
Proof. intros [-> H]. unfold callers. rewrite H, !fmap_app. solve_Permutation. Qed.

Lemma pt_callers x : protocol x → callers x ≡ₚ (w_called x).*1.
Proof. intros [_ [refused H] _ _]. by eapply accounted_callers. Qed.
Lemma pt_once x : protocol x → NoDup (callers x).
Proof. intros H. eapply nodup_perm; [by apply pt_callers|apply H]. Qed.

Lemma accounted_burst refused burst rest exited x :
  w_queue x = burst ++ rest → accounted refused x → accounted refused (serve_burst burst rest exited x).
Proof.
  intros Hq [H1 H2]. unfold accounted, serve_burst. pose proof (length_handle_all burst.*2 (w_db x)) as Hl1.
  destruct (handle_all burst.*2 (w_db x)) as [results s1].
  pose proof (length_replies burst.*2 (w_db x)) as Hl2. destruct (processBurst burst.*2 (w_db x)) as [replies s].
  cbn [w_called w_senders w_queue w_served w_replies fst] in *. rewrite length_map in *.
  rewrite !fmap_app, !fst_zip by (rewrite ?length_map; lia). rewrite H1, H2, Hq. split; solve_Permutation.
Qed.

Lemma protocol_burst burst rest exited x :
  w_queue x = burst ++ rest → (exited = true → w_closed x = true ∧ rest = []) → protocol x →
  protocol (serve_burst burst rest exited x).
Proof.
  intros Hq Hx [H1 [refused H2] H3 _]. pose proof (accounted_burst refused burst rest exited x Hq H2) as H2'.
  unfold serve_burst in *. destruct (handle_all _ _), (processBurst _ _). split; cbn in *; [done|by exists refused|done|done].
Qed.

Lemma nodup_called (l : list waiting) id req : NoDup l.*1 → id ∉ l.*1 → NoDup (l ++ [(id, req)]).*1.
Proof. intros H1 H2. rewrite fmap_app. apply NoDup_app. split; [done|]. split; [|apply NoDup_singleton]. intros a Ha ->%list_elem_of_singleton. done. Qed.

Lemma wstep_protocol room x y : protocol x → wstep room x y → protocol y.
Proof.
  intros Hp Hs. pose proof Hp as [H1 [refused [H2 H3]] H4 H5].
  destruct Hs as [id req err Hid Hg|id req Hid Hg|l r before after He Hd|burst rest He Hq Hne Hd Hr|Hc He|Hc He Hr].
  - split; cbn; [by apply nodup_called| |done|done]. exists (refused ++ [(id, req)]). unfold accounted. cbn.
    rewrite !fmap_app, H2, H3. cbn. split; solve_Permutation.
  - split; cbn; [by apply nodup_called| | |done].
    + exists refused. unfold accounted. cbn. rewrite H2. split; [solve_Permutation|done].
    + intros Hc. unfold gate in Hg. by rewrite Hc in Hg.
  - assert (Hno : w_closed x = false).
    { destruct (w_closed x); [|done]. rewrite H4 in He by done. by destruct before. }
    split; cbn; [done| |by rewrite Hno|intros Hx; destruct (H5 Hx); congruence].
    exists refused. unfold accounted. cbn. rewrite H2, He. split; [solve_Permutation|done].
  - apply protocol_burst; [done|done|done].
  - split; cbn; [done| |done|intros Hx; split; [done|by apply H5]]. exists refused. unfold accounted. cbn. by rewrite H2, He.
  - apply protocol_burst; [by rewrite app_nil_r|done|done].
Qed.

Lemma started_protocol s : protocol (started s).
Proof. split; [constructor|by exists []|done|done]. Qed.
Lemma wsteps_protocol room x y : wsteps room x y → protocol x → protocol y.
Proof. intros H Hp. induction H as [|x y z _ IH Hs]; [done|]. eapply wstep_protocol; [by apply IH|done]. Qed.

(** C15: no caller is left behind.  Under every interleaving of callers, writer
    and Close: whoever has called submit waits to send, waits in the channel, or
    has exactly one reply, and replies go to the served and the refused only, who
    asked for what was served; once the database is closed the gate refuses
    newcomers and nobody is still sending; the writer can then drain the channel
    and return; and when it has, everyone who ever called has exactly one reply. *)
Theorem submit_answered room (s : state) (x : wstate) :
  wsteps room (started s) x →
  NoDup (w_called x).*1
  ∧ (w_senders x).*1 ++ (w_queue x).*1 ++ (w_replies x).*1 ≡ₚ (w_called x).*1
  ∧ (∃ refused, w_called x ≡ₚ w_senders x ++ w_queue x ++ (w_served x).*1 ++ refused
       ∧ (w_replies x).*1 ≡ₚ (w_served x).*1.*1 ++ refused.*1)
  ∧ (w_closed x = true → gate x = Some (ESentinel ErrDBClosed) ∧ w_senders x = []
       ∧ (w_exited x = false → room (w_queue x).*2 (w_db x) → ∃ y, wstep room x y ∧ w_exited y = true))
  ∧ (w_exited x = true → (w_replies x).*1 ≡ₚ (w_called x).*1).
Proof.
  intros H. pose proof (wsteps_protocol _ _ _ H (started_protocol s)) as Hp. pose proof (pt_callers _ Hp) as Hc.
  destruct Hp as [H1 H2 H3 H4]. split; [done|]. split; [done|]. split; [done|]. split.
  - intros Hcl. split; [unfold gate; by rewrite Hcl|]. split; [by apply H3|]. intros He Hr.
    eexists. split; [by apply step_exit|]. unfold serve_burst. by destruct (handle_all _ _), (processBurst _ _).
  - intros Hx. destruct (H4 Hx) as [Hcl Hq]. unfold callers in Hc. by rewrite (H3 Hcl), Hq in Hc.
Qed.

(** ** Linearisation *)

Definition roomy (m : mode) (burst : list writeRequest) (s : state) : Prop := Forall request_ok burst ∧ burst_room m burst s.

(** The replies say what became of the requests. *)
Definition reply_fits (sync : bool) (served : list (waiting * result bool)) (id : nat) (r : result unit) : Prop :=
  match r with
  | Ok _ => ∃ req, ((id, req), Ok true) ∈ served
  | Err err => (∀ req b, ((id, req), Ok b) ∉ served) ∨ sync = true ∧ ∃ err', err = EWrap "engine: fsync: %w" [err']
  end.

Record linear (m : mode) (M0 : kvmap) (sync : bool) (x : wstate) : Prop := {
  ln_sync : SyncOnPut (opts (w_db x).1) = sync;
  ln_inv : ∃ logs, db_inv m logs (w_db x).1 (w_db x).2;
  ln_map : abs (w_db x).1 (w_db x).2 = apply_served (w_served x).*1.*2 (w_served x).*2 M0;
  ln_replies : ∀ id r, (id, r) ∈ w_replies x → reply_fits sync (w_served x) id r;
  ln_served : ∀ id req r, ((id, req), r) ∈ w_served x → id ∈ (w_replies x).*1;
}.

Lemma elem_of_zip_lookup {A B} (l : list A) (k : list B) x y :
  (x, y) ∈ zip l k ↔ ∃ i, l !! i = Some x ∧ k !! i = Some y.
Proof.
  rewrite list_elem_of_lookup. setoid_rewrite lookup_zip_with_Some. split.
  - intros (i & x' & y' & [= -> ->] & H1 & H2). by exists i.
  - intros (i & H1 & H2). by exists i, x, y.
Qed.

(** Bursts keep the linearisation, if no caller of one has its reply yet. *)
Lemma linear_burst m M0 sync burst rest exited x :
  linear m M0 sync x → w_queue x = burst ++ rest → NoDup (callers x) → roomy m burst.*2 (w_db x) →
  linear m M0 sync (serve_burst burst rest exited x).
Proof.
  intros [Hs [logs Hi] Hm Hr Hsv] Hq Hnd [Hok Hroom]. unfold serve_burst. destruct x as [[db e] senders queue cl ex replies served].
  cbn [w_db w_senders w_queue w_closed w_exited w_replies w_served fst snd] in *.
  destruct (processBurst burst.*2 (db, e)) as [rep s'] eqn:E.
  destruct (processBurst_results m logs _ db e _ _ Hi Hok Hroom E) as (HF & logs' & HL & Hi' & O & C & A & Hrep).
  destruct (handle_all burst.*2 (db, e)) as [results s1]. cbn [fst snd] in *. rewrite length_map in HL.
  assert (Hz1 : (zip burst results).*1 = burst) by (apply fst_zip; lia).
  assert (Hz2 : (zip burst results).*2 = results) by (apply snd_zip; lia).
  assert (Hlen : length rep = length burst) by (destruct Hrep as [[-> _]|(err & _ & -> & _)]; rewrite length_map; lia).
  assert (Hbnd : NoDup burst.*1).
  { unfold callers in Hnd. cbn in Hnd. rewrite Hq, fmap_app in Hnd. apply NoDup_app in Hnd as (_ & _ & Hnd).
    apply NoDup_app in Hnd as (Hnd & _ & _). by apply NoDup_app in Hnd as (? & _ & _). }
  assert (Hfresh : ∀ id req, (id, req) ∈ burst → id ∉ replies.*1).
  { intros id req Hin Hbad. unfold callers in Hnd. cbn in Hnd. rewrite Hq, fmap_app in Hnd.
    apply NoDup_app in Hnd as (_ & _ & Hnd). apply NoDup_app in Hnd as (_ & Hnd & _).
    apply (Hnd id); [|done]. apply elem_of_app. left. apply list_elem_of_fmap. by exists (id, req). }
  split; cbn.
  - by rewrite O.
  - by exists logs'.
  - rewrite A, Hm, !fmap_app, Hz1, Hz2. symmetry. apply apply_served_app. by rewrite !length_map.
  - intros id r [Hin|Hin]%elem_of_app.
    + specialize (Hr id r Hin). assert (Hno : ∀ req b, ((id, req), b) ∉ zip burst results).
      { intros req b Hb. apply elem_of_zip_l in Hb. apply (Hfresh id req Hb). apply list_elem_of_fmap. by exists (id, r). }
      destruct r as [u|err]; cbn in *.
      * destruct Hr as [req Hr]. exists req. apply elem_of_app. by left.
      * destruct Hr as [Hr|Hr]; [left|by right]. intros req b [Hb|Hb]%elem_of_app; [by eapply Hr|by eapply Hno].
    + apply elem_of_zip_lookup in Hin as (i & Hi1 & Hi2). rewrite list_lookup_fmap in Hi1.
      destruct (burst !! i) as [[id' req]|] eqn:Hb; [|done]. injection Hi1 as ->.
      destruct (lookup_lt_is_Some_2 results i) as [res Hres]; [rewrite HL; by eapply lookup_lt_Some|].
      assert (Hin : ((id, req), res) ∈ zip burst results) by (apply elem_of_zip_lookup; by exists i).
      assert (Hno : ∀ err, res = Err err → ∀ req' b, ((id, req'), Ok b) ∉ served ++ zip burst results).
      { intros err -> req' b [Hb'|Hb']%elem_of_app; [eapply Hfresh; [by eapply list_elem_of_lookup_2|by eapply Hsv]|].
        apply elem_of_zip_lookup in Hb' as (j & Hj1 & Hj2). assert (j = i) as ->; [|congruence].
        eapply (NoDup_lookup burst.*1); [done|by rewrite list_lookup_fmap, Hj1|by rewrite list_lookup_fmap, Hb]. }
      rewrite Forall_forall in HF. specialize (HF res ltac:(by eapply list_elem_of_lookup_2)).
      destruct Hrep as [[-> _]|(err & Hsy & -> & _)]; rewrite list_lookup_fmap, Hres in Hi2; injection Hi2 as <-;
        destruct res as [b|err']; cbn in HF |- *; subst.
      * exists req. apply elem_of_app. by right.
      * left. by eapply Hno.
      * right. split; [done|]. by eexists.
      * left. by eapply Hno.
  - intros id req r [Hin|Hin]%elem_of_app; rewrite fmap_app; apply elem_of_app.
    + left. by eapply Hsv.
    + right. rewrite fst_zip by (rewrite length_map; lia). apply elem_of_zip_l in Hin. apply list_elem_of_fmap. by exists (id, req).
Qed.

Lemma wstep_linear m M0 sync x y :
  protocol x → linear m M0 sync x → wstep (roomy m) x y → linear m M0 sync y.
Proof.
  intros Hp Hl Hs. pose proof (pt_once _ Hp) as Hnd.
  destruct Hs as [id rq err Hid Hg|id req Hid Hg|l r before after He Hd|burst rest He Hq Hne Hd Hr|Hc He|Hc He Hr].
  - destruct Hl as [H1 H2 H3 H4 H5]. split; cbn; [done|done|done| |].
    + intros id' r [Hin|Hin]%elem_of_app; [by apply H4|]. apply list_elem_of_singleton in Hin. injection Hin as -> ->. cbn.
      left. intros req b Hb. apply Hid. rewrite <- (pt_callers _ Hp). unfold callers. apply elem_of_app. right. apply elem_of_app. right. by eapply H5.
    + intros id' req r Hin. rewrite fmap_app. apply elem_of_app. left. by eapply H5.
  - destruct Hl as [H1 H2 H3 H4 H5]. by split.
  - destruct Hl as [H1 H2 H3 H4 H5]. by split.
  - by apply linear_burst.
  - destruct Hl as [H1 H2 H3 H4 H5]. by split.
  - apply linear_burst; [done|by rewrite app_nil_r|done|done].
Qed.

Lemma wsteps_linear m logs (db : DB) (e : env) (x : wstate) :
  db_inv m logs db e → wsteps (roomy m) (started (db, e)) x →
  protocol x ∧ linear m (abs db e) (SyncOnPut (opts db)) x.
Proof.
  intros Hi H. remember (started (db, e)) as x0 eqn:E. revert E. induction H as [x|x y z Hxy IH Hs]; intros ->.
  - split; [apply started_protocol|]. split; [done|by exists logs|done|by intros id r ?%not_elem_of_nil|by intros id req r ?%not_elem_of_nil].
  - destruct (IH eq_refl) as [Hp Hl]. split; [by eapply wstep_protocol|by eapply wstep_linear].
Qed.

(** C2: concurrent writes are linearisable.  From any open database, under every
    interleaving of callers, group-committing writer and Close, and whatever
    system calls fail: the map is that of the requests the writer took, one after
    the other in the order it took them; a caller that was told its write
    succeeded is among those that took effect; and a caller that got an error is
    not, unless the error is that of the burst's fsync. *)
Theorem writes_linearise m logs (db : DB) (e : env) (x : wstate) :
  db_inv m logs db e → wsteps (roomy m) (started (db, e)) x →
  (∃ logs', db_inv m logs' (w_db x).1 (w_db x).2)
  ∧ abs (w_db x).1 (w_db x).2 = apply_served (w_served x).*1.*2 (w_served x).*2 (abs db e)
  ∧ ∀ id r, (id, r) ∈ w_replies x → reply_fits (SyncOnPut (opts db)) (w_served x) id r.
Proof. intros Hi H. by destruct (wsteps_linear _ _ _ _ _ Hi H) as [_ [_ H2 H3 H4 _]]. Qed.

(** Two callers and Close: both writes go in one burst. *)
Definition after_two : wstate :=
  let r1 := writeKindPut [x61] [x31] in let r2 := writeKindDelete [x61] in
  serve_burst [(7%nat, r1); (9%nat, r2)] [] true
    (mkW (init_db, init_env) [] [(7%nat, r1); (9%nat, r2)] true false [] [] [(7%nat, r1); (9%nat, r2)]).

Lemma after_two_steps room :
  (∀ b s, room b s) ∨ room = roomy full_mode → wsteps room (started (init_db, init_env)) after_two.
Proof.
  intros Hroom. set (r1 := writeKindPut [x61] [x31]). set (r2 := writeKindDelete [x61]).
  eapply wsteps_step; [eapply wsteps_step; [eapply wsteps_step; [eapply wsteps_step; [eapply wsteps_step; [eapply wsteps_step; [apply wsteps_refl|]|]|]|]|]|].
  - apply (step_enter _ _ 7%nat r1); [apply not_elem_of_nil|done].
  - apply (step_enter _ _ 9%nat r2); [by apply (bool_decide_unpack _); vm_compute|done].
  - by apply (step_send _ _ 7%nat r1 [(9%nat, r2)] []).
  - by apply (step_send _ _ 9%nat r2 [] []).
  - by apply step_close.
  - apply step_exit; [done|done|]. cbn [w_queue w_db app]. destruct Hroom as [Hroom| ->]; [apply Hroom|].
    split; [repeat constructor; decided|]. split; [split; [done|split; [done|intros _; done]]|]. split; [|done].
    split; [vm_compute; done|split; [done|intros _; vm_compute; done]].
Qed.

Lemma submit_answered_witness :
  let x := after_two in
  NoDup (w_called x).*1
  ∧ (w_senders x).*1 ++ (w_queue x).*1 ++ (w_replies x).*1 ≡ₚ (w_called x).*1
  ∧ (∃ refused, w_called x ≡ₚ w_senders x ++ w_queue x ++ (w_served x).*1 ++ refused
       ∧ (w_replies x).*1 ≡ₚ (w_served x).*1.*1 ++ refused.*1)
  ∧ (w_closed x = true → gate x = Some (ESentinel ErrDBClosed) ∧ w_senders x = []
       ∧ (w_exited x = false → True → ∃ y, wstep (λ _ _, True) x y ∧ w_exited y = true))
  ∧ (w_exited x = true → (w_replies x).*1 ≡ₚ (w_called x).*1).
Proof. intros x. apply (submit_answered (λ _ _, True) (init_db, init_env) after_two). apply after_two_steps. by left. Defined.

Lemma writes_linearise_witness :
  (∃ logs', db_inv full_mode logs' (w_db after_two).1 (w_db after_two).2)
  ∧ abs (w_db after_two).1 (w_db after_two).2 = apply_served (w_served after_two).*1.*2 (w_served after_two).*2 (abs init_db init_env)
  ∧ ∀ id r, (id, r) ∈ w_replies after_two → reply_fits true (w_served after_two) id r.
Proof. apply (writes_linearise full_mode (λ _, []) init_db init_env after_two); [apply init_inv|apply after_two_steps; by right]. Defined.
