(* ===== verification/Sizes.v ===== *)
(** * Segment sizes (engine.go, the rotation policy of handleOne and handleBatch)

    MaxSegmentSize is a threshold: a record that would carry the active segment
    past it goes to a fresh one.  Here: which segment a request's record lands in
    and what that does to the sizes, the bound this puts on every segment, and
    that no field of the engine's state ever leaves its Go type. *)
From S2P Require Import Prelude LogRecord Keydir Storage Frame Names Publish Manifest HintFile Log Recovery Db Invariant Confined WritePath Rotation Compact Engine Writes Api WriterLoop.

(** ** The policy *)

(** The bytes a request adds to a segment. *)
Definition request_size (req : writeRequest) : Z :=
  match req with
  | writeKindPut k v => recordHeaderSize + zlen k + zlen v
  | writeKindDelete k => recordHeaderSize + zlen k
  | writeKindBatch es => recordHeaderSize + zlen (batch_body es)
  | writeKindCompactCommit _ => 0
  end.

(** Only a batch may enter an empty segment whatever its size. *)
Definition must_rotate (req : writeRequest) (db : DB) : Prop :=
  MaxSegmentSize (opts db) < active_size db + request_size req ∧
  match req with writeKindBatch _ => 0 < active_size db | _ => True end.

#[global] Instance must_rotate_dec req db : Decision (must_rotate req db).
Proof. unfold must_rotate. destruct req; apply _. Defined.

Definition sizes (db : DB) : gmap Z Z := s_size <$> segs db.

(** The segment a request's record is for, and the bytes it has: the active one,
    or one with a new id. *)
Definition target (req : writeRequest) (db : DB) (b old : Z) : Prop :=
  (¬ must_rotate req db ∧ ∃ s, active_at db b s ∧ old = s_size s)
  ∨ (must_rotate req db ∧ ¬ is_live_id db b ∧ is_u32 b ∧ old = 0).

(** [b] is the active segment and has [n] bytes; the others are as before. *)
Definition filled (b n : Z) (db db' : DB) : Prop := active db' = Some b ∧ sizes db' = <[b := n]> (sizes db).

(** What serving a request does to the sizes.  A failed one may have rotated, and
    a record whose flush failed is counted. *)
Definition resized (req : writeRequest) (db : DB) (r : result bool) (db' : DB) : Prop :=
  match r with
  | Ok _ => ∃ b old, target req db b old ∧ filled b (old + request_size req) db db'
  | Err _ => (active db' = active db ∧ sizes db' = sizes db)
      ∨ ∃ b old g, target req db b old ∧ (g = 0 ∨ g = request_size req) ∧ filled b (old + g) db db'
  end.

(** ** The segment's calls *)

Lemma append_size s buf e r s' e' :
  append s buf e = (r, s', e') →
  s_id s' = s_id s ∧ is_Some (s_bw s') ∧ s_size s' = s_size s + (if r is Ok _ then zlen buf else 0).
Proof.
  unfold append. destruct (bufio_Write _ _ _ _) as [[[] ?] ?]; intros [= <- <- <-]; cbn; (split; [done|]); (split; [by eexists|]); lia.
Qed.

Lemma flush_size s e r s' e' :
  flush s e = (r, s', e') →
  s_id s' = s_id s ∧ s_size s' = s_size s ∧ (is_Some (s_bw s) → is_ok r → s_bw s' = Some bufio_new).
Proof.
  unfold flush. destruct (s_bw s) as [b|] eqn:Hb; [|intros [= <- <- <-]; split; [done|]; split; [done|by intros []]].
  destruct (bufio_Flush _ _ _) as [[r1 b1] e1] eqn:E. intros [= <- <- <-]. cbn. split; [done|]. split; [done|]. intros _ Hr.
  unfold bufio_Flush in E. destruct b as [[|x p] [err|]]; cbn in E; try by injection E as <- <- <-.
  destruct (file_Write _ _ _) as [[] ?]; by injection E as <- <- <-.
Qed.

Lemma append_flush_size s buf e r s' e' :
  append_flush s buf e = (r, s', e') →
  s_id s' = s_id s ∧ match r with
    | Ok _ => s_size s' = s_size s + zlen buf ∧ s_bw s' = Some bufio_new
    | Err _ => s_size s' = s_size s ∨ s_size s' = s_size s + zlen buf
    end.
Proof.
  unfold append_flush. destruct (append s buf e) as [[r1 s1] e1] eqn:E1. apply append_size in E1 as (I1 & B1 & Z1).
  destruct r1 as [off|err]; [|intros [= <- <- <-]; split; [done|left; lia]].
  destruct (flush s1 e1) as [[r2 s2] e2] eqn:E2. apply flush_size in E2 as (I2 & Z2 & B2).
  destruct r2 as [u|err]; intros [= <- <- <-]; (split; [congruence|]); [split; [congruence|by apply B2]|right; congruence].
Qed.

Lemma sizes_put s db : sizes (put_segment s db) = <[s_id s := s_size s]> (sizes db).
Proof. unfold sizes. cbn. by rewrite fmap_insert. Qed.

(** ** Rotation *)

Lemma claimID_u32 (db : DB) (e : env) :
  wp claimID (db, e) (λ r s', ∃ id n, r = Ok id ∧ s' = (set_nextID n db, e) ∧ is_u32 id ∧ is_u32 n).
Proof. do 2 eexists. split; [done|]. split; [done|]. split; apply Z.mod_pos_bound; lia. Qed.

Lemma rotate_prepare_size m logs (db : DB) (e : env) :
  db_inv m logs db e →
  wp rotate_prepare (db, e) (λ r s', active s'.1 = active db ∧ segs s'.1 = segs db ∧ index s'.1 = index db
    ∧ (is_u32 (nextID db) → is_u32 (nextID s'.1))
    ∧ match r with Ok next => ¬ is_live_id db (s_id next) ∧ is_u32 (s_id next) ∧ s_size next = 0 | Err _ => True end).
Proof.
  intros Hi. unfold rotate_prepare. apply wp_bind. eapply wp_impl; [by apply sync_active_spec|].
  intros r [db0 e0] (K0 & E0 & _ & _). cbn [fst snd] in *. subst db0. destruct r as [[]|err]; [|done].
  pose proof (kp_inv _ _ _ _ _ K0) as Hi0. cbn [fst snd] in Hi0.
  apply wp_bind. eapply wp_impl; [apply claimID_u32|]. intros r s1 (id & n & -> & -> & Hu & Hn).
  apply wp_bind, wp_lift, wp_intro. intros r2 e2 E2.
  apply createSegment_inv in E2 as [(ino & -> & Hnone & E2 & ->)|(err & -> & E2)]; [|done].
  pose proof (not_live_unlinked _ _ _ _ _ Hi0 Hnone) as Hnl.
  apply wp_bind, wp_on_error, wp_lift, wp_intro. intros [[]|err] e3 _; [|done].
  unfold wp. cbn [s_id fst snd]. destruct (writeManifest _ id e3) as [[[]|err] e4]; [done|].
  by destruct (errors_Is err _).
Qed.

Lemma rotateActive_size m logs (db : DB) (e : env) :
  db_inv m logs db e →
  wp rotateActive (db, e) (λ r s', index s'.1 = index db ∧ (is_u32 (nextID db) → is_u32 (nextID s'.1))
    ∧ match r with
      | Ok _ => ∃ b, ¬ is_live_id db b ∧ is_u32 b ∧ filled b 0 db s'.1
      | Err _ => active s'.1 = active db ∧ sizes s'.1 = sizes db
      end).
Proof.
  intros Hi. apply wp_bind. eapply wp_impl; [by eapply rotate_prepare_size|].
  intros [next|err] [db1 e1] (A & S & X & N & H); cbn [fst snd] in *.
  - destruct H as (Hnl & Hu & Hz). unfold wp. cbn. split; [done|]. split; [done|]. exists (s_id next).
    split; [done|]. split; [done|]. split; [done|]. unfold sizes in *. cbn. by rewrite S, fmap_insert, Hz.
  - split; [done|]. split; [done|]. split; [done|]. unfold sizes. by rewrite S.
Qed.

(** ** The handlers *)

(** [w] appends [n] bytes to the active segment, or fails. *)
Definition grows (n : Z) (w : M (keydir → keydir)) : Prop :=
  ∀ (db : DB) (e : env) a s, active_at db a s → s_id s = a →
    wp w (db, e) (λ r s', index s'.1 = index db ∧ nextID s'.1 = nextID db ∧ active s'.1 = Some a
      ∧ ∃ seg, segs s'.1 = <[a := seg]> (segs db)
        ∧ match r with
          | Ok _ => s_size seg = s_size s + n ∧ s_bw seg = Some bufio_new
          | Err _ => s_size seg = s_size s ∨ s_size seg = s_size s + n
          end).

Lemma append_grows (n : Z) (enc : bytes → result Z * bytes) (image : bytes) (ops : DB → Z → keydir → keydir) :
  zlen image = n → (∀ b, zlen b = n → enc b = (Ok n, image)) →
  grows n (do! buf := encode_buffer n enc in
           do! offset := append_active buf in
           do! db := get_db in
           eret (ops db offset)).
Proof.
  intros Hz Henc db e a s Ha Hid. apply wp_bind. eapply wp_impl.
  { by eapply (encode_buffer_run db e n enc image); [rewrite <- Hz; apply zlen_nonneg|..]. }
  intros r s2 (-> & b & ->). apply wp_bind. set (db2 := set_encBuf b db).
  assert (Ha2 : active_at db2 a s) by done. unfold wp. rewrite (append_active_run _ _ _ _ _ Ha2 Hid).
  destruct (append_flush s image e) as [[r s'] e'] eqn:E. apply append_flush_size in E as (Hid' & H). cbn [fst snd].
  rewrite Hz in H. destruct r as [off|err]; cbn; (split; [done|]); (split; [done|]); (split; [apply Ha|]);
    exists s'; rewrite Hid', Hid; done.
Qed.

Lemma write_record_grows flag now k v :
  key_ok k → value_ok v → grows (recordHeaderSize + zlen k + zlen v) (write_record (mkRecord now flag k v)).
Proof.
  intros Hk Hv. apply (append_grows _ _ (put_image (mkRecord now flag k v))); [by rewrite zlen_put_image|].
  intros b Hb. by apply (encode_record_image (mkRecord now flag k v)).
Qed.

Lemma write_batch_grows now (es : list BatchEntry) :
  batch_ok es → grows (recordHeaderSize + zlen (batch_body es)) (write_batch now es).
Proof.
  intros Hes. rewrite <- encodedBatchBodySize_spec.
  assert (Hz : zlen (batch_image now es) = recordHeaderSize + encodedBatchBodySize es).
  { unfold batch_image. by rewrite zlen_record_image, encodedBatchBodySize_spec. }
  apply (append_grows _ _ (batch_image now es)); [done|]. intros b Hb.
  rewrite (encodeBatchRecord_image b now es Hes), <- Hz by lia. by rewrite slice_from_all, app_nil_r by lia.
Qed.

(** What is known of a served request besides its effect on the map. *)
Record sized (req : writeRequest) (db : DB) (r : result bool) (s' : state) : Prop := {
  sd_sizes : resized req db r s'.1;
  sd_next : is_u32 (nextID db) → is_u32 (nextID s'.1);
  sd_index : match r with
             | Ok _ => ∃ a s, active_at s'.1 a s ∧ s_bw s = Some bufio_new
             | Err _ => index s'.1 = index db
             end;
}.

(** The record lands in segment [b], which has [old] bytes. *)
Lemma landed (req : writeRequest) (db db1 : DB) (e1 : env) (b old : Z) (s : segment) (w : M (keydir → keydir)) :
  target req db b old → active_at db1 b s → s_id s = b → s_size s = old → grows (request_size req) w →
  (∀ n, <[b := n]> (sizes db1) = <[b := n]> (sizes db)) → index db1 = index db →
  (is_u32 (nextID db) → is_u32 (nextID db1)) →
  wp (do! f := w in update_index f) (db1, e1) (sized req db).
Proof.
  intros Ht Ha Hid Hs Hw Hsz Hx Hn. apply wp_bind. eapply wp_impl; [by eapply Hw|].
  intros r [db2 e2] (X & N & A & seg & S & H). cbn [fst snd] in *.
  assert (Hf : ∀ n, s_size seg = n → sizes db2 = <[b := n]> (sizes db)).
  { intros n <-. unfold sizes at 1. rewrite S, fmap_insert. apply Hsz. }
  destruct r as [f|err].
  - destruct H as [Hz Hbw]. split; cbn; [|by rewrite N|].
    + exists b, old. split; [done|]. split; [done|]. apply Hf. by rewrite Hz, Hs.
    + exists b, seg. split; [|done]. split; [done|]. change (segs (set_index _ _)) with (segs db2).
      by rewrite S, lookup_insert_eq.
  - split; cbn; [|by rewrite N|by rewrite X]. right. rewrite Hs in H.
    destruct H as [H|H]; exists b, old; [exists 0|exists (request_size req)];
      (split; [done|]); (split; [auto|]); (split; [done|]); apply Hf; lia.
Qed.

Lemma tail_sized (m : mode) (logs : logmap) (req : writeRequest) (db : DB) (e : env) (cond : bool) (w : M (keydir → keydir)) :
  db_inv m logs db e → id_left m db → (if cond then must_rotate req db else ¬ must_rotate req db) →
  grows (request_size req) w →
  wp (do! _ := (if cond then rotateActive else eret tt) in
      do! f := w in
      update_index f) (db, e) (sized req db).
Proof.
  intros Hi Hl Hc Hw. apply wp_bind. destruct cond.
  - pose proof (rotateActive_spec m logs db e Hi Hl) as H1. pose proof (rotateActive_size m logs db e Hi) as H2.
    unfold wp in H1, H2 |- * at 1. destruct (rotateActive (db, e)) as [r [db1 e1]]. cbn [fst snd] in *.
    destruct H1 as (logs1 & K & _). pose proof (kp_inv _ _ _ _ _ K) as Hi1. cbn [fst snd] in Hi1.
    destruct H2 as (X & N & H2). destruct r as [u|err]; [|by split; [left|..]].
    destruct H2 as (b & Hnl & Hu & A & S). destruct (inv_active _ _ _ _ Hi1) as (b' & s & Ha & Hs).
    assert (b' = b) as -> by (destruct Ha; congruence).
    assert (Hz : s_size s = 0).
    { apply (f_equal (λ M, M !! b)) in S. unfold sizes in S at 1. rewrite lookup_fmap, lookup_insert_eq in S.
      destruct Ha as [_ Ha]. rewrite Ha in S. by injection S. }
    eapply landed; [|exact Ha|apply Hs|exact Hz|done| |done|done].
    + right. done.
    + intros n. by rewrite S, insert_insert_eq.
  - destruct (inv_active _ _ _ _ Hi) as (a & s & Ha & Hs).
    eapply landed; [|exact Ha|apply Hs|done|done|done|done|done]. left. split; [done|]. by exists s.
Qed.

Lemma sized_tick (req : writeRequest) (db : DB) now r s' : sized req (set_lastTstamp now db) r s' → sized req db r s'.
Proof. by intros [H1 H2 H3]. Qed.

Lemma record_rotates_spec (req : writeRequest) (db : DB) flag now k v :
  request_size req = recordHeaderSize + zlen k + zlen v → (∀ es, req ≠ writeKindBatch es) →
  if record_rotates (mkRecord now flag k v) db then must_rotate req db else ¬ must_rotate req db.
Proof.
  intros Hn Hb. unfold record_rotates, must_rotate. rewrite Hn. unfold encodedSize. cbn [rec_key rec_value].
  destruct (Z.ltb_spec (MaxSegmentSize (opts db)) (active_size db + (recordHeaderSize + zlen k + zlen v))); [|lia].
  split; [done|]. destruct req; try done. by destruct (Hb entries).
Qed.

Lemma batch_rotates_spec (es : list BatchEntry) (db : DB) :
  if batch_rotates es db then must_rotate (writeKindBatch es) db else ¬ must_rotate (writeKindBatch es) db.
Proof.
  unfold batch_rotates, must_rotate. cbn [request_size]. rewrite encodedBatchBodySize_spec.
  destruct (Z.ltb_spec 0 (active_size db)), (Z.ltb_spec (MaxSegmentSize (opts db))
    (active_size db + (recordHeaderSize + zlen (batch_body es)))); cbn; lia.
Qed.

Lemma handleRecord_sized (m : mode) (logs : logmap) (req : writeRequest) (db : DB) (e : env) flag k v :
  db_inv m logs db e → has_room m db → key_ok k → value_ok v →
  request_size req = recordHeaderSize + zlen k + zlen v → (∀ es, req ≠ writeKindBatch es) →
  wp (handleRecord flag k v) (db, e) (sized req db).
Proof.
  intros Hi [Hc Hl] Hk Hv Hn Hb. apply wp_bind. eapply wp_impl; [by apply tick_spec|].
  intros r [db1 e1] (K & now & -> & _ & _ & E & _). cbn [fst snd] in *. subst db1. pose proof (kp_inv _ _ _ _ _ K) as Hi1.
  cbn [fst snd] in Hi1. apply wp_bind. unfold wp at 1. cbn [get_db fst snd].
  eapply wp_impl; [eapply tail_sized; [exact Hi1|exact Hl|by apply record_rotates_spec|]|intros r s' H; by eapply sized_tick].
  rewrite Hn. by apply write_record_grows.
Qed.

Lemma handleBatch_sized (m : mode) (logs : logmap) (db : DB) (e : env) (es : list BatchEntry) :
  db_inv m logs db e → has_room m db → batch_ok es →
  wp (handleBatch es) (db, e) (sized (writeKindBatch es) db).
Proof.
  intros Hi [Hc Hl] Hes. apply wp_bind. eapply wp_impl; [by apply tick_spec|].
  intros r [db1 e1] (K & now & -> & _ & _ & E & _). cbn [fst snd] in *. subst db1. pose proof (kp_inv _ _ _ _ _ K) as Hi1.
  cbn [fst snd] in Hi1. apply wp_bind. unfold wp at 1. cbn [get_db fst snd].
  eapply wp_impl; [eapply tail_sized; [exact Hi1|exact Hl|apply batch_rotates_spec|]|intros r s' H; by eapply sized_tick].
  by apply write_batch_grows.
Qed.

Lemma handleOne_sized (m : mode) (logs : logmap) (req : writeRequest) (db : DB) (e : env) :
  db_inv m logs db e → has_room m db → request_ok req → writesDisabled db = false →
  wp (handleOne req) (db, e) (sized req db).
Proof.
  intros Hi Hr Hq Hd. unfold handleOne. apply wp_bind. unfold wp at 1. cbn [get_db fst snd]. rewrite Hd.
  destruct req as [k v|k|es|cc]; cbn in Hq; [| | |done].
  - destruct Hq as [Hk Hv]. by apply (handleRecord_sized m logs).
  - apply (handleRecord_sized m logs); [done..| |done]. cbn [request_size]. rewrite zlen_nil. lia.
  - by eapply handleBatch_sized.
Qed.

(** ** What every request keeps holds in every reachable state *)

Section keeps.
Context (m : mode) (R : writeRequest → Prop) (P : DB → Prop).
Context (HP : ∀ logs logs' req (db : DB) (e : env) r (s' : state),
  db_inv m logs db e → request_ok req → R req → sized req db r s' → db_inv m logs' s'.1 s'.2 → opts s'.1 = opts db →
  lastTstamp db <= lastTstamp s'.1 → P db → P s'.1).

Lemma handleOne_keeps logs req (db : DB) (e : env) :
  db_inv m logs db e → has_room m db → request_ok req → R req → P db →
  ∃ logs', db_inv m logs' (handleOne req (db, e)).2.1 (handleOne req (db, e)).2.2 ∧ P (handleOne req (db, e)).2.1.
Proof using HP.
  intros Hi Hr Hq HR Hp. pose proof (handleOne_spec m logs req db e Hi Hr Hq) as H1. unfold wp in H1.
  destruct (writesDisabled db) eqn:Hd; [destruct H1 as [_ ->]; exists logs; split; [exact Hi|exact Hp]|].
  pose proof (handleOne_sized m logs req db e Hi Hr Hq Hd) as H2. unfold wp in H2.
  destruct (handleOne req (db, e)) as [r s']. cbn [fst snd] in *. destruct H1 as (O & _ & T & logs' & Hi' & _).
  exists logs'. split; [done|]. by apply (HP logs logs' req db e r s').
Qed.

Lemma handle_all_keeps burst : ∀ logs (db : DB) (e : env),
  db_inv m logs db e → Forall request_ok burst → burst_room m burst (db, e) → Forall R burst → P db →
  P (handle_all burst (db, e)).2.1.
Proof using HP.
  induction burst as [|req burst IH]; intros logs db e Hi Hok Hroom HR Hp; [done|].
  inversion Hok as [|? ? Hreq Hrest]; inversion HR as [|? ? HR1 HR2]; subst. destruct Hroom as [Hr1 Hr2]. cbn [handle_all].
  destruct (handleOne_keeps logs req db e Hi Hr1 Hreq HR1 Hp) as (logs1 & Hi1 & Hp1).
  destruct (handleOne req (db, e)) as [r [db1 e1]]. cbn [fst snd] in *.
  pose proof (IH logs1 db1 e1 Hi1 Hrest Hr2 HR2 Hp1) as H. by destruct (handle_all burst (db1, e1)).
Qed.

Lemma processBurst_keeps logs burst (db : DB) (e : env) :
  db_inv m logs db e → Forall request_ok burst → burst_room m burst (db, e) → Forall R burst → P db →
  P (processBurst burst (db, e)).2.1.
Proof using HP.
  intros Hi Hok Hroom HR Hp. pose proof (handle_all_keeps burst logs db e Hi Hok Hroom HR Hp) as H. unfold processBurst.
  destruct (handle_all burst (db, e)) as [rs [db1 e1]] eqn:E.
  destruct (handle_all_spec _ _ _ _ _ _ _ Hi Hok Hroom E) as (_ & _ & _ & _ & logs1 & Hi1 & _). cbn [fst snd] in *.
  destruct (_ && _); [|done]. pose proof (sync_active_durable m logs1 db1 e1 Hi1) as Hs. unfold wp in Hs.
  destruct (with_active sync (db1, e1)) as [[u|err] s2]; cbn [fst snd] in *; destruct Hs as (_ & -> & _); exact H.
Qed.

Lemma serve_burst_keeps logs burst rest exited x :
  db_inv m logs (w_db x).1 (w_db x).2 → roomy m burst.*2 (w_db x) → Forall R burst.*2 → P (w_db x).1 →
  P (w_db (serve_burst burst rest exited x)).1.
Proof using HP.
  intros Hi [Hok Hroom] HR Hp. unfold serve_burst. destruct (w_db x) as [db e]. cbn [fst snd] in *.
  pose proof (processBurst_keeps logs burst.*2 db e Hi Hok Hroom HR Hp) as H.
  destruct (handle_all _ _), (processBurst _ _). exact H.
Qed.

Lemma burst_served (burst rest : list waiting) exited x :
  (∀ w r, (w, r) ∈ w_served (serve_burst burst rest exited x) → R w.2) →
  Forall R burst.*2 ∧ ∀ w r, (w, r) ∈ w_served x → R w.2.
Proof using Type.
  unfold serve_burst. pose proof (length_handle_all burst.*2 (w_db x)) as Hl.
  destruct (handle_all _ _) as [results s1], (processBurst _ _). cbn in *. rewrite length_map in Hl. intros H. split.
  - apply Forall_fmap, Forall_forall. intros w Hw. cbn. apply list_elem_of_lookup in Hw as [i Hi].
    destruct (lookup_lt_is_Some_2 results i) as [r Hr]; [rewrite Hl; by eapply lookup_lt_Some|].
    apply (H w r), elem_of_app. right. apply elem_of_zip_lookup. by exists i.
  - intros w r Hw. apply (H w r), elem_of_app. by left.
Qed.

Lemma wsteps_keeps logs (db : DB) (e : env) (x : wstate) :
  db_inv m logs db e → wsteps (roomy m) (started (db, e)) x →
  (∀ w r, (w, r) ∈ w_served x → R w.2) → P db → P (w_db x).1.
Proof using HP.
  intros Hi H. remember (started (db, e)) as x0 eqn:E. revert E. induction H as [x|x y z Hxy IH Hs]; intros -> HR Hp; [done|].
  destruct (wsteps_linear m logs db e y Hi Hxy) as [_ [_ [logs1 Hi1] _ _ _]].
  destruct Hs as [id err Hid Hg|id req Hid Hg|l r before after He Hd|burst rest He Hq Hne Hd Hr|Hc He|Hc He Hr];
    try (by apply IH).
  all: apply burst_served in HR as [HR1 HR2]; eapply serve_burst_keeps; [exact Hi1|exact Hr|exact HR1|by apply IH].
Qed.
End keeps.

(** ** The bound *)

(** Since [db0], a segment grew past the threshold only to hold one record. *)
Record bounded (R : writeRequest → Prop) (db0 db : DB) : Prop := {
  bd_opts : opts db = opts db0;
  bd_pos : ∀ id n, sizes db !! id = Some n → 0 <= n;
  bd_max : ∀ id n, sizes db !! id = Some n →
    sizes db0 !! id = Some n ∨ n <= MaxSegmentSize (opts db0) ∨ ∃ req, R req ∧ n = request_size req;
}.

Lemma request_size_pos req : 0 <= request_size req.
Proof.
  destruct req as [k v|k|es|cc]; cbn [request_size]; consts; [pose proof (zlen_nonneg k); pose proof (zlen_nonneg v)
    |pose proof (zlen_nonneg k)|pose proof (zlen_nonneg (batch_body es))|]; lia.
Qed.

(** What [resized] says of one segment. *)
Lemma resized_cases (req : writeRequest) (db : DB) r (db' : DB) id n :
  resized req db r db' → sizes db' !! id = Some n →
  sizes db !! id = Some n
  ∨ ∃ old g, target req db id old ∧ (g = 0 ∨ g = request_size req) ∧ n = old + g.
Proof.
  intros H Hn. destruct r as [b|err].
  - destruct H as (a & old & Ht & _ & S). rewrite S in Hn. apply lookup_insert_Some in Hn as [[-> <-]|[_ Hn]]; [right|by left].
    exists old, (request_size req). auto.
  - destruct H as [[_ S]|(a & old & g & Ht & Hg & _ & S)]; rewrite S in Hn; [by left|].
    apply lookup_insert_Some in Hn as [[-> <-]|[_ Hn]]; [right|by left]. by exists old, g.
Qed.

Lemma target_room (req : writeRequest) (db : DB) b old :
  (∀ id n, sizes db !! id = Some n → 0 <= n) → target req db b old →
  0 <= old ∧ (old + request_size req <= MaxSegmentSize (opts db) ∨ old = 0).
Proof.
  intros Hp [(Hr & s & Ha & ->)|(_ & _ & _ & ->)]; [|lia].
  assert (0 <= s_size s) as H0 by (apply (Hp b); unfold sizes; rewrite lookup_fmap, (proj2 Ha); done).
  split; [done|]. unfold must_rotate in Hr. rewrite (active_size_run _ _ _ Ha) in Hr.
  destruct req; lia.
Qed.

Lemma bounded_step (R : writeRequest → Prop) (db0 db : DB) req r (db' : DB) :
  0 <= MaxSegmentSize (opts db0) → R req → resized req db r db' → opts db' = opts db →
  bounded R db0 db → bounded R db0 db'.
Proof.
  intros H0 HR Hs Ho [O Hp Hm]. split; [congruence| |]; intros id n Hn;
    destruct (resized_cases _ _ _ _ _ _ Hs Hn) as [H|(old & g & Ht & Hg & ->)]; eauto.
  - pose proof (target_room _ _ _ _ Hp Ht). pose proof (request_size_pos req). lia.
  - destruct Hg as [-> | ->].
    + rewrite Z.add_0_r. destruct Ht as [(_ & s & Ha & ->)|(_ & _ & _ & ->)]; [|by right; left].
      apply Hm. unfold sizes. by rewrite lookup_fmap, (proj2 Ha).
    + right. destruct (target_room _ _ _ _ Hp Ht) as [_ [Hle| ->]]; [left; by rewrite <- O|right; by exists req].
Qed.

(** ** The widths *)

(** No request adds more. *)
Definition max_request_size : Z := recordHeaderSize + maxBatchBodyLen.

Lemma request_size_max req : request_ok req → request_size req <= max_request_size.
Proof.
  unfold max_request_size. destruct req as [k v|k|es|cc]; cbn [request_size request_ok].
  - unfold key_ok, value_ok, maxKeyLen, maxValLen, maxBatchBodyLen. intros []. consts. lia.
  - unfold key_ok, maxKeyLen, maxBatchBodyLen. consts. lia.
  - intros (_ & _ & H). lia.
  - done.
Qed.

(** The sizes a segment can have with one more record within an int64. *)
Definition size_limit : Z := 2 ^ 63 - max_request_size.

(** Every field of the state is a value of its Go type: uint32 ids and value
    lengths, int64 sizes, positions and timestamps; keys and values are within
    their limits and every index entry lies inside its segment. *)
Record typed (db : DB) : Prop := {
  ty_opts : 0 <= MaxSegmentSize (opts db) < size_limit;
  ty_next : is_u32 (nextID db);
  ty_clock : is_i64 (lastTstamp db);
  ty_active : ∃ a, active db = Some a ∧ is_live_id db a;
  ty_segs : ∀ id s, segs db !! id = Some s → s_id s = id ∧ is_u32 id ∧ 0 <= s_size s < size_limit;
  ty_index : ∀ k en, index db !! k = Some en →
    key_ok k ∧ is_u32 (fileID en) ∧ is_i64 (valuePos en) ∧ is_u32 (valueLen en) ∧ valueLen en <= maxValLen
    ∧ is_i64 (tstamp en) ∧ ∃ n, sizes db !! fileID en = Some n ∧ entry_in n en;
}.

Lemma sizes_Some (db : DB) id n : sizes db !! id = Some n ↔ ∃ s, segs db !! id = Some s ∧ s_size s = n.
Proof. unfold sizes. rewrite lookup_fmap, fmap_Some. naive_solver. Qed.

(** With the active segment flushed the index points into the segments. *)
Lemma inv_within m logs (db : DB) (e : env) k en :
  db_inv m logs db e → (∃ a s, active_at db a s ∧ s_bw s = Some bufio_new) → index db !! k = Some en →
  ∃ n, sizes db !! fileID en = Some n ∧ entry_in n en.
Proof.
  intros Hi (a & sa & [Ha Hsa] & Hbw) E. destruct (inv_entry _ _ _ _ Hi _ _ E) as (s & Hs & _ & Hin & _).
  exists (s_size s). split; [apply sizes_Some; by exists s|].
  destruct (di_seg _ _ _ _ Hi _ _ Hs) as [_ _ _ _ Hd]. cbn zeta in Hd. destruct (decide (active db = Some (fileID en))) as [Hx|Hx].
  - destruct Hd as [[(_ & _ & ->) _]|[(b & Hb & Hne) _]]; [done|].
    assert (s = sa) as -> by congruence. rewrite Hbw in Hb. by injection Hb as <-.
  - by destruct Hd as (_ & -> & _).
Qed.

Lemma inv_widths m logs (db : DB) (e : env) k en :
  db_inv m logs db e → index db !! k = Some en →
  key_ok k ∧ is_u32 (fileID en) ∧ valueLen en <= maxValLen ∧ is_i64 (tstamp en).
Proof.
  intros Hi E. destruct (inv_limits _ _ _ _ _ _ Hi E) as (Hk & Hv & Ht).
  destruct (inv_entry _ _ _ _ Hi _ _ E) as (s & Hs & (H1 & H2 & H3) & _). split; [done|].
  split; [apply (di_seg _ _ _ _ Hi _ _ Hs)|]. split; [|done].
  unfold value_ok, log_value, entry_value_in in Hv. rewrite zlen_slice in Hv by lia. lia.
Qed.

Lemma typed_entry m logs (db : DB) (e : env) k en n :
  db_inv m logs db e → index db !! k = Some en → sizes db !! fileID en = Some n → entry_in n en → 0 <= n < size_limit →
  key_ok k ∧ is_u32 (fileID en) ∧ is_i64 (valuePos en) ∧ is_u32 (valueLen en) ∧ valueLen en <= maxValLen
  ∧ is_i64 (tstamp en) ∧ ∃ n, sizes db !! fileID en = Some n ∧ entry_in n en.
Proof.
  intros Hi E Hsz (H1 & H2 & H3) [_ Hlt]. destruct (inv_widths _ _ _ _ _ _ Hi E) as (Hk & Hf & Hv & Ht).
  assert (size_limit < 2 ^ 63) by done.
  repeat (split; [first [done|unfold is_i64, is_u32, maxValLen in *; lia]|]). by exists n.
Qed.

(** Sizes only grow. *)
Lemma resized_grows (req : writeRequest) (db : DB) r (db' : DB) id n :
  resized req db r db' → sizes db !! id = Some n → ∃ n', sizes db' !! id = Some n' ∧ n <= n'.
Proof.
  pose proof (request_size_pos req). intros H' Hn.
  assert (Hone : ∀ b old g, target req db b old → g = 0 ∨ g = request_size req → sizes db' = <[b := old + g]> (sizes db) →
    ∃ n', sizes db' !! id = Some n' ∧ n <= n').
  { intros b old g Ht Hg ->. destruct (decide (b = id)) as [->|Hne]; [|exists n; by rewrite lookup_insert_ne].
    exists (old + g). rewrite lookup_insert_eq. split; [done|]. destruct Ht as [(_ & s & [_ Hs] & ->)|(_ & Hnl & _)].
    - apply sizes_Some in Hn as (s' & Hs' & <-). assert (s' = s) as -> by congruence. lia.
    - destruct Hnl. apply sizes_Some in Hn as (s & Hs & _). by exists s. }
  destruct r as [b|err].
  - destruct H' as (b' & old & Ht & _ & S). by eapply Hone; [|right|].
  - destruct H' as [[_ S]|(b' & old & g & Ht & Hg & _ & S)]; [exists n; by rewrite S|by eapply Hone].
Qed.

Lemma typed_step m logs (req : writeRequest) (db : DB) r (s' : state) :
  request_ok req → sized req db r s' → db_inv m logs s'.1 s'.2 → opts s'.1 = opts db → typed db → typed s'.1.
Proof.
  intros Hq [Hs Hn Hx] Hi O [To Tn Tc Ta Ts Ti]. pose proof (request_size_max req Hq) as Hmax.
  assert (Hp : ∀ id n, sizes db !! id = Some n → 0 <= n < size_limit).
  { intros id n (s & H & <-)%sizes_Some. by apply Ts in H as (_ & _ & ?). }
  assert (Hp' : ∀ id n, sizes s'.1 !! id = Some n → 0 <= n < size_limit).
  { intros id n Hid. destruct (resized_cases _ _ _ _ _ _ Hs Hid) as [?|(old & g & Ht & Hg & ->)]; [eauto|].
    destruct (target_room req db id old) as [H1 H2]; [intros ? ? H; apply Hp in H; lia|done|].
    assert (Hold : old < size_limit).
    { destruct Ht as [(_ & s & [_ H] & ->)|(_ & _ & _ & ->)]; [by destruct (Ts _ _ H) as (_ & _ & _ & ?)|done]. }
    pose proof (request_size_pos req). assert (max_request_size < size_limit) by done. destruct Hg as [->| ->]; lia. }
  destruct (inv_active _ _ _ _ Hi) as (a & sa & [Ha Hsa] & _).
  split; [by rewrite O|auto|apply (di_clock _ _ _ _ Hi)|by exists a; split; [|exists sa]| |].
  - intros id s Hid. destruct (di_seg _ _ _ _ Hi _ _ Hid) as [H1 H2 _ _ _]. split; [done|]. split; [done|].
    apply (Hp' id), sizes_Some. by exists s.
  - intros k en E.
    assert (∃ n, sizes s'.1 !! fileID en = Some n ∧ entry_in n en) as (n & Hsz & Hin).
    { destruct r as [b|err]; [by eapply inv_within|]. rewrite Hx in E.
      destruct (Ti k en E) as (_ & _ & _ & _ & _ & _ & n & Hsz & H1 & H2 & H3).
      destruct (resized_grows _ _ _ _ _ _ Hs Hsz) as (n' & Hsz' & Hle). exists n'. split; [done|].
      split; [done|]. split; [done|lia]. }
    eapply typed_entry; [exact Hi|done|exact Hsz|done|apply (Hp' _ _ Hsz)].
Qed.

(** A flushed database is typed if its logs are short enough. *)
Lemma flushed_typed m logs (db : DB) (e : env) :
  db_inv m logs db e → m_stored m = true → flushed db e → 0 <= MaxSegmentSize (opts db) < size_limit →
  (∀ id, is_live_id db id → zlen (log_images (logs id)) < size_limit) → typed db.
Proof.
  intros Hi Hm Hf Ho Hshort. destruct (inv_active _ _ _ _ Hi) as (a & sa & Ha & Hsa).
  assert (Hbw : ∃ a s, active_at db a s ∧ s_bw s = Some bufio_new) by (exists a, sa; split; [done|apply (Hf _ _ Ha)]).
  assert (Hs : ∀ id s, segs db !! id = Some s → s_size s = zlen (log_images (logs id))).
  { intros id s Hid. destruct (di_seg _ _ _ _ Hi _ _ Hid) as [_ _ _ _ Hd]. cbn zeta in Hd.
    destruct (decide (active db = Some id)) as [E|Hne]; [|by destruct Hd as (_ & -> & ->)].
    destruct (Hf id s (conj E Hid)) as (H1 & H2 & H3). destruct Hd as [[_ <-]|[(b & Hb & Hn) _]]; [done|].
    rewrite H2 in Hb. by injection Hb as <-. }
  assert (Hp : ∀ id n, sizes db !! id = Some n → 0 <= n < size_limit).
  { intros id n (s & Hid & <-)%sizes_Some. rewrite (Hs _ _ Hid). split; [apply zlen_nonneg|]. apply Hshort. by exists s. }
  split; [done|apply (st_next _ _ _ (di_stored _ _ _ _ Hi Hm))|apply (di_clock _ _ _ _ Hi)|exists a; split; [apply Ha|exists sa; apply Ha]| |].
  - intros id s Hid. destruct (di_seg _ _ _ _ Hi _ _ Hid) as [H1 H2 _ _ _]. split; [done|]. split; [done|].
    apply (Hp id), sizes_Some. by exists s.
  - intros k en E. destruct (inv_within _ _ _ _ _ _ Hi Hbw E) as (n & Hsz & Hin). eapply typed_entry; [exact Hi|done|exact Hsz|done|apply (Hp _ _ Hsz)].
Qed.

(** ** The theorems *)

(** C17: rotation happens exactly when it is due.  A request whose record would
    carry the active segment past MaxSegmentSize opens a new segment and is its
    first record (a batch that finds the active segment empty stays there); any
    other is appended to the active segment; no other segment changes size. *)
Theorem handleOne_resizes m logs req (db : DB) (e : env) r s' :
  db_inv m logs db e → has_room m db → request_ok req → writesDisabled db = false →
  handleOne req (db, e) = (r, s') → resized req db r s'.1.
Proof.
  intros Hi Hr Hq Hd E. pose proof (handleOne_sized m logs req db e Hi Hr Hq Hd) as H. unfold wp in H. rewrite E in H. apply H.
Qed.

(** C18: MaxSegmentSize bounds the segments.  In every state the writer reaches,
    whatever is interleaved and whatever fails, a segment has the size it started
    with, or at most MaxSegmentSize, or the size of one request that the writer
    took: only a single record ever carries a segment past the threshold. *)
Theorem segments_bounded m logs (db : DB) (e : env) (x : wstate) id s :
  db_inv m logs db e → 0 <= MaxSegmentSize (opts db) → (∀ i n, sizes db !! i = Some n → 0 <= n) →
  wsteps (roomy m) (started (db, e)) x → segs (w_db x).1 !! id = Some s →
  sizes db !! id = Some (s_size s) ∨ s_size s <= MaxSegmentSize (opts db)
  ∨ ∃ w r, (w, r) ∈ w_served x ∧ s_size s = request_size w.2.
Proof.
  intros Hi H0 Hp Hx Hs. set (R := λ req, ∃ w r, (w, r) ∈ w_served x ∧ w.2 = req).
  assert (bounded R db (w_db x).1) as [_ _ H].
  { eapply (wsteps_keeps m R (bounded R db)); [|exact Hi|exact Hx| |split; [done|done|by left]].
    - intros l l' req db1 e1 r s' _ _ HR [Hsz _ _] _ O _. by eapply bounded_step.
    - intros w r Hw. by exists w, r. }
  destruct (H id (s_size s)) as [?|[?|(req & (w & r & Hw & <-) & E)]]; [apply sizes_Some; by exists s|by left|right; by left|].
  right; right. by exists w, r.
Qed.

(** C16: the engine's state is well typed.  From an open database with nothing
    buffered whose segments and threshold leave room for one more record in an
    int64, every state the writer reaches has all its fields within their Go
    types, every index entry inside its segment, and no request can overflow the
    sum the rotation test compares. *)
Theorem reachable_typed m logs (db : DB) (e : env) (x : wstate) :
  db_inv m logs db e → m_stored m = true → flushed db e → 0 <= MaxSegmentSize (opts db) < size_limit →
  (∀ id, is_live_id db id → zlen (log_images (logs id)) < size_limit) →
  wsteps (roomy m) (started (db, e)) x →
  typed (w_db x).1 ∧ ∀ req, request_ok req → is_i64 (active_size (w_db x).1 + request_size req).
Proof.
  intros Hi Hm Hf Ho Hl Hx. assert (typed (w_db x).1) as Ht.
  { eapply (wsteps_keeps m (λ _, True) typed); [|exact Hi|exact Hx|done|by eapply flushed_typed].
    intros l l' req db1 e1 r s' _ Hq _ Hs Hi' O _. by eapply typed_step. }
  split; [done|]. intros req Hq. pose proof (request_size_max req Hq). pose proof (request_size_pos req).
  destruct (ty_active _ Ht) as (a & Ha & s & Hs). rewrite (active_size_run _ a s) by done.
  destruct (ty_segs _ Ht _ _ Hs) as (_ & _ & Hsz). unfold size_limit, is_i64 in *. lia.
Qed.

(** ** Witnesses *)

(** 72 bytes do not fit segments of 64: they go to a new one. *)
Definition big_put : writeRequest := writeKindPut [x61] (replicate 50 x30).

Lemma handleOne_resizes_witness :
  let p := handleOne big_put (init_db, init_env) in
  resized big_put init_db p.1 p.2.1 ∧ p.1 = Ok true ∧ active p.2.1 = Some 1.
Proof.
  intros p. split; [|split; by vm_compute].
  apply (handleOne_resizes full_mode (λ _, []) big_put init_db init_env p.1 p.2);
    [apply init_inv|split; [done|split; [done|by intros _]]|decided|done|apply surjective_pairing].
Defined.

Lemma init_sizes i n : sizes init_db !! i = Some n → 0 <= n.
Proof. intros (s & Hs & <-)%sizes_Some. apply init_segs_Some in Hs as [_ ->]. done. Qed.

Lemma segments_bounded_witness :
  ∃ s, segs (w_db after_two).1 !! 0 = Some s ∧ s_size s = 45 ∧
    (sizes init_db !! 0 = Some (s_size s) ∨ s_size s <= 64 ∨ ∃ w r, (w, r) ∈ w_served after_two ∧ s_size s = request_size w.2).
Proof.
  eexists. split; [by vm_compute|]. split; [done|].
  apply (segments_bounded full_mode (λ _, []) init_db init_env after_two 0);
    [apply init_inv|done|exact init_sizes|apply after_two_steps; by right|by vm_compute].
Defined.

Lemma reachable_typed_witness :
  typed (w_db after_two).1 ∧ ∀ req, request_ok req → is_i64 (active_size (w_db after_two).1 + request_size req).
Proof.
  apply (reachable_typed full_mode (λ _, []) init_db init_env after_two);
    [apply init_inv|done| |done|done|apply after_two_steps; by right].
  intros a s [_ [-> ->]%init_segs_Some]. split; [unfold has_file; cbn; set_solver|by vm_compute].
Defined.
