(* ===== verification/Meanwhile.v ===== *)
(** * What a compaction pass may rely on while it pauses

    [steady] holds of the shared state at every moment of a pass: the database
    is well formed, the candidates are sealed and unchanged, and its map is that
    of the requests the writer has handled, in order.  A pause keeps it, and
    changes nothing the pass depends on. *)
From S2P Require Import Prelude LogRecord Keydir Storage Frame Names Publish Manifest HintFile Log Recovery Db Invariant Confined WritePath Rotation Compact Engine Compactor Writes.

(** The requests of a script passed the checks of the public calls; there is one
    pass at a time. *)
Definition step_ok (w : writerStep) : Prop := match w with Handles req => request_ok req | _ => True end.
Definition script_ok (script : list (list writerStep)) : Prop := Forall (Forall step_ok) script.

(** ** Bursts are sequences of steps *)

(** Every request of the burst finds room. *)
Fixpoint burst_left (burst : list writeRequest) (s : state) : Prop :=
  match burst with
  | [] => True
  | req :: burst' => room_left s.1 = true ∧ burst_left burst' (handleOne req s).2
  end.

Lemma handle_all_steps burst : ∀ p,
  burst_left burst (p_state p) →
  foldl writer_step p (Handles <$> burst)
  = let (results, s) := handle_all burst (p_state p) in mkP (p_script p) (p_served p ++ zip burst results) s.
Proof.
  induction burst as [|req burst IH]; intros [script served s] Hb.
  - cbn. by rewrite app_nil_r.
  - destruct Hb as [Hr Hb]. cbn [p_state] in *. cbn [fmap list_fmap foldl handle_all writer_step p_db p_state p_script p_served].
    change (p_db _) with s.1. rewrite Hr. destruct (handleOne req s) as [r s1]. cbn [snd] in Hb.
    rewrite IH by done. cbn [p_state p_script p_served]. destruct (handle_all burst s1) as [rs s2].
    cbn [zip zip_with]. by rewrite <- app_assoc.
Qed.

(** What the writer does in [processBurst], a pause can do. *)
Lemma burst_steps burst p :
  burst_left burst (p_state p) →
  ∃ ws, foldl writer_step p ws = mkP (p_script p) (p_served p ++ zip burst (handle_all burst (p_state p)).1)
          (processBurst burst (p_state p)).2.
Proof.
  intros Hb. pose proof (handle_all_steps burst p Hb) as H. unfold processBurst.
  destruct (handle_all burst (p_state p)) as [rs s1].
  destruct (existsb appended_active rs && SyncOnPut (opts s1.1)).
  - exists ((Handles <$> burst) ++ [Fsyncs]). rewrite foldl_app, H. cbn [foldl writer_step with_state p_state p_script p_served].
    by destruct (with_active sync s1) as [[|] s2].
  - exists (Handles <$> burst). by rewrite H.
Qed.

(** ** The invariant of a pass *)

Section steady.
Context (m : mode) (Hms : m_stored m = true) (cands : list segment) (logs0 : logmap) (idle : Prop) (M0 : kvmap).

Record steady (logs : logmap) (p : pstate) : Prop := {
  sd_inv : db_inv m logs (p_db p) (p_env p);
  sd_cands : ∀ c, c ∈ cands → sealed (p_db p) (s_id c) c ∧ logs (s_id c) = logs0 (s_id c);
  sd_script : script_ok (p_script p);
  sd_idle : idle → p_script p = [];
  sd_map : abs (p_db p) (p_env p) = apply_served (p_served p).*1 (p_served p).*2 M0;
}.

(** The pass's own steps. *)
Lemma steady_keeps logs p s' :
  steady logs p → keeps m logs logs (p_state p) s' → segs s'.1 = segs (p_db p) → active s'.1 = active (p_db p) →
  steady logs (with_state s' p).
Proof using Type.
  intros [Hi Hc Hs Hid Hm] K S A. destruct p as [script served [db e]], s' as [db' e']. cbn in *. split; cbn; try done.
  - apply K.
  - unfold sealed. by rewrite S, A.
  - rewrite <- Hm. by eapply keeps_abs.
Qed.

Lemma inv_closing logs (db : DB) (e : env) : db_inv m logs db e → db_inv m logs (set_closing db) e.
Proof using Type.
  intros [? ? ? ? ? ? ? Hs Hd Hx]. split; cbn; try done.
  - intros Hm. by destruct (Hs Hm).
  - intros Hm. by destruct (Hd Hm).
  - intros Hm. by destruct (Hx Hm).
Qed.

(** What the steps of the writer do to [p]. *)
Record drift (k : Z) (logs logs' : logmap) (p p' : pstate) : Prop := {
  df_steady : steady logs' p';
  df_confined : confined k logs logs' (p_state p) (p_state p');
  df_left : nextID (p_db p) < 2 ^ 32 - 1 → nextID (p_db p') < 2 ^ 32 - 1;
}.

Lemma drift_refl logs p : steady logs p → drift 0 logs logs p p.
Proof using Type. intros H. split; [done| |done]. apply confined_refl, H. Qed.

Lemma room_has_room db : room_left db = true → has_room m db.
Proof using Hms.
  unfold room_left, has_room, id_left. intros [H1%Z.ltb_lt H2%Z.ltb_lt]%andb_true_iff.
  split; [done|]. split; [done|]. intros _. lia.
Qed.

(** The candidates after a step the writer is confined to. *)
Lemma confined_cands k logs logs' s s' :
  confined k logs logs' s s' →
  (∀ c, c ∈ cands → sealed s.1 (s_id c) c ∧ logs (s_id c) = logs0 (s_id c)) →
  ∀ c, c ∈ cands → sealed s'.1 (s_id c) c ∧ logs' (s_id c) = logs0 (s_id c).
Proof using Type.
  intros C H c Hc. destruct (H c Hc) as [H1 E1]. destruct (cf_sealed _ _ _ _ _ C _ _ H1) as [H2 E2].
  split; [done|congruence].
Qed.

Lemma writer_step_spec logs p w :
  steady logs p → step_ok w → (idle → False) → ∃ k logs', drift k logs logs' p (writer_step p w).
Proof using Hms.
  intros Hp Hw Hni. pose proof Hp as [Hi Hc Hs Hid Hm]. destruct p as [script served [db e]]. cbn in *.
  destruct w as [req| |]; cbn [writer_step p_state p_db p_env with_state fst snd p_script p_served].
  - change (p_db _) with db. destruct (room_left db) eqn:Hr; [|exists 0, logs; by apply drift_refl].
    pose proof (handleOne_spec m logs req db e Hi (room_has_room _ Hr) Hw) as H. unfold wp in H.
    destruct (handleOne req (db, e)) as [r [db' e']]. cbn [fst snd] in H.
    assert (∃ k logs', db_inv m logs' db' e' ∧ confined k logs logs' (db, e) (db', e') ∧ 0 <= k <= 1
      ∧ abs db' e' = match r with Ok _ => spec_apply req (abs db e) | Err _ => abs db e end)
      as (k & logs' & Hi' & C & Hk & A).
    { destruct (writesDisabled db).
      - destruct H as [-> [= -> ->]]. exists 0, logs. split; [done|]. split; [apply confined_refl, Hi|done].
      - destruct H as (_ & _ & _ & logs' & Hi' & C & H). exists 1, logs'. split; [done|]. split; [auto|].
        split; [done|]. destruct r; [apply H|exact H]. }
    exists k, logs'. split; [|done|].
    + split; cbn; [done|exact (confined_cands _ _ _ _ _ C Hc)|done|done|].
      rewrite !fmap_app, apply_served_app, <- Hm, A by (by rewrite !length_fmap). by destruct r.
    + intros _. apply andb_true_iff in Hr as [H1%Z.ltb_lt _]. pose proof (cf_next _ _ _ _ _ C). cbn in *. lia.
  - pose proof (sync_active_spec m logs db e Hi) as H. unfold wp in H.
    destruct (with_active sync (db, e)) as [r [db' e']]. cbn [fst snd] in H. destruct H as (K & E & F & _). cbn in E. subst db'.
    exists 0, logs. split; [by apply steady_keeps|apply confined_same; [done..|apply F]|done].
  - exists 0, logs. split.
    + split; cbn; [by apply inv_closing|done..].
    + apply confined_same; [done..|]. apply framed_refl, Hi.
    + done.
Qed.

Lemma writer_steps_spec ws : ∀ logs p,
  steady logs p → Forall step_ok ws → (idle → False) → ∃ k logs', drift k logs logs' p (foldl writer_step p ws).
Proof using Hms.
  induction ws as [|w ws IH]; intros logs p Hp Hws Hni; [exists 0, logs; by apply drift_refl|].
  apply Forall_cons in Hws as [Hw Hws]. cbn [foldl].
  destruct (writer_step_spec logs p w Hp Hw Hni) as (k1 & logs1 & [H1 C1 L1]).
  destruct (IH logs1 _ H1 Hws Hni) as (k2 & logs2 & [H2 C2 L2]).
  exists (k1 + k2), logs2. split; [done|by eapply confined_trans|auto].
Qed.

Lemma pause_spec logs p :
  steady logs p → ∃ k logs', drift k logs logs' p (pause p) ∧ (idle → pause p = p).
Proof using Hms.
  intros Hp. pose proof Hp as [Hi Hc Hs Hid Hm]. unfold pause. destruct (p_script p) as [|ws script] eqn:E.
  - exists 0, logs. split; [by apply drift_refl|done].
  - assert (idle → False) as Hni by (intros H; by specialize (Hid H)). apply Forall_cons in Hs as [Hws Hs].
    assert (Hp' : steady logs (mkP script (p_served p) (p_state p))) by (split; done).
    destruct (writer_steps_spec ws logs _ Hp' Hws Hni) as (k & logs' & [H1 H2 H3]).
    exists k, logs'. split; [by split|]. intros H. by destruct Hni.
Qed.

End steady.

(** ** The names a pass touches *)

Definition pass_free (id : Z) (n : bytes) : Prop := n ≠ segmentFilename id ∧ not_hint id n.

Lemma reserved_pass_free m logs db e id :
  db_inv m logs db e → is_u32 id → ¬ is_live_id db id → id < nextID db →
  ∀ n, reserved db n → pass_free id n.
Proof.
  intros Hi Hu Hnl Hlt n Hn. split; [by eapply reserved_not_new|].
  assert (Hlu : ∀ i, is_live_id db i → is_u32 i) by (intros i [s Hs]; apply (di_seg _ _ _ _ Hi _ _ Hs)).
  destruct Hn as [[-> _]|(i & [[-> Hl]|[-> Hl]])].
  - split; intros E; apply (f_equal filepath_Ext) in E; rewrite ?Ext_hintTmpname, ?Ext_hintFilename in E; discriminate.
  - apply segment_not_hint_file.
  - split; intros E.
    + apply (f_equal filepath_Ext) in E. rewrite Ext_hintTmpname, Ext_hintFilename in E. discriminate.
    + assert (is_u32 i) by (destruct Hl as [?|[? _]]; auto).
      apply hintFilename_inj in E; [|done..]. subst i. destruct Hl as [?|[_ ?]]; [done|lia].
Qed.

(** The merged segment's file is none of the writer's. *)
Lemma away_merged m logs db e id :
  db_inv m logs db e → is_u32 id → ¬ is_live_id db id → id < nextID db → away db (segmentFilename id).
Proof.
  intros Hi Hu Hnl Hlt. split; [done|]. split.
  - intros a Ha E. destruct (di_active _ _ _ _ Hi) as (a' & s & Ha' & Hs). assert (a' = a) as -> by congruence.
    apply segmentFilename_inj in E as ->; [|done|apply (di_seg _ _ _ _ Hi _ _ Hs)]. apply Hnl. by exists s.
  - intros i Hi' Hle E. apply segmentFilename_inj in E; [|done..]. lia.
Qed.
Lemma away_hint db id : away db (hintFilename id).
Proof.
  split; [done|]. split; [intros a _ E|intros i _ _ E]; symmetry in E; by apply segment_not_hint in E.
Qed.

Lemma steady_env m cands logs0 idle M0 logs p id e' :
  steady m cands logs0 idle M0 logs p → is_u32 id → ¬ is_live_id (p_db p) id → id < nextID (p_db p) →
  framed (pass_free id) (e_disk (p_env p)) (e_disk e') → steady m cands logs0 idle M0 logs (with_env e' p).
Proof.
  intros Hp Hu Hnl Hlt F. apply steady_keeps; [done| |done|done]. pose proof (sd_inv _ _ _ _ _ _ _ Hp) as Hi.
  destruct p as [script served [db e]]. cbn in *. eapply keeps_framed; [done|exact F|].
  by eapply reserved_pass_free.
Qed.
