(* ===== verification/Scan.v ===== *)
(** * The compaction scan copies the live entries

    The merged log a scan builds, whatever the writer does in its pauses: every
    copied record is a PUT of a candidate, with the rewrite that points the
    index at it, and every entry that is still current is copied once. *)
From S2P Require Import Prelude LogRecord Keydir Hint Storage Frame Names Publish Manifest HintFile Log Recovery Db Invariant Confined WritePath Rotation Compact Engine Compactor Writes Meanwhile.

(** ** The entries a log writes *)

Definition put_entry (u : update) : option (bytes * keydirEntry) := (λ en, (u_key u, en)) <$> u_entry u.
Definition put_entries (us : list update) : list (bytes * keydirEntry) := omap put_entry us.

(** Positions of a list of entries: ascending, within (lo, hi]. *)
Definition placed (lo hi : Z) (ps : list (bytes * keydirEntry)) : Prop :=
  StronglySorted (λ p q, valuePos p.2 < valuePos q.2) ps ∧ Forall (λ p, lo < valuePos p.2 <= hi) ps.

Lemma placed_nil lo hi : placed lo hi [].
Proof. split; constructor. Qed.
Lemma placed_app lo mid hi ps qs :
  lo <= mid → mid <= hi → placed lo mid ps → placed mid hi qs → placed lo hi (ps ++ qs).
Proof.
  intros H1 H2 [S1 F1] [S2 F2]. rewrite Forall_forall in F1, F2. split.
  - apply StronglySorted_app_2; [|done|done]. intros p q Hp Hq. specialize (F1 p Hp). specialize (F2 q Hq). lia.
  - apply Forall_app. split; apply Forall_forall; intros p Hp; [specialize (F1 p Hp)|specialize (F2 p Hp)]; lia.
Qed.
Lemma placed_one lo hi p : lo < valuePos p.2 <= hi → placed lo hi [p].
Proof. intros. split; [repeat constructor|by constructor]. Qed.

Lemma put_entries_app us us' : put_entries (us ++ us') = put_entries us ++ put_entries us'.
Proof. apply omap_app. Qed.

Lemma batch_entries_placed fid ts start es : ∀ off,
  0 <= off →
  placed (start + recordHeaderSize + off) (start + recordHeaderSize + off + zlen (entries_image es))
    (put_entries (batch_update fid ts <$> decoded_entries es start off)).
Proof.
  induction es as [|x es IH]; intros off Hoff; [apply placed_nil|].
  cbn [decoded_entries fmap list_fmap]. change (put_entries (?a :: ?l)) with (put_entries ([a] ++ l)).
  rewrite put_entries_app. pose proof (zlen_entry_image x) as Hx.
  assert (Hsz : zlen (entries_image (x :: es)) = entryBodySize x + zlen (entries_image es)).
  { unfold entries_image. cbn [fmap list_fmap concat]. by rewrite zlen_app, Hx. }
  assert (Hb : entryBodySize x = batchEntryHeaderSize + zlen (be_Key x) + zlen (entry_value x)).
  { unfold entryBodySize, entry_value. by destruct (be_Delete x). }
  pose proof (zlen_nonneg (be_Key x)). pose proof (zlen_nonneg (entry_value x)).
  pose proof (zlen_nonneg (entries_image es)). assert (0 < batchEntryHeaderSize) by done.
  rewrite Hsz. apply (placed_app _ (start + recordHeaderSize + (off + entryBodySize x))); [lia|lia| |].
  - unfold put_entries, put_entry, batch_update. cbn. destruct (_ =? _); cbn; [|apply placed_nil].
    apply placed_one. cbn. lia.
  - replace (start + recordHeaderSize + off + _) with
      (start + recordHeaderSize + (off + entryBodySize x) + zlen (entries_image es)) by lia.
    apply IH. lia.
Qed.

Lemma log_entries_placed fid start l :
  placed start (start + zlen (log_image l)) (put_entries (log_updates fid start l)).
Proof.
  destruct l as [ts k v|ts k v|ts es]; cbn [log_updates].
  - apply placed_one. cbn [log_image snd valuePos]. rewrite zlen_record_image. consts. zl.
  - apply placed_nil.
  - assert (0 < recordHeaderSize) by done. pose proof (zlen_nonneg (entries_image es)).
    apply (placed_app start (start + recordHeaderSize + 4) _ [] _); [lia| |apply placed_nil|].
    + cbn [log_image]. unfold batch_image. rewrite zlen_record_image. unfold batch_body. consts. zl.
    + cbn [log_image]. unfold batch_image. rewrite zlen_record_image. unfold batch_body.
      replace (start + (21 + _)) with (start + recordHeaderSize + 4 + zlen (entries_image es)) by (consts; zl).
      apply batch_entries_placed. lia.
Qed.

Lemma logs_entries_placed fid ls : ∀ start,
  placed start (start + zlen (log_images ls)) (put_entries (logs_updates fid start ls)).
Proof.
  induction ls as [|l ls IH]; intros start; [apply placed_nil|]. cbn [logs_updates].
  rewrite put_entries_app, log_images_cons, zlen_app, Z.add_assoc.
  pose proof (zlen_nonneg (log_images ls)). pose proof (log_image_nonempty l).
  eapply placed_app; [| |apply log_entries_placed|apply IH]; lia.
Qed.

(** A location belongs to one entry. *)
Lemma placed_inj lo hi ps p q :
  placed lo hi ps → p ∈ ps → q ∈ ps → valuePos p.2 = valuePos q.2 → p = q.
Proof.
  intros [S _] Hp Hq E. apply list_elem_of_lookup in Hp as [i Hi], Hq as [j Hj].
  destruct (decide (i = j)) as [->|]; [congruence|].
  assert (∀ a b x y, ps !! a = Some x → ps !! b = Some y → (a < b)%nat → valuePos x.2 < valuePos y.2) as Hlt.
  { clear -S. induction S as [|z ps HS IH Hz]; intros a b x y Ha Hb Hab; [done|].
    destruct b as [|b]; [lia|]. destruct a as [|a]; cbn in Ha, Hb.
    - injection Ha as <-. rewrite Forall_forall in Hz. apply Hz. by eapply list_elem_of_lookup_2.
    - apply (IH a b); [done|done|lia]. }
  destruct (Nat.lt_ge_cases i j) as [Hij|Hij].
  - specialize (Hlt _ _ _ _ Hi Hj Hij). lia.
  - assert (j < i)%nat as Hji by lia. specialize (Hlt _ _ _ _ Hj Hi Hji). lia.
Qed.

Lemma placed_NoDup lo hi ps : placed lo hi ps → NoDup ps.
Proof.
  intros [S _]. induction S as [|p ps S IH Hp]; constructor; [|done].
  intros Hin. rewrite Forall_forall in Hp. specialize (Hp p Hin). cbn in Hp. lia.
Qed.

(** ** Appends without faults *)

Lemma bufio_Flush_quiet ino b e :
  b_err b = None → quiet e → ∃ b' e', bufio_Flush ino b e = (Ok tt, b', e') ∧ quiet e' ∧ b_err b' = None.
Proof.
  intros Hb Hq. unfold bufio_Flush. rewrite Hb. destruct (b_pending b) as [|x p]; [by exists b, e|].
  rewrite file_Write_quiet by done. by eexists _, _.
Qed.
Lemma bufio_Write_quiet ino b p e :
  b_err b = None → quiet e → ∃ b' e', bufio_Write ino b p e = (Ok tt, b', e') ∧ quiet e' ∧ b_err b' = None.
Proof.
  intros Hb Hq. unfold bufio_Write. rewrite Hb. destruct (_ <=? _); [by eexists _, _|].
  assert (Hrest : ∀ p b e, b_err b = None → quiet e →
    ∃ b' e', bufio_WriteRest ino p b e = (Ok tt, b', e') ∧ quiet e' ∧ b_err b' = None).
  { intros p0 b0 e1 Hb0 Hq1. unfold bufio_WriteRest. destruct (_ <? _); [|by eexists _, _].
    rewrite file_Write_quiet by done. by eexists _, _. }
  destruct (b_pending b) as [|x l]; [by apply Hrest|].
  destruct (bufio_Flush_quiet ino (mkBufio ((x :: l) ++ slice_to p (bufio_size - zlen (x :: l))) None) e eq_refl Hq)
    as (b' & e' & -> & Hq' & Hb'). by apply Hrest.
Qed.
Lemma append_quiet s buf e :
  healthy s → quiet e → ∃ s' e', append s buf e = (Ok (s_size s), s', e') ∧ quiet e'.
Proof.
  intros [p Hp] Hq. unfold append. rewrite Hp.
  destruct (bufio_Write_quiet (s_file s) (mkBufio p None) buf e eq_refl Hq) as (b' & e' & -> & ? & _). by eexists _, _.
Qed.
Lemma flush_quiet s e :
  healthy s → quiet e → ∃ s' e', flush s e = (Ok tt, s', e') ∧ quiet e'.
Proof.
  intros [p Hp] Hq. unfold flush. rewrite Hp.
  destruct (bufio_Flush_quiet (s_file s) (mkBufio p None) e eq_refl Hq) as (b' & e' & -> & ? & _). by eexists _, _.
Qed.
Lemma sync_quiet s e :
  healthy s → quiet e → ∃ s' e', sync s e = (Ok tt, s', e') ∧ quiet e'.
Proof.
  intros Hh Hq. unfold sync. destruct (flush_quiet s e Hh Hq) as (s' & e' & -> & Hq').
  rewrite file_Sync_quiet by done. by eexists _, _.
Qed.

(** ** The merged segment's file *)

(** [ns] is the file linked under its name, in whatever state its writer is. *)
Record linked_seg (ns : segment) (e : env) : Prop := {
  ls_ok : disk_ok (e_disk e);
  ls_linked : d_dir (e_disk e) !! s_path ns = Some (s_file ns);
  ls_writer : healthy ns ∨ writer_failed ns;
}.

Lemma appended_seg_framed (P : bytes → Prop) n ino q e e' :
  disk_ok (e_disk e) → d_dir (e_disk e) !! n = Some ino → ¬ P n → appended ino q e e' →
  framed P (e_disk e) (e_disk e').
Proof.
  intros Hd Hn HP Hap. eapply framed_weaken; [by eapply appended_framed|].
  intros n' HP' E. apply HP. by rewrite (dk_inj _ Hd _ _ _ Hn E).
Qed.

Lemma flush_framed (P : bytes → Prop) ns e r ns' e' :
  linked_seg ns e → ¬ P (s_path ns) → flush ns e = (r, ns', e') →
  framed P (e_disk e) (e_disk e') ∧ d_dir (e_disk e') = d_dir (e_disk e)
  ∧ s_id ns' = s_id ns ∧ s_file ns' = s_file ns ∧ s_size ns' = s_size ns ∧
  match r with
  | Ok _ => s_bw ns' = Some bufio_new ∧ file_data (e_disk e') (s_file ns) = file_data (e_disk e) (s_file ns) ++ s_pending ns
  | Err _ => writer_failed ns'
  end.
Proof.
  intros [Hd Hl [Hh|Hw]] HP E.
  - destruct (flush_spec _ _ _ _ _ (dk_linked _ Hd _ _ Hl) Hh E) as (H1 & H2 & H3 & q & Hap & H4).
    split; [by eapply appended_seg_framed|]. split; [apply Hap|]. do 3 (split; [done|]).
    destruct r; [|apply H4]. destruct H4 as [H4 ->]. split; [done|]. apply Hap.
  - destruct (flush_failed ns e Hw) as [err E']. rewrite E' in E. injection E as <- <- <-.
    split; [by apply framed_refl|]. done.
Qed.

Lemma discard_linked (P : bytes → Prop) ns e :
  linked_seg ns e → ¬ P (s_path ns) → framed P (e_disk e) (e_disk (discard_segment ns e)).
Proof.
  intros Hs HP. unfold discard_segment.
  assert (framed P (e_disk e) (e_disk (ignore (close ns) e))) as F.
  { unfold ignore, close. destruct (flush ns e) as [[r s1] e1] eqn:E.
    apply (flush_framed P) in E as [F _]; [|done..]. destruct (file_Close e1) as [r2 e2] eqn:E2.
    apply file_Close_inv in E2 as [E2 _]. cbn. by rewrite E2. }
  eapply framed_trans; [exact F|]. apply ignore_Remove_framed; [apply F|done].
Qed.

Lemma discard_quiet ns e : healthy ns → quiet e → quiet (discard_segment ns e).
Proof.
  intros Hh Hq. unfold discard_segment, ignore, close.
  destruct (flush_quiet ns e Hh Hq) as (s' & e' & -> & Hq'). by apply sys_quiet, sys_quiet.
Qed.

Lemma sync_linked (P : bytes → Prop) ns e r ns' e' :
  linked_seg ns e → ¬ P (s_path ns) → sync ns e = (r, ns', e') →
  framed P (e_disk e) (e_disk e') ∧ linked_seg ns' e'
  ∧ s_id ns' = s_id ns ∧ s_file ns' = s_file ns ∧ s_size ns' = s_size ns ∧
  match r with
  | Ok _ => s_bw ns' = Some bufio_new
      ∧ file_data (e_disk e') (s_file ns) = file_data (e_disk e) (s_file ns) ++ s_pending ns
      ∧ file_synced (e_disk e') (s_file ns) = file_data (e_disk e') (s_file ns)
  | Err _ => True
  end.
Proof.
  intros Hs HP. unfold sync. destruct (flush ns e) as [[r1 s1] e1] eqn:E1.
  apply (flush_framed P) in E1 as (F1 & D1 & H1 & H2 & H3 & H4); [|done..].
  assert (Hl1 : d_dir (e_disk e1) !! s_path s1 = Some (s_file s1)).
  { unfold s_path. rewrite D1, H1, H2. apply Hs. }
  destruct r1 as [[]|err].
  2: { intros [= <- <- <-]. split; [done|]. split; [split; [apply F1|done|by right]|]. done. }
  destruct H4 as [Hb Hdat]. destruct (file_Sync (s_file s1) e1) as [r2 e2] eqn:E2. intros [= <- <- <-].
  apply file_Sync_inv in E2.
  assert (F2 : framed P (e_disk e1) (e_disk e2)).
  { apply (sync_disk_framed _ _ _ (s_file s1)); [apply F1|]. destruct E2 as [[_ ->]|[_ ->]]; auto. }
  split; [by eapply framed_trans|]. split.
  { split; [apply F2| |by left; exists []]. destruct E2 as [[_ ->]|[_ ->]]; [|done]. by rewrite dir_sync. }
  do 3 (split; [done|]). destruct E2 as [[-> E2]|[-> E2]]; [|done]. split; [done|].
  rewrite E2, <- H2, file_synced_sync, !file_data_sync, H2. done.
Qed.

(** ** The scan's invariant *)

Definition old_pair (r : rewrite) : bytes * keydirEntry := (rw_key r, oldEntry r).
Definition new_update (r : rewrite) : update := mkUpdate (rw_key r) (tstamp (newEntry r)) (Some (newEntry r)).

Definition same_place (en en' : keydirEntry) : Prop :=
  fileID en = fileID en' ∧ valuePos en = valuePos en' ∧ valueLen en = valueLen en'.

Section scan.
Context (m : mode) (Hms : m_stored m = true) (cands : list segment) (logs0 : logmap) (idle : Prop) (M0 : kvmap).
Context (id : Z) (ino : N) (Hu : is_u32 id).
#[local] Abbreviation steady := (Meanwhile.steady m cands logs0 idle M0).

(** The merged segment, in whatever state its writer is: not yet one of the
    database's. *)
Record merging (ns : segment) (p : pstate) : Prop := {
  mg_id : s_id ns = id;
  mg_file : s_file ns = ino;
  mg_linked : linked_seg ns (p_env p);
  mg_new : ¬ is_live_id (p_db p) id;
  mg_below : id < nextID (p_db p);
}.

(** [ps] lists the entries scanned so far, [nlog] the records copied. *)
Record scan_inv (ps : list (bytes * keydirEntry)) (nlog : list logrec) (cs : cstate) (p : pstate) : Prop := {
  sc_steady : ∃ logs, steady logs p;
  sc_merging : merging (cs_newSeg cs) p;
  sc_healthy : healthy (cs_newSeg cs);
  sc_data : file_data (e_disk (p_env p)) ino ++ s_pending (cs_newSeg cs) = log_images nlog;
  sc_size : s_size (cs_newSeg cs) = zlen (log_images nlog);
  sc_ok : Forall log_ok nlog;
  sc_put : forallb is_put nlog = true;
  sc_rw : logs_updates id 0 nlog = new_update <$> cs_rewrites cs;
  sc_old : (old_pair <$> cs_rewrites cs) `sublist_of` ps;
  sc_val : ∀ r, r ∈ cs_rewrites cs → tstamp (newEntry r) = tstamp (oldEntry r)
    ∧ entry_value_in (log_images nlog) (newEntry r) = log_value logs0 (oldEntry r);
  sc_seen : ∀ r en, r ∈ cs_rewrites cs → index (p_db p) !! rw_key r = Some en → fileID en ∈ s_id <$> cands →
    same_place en (oldEntry r);
  sc_cover : ∀ k en, (k, en) ∈ ps → fileID en ∈ s_id <$> cands → index (p_db p) !! k = Some en →
    (k, en) ∈ old_pair <$> cs_rewrites cs;
  sc_idle : idle → ∀ r, r ∈ cs_rewrites cs → ∃ en, index (p_db p) !! rw_key r = Some en ∧ same_place en (oldEntry r);
}.

(** *** Pauses *)

(** The index finds less and less in the candidates. *)
Lemma drift_index k logs logs' p p' key en :
  steady logs p → drift m cands logs0 idle M0 k logs logs' p p' →
  fileID en ∈ s_id <$> cands → index (p_db p') !! key = Some en → index (p_db p) !! key = Some en.
Proof using Type.
  intros Hp D (c & E & Hc)%list_elem_of_fmap. destruct (sd_cands _ _ _ _ _ _ _ Hp c Hc) as [Hsl _].
  apply (cf_index _ _ _ _ _ (df_confined _ _ _ _ _ _ _ _ _ _ D) key en c). by rewrite E.
Qed.

Lemma merging_drift k logs logs' ns p p' :
  merging ns p → steady logs p → drift m cands logs0 idle M0 k logs logs' p p' →
  merging ns p' ∧ file_data (e_disk (p_env p')) ino = file_data (e_disk (p_env p)) ino
  ∧ same_file ino (e_disk (p_env p)) (e_disk (p_env p')).
Proof using Hu.
  intros [Hid Hf [Hd Hl Hw] Hnew Hb] Hp [Hp' C _].
  pose proof (away_merged _ _ _ _ _ (sd_inv _ _ _ _ _ _ _ Hp) Hu Hnew Hb) as Haw.
  unfold s_path in Hl. rewrite Hid, Hf in Hl.
  pose proof (cf_disk _ _ _ _ _ C) as F. split.
  - split; [done|done| | |].
    + split; [apply F| |done]. unfold s_path. rewrite Hid, Hf. unfold p_env. by rewrite (fr_dir _ _ _ F).
    + intros [?|?]%(cf_live _ _ _ _ _ C); [done|]. unfold p_db in *. lia.
    + pose proof (cf_next _ _ _ _ _ C). unfold p_db in *. lia.
  - split; [by apply (framed_data _ _ _ _ _ F Haw)|]. by apply (fr_file _ _ _ F _ _ Haw).
Qed.

Lemma scan_pause ps nlog cs p :
  scan_inv ps nlog cs p →
  scan_inv ps nlog cs (pause p) ∧ (idle → pause p = p)
  ∧ (∀ key en, fileID en ∈ s_id <$> cands → index (p_db (pause p)) !! key = Some en → index (p_db p) !! key = Some en)
  ∧ same_file ino (e_disk (p_env p)) (e_disk (p_env (pause p))).
Proof using Hms Hu.
  intros [[logs Hp] Hm Hh Hdat Hsz Hok Hput Hrw Hold Hval Hseen Hcov Hidl].
  destruct (pause_spec m Hms cands logs0 idle M0 logs p Hp) as (k & logs' & D & Hpi).
  destruct (merging_drift _ _ _ _ _ _ Hm Hp D) as (Hm' & Hd' & Hsf).
  assert (Hix : ∀ key en, fileID en ∈ s_id <$> cands → index (p_db (pause p)) !! key = Some en → index (p_db p) !! key = Some en)
    by (intros; by eapply drift_index).
  split; [|split; [done|split; [|done]]].
  - split; try done.
    + exists logs'. apply D.
    + by rewrite Hd'.
    + intros r en Hr Hk Hc. eauto.
    + intros key en Hin Hc Hk. eauto.
    + intros Hi. rewrite (Hpi Hi). auto.
  - intros key en Hc Hk. eauto.
Qed.

(** *** The pass's own steps *)

(** If nothing happens meanwhile, the pass sees the database it began with. *)
Definition calm (p p' : pstate) : Prop :=
  idle → p_db p' = p_db p ∧ (quiet (p_env p) → quiet (p_env p')).
#[global] Instance calm_preorder : PreOrder calm.
Proof using Type.
  split; [by split|]. intros p1 p2 p3 H1 H2 Hi. destruct (H1 Hi) as [E1 Q1], (H2 Hi) as [E2 Q2].
  split; [congruence|auto].
Qed.
Lemma calm_pause p : (idle → pause p = p) → calm p (pause p).
Proof using Type. intros H Hi. by rewrite (H Hi). Qed.
Lemma calm_env p e' : (quiet (p_env p) → quiet e') → calm p (with_env e' p).
Proof using Type. by split. Qed.

(** What one step of the scan did. *)
Definition scan_step_post (ps : list (bytes * keydirEntry)) (p : pstate) (r : result unit) (s' : cstate * pstate)
    : Prop :=
  calm p s'.2 ∧
  match r with
  | Ok _ => ∃ nlog, scan_inv ps nlog s'.1 s'.2
  | Err err => (∃ logs, steady logs s'.2) ∧ merging (cs_newSeg s'.1) s'.2 ∧ ¬ (idle ∧ quiet (p_env p))
  end.

(** Calls that leave the disk alone. *)
Lemma with_env_same ns p e' :
  same_disk (p_env p) e' → (∃ logs, steady logs p) → merging ns p →
  (∃ logs, steady logs (with_env e' p)) ∧ merging ns (with_env e' p).
Proof using Hu.
  intros Hsd [logs Hp] [Hid Hf [Hd Hl Hw] Hnew Hb]. destruct Hsd as [Ed Ec]. split.
  - exists logs. eapply steady_env; [done..|]. rewrite Ed. by apply framed_refl.
  - split; try done. cbn. split; [by rewrite Ed|by rewrite Ed|done].
Qed.

Lemma scan_inv_same_disk ps nlog cs p e' :
  same_disk (p_env p) e' → scan_inv ps nlog cs p → scan_inv ps nlog cs (with_env e' p).
Proof using Hu.
  intros Hsd [Hst Hm ? Hdat]. destruct (with_env_same _ _ _ Hsd Hst Hm). split; try done. cbn.
  destruct Hsd as [-> _]. done.
Qed.

Lemma scan_inv_buf ps nlog cs p b : scan_inv ps nlog cs p → scan_inv ps nlog (mkCState (cs_newSeg cs) (cs_rewrites cs) b) p.
Proof using Type. intros []. by split. Qed.

Lemma scan_inv_skip ps nlog cs p q :
  scan_inv ps nlog cs p → (fileID q.2 ∈ s_id <$> cands → index (p_db p) !! q.1 = Some q.2 → False) →
  scan_inv (ps ++ [q]) nlog cs p.
Proof using Type.
  intros [] Hq. split; try done.
  - by apply sublist_inserts_r.
  - intros k en [?|E%list_elem_of_singleton]%elem_of_app Hc Hv; [auto|]. subst q. by destruct Hq.
Qed.

(** The append of a copy. *)
Lemma merged_append ns buf p r ns' e' :
  (∃ logs, steady logs p) → merging ns p → healthy ns → Storage.append ns buf (p_env p) = (r, ns', e') →
  (∃ logs, steady logs (with_env e' p)) ∧ merging ns' (with_env e' p) ∧
  (quiet (p_env p) → quiet e' ∧ is_ok r) ∧
  match r with
  | Ok off => off = s_size ns ∧ healthy ns' ∧ s_size ns' = s_size ns + zlen buf
      ∧ file_data (e_disk e') ino ++ s_pending ns' = (file_data (e_disk (p_env p)) ino ++ s_pending ns) ++ buf
  | Err _ => True
  end.
Proof using Hu.
  intros [logs Hp] [Hid Hf [Hd Hl Hw] Hnew Hb] Hh E.
  assert (Hq : quiet (p_env p) → quiet e' ∧ is_ok r).
  { intros Hq. destruct (append_quiet ns buf (p_env p) Hh Hq) as (x & y & E2 & ?).
    rewrite E2 in E. by injection E as <- <- <-. }
  destruct (append_spec _ _ _ _ _ _ (dk_linked _ Hd _ _ Hl) Hh E) as (Hid' & Hfile' & q & Hap & Hr).
  assert (F : framed (pass_free id) (e_disk (p_env p)) (e_disk e')).
  { eapply appended_seg_framed; [done|exact Hl| |exact Hap]. unfold s_path. rewrite Hid. by intros []. }
  split; [exists logs; by eapply steady_env|]. split; [|split; [done|]].
  - split; [congruence|congruence| |done|done]. cbn. split; [apply F| |destruct r; [left|right]; apply Hr].
    unfold s_path in *. rewrite Hid', Hfile'. by rewrite (app_dir _ _ _ _ Hap).
  - destruct r; [|done]. destruct Hr as (? & ? & Hpend & ?). split; [done|]. split; [done|]. split; [done|].
    rewrite Hf in Hap. by rewrite (app_data _ _ _ _ Hap), <- app_assoc, Hpend, app_assoc.
Qed.

(** ** Copying one record *)

(** Copying a record adds its rewrite; the entry's key may have been overwritten
    meanwhile, but not moved within the candidates. *)
Lemma scan_inv_copied (c : segment) ps nlog cs p ns' e' buf ts k v vp :
  is_i64 ts → key_ok k → value_ok v →
  let en := mkEntry (s_id c) vp (to_u32 (zlen v)) ts in
  let l := LPut ts k v in
  let rw := mkRewrite k en
              (mkEntry (s_id ns') (s_size (cs_newSeg cs) + (recordHeaderSize + zlen k)) (to_u32 (zlen v)) ts) in
  log_value logs0 en = v → scan_inv ps nlog cs p →
  (∀ en', index (p_db p) !! k = Some en' → fileID en' ∈ s_id <$> cands → same_place en' en) →
  (idle → ∃ en', index (p_db p) !! k = Some en' ∧ same_place en' en) →
  (∃ logs, steady logs (with_env e' p)) → merging ns' (with_env e' p) →
  healthy ns' → s_size ns' = s_size (cs_newSeg cs) + zlen (log_image l) →
  file_data (e_disk e') ino ++ s_pending ns'
    = (file_data (e_disk (p_env p)) ino ++ s_pending (cs_newSeg cs)) ++ log_image l →
  scan_inv (ps ++ [(k, en)]) (nlog ++ [l]) (mkCState ns' (cs_rewrites cs ++ [rw]) buf) (with_env e' p).
Proof using Hu.
  intros Hts Hk Hv en l rw Hval [_ Hm0 Hh0 Hdat Hsz Hok Hput Hrw Hold Hvals Hseen Hcov Hidl] Hplace Hidle Hst Hm Hh Hsz' Hdat'.
  assert (Hok' : log_ok l) by done.
  assert (Hid' : s_id ns' = id) by apply Hm.
  assert (Hone : log_images [l] = log_image l) by (unfold log_images; cbn; by rewrite app_nil_r).
  assert (Hnew : logs_updates id 0 (nlog ++ [l]) = (new_update <$> cs_rewrites cs) ++ [new_update rw]).
  { rewrite logs_updates_app, Hrw. unfold new_update at 2, rw. cbn. by rewrite Hsz, Hid'. }
  split; cbn [cs_newSeg cs_rewrites]; try done.
  - cbn. by rewrite Hdat', Hdat, log_images_app, Hone.
  - by rewrite Hsz', Hsz, log_images_app, zlen_app, Hone.
  - apply Forall_app. split; [done|by apply Forall_singleton].
  - by rewrite forallb_app, Hput.
  - by rewrite Hnew, fmap_app.
  - rewrite fmap_app. by apply sublist_app.
  - intros r [Hr|Hr%list_elem_of_singleton]%elem_of_app.
    + destruct (Hvals r Hr) as [H1 H2]. split; [done|]. rewrite log_images_app, entry_value_app; [done|].
      assert (new_update r ∈ logs_updates id 0 nlog) as Hin by (rewrite Hrw; apply list_elem_of_fmap; by exists r).
      by apply (backed_entry _ _ _ _ _ Hok Hin).
    + subst r. split; [done|]. unfold rw. cbn [newEntry oldEntry]. rewrite Hval, Hsz, Hid'.
      pose proof (log_updates_spec (log_images (nlog ++ [l])) (log_images nlog) l [] id Hok') as H2.
      rewrite log_images_app in H2. specialize (H2 eq_refl). rewrite <- log_images_app in H2.
      apply Forall2_cons in H2 as [(_ & _ & H3) _]. cbn in H3. by destruct H3 as (_ & _ & _ & _ & ?).
  - intros r en' [Hr|Hr%list_elem_of_singleton]%elem_of_app Hx Hc; [by eapply Hseen|]. subst r. by apply Hplace.
  - intros k' en' [Hin|Hin%list_elem_of_singleton]%elem_of_app Hc Hx; rewrite fmap_app; apply elem_of_app;
      [left; by apply Hcov|right]. rewrite Hin. by left.
  - intros Hi r [Hr|Hr%list_elem_of_singleton]%elem_of_app; [by apply Hidl|]. subst r. by apply Hidle.
Qed.

Lemma copy_live_spec encm appm (c : segment) ps nlog cs p ts k v vp :
  is_i64 ts → key_ok k → value_ok v →
  let en := mkEntry (s_id c) vp (to_u32 (zlen v)) ts in
  log_value logs0 en = v → scan_inv ps nlog cs p →
  (∃ en', index (p_db p) !! k = Some en' ∧ same_place en' en) →
  wp (copy_live encm appm c (mkRecord ts recordFlagPut k v) vp) (cs, p) (scan_step_post (ps ++ [(k, en)]) p).
Proof using Hms Hu.
  intros Hts Hk Hv en Hval Hs (cur & Hcur & Hplace). unfold wp, copy_live. set (rec := mkRecord ts recordFlagPut k v).
  set (buf := if _ <? _ then _ else _).
  assert (0 <= encodedSize rec) as Hn by (rewrite <- zlen_put_image; apply zlen_nonneg).
  assert (zlen (slice_to buf (encodedSize rec)) = encodedSize rec) as Hb.
  { apply zlen_slice_to. unfold buf. destruct (Z.ltb_spec (zlen (cs_encBuf cs)) (encodedSize rec)); [|lia].
    unfold make_bytes, zlen. rewrite length_replicate. lia. }
  rewrite (encode_record_image rec _ Hk Hv Hb).
  change (put_image rec) with (log_image (LPut ts k v)).
  destruct (scan_pause _ _ _ _ Hs) as (Hs1 & Hpi & Hix & _).
  destruct (append (cs_newSeg cs) (log_image (LPut ts k v)) (p_env (pause p))) as [[r ns] e'] eqn:E.
  destruct (merged_append _ _ _ _ _ _ (sc_steady _ _ _ _ Hs1) (sc_merging _ _ _ _ Hs1) (sc_healthy _ _ _ _ Hs1) E)
    as (Hst & Hm & Hq & Hr).
  destruct r as [off|err]; cbn [fst snd]; (split; [etransitivity; [by apply calm_pause|]; apply calm_env; intros Hqe; by apply Hq|]); cbn [fst snd cs_newSeg].
  2: { split; [done|]. split; [done|]. intros [Hi Hqe]. rewrite (Hpi Hi) in Hq. by apply Hq. }
  destruct Hr as (-> & Hh & Hsz & Hdat). eexists. eapply (scan_inv_copied c ps nlog cs (pause p) ns e' _ ts k v vp); try done.
  - intros en' Hx Hc. apply Hix in Hx; [|done]. rewrite Hcur in Hx. by injection Hx as <-.
  - intros Hi. rewrite (Hpi Hi). by exists cur.
Qed.

Lemma scan_post_from ps p p' r s' :
  calm p p' → scan_step_post ps p' r s' → scan_step_post ps p r s'.
Proof using Type.
  intros Hq [Hq' H]. split; [by etransitivity|]. destruct r; [done|]. destruct H as (? & ? & H).
  split; [done|]. split; [done|]. intros [Hi Hqe]. apply H. split; [done|]. by apply Hq.
Qed.

Lemma copy_if_live_spec encm appm (c : segment) ps nlog cs p ts k v vp :
  is_i64 ts → key_ok k → value_ok v →
  let en := mkEntry (s_id c) vp (to_u32 (zlen v)) ts in
  log_value logs0 en = v → scan_inv ps nlog cs p →
  wp (copy_if_live encm appm c (mkRecord ts recordFlagPut k v) vp) (cs, p)
    (scan_step_post (ps ++ [(k, en)]) p).
Proof using Hms Hu.
  intros Hts Hk Hv en Hval Hs. unfold wp, copy_if_live, is_live. cbn [fst snd rec_key rec_value].
  destruct (scan_pause _ _ _ _ Hs) as (Hs1 & Hpi & _). unfold Keydir.get.
  assert (Hskip : (index (p_db (pause p)) !! k = Some en → False) → scan_step_post (ps ++ [(k, en)]) p (Ok tt) (cs, pause p)).
  { intros Hno. split; [by apply calm_pause|]. exists nlog. apply scan_inv_skip; [done|]. auto. }
  destruct (index (p_db (pause p)) !! k) as [cur|] eqn:Ev; [|by apply Hskip].
  destruct (negb _) eqn:El.
  - assert (Hcur : ∃ en', index (p_db (pause p)) !! k = Some en' ∧ same_place en' en).
    { exists cur. split; [done|]. apply negb_true_iff, orb_false_iff in El as [[E1 E2]%orb_false_iff E3].
      apply negb_false_iff in E1, E2, E3. unfold en, same_place. cbn. lia. }
    eapply scan_post_from; [by apply calm_pause|by apply (copy_live_spec encm appm c ps nlog cs (pause p))].
  - apply Hskip. intros [= ->]. unfold en in El. cbn in El. by rewrite !Z.eqb_refl in El.
Qed.

(** ** Scanning a record, a segment, all candidates *)

(** [d] is decoded from record [ts] of [c], and its location holds its value. *)
Definition decoded_ok (c : segment) (ts : Z) (d : batchEntryDecoded) : Prop :=
  key_ok (bd_key d) ∧ value_ok (bd_value d) ∧ (bd_flag d = recordFlagPut ∨ bd_flag d = recordFlagTombstone) ∧
  (bd_flag d = recordFlagPut →
   log_value logs0 (mkEntry (s_id c) (bd_valuePos d) (to_u32 (zlen (bd_value d))) ts) = bd_value d).

Lemma scan_step_trans ps1 ps2 (f g : CM unit) cs p :
  wp f (cs, p) (scan_step_post ps1 p) →
  (∀ nlog cs' p', scan_inv ps1 nlog cs' p' → wp g (cs', p') (scan_step_post ps2 p')) →
  wp (do! _ := f in g) (cs, p) (scan_step_post ps2 p).
Proof using Type.
  intros H1 H2. apply wp_bind. eapply wp_impl; [exact H1|]. intros r [cs' p'] [Hq H]. cbn [fst snd] in *.
  destruct r as [[]|err]; [|done]. destruct H as [nlog Hs]. eapply wp_impl; [by eapply H2|].
  intros r s' Hr. by eapply scan_post_from.
Qed.

Lemma copy_batch_spec (c : segment) ts ds : ∀ ps nlog cs p,
  is_i64 ts → Forall (decoded_ok c ts) ds → scan_inv ps nlog cs p →
  wp (copy_batch c ts ds) (cs, p)
    (scan_step_post (ps ++ put_entries (batch_update (s_id c) ts <$> ds)) p).
Proof using Hms Hu.
  induction ds as [|d ds IH]; intros ps nlog cs p Hts Hds Hs.
  - split; [done|]. exists nlog. by rewrite app_nil_r.
  - inversion Hds as [|? ? (Hk & Hv & Hf & Hval) Hrest]; subst. cbn [copy_batch].
    assert (put_entries (batch_update (s_id c) ts <$> d :: ds)
      = put_entries [batch_update (s_id c) ts d] ++ put_entries (batch_update (s_id c) ts <$> ds)) as ->.
    { by rewrite <- put_entries_app. }
    rewrite app_assoc. apply (scan_step_trans (ps ++ put_entries [batch_update (s_id c) ts d])).
    + unfold put_entries, put_entry, batch_update. destruct Hf as [Hf|Hf]; rewrite Hf; cbn.
      * eapply copy_if_live_spec; [done|done|done|by apply Hval|done].
      * rewrite app_nil_r. split; [done|]. by exists nlog.
    + intros nlog' cs' p' Hs'. by eapply IH.
Qed.

(** The record [readRecord] yields for a log record. *)
Definition record_of (l : logrec) : record := parsed (log_ts l) (log_flag l) (log_klen l) (log_body l).

Lemma compact_record_spec (c : segment) pre l post ps nlog cs p :
  logs0 (s_id c) = pre ++ l :: post → log_ok l → scan_inv ps nlog cs p →
  wp (compact_record c (zlen (log_images pre)) (record_of l)) (cs, p)
    (scan_step_post (ps ++ put_entries (log_updates (s_id c) (zlen (log_images pre)) l)) p).
Proof using Hms Hu.
  intros Hlogs Hl Hs.
  pose proof (log_updates_spec (log_images (logs0 (s_id c))) (log_images pre) l (log_images post) (s_id c) Hl
    ltac:(by rewrite Hlogs, log_images_app, log_images_cons)) as Hspec.
  destruct l as [ts k v|ts k v|ts es]; unfold compact_record, record_of, parsed.
  - cbn [log_flag log_ts log_body log_klen]. cbn [rec_flag rec_key rec_value rec_tstamp Z.eqb recordFlagPut recordFlagTombstone recordFlagBatch].
    rewrite slice_to_app, slice_from_app by done. destruct Hl as [Hts [Hk Hv]].
    apply Forall2_cons in Hspec as [(_ & _ & Hx) _]. cbn in Hx. destruct Hx as (_ & _ & _ & _ & Hval).
    eapply copy_if_live_spec; [done|done|done| |done]. done.
  - cbn. rewrite app_nil_r. split; [done|]. by exists nlog.
  - cbn [log_flag log_ts log_body log_klen]. cbn [rec_flag rec_key rec_value rec_tstamp Z.eqb recordFlagPut recordFlagTombstone recordFlagBatch Pos.eqb].
    destruct Hl as [Hts (Hes & Hn & Hb)]. rewrite (decodeBatchBody_image es _ Hes Hn).
    apply (copy_batch_spec c ts _ ps nlog); [exact Hts| |done].
    cbn [log_keys log_values log_updates log_ts] in Hspec. clear Hb Hn Hlogs Hts. revert Hspec.
    generalize (zlen (log_images pre) + zlen (log_image (LBatch ts es))) as hi. generalize 4 as off.
    induction Hes as [|x es Hx Hes IH]; intros off hi Hspec; [constructor|].
    cbn [decoded_entries fmap list_fmap zip zip_with] in *. apply Forall2_cons in Hspec as [Hx2 Hspec].
    constructor; [|by eapply IH]. destruct (entry_image_size x Hx) as (_ & Hk & Hv).
    split; [done|]. split; [done|]. cbn [bd_flag bd_key bd_value bd_valuePos]. unfold entry_flag in *.
    split; [destruct (be_Delete x); auto|]. intros Hf. destruct Hx2 as (_ & _ & Hx2).
    unfold batch_update in Hx2. unfold entry_value in *. cbn in Hx2.
    destruct (be_Delete x); [done|]. cbn in Hx2. by destruct Hx2 as (_ & _ & _ & _ & ?).
Qed.

(** A candidate's file holds its log, whatever the writer does. *)
Lemma candidate_file p c :
  (∃ logs, steady logs p) → c ∈ cands →
  file_data (e_disk (p_env p)) (s_file c) = log_images (logs0 (s_id c))
  ∧ s_size c = zlen (log_images (logs0 (s_id c))) ∧ Forall log_ok (logs0 (s_id c)).
Proof using Type.
  intros [logs Hp] Hc. destruct (sd_cands _ _ _ _ _ _ _ Hp c Hc) as [[Hsl Hne] <-].
  destruct (di_seg _ _ _ _ (sd_inv _ _ _ _ _ _ _ Hp) _ _ Hsl) as [_ _ _ Hok Hd]. cbn zeta in Hd.
  rewrite decide_False in Hd by done. destruct Hd as (_ & -> & ->). done.
Qed.

Lemma seg_readRecord_spec (c : segment) pre post p :
  (∃ logs, steady logs p) → c ∈ cands → logs0 (s_id c) = pre ++ post →
  ∃ r e', seg_readRecord c (zlen (log_images pre)) (p_env p) = (r, e') ∧ same_disk (p_env p) e'
  ∧ (quiet (p_env p) → quiet e') ∧
  match r with
  | Ok (rec, n) => ∃ l post', post = l :: post' ∧ rec = record_of l ∧ n = zlen (log_image l)
  | Err err => if errors_Is err io_EOF then post = [] else ¬ quiet (p_env p)
  end.
Proof using Type.
  intros Hp Hc Hlogs. destruct (candidate_file p c Hp Hc) as (Hd & Hsz & Hok). unfold seg_readRecord.
  set (e := p_env p) in *.
  assert (Hdat : slice (file_data (e_disk e) (s_file c)) (zlen (log_images pre)) (s_size c) = log_images post).
  { rewrite Hd, Hsz, Hlogs, log_images_app, zlen_app. by apply slice_last. }
  assert (Hrd : match post with
    | [] => readRecord (log_images post) = (Err (ESentinel io_EOF), 0, [])
    | l :: post' => readRecord (log_images post) = (Ok (record_of l), zlen (log_image l), log_images post')
    end).
  { destruct post as [|l post]; [done|]. rewrite log_images_cons, log_image_eq.
    rewrite Hlogs in Hok. apply Forall_app in Hok as [_ Hok]. inversion Hok as [|? ? Hl _]; subst.
    destruct (log_header_ok l Hl). rewrite readRecord_image; [|by apply log_ok_i64|done|done|apply log_body_len].
    rewrite zlen_record_image. done. }
  unfold sys. cbn zeta.
  destruct (e_faults e) as [|[k|] fs] eqn:Ef; rewrite ?Hdat.
  2: { eexists _, _. split; [reflexivity|]. split; [done|].
       split; [by intros Hq; unfold quiet in Hq; rewrite Ef in Hq|]. cbn.
       intros Hq. unfold quiet in Hq. by rewrite Ef in Hq. }
  all: destruct post as [|l post]; rewrite Hrd; eexists _, _; (split; [reflexivity|]); (split; [done|]);
    (split; [by unfold quiet; rewrite ?Ef|]); [done|by exists l, post].
Qed.

Lemma compact_loop_spec (c : segment) : c ∈ cands → ∀ post pre fuel ps nlog cs p,
  logs0 (s_id c) = pre ++ post → (length post < fuel)%nat → scan_inv ps nlog cs p →
  wp (compact_loop fuel c (zlen (log_images pre))) (cs, p)
    (scan_step_post (ps ++ put_entries (logs_updates (s_id c) (zlen (log_images pre)) post)) p).
Proof using Hms Hu.
  intros Hc. induction post as [|l post IH]; intros pre fuel ps nlog cs p Hlogs Hfuel Hs;
    (destruct fuel as [|fuel]; [cbn in Hfuel; lia|]); unfold wp; cbn [compact_loop fst snd];
    destruct (scan_pause _ _ _ _ Hs) as (Hs1 & Hpi & _);
    destruct (seg_readRecord_spec c pre _ _ (sc_steady _ _ _ _ Hs1) Hc Hlogs) as (r & e1 & -> & Hsd & Hq1 & Hr);
    pose proof (scan_inv_same_disk _ _ _ _ _ Hsd Hs1) as Hs2;
    apply (scan_post_from _ _ (pause p)); try by apply calm_pause.
  - destruct r as [[rec n]|err].
    + destruct Hr as (l & post' & [=] & _).
    + destruct (errors_Is err io_EOF); cbn [fst snd].
      * split; [by apply calm_env|]. exists nlog. cbn [logs_updates]. by rewrite app_nil_r.
      * split; [by apply calm_env|]. split; [apply Hs2|]. split; [apply Hs2|]. by intros [_ ?].
  - destruct r as [[rec n]|err].
    2: { destruct (errors_Is err io_EOF); [done|]. cbn [fst snd]. split; [by apply calm_env|].
         split; [apply Hs2|]. split; [apply Hs2|]. by intros [_ ?]. }
    destruct Hr as (l' & post' & [= <- <-] & -> & ->).
    destruct (candidate_file _ _ (sc_steady _ _ _ _ Hs2) Hc) as (_ & _ & Hok). rewrite Hlogs in Hok.
    apply Forall_app in Hok as [_ Hok]. apply Forall_cons in Hok as [Hl _].
    pose proof (compact_record_spec c pre l post ps nlog cs _ Hlogs Hl Hs2) as Hrec. unfold wp in Hrec.
    destruct (compact_record c (zlen (log_images pre)) (record_of l) (cs, with_env e1 (pause p))) as [r2 [cs2 p2]].
    apply (scan_post_from _ (pause p)) in Hrec; [|by apply calm_env].
    destruct Hrec as [Hq2 Hr2]. destruct r2 as [[]|err]; [|by split]. destruct Hr2 as [nlog2 Hs3]. cbn [fst snd] in *.
    specialize (IH (pre ++ [l]) fuel (ps ++ put_entries (log_updates (s_id c) (zlen (log_images pre)) l)) nlog2 cs2 p2
      ltac:(by rewrite <- app_assoc) ltac:(cbn in Hfuel; lia) Hs3).
    assert (Hoff : zlen (log_images (pre ++ [l])) = zlen (log_images pre) + zlen (log_image l)).
    { rewrite log_images_app, zlen_app. unfold log_images at 2. cbn. by rewrite app_nil_r. }
    rewrite Hoff in IH. cbn [logs_updates]. rewrite put_entries_app, app_assoc.
    eapply scan_post_from; [exact Hq2|exact IH].
Qed.

Lemma length_log_images ls : Z.of_nat (length ls) <= zlen (log_images ls).
Proof using Type.
  induction ls as [|l ls IH]; [done|]. rewrite log_images_cons, zlen_app.
  pose proof (log_image_nonempty l). cbn [length]. lia.
Qed.

Lemma compactSegmentInto_spec (c : segment) ps nlog cs p :
  c ∈ cands → scan_inv ps nlog cs p →
  wp (compactSegmentInto c) (cs, p) (scan_step_post (ps ++ put_entries (all_updates logs0 (s_id c))) p).
Proof using Hms Hu.
  intros Hc Hs. unfold compactSegmentInto. destruct (candidate_file _ _ (sc_steady _ _ _ _ Hs) Hc) as (_ & Hsz & _).
  apply (compact_loop_spec c Hc (logs0 (s_id c)) [] (scan_fuel c) ps nlog cs p eq_refl); [|done].
  unfold scan_fuel. rewrite Hsz. pose proof (length_log_images (logs0 (s_id c))). lia.
Qed.

Lemma compact_segments_spec cs0 : ∀ ps nlog cs p,
  Forall (λ c, c ∈ cands) cs0 → scan_inv ps nlog cs p →
  wp (compact_segments cs0) (cs, p)
    (scan_step_post (ps ++ concat ((λ c, put_entries (all_updates logs0 (s_id c))) <$> cs0)) p).
Proof using Hms Hu.
  induction cs0 as [|c cs0 IH]; intros ps nlog cs p Hcs Hs.
  - split; [done|]. exists nlog. cbn. by rewrite app_nil_r.
  - apply Forall_cons in Hcs as [Hc Hrest]. cbn [compact_segments fmap list_fmap concat]. rewrite app_assoc.
    eapply scan_step_trans; [by eapply compactSegmentInto_spec|]. intros nlog' cs' p' Hs'. by eapply IH.
Qed.
End scan.
