(* ===== verification/Commit.v ===== *)
(** * The compaction commit keeps the map

    What a commit must bring along, and the proof that the writer's
    [handleCompactCommit] then replaces the candidates by the merged segment
    without any visible change, whichever calls fail. *)
From S2P Require Import Prelude LogRecord Keydir Hint Storage Frame Names Publish Manifest HintFile Log Recovery Db Invariant Confined WritePath Rotation Compact Engine Compactor Writes Meanwhile Scan.


(** The merged segment: a sealed file holding copies of candidates' records,
    one rewrite each, among them the current one of every key that is still in
    a candidate. *)
Record merged_ok (m : mode) (logs : logmap) (nlog : list logrec) (db : DB) (e : env) (cc : compactCommit)
    (ns : segment) : Prop := {
  mo_u32 : is_u32 (s_id ns);
  mo_new : ¬ is_live_id db (s_id ns);
  mo_linked : d_dir (e_disk e) !! segmentFilename (s_id ns) = Some (s_file ns);
  mo_clean : clean ns;
  mo_size : s_size ns = zlen (log_images nlog);
  mo_data : file_data (e_disk e) (s_file ns) = log_images nlog;
  mo_logs : Forall log_ok nlog;
  mo_put : forallb is_put nlog = true;
  mo_rw : logs_updates (s_id ns) 0 nlog = new_update <$> rewrites cc;
  mo_val : ∀ r, r ∈ rewrites cc → tstamp (newEntry r) = tstamp (oldEntry r)
    ∧ entry_value_in (log_images nlog) (newEntry r) = log_value logs (oldEntry r);
  mo_from : ∀ r, r ∈ rewrites cc → fileID (oldEntry r) ∈ candidate_ids cc
    ∧ mkUpdate (rw_key r) (tstamp (oldEntry r)) (Some (oldEntry r)) ∈ all_updates logs (fileID (oldEntry r));
  mo_once : NoDup (old_pair <$> rewrites cc);
  mo_current : ∀ r en, r ∈ rewrites cc → index db !! rw_key r = Some en → fileID en ∈ candidate_ids cc → oldEntry r = en;
  mo_stored : m_stored m = true → s_id ns < nextID db ∧ hint_harmless (e_disk e) ns nlog;
  mo_synced : m_durable m = true → file_synced (e_disk e) (s_file ns) = file_data (e_disk e) (s_file ns)
    ∧ settled (e_disk e) (hintFilename (s_id ns));
}.

Record commit_ok (m : mode) (logs : logmap) (nlog : list logrec) (db : DB) (e : env) (cc : compactCommit) : Prop := {
  co_old : ∀ s, s ∈ oldSegs cc → segs db !! s_id s = Some s ∧ active db ≠ Some (s_id s);
  co_cover : ∀ k en, index db !! k = Some en → fileID en ∈ candidate_ids cc → (k, en) ∈ old_pair <$> rewrites cc;
  co_merged : match newSeg cc with Some ns => merged_ok m logs nlog db e cc ns | None => rewrites cc = [] end;
}.

(** ** The index *)

Lemma lookup_rewrites rws : ∀ (kd : keydir) k,
  (∀ r r', r ∈ rws → r' ∈ rws → newEntry r ≠ oldEntry r') →
  (∃ r, r ∈ rws ∧ rw_key r = k ∧ kd !! k = Some (oldEntry r) ∧ apply_rewrites kd rws !! k = Some (newEntry r))
  ∨ ((∀ r, r ∈ rws → rw_key r = k → kd !! k ≠ Some (oldEntry r)) ∧ apply_rewrites kd rws !! k = kd !! k).
Proof.
  induction rws as [|r rws IH]; intros kd k Hne; [right; split; [by intros r ?%not_elem_of_nil|done]|].
  unfold apply_rewrites in *. cbn [foldl].
  assert (Hne' : ∀ r r', r ∈ rws → r' ∈ rws → newEntry r ≠ oldEntry r') by (intros; apply Hne; by right).
  assert (Hcas : (compareAndSwap kd (rw_key r) (oldEntry r) (newEntry r)).2
    = if decide (kd !! rw_key r = Some (oldEntry r)) then <[rw_key r := newEntry r]> kd else kd).
  { unfold compareAndSwap. destruct (kd !! rw_key r) as [x|]; [|by rewrite decide_False].
    destruct (decide (x = oldEntry r)) as [->|]; [by rewrite decide_True|]. rewrite decide_False; [done|congruence]. }
  rewrite Hcas. destruct (decide (kd !! rw_key r = Some (oldEntry r))) as [E|E].
  - destruct (decide (rw_key r = k)) as [<-|Hk].
    + left. exists r. split; [by left|]. split; [done|]. split; [done|].
      destruct (IH (<[rw_key r := newEntry r]> kd) (rw_key r) Hne') as [(r' & Hr' & _ & E' & _)|[_ ->]];
        [|by rewrite lookup_insert_eq].
      rewrite lookup_insert_eq in E'. injection E' as E'. exfalso. apply (Hne r r'); [by left|by right|done].
    + destruct (IH (<[rw_key r := newEntry r]> kd) k Hne') as [(r' & Hr' & Hk' & E' & R)|[H R]];
        rewrite R, lookup_insert_ne in * by done; [left|right].
      * exists r'. split; [by right|]. done.
      * split; [|done]. intros r' [->|Hr']%elem_of_cons Hk'; [done|auto].
  - destruct (IH kd k Hne') as [(r' & Hr' & Hk' & E' & R)|[H R]]; [left|right].
    + exists r'. split; [by right|]. done.
    + split; [|done]. intros r' [->|Hr']%elem_of_cons Hk'; [congruence|auto].
Qed.

(** ** The segments map *)

Definition commit_segs (db : DB) (cc : compactCommit) : gmap Z segment :=
  foldl (λ m s, base.delete (s_id s) m)
    (match newSeg cc with Some ns => <[s_id ns := ns]> (segs db) | None => segs db end) (oldSegs cc).

Lemma lookup_foldl_delete (olds : list segment) : ∀ (m : gmap Z segment) i,
  foldl (λ m s, base.delete (s_id s) m) m olds !! i = if decide (i ∈ s_id <$> olds) then None else m !! i.
Proof.
  induction olds as [|s olds IH]; intros m i; [done|]. cbn [foldl fmap list_fmap]. rewrite IH.
  destruct (decide (i = s_id s)) as [->|Hne].
  - rewrite lookup_delete_eq, (decide_True _ _ (list_elem_of_here _ _)). by case_decide.
  - rewrite lookup_delete_ne by done. destruct (decide (i ∈ s_id <$> olds)) as [Hin|Hin].
    + rewrite decide_True; [done|by right].
    + rewrite decide_False; [done|]. by intros [?|?]%elem_of_cons.
Qed.

Lemma lookup_commit_segs db cc i s :
  commit_segs db cc !! i = Some s ↔
  (i ∉ candidate_ids cc) ∧ ((∃ ns, newSeg cc = Some ns ∧ i = s_id ns ∧ s = ns)
                     ∨ ((∀ ns, newSeg cc = Some ns → i ≠ s_id ns) ∧ segs db !! i = Some s)).
Proof.
  unfold commit_segs. rewrite lookup_foldl_delete. unfold candidate_ids.
  case_decide as Hd; [naive_solver|]. destruct (newSeg cc) as [ns|].
  - rewrite lookup_insert_Some. naive_solver.
  - naive_solver.
Qed.

(** ** The committed state *)

Lemma merged_framed (P : bytes → Prop) m logs nlog db e e' cc ns :
  framed P (e_disk e) (e_disk e') → P (segmentFilename (s_id ns)) → P (hintFilename (s_id ns)) →
  merged_ok m logs nlog db e cc ns → merged_ok m logs nlog db e' cc ns.
Proof.
  intros F Hs Hh []. split; try done.
  - by rewrite (fr_dir _ _ _ F).
  - by rewrite (framed_data _ _ _ _ _ F Hs mo_linked0).
  - intros Hm. destruct (mo_stored0 Hm). split; [done|]. by eapply hint_harmless_framed.
  - intros Hm. destruct (mo_synced0 Hm) as [S H]. split; [|by eapply framed_settled].
    destruct (fr_file _ _ _ F _ _ Hs mo_linked0) as [D [E|E]]; [|done]. by rewrite E, D.
Qed.

(** Every merged record was in a candidate's log. *)
Lemma merged_ts m logs nlog db e cc ns l :
  db_inv m logs db e → (∀ s, s ∈ oldSegs cc → segs db !! s_id s = Some s) →
  merged_ok m logs nlog db e cc ns → l ∈ nlog → log_ts l <= lastTstamp db.
Proof.
  intros Hi Hold Hm Hl.
  assert (Hu : ∃ u, u ∈ logs_updates (s_id ns) 0 nlog ∧ u_ts u = log_ts l).
  { pose proof (mo_put _ _ _ _ _ _ _ Hm) as Hput. generalize 0. clear -Hl Hput.
    induction nlog as [|l' ls IH]; intros start; [by apply not_elem_of_nil in Hl|].
    cbn in Hput. apply andb_true_iff in Hput as [H1 H2]. cbn [logs_updates]. apply elem_of_cons in Hl as [<-|Hl].
    - destruct l; [|done..]. eexists. split; [by left|done].
    - destruct (IH Hl H2 (start + zlen (log_image l'))) as (u & ? & ?). exists u. split; [|done].
      apply elem_of_app. by right. }
  destruct Hu as (u & Hu & <-). rewrite (mo_rw _ _ _ _ _ _ _ Hm) in Hu.
  apply list_elem_of_fmap in Hu as (r & -> & Hr). cbn. destruct (mo_val _ _ _ _ _ _ _ Hm r Hr) as [-> _].
  destruct (mo_from _ _ _ _ _ _ _ Hm r Hr) as [Hc Hin]. apply all_updates_ts in Hin as (l' & Hl' & E).
  cbn in E. rewrite E. apply (di_ts _ _ _ _ Hi (fileID (oldEntry r))); [|done].
  unfold candidate_ids in Hc. apply list_elem_of_fmap in Hc as (s & E' & Hs). rewrite E'. exists s. auto.
Qed.

Definition committed_logs (logs : logmap) (nlog : list logrec) (cc : compactCommit) : logmap :=
  match newSeg cc with Some ns => upd logs (s_id ns) nlog | None => logs end.
(** A commit ends [exact], and durability when the manifest's is uncertain. *)
Definition demoted (m : mode) (uncertain : bool) : mode :=
  mkMode (m_stored m) (m_durable m && negb uncertain) false (m_newest m).

Section commit.
Context (m : mode) (logs : logmap) (nlog : list logrec) (db : DB) (e : env) (cc : compactCommit) (a : Z).
Context (Hi : db_inv m logs (set_writesDisabled db) e) (Hms : m_stored m = true).
Context (Hact : active db = Some a) (Hcc : commit_ok m logs nlog db e cc).
Let logs' : logmap := committed_logs logs nlog cc.

Lemma cand_live id : id ∈ candidate_ids cc → is_live_id db id ∧ active db ≠ Some id.
Proof using Hcc.
  unfold candidate_ids. intros (s & -> & Hs)%list_elem_of_fmap. destruct (co_old _ _ _ _ _ _ Hcc s Hs). split; [by exists s|done].
Qed.

Lemma merged_of ns : newSeg cc = Some ns → merged_ok m logs nlog db e cc ns.
Proof using Hcc. intros E. pose proof (co_merged _ _ _ _ _ _ Hcc) as H. by rewrite E in H. Qed.

Lemma rewrites_of r : r ∈ rewrites cc → ∃ ns, newSeg cc = Some ns.
Proof using Hcc.
  intros Hr. pose proof (co_merged _ _ _ _ _ _ Hcc) as H. destruct (newSeg cc); [by eexists|].
  rewrite H in Hr. by apply not_elem_of_nil in Hr.
Qed.

Lemma new_entry_id r ns : r ∈ rewrites cc → newSeg cc = Some ns → fileID (newEntry r) = s_id ns.
Proof using Hcc.
  intros Hr E. pose proof (merged_of ns E) as Hm.
  assert (new_update r ∈ logs_updates (s_id ns) 0 nlog) as Hin.
  { rewrite (mo_rw _ _ _ _ _ _ _ Hm). apply list_elem_of_fmap. by exists r. }
  by apply (backed_entry _ _ _ _ _ (mo_logs _ _ _ _ _ _ _ Hm) Hin).
Qed.

Lemma live_commit id :
  is_live_id (commit_publish cc db) id ↔
  (is_live_id db id ∧ id ∉ candidate_ids cc) ∨ ∃ ns, newSeg cc = Some ns ∧ id = s_id ns.
Proof using Hcc.
  unfold is_live_id. change (segs (commit_publish cc db)) with (commit_segs db cc). split.
  - intros [s Hs]. apply lookup_commit_segs in Hs as [Hc [(ns & ? & ? & _)|[_ Hs]]]; [right; by exists ns|].
    left. split; [by exists s|done].
  - intros [[[s Hs] Hc]|(ns & E & ->)].
    + exists s. apply lookup_commit_segs. split; [done|]. right. split; [|done]. intros ns E ->.
      apply (mo_new _ _ _ _ _ _ _ (merged_of ns E)). by exists s.
    + exists ns. apply lookup_commit_segs. split; [|left; by exists ns].
      intros [Hl _]%cand_live. by apply (mo_new _ _ _ _ _ _ _ (merged_of ns E)).
Qed.

Lemma committed_logs_old id : is_live_id db id → logs' id = logs id.
Proof using Hcc.
  intros Hl. unfold logs', committed_logs. destruct (newSeg cc) as [ns|] eqn:E; [|done].
  rewrite upd_ne; [done|]. intros ->. by apply (mo_new _ _ _ _ _ _ _ (merged_of ns E)).
Qed.
Lemma committed_logs_new ns : newSeg cc = Some ns → logs' (s_id ns) = nlog.
Proof using Type. intros E. unfold logs', committed_logs. rewrite E. apply upd_eq. Qed.

Lemma lookup_committed k en :
  index (commit_publish cc db) !! k = Some en →
  (index db !! k = Some en ∧ fileID en ∉ candidate_ids cc)
  ∨ ∃ r, r ∈ rewrites cc ∧ rw_key r = k ∧ en = newEntry r ∧ index db !! k = Some (oldEntry r).
Proof using Hcc.
  change (index (commit_publish cc db)) with (apply_rewrites (index db) (rewrites cc)).
  destruct (lookup_rewrites (rewrites cc) (index db) k) as [(r & Hr & Hk & E & ->)|[H ->]].
  - intros r r' Hr Hr' E. destruct (rewrites_of r Hr) as [ns Hns].
    pose proof (new_entry_id r ns Hr Hns) as E1. pose proof (merged_of ns Hns) as Hm.
    destruct (mo_from _ _ _ _ _ _ _ Hm r' Hr') as [Hc _]. rewrite <- E, E1 in Hc.
    apply cand_live in Hc as [Hl _]. by apply (mo_new _ _ _ _ _ _ _ Hm).
  - intros [= <-]. right. by exists r.
  - intros E. left. split; [done|]. intros Hc. pose proof (co_cover _ _ _ _ _ _ Hcc k en E Hc) as Hin.
    apply list_elem_of_fmap in Hin as (r & [= -> ->] & Hr). by apply (H r Hr).
Qed.

(** The copy of a current entry is the only update of its key in the merged log. *)
Lemma merged_once r r' ns pre post :
  newSeg cc = Some ns → r ∈ rewrites cc → index db !! rw_key r = Some (oldEntry r) →
  rewrites cc = pre ++ r :: post → r' ∈ pre ++ post → rw_key r' ≠ rw_key r.
Proof using Hcc.
  intros E Hr Hidx Hsplit Hr' Hk. pose proof (merged_of ns E) as Hm.
  assert (Hr'' : r' ∈ rewrites cc).
  { rewrite Hsplit. apply elem_of_app in Hr' as [?|?]; apply elem_of_app; [by left|right; by right]. }
  assert (oldEntry r' = oldEntry r) as Ho.
  { apply (mo_current _ _ _ _ _ _ _ Hm r' (oldEntry r) Hr''); [by rewrite Hk|].
    apply (mo_from _ _ _ _ _ _ _ Hm r Hr). }
  pose proof (mo_once _ _ _ _ _ _ _ Hm) as Hnd. rewrite Hsplit, fmap_app in Hnd. cbn in Hnd.
  apply NoDup_app in Hnd as (_ & Hdis & Hnd). apply NoDup_cons in Hnd as [Hn _].
  assert (old_pair r' = old_pair r) as Hp by (unfold old_pair; by rewrite Hk, Ho).
  apply elem_of_app in Hr' as [Hp'|Hp'].
  - apply (Hdis (old_pair r)); [rewrite <- Hp; apply list_elem_of_fmap; by exists r'|by left].
  - apply Hn. rewrite <- Hp. apply list_elem_of_fmap. by exists r'.
Qed.

Lemma all_updates_new ns : newSeg cc = Some ns → all_updates logs' (s_id ns) = new_update <$> rewrites cc.
Proof using Hcc.
  intros E. unfold all_updates. rewrite (committed_logs_new ns E). apply (mo_rw _ _ _ _ _ _ _ (merged_of ns E)).
Qed.
Lemma all_updates_old id : is_live_id db id → all_updates logs' id = all_updates logs id.
Proof using Hcc. intros Hl. unfold all_updates. by rewrite (committed_logs_old id Hl). Qed.

Lemma commit_winner k en :
  index (commit_publish cc db) !! k = Some en →
  is_live_id (commit_publish cc db) (fileID en) ∧ winner (m_newest m) logs' (is_live_id (commit_publish cc db)) k en.
Proof using Hi Hcc.
  intros H. apply lookup_committed in H as [[E Hc]|(r & Hr & <- & -> & E)];
    destruct (di_index _ _ _ _ Hi _ _ E) as [Hl [W O]]; change (is_live_id db) with (is_live_id (set_writesDisabled db)) in *.
  - split; [apply live_commit; by left|]. split; [by rewrite all_updates_old|].
    intros id u Hlid Hne Hu Hk. apply live_commit in Hlid as [[Hlid _]|(ns & Ens & ->)].
    + rewrite (all_updates_old id Hlid) in Hu. by eapply O.
    + rewrite (all_updates_new ns Ens) in Hu. apply list_elem_of_fmap in Hu as (r & -> & Hr).
      pose proof (merged_of ns Ens) as Hm. cbn. destruct (mo_val _ _ _ _ _ _ _ Hm r Hr) as [-> _].
      destruct (mo_from _ _ _ _ _ _ _ Hm r Hr) as [Hcr Hin]. cbn in Hk. subst k.
      eapply (O _ _ _ _ Hin); [done]. Unshelve. apply cand_live, Hcr. intros E2. by rewrite E2 in Hcr.
  - destruct (rewrites_of r Hr) as [ns Ens]. pose proof (merged_of ns Ens) as Hm.
    rewrite (new_entry_id r ns Hr Ens). destruct (mo_val _ _ _ _ _ _ _ Hm r Hr) as [Et _].
    split; [apply live_commit; right; by exists ns|]. split.
    + rewrite (new_entry_id r ns Hr Ens), (all_updates_new ns Ens).
      destruct (list_elem_of_split _ _ Hr) as (pre & post & Hsplit). rewrite Hsplit, fmap_app.
      exists (new_update <$> pre), (new_update <$> post). split; [done|].
      split; intros u (r' & -> & Hr')%list_elem_of_fmap Hk; exfalso;
        (eapply (merged_once r r' ns pre post); [done..| |exact Hk]); apply elem_of_app; auto.
    + intros id u Hlid Hne Hu Hk. rewrite Et. rewrite (new_entry_id r ns Hr Ens) in Hne.
      apply live_commit in Hlid as [[Hlid Hcid]|(ns' & Ens' & ->)]; [|congruence].
      rewrite (all_updates_old id Hlid) in Hu. apply (O id u Hlid); [|done|done].
      intros ->. apply Hcid. apply (mo_from _ _ _ _ _ _ _ Hm r Hr).
Qed.

Lemma commit_segs_inv i s : segs (commit_publish cc db) !! i = Some s →
  (i ∉ candidate_ids cc) ∧ ((∃ ns, newSeg cc = Some ns ∧ i = s_id ns ∧ s = ns) ∨ segs db !! i = Some s).
Proof using Type.
  change (segs (commit_publish cc db)) with (commit_segs db cc). intros H.
  apply lookup_commit_segs in H as [Hc [?|[_ ?]]]; auto.
Qed.

Lemma commit_seg_inv i s : segs (commit_publish cc db) !! i = Some s → seg_inv logs' (active db) e i s.
Proof using Hi Hcc.
  intros [Hc [(ns & E & -> & ->)|Hs]]%commit_segs_inv.
  - pose proof (merged_of ns E) as []. split; [done|done|done|by rewrite committed_logs_new|].
    cbn zeta. rewrite decide_False; [|].
    + split; [done|]. by rewrite (committed_logs_new ns E), mo_data0.
    + intros Ha. apply mo_new0. destruct (di_active _ _ _ _ Hi) as (a' & s & Ha' & Hs). exists s.
      cbn in Ha'. rewrite Ha in Ha'. by injection Ha' as <-.
  - destruct (di_seg _ _ _ _ Hi _ _ Hs). assert (is_live_id db i) as Hl by by exists s.
    split; [done|done|done| |]; rewrite (committed_logs_old i Hl); done.
Qed.

Lemma live_ids_commit : live_ids (commit_publish cc db) ≡ₚ commit_live db cc.
Proof using Hcc.
  assert (Hnd : ∀ x, NoDup (live_ids x)) by (intros x; unfold live_ids; apply NoDup_elements).
  apply NoDup_Permutation; [apply Hnd| |].
  - unfold commit_live. apply NoDup_app. split; [apply NoDup_filter, Hnd|]. split.
    + intros id [Hc Hl]%list_elem_of_filter. destruct (newSeg cc) as [ns|] eqn:E; [|apply not_elem_of_nil].
      intros ->%list_elem_of_singleton. apply elem_of_live_ids in Hl. by apply (mo_new _ _ _ _ _ _ _ (merged_of ns E)).
    + destruct (newSeg cc); [apply NoDup_singleton|constructor].
  - intros id. rewrite elem_of_live_ids, live_commit. unfold commit_live. rewrite elem_of_app, list_elem_of_filter, elem_of_live_ids.
    destruct (newSeg cc) as [ns|]; [rewrite list_elem_of_singleton|rewrite elem_of_nil]; naive_solver.
Qed.

Lemma commit_index_value k en en' :
  index db !! k = Some en → index (commit_publish cc db) !! k = Some en' → log_value logs' en' = log_value logs en.
Proof using Hi Hcc.
  intros E E'. apply lookup_committed in E' as [[E' Hc]|(r & Hr & <- & -> & E')]; rewrite E in E'; injection E' as ->.
  - destruct (di_index _ _ _ _ Hi _ _ E) as [Hl _]. unfold log_value. by rewrite (committed_logs_old _ Hl).
  - destruct (rewrites_of r Hr) as [ns Ens]. unfold log_value at 1.
    rewrite (new_entry_id r ns Hr Ens), (committed_logs_new ns Ens).
    apply (mo_val _ _ _ _ _ _ _ (merged_of ns Ens) r Hr).
Qed.

Lemma commit_index_dom k : index (commit_publish cc db) !! k = None ↔ index db !! k = None.
Proof using Hcc.
  split; intros H.
  - destruct (index db !! k) as [en|] eqn:E; [|done]. exfalso.
    change (index (commit_publish cc db)) with (apply_rewrites (index db) (rewrites cc)) in H.
    destruct (lookup_rewrites (rewrites cc) (index db) k) as [(r & _ & _ & _ & ?)|[_ ?]]; [|congruence..].
    intros r r' Hr Hr' E'. destruct (rewrites_of r Hr) as [ns Hns].
    destruct (mo_from _ _ _ _ _ _ _ (merged_of ns Hns) r' Hr') as [Hc _].
    rewrite <- E', (new_entry_id r ns Hr Hns) in Hc. apply cand_live in Hc as [Hl _].
    by apply (mo_new _ _ _ _ _ _ _ (merged_of ns Hns)).
  - destruct (index (commit_publish cc db) !! k) as [en|] eqn:E; [|done].
    apply lookup_committed in E as [[E _]|(r & _ & _ & _ & E)]; congruence.
Qed.

Section publish.
Context (unc : bool) (Hman : manifest_of (e_disk e) = Ok (canonical (commit_live db cc), a)).
Context (Hdur : m_durable m = true → unc = false → settled (e_disk e) manifestFilename
  ∧ ∀ ns, newSeg cc = Some ns → named (e_disk e) (segmentFilename (s_id ns))).

Lemma commit_stored : stored logs' (commit_publish cc db) e.
Proof using Hi Hms Hact Hcc Hman.
  destruct (di_stored _ _ _ _ Hi Hms) as [_ N B H]. split.
  - intros b _ Hb. cbn in Hb. rewrite Hact in Hb. injection Hb as <-.
    by rewrite (canonical_perm _ _ live_ids_commit).
  - done.
  - intros id Hu [Hl|Hh]; [|by apply B; auto]. apply live_commit in Hl as [[Hl _]|(ns & E & ->)]; [apply B; auto|].
    by apply (mo_stored _ _ _ _ _ _ _ (merged_of ns E)).
  - intros id s [Hc [(ns & E & -> & ->)|Hs]]%commit_segs_inv; change (active (commit_publish cc db)) with (active db).
    + pose proof (merged_of ns E) as Hm. rewrite decide_False.
      * rewrite (committed_logs_new ns E). by apply (mo_stored _ _ _ _ _ _ _ Hm).
      * intros Ha. apply (mo_new _ _ _ _ _ _ _ Hm). destruct (di_active _ _ _ _ Hi) as (a' & s & Ha' & Hs).
        exists s. cbn in Ha'. rewrite Ha in Ha'. by injection Ha' as <-.
    + assert (is_live_id db id) as Hl by by exists s. rewrite (committed_logs_old id Hl). by apply H.
Qed.

Lemma commit_durable : m_durable m = true → unc = false → durable (commit_publish cc db) e.
Proof using Hi Hms Hact Hcc Hman Hdur.
  intros Hm Hun. destruct (di_durable _ _ _ _ Hi Hm) as [N S H _]. destruct (Hdur Hm Hun) as [Hset Hnam].
  split.
  - intros id [[Hl _]|(ns & E & ->)]%live_commit; [by apply N|auto].
  - intros id [[Hl _]|(ns & E & ->)]%live_commit Hne; [by apply S|].
    pose proof (merged_of ns E) as Hmo. split; [auto|]. intros i Hi'.
    rewrite (mo_linked _ _ _ _ _ _ _ Hmo) in Hi'. injection Hi' as <-. by destruct (mo_synced _ _ _ _ _ _ _ Hmo Hm).
  - intros id [[Hl _]|(ns & E & ->)]%live_commit; [by apply H|].
    by destruct (mo_synced _ _ _ _ _ _ _ (merged_of ns E) Hm).
  - done.
Qed.

Lemma inv_commit : db_inv (demoted m unc) logs' (commit_publish cc db) e.
Proof using Hi Hms Hact Hcc Hman Hdur.
  split.
  - apply Hi.
  - done.
  - destruct (di_active _ _ _ _ Hi) as (a' & s & Ha & Hs). exists a', s. split; [done|].
    change (segs (commit_publish cc db)) with (commit_segs db cc). apply lookup_commit_segs. split.
    + intros [_ Hne]%cand_live. by apply Hne.
    + right. split; [|done]. intros ns E ->. apply (mo_new _ _ _ _ _ _ _ (merged_of ns E)). by exists s.
  - apply commit_seg_inv.
  - apply commit_winner.
  - apply Hi.
  - intros id l [[Hl _]|(ns & E & ->)]%live_commit Hin.
    + rewrite (committed_logs_old id Hl) in Hin. by apply (di_ts _ _ _ _ Hi id).
    + rewrite (committed_logs_new ns E) in Hin.
      eapply (merged_ts m logs nlog (set_writesDisabled db) e cc ns l Hi); [|by destruct (merged_of ns E)|done].
      intros s Hs. apply (co_old _ _ _ _ _ _ Hcc s Hs).
  - intros _. apply commit_stored.
  - cbn. intros [Hm Hun%negb_true_iff]%andb_true_iff. by apply commit_durable.
  - done.
Qed.

Lemma abs_commit : abs (commit_publish cc db) e = abs db e.
Proof using Hi Hms Hact Hcc Hman Hdur.
  rewrite (abs_logs _ _ _ _ inv_commit). transitivity (abs (set_writesDisabled db) e); [|done].
  rewrite (abs_logs _ _ _ _ Hi). apply map_eq. intros k. rewrite !lookup_fmap.
  change (index (set_writesDisabled db)) with (index db).
  destruct (index db !! k) as [en|] eqn:E; destruct (index (commit_publish cc db) !! k) as [en'|] eqn:E'; cbn.
  - f_equal. by eapply commit_index_value.
  - apply commit_index_dom in E'. congruence.
  - apply commit_index_dom in E. congruence.
  - done.
Qed.
End publish.
End commit.

(** ** Retiring the candidates *)

Lemma clean_close s e : clean s → e_disk (ignore (close s) e) = e_disk e.
Proof.
  intros [Hb|Hb]; unfold ignore, close; [|rewrite quiescent_flush by done; apply ignore_Close_disk].
  unfold flush. rewrite Hb. apply ignore_Close_disk.
Qed.
Lemma clean_close_quiet s e : clean s → quiet e → quiet (ignore (close s) e).
Proof.
  intros [Hb|Hb] Hq; unfold ignore, close; [unfold flush; rewrite Hb|rewrite quiescent_flush by done]; by apply sys_quiet.
Qed.
Lemma retire_framed (P : bytes → Prop) unc olds : ∀ e,
  disk_ok (e_disk e) →
  Forall (λ s, clean s ∧ ¬ P (segmentFilename (s_id s)) ∧ ¬ P (hintFilename (s_id s))) olds →
  framed P (e_disk e) (e_disk (retire unc olds e)) ∧ (quiet e → quiet (retire unc olds e)).
Proof.
  induction olds as [|s olds IH]; intros e Hd Holds; [split; [by apply framed_refl|done]|].
  apply Forall_cons in Holds as [(Hc & H1 & H2) Holds]. cbn [retire].
  set (e1 := ignore (close s) e). assert (Hd1 : e_disk e1 = e_disk e) by (by apply clean_close).
  assert (Hq1 : quiet e → quiet e1) by (by apply clean_close_quiet).
  set (e2 := if unc then e1 else _).
  assert (framed P (e_disk e) (e_disk e2) ∧ (quiet e → quiet e2)) as [F Hq2].
  { unfold e2. destruct unc; [rewrite Hd1; split; [by apply framed_refl|done]|].
    pose proof (ignore_Remove_framed P (s_path s) e1 ltac:(by rewrite Hd1) H1) as F1. rewrite Hd1 in F1.
    split.
    - eapply framed_trans; [exact F1|]. apply ignore_removeHint_framed; [apply F1|done].
    - intros Hq. apply removeHint_quiet, sys_quiet. auto. }
  destruct (IH e2) as [F' Hq']; [apply F|done|]. split; [by eapply framed_trans|auto].
Qed.

(** ** The commit *)

Definition commit_post (m : mode) (logs : logmap) (nlog : list logrec) (cc : compactCommit) (db : DB) (e : env)
    (r : result unit) (s' : state) : Prop :=
  match r with
  | Ok _ => s'.1 = commit_publish cc db ∧ abs s'.1 s'.2 = abs db e
      ∧ ∃ unc, db_inv (demoted m unc) (committed_logs logs nlog cc) s'.1 s'.2
          ∧ (quiet e → unc = false ∧ quiet s'.2)
  | Err _ => s'.1 = db ∧ framed (λ n, n ≠ manifestTmpFilename) (e_disk e) (e_disk s'.2) ∧ ¬ quiet e
  end.

Lemma committed_not_reserved m logs nlog db e cc s :
  db_inv m logs db e → m_stored m = true → commit_ok m logs nlog db e cc → s ∈ oldSegs cc →
  ¬ reserved (commit_publish cc db) (segmentFilename (s_id s)) ∧ ¬ reserved (commit_publish cc db) (hintFilename (s_id s)).
Proof.
  intros Hi Hms Hcc Hs. destruct (co_old _ _ _ _ _ _ Hcc s Hs) as [Hl _].
  pose proof (di_seg _ _ _ _ Hi _ _ Hl) as [_ Hu _ _ _].
  assert (Hc : s_id s ∈ candidate_ids cc) by (apply list_elem_of_fmap; by exists s).
  assert (Hn : ¬ is_live_id (commit_publish cc db) (s_id s)).
  { intros [[_ ?]|(ns & E & Eid)]%(live_commit _ _ _ _ _ _ Hcc); [done|].
    pose proof (mo_new _ _ _ _ _ _ _ (merged_of _ _ _ _ _ _ Hcc ns E)) as Hnew. apply Hnew. exists s. congruence. }
  assert (Hb : s_id s < nextID db) by (apply (st_below _ _ _ (di_stored _ _ _ _ Hi Hms)); [done|left; by exists s]).
  assert (Hlu : ∀ id, is_live_id (commit_publish cc db) id → is_u32 id).
  { intros id [[[x Hx] _]|(ns & E & ->)]%(live_commit _ _ _ _ _ _ Hcc).
    - apply (di_seg _ _ _ _ Hi _ _ Hx).
    - by destruct (merged_of _ _ _ _ _ _ Hcc ns E). }
  split; intros [[E _]|(id & [[E Hl']|[E Hl']])].
  - by destruct (segment_not_manifest (s_id s)).
  - apply segmentFilename_inj in E; [|done|auto]. by subst id.
  - by apply segment_not_hint in E.
  - by destruct (hint_not_manifest (s_id s)).
  - symmetry in E. by apply segment_not_hint in E.
  - assert (is_u32 id) as Hid by (destruct Hl' as [?|[? _]]; auto).
    apply hintFilename_inj in E; [|done..]. subst id. destruct Hl' as [?|[_ Hge]]; [done|]. cbn in Hge. lia.
Qed.

Lemma commit_framed m logs nlog db e e' cc :
  framed not_manifest (e_disk e) (e_disk e') → commit_ok m logs nlog db e cc → commit_ok m logs nlog db e' cc.
Proof.
  intros F [H1 H2 H3]. split; [done..|]. destruct (newSeg cc); [|done]. by eapply merged_framed.
Qed.

(** A commit stays good while the writer works on: what it overwrites or deletes
    makes the index find less in the candidates. *)
Lemma merged_confined k m logs logs' nlog db db' e e' cc ns :
  m_stored m = true → db_inv m logs db e →
  (∀ s, s ∈ oldSegs cc → sealed db (s_id s) s) → confined k logs logs' (db, e) (db', e') →
  merged_ok m logs nlog db e cc ns → merged_ok m logs' nlog db' e' cc ns.
Proof.
  intros Hms Hi Hold C Hm. pose proof (mo_stored _ _ _ _ _ _ _ Hm Hms) as [Hlt _].
  assert (Hid : ∀ id, id ∈ candidate_ids cc → logs' id = logs id ∧ ∃ s, sealed db id s).
  { intros id (s & -> & Hs)%list_elem_of_fmap. specialize (Hold s Hs).
    split; [by apply (cf_sealed _ _ _ _ _ C (s_id s) s)|by exists s]. }
  pose proof (merged_framed _ _ _ _ _ _ _ _ _ (cf_disk _ _ _ _ _ C)
    (away_merged _ _ _ _ _ Hi (mo_u32 _ _ _ _ _ _ _ Hm) (mo_new _ _ _ _ _ _ _ Hm) Hlt) (away_hint _ _) Hm) as [].
  split; try done.
  - intros [?|?]%(cf_live _ _ _ _ _ C); [done|]. cbn in *. lia.
  - intros r Hr. destruct (mo_val0 r Hr) as [H1 H2]. split; [done|]. rewrite H2. unfold log_value.
    by rewrite (proj1 (Hid _ (proj1 (mo_from0 r Hr)))).
  - intros r Hr. destruct (mo_from0 r Hr) as [Hc Hu]. split; [done|]. unfold all_updates.
    by rewrite (proj1 (Hid _ Hc)).
  - intros r en Hr Hk Hc. destruct (Hid _ Hc) as (_ & s & Hs). eapply mo_current0; [done| |done].
    by apply (cf_index _ _ _ _ _ C _ _ s).
  - intros Hm'. destruct (mo_stored0 Hm'). split; [|done]. pose proof (cf_next _ _ _ _ _ C). cbn in *. lia.
Qed.

Lemma commit_confined k m logs logs' nlog db db' e e' cc :
  m_stored m = true → db_inv m logs db e → confined k logs logs' (db, e) (db', e') →
  commit_ok m logs nlog db e cc → commit_ok m logs' nlog db' e' cc.
Proof.
  intros Hms Hi C [H1 H2 H3]. split.
  - intros s Hs. apply (cf_sealed _ _ _ _ _ C (s_id s) s). by apply H1.
  - intros key en Hk Hc. apply H2; [|done]. pose proof Hc as (s & E & Hs)%list_elem_of_fmap.
    apply (cf_index _ _ _ _ _ C _ _ s); [rewrite E; by apply H1|done].
  - destruct (newSeg cc); [|done]. by eapply merged_confined.
Qed.

Lemma commit_installed m logs nlog (db : DB) (e e2 : env) cc a unc :
  db_inv m logs db e → m_stored m = true → commit_ok m logs nlog db e cc → active db = Some a →
  framed not_manifest (e_disk e) (e_disk e2) →
  manifest_of (e_disk e2) = Ok (canonical (commit_live db cc), a) →
  (m_durable m = true → unc = false → settled (e_disk e2) manifestFilename
     ∧ ∀ ns, newSeg cc = Some ns → named (e_disk e2) (segmentFilename (s_id ns))) →
  let e3 := retire unc (oldSegs cc) e2 in
  db_inv (demoted m unc) (committed_logs logs nlog cc) (commit_publish cc db) e3
  ∧ abs (commit_publish cc db) e3 = abs db e ∧ (quiet e2 → quiet e3).
Proof.
  intros Hi Hms Hcc Ha F Hman Hdur e3.
  pose proof (keeps_disabled _ _ _ _ Hi) as Kd. pose proof (kp_inv _ _ _ _ _ Kd) as Hd. cbn [fst snd] in Hd.
  assert (K2 : keeps m logs logs (set_writesDisabled db, e) (set_writesDisabled db, e2)).
  { eapply keeps_framed; [done|exact F|]. intros n. by apply reserved_not_manifest. }
  pose proof (kp_inv _ _ _ _ _ K2) as Hi2. cbn [fst snd] in Hi2.
  pose proof (commit_framed _ _ _ _ _ _ _ F Hcc) as Hcc2.
  pose proof (inv_commit _ _ _ _ _ _ _ Hi2 Hms Ha Hcc2 unc Hman Hdur) as Hi3.
  pose proof (abs_commit _ _ _ _ _ _ _ Hi2 Hms Ha Hcc2 unc Hman Hdur) as Habs.
  destruct (retire_framed (reserved (commit_publish cc db)) unc (oldSegs cc) e2) as [F3 Hq3]; [apply Hi2| |].
  { apply Forall_forall. intros s Hs. destruct (co_old _ _ _ _ _ _ Hcc s Hs) as [Hsl Hne].
    pose proof (di_seg _ _ _ _ Hi _ _ Hsl) as [_ _ _ _ Hdat]. cbn zeta in Hdat.
    rewrite decide_False in Hdat by done. split; [apply Hdat|]. by eapply committed_not_reserved. }
  assert (K3 : keeps (demoted m unc) (committed_logs logs nlog cc) (committed_logs logs nlog cc)
    (commit_publish cc db, e2) (commit_publish cc db, e3)) by (by eapply keeps_framed).
  split; [apply K3|]. split; [|done]. rewrite (keeps_abs _ _ _ _ _ _ _ Hi3 K3), Habs.
  change (abs (set_writesDisabled db) e2 = abs (set_writesDisabled db) e). by eapply keeps_abs.
Qed.

(** A commit up to the write lock. *)
Definition commit_prepared (m : mode) (cc : compactCommit) (db : DB) (e : env) (r : result bool) (s' : state) : Prop :=
  s'.1 = db ∧ framed not_manifest (e_disk e) (e_disk s'.2) ∧
  match r with
  | Ok unc =>
      (∃ a, active db = Some a ∧ manifest_of (e_disk s'.2) = Ok (canonical (commit_live db cc), a))
      ∧ (m_durable m = true → unc = false → settled (e_disk s'.2) manifestFilename
           ∧ ∀ ns, newSeg cc = Some ns → named (e_disk s'.2) (segmentFilename (s_id ns)))
      ∧ (quiet e → unc = false ∧ quiet s'.2)
  | Err _ => framed (λ n, n ≠ manifestTmpFilename) (e_disk e) (e_disk s'.2) ∧ ¬ quiet e
  end.

Lemma commit_barrier_spec (cc : compactCommit) (e : env) r e' :
  disk_ok (e_disk e) →
  match newSeg cc with
  | Some _ => on_error syncDir Datatypes.id (λ err, EWrap "compact: fsync data dir before manifest: %w" [err])
  | None => eret tt
  end e = (r, e') →
  framed (λ _, True) (e_disk e) (e_disk e') ∧
  match r with
  | Ok _ => (quiet e → quiet e')
      ∧ (∀ ns, newSeg cc = Some ns → d_sdir (e_disk e') = d_dir (e_disk e'))
  | Err _ => ¬ quiet e
  end.
Proof.
  intros Hd. destruct (newSeg cc) as [ns|]; [|intros [= <- <-]; split; [by apply framed_refl|done]].
  unfold on_error. destruct (syncDir e) as [r1 e1] eqn:E1.
  pose proof (syncDir_framed (λ _, True) _ _ _ Hd E1) as F1.
  destruct r1 as [[]|err]; intros [= <- <-]; (split; [done|]).
  - split; [intros Hq; rewrite syncDir_quiet in E1 by done; by injection E1 as <-|].
    intros _ _. apply syncDir_spec in E1 as (_ & E1 & _). by rewrite (E1 I).
  - intros Hq. by rewrite syncDir_quiet in E1 by done.
Qed.

Lemma commit_prepare_spec m logs nlog (db : DB) (e : env) cc :
  db_inv m logs db e → commit_ok m logs nlog db e cc →
  wp (commit_prepare cc) (db, e) (commit_prepared m cc db e).
Proof.
  intros Hi Hcc. destruct (inv_active _ _ _ _ Hi) as (a & sa & [Ha Hsa] & _).
  unfold wp, commit_prepare. rewrite Ha. cbn zeta.
  destruct (match newSeg cc with Some _ => _ | None => _ end e) as [r1 e1] eqn:E1.
  apply commit_barrier_spec in E1 as [F1 HB]; [|apply Hi].
  destruct r1 as [[]|err]; [|split; [done|split; [by eapply framed_weaken|split; [by eapply framed_weaken|done]]]].
  destruct HB as [Hq1 HB].
  assert (Hain : a ∈ commit_live db cc).
  { apply elem_of_app. left. apply list_elem_of_filter. split; [|apply elem_of_live_ids; by exists sa].
    intros [_ Hne]%(cand_live _ _ _ _ _ _ Hcc). by apply Hne. }
  assert (Hids : Forall is_u32 (commit_live db cc)).
  { apply Forall_forall. intros i [[_ [x Hx]%elem_of_live_ids]%list_elem_of_filter|Hin]%elem_of_app.
    - apply (di_seg _ _ _ _ Hi _ _ Hx).
    - destruct (newSeg cc) as [ns|] eqn:E; [|by apply not_elem_of_nil in Hin].
      apply list_elem_of_singleton in Hin as ->. by destruct (merged_of _ _ _ _ _ _ Hcc ns E). }
  destruct (writeManifest (commit_live db cc) a e1) as [r2 e2] eqn:E2.
  pose proof (writeManifest_outcome _ _ _ _ _ (fr_ok _ _ _ F1) Hids E2) as Hout.
  assert (Hq2 : quiet e → r2 = Ok tt ∧ quiet e2).
  { intros Hq. destruct (writeManifest_quiet (commit_live db cc) a e1 (fr_ok _ _ _ F1) (Hq1 Hq) Hain) as (x & E & ?).
    rewrite E in E2. by injection E2 as <- <-. }
  apply writeManifest_spec in E2 as [F2 Hr2]; [|apply F1].
  assert (F : framed not_manifest (e_disk e) (e_disk e2)).
  { eapply framed_trans; [|exact F2]. by eapply framed_weaken. }
  destruct r2 as [[]|err].
  - split; [done|]. split; [done|]. split; [by exists a|]. split; [|intros Hq; split; [done|by apply Hq2]].
    intros _ _. destruct Hr2 as (_ & (i & H1 & H2 & H3 & H4) & _). split.
    + split; cbn [fst snd]; [unfold named; congruence|intros j Hj; congruence].
    + intros ns E. eapply framed_named; [exact F2|done|]. unfold named. by rewrite (HB ns E).
  - destruct (errors_Is err ErrManifestPublishedButUncertain); (split; [done|]); (split; [done|]).
    + split; [by exists a|]. split; [done|]. intros Hq. by destruct (Hq2 Hq).
    + split; [|intros Hq; by destruct (Hq2 Hq)].
      destruct Hr2 as [Hr2 _]. eapply framed_trans; [|exact Hr2]. by eapply framed_weaken.
Qed.

Lemma handleCompactCommit_spec m logs nlog (db : DB) (e : env) cc :
  db_inv m logs db e → m_stored m = true → commit_ok m logs nlog db e cc →
  wp (handleCompactCommit cc) (db, e) (commit_post m logs nlog cc db e).
Proof.
  intros Hi Hms Hcc. unfold handleCompactCommit. apply wp_bind.
  eapply wp_impl; [by eapply commit_prepare_spec|]. intros r [db' e2] (E & F & H). cbn [fst snd] in *. subst db'.
  destruct r as [unc|err]; [|done]. destruct H as ((a & Ha & Hman) & Hdur & Hq).
  unfold wp. cbn [ebind modify lift_ fst snd].
  destruct (commit_installed _ _ _ _ _ _ _ _ unc Hi Hms Hcc Ha F Hman Hdur) as (H1 & H2 & H3).
  split; [done|]. split; [done|]. exists unc. split; [done|]. intros Hqe. destruct (Hq Hqe) as [-> Hq2]. auto.
Qed.
