(* ===== verification/Pass.v ===== *)
(** * A compaction pass keeps the map

    [compact_prepare] builds a commit that meets the writer's obligations, a
    refused or failed pass leaves nothing the database relies on, and so
    [Compact] changes no value whichever calls fail; without faults it succeeds
    and leaves at most the active and the merged segment. *)
From S2P Require Import Prelude LogRecord Keydir Hint Storage Frame Names Publish Manifest HintFile Log Recovery Db Invariant Confined WritePath Rotation Compact Engine Compactor Writes Api Meanwhile Scan Commit.

(** ** The candidates and their entries *)

Lemma elem_of_candidates m logs db e a s :
  db_inv m logs db e → active db = Some a →
  s ∈ compact_candidates db ↔ segs db !! s_id s = Some s ∧ active db ≠ Some (s_id s).
Proof.
  intros Hi Ha. unfold compact_candidates. rewrite Ha, list_elem_of_omap. split.
  - intros (id & Hid & Hs). apply elem_of_sort_ids, list_elem_of_filter in Hid as [Hne _].
    pose proof (di_seg _ _ _ _ Hi _ _ Hs) as [E _ _ _ _]. subst id. split; [done|congruence].
  - intros [Hs Hne]. exists (s_id s). split; [|done]. apply elem_of_sort_ids, list_elem_of_filter.
    split; [congruence|]. apply elem_of_live_ids. by exists s.
Qed.

Lemma candidate_ids_omap (m : gmap Z segment) ids :
  (∀ id s, m !! id = Some s → s_id s = id) →
  s_id <$> omap (λ id, m !! id) ids `sublist_of` ids.
Proof.
  intros Hm. induction ids as [|id ids IH]; [done|]. cbn. destruct (m !! id) as [s|] eqn:E; cbn.
  - rewrite (Hm _ _ E). by constructor.
  - by constructor.
Qed.
Lemma candidates_NoDup m logs db e : db_inv m logs db e → NoDup (s_id <$> compact_candidates db).
Proof.
  intros Hi. unfold compact_candidates. destruct (active db) as [a|]; [|constructor].
  eapply sublist_NoDup; [|apply candidate_ids_omap].
  - rewrite sort_ids_perm. apply NoDup_filter. unfold live_ids. apply NoDup_elements.
  - intros id s Hs. apply (di_seg _ _ _ _ Hi _ _ Hs).
Qed.

Definition scanned (logs : logmap) (cs : list segment) : list (bytes * keydirEntry) :=
  concat ((λ c, put_entries (all_updates logs (s_id c))) <$> cs).

Lemma elem_of_put_entries k en us : (k, en) ∈ put_entries us ↔ ∃ u, u ∈ us ∧ u_key u = k ∧ u_entry u = Some en.
Proof.
  unfold put_entries, put_entry. rewrite list_elem_of_omap. split.
  - intros (u & Hu & E). destruct (u_entry u) as [x|] eqn:Eu; [|done]. injection E as <- <-. by exists u.
  - intros (u & Hu & <- & E). exists u. by rewrite E.
Qed.

Lemma elem_of_segment_entries logs id k en :
  Forall log_ok (logs id) → (k, en) ∈ put_entries (all_updates logs id) →
  fileID en = id ∧ mkUpdate k (tstamp en) (Some en) ∈ all_updates logs id.
Proof.
  intros Hok (u & Hu & <- & E)%elem_of_put_entries. destruct u as [k ts x]. cbn in E. subst x.
  destruct (backed_entry _ _ _ _ _ Hok Hu) as (H1 & <- & _). done.
Qed.

Lemma elem_of_scanned logs cs k en :
  (k, en) ∈ scanned logs cs ↔ ∃ c, c ∈ cs ∧ (k, en) ∈ put_entries (all_updates logs (s_id c)).
Proof.
  unfold scanned. rewrite list_elem_of_In, in_concat. split.
  - intros (l & Hl%list_elem_of_In & Hin%list_elem_of_In). apply list_elem_of_fmap in Hl as (c & -> & Hc). by exists c.
  - intros (c & Hc & Hin). exists (put_entries (all_updates logs (s_id c))).
    rewrite <- !list_elem_of_In. split; [|done]. apply list_elem_of_fmap. by exists c.
Qed.

Section scanned.
Context (logs : logmap) (cs : list segment) (Hok : ∀ c, c ∈ cs → Forall log_ok (logs (s_id c))).

Lemma scanned_inj k k' en en' :
  (k, en) ∈ scanned logs cs → (k', en') ∈ scanned logs cs →
  fileID en = fileID en' → valuePos en = valuePos en' → k = k' ∧ en = en'.
Proof using Hok.
  intros (c & Hc & H1)%elem_of_scanned (c' & Hc' & H2)%elem_of_scanned Hf Hv.
  destruct (elem_of_segment_entries _ _ _ _ (Hok c Hc) H1) as [E1 _].
  destruct (elem_of_segment_entries _ _ _ _ (Hok c' Hc') H2) as [E2 _].
  rewrite <- E2, <- Hf, E1 in H2. unfold all_updates in H1, H2.
  pose proof (placed_inj _ _ _ _ _ (logs_entries_placed (s_id c) (logs (s_id c)) 0) H1 H2 Hv) as E. by injection E.
Qed.

Lemma scanned_NoDup : NoDup (s_id <$> cs) → NoDup (scanned logs cs).
Proof using Hok.
  clear -Hok. revert Hok. induction cs as [|c l IH]; intros Hok Hnd; [constructor|].
  unfold scanned in *. cbn [fmap list_fmap concat] in *. apply NoDup_cons in Hnd as [Hnew Hnd].
  apply NoDup_app. split; [eapply placed_NoDup, logs_entries_placed|]. split.
  - intros [k en] H1 H2. destruct (elem_of_segment_entries _ _ _ _ (Hok c (list_elem_of_here _ _)) H1) as [E1 _].
    apply elem_of_scanned in H2 as (c' & Hc' & H2).
    destruct (elem_of_segment_entries _ _ _ _ (Hok c' (list_elem_of_further _ _ _ Hc')) H2) as [E2 _].
    apply Hnew. rewrite <- E1, E2. by apply list_elem_of_fmap_2.
  - apply IH; [|done]. intros c' Hc'. apply Hok. by right.
Qed.
End scanned.

(** The hints of the rewrites are those of the log they describe. *)
Lemma put_hints_of_rewrites id ls : ∀ rws start,
  0 <= start → start + zlen rws * 2 ^ 25 < 2 ^ 63 →
  Forall log_ok ls → forallb is_put ls = true → logs_updates id start ls = new_update <$> rws →
  hint_of_rewrite <$> rws = put_hints start ls ∧ Forall hint_ok (put_hints start ls).
Proof.
  induction ls as [|l ls IH]; intros rws start H0 Hb Hok Hput Hrw.
  - cbn in Hrw. symmetry in Hrw. apply fmap_nil_inv in Hrw as ->. by split.
  - cbn in Hput. apply andb_true_iff in Hput as [H1 Hput]. apply Forall_cons in Hok as [Hl Hok].
    destruct l as [ts k v| |]; [|done..]. destruct Hl as (Hts & Hk & Hv).
    destruct rws as [|r rws]; [done|]. cbn [logs_updates log_updates app fmap list_fmap] in Hrw.
    injection Hrw as E1 E2 E3 Hrw. pose proof (log_image_nonempty (LPut ts k v)) as Hne.
    assert (Hsz : zlen (log_image (LPut ts k v)) < 2 ^ 25).
    { cbn [log_image]. rewrite zlen_record_image, zlen_app. consts. lia. }
    rewrite zlen_cons in Hb. pose proof (zlen_nonneg rws).
    destruct (IH rws (start + zlen (log_image (LPut ts k v)))) as [IH1 IH2]; [lia|lia|done..|].
    cbn [put_hints app fmap list_fmap]. rewrite IH1. split.
    + f_equal. unfold hint_of_rewrite. rewrite <- E1, <- E2, <- E3. cbn. f_equal. by apply u32_len.
    + constructor; [|done]. split; [done|]. cbn. pose proof (zlen_nonneg v). split; [consts; lia|].
      split; [|done]. unfold is_i64. cbn [log_image] in Hsz. rewrite zlen_record_image, zlen_app in Hsz. consts. lia.
Qed.

Lemma reserved_not_tmp db n : reserved db n → n ≠ manifestTmpFilename.
Proof.
  intros [[-> _]|(i & [[-> _]|[-> _]])]; [apply not_eq_sym, manifest_names_ne|apply segment_not_manifest|apply hint_not_manifest].
Qed.

(** ** From the scan to the commit *)

Section prepared.
Context (m : mode) (Hms : m_stored m = true) (cands : list segment) (Hnd : NoDup (s_id <$> cands)).
Context (logs0 : logmap) (idle : Prop) (M0 : kvmap).
#[local] Abbreviation steady := (Meanwhile.steady m cands logs0 idle M0).
#[local] Abbreviation calm := (Scan.calm idle).

(** What the rewrites of a scan are in the state it ends in. *)
Section scan.
Context (id : Z) (ino : N) (Hu : is_u32 id) (nlog : list logrec) (cs : cstate) (p : pstate) (logs : logmap).
Context (Hs : scan_inv m cands logs0 idle M0 id ino (scanned logs0 cands) nlog cs p) (Hp : steady logs p).

Lemma cands_ok c : c ∈ cands → Forall log_ok (logs0 (s_id c)).
Proof using Hs. intros Hc. by apply (candidate_file _ _ _ _ _ p c (sc_steady _ _ _ _ _ _ _ _ _ _ _ Hs)). Qed.

Lemma cand_logs fid : fid ∈ s_id <$> cands → logs fid = logs0 fid.
Proof using Hp. intros (c & -> & Hc)%list_elem_of_fmap. by apply (sd_cands _ _ _ _ _ _ _ Hp). Qed.

Lemma current_scanned k en :
  index (p_db p) !! k = Some en → fileID en ∈ s_id <$> cands → (k, en) ∈ scanned logs0 cands.
Proof using Hp.
  intros Hk Hc. pose proof (cand_logs _ Hc) as El. apply list_elem_of_fmap in Hc as (c & E & Hc).
  destruct (di_index _ _ _ _ (sd_inv _ _ _ _ _ _ _ Hp) _ _ Hk) as [_ [(pre & post & Hx & _) _]].
  apply elem_of_scanned. exists c. split; [done|]. apply elem_of_put_entries.
  exists (mkUpdate k (tstamp en) (Some en)). unfold all_updates in Hx |- *. rewrite El, E in Hx. rewrite Hx.
  split; [|done]. apply elem_of_app. right. by left.
Qed.

Lemma rewrite_scanned r : r ∈ cs_rewrites cs → old_pair r ∈ scanned logs0 cands.
Proof using Hs.
  intros Hr. eapply elem_of_sublist; [|apply (sc_old _ _ _ _ _ _ _ _ _ _ _ Hs)]. by apply list_elem_of_fmap_2.
Qed.

Lemma rewrite_from r :
  r ∈ cs_rewrites cs → fileID (oldEntry r) ∈ s_id <$> cands
    ∧ mkUpdate (rw_key r) (tstamp (oldEntry r)) (Some (oldEntry r)) ∈ all_updates logs (fileID (oldEntry r)).
Proof using Hs Hp.
  intros (c & Hc & Hin)%rewrite_scanned%elem_of_scanned.
  destruct (elem_of_segment_entries _ _ _ _ (cands_ok c Hc) Hin) as [E Hx].
  assert (fileID (oldEntry r) ∈ s_id <$> cands) as Hf by (rewrite E; by apply list_elem_of_fmap_2).
  split; [done|]. unfold all_updates in *. by rewrite (cand_logs _ Hf), E.
Qed.

Lemma same_place_eq r en :
  r ∈ cs_rewrites cs → index (p_db p) !! rw_key r = Some en → fileID en ∈ s_id <$> cands →
  same_place en (oldEntry r) → oldEntry r = en.
Proof using Hs Hp.
  intros Hr Hk Hc (E1 & E2 & _). symmetry.
  apply (scanned_inj logs0 cands cands_ok _ _ _ _ (current_scanned _ _ Hk Hc) (rewrite_scanned r Hr) E1 E2).
Qed.

Lemma rewrite_current r en :
  r ∈ cs_rewrites cs → index (p_db p) !! rw_key r = Some en → fileID en ∈ s_id <$> cands → oldEntry r = en.
Proof using Hs Hp. intros Hr Hk Hc. apply same_place_eq; try done. by apply (sc_seen _ _ _ _ _ _ _ _ _ _ _ Hs). Qed.

Lemma rewrites_once : NoDup (old_pair <$> cs_rewrites cs).
Proof using Hs Hnd.
  eapply sublist_NoDup; [|apply (sc_old _ _ _ _ _ _ _ _ _ _ _ Hs)]. apply scanned_NoDup; [apply cands_ok|done].
Qed.

Lemma rewrites_cover k en :
  index (p_db p) !! k = Some en → fileID en ∈ s_id <$> cands → (k, en) ∈ old_pair <$> cs_rewrites cs.
Proof using Hs Hp.
  intros Hk Hc. apply (sc_cover _ _ _ _ _ _ _ _ _ _ _ Hs); [by apply current_scanned|done|done].
Qed.

(** No more copies than keys, if nothing happened meanwhile. *)
Lemma rewrites_size : idle → zlen (cs_rewrites cs) <= size (index (p_db p)).
Proof using Hs Hp Hnd.
  intros Hi. unfold zlen, size. apply inj_le.
  rewrite <- (length_fmap old_pair), <- (length_map_to_list (index (p_db p))).
  apply submseteq_length, NoDup_submseteq; [apply rewrites_once|].
  intros [k en] (r & [= -> ->] & Hr)%list_elem_of_fmap. apply elem_of_map_to_list.
  destruct (sc_idle _ _ _ _ _ _ _ _ _ _ _ Hs Hi r Hr) as (en & Hk & Hpl). rewrite Hk. f_equal. symmetry.
  apply same_place_eq; [done|done| |done]. rewrite (proj1 Hpl). by apply rewrite_from.
Qed.

Lemma merged_hints : zlen (cs_rewrites cs) < 2 ^ 32 →
  hint_of_rewrite <$> cs_rewrites cs = put_hints 0 nlog ∧ Forall hint_ok (put_hints 0 nlog).
Proof using Hs.
  intros Hn. apply (put_hints_of_rewrites id); [done|lia|apply Hs..].
Qed.

Lemma prepared_old s : s ∈ cands → segs (p_db p) !! s_id s = Some s ∧ active (p_db p) ≠ Some (s_id s).
Proof using Hp. intros Hc. by apply (sd_cands _ _ _ _ _ _ _ Hp). Qed.

Lemma commit_none e2 : cs_rewrites cs = [] → commit_ok m logs nlog (p_db p) e2 (mkCommit None [] cands).
Proof using Hs Hp.
  intros E. split; [apply prepared_old| |done]. intros k en Hk Hc.
  apply (rewrites_cover k) in Hc; [|done]. rewrite E in Hc. by apply not_elem_of_nil in Hc.
Qed.

Lemma serialised_hints buf d :
  hint_serialise (hint_of_rewrite <$> cs_rewrites cs) = Ok buf →
  read_file d (hintFilename id) = Some buf → hint_of d id = Ok (put_hints 0 nlog).
Proof using Hs.
  intros Hb Hr. assert (Hn : zlen (cs_rewrites cs) < 2 ^ 32).
  { revert Hb. unfold hint_serialise. destruct (Z.ltb_spec (2 ^ 32 - 1) (zlen (hint_of_rewrite <$> cs_rewrites cs))) as [|H]; [done|].
    unfold zlen in *. rewrite length_fmap in H. lia. }
  destruct (merged_hints Hn) as [E Hok].
  assert (Hz : zlen (put_hints 0 nlog) < 2 ^ 32) by (rewrite <- E; unfold zlen in *; by rewrite length_fmap).
  unfold hint_of. rewrite Hr, E, hint_serialise_image in * by done. injection Hb as <-. by apply hint_parse_image.
Qed.

(** A merged segment that is synced and has its hint can be committed. *)
Lemma commit_some buf i :
  let ns := cs_newSeg cs in let d := e_disk (p_env p) in
  s_bw ns = Some bufio_new → file_synced d ino = file_data d ino →
  hint_serialise (hint_of_rewrite <$> cs_rewrites cs) = Ok buf →
  d_dir d !! hintFilename id = Some i → file_data d i = buf → file_synced d i = buf → d_sdir d = d_dir d →
  commit_ok m logs nlog (p_db p) (p_env p) (mkCommit (Some ns) (cs_rewrites cs) cands).
Proof using Hs Hp Hms Hnd Hu.
  intros ns d Hbw Hsyn Hser Hh Hhd Hhs Hsd.
  destruct (sc_merging _ _ _ _ _ _ _ _ _ _ _ Hs) as [Hid Hf [Hd Hl Hw] Hnew Hb].
  pose proof (sc_data _ _ _ _ _ _ _ _ _ _ _ Hs) as Hdat. unfold s_pending in Hdat. fold ns in Hid, Hf, Hl, Hdat.
  rewrite Hbw, app_nil_r in Hdat. fold d in Hdat.
  split; [apply prepared_old|apply rewrites_cover|]. cbn [newSeg rewrites].
  split; rewrite ?Hid, ?Hf; try done; try (by apply Hs).
  - unfold s_path in Hl. by rewrite Hid, Hf in Hl.
  - by right.
  - intros r Hr. destruct (sc_val _ _ _ _ _ _ _ _ _ _ _ Hs r Hr) as [Et Ev]. split; [done|]. rewrite Ev.
    unfold log_value. by rewrite (cand_logs _ (proj1 (rewrite_from r Hr))).
  - intros r Hr. by apply rewrite_from.
  - apply rewrites_once.
  - intros r en Hr Hk Hc. by apply rewrite_current.
  - intros _. split; [done|]. unfold hint_harmless. rewrite Hid.
    rewrite (serialised_hints buf); [|done|unfold read_file; fold d; rewrite Hh; cbn; by f_equal].
    right. pose proof (sc_size _ _ _ _ _ _ _ _ _ _ _ Hs). apply put_hints_stand_for; [apply Hs..|unfold ns; lia].
  - intros Hm. split; [done|]. split; [unfold named; fold d; by rewrite Hsd|]. intros j Hj. unfold d in *. congruence.
Qed.
End scan.
(** ** The steps before the commit *)

Lemma same_file_synced i d d' : same_file i d d' → file_synced d i = file_data d i → file_synced d' i = file_data d' i.
Proof using Type. intros [D [S|S]] H; [by rewrite S, D|done]. Qed.

Section publish.
Context (id : Z) (ino : N) (Hu : is_u32 id).
#[local] Abbreviation merging := (Scan.merging id ino).
#[local] Abbreviation scan_inv := (Scan.scan_inv m cands logs0 idle M0 id ino (scanned logs0 cands)).

Lemma discard_steady ns p :
  (∃ logs, steady logs p) → merging ns p →
  (∃ logs, steady logs (pause p) ∧ steady logs (on_env_ (discard_segment ns) p))
  ∧ (idle → p_db (on_env_ (discard_segment ns) p) = p_db p)
  ∧ (healthy ns → calm p (on_env_ (discard_segment ns) p)).
Proof using Hms Hu.
  intros [logs Hp] Hm. destruct (pause_spec m Hms cands logs0 idle M0 logs p Hp) as (k & logs' & D & Hpi).
  destruct (merging_drift _ _ _ _ _ _ _ Hu _ _ _ _ _ _ Hm Hp D) as ([Hid Hf Hl Hnew Hb] & _).
  unfold on_env_. split; [|split].
  - exists logs'. split; [apply D|]. eapply steady_env; [apply D|exact Hu|done|done|]. apply discard_linked; [done|].
    unfold s_path. rewrite Hid. by intros [].
  - intros Hi. by rewrite (Hpi Hi).
  - intros Hh. etransitivity; [by apply calm_pause|]. apply calm_env. intros. by apply discard_quiet.
Qed.

Lemma scan_inv_hint nlog cs p e' :
  framed (not_hint id) (e_disk (p_env p)) (e_disk e') → scan_inv nlog cs p → scan_inv nlog cs (with_env e' p).
Proof using Hu.
  intros F [[logs Hp] [Hid Hf [Hd Hl Hw] Hnew Hb] Hh Hdat]. unfold s_path in Hl. rewrite Hid, Hf in Hl.
  split; try done; cbn.
  - exists logs. eapply steady_env; [done..|]. eapply framed_weaken; [exact F|]. by intros n [].
  - split; try done. split; [apply F| |done]. unfold s_path. rewrite Hid, Hf. cbn.
    rewrite (fr_dir _ _ _ F); [done|]. apply segment_not_hint_file.
  - by rewrite (framed_data _ _ _ _ _ F (segment_not_hint_file id id) Hl).
Qed.

Lemma scan_inv_sync nlog cs p r ns e' :
  scan_inv nlog cs p → sync (cs_newSeg cs) (p_env p) = (r, ns, e') →
  (∃ logs, steady logs (with_env e' p)) ∧ merging ns (with_env e' p)
  ∧ (quiet (p_env p) → r = Ok tt ∧ quiet e') ∧
  match r with
  | Ok _ => scan_inv nlog (mkCState ns (cs_rewrites cs) (cs_encBuf cs)) (with_env e' p)
      ∧ s_bw ns = Some bufio_new ∧ file_synced (e_disk e') ino = file_data (e_disk e') ino
  | Err _ => True
  end.
Proof using Hu.
  intros Hs E. destruct Hs as [[logs Hp] [Hid Hf Hls Hnew Hb] Hh Hdat Hsz].
  assert (Hq : quiet (p_env p) → r = Ok tt ∧ quiet e').
  { intros Hq. destruct (sync_quiet _ _ Hh Hq) as (x & y & E' & ?). rewrite E' in E. by injection E as <- <- <-. }
  apply (sync_linked (pass_free id)) in E as (F & Hl & Hid' & Hf' & Hsz' & Hr);
    [|done|unfold s_path; rewrite Hid; by intros []].
  assert (Hp' : ∃ logs, steady logs (with_env e' p)) by (exists logs; by eapply steady_env).
  assert (Hm' : merging ns (with_env e' p)) by (split; try done; congruence).
  split; [done|]. split; [done|]. split; [done|]. destruct r as [u|]; [|done]. destruct Hr as (Hbw & Hd & Hsyn).
  rewrite Hf in Hd, Hsyn. split; [|done]. split; cbn [cs_newSeg cs_rewrites]; try done.
  - by exists [].
  - unfold s_pending at 1. rewrite Hbw. cbn. by rewrite app_nil_r, Hd.
  - congruence.
Qed.

(** What is ready for the commit. *)
Definition prepared (p : pstate) (r : result compactCommit) (p' : pstate) : Prop :=
  (idle → p_db p' = p_db p) ∧
  (idle → quiet (p_env p) → size (index (p_db p)) < 2 ^ 32 → is_ok r ∧ quiet (p_env p')) ∧
  match r with
  | Ok cc => ∃ logs nlog, steady logs p' ∧ commit_ok m logs nlog (p_db p') (p_env p') cc
      ∧ oldSegs cc = cands ∧ ∀ ns, newSeg cc = Some ns → s_id ns = id ∧ s_bw ns = Some bufio_new
  | Err _ => ∃ logs, steady logs p'
  end.

Lemma compact_publish_spec nlog cs p :
  scan_inv nlog cs p →
  wp (compact_publish id (cs_newSeg cs) (cs_rewrites cs) cands) p (prepared p).
Proof using Hms Hu Hnd.
  intros Hs. unfold compact_publish, paused, wp.
  destruct (scan_pause _ Hms _ _ _ _ _ _ Hu _ _ _ _ Hs) as (Hs1 & Hpi1 & _ & _). set (p1 := pause p) in *.
  destruct (sync (cs_newSeg cs) (p_env p1)) as [[r3 ns] e3] eqn:E3.
  destruct (scan_inv_sync _ _ _ _ _ _ Hs1 E3) as (Hp3 & Hm3 & Hq3 & Hr3). set (p3 := with_env e3 p1) in *.
  destruct r3 as [[]|err]; cbn [fst snd].
  2: { destruct (discard_steady ns p3 Hp3 Hm3) as ((l4 & _ & Hp4) & Hdb & _). split; [intros Hi; rewrite (Hdb Hi); cbn; by rewrite (Hpi1 Hi)|].
       split; [|by exists l4]. intros Hi Hq. rewrite (Hpi1 Hi) in Hq3. by destruct (Hq3 Hq). }
  destruct Hr3 as (Hs3 & Hbw & Hsyn). unfold ebind, on_error, on_env, on_state, paused, lift.
  destruct (scan_pause _ Hms _ _ _ _ _ _ Hu _ _ _ _ Hs3) as (Hs4 & Hpi4 & _ & Hsf). set (p4 := pause p3) in *.
  change ((p_state p4).2) with (p_env p4).
  destruct (writeHintFile id (hint_of_rewrite <$> cs_rewrites cs) (p_env p4)) as [r5 e5] eqn:E5.
  assert (Hq5 : idle → quiet (p_env p) → size (index (p_db p)) < 2 ^ 32 → r5 = Ok tt ∧ quiet e5).
  { intros Hi Hq Hz. rewrite (Hpi1 Hi) in Hq3. destruct (sc_steady _ _ _ _ _ _ _ _ _ _ _ Hs4) as [logs Hp4].
    pose proof (rewrites_size _ _ _ _ _ _ Hs4 Hp4 Hi) as Hn. rewrite (Hpi4 Hi) in E5, Hn. cbn in Hn.
    rewrite (Hpi1 Hi) in Hn. destruct (merged_hints _ _ _ _ _ Hs4) as [Eh Hok]; [cbn; lia|]. cbn [cs_rewrites] in Eh.
    assert (Hz' : zlen (put_hints 0 nlog) < 2 ^ 32) by (rewrite <- Eh; unfold zlen in *; rewrite length_fmap; lia).
    destruct (writeHintFile_quiet id (put_hints 0 nlog) _ (p_env p3) (ls_ok _ _ (mg_linked _ _ _ _ Hm3)) (proj2 (Hq3 Hq))
      (hint_serialise_image _ Hok Hz')) as (x & E & ?). rewrite Eh, E in E5. by injection E5 as <- <-. }
  apply writeHintFile_spec in E5 as [F5 Hr5]; [|apply (mg_linked _ _ _ _ (sc_merging _ _ _ _ _ _ _ _ _ _ _ Hs4))].
  pose proof (scan_inv_hint _ _ _ _ F5 Hs4) as Hs5. change (with_state ((p_state p4).1, e5) p4) with (with_env e5 p4).
  set (p5 := with_env e5 p4) in *.
  assert (Hdb5 : idle → p_db p5 = p_db p) by (intros Hi; cbn; rewrite (Hpi4 Hi); cbn; by rewrite (Hpi1 Hi)).
  destruct r5 as [[]|err]; cbn [fst snd].
  2: { destruct (discard_steady ns p5 (sc_steady _ _ _ _ _ _ _ _ _ _ _ Hs5) (sc_merging _ _ _ _ _ _ _ _ _ _ _ Hs5)) as ((l6 & _ & Hp6) & Hdb6 & _).
       split; [intros Hi; rewrite (Hdb6 Hi); by apply Hdb5|]. split; [|by exists l6]. intros Hi Hq Hz. by destruct (Hq5 Hi Hq Hz). }
  split; [done|]. split; [intros Hi Hq Hz; split; [done|by apply Hq5]|].
  destruct (sc_steady _ _ _ _ _ _ _ _ _ _ _ Hs5) as [logs Hp5]. exists logs, nlog. split; [done|].
  destruct (Hr5 I) as (buf & i & Hser & Hh & Hhd & Hhs & Hsd).
  split; [|split; [done|intros ? [= <-]; split; [apply Hm3|done]]].
  apply (commit_some id ino Hu nlog _ p5 logs Hs5 Hp5 buf i); try done.
  apply (same_file_synced ino (e_disk e3)); [|done]. etransitivity; [exact Hsf|].
  apply (fr_file _ _ _ F5 _ _ (segment_not_hint_file id id)).
  destruct (sc_merging _ _ _ _ _ _ _ _ _ _ _ Hs4) as [Hid4 Hf4 [_ Hl4 _] _ _]. unfold s_path in Hl4. by rewrite Hid4, Hf4 in Hl4.
Qed.
End publish.

(** An action of the pass that leaves the disk alone. *)
Lemma steady_same logs p e' : steady logs p → e_disk e' = e_disk (p_env p) → steady logs (with_env e' p).
Proof using Type.
  intros Hp E. apply steady_keeps; [done| |done|done]. pose proof (sd_inv _ _ _ _ _ _ _ Hp) as Hi.
  destruct p as [script served [db e]]. cbn in *.
  apply (keeps_framed (λ _, True)); [done|rewrite E; apply framed_refl, Hi|done].
Qed.

(** The id of the merged segment: nobody else gets it. *)
Lemma claim_steady logs p :
  steady logs p → nextID (p_db p) < 2 ^ 32 - 1 →
  wp (on_state claimID) p (λ r p', ∃ id, r = Ok id ∧ is_u32 id ∧ id < nextID (p_db p') ∧
    (idle → id = nextID (p_db p) ∧ p' = with_state (set_nextID (id + 1) (p_db p), p_env p) p) ∧ ∃ logs', steady logs' p').
Proof using Hms.
  intros Hp Hn. destruct (pause_spec m Hms cands logs0 idle M0 logs p Hp) as (k & logs' & [Hp' _ Hl] & Hpi).
  unfold wp, on_state, paused. specialize (Hl Hn). set (p1 := pause p) in *.
  pose proof (sd_inv _ _ _ _ _ _ _ Hp') as Hi.
  pose proof (claimID_spec m logs' (p_db p1) (p_env p1) Hi ltac:(by split)) as Hc. unfold wp in Hc.
  replace (p_state p1) with (p_db p1, p_env p1) by (by destruct (p_state p1) eqn:E; unfold p_db, p_env; rewrite E).
  destruct (claimID (p_db p1, p_env p1)) as [r s']. cbn [fst snd] in *.
  destruct Hc as (id & n & -> & -> & Hu & K & Hid). rewrite Hms in Hid. destruct (Hid eq_refl) as [-> ->].
  exists (nextID (p_db p1)). split; [done|]. split; [done|]. split; [cbn; lia|]. split.
  - intros Hi'. by rewrite (Hpi Hi').
  - exists logs'. apply steady_keeps; [done| |done|done]. by destruct (p_state p1) eqn:E; unfold p_db, p_env in *; rewrite E in *.
Qed.

(** Creating the merged segment's file. *)
Lemma create_steady id logs p :
  is_u32 id → id < nextID (p_db p) → steady logs p →
  wp (on_env (createSegment id)) p (λ r p',
    (idle → p_db p' = p_db p ∧ (quiet (p_env p) → d_dir (e_disk (p_env p)) !! segmentFilename id = None →
       is_ok r ∧ quiet (p_env p'))) ∧
    match r with
    | Ok ns => ∃ ino, scan_inv m cands logs0 idle M0 id ino [] [] (mkCState ns [] []) p'
    | Err _ => ∃ logs', steady logs' p'
    end).
Proof using Hms.
  intros Hu Hlt Hp. destruct (pause_spec m Hms cands logs0 idle M0 logs p Hp) as (k & logs' & [Hp' C _] & Hpi).
  unfold wp, on_env, on_state, paused, lift. set (p1 := pause p) in *. change (p_state p1).2 with (p_env p1).
  pose proof (cf_next _ _ _ _ _ C) as [Hge _]. change (nextID (p_db p) <= nextID (p_db p1)) in Hge.
  destruct (createSegment id (p_env p1)) as [r e2] eqn:E2. cbn [fst snd]. change (with_state _ p1) with (with_env e2 p1).
  split.
  { intros Hi. rewrite (Hpi Hi) in E2 |- *. split; [done|]. intros Hq Hf. unfold createSegment, ebind, on_error in E2.
    rewrite os_create_excl_quiet in E2 by done. by injection E2 as <- <-. }
  apply createSegment_inv in E2 as [(ino & -> & Hnone & D2 & Ei)|(err & -> & D2)];
    [|exists logs'; by apply steady_same].
  pose proof (sd_inv _ _ _ _ _ _ _ Hp') as Hi. pose proof (not_live_unlinked _ _ _ _ _ Hi Hnone) as Hnl.
  destruct (create_framed _ _ _ _ _ _ Hi Hnone D2) as (F2 & Hlk & Hem). rewrite <- Ei in Hlk, Hem.
  exists ino. split; cbn; try done; try (by intros ? ?%not_elem_of_nil); try (by intros ? ? ?%not_elem_of_nil).
  - exists logs'. eapply steady_env; [done|exact Hu|done|unfold p_db in *; lia|]. eapply framed_weaken; [exact F2|]. by intros n [].
  - split; cbn; [done|done| |done|lia]. split; [apply F2|done|by left; exists []].
  - by exists [].
  - by rewrite Hem.
Qed.

Lemma compact_prepare_spec logs p :
  steady logs p → nextID (p_db p) < 2 ^ 32 - 1 →
  wp (compact_prepare cands) p (λ r p', ∃ id,
    (idle → id = nextID (p_db p) ∧ p_db p' = set_nextID (id + 1) (p_db p)) ∧
    (idle → quiet (p_env p) → d_dir (e_disk (p_env p)) !! segmentFilename id = None →
       size (index (p_db p)) < 2 ^ 32 → is_ok r ∧ quiet (p_env p')) ∧
    match r with
    | Ok cc => ∃ logs nlog, steady logs p' ∧ commit_ok m logs nlog (p_db p') (p_env p') cc
        ∧ oldSegs cc = cands ∧ ∀ ns, newSeg cc = Some ns → s_id ns = id ∧ s_bw ns = Some bufio_new
    | Err _ => ∃ logs, steady logs p'
    end).
Proof using Hms Hnd.
  intros Hp Hn. unfold compact_prepare. apply wp_bind. eapply wp_impl; [by eapply claim_steady|].
  intros r p1 (id & -> & Hu & Hlt & Hid & logs1 & Hp1).
  apply wp_bind, wp_on_error. eapply wp_impl; [by eapply create_steady|]. intros r p2 [Hc2 H2].
  assert (Hdb2 : idle → id = nextID (p_db p) ∧ p_db p2 = set_nextID (id + 1) (p_db p)).
  { intros Hi. destruct (Hid Hi) as [E1 E2]. destruct (Hc2 Hi) as [E3 _]. split; [done|]. by rewrite E3, E2. }
  assert (Hq2 : idle → quiet (p_env p) → d_dir (e_disk (p_env p)) !! segmentFilename id = None → is_ok r ∧ quiet (p_env p2)).
  { intros Hi. destruct (Hid Hi) as [E1 ->]. by apply Hc2. }
  destruct r as [ns|err].
  2: { exists id. split; [done|]. split; [|done]. intros Hi Hq Hf _. by apply Hq2. }
  destruct H2 as (ino & Hs2). unfold wp.
  pose proof (compact_segments_spec m Hms cands logs0 idle M0 id ino Hu cands [] [] _ p2
    (proj2 (Forall_forall _ _) (λ _ H, H)) Hs2) as Hscan. unfold wp in Hscan.
  destruct (compact_segments cands (mkCState ns [] [], p2)) as [r3 [cs p3]]. cbn [fst snd app] in Hscan |- *.
  destruct Hscan as [Hcalm Hr3]. cbn [fst snd] in Hcalm, Hr3.
  assert (Hdb3 : idle → id = nextID (p_db p) ∧ p_db p3 = set_nextID (id + 1) (p_db p)).
  { intros Hi. destruct (Hdb2 Hi) as [? E]. split; [done|]. by rewrite (proj1 (Hcalm Hi)). }
  assert (Hq3 : idle → quiet (p_env p) → d_dir (e_disk (p_env p)) !! segmentFilename id = None → quiet (p_env p3)).
  { intros Hi Hq Hf. apply (Hcalm Hi). by apply (Hq2 Hi Hq Hf). }
  exists id. destruct r3 as [[]|err]; cbn [fst snd].
  2: { destruct Hr3 as (Hp3 & Hm3 & Hnq). destruct (discard_steady id ino Hu _ p3 Hp3 Hm3) as ((l4 & _ & Hp4) & Hdb4 & _).
       split; [intros Hi; rewrite (Hdb4 Hi); by apply Hdb3|]. split; [|by exists l4]. intros Hi Hq Hf _. destruct Hnq. split; [done|].
       by apply (Hq2 Hi Hq Hf). }
  destruct Hr3 as [nlog Hs3]. fold (scanned logs0 cands) in Hs3. destruct (cs_rewrites cs) as [|rw rws] eqn:Erw.
  - destruct (discard_steady id ino Hu _ p3 (sc_steady _ _ _ _ _ _ _ _ _ _ _ Hs3) (sc_merging _ _ _ _ _ _ _ _ _ _ _ Hs3))
      as ((l4 & Hp4 & Hp5) & Hdb5 & Hcalm5).
    destruct (scan_pause _ Hms _ _ _ _ _ _ Hu _ _ _ _ Hs3) as (Hs4 & _). cbn [fst snd].
    split; [intros Hi; rewrite (Hdb5 Hi); by apply Hdb3|]. split.
    { intros Hi Hq Hf _. split; [done|]. apply (Hcalm5 (sc_healthy _ _ _ _ _ _ _ _ _ _ _ Hs3) Hi). by apply Hq3. }
    exists l4, nlog. split; [done|]. split; [|done]. by apply (commit_none id ino nlog cs (pause p3) l4 Hs4 Hp4).
  - rewrite <- Erw. destruct (compact_publish_spec id ino Hu nlog cs p3 Hs3) as (Hdb4 & Hq4 & Hr4).
    destruct (compact_publish _ _ _ _ _) as [r4 p4]. cbn [fst snd] in *.
    split; [intros Hi; rewrite (Hdb4 Hi); by apply Hdb3|]. split; [|done]. intros Hi Hq Hf Hz. apply (Hq4 Hi).
    + by apply Hq3.
    + destruct (Hdb3 Hi) as [_ ->]. done.
Qed.

(** ** The commit and the roll-back *)

(** The pass has a commit in hand. *)
Record committable (cc : compactCommit) (logs : logmap) (nlog : list logrec) (p : pstate) : Prop := {
  cm_steady : steady logs p;
  cm_ok : commit_ok m logs nlog (p_db p) (p_env p) cc;
  cm_writer : ∀ ns, newSeg cc = Some ns → s_bw ns = Some bufio_new;
}.

Lemma committable_pause cc logs nlog p :
  committable cc logs nlog p → (∃ logs', committable cc logs' nlog (pause p)) ∧ (idle → pause p = p).
Proof using Hms.
  intros [Hp Hcc Hw]. destruct (pause_spec m Hms cands logs0 idle M0 logs p Hp) as (k & logs' & [Hp' C _] & Hpi).
  split; [|done]. exists logs'. split; [done| |done]. pose proof (sd_inv _ _ _ _ _ _ _ Hp) as Hi.
  eapply (commit_confined k m logs); [done|exact Hi| |exact Hcc]. unfold p_db, p_env.
  by destruct (p_state p), (p_state (pause p)).
Qed.

(** The merged segment's id stays the pass's own. *)
Definition own (id : Z) (p : pstate) : Prop := is_u32 id ∧ ¬ is_live_id (p_db p) id ∧ id < nextID (p_db p).

Lemma own_pause id logs p :
  own id p → steady logs p → ∃ logs', own id (pause p) ∧ steady logs' (pause p).
Proof using Hms.
  intros (Hu & Hnl & Hlt) Hp. destruct (pause_spec m Hms cands logs0 idle M0 logs p Hp) as (k & logs' & [Hp' C _] & _).
  exists logs'. split; [|done]. split; [done|]. unfold p_db in *. split.
  - intros [?|?]%(cf_live _ _ _ _ _ C); [done|lia].
  - pose proof (cf_next _ _ _ _ _ C). lia.
Qed.

Lemma merged_own cc logs nlog p ns : committable cc logs nlog p → newSeg cc = Some ns → own (s_id ns) p ∧ linked_seg ns (p_env p).
Proof using Hms.
  intros [Hp Hcc Hw] E. pose proof (merged_of _ _ _ _ _ _ Hcc ns E) as Hm. split.
  - split; [apply Hm|]. split; [apply Hm|]. by apply (mo_stored _ _ _ _ _ _ _ Hm).
  - split; [apply (sd_inv _ _ _ _ _ _ _ Hp)|apply Hm|]. left. exists []. by apply Hw.
Qed.

Lemma rollback_steady cc logs nlog p :
  committable cc logs nlog p → ∃ logs', steady logs' (compact_rollback cc p).
Proof using Hms.
  intros Hc. unfold compact_rollback. destruct (newSeg cc) as [ns|] eqn:E; [|exists logs; apply Hc].
  destruct (committable_pause _ _ _ _ Hc) as [(logs1 & Hc1) _]. destruct (merged_own _ _ _ _ _ Hc1 E) as [Ho Hl].
  unfold on_env_ at 2. set (p1 := pause p) in *. set (p2 := with_env _ p1).
  assert (Hp2 : steady logs1 p2).
  { destruct Ho as (Hu & Hnl & Hlt). eapply steady_env; [apply Hc1|exact Hu|done|done|]. apply discard_linked; [done|]. by intros []. }
  destruct (own_pause (s_id ns) logs1 p2 Ho Hp2) as (logs2 & (Hu & Hnl & Hlt) & Hp3). exists logs2. unfold on_env_.
  eapply steady_env; [exact Hp3|exact Hu|done|done|]. apply ignore_removeHint_framed; [apply (sd_inv _ _ _ _ _ _ _ Hp3)|].
  by intros [_ []].
Qed.

Lemma submit_commit_spec cc logs nlog p :
  committable cc logs nlog p →
  wp (submit_commit cc) p (λ r p',
    match r with
    | Ok _ => ∃ logs1 p1 unc, committable cc logs1 nlog p1 ∧ (idle → p1 = p)
        ∧ p' = with_state (commit_publish cc (p_db p1), p_env p') p1
        ∧ abs (p_db p') (p_env p') = abs (p_db p1) (p_env p1)
        ∧ db_inv (demoted m unc) (committed_logs logs1 nlog cc) (p_db p') (p_env p')
        ∧ (idle → quiet (p_env p) → unc = false)
    | Err _ => (∃ logs', committable cc logs' nlog p') ∧ ¬ (idle ∧ quiet (p_env p) ∧ submit_gate (p_db p) = None)
    end).
Proof using Hms.
  intros Hc. unfold wp, submit_commit, paused. destruct (committable_pause _ _ _ _ Hc) as [(logs1 & Hc1) Hp1].
  destruct (submit_gate (p_db (pause p))) as [err|] eqn:Eg; cbn [fst snd].
  { split; [by exists logs1|]. intros (Hi & _ & Hn). rewrite (Hp1 Hi) in Eg. congruence. }
  unfold ebind, on_state, paused. destruct (committable_pause _ _ _ _ Hc1) as [(logs2 & Hc2) Hp2].
  assert (Hpi : idle → pause (pause p) = p) by (intros Hi; by rewrite (Hp2 Hi), (Hp1 Hi)).
  set (p2 := pause (pause p)) in *. pose proof (cm_steady _ _ _ _ Hc2) as Hs2. pose proof (sd_inv _ _ _ _ _ _ _ Hs2) as Hi2.
  unfold handleOne, ebind, get_db, fail, eret. destruct (writesDisabled (p_state p2).1) eqn:Ew; cbn [fst snd].
  { split; [exists logs2; by destruct p2|]. intros (Hi & _ & Hn). rewrite (Hpi Hi) in Ew. unfold submit_gate in Hn.
    unfold p_db in Hn. rewrite Ew in Hn. by destruct (closed _). }
  pose proof (handleCompactCommit_spec m logs2 nlog (p_db p2) (p_env p2) cc Hi2 Hms (cm_ok _ _ _ _ Hc2)) as H. unfold wp in H.
  replace (p_state p2) with (p_db p2, p_env p2) by (symmetry; apply surjective_pairing).
  destruct (handleCompactCommit cc (p_db p2, p_env p2)) as [r [db3 e3]]. cbn [fst snd] in H.
  destruct r as [[]|err]; unfold commit_post in H; cbn [fst snd] in H |- *.
  - destruct H as (-> & A & unc & Hi3 & Hq3). exists logs2, p2, unc. split; [done|]. split; [done|]. split; [done|]. split; [exact A|].
    split; [exact Hi3|]. intros Hi Hq. rewrite (Hpi Hi) in Hq3. by apply Hq3.
  - destruct H as (-> & F & Hnq). split.
    + exists logs2. destruct Hc2 as [_ Hcc Hw]. assert (Hcc' : commit_ok m logs2 nlog (p_db p2) e3 cc).
      { eapply commit_framed; [|exact Hcc]. eapply framed_weaken; [exact F|]. by intros n []. }
      split; [|exact Hcc'|exact Hw].
      apply steady_keeps; [done| |done|done]. replace (p_state p2) with (p_db p2, p_env p2) by (symmetry; apply surjective_pairing).
      eapply keeps_framed; [done|exact F|apply reserved_not_tmp].
    + intros (Hi & Hq & _). rewrite (Hpi Hi) in Hnq. done.
Qed.
End prepared.

(** ** A whole pass *)

(** Nothing stands in the way of a pass: nothing happens meanwhile, no call
    fails, the next id's file does not exist and the keys fit a hint file. *)
Definition unhindered (p : pstate) : Prop :=
  p_script p = [] ∧ quiet (p_env p) ∧ d_dir (e_disk (p_env p)) !! segmentFilename (nextID (p_db p)) = None
  ∧ size (index (p_db p)) < 2 ^ 32 ∧ closed (p_db p) = false ∧ writesDisabled (p_db p) = false.

(** What a pass guarantees: the map is that of the requests handled meanwhile. *)
Record compacted (m : mode) (M0 : kvmap) (p : pstate) (r : result unit) (p' : pstate) : Prop := {
  cp_map : abs (p_db p') (p_env p') = apply_served (p_served p').*1 (p_served p').*2 M0;
  cp_inv : ∃ m' logs', db_inv m' logs' (p_db p') (p_env p') ∧ m_stored m' = true ∧ m_newest m' = m_newest m
    ∧ (unhindered p → m_durable m' = m_durable m);
  cp_done : unhindered p → r = Ok tt ∧
    ((compactionMinCandidates <= length (compact_candidates (p_db p)))%nat →
     ∀ id, is_live_id (p_db p') id → active (p_db p) = Some id ∨ id = nextID (p_db p));
}.

Lemma compacted_steady m cands logs0 idle M0 logs p r p' :
  m_stored m = true → steady m cands logs0 idle M0 logs p' →
  (unhindered p → r = Ok tt ∧ (length (compact_candidates (p_db p)) < compactionMinCandidates)%nat) →
  compacted m M0 p r p'.
Proof.
  intros Hms [Hi _ _ _ Hm] Hu. split; [done|by exists m, logs|]. intros H. destruct (Hu H) as [-> ?]. split; [done|lia].
Qed.

(** The snapshot of the candidates. *)
Lemma steady_candidates m cands logs0 idle M0 logs p :
  steady m cands logs0 idle M0 logs p → steady m (compact_candidates (p_db p)) logs idle M0 logs p.
Proof.
  intros [Hi _ Hs Hid Hm]. split; try done. intros c Hc. split; [|done].
  destruct (di_active _ _ _ _ Hi) as (a & sa & Ha & _). by apply (elem_of_candidates _ _ _ _ _ _ Hi Ha).
Qed.

Lemma retired_only m logs logs1 nlog (db : DB) (e : env) db1 e1 cc id :
  db_inv m logs db e → commit_ok m logs1 nlog db1 e1 cc → oldSegs cc = compact_candidates db →
  segs db1 = segs db → is_live_id (commit_publish cc db1) id →
  active db = Some id ∨ ∃ ns, newSeg cc = Some ns ∧ id = s_id ns.
Proof.
  intros Hi Hcc Hold Hsegs [[Hl Hnc]|?]%(live_commit _ _ _ _ _ _ Hcc); [left|by right].
  destruct (decide (active db = Some id)) as [|Hne]; [done|]. exfalso. apply Hnc.
  unfold candidate_ids. rewrite Hold. unfold is_live_id in Hl. rewrite Hsegs in Hl. destruct Hl as [s Hs].
  pose proof (si_id _ _ _ _ _ (di_seg _ _ _ _ Hi _ _ Hs)) as Eid. rewrite <- Eid. apply list_elem_of_fmap_2.
  destruct (di_active _ _ _ _ Hi) as (a & sa & Ha & _). apply (elem_of_candidates _ _ _ _ _ _ Hi Ha). by rewrite Eid.
Qed.

Lemma compactOnce_spec m logs M0 p :
  m_stored m = true → nextID (p_db p) < 2 ^ 32 - 1 →
  steady m [] logs (p_script p = []) M0 logs p → wp compactOnce p (compacted m M0 p).
Proof.
  intros Hms Hn Hp. unfold wp, compactOnce, paused. set (idle := p_script p = []) in *.
  destruct (pause_spec m Hms _ _ _ _ _ _ Hp) as (k1 & logs1 & [Hp1 _ Hn1] & Hi1). set (p1 := pause p) in *.
  destruct (closed (p_db p1)) eqn:Hc; cbn [fst snd].
  { eapply compacted_steady; [done|exact Hp1|]. intros (Hi & _ & _ & _ & H & _). rewrite (Hi1 Hi) in Hc. congruence. }
  destruct (pause_spec m Hms _ _ _ _ _ _ Hp1) as (k2 & logs2 & [Hp2 _ Hn2] & Hi2). set (p2 := pause p1) in *.
  assert (Hi12 : idle → p2 = p) by (intros Hi; by rewrite (Hi2 Hi), (Hi1 Hi)).
  destruct (Nat.ltb_spec (length (compact_candidates (p_db p2))) compactionMinCandidates) as [Hlt|Hge]; cbn [fst snd].
  { eapply compacted_steady; [done|exact Hp2|]. intros (Hi & _). by rewrite (Hi12 Hi) in Hlt. }
  apply steady_candidates in Hp2. pose proof (sd_inv _ _ _ _ _ _ _ Hp2) as Hinv2.
  set (cands := compact_candidates (p_db p2)) in *.
  pose proof (compact_prepare_spec m Hms cands (candidates_NoDup _ _ _ _ Hinv2) logs2 idle M0 logs2 p2 Hp2 (Hn2 (Hn1 Hn))) as Hprep.
  unfold wp in Hprep. unfold ebind. destruct (compact_prepare cands p2) as [r3 p3].
  destruct Hprep as (id & Hdb3 & Hq3 & Hr3). cbn [fst snd] in Hdb3, Hq3, Hr3.
  assert (Hun : unhindered p → is_ok r3 ∧ quiet (p_env p3)).
  { intros (Hi & Hq & Hf & Hz & _). destruct (Hdb3 Hi) as [-> _]. rewrite (Hi12 Hi) in Hq3. by apply Hq3. }
  destruct r3 as [cc|err]; cbn [fst snd].
  2: { destruct Hr3 as [logs3 Hp3]. eapply compacted_steady; [done|exact Hp3|]. intros H. by destruct (Hun H). }
  destruct Hr3 as (logs3 & nlog & Hp3 & Hcc & Hold & Hns).
  assert (Hcm : committable m cands logs2 idle M0 cc logs3 nlog p3) by (split; [done|done|intros; by apply Hns]).
  pose proof (submit_commit_spec m Hms _ _ _ _ _ _ _ _ Hcm) as Hsub. unfold wp in Hsub. unfold on_error.
  destruct (submit_commit cc p3) as [r4 p4]. cbn [fst snd] in Hsub. destruct r4 as [[]|err]; cbn [fst snd].
  - destruct Hsub as (logs4 & p4' & unc & [Hp4 Hcc4 _] & Hi4 & E4 & A4 & Hinv4 & Hunc). split.
    + rewrite A4, (sd_map _ _ _ _ _ _ _ Hp4), E4. done.
    + exists (demoted m unc), (committed_logs logs4 nlog cc). split; [done|]. split; [done|]. split; [done|].
      intros H. pose proof H as (Hi & _). destruct (Hun H) as [_ Hq]. rewrite (Hunc Hi Hq). cbn. apply andb_true_r.
    + intros H. split; [done|]. intros _ i Hl. pose proof H as (Hi & _).
      assert (Edb : p_db p4 = commit_publish cc (p_db p4')) by (by rewrite E4).
      rewrite Edb in Hl. rewrite (Hi4 Hi) in Hl. destruct (Hdb3 Hi) as [Eid Edb3]. rewrite (Hi12 Hi) in Eid, Hinv2.
      eapply (retired_only m logs2 logs3 nlog (p_db p) (p_env p)) in Hl as [?|(ns & En & ->)]; [by left| |done|exact Hcc| |].
      * right. rewrite <- Eid. by apply Hns.
      * unfold cands in Hold. by rewrite Hold, (Hi12 Hi).
      * by rewrite Edb3, (Hi12 Hi).
  - destruct Hsub as [[logs4 Hcm4] Hno]. destruct (rollback_steady m Hms _ _ _ _ _ _ _ _ Hcm4) as [logs5 Hp5].
    eapply compacted_steady; [done|exact Hp5|]. intros H. destruct Hno. pose proof H as (Hi & _ & _ & _ & Hcl & Hw).
    split; [done|]. split; [by apply Hun|]. destruct (Hdb3 Hi) as [_ ->]. rewrite (Hi12 Hi). unfold submit_gate. cbn.
    by rewrite Hcl, Hw.
Qed.

(** The state a pass begins in. *)
Lemma steady_start m logs script served (s : state) M0 :
  db_inv m logs s.1 s.2 → script_ok script → abs s.1 s.2 = apply_served served.*1 served.*2 M0 →
  steady m [] logs (script = []) M0 logs (mkP script served s).
Proof. intros Hi Hs Hm. split; try done. by intros c ?%not_elem_of_nil. Qed.

(** Any number of passes of the background compactor, whatever they meet. *)
Fixpoint loop_room (events : list compactorEvent) (p : pstate) : Prop :=
  match events with
  | Ticked script :: events =>
      let p := mkP script (p_served p) (p_state p) in
      script_ok script ∧ nextID (p_db p) < 2 ^ 32 - 1 ∧ loop_room events (compactOnce p).2
  | _ => True
  end.

Lemma compactorLoop_keeps_map events : ∀ m logs M0 p,
  db_inv m logs (p_db p) (p_env p) → m_stored m = true → loop_room events p →
  abs (p_db p) (p_env p) = apply_served (p_served p).*1 (p_served p).*2 M0 →
  let p' := (compactorLoop events p).2 in
  abs (p_db p') (p_env p') = apply_served (p_served p').*1 (p_served p').*2 M0
  ∧ ∃ m' logs', db_inv m' logs' (p_db p') (p_env p') ∧ m_stored m' = true ∧ m_newest m' = m_newest m.
Proof.
  induction events as [|[script|] events IH]; intros m logs M0 p Hi Hms Hroom Hm; cbn [compactorLoop]; [eauto 8| |eauto 8].
  destruct Hroom as (Hs & Hn & Hroom). set (p0 := mkP script (p_served p) (p_state p)) in *.
  destruct (closed (p_db p0)); [cbn; eauto 8|].
  pose proof (compactOnce_spec m logs M0 p0 Hms Hn (steady_start m logs script (p_served p) (p_state p) M0 Hi Hs Hm)) as Hc.
  unfold wp in Hc. destruct (compactOnce p0) as [r p1].
  destruct Hc as [Hm1 (m1 & logs1 & Hi1 & Hms1 & Hnw1 & _) _]. cbn [fst snd] in *.
  specialize (IH m1 logs1 M0 p1 Hi1 Hms1 Hroom Hm1).
  destruct (compactorLoop events p1) as [warned p2]. cbn in IH |- *. rewrite <- Hnw1. exact IH.
Qed.

Lemma Compact_run m logs script (db : DB) (e : env) r p' :
  db_inv m logs db e → m_stored m = true → nextID db < 2 ^ 32 - 1 → script_ok script →
  Compact (mkP script [] (db, e)) = (r, p') → compacted m (abs db e) (mkP script [] (db, e)) r p'.
Proof.
  intros Hi Hms Hn Hs H. unfold Compact in H.
  pose proof (steady_start m logs script [] (db, e) (abs db e) Hi Hs eq_refl) as Hp.
  change (p_db (mkP script [] (db, e))) with db in H. destruct (closed db) eqn:Hc.
  - injection H as <- <-. eapply compacted_steady; [done|exact Hp|]. intros (_ & _ & _ & _ & E & _). cbn in E. congruence.
  - apply (wp_run _ _ _ _ _ (compactOnce_spec m logs (abs db e) (mkP script [] (db, e)) Hms Hn Hp) H).
Qed.

(** ** Properties *)

(** C8: compaction is invisible, to callers and to a concurrent writer.
    Whatever the writer handles in the pauses of a pass (puts, deletes, batches,
    rotations, fsyncs, and Close beginning), and whatever the outcome of the
    system calls, the map afterwards is that of the handled requests alone, in
    their order, and the database is well formed, so that later calls and Opens
    behave as specified; if nothing stands in its way a pass succeeds, keeps
    what a power loss must not take, and leaves only the active and the merged
    segment. *)
Theorem Compact_keeps_map m logs script (db : DB) (e : env) r p' :
  db_inv m logs db e → m_stored m = true → nextID db < 2 ^ 32 - 1 → script_ok script →
  let p := mkP script [] (db, e) in
  Compact p = (r, p') →
  (closed db = true → r = Err (ESentinel ErrDBClosed) ∧ p' = p) ∧ compacted m (abs db e) p r p'.
Proof.
  intros Hi Hms Hn Hs p H. split; [|by eapply Compact_run]. intros Hc. unfold Compact in H.
  change (p_db p) with db in H. rewrite Hc in H. by injection H as <- <-.
Qed.

(** Four overwritten keys over segments of 64 bytes. *)
Definition crowded : state :=
  (handle_all (concat (replicate 2 [writeKindPut [x61] [x31]; writeKindBatch [mkBatchEntry [x62] [x32] false; mkBatchEntry [x63] [x33] false];
     writeKindDelete [x63]; writeKindPut [x64] [x34; x35]])) (init_db, init_env)).2.

Lemma crowded_inv : ∃ logs, db_inv full_mode logs crowded.1 crowded.2.
Proof.
  unfold crowded. set (burst := concat _).
  destruct (handle_all burst (init_db, init_env)) as [rs s'] eqn:E.
  assert (H : Forall request_ok burst ∧ burst_room full_mode burst (init_db, init_env)).
  { split; [by repeat constructor; decided|]. vm_compute. intuition congruence. }
  destruct (handle_all_spec _ _ _ _ _ _ _ init_inv (proj1 H) (proj2 H) E) as (_ & _ & _ & _ & logs & Hi & _).
  by exists logs.
Qed.

(** While the pass runs, [a] is overwritten before it is scanned, [b] is deleted
    after it was copied, and the active segment is rotated twice. *)
Definition meanwhile : list (list writerStep) :=
  replicate 4 [] ++ [[Handles (writeKindPut [x61] [x39]); Fsyncs]] ++ replicate 19 []
  ++ [[Handles (writeKindPut [x64] [x38; x38]); Handles (writeKindDelete [x62])]; [Handles (writeKindPut [x65] [x35])]].

Definition raced : result unit * pstate := Compact (mkP meanwhile [] crowded).
Definition unraced : result unit * pstate := Compact (mkP [] [] crowded).

Lemma Compact_keeps_map_witness :
  compacted full_mode (abs crowded.1 crowded.2) (mkP meanwhile [] (crowded.1, crowded.2)) raced.1 raced.2
  ∧ compacted full_mode (abs crowded.1 crowded.2) (mkP [] [] (crowded.1, crowded.2)) unraced.1 unraced.2
  ∧ (raced.1, snd <$> p_served raced.2, live_ids (p_db raced.2)) = (Ok tt, replicate 4 (Ok true), [7; 5; 6; 8])
  ∧ (unraced.1, live_ids (p_db unraced.2)) = (Ok tt, [5; 6]).
Proof.
  destruct crowded_inv as [logs Hi].
  assert (Hok : script_ok meanwhile) by (repeat constructor; decided).
  split; [|split; [|split; by vm_compute]].
  - refine (proj2 (Compact_keeps_map full_mode logs meanwhile crowded.1 crowded.2 raced.1 raced.2 Hi eq_refl _ Hok _)).
    + by vm_compute.
    + rewrite <- !surjective_pairing. reflexivity.
  - refine (proj2 (Compact_keeps_map full_mode logs [] crowded.1 crowded.2 unraced.1 unraced.2 Hi eq_refl _ (Forall_nil_2 _) _)).
    + by vm_compute.
    + rewrite <- !surjective_pairing. reflexivity.
Defined.
