(* ===== verification/Snapshot.v ===== *)
(** * Reads are snapshots

    A read that runs beside the writer, a compaction pass and Close returns what
    the map held at one moment of the call: the values a [Get] or a whole
    [ReadKeyRange] finds are those of the keydir lookup, whatever is appended,
    published, merged or about to be rotated in before they are read. *)
From S2P Require Import Prelude LogRecord Keydir Hint Storage Frame Names Publish Manifest HintFile Log Recovery Db Invariant Confined WritePath Rotation Compact Engine Compactor Reader Writes Api Commit.

(** ** What scripts may hold *)

(** A compaction commit stays a request under way until the lock is free, so
    only pauses under the lock may start one. *)
Definition step_ok (locked : bool) (w : others_action) : Prop :=
  match w with
  | Starts (writeKindCompactCommit _) => locked = true
  | Starts req => request_ok req
  | _ => True
  end.

(** The first pause waits for the lock, the others hold it. *)
Definition script_ok (script : list (list others_action)) : Prop :=
  match script with
  | [] => True
  | before :: during => Forall (step_ok false) before ∧ Forall (Forall (step_ok true)) during
  end.

(** The map once the first [n] of the handled requests had been. *)
Definition moment (M : kvmap) (served : list (writeRequest * result bool)) (n : nat) : kvmap :=
  apply_served (take n served).*1 (take n served).*2 M.

(** ** The writer's stages *)

Lemma id_left_glance db : id_left glance db.
Proof. done. Qed.

Lemma winner_grows logs logs' live live' k en nw :
  winner nw logs live k en → logs (fileID en) `prefix_of` logs' (fileID en) → winner false logs' live' k en.
Proof.
  intros [(pre & post & E & _) _] [ls Hls]. split; [|done].
  exists pre, (post ++ logs_updates (fileID en) (0 + zlen (log_images (logs (fileID en)))) ls). split; [|done].
  unfold all_updates in *. by rewrite Hls, logs_updates_app, E, <- app_assoc.
Qed.

(** Until it is published, a record leaves the index as good as it was. *)
Lemma inv_unpublished logs logs' (db db' : DB) (e e' : env) k :
  db_inv glance logs db e → db_inv glance logs' (set_index k db') e' → index db' = index db →
  (∀ id, is_live_id db id → is_live_id db' id ∧ logs id `prefix_of` logs' id) →
  db_inv glance logs' db' e'.
Proof.
  intros Hi [Hd Ho Ha Hs _ Hc Ht _ _ _] Hx Hl. split; try done.
  intros key en. rewrite Hx. intros H. destruct (di_index _ _ _ _ Hi key en H) as [Hlive W].
  destruct (Hl _ Hlive) as [? ?]. split; [done|]. by eapply winner_grows.
Qed.

(** The index with the update of the request under way. *)
Definition with_update (f : keydir → keydir) (db : DB) : DB := set_index (f (index db)) db.

(** A request under way: its record is ready to be written, or its index update
    to be published. *)
Definition under_way (logs : logmap) (req : writeRequest) (s : state) (pr : progress) : Prop :=
  match pr with
  | Replied r => ∃ err, r = Err err
  | Writing w => ∃ l, writes glance l w ∧ log_ok l ∧ log_ts l <= lastTstamp s.1 ∧ fresh_ts logs s.1 (log_ts l)
      ∧ ∀ M, foldl apply_kv M (zip (log_keys l) (log_values l)) = spec_apply req M
  | Indexing f => db_inv glance logs (with_update f s.1) s.2
      ∧ abs (with_update f s.1) s.2 = spec_apply req (abs s.1 s.2)
  | Waiting _ => True
  end.

(** Readers see the old map until an update is published. *)
Definition staged (logs : logmap) (req : writeRequest) (s : state) (pr : progress) (s' : state) : Prop :=
  ∃ logs', keeps glance logs logs' s s' ∧ under_way logs' req s' pr.

Lemma staged_err logs logs' req s err s' : keeps glance logs logs' s s' → staged logs req s (Replied (Err err)) s'.
Proof. intros K. exists logs'. split; [done|]. by exists err. Qed.

(** The append. *)
Lemma write_staged logs req w (db : DB) (e : env) r s' :
  db_inv glance logs db e → under_way logs req (db, e) (Writing w) → w (db, e) = (r, s') →
  staged logs req (db, e) (match r with Ok f => Indexing f | Err err => Replied (Err err) end) s'.
Proof.
  intros Hi (l' & Hw & Hl & Hts & Hf & Hspec) E. pose proof (Hw logs db e Hi Hts Hf) as H. unfold wp in H. rewrite E in H.
  destruct s' as [db1 e1]. destruct H as (a & seg & b & Ha & Hla & Hsid & E1 & _ & H). cbn [fst snd] in *. subst db1.
  destruct r as [f|err]; [|by eapply staged_err].
  destruct H as [Ef Hi1]. set (logs1 := upd logs a (logs a ++ [l'])) in *.
  assert (Hlogs : ∀ id, is_live_id db id → is_live_id (put_segment seg (set_encBuf b db)) id ∧ logs id `prefix_of` logs1 id).
  { intros id Hlid. split; [unfold is_live_id; cbn; apply lookup_insert_is_Some'; by right|].
    unfold logs1, upd. case_decide; [subst; by eexists|done]. }
  exists logs1. assert (Hi0 : db_inv glance logs1 (put_segment seg (set_encBuf b db)) e1).
  { eapply inv_unpublished; [exact Hi|exact Hi1|done|exact Hlogs]. }
  assert (K : keeps glance logs logs1 (db, e) (put_segment seg (set_encBuf b db), e1)).
  { split; cbn [fst snd]; [exact Hi0|done|exact Hlogs|cbn; lia|done..]. }
  split; [exact K|]. split; [exact Hi1|]. cbn [fst snd]. rewrite (keeps_abs _ _ _ _ _ _ _ Hi K), <- Hspec.
  by eapply abs_append.
Qed.

Lemma stage_write_spec locked logs req l rotates w (db : DB) (e : env) pr s' :
  writes glance l w → log_ok l → db_inv glance logs db e → log_ts l <= lastTstamp db → fresh_ts logs db (log_ts l) →
  (∀ M, foldl apply_kv M (zip (log_keys l) (log_values l)) = spec_apply req M) →
  stage_write locked rotates w (db, e) = (pr, s') → staged logs req (db, e) pr s'.
Proof.
  intros Hw Hl Hi Hts Hf Hspec. unfold stage_write. cbn [fst]. destruct (rotates db).
  - destruct locked.
    + pose proof (rotate_prepare_spec glance logs db e Hi (id_left_glance db)) as H. unfold wp in H.
      destruct (rotate_prepare (db, e)) as [[next|err] s1]; intros [= <- <-].
      * destruct H as [K _]. by exists logs.
      * destruct H as (logs1 & K & _). by eapply staged_err.
    + pose proof (rotateActive_spec glance logs db e Hi (id_left_glance db)) as H. unfold wp in H.
      destruct (rotateActive (db, e)) as [r [db1 e1]]. destruct H as (logs1 & K & T & L & _). cbn [fst snd] in *.
      destruct r as [u|err]; intros [= <- <-]; [|by eapply staged_err].
      exists logs1. split; [done|]. exists l. split; [done|]. split; [done|]. split; [cbn [fst]; lia|]. split; [|done].
      by eapply fresh_rotated.
  - intros [= <- <-]. exists logs. split; [by apply keeps_refl|]. by exists l.
Qed.

Lemma staged_ticked logs req (db : DB) (e : env) k pr s' :
  db_inv glance logs db e → lastTstamp db < 2 ^ 63 - 1 →
  (∀ now db1 e1 pr s', is_i64 now → db_inv glance logs db1 e1 → now <= lastTstamp db1 → fresh_ts logs db1 now →
     k now (db1, e1) = (pr, s') → staged logs req (db1, e1) pr s') →
  stage_ticked k (db, e) = (pr, s') → staged logs req (db, e) pr s'.
Proof.
  intros Hi Hroom Hk. unfold stage_ticked. pose proof (tick_spec glance logs db e Hi Hroom) as H. unfold wp in H.
  destruct (tick (db, e)) as [r [db1 e1]]. cbn [fst snd] in H. destruct H as (K & now & -> & Hnow & Hlt & E & D). subst db1.
  intros H. pose proof (kp_inv _ _ _ _ _ K) as Hi1. cbn [fst snd] in Hi1.
  assert (Hf : fresh_ts logs (set_lastTstamp now db) now).
  { intros id l Hid Hin. pose proof (di_ts _ _ _ _ Hi id l Hid Hin). lia. }
  destruct (Hk now _ _ pr s' Hnow Hi1 (Z.le_refl now) Hf H) as (logs' & K2 & Hpr).
  exists logs'. split; [by eapply keeps_trans|done].
Qed.

Lemma commit_staged logs cc (db : DB) (e : env) pr s' :
  db_inv glance logs db e → stage_commit true cc (db, e) = (pr, s') → staged logs (writeKindCompactCommit cc) (db, e) pr s'.
Proof.
  intros Hi. destruct (inv_active _ _ _ _ Hi) as (a & sa & [Ha _] & _).
  unfold stage_commit, commit_prepare. rewrite Ha. cbn zeta.
  destruct (match newSeg cc with Some _ => _ | None => _ end e) as [r1 e1] eqn:E1.
  apply commit_barrier_spec in E1 as [F1 _]; [|apply Hi].
  assert (K : ∀ e2, framed not_manifest (e_disk e) (e_disk e2) → keeps glance logs logs (db, e) (db, e2)).
  { intros e2 F. split; cbn [fst snd]; [|done|done|lia|done..]. by eapply glance_framed. }
  destruct r1 as [[]|err]; [|intros [= <- <-]; eapply staged_err, K; by eapply framed_weaken].
  destruct (writeManifest (commit_live db cc) a e1) as [r2 e2] eqn:E2.
  apply writeManifest_spec in E2 as [F2 _]; [|apply F1].
  assert (K2 : keeps glance logs logs (db, e) (db, e2)).
  { apply K. eapply framed_trans; [|exact F2]. by eapply framed_weaken. }
  destruct r2 as [[]|err]; [intros [= <- <-]; by exists logs|].
  destruct (errors_Is err _); intros [= <- <-]; [by exists logs|by eapply staged_err].
Qed.

Lemma stage_spec locked logs req (db : DB) (e : env) pr s' :
  db_inv glance logs db e → lastTstamp db < 2 ^ 63 - 1 → step_ok locked (Starts req) →
  stage locked req (db, e) = (pr, s') → staged logs req (db, e) pr s'.
Proof.
  intros Hi Hroom Hok. unfold stage. cbn [fst].
  destruct (writesDisabled db); [intros [= <- <-]; by eapply staged_err, keeps_refl|].
  assert (Hrec : ∀ flag k v, key_ok k → value_ok v → record_flag_ok flag v →
    (if flag =? recordFlagPut then writeKindPut k v else writeKindDelete k) = req →
    stage_record locked flag k v (db, e) = (pr, s') → staged logs req (db, e) pr s').
  { intros flag k v Hk Hv Hflag <-. apply staged_ticked; [done..|].
    intros now db1 e1 pr1 s1 Hnow Hi1 Hle Hf. destruct (record_log_ok flag now k v) as [Et Hl]; [done..|].
    eapply stage_write_spec; [by apply write_record_spec|done|done|by rewrite Et|by rewrite Et|].
    intros M. unfold record_log. destruct Hflag as [->|[-> ->]]; done. }
  destruct req as [k v|k|es|cc].
  - destruct Hok. apply (Hrec recordFlagPut); [done|done|by left|done].
  - apply (Hrec recordFlagTombstone); [done|done|by right|done].
  - apply staged_ticked; [done..|]. intros now db1 e1 pr1 s1 Hnow Hi1 Hle Hf.
    eapply stage_write_spec; [by apply write_batch_spec|done|done|done|done|]. intros M. apply spec_apply_batch.
  - cbn in Hok. subst locked. by apply commit_staged.
Qed.

(** ** Other files *)

(** File [ino] goes by none of the names in [P]. *)
Definition spares (P : bytes → Prop) (ino : N) (d : disk) : Prop := ∀ n, P n → d_dir d !! n ≠ Some ino.

Section spares.
Context (P : bytes → Prop) (ino : N).

(** What may be done to it. *)
Definition aside (e e' : env) : Prop :=
  disk_ok (e_disk e) → spares P ino (e_disk e) → framed P (e_disk e) (e_disk e') ∧ spares P ino (e_disk e').

Lemma aside_intro e e' :
  (disk_ok (e_disk e) → spares P ino (e_disk e) → framed P (e_disk e) (e_disk e')) → aside e e'.
Proof using Type. intros H Hd Hs. specialize (H Hd Hs). split; [done|]. intros n Hn. rewrite (fr_dir _ _ _ H n Hn). auto. Qed.

#[local] Instance aside_preorder : PreOrder aside.
Proof using Type.
  split.
  - intros e. apply aside_intro. intros Hd _. by apply framed_refl.
  - intros a b c H1 H2 Hd Hs. destruct (H1 Hd Hs) as [F1 S1]. destruct (H2 (fr_ok _ _ _ F1) S1) as [F2 S2].
    split; [by eapply framed_trans|done].
Qed.

Lemma file_Write_aside bs e : aside e (file_Write ino bs e).2.
Proof using Type.
  apply aside_intro. intros Hd Hs. destruct (file_Write ino bs e) as [r e'] eqn:E.
  apply file_Write_inv in E as [[_ E]|[_ [n E]]]; cbn [snd]; rewrite E; by apply append_data_framed.
Qed.

Lemma bufio_Flush_aside b e : aside e (bufio_Flush ino b e).2.
Proof using Type.
  unfold bufio_Flush. destruct (b_err b); [reflexivity|]. destruct (b_pending b) as [|x p]; [reflexivity|].
  pose proof (file_Write_aside (x :: p) e). by destruct (file_Write ino _ e) as [[] ?].
Qed.

Lemma bufio_WriteRest_aside p b e : aside e (bufio_WriteRest ino p b e).2.
Proof using Type.
  unfold bufio_WriteRest. destruct (bufio_size <? zlen p); [|reflexivity].
  pose proof (file_Write_aside p e). by destruct (file_Write ino p e) as [[] ?].
Qed.

Lemma bufio_Write_aside b p e : aside e (bufio_Write ino b p e).2.
Proof using Type.
  unfold bufio_Write. destruct (b_err b); [reflexivity|]. destruct (_ <=? _); [reflexivity|].
  destruct (b_pending b) as [|x q]; [apply bufio_WriteRest_aside|].
  pose proof (bufio_Flush_aside (mkBufio ((x :: q) ++ slice_to p (bufio_size - zlen (x :: q))) None) e) as H.
  destruct (bufio_Flush ino _ e) as [[[] b'] e']; cbn [snd] in H; [|done]. etransitivity; [exact H|apply bufio_WriteRest_aside].
Qed.
End spares.

Section merged.
Context (P : bytes → Prop) (ns : segment).
#[local] Existing Instance aside_preorder.

Lemma append_aside buf e : aside P (s_file ns) e (Storage.append ns buf e).2.
Proof using Type.
  unfold Storage.append. set (b := match s_bw ns with Some b => b | None => bufio_new end).
  pose proof (bufio_Write_aside P (s_file ns) b buf e) as H. by destruct (bufio_Write _ b buf e) as [[[] ?] ?].
Qed.

Lemma flush_aside e : aside P (s_file ns) e (flush ns e).2.
Proof using Type.
  unfold flush. destruct (s_bw ns) as [b|]; [|reflexivity].
  pose proof (bufio_Flush_aside P (s_file ns) b e) as H. by destruct (bufio_Flush _ b e) as [[[] ?] ?].
Qed.

Lemma flush_file e : s_file (flush ns e).1.2 = s_file ns.
Proof using Type. unfold flush. destruct (s_bw ns); [|done]. by destruct (bufio_Flush _ _ e) as [[[] ?] ?]. Qed.

Lemma sync_aside e : aside P (s_file ns) e (sync ns e).2.
Proof using Type.
  unfold sync. pose proof (flush_aside e) as H. pose proof (flush_file e) as Hf.
  destruct (flush ns e) as [[[u|err] ns'] e1]; cbn [fst snd] in *; [|done]. rewrite Hf.
  destruct (file_Sync (s_file ns) e1) as [r e2] eqn:E. etransitivity; [exact H|]. cbn [snd].
  apply aside_intro. intros Hd _. apply file_Sync_inv in E as [[_ ->]|[_ ->]]; [by apply sync_data_framed|by apply framed_refl].
Qed.

Lemma discard_aside e : ¬ P (s_path ns) → aside P (s_file ns) e (discard_segment ns e).
Proof using Type.
  intros HP. unfold discard_segment. transitivity (ignore (close ns) e).
  - unfold ignore, close. pose proof (flush_aside e) as H. destruct (flush ns e) as [[r ns'] e1]. cbn [snd] in H.
    etransitivity; [exact H|]. apply aside_intro. intros Hd _. destruct (file_Close e1) as [r2 e2] eqn:E.
    apply file_Close_inv in E as [E _]. cbn [snd]. rewrite E. by apply framed_refl.
  - apply aside_intro. intros Hd _. by apply ignore_Remove_framed.
Qed.
End merged.

(** ** What holds at every moment of a read *)

(** The files readers may have to read. *)
Definition live_file (db : DB) (n : bytes) : Prop := ∃ id, is_live_id db id ∧ n = segmentFilename id.

Section readable.
Context (M0 : kvmap).

Record readable (logs : logmap) (p : rdstate) : Prop := {
  rd_inv : db_inv glance logs (r_db p) (r_env p);
  rd_map : abs (r_db p) (r_env p) = apply_served (r_served p).*1 (r_served p).*2 M0;
  rd_writer : ∀ req pr, r_writer p = Some (req, pr) → under_way logs req (r_state p) pr;
}.

(** From one moment to a later one: segments stay and their logs grow. *)
Record later (logs : logmap) (p : rdstate) (logs' : logmap) (p' : rdstate) : Prop := {
  lt_logs : ∀ id, is_live_id (r_db p) id → is_live_id (r_db p') id ∧ logs id `prefix_of` logs' id;
  lt_served : r_served p `prefix_of` r_served p';
}.

Lemma later_refl logs p : later logs p logs p.
Proof using Type. by split. Qed.
Lemma later_trans logs1 p1 logs2 p2 logs3 p3 :
  later logs1 p1 logs2 p2 → later logs2 p2 logs3 p3 → later logs1 p1 logs3 p3.
Proof using Type.
  intros [L1 S1] [L2 S2]. split; [|by etrans]. intros id H. destruct (L1 id H) as [H1 ?]. destruct (L2 id H1) as [? ?].
  split; [done|by etrans].
Qed.

(** The invariant reads these fields only. *)
Lemma glance_scalar logs (db db' : DB) (e : env) :
  segments db' = segments db → active db' = active db → index db' = index db → lastTstamp db' = lastTstamp db →
  db_inv glance logs db e → db_inv glance logs db' e.
Proof using Type.
  destruct db, db'. cbn. intros -> -> -> ->. intros [? ? ? ? ? ? ? _ _ _]. by split.
Qed.

Lemma abs_framed logs (db : DB) (e e' : env) :
  db_inv glance logs db e → framed (live_file db) (e_disk e) (e_disk e') →
  db_inv glance logs db e' ∧ abs db e' = abs db e.
Proof using Type.
  intros Hi F. assert (Hi' : db_inv glance logs db e') by (eapply glance_framed; [done|done|by intros id Hid; exists id]).
  split; [done|]. apply (keeps_abs glance logs logs); [done|]. by split; cbn; auto with lia.
Qed.

(** What is done beside the engine's own files and index. *)
Lemma readable_aside logs p (db' : DB) (e' : env) :
  readable logs p →
  segments db' = segments (r_db p) → active db' = active (r_db p) → index db' = index (r_db p) →
  lastTstamp db' = lastTstamp (r_db p) → framed (live_file (r_db p)) (e_disk (r_env p)) (e_disk e') →
  readable logs (put_state (db', e') p) ∧ later logs p logs (put_state (db', e') p).
Proof using Type.
  intros [Hi Hm Hw] S A X T F. destruct p as [script w served [db e]]. unfold r_db, r_env in *. cbn in *.
  assert (Hs : ∀ k, db_inv glance logs (set_index k db) e →
    db_inv glance logs (set_index k db') e' ∧ abs (set_index k db') e' = abs (set_index k db) e).
  { intros k Hk. destruct (abs_framed logs (set_index k db) e e' Hk F) as [H1 H2]. split.
    - by eapply glance_scalar; [..|exact H1].
    - rewrite <- H2. unfold abs, segs. cbn. by rewrite S. }
  assert (Hdb : ∀ d : DB, set_index (index d) d = d) by (by intros []).
  assert (Hnow : db_inv glance logs db' e' ∧ abs db' e' = abs db e).
  { rewrite <- (Hdb db'), <- (Hdb db), X. apply Hs. by rewrite Hdb. }
  destruct Hnow as [H1 H2]. split; split; unfold r_db, r_env; cbn; [done|by rewrite H2| | |done].
  - intros req pr E. specialize (Hw req pr E). destruct pr as [r|wr|f|rest]; [done| | |done].
    + destruct Hw as (l & ? & ? & ? & Hf & ?). exists l. split; [done|]. split; [done|]. split; [cbn in *; by rewrite T|]. split; [|done].
      intros id x. unfold is_live_id, segs. cbn. rewrite S. apply Hf.
    + destruct Hw as [H3 H4]. unfold with_update in *. cbn [under_way fst snd]. unfold with_update. rewrite X.
      destruct (Hs _ H3) as [H5 H6]. split; [done|]. etransitivity; [exact H6|]. by rewrite H2.
  - unfold is_live_id, segs. rewrite S. by auto.
Qed.

Lemma readable_env logs p e' :
  readable logs p → framed (live_file (r_db p)) (e_disk (r_env p)) (e_disk e') →
  readable logs (put_env e' p) ∧ later logs p logs (put_env e' p).
Proof using Type. intros Hp F. by apply readable_aside. Qed.

(** A merged segment's file is none of the live ones. *)
Lemma foreign_spares logs p ns :
  readable logs p → foreign (r_db p) ns = true →
  spares (live_file (r_db p)) (s_file ns) (e_disk (r_env p)) ∧ ¬ live_file (r_db p) (s_path ns).
Proof using Type.
  intros [Hi _ _] [[[H1%Z.leb_le H2%Z.ltb_lt]%andb_true_iff H3%bool_decide_eq_true]%andb_true_iff H4]%andb_true_iff.
  split.
  - intros n (id & [s Hs] & ->) E. rewrite (si_linked _ _ _ _ _ (di_seg _ _ _ _ Hi _ _ Hs)) in E. injection E as E.
    rewrite forallb_forall in H4. specialize (H4 s). rewrite negb_true_iff, N.eqb_neq in H4. apply H4; [|done].
    apply list_elem_of_In, list_elem_of_fmap. exists (id, s). split; [done|]. by apply elem_of_map_to_list.
  - intros (id & [s Hs] & E). unfold s_path in E. apply segmentFilename_inj in E; [|split; [exact H1|exact H2]|apply (di_seg _ _ _ _ Hi _ _ Hs)]. subst id. congruence.
Qed.

Lemma on_foreign_spec logs p ns f :
  readable logs p →
  (∀ P, ¬ P (s_path ns) → aside P (s_file ns) (r_env p) (f (r_env p))) →
  readable logs (on_foreign ns f p) ∧ later logs p logs (on_foreign ns f p).
Proof using Type.
  intros Hp Hf. unfold on_foreign. destruct (foreign (r_db p) ns) eqn:E; [|split; [done|apply later_refl]].
  destruct (foreign_spares _ _ _ Hp E) as [H1 H2]. apply readable_env; [done|]. apply (Hf _ H2); [apply (rd_inv _ _ Hp)|done].
Qed.

Lemma merges_spec logs p :
  readable logs p →
  let s := ((do! id := claimID in lift (createSegment id)) (r_state p)).2 in
  readable logs (put_state s p) ∧ later logs p logs (put_state s p).
Proof using Type.
  intros Hp. pose proof (rd_inv _ _ Hp) as Hi. destruct p as [script w served [db e]]. unfold r_db, r_env in *. cbn in *.
  unfold ebind, lift. cbn [claimID fst snd]. set (id := to_u32 (to_u32 (nextID db + 1) - 1)).
  destruct (createSegment id e) as [r e'] eqn:E. cbn [snd]. apply readable_aside; [done..|]. cbn.
  apply createSegment_inv in E as [(ino & -> & Hn & E & _)|(err & -> & ->)]; [|apply framed_refl, Hi].
  destruct (create_framed _ _ _ _ _ _ Hi Hn E) as (F & _). eapply framed_weaken; [exact F|].
  intros n (i & [s Hs] & ->) Ei. rewrite <- Ei, (si_linked _ _ _ _ _ (di_seg _ _ _ _ Hi _ _ Hs)) in Hn. done.
Qed.

(** ** Steps and pauses *)

Lemma room_left_clock db : room_left db = true → lastTstamp db < 2 ^ 63 - 1.
Proof using Type. by intros [_ H%Z.ltb_lt]%andb_true_iff. Qed.

Lemma readable_open logs p : readable logs p → segments (r_db p) = Some (segs (r_db p)).
Proof using Type. intros [Hi _ _]. apply Hi. Qed.

Lemma apply_served_snoc served req r :
  apply_served (served ++ [(req, r)]).*1 (served ++ [(req, r)]).*2 M0
  = match r with
    | Ok _ => spec_apply req (apply_served served.*1 served.*2 M0)
    | Err _ => apply_served served.*1 served.*2 M0
    end.
Proof using Type. rewrite !fmap_app, apply_served_app by (by rewrite !length_fmap). by destruct r. Qed.

Lemma step_script locked p w : r_script (step locked p w) = r_script p.
Proof using Type.
  unfold step, advance, on_foreign, put_env, put_state. destruct (segments (r_db p)); [|done].
  destruct w; destruct (r_writer p) as [[? []]|]; try done; repeat (case_match; try done).
Qed.

(** What a step brings about. *)
Definition steps_to (logs : logmap) (p p' : rdstate) : Prop := ∃ logs', readable logs' p' ∧ later logs p logs' p'.

Lemma steps_refl logs p : readable logs p → steps_to logs p p.
Proof using Type. intros Hp. exists logs. split; [done|apply later_refl]. Qed.

(** The writer comes to its next stage. *)
Lemma advance_spec logs p req pr s' :
  readable logs p → staged logs req (r_state p) pr s' → steps_to logs p (advance req pr s' p).
Proof using Type.
  intros [Hi Hm _] (logs' & K & Hpr). destruct p as [script w served [db e]], s' as [db' e']. unfold r_db, r_env in *. cbn in *.
  pose proof (keeps_abs _ _ _ _ _ _ _ Hi K) as A. exists logs'.
  assert (H : ∀ pr', under_way logs' req (db', e') pr' → readable logs' (mkR script (Some (req, pr')) served (db', e'))
    ∧ later logs (mkR script w served (db, e)) logs' (mkR script (Some (req, pr')) served (db', e'))).
  { intros pr' Hpr'. split; split; unfold r_db, r_env; cbn; [apply K|by rewrite A|by intros ?? [= <- <-]|apply K|done]. }
  destruct pr as [r| | |]; try by apply H. destruct Hpr as [err ->].
  split; split; unfold r_db, r_env; cbn; [apply K| |done|apply K|by eexists]. by rewrite apply_served_snoc, A.
Qed.

Lemma starts_spec locked logs p req :
  readable logs p → step_ok locked (Starts req) → steps_to logs p (step locked p (Starts req)).
Proof using Type.
  intros Hp Hok. unfold step. rewrite (readable_open _ _ Hp). destruct (r_writer p) eqn:Hw; [by apply steps_refl|].
  destruct (room_left (r_db p)) eqn:Hroom; [|by apply steps_refl].
  destruct (stage locked req (r_state p)) as [pr s'] eqn:E. apply advance_spec; [done|].
  rewrite (surjective_pairing (r_state p)) in E |- *. eapply stage_spec; [apply Hp|by apply room_left_clock|done|done].
Qed.

Lemma writes_spec locked logs p : readable logs p → steps_to logs p (step locked p Writes).
Proof using Type.
  intros Hp. unfold step. rewrite (readable_open _ _ Hp).
  destruct (r_writer p) as [[req [r|w|f|rest]]|] eqn:Ew; try by apply steps_refl.
  pose proof (rd_writer _ _ Hp _ _ Ew) as Hw. destruct (w (r_state p)) as [r s'] eqn:E. apply advance_spec; [done|].
  rewrite (surjective_pairing (r_state p)) in E, Hw |- *. eapply write_staged; [apply Hp|exact Hw|exact E].
Qed.

(** It publishes an update. *)
Lemma indexes_spec locked logs p : readable logs p → steps_to logs p (step locked p Indexes).
Proof using Type.
  intros Hp. unfold step. rewrite (readable_open _ _ Hp).
  destruct (r_writer p) as [[req [r|w|f|rest]]|] eqn:Ew; try by apply steps_refl.
  destruct Hp as [Hi Hm Hw]. destruct (Hw _ _ Ew) as [H1 H2]. clear Hw. exists logs.
  destruct p as [script w served [db e]]. unfold r_db, r_env in *. cbn in *.
  split; split; unfold r_db, r_env; cbn; [exact H1| |done|done|by eexists].
  rewrite apply_served_snoc, <- Hm. exact H2.
Qed.

Lemma syncs_spec locked logs p : readable logs p → steps_to logs p (step locked p Syncs).
Proof using Type.
  intros Hp. unfold step. rewrite (readable_open _ _ Hp). destruct (r_writer p) eqn:Ew; [by apply steps_refl|]. exists logs.
  pose proof (sync_active_spec glance logs (r_db p) (r_env p) (rd_inv _ _ Hp)) as H. unfold wp in H.
  rewrite (surjective_pairing (r_state p)). unfold r_db, r_env in H.
  destruct (with_active sync ((r_state p).1, (r_state p).2)) as [r [db' e']]. cbn [fst snd] in *.
  destruct H as (_ & -> & F & _). by apply readable_aside.
Qed.

Lemma step_spec locked logs p w :
  readable logs p → step_ok locked w → locked = true ∨ w ≠ Shuts → steps_to logs p (step locked p w).
Proof using Type.
  intros Hp Hw Hsh. destruct w as [req| | | | | | |ns buf|ns|id es|ns]; [by apply starts_spec|..].
  - by apply writes_spec.
  - by apply indexes_spec.
  - by apply syncs_spec.
  - exists logs. unfold step. rewrite (readable_open _ _ Hp). apply readable_aside; [done..|]. apply framed_refl, Hp.
  - destruct Hsh as [->|?]; [|done]. unfold step. rewrite (readable_open _ _ Hp). destruct (r_writer p); by apply steps_refl.
  - exists logs. unfold step. rewrite (readable_open _ _ Hp). by apply merges_spec.
  - exists logs. unfold step. rewrite (readable_open _ _ Hp). apply on_foreign_spec; [done|]. intros P _.
    pose proof (append_aside P ns buf (r_env p)) as H. by destruct (Storage.append ns buf (r_env p)) as [[??]?].
  - exists logs. unfold step. rewrite (readable_open _ _ Hp). apply on_foreign_spec; [done|]. intros P _.
    pose proof (sync_aside P ns (r_env p)) as H. by destruct (sync ns (r_env p)) as [[??]?].
  - exists logs. unfold step. rewrite (readable_open _ _ Hp). apply readable_env; [done|].
    destruct (writeHintFile id es (r_env p)) as [r e'] eqn:E. apply writeHintFile_spec in E as [F _]; [|apply (rd_inv _ _ Hp)].
    eapply framed_weaken; [exact F|]. intros n (i & _ & ->). apply segment_not_hint_file.
  - exists logs. unfold step. rewrite (readable_open _ _ Hp). apply on_foreign_spec; [done|]. intros P HP. by apply discard_aside.
Qed.

Lemma rpause_spec logs p :
  readable logs p → Forall (Forall (step_ok true)) (r_script p) → ∃ logs',
  readable logs' (rpause true p) ∧ later logs p logs' (rpause true p) ∧ Forall (Forall (step_ok true)) (r_script (rpause true p)).
Proof using Type.
  intros Hp Hs. unfold rpause. destruct (r_script p) as [|ws script] eqn:E.
  - exists logs. rewrite E. split; [done|]. split; [apply later_refl|done].
  - apply Forall_cons in Hs as [Hws Hs].
    set (q := mkR script (r_writer p) (r_served p) (r_state p)).
    assert (Hq : readable logs q) by (destruct Hp; by split).
    assert (∃ logs', readable logs' (foldl (step true) q ws) ∧ later logs q logs' (foldl (step true) q ws)
      ∧ r_script (foldl (step true) q ws) = r_script q) as (logs' & H1 & [L S] & H3); [|exists logs'; by rewrite H3].
    clearbody q. clear -Hq Hws. revert logs q Hq. induction Hws as [|w ws Hw Hws IH]; intros logs q Hq.
    + exists logs. split; [done|]. split; [apply later_refl|done].
    + destruct (step_spec true logs q w Hq Hw) as (logs1 & H1 & L1); [by left|]. destruct (IH logs1 _ H1) as (logs2 & H2 & L2 & E2).
      exists logs2. split; [done|]. split; [by eapply later_trans|]. cbn [foldl]. rewrite E2. apply step_script.
Qed.
End readable.

(** Before the lock is taken the engine is open or has been shut down. *)
Definition available (M0 : kvmap) (p : rdstate) : Prop :=
  (∃ logs, readable M0 logs p) ∨ segments (r_db p) = None ∧ closed (r_db p) = true.

Lemma Close_closes s : (Close s).2.1 = s.1 ∧ closed s.1 = true
  ∨ segments (Close s).2.1 = None ∧ closed (Close s).2.1 = true.
Proof.
  unfold Close. destruct (closed s.1) eqn:Hc; [by left|right]. cbn zeta.
  destruct (match active s.1 with Some _ => _ | None => _ end) as [err1 s1]. unfold closeAllSegmentsLocked.
  destruct (close_each _ s1.2) as [err2 e2]. by destruct (match err1 with Some _ => _ | None => _ end).
Qed.

Lemma Close_done s : closed s.1 = true → (Close s).2 = s.
Proof. unfold Close. by intros ->. Qed.

Lemma free_step_spec M0 p w : available M0 p → step_ok false w → available M0 (step false p w).
Proof.
  intros [[logs Hp]|[H1 H2]] Hok; [|right; unfold step; by rewrite H1].
  assert (Hsh : w = Shuts ∨ w ≠ Shuts) by (destruct w; (by left) || (by right)). destruct Hsh as [->|Hne].
  - unfold step. rewrite (readable_open _ _ _ Hp). destruct (r_writer p); [by left; exists logs|].
    destruct (closed (r_db p)) eqn:Hc.
    + left. rewrite Close_done by done. exists logs. destruct Hp. by split.
    + right. destruct (Close_closes (r_state p)) as [[_ E]|?]; [unfold r_db in Hc; congruence|done].
  - left. destruct (step_spec M0 false logs p w Hp Hok) as (logs' & ? & _); [by right|by exists logs'].
Qed.

Lemma free_pause_spec M0 p before during :
  available M0 p → r_script p = before :: during → Forall (step_ok false) before →
  available M0 (rpause false p) ∧ r_script (rpause false p) = during.
Proof.
  intros Hp E Hb. unfold rpause. rewrite E. set (q := mkR during (r_writer p) (r_served p) (r_state p)).
  assert (Hq : available M0 q) by (destruct Hp as [[logs [? ? ?]]|?]; [left; exists logs; by split|by right]).
  assert (Es : r_script q = during) by done. clearbody q. clear -Hq Hb Es. revert q Hq Es.
  induction Hb as [|w ws Hw Hws IH]; intros q Hq Es; [done|]. apply IH; [by apply free_step_spec|by rewrite step_script].
Qed.

(** ** Reading later *)

(** The value of an entry found at one moment is read at any later one. *)
Lemma read_later M0 logs0 p0 logs p k en :
  readable M0 logs0 p0 → readable M0 logs p → later logs0 p0 logs p → index (r_db p0) !! k = Some en →
  ∃ seg, segs (r_db p) !! fileID en = Some seg ∧
  ∀ r e', read_entry seg en (r_env p) = (r, e') → e_disk e' = e_disk (r_env p) ∧
  match r with Ok v => abs (r_db p0) (r_env p0) !! k = Some v | Err err => err = ESentinel EIO end.
Proof.
  intros H0 Hp [Hl _] Hk. destruct (inv_entry _ _ _ _ (rd_inv _ _ _ H0) _ _ Hk) as (s0 & Hs0 & Hin & _ & Hv & _).
  destruct (Hl (fileID en)) as [[seg Hseg] [ls Hls]]; [by exists s0|]. exists seg. split; [done|].
  destruct (inv_file _ _ _ _ (rd_inv _ _ _ Hp) _ _ Hseg) as [tail Ht]. rewrite Hls, log_images_app, <- app_assoc in Ht.
  assert (Habs : abs (r_db p0) (r_env p0) !! k = Some (entry_value_in (file_data (e_disk (r_env p)) (s_file seg)) en)).
  { unfold abs. rewrite lookup_omap, Hk. cbn. rewrite Hv, Ht. unfold log_value. by rewrite entry_value_app. }
  assert (Hbound : valuePos en + valueLen en <= zlen (file_data (e_disk (r_env p)) (s_file seg))).
  { rewrite Ht, zlen_app. pose proof (zlen_nonneg (log_images ls ++ tail)). destruct Hin as (? & ? & ?). lia. }
  intros r e' Hr. unfold read_entry, readAt in Hr. destruct (Z.ltb_spec 0 (valueLen en)).
  - apply file_ReadAt_inv in Hr as [D Hr]; [|done]. split; [done|]. destruct Hr as [->|[-> _]]; [exact Habs|done].
  - injection Hr as <- <-. split; [done|]. rewrite Habs. unfold entry_value_in.
    destruct Hin as (? & ? & ?). replace (valuePos en + valueLen en) with (valuePos en) by lia.
    unfold slice. by rewrite Z.sub_diag.
Qed.

(** A read changes nothing. *)
Lemma readable_read M0 logs p e' :
  readable M0 logs p → e_disk e' = e_disk (r_env p) → readable M0 logs (put_env e' p) ∧ later logs p logs (put_env e' p).
Proof. intros Hp D. apply readable_env; [done|]. rewrite D. apply framed_refl, Hp. Qed.

(** ** Properties *)

Section reads.
Context (M0 : kvmap).

(** An earlier moment's map is one of those the handled requests went through. *)
Lemma moment_at logs p served :
  readable M0 logs p → r_served p `prefix_of` served → ∃ n, moment M0 served n = abs (r_db p) (r_env p).
Proof using Type.
  intros Hp [rest ->]. exists (length (r_served p)). unfold moment. rewrite take_app_length. symmetry. apply Hp.
Qed.

Definition locked_ok (p : rdstate) : Prop := Forall (Forall (step_ok true)) (r_script p).

(** Taking the lock. *)
Lemma lock_spec script s :
  available M0 (reading script s) → script_ok script →
  let p := rpause false (reading script s) in
  closed (r_db p) = true ∨ (∃ logs, readable M0 logs p) ∧ locked_ok p.
Proof using Type.
  intros Ha Hs. cbn zeta. destruct script as [|before during].
  - destruct Ha as [[logs Hp]|[_ ?]]; [right|by left]. split; [by exists logs|constructor].
  - destruct Hs as [Hb Hd]. destruct (free_pause_spec M0 (reading (before :: during) s) before during Ha eq_refl Hb) as [[Hp|[_ ?]] E].
    + right. split; [done|]. unfold locked_ok. by rewrite E.
    + by left.
Qed.

(** What a read of one key may return when the map holds [x] for it. *)
Definition get_outcome (x : option bytes) (r : result bytes) : Prop :=
  match r with
  | Ok v => x = Some v
  | Err err => err = ESentinel ErrKeyNotFound ∧ x = None
      ∨ err = EWrap "engine: read value: %w" [ESentinel EIO] ∧ is_Some x
  end.

Lemma Get_locked logs p k :
  readable M0 logs p → locked_ok p →
  let '(r, p') := match Keydir.get (index (r_db p)) k with
    | None => (Err (ESentinel ErrKeyNotFound), p)
    | Some entry =>
      let p := rpause true p in
      match segs (r_db p) !! fileID entry with
      | None => (Err (ESentinel ErrKeyNotFound), p)
      | Some seg =>
        match read_entry seg entry (r_env p) with
        | (Err err, e) => (Err (EWrap "engine: read value: %w" [err]), put_env e p)
        | (Ok buf, e) => (Ok buf, put_env e p)
        end
      end
    end in
  (∃ logs', readable M0 logs' p') ∧ ∃ n, get_outcome (moment M0 (r_served p') n !! k) r.
Proof using Type.
  intros Hp Hs. unfold Keydir.get. destruct (index (r_db p) !! k) as [en|] eqn:Hk.
  - destruct (rpause_spec _ _ _ Hp Hs) as (logs1 & Hp1 & L1 & _). cbn zeta.
    destruct (read_later _ _ _ _ _ _ _ Hp Hp1 L1 Hk) as (seg & -> & Hr).
    destruct (read_entry seg en (r_env (rpause true p))) as [r e'] eqn:E. destruct (Hr r e' eq_refl) as [D Hv].
    destruct (readable_read _ _ _ e' Hp1 D) as [Hp2 _].
    destruct (moment_at _ _ _ Hp (lt_served _ _ _ _ L1)) as [n Hn].
    assert (Hsome : is_Some (abs (r_db p) (r_env p) !! k)).
    { unfold abs. rewrite lookup_omap, Hk. cbn.
      destruct (inv_entry _ _ _ _ (rd_inv _ _ _ Hp) _ _ Hk) as (s & _ & _ & _ & -> & _). done. }
    destruct r as [v|err]; (split; [by exists logs1|]); exists n; unfold get_outcome; cbn [r_served put_env put_state]; rewrite Hn.
    + done.
    + right. by subst err.
  - split; [by exists logs|]. destruct (moment_at _ _ _ Hp (reflexivity (r_served p))) as [n Hn]. exists n. rewrite Hn. left. split; [done|].
    unfold abs. by rewrite lookup_omap, Hk.
Qed.

Lemma put_env_id p : put_env (r_env p) p = p.
Proof using Type. by destruct p as [? ? ? []]. Qed.

Lemma materialise_locked logs0 p0 pairs : ∀ logs p r p',
  readable M0 logs0 p0 → readable M0 logs p → later logs0 p0 logs p → locked_ok p →
  (∀ k en, (k, en) ∈ pairs → index (r_db p0) !! k = Some en) →
  materialise pairs p = (r, p') →
  (∃ logs', readable M0 logs' p' ∧ later logs0 p0 logs' p') ∧
  match r with
  | Ok l => l.*1 = pairs.*1 ∧ ∀ k v, (k, v) ∈ l → abs (r_db p0) (r_env p0) !! k = Some v
  | Err err => err = EWrap "engine: ReadKeyRange read value for key %q: %w" [ESentinel EIO]
  end.
Proof using Type.
  induction pairs as [|[k en] pairs IH]; intros logs p r p' H0 Hp L Hs Hin H.
  - injection H as <- <-. split; [by exists logs|]. split; [done|]. by intros k v ?%not_elem_of_nil.
  - cbn [materialise] in H. destruct (rpause_spec _ _ _ Hp Hs) as (logs1 & Hp1 & L1 & Hs1).
    pose proof (later_trans _ _ _ _ _ _ L L1) as L01.
    destruct (read_later _ _ _ _ _ k en H0 Hp1 L01) as (seg & Eseg & Hr); [apply Hin; by left|]. rewrite Eseg in H.
    fold (read_entry seg en) in H. destruct (read_entry seg en (r_env (rpause true p))) as [r1 e1] eqn:E1.
    destruct (Hr _ _ eq_refl) as [D Hv]. destruct (readable_read _ _ _ e1 Hp1 D) as [Hp2 L2].
    pose proof (later_trans _ _ _ _ _ _ L01 L2) as L02.
    destruct r1 as [v|err]; [|injection H as <- <-; split; [by exists logs1|by subst err]].
    destruct (materialise pairs (put_env e1 (rpause true p))) as [r2 p2] eqn:E2.
    destruct (IH logs1 _ _ _ H0 Hp2 L02 Hs1 ltac:(intros; apply Hin; by right) E2) as [Hp' H2].
    destruct r2 as [l|err]; injection H as <- <-; (split; [done|]); [|done].
    destruct H2 as [H2 H3]. split; [cbn; by rewrite H2|]. intros k' v' [[= -> ->]|?]%elem_of_cons; auto.
Qed.
End reads.

(** The engine has been shut down or is left open, its map that of the requests
    the writer has handled. *)
Definition left_open (M0 : kvmap) (p : rdstate) : Prop :=
  closed (r_db p) = true ∨ ∃ logs, readable M0 logs p.

Lemma reading_available m logs (db : DB) (e : env) script :
  db_inv m logs db e → available (abs db e) (reading script (db, e)).
Proof. intros Hi. left. exists logs. split; [by eapply inv_glance|done|done]. Qed.

(** C20: Get is linearisable.  Whatever the writer appends, publishes or is about
    to rotate or commit while it runs, whatever a compaction pass does beside it,
    and even when Close runs: a Get returns what the map held for the key at one
    moment of the call, ErrKeyNotFound only for a key that was not in the map at
    that moment and ErrDBClosed only when the engine has been closed. *)
Theorem Get_linearises m logs (db : DB) (e : env) script k r p :
  db_inv m logs db e → script_ok script → Get k (reading script (db, e)) = (r, p) →
  left_open (abs db e) p ∧
  if zlen k =? 0 then r = Err (ESentinel ErrEmptyKey)
  else closed (r_db p) = true ∧ r = Err (ESentinel ErrDBClosed)
       ∨ ∃ n, get_outcome (moment (abs db e) (r_served p) n !! k) r.
Proof.
  intros Hi Hs H. pose proof (reading_available _ _ _ _ script Hi) as Ha. unfold Get in H.
  destruct (zlen k =? 0).
  { injection H as <- <-. split; [|done]. right. destruct Ha as [?|[? _]]; [done|]. cbn in *. by rewrite (di_open _ _ _ _ Hi) in *. }
  destruct (closed (r_db (reading script (db, e)))) eqn:Hc; [injection H as <- <-; split; [by left|by left]|].
  pose proof (lock_spec _ _ _ Ha Hs) as Hl. cbn zeta in Hl. set (p1 := rpause false _) in *.
  destruct (closed (r_db p1)) eqn:Hc1; [injection H as <- <-; split; [by left|by left]|].
  destruct Hl as [?|[[logs1 Hp1] Hs1]]; [congruence|].
  destruct (rpause_spec _ _ _ Hp1 Hs1) as (logs2 & Hp2 & _ & Hs2).
  pose proof (Get_locked _ _ _ k Hp2 Hs2) as Hg. cbn zeta in Hg, H.
  assert (E : ∀ seg en q, match read_entry seg en (r_env q) with
      | (Err err, e) => (Err (EWrap "engine: read value: %w" [err]), put_env e q)
      | (Ok buf, e) => (Ok buf, put_env e q) end
    = if 0 <? valueLen en then
        match readAt seg (valueLen en) (valuePos en) (r_env q) with
        | (Err err, e) => (Err (EWrap "engine: read value: %w" [err]), put_env e q)
        | (Ok buf, e) => (Ok buf, put_env e q)
        end
      else (Ok [], q)).
  { intros seg en q. unfold read_entry. destruct (0 <? valueLen en); [done|]. cbn [eret]. by rewrite put_env_id. }
  destruct (Keydir.get _ k) as [en|].
  - destruct (segs (r_db (rpause true (rpause true p1))) !! fileID en) as [seg|].
    + rewrite E, H in Hg. destruct Hg as [? ?]. split; [by right|by right].
    + injection H as <- <-. split; right; apply Hg.
  - injection H as <- <-. split; right; apply Hg.
Qed.

(** C7: ReadKeyRange is a snapshot.  Under the same interference, the callback is
    run over the bindings with start <= key < end that the map had at one moment
    of the call, all of them and no others, in ascending key order, up to where
    it asked to stop; a failed read yields an error before the callback is ever
    run. *)
Theorem ReadKeyRange_snapshot {A} m logs (db : DB) (e : env) script start end_
    (fn : option (bytes → bytes → A → bool * A)) (a : A) r p :
  db_inv m logs db e → script_ok script → ReadKeyRange start end_ fn a (reading script (db, e)) = (r, p) →
  left_open (abs db e) p ∧
  match r with
  | Ok out => ∃ f n l, fn = Some f ∧ range_of (moment (abs db e) (r_served p) n) start end_ l ∧ out = visit f l a
  | Err err => fn = None ∨ closed (r_db p) = true ∧ err = ESentinel ErrDBClosed
      ∨ err = EWrap "engine: ReadKeyRange read value for key %q: %w" [ESentinel EIO]
  end.
Proof.
  intros Hi Hs H. pose proof (reading_available _ _ _ _ script Hi) as Ha. unfold ReadKeyRange in H.
  assert (H0 : left_open (abs db e) (reading script (db, e))).
  { right. destruct Ha as [?|[? _]]; [done|]. cbn in *. by rewrite (di_open _ _ _ _ Hi) in *. }
  destruct fn as [f|]; [|injection H as <- <-; split; [done|by left]].
  destruct (closed (r_db (reading script (db, e)))) eqn:Hc; [injection H as <- <-; split; [by left|right; by left]|].
  destruct (match start, end_ with Some x, Some y => _ | _, _ => false end) eqn:Hempty.
  { injection H as <- <-. split; [done|]. exists f, 0%nat, []. split; [done|]. split; [by apply range_of_empty|done]. }
  pose proof (lock_spec _ _ _ Ha Hs) as Hl. cbn zeta in Hl, H. set (p1 := rpause false _) in *.
  destruct (closed (r_db p1)) eqn:Hc1; [injection H as <- <-; split; [by left|right; by left]|].
  destruct Hl as [?|[[logs1 Hp1] Hs1]]; [congruence|].
  destruct (rpause_spec _ _ _ Hp1 Hs1) as (logs2 & Hp2 & _ & Hs2). set (p2 := rpause true p1) in *.
  destruct (materialise (snapshotRange (index (r_db p2)) start end_) p2) as [r3 p3] eqn:E3.
  destruct (materialise_locked _ _ _ _ _ _ _ _ Hp2 Hp2 (later_refl _ _) Hs2
    ltac:(intros k en Hkn; by apply elem_of_snapshotRange in Hkn as [? _]) E3) as [(logs3 & Hp3 & L3) Hr].
  destruct r3 as [l|err]; injection H as <- <-; (split; [right; by exists logs3|]); [|by right; right].
  destruct Hr as [Hkeys Hvals]. destruct (moment_at _ _ _ _ Hp2 (lt_served _ _ _ _ L3)) as [n Hn].
  exists f, n, l. split; [done|]. split; [|done]. rewrite Hn. by apply range_of_snapshot.
Qed.

(** A reader among a writer's requests, one of them half done when the lock is
    taken, a compaction pass and a beginning Close. *)
Definition busy : list (list others_action) :=
  [[Starts (writeKindPut [x61] [x31]); Writes; Indexes; Starts (writeKindPut [x62] [x32]); Writes];
   [Indexes; Merges];
   [Starts (writeKindPut [x61] [x39]); Writes; Indexes; Closing];
   [Starts (writeKindDelete [x62]); Writes; Indexes]].

Lemma busy_ok : script_ok busy.
Proof. split; repeat constructor; decided. Qed.

(** The value of the lookup, not the newer one that is in the file by then; and a
    range whose keys have since been overwritten and deleted. *)
Lemma busy_reads :
  (Get [x61] (reading busy (init_db, init_env))).1 = Ok [x31]
  ∧ (ReadKeyRange None None (Some (λ k v l, (true, (k, v) :: l))) [] (reading busy (init_db, init_env))).1
    = Ok [([x62], [x32]); ([x61], [x31])].
Proof. split; vm_compute; reflexivity. Qed.

Lemma Get_linearises_witness :
  let rp := Get [x61] (reading busy (init_db, init_env)) in
  left_open (abs init_db init_env) rp.2 ∧
  if zlen [x61] =? 0 then rp.1 = Err (ESentinel ErrEmptyKey)
  else closed (r_db rp.2) = true ∧ rp.1 = Err (ESentinel ErrDBClosed)
       ∨ ∃ n, get_outcome (moment (abs init_db init_env) (r_served rp.2) n !! [x61]) rp.1.
Proof.
  intros rp. apply (Get_linearises full_mode (λ _, []) init_db init_env busy [x61] rp.1 rp.2);
    [apply init_inv|apply busy_ok|apply surjective_pairing].
Defined.

Lemma ReadKeyRange_snapshot_witness :
  let collect (k v : bytes) (acc : list (bytes * bytes)) := (true, (k, v) :: acc) in
  let rp := ReadKeyRange (Some [x61]) None (Some collect) [] (reading busy (init_db, init_env)) in
  left_open (abs init_db init_env) rp.2 ∧
  match rp.1 with
  | Ok out => ∃ f n l, Some collect = Some f
      ∧ range_of (moment (abs init_db init_env) (r_served rp.2) n) (Some [x61]) None l ∧ out = visit f l []
  | Err err => Some collect = None ∨ closed (r_db rp.2) = true ∧ err = ESentinel ErrDBClosed
      ∨ err = EWrap "engine: ReadKeyRange read value for key %q: %w" [ESentinel EIO]
  end.
Proof.
  intros collect rp.
  apply (ReadKeyRange_snapshot full_mode (λ _, []) init_db init_env busy (Some [x61]) None (Some collect) [] rp.1 rp.2);
    [apply init_inv|apply busy_ok|apply surjective_pairing].
Defined.
