(* ===== verification/OpenSteps.v ===== *)
(** * The steps of Open when nothing fails

    Each phase of [Open] run on a disk whose calls succeed: what it returns, what
    it changes and what it leaves alone. *)
From S2P Require Import Prelude LogRecord Keydir Storage Frame Names Publish Manifest HintFile Log Recovery Db Invariant WritePath Rotation Compact Engine.

(** ** The lock file *)

Definition not_lock (n : bytes) : Prop := n ≠ lockFilename.

Lemma segment_not_lock id : not_lock (segmentFilename id).
Proof. intros H%(f_equal filepath_Ext). rewrite Ext_segmentFilename in H. discriminate. Qed.
Lemma hint_not_lock id : not_lock (hintFilename id).
Proof. intros H%(f_equal filepath_Ext). rewrite Ext_hintFilename in H. discriminate. Qed.
Lemma manifest_not_lock : not_lock manifestFilename.
Proof. unfold not_lock. decided. Qed.

Lemma acquire_quiet e :
  disk_ok (e_disk e) → quiet e →
  ∃ e', acquireDataDirLock e = (Ok tt, e') ∧ quiet e' ∧ framed not_lock (e_disk e) (e_disk e').
Proof.
  intros Hd Hq. unfold acquireDataDirLock, ebind, on_error, os_open_create. rewrite sys_no_faults by done. cbn [fst snd].
  unfold flockExclusiveNonblocking, on_error, flock. destruct (d_dir (e_disk e) !! lockFilename) as [i|] eqn:E; cbn [fst snd].
  - rewrite sys_no_faults by done. eexists. split; [done|]. split; [done|]. by apply framed_refl.
  - rewrite sys_no_faults by done. eexists. split; [done|]. split; [done|]. apply alloc_framed; [done|done|]. by intros ?.
Qed.

(** ** Listing and opening the segments *)

Lemma scan_digits_are w : ∀ s, Forall (λ b, is_digit b = true) (scan_digits w s).1.
Proof.
  induction w as [|w IH]; intros [|b s]; cbn; try constructor. destruct (is_digit b) eqn:E; [|constructor].
  specialize (IH s). destruct (scan_digits w s). by constructor.
Qed.
Lemma digits_value_nonneg ds : Forall (λ b, is_digit b = true) ds → 0 <= digits_value ds.
Proof.
  induction ds as [|b ds IH] using rev_ind; [done|]. rewrite Forall_app, Forall_singleton, digits_value_snoc.
  intros [H Hb]. specialize (IH H). unfold is_digit in Hb. apply andb_prop in Hb as [Hb _]. apply Z.leb_le in Hb. lia.
Qed.
Lemma segment_id_u32 n id : segment_id_of n = Some id → is_u32 id.
Proof.
  unfold segment_id_of, Sscanf_id. case_decide; [|done]. pose proof (scan_digits_are 10 (skip_blanks n)) as Hsc.
  destruct (scan_digits 10 (skip_blanks n)) as [ds r]. cbn [fst] in Hsc. case_bool_decide; [done|].
  destruct (Z.leb_spec (2 ^ 32) (digits_value ds)); [done|]. destruct (has_prefix _ r); [|done]. intros [= <-].
  split; [by apply digits_value_nonneg|done].
Qed.

(** The ids of the segment files in the directory. *)
Definition on_disk (d : disk) (id : Z) : Prop := ∃ n, is_Some (d_dir d !! n) ∧ segment_id_of n = Some id.

Lemma on_disk_segment d id : is_u32 id → is_Some (d_dir d !! segmentFilename id) → on_disk d id.
Proof. intros Hu H. exists (segmentFilename id). split; [done|]. by apply segment_id_of_filename. Qed.

Lemma listSegments_quiet e :
  quiet e → ∃ ids e', listSegments e = (Ok ids, e') ∧ quiet e' ∧ e_disk e' = e_disk e
    ∧ StronglySorted Z.le ids ∧ ∀ id, id ∈ ids ↔ on_disk (e_disk e) id.
Proof.
  intros Hq. destruct (listSegments e) as [r e'] eqn:E. pose proof E as E'. apply listSegments_inv in E' as [D Hr].
  unfold listSegments, ebind in E. rewrite os_ReadDir_quiet in E by done. injection E as <- <-.
  eexists _, _. split; [done|]. split; [done|]. split; [done|]. exact Hr.
Qed.

Definition opened (d : disk) (id : Z) (seg : segment) : Prop :=
  ∃ ino, d_dir d !! segmentFilename id = Some ino ∧ seg = mkSegment id ino None (zlen (file_data d ino)).

Lemma openSegment_quiet id ino e :
  quiet e → d_dir (e_disk e) !! segmentFilename id = Some ino →
  openSegmentReadWrite id e
    = (Ok (mkSegment id ino None (zlen (file_data (e_disk e) ino))), mkEnv (e_disk e) [] (e_clock e)).
Proof.
  intros Hq Hino. unfold openSegmentReadWrite, ebind, on_error. rewrite os_open_quiet, Hino by done.
  by rewrite file_Size_quiet.
Qed.

Lemma open_segments_quiet B ids : ∀ (db : DB) (e : env),
  quiet e → segments db = Some (segs db) → 0 <= nextID db <= B → B < 2 ^ 32 →
  (∀ id, id ∈ ids → 0 <= id < B ∧ is_Some (d_dir (e_disk e) !! segmentFilename id)) →
  ∃ m n e', open_segments ids (db, e) = (Ok tt, (set_nextID n (set_segments (Some m) db), e'))
    ∧ quiet e' ∧ e_disk e' = e_disk e ∧ nextID db <= n <= B ∧ (∀ id, id ∈ ids → id < n)
    ∧ (∀ id, id ∈ ids → ∃ seg, m !! id = Some seg ∧ opened (e_disk e) id seg)
    ∧ (∀ id, id ∉ ids → m !! id = segs db !! id).
Proof.
  induction ids as [|id ids IH]; intros db e Hq Hs Hn HB Hids.
  - exists (segs db), (nextID db), e. split; [destruct db; cbn in *; by rewrite <- Hs|].
    split; [done|]. split; [done|]. split; [lia|]. split; [by intros id ?%not_elem_of_nil|].
    split; [by intros id ?%not_elem_of_nil|done].
  - destruct (Hids id) as [Hb [ino Hino]]; [by left|]. cbn [open_segments]. unfold ebind, lift, modify. cbn [fst snd].
    rewrite (openSegment_quiet _ _ _ Hq Hino). cbn iota beta. cbn [fst snd].
    set (seg := mkSegment id ino None (zlen (file_data (e_disk e) ino))).
    set (e1 := mkEnv (e_disk e) [] _).
    set (n1 := Z.max (nextID db) (id + 1)).
    assert (Hdb : (let db0 := set_segments (Some (<[id:=seg]> (segs db))) db in
        if nextID db0 <? to_u32 (id + 1) then set_nextID (to_u32 (id + 1)) db0 else db0)
      = set_nextID n1 (set_segments (Some (<[id:=seg]> (segs db))) db)).
    { cbn zeta. rewrite to_u32_small by lia. change (nextID (set_segments _ db)) with (nextID db). unfold n1.
      destruct (Z.ltb_spec (nextID db) (id + 1)); [by rewrite Z.max_r by lia|]. rewrite Z.max_l by lia. by destruct db. }
    cbv zeta in Hdb |- *. rewrite Hdb. set (db1 := set_nextID n1 _).
    destruct (IH db1 e1) as (m & n & e2 & E & Hq2 & D2 & Hn2 & Hlt & Hin & Hout); [done|done|cbn; unfold n1; lia|done| |].
    { intros id' H. apply Hids. by right. }
    exists m, n, e2. split; [exact E|]. split; [done|]. split; [done|]. cbn [nextID db1 set_nextID set_segments] in Hn2. split; [unfold n1 in Hn2; lia|].
    split; [intros id' [->|H]%elem_of_cons; [unfold n1 in Hn2; lia|auto]|]. split.
    + intros id' [->|H]%elem_of_cons; [|by apply Hin]. destruct (decide (id ∈ ids)); [by apply Hin|].
      exists seg. rewrite Hout by done. cbn. rewrite lookup_insert_eq. split; [done|]. by exists ino.
    + intros id' [Hne H]%not_elem_of_cons. rewrite Hout by done. cbn. by rewrite lookup_insert_ne.
Qed.

Lemma skip_orphan_spec B onDisk (db : DB) :
  StronglySorted Z.le onDisk → (∀ id, id ∈ onDisk → 0 <= id < B) → 0 <= nextID db <= B → B < 2 ^ 32 →
  ∃ n, skip_orphan_ids onDisk db = set_nextID n db ∧ nextID db <= n <= B ∧ ∀ id, id ∈ onDisk → id < n.
Proof.
  intros Hs Hids Hn HB. unfold skip_orphan_ids. destruct (last onDisk) as [x|] eqn:El.
  2: { exists (nextID db). apply last_None in El as ->. split; [by destruct db|]. split; [lia|]. by intros id ?%not_elem_of_nil. }
  apply last_Some in El as [l ->]. assert (Hx : 0 <= x < B) by (apply Hids, elem_of_app; right; by left).
  assert (Hmax : ∀ id, id ∈ l ++ [x] → id <= x).
  { clear -Hs. induction l as [|y l IH]; cbn in *; intros id H.
    - apply list_elem_of_singleton in H. lia.
    - apply StronglySorted_inv in Hs as [Hs Hy]. apply elem_of_cons in H as [->|H]; [|auto].
      rewrite Forall_forall in Hy. apply Hy, elem_of_app. right. by left. }
  rewrite to_u32_small by lia. destruct (Z.ltb_spec (nextID db) (x + 1)).
  - exists (x + 1). split; [done|]. split; [lia|]. intros id H1. specialize (Hmax id H1). lia.
  - exists (nextID db). split; [by destruct db|]. split; [lia|]. intros id H1. specialize (Hmax id H1). lia.
Qed.

(** ** The orphan sweep *)

Definition kept (live : list Z) (n : bytes) : Prop := ∀ id, orphan_id n = Some id → id ∈ live.

Lemma orphan_id_segment id : is_u32 id → orphan_id (segmentFilename id) = Some id.
Proof.
  intros Hu. unfold orphan_id. rewrite Ext_segmentFilename. rewrite decide_True by auto.
  unfold segmentFilename. by rewrite Sscanf_id_decimal.
Qed.
Lemma orphan_id_hint id : is_u32 id → orphan_id (hintFilename id) = Some id.
Proof.
  intros Hu. unfold orphan_id. rewrite Ext_hintFilename. rewrite decide_True by auto.
  unfold hintFilename. by rewrite Sscanf_id_decimal.
Qed.
Lemma kept_segment live id : is_u32 id → id ∈ live → kept live (segmentFilename id).
Proof. intros Hu H id' Hid. rewrite orphan_id_segment in Hid by done. by injection Hid as <-. Qed.
Lemma kept_hint live id : is_u32 id → id ∈ live → kept live (hintFilename id).
Proof. intros Hu H id' Hid. rewrite orphan_id_hint in Hid by done. by injection Hid as <-. Qed.
Lemma kept_manifest live : kept live manifestFilename.
Proof. intros id H. by vm_compute in H. Qed.

Lemma ignore_Remove_quiet name e : quiet e → ignore (os_Remove name) e = mkEnv (unlink name (e_disk e)) [] (e_clock e).
Proof. intros Hq. unfold ignore, os_Remove. by rewrite sys_no_faults. Qed.

Lemma sweep_names_quiet live names : ∀ e,
  disk_ok (e_disk e) → quiet e →
  quiet (sweep_names live names e) ∧ framed (kept live) (e_disk e) (e_disk (sweep_names live names e))
  ∧ (∀ n, d_dir (e_disk e) !! n = None → d_dir (e_disk (sweep_names live names e)) !! n = None)
  ∧ (∀ n id, n ∈ names → orphan_id n = Some id → id ∉ live → d_dir (e_disk (sweep_names live names e)) !! n = None).
Proof.
  induction names as [|name names IH]; intros e Hd Hq; cbn [sweep_names].
  { split; [done|]. split; [by apply framed_refl|]. split; [done|]. by intros n id ?%not_elem_of_nil. }
  set (e1 := match orphan_id name with Some _ => _ | None => _ end).
  assert (H1 : quiet e1 ∧ framed (kept live) (e_disk e) (e_disk e1)
    ∧ (∀ n, d_dir (e_disk e) !! n = None → d_dir (e_disk e1) !! n = None)
    ∧ (∀ id, orphan_id name = Some id → id ∉ live → d_dir (e_disk e1) !! name = None)).
  { unfold e1. destruct (orphan_id name) as [id|] eqn:Eo.
    2: { split; [done|]. split; [by apply framed_refl|]. by split. }
    case_decide as Hin; [split; [done|]; split; [by apply framed_refl|]; split; [done|]; intros ? [= <-]; done|].
    rewrite ignore_Remove_quiet by done. cbn [e_disk]. split; [done|]. split.
    - apply unlink_framed; [done|]. intros Hk. by apply Hin, Hk.
    - cbn. split; [intros n Hn; by rewrite lookup_delete_None; right|]. intros ? _ _. apply lookup_delete_eq. }
  destruct H1 as (Q1 & F1 & N1 & R1). destruct (IH e1 (fr_ok _ _ _ F1) Q1) as (Q2 & F2 & N2 & R2).
  split; [done|]. split; [by eapply framed_trans|]. split; [auto|].
  intros n id [->|H]%elem_of_cons Ho Hl; [|by eapply R2]. apply N2. by eapply R1.
Qed.

Lemma sweepOrphans_quiet live a e :
  disk_ok (e_disk e) → quiet e → manifest_of (e_disk e) = Ok (live, a) →
  let e' := ignore sweepOrphans e in
  quiet e' ∧ framed (kept live) (e_disk e) (e_disk e')
  ∧ (∀ n id, orphan_id n = Some id → id ∉ live → d_dir (e_disk e') !! n = None).
Proof.
  intros Hd Hq Hm e'. unfold e', ignore, sweepOrphans. destruct (readManifest e) as [r e1] eqn:E1.
  pose proof (readManifest_spec _ _ _ E1) as [D1 _]. destruct (readManifest_quiet e Hq) as (e1' & E1' & Hq1).
  rewrite E1 in E1'. injection E1' as -> ->. rewrite Hm. rewrite os_ReadDir_quiet by done. cbn [snd].
  set (e2 := mkEnv (e_disk e1') [] (e_clock e1')). assert (D2 : e_disk e2 = e_disk e) by done.
  destruct (sweep_names_quiet live (merge_sort bytes_le (elements (dom (d_dir (e_disk e1'))))) e2) as (Q & F & N & R);
    [by rewrite D2|done|]. split; [done|]. split; [by rewrite D2 in F|].
  intros n id Ho Hl. destruct (d_dir (e_disk e1') !! n) eqn:En; [|by apply N].
  apply (R n id); [|done|done]. rewrite merge_sort_Permutation, elem_of_elements, elem_of_dom. by eexists.
Qed.
