(* ===== verification/Reopen.v ===== *)
(** * Restarting: Open rebuilds the map

    What a disk must hold for [Open] to restore a database and the proof that it
    then does: the index is the replay of the logs, and what was on stable storage
    before is there still, a fresh active segment included. *)
From S2P Require Import Prelude LogRecord Keydir Storage Frame Names Publish Manifest HintFile Log Recovery Db Invariant WritePath Rotation Compact Engine Writes Api OpenSteps.

(** ** Lists of live ids *)

Lemma ascending_sorted l : strictly_ascending l = true → StronglySorted Z.lt l.
Proof.
  intros H. apply Sorted_StronglySorted; [intros x y z; lia|]. induction l as [|x [|y l] IH]; [constructor|by repeat constructor|].
  cbn [strictly_ascending] in H. apply andb_prop in H as [Hx H]. apply negb_true_iff, Z.leb_gt in Hx.
  constructor; [by apply IH|]. by constructor.
Qed.

Lemma sorted_lt_facts l : StronglySorted Z.lt l → NoDup l ∧ StronglySorted Z.le l ∧ dedup l = l.
Proof.
  induction 1 as [|x l Hl (IHn & IHs & IHd) Hx]; [split_and!; constructor|]. rewrite Forall_forall in Hx.
  split; [|split].
  - constructor; [|done]. intros Hin. specialize (Hx x Hin). lia.
  - constructor; [done|]. apply Forall_forall. intros y Hy. specialize (Hx y Hy). lia.
  - destruct l as [|y l]; [done|]. change (dedup (x :: y :: l)) with (if x =? y then dedup (y :: l) else x :: dedup (y :: l)).
    assert (x < y) by (apply Hx; by left). destruct (Z.eqb_spec x y); [lia|]. by rewrite IHd.
Qed.

(** The live ids of a DB, when its segments are those of [live]. *)
Lemma live_ids_are (db : DB) live :
  StronglySorted Z.lt live → (∀ id, is_live_id db id ↔ id ∈ live) →
  sort_ids (live_ids db) = live ∧ canonical (live_ids db) = live.
Proof.
  intros Hs Hl. destruct (sorted_lt_facts live Hs) as (Hnd & Hle & Hd).
  assert (live_ids db ≡ₚ live) as Hp.
  { apply NoDup_Permutation; [unfold live_ids; apply NoDup_elements|done|]. intros id. by rewrite elem_of_live_ids. }
  assert (sort_ids (live_ids db) = live) as E by (rewrite (sort_ids_unique _ _ Hp); by apply sort_ids_id).
  split; [done|]. unfold canonical. by rewrite E.
Qed.

Lemma hint_harmless_seg d s s' ls :
  s_id s = s_id s' → s_size s = s_size s' → hint_harmless d s ls → hint_harmless d s' ls.
Proof.
  intros Hid Hsz. destruct s as [i f b z], s' as [i' f' b' z']. cbn in *. subst. done.
Qed.

(** ** The replayed index *)

Lemma lookup_replay_update kd u k :
  replay_update kd u !! k =
  if decide (u_key u = k) then
    match u_entry u, kd !! k with
    | Some en, Some old => Some (if tstamp old <=? tstamp en then en else old)
    | Some en, None => Some en
    | None, Some old => if tstamp old <=? u_ts u then None else Some old
    | None, None => None
    end
  else kd !! k.
Proof.
  unfold replay_update. destruct (decide (u_key u = k)) as [<-|Hne], (u_entry u) as [en|].
  - rewrite lookup_putIfNewer. by case_match.
  - case_match eqn:E; [|done]. case_match; [by rewrite lookup_delete_eq|done].
  - by rewrite lookup_putIfNewer_ne.
  - repeat case_match; by rewrite ?lookup_delete_ne.
Qed.

(** An entry of the replayed index was written by one of the updates. *)
Lemma replay_written us k en : ∀ kd : keydir,
  foldl replay_update kd us !! k = Some en → kd !! k = Some en ∨ ∃ u, u ∈ us ∧ u_key u = k ∧ u_entry u = Some en.
Proof.
  induction us as [|u us IH]; intros kd H; [by left|]. cbn [foldl] in H.
  destruct (IH _ H) as [E|(u' & Hu' & ?)]; [|right; exists u'; split; [by right|done]].
  rewrite lookup_replay_update in E. case_decide as Hk; [|by left].
  assert (Hin : u_entry u = Some en → ∃ u', u' ∈ u :: us ∧ u_key u' = k ∧ u_entry u' = Some en) by (exists u; split; [by left|done]).
  repeat case_match; simplify_eq; auto.
Qed.

(** What the newest update of a key wrote is there after the replay. *)
Lemma replay_newest pre post k en :
  (∀ u old, u ∈ pre ++ post → u_entry u = Some old → tstamp old = u_ts u) →
  (∀ u, u ∈ pre → u_key u = k → u_ts u <= tstamp en) →
  (∀ u, u ∈ post → u_key u = k → u_ts u < tstamp en) →
  foldl replay_update ∅ (pre ++ mkUpdate k (tstamp en) (Some en) :: post) !! k = Some en.
Proof.
  intros Hts Hpre Hpost. rewrite foldl_app. cbn [foldl].
  assert (H1 : ∀ old, foldl replay_update ∅ pre !! k = Some old → tstamp old <= tstamp en).
  { intros old [H|(u & Hu & Hk & He)]%replay_written; [by rewrite lookup_empty in H|].
    rewrite (Hts u old) by (done || (apply elem_of_app; by left)). auto. }
  assert (H2 : replay_update (foldl replay_update ∅ pre) (mkUpdate k (tstamp en) (Some en)) !! k = Some en).
  { rewrite lookup_replay_update, decide_True by done. cbn. case_match eqn:E; [|done]. specialize (H1 _ eq_refl).
    by destruct (Z.leb_spec (tstamp k0) (tstamp en)); [|lia]. }
  revert H2. generalize (replay_update (foldl replay_update ∅ pre) (mkUpdate k (tstamp en) (Some en))). clear H1.
  induction post as [|u post IH]; intros kd Hkd; [done|]. cbn [foldl]. apply IH.
  - intros u' old Hu'. apply Hts. set_solver.
  - intros u' Hu'. apply Hpost. by right.
  - rewrite lookup_replay_update. case_decide as Hk; [|done]. rewrite Hkd. specialize (Hpost u ltac:(by left) Hk).
    destruct (u_entry u) as [e|] eqn:Eu.
    + rewrite <- (Hts u e) in Hpost by (done || set_solver). by destruct (Z.leb_spec (tstamp en) (tstamp e)); [lia|].
    + by destruct (Z.leb_spec (tstamp en) (u_ts u)); [lia|].
Qed.

Lemma elem_of_replayed logs (live : list Z) u :
  u ∈ concat (all_updates logs <$> live) ↔ ∃ id, id ∈ live ∧ u ∈ all_updates logs id.
Proof.
  rewrite list_elem_of_In, in_concat. split.
  - intros (us & Hus & Hu). apply list_elem_of_In, list_elem_of_fmap in Hus as (id & -> & Hid). exists id.
    split; [done|by apply list_elem_of_In].
  - intros (id & Hid & Hu). exists (all_updates logs id). split; [|by apply list_elem_of_In].
    by apply list_elem_of_In, list_elem_of_fmap_2.
Qed.

(** Whatever the order of the segments: the newest update is what the replay of
    the logs finds. *)
Lemma winner_replayed logs ids k en :
  NoDup ids → fileID en ∈ ids → (∀ id, id ∈ ids → Forall log_ok (logs id)) →
  winner true logs (λ id, id ∈ ids) k en →
  foldl replay_update ∅ (concat (all_updates logs <$> ids)) !! k = Some en.
Proof.
  intros Hnd Hin Hok [(pre & post & E & Hpre & Hpost) Ho]. destruct (list_elem_of_split _ _ Hin) as (l1 & l2 & ->).
  rewrite fmap_app, concat_app. cbn [fmap list_fmap concat]. rewrite E, <- app_assoc, app_assoc. cbn [app].
  assert (Hother : ∀ u, u ∈ concat (all_updates logs <$> l1) ++ concat (all_updates logs <$> l2) → u_key u = k → u_ts u < tstamp en).
  { intros u Hu Hk. rewrite <- concat_app, <- fmap_app in Hu. apply elem_of_replayed in Hu as (id & Hid & Hu).
    apply (Ho id u); [set_solver| |done..]. intros ->. apply NoDup_app in Hnd as (_ & H1 & [H2 _]%NoDup_cons).
    apply elem_of_app in Hid as [Hid|Hid]; [by apply (H1 _ Hid); left|done]. }
  apply replay_newest.
  - intros u old Hu He. assert (Hu' : ∃ id, id ∈ l1 ++ fileID en :: l2 ∧ u ∈ all_updates logs id).
    { apply elem_of_replayed. rewrite fmap_app, concat_app. cbn [fmap list_fmap concat]. rewrite E. set_solver. }
    destruct Hu' as (id & Hid & Hu'). assert (Eu : u = mkUpdate (u_key u) (u_ts u) (Some old)) by (destruct u; cbn in *; congruence).
    rewrite Eu in Hu'. by destruct (backed_entry _ _ _ _ _ (Hok id Hid) Hu') as (_ & ? & _).
  - intros u [Hu|Hu]%elem_of_app Hk; [|by apply Hpre]. apply Z.lt_le_incl, Hother; [set_solver|done].
  - intros u [Hu|Hu]%elem_of_app Hk; [by apply Hpost|]. apply Hother; [set_solver|done].
Qed.

(** ** A database between recovery and service *)

Section ready.
(** Whether the index is known to be the one the last process had, and whether
    all that Open relies on is known to be on stable storage. *)
Context (nw ds : bool).

(** The segments of [live], their hints and the manifest, settled. *)
Record all_settled (live : list Z) (d : disk) : Prop := {
  as_segment : ∀ id, id ∈ live → settled d (segmentFilename id);
  as_hint : ∀ id, id ∈ live → settled d (hintFilename id);
  as_manifest : settled d manifestFilename;
}.

Lemma all_settled_framed (P : bytes → Prop) live d d' :
  framed P d d' → P manifestFilename → (∀ id, id ∈ live → P (segmentFilename id) ∧ P (hintFilename id)) →
  all_settled live d → all_settled live d'.
Proof using Type.
  intros F HPm HP [S H M]. split; [| |by eapply framed_settled].
  - intros id Hl. eapply framed_settled; [exact F|by apply HP|by apply S].
  - intros id Hl. eapply framed_settled; [exact F|by apply HP|by apply H].
Qed.

Record ready (logs : logmap) (live : list Z) (ma : Z) (db : DB) (e : env) : Prop := {
  rd_disk : disk_ok (e_disk e);
  rd_sorted : StronglySorted Z.lt live;
  rd_ma : ma ∈ live;
  rd_last : nw = true → ∀ id, id ∈ live → id <= ma;
  rd_open : segments db = Some (segs db);
  rd_live : ∀ id, is_live_id db id ↔ id ∈ live;
  rd_manifest : manifest_of (e_disk e) = Ok (live, ma);
  rd_seg : ∀ id s, segs db !! id = Some s →
    s_id s = id ∧ is_u32 id ∧ d_dir (e_disk e) !! segmentFilename id = Some (s_file s)
    ∧ Forall log_ok (logs id) ∧ file_data (e_disk e) (s_file s) = log_images (logs id)
    ∧ s_size s = zlen (log_images (logs id))
    ∧ s_bw s = if decide (active db = Some id) then Some bufio_new else None;
  rd_hint : ∀ id s, segs db !! id = Some s →
    if decide (id = ma) then d_dir (e_disk e) !! hintFilename id = None
    else hint_harmless (e_disk e) s (logs id);
  rd_index : index db = foldl replay_update ∅ (concat (all_updates logs <$> live));
  rd_winner : ∀ k en, index db !! k = Some en → fileID en ∈ live ∧ winner nw logs (λ id, id ∈ live) k en;
  rd_clock : is_i64 (lastTstamp db);
  rd_ts : ∀ id l, id ∈ live → l ∈ logs id → log_ts l <= lastTstamp db;
  rd_next : is_u32 (nextID db);
  rd_below : ∀ id, id ∈ live → id < nextID db;
  rd_enabled : writesDisabled db = false;
  rd_closed : closed db = false;
  rd_settled : ds = true → all_settled live (e_disk e);
}.

(** With an active segment and no hint for an id to come, it is open. *)
Lemma ready_inv logs live ma (db : DB) (e : env) :
  ready logs live ma db e → active db = Some ma →
  (∀ id, is_u32 id → is_Some (d_dir (e_disk e) !! hintFilename id) → id ∈ live ∨ id < nextID db) →
  db_inv (mkMode true ds nw nw) logs db e.
Proof using Type.
  intros [Hd Hso Hma Hla Ho Hli Hman Hseg Hh Hx Hw Hc Ht Hn Hb He Hcl Hst] Ha Hhb.
  destruct (live_ids_are db live Hso Hli) as [Hsort Hcan].
  split; cbn; [done|done| | | |done| | | |].
  - apply Hli in Hma as [s Hs]. by exists ma, s.
  - intros id s Hs. destruct (Hseg id s Hs) as (Hid & Hu & Hlk & Hok & Hdat & Hsz & Hbw). split; [done..|].
    cbn zeta. rewrite Hdat. destruct (decide (active db = Some id)).
    + left. split; [|done]. split; [by eapply (dk_linked _ Hd)|]. split; [done|]. by rewrite Hdat.
    + split; [by left|]. done.
  - intros k en Hk. destruct (Hw k en Hk) as [Hl W]. split; [by apply Hli|]. eapply winner_live; [|exact W].
    intros id. symmetry. apply Hli.
  - intros id l Hl. apply Ht. by apply Hli.
  - intros _. split.
    + intros a _ Hact. assert (a = ma) as -> by congruence. by rewrite Hcan.
    + done.
    + intros id Hu [Hl|Hh']; [apply Hb; by apply Hli|]. destruct (Hhb id Hu Hh') as [Hl|?]; [by apply Hb|done].
    + intros id s Hs. specialize (Hh id s Hs). rewrite Ha. destruct (decide (id = ma)) as [->|Hne].
      * by rewrite decide_True.
      * by rewrite decide_False by congruence.
  - intros Hds. destruct (Hst Hds) as [S H M]. split.
    + intros id Hl%Hli. by apply S.
    + intros id Hl%Hli _. by apply S.
    + intros id Hl%Hli. by apply H.
    + by intros _.
  - cbn. intros Hxt. split.
    + by rewrite Hsort.
    + intros a id Hact Hl%Hli. assert (a = ma) as -> by congruence. by apply Hla.
    + intros id Hl%Hli. by apply Hb.
Qed.

(** A change outside the names of [live]. *)
Lemma ready_framed (P : bytes → Prop) logs live ma (db : DB) (e e' : env) :
  framed P (e_disk e) (e_disk e') → P manifestFilename →
  (∀ id, id ∈ live → is_u32 id → P (segmentFilename id) ∧ P (hintFilename id)) →
  ready logs live ma db e → ready logs live ma db e'.
Proof.
  intros F HPm HP [Hd Hso Hma Hla Ho Hli Hman Hseg Hh Hx Hw Hc Ht Hn Hb He Hcl Hst].
  assert (Hu : ∀ id, id ∈ live → is_u32 id) by (intros id [s Hs]%Hli; by destruct (Hseg id s Hs) as (_ & ? & _)).
  split; [apply F|done..| | | |done|done|done|done|done|done|done|done|].
  - unfold manifest_of. by rewrite (framed_read _ _ _ _ F).
  - intros id s Hs. destruct (Hseg id s Hs) as (Hid & _ & Hlk & Hok & Hdat & Hr).
    destruct (HP id) as [HPs _]; [apply Hli; by exists s|apply Hu, Hli; by exists s|].
    split; [done|]. split; [apply Hu, Hli; by exists s|]. split; [by rewrite (fr_dir _ _ _ F)|]. split; [done|].
    by rewrite (framed_data _ _ _ _ _ F HPs Hlk).
  - intros id s Hs. destruct (Hseg id s Hs) as (Hid & _). specialize (Hh id s Hs).
    destruct (HP id) as [_ HPh]; [apply Hli; by exists s|apply Hu, Hli; by exists s|].
    case_decide; [by rewrite (fr_dir _ _ _ F)|]. eapply hint_harmless_framed; [exact F| |done]. by rewrite Hid.
  - intros Hds. eapply all_settled_framed; [exact F|done| |by apply Hst]. auto.
Qed.

(** ** Choosing the active segment *)

Lemma ready_seg_of logs live ma db e id :
  ready logs live ma db e → id ∈ live → ∃ s, segs db !! id = Some s.
Proof. intros H Hl. by apply (rd_live _ _ _ _ _ H) in Hl as [s Hs]; exists s. Qed.

(** The recovered active segment is full enough for a fresh one, or takes the
    next append. *)
Lemma promote_full logs live ma (db : DB) (e : env) s :
  ready logs live ma db e → segs db !! ma = Some s → MaxSegmentSize (opts db) <= s_size s →
  promote_active true ma (db, e) = (Ok tt, (db, e)).
Proof. intros H Hs Hf. unfold promote_active. rewrite Hs. destruct (Z.ltb_spec (s_size s) (MaxSegmentSize (opts db))); [lia|done]. Qed.

Definition appendable (s : segment) : segment := mkSegment (s_id s) (s_file s) (Some bufio_new) (s_size s).

Lemma promote_room logs live ma (db : DB) (e : env) s :
  ready logs live ma db e → active db = None → quiet e → segs db !! ma = Some s → s_size s < MaxSegmentSize (opts db) →
  let db' := set_active (Some ma) (put_segment (appendable s) db) in
  ∃ e', promote_active true ma (db, e) = (Ok tt, (db', e')) ∧ quiet e' ∧ e_disk e' = e_disk e
    ∧ ready logs live ma db' e'.
Proof.
  intros H Ha Hq Hs Hf db'. unfold promote_active. rewrite Hs. destruct (Z.ltb_spec (s_size s) (MaxSegmentSize (opts db))); [|lia].
  unfold file_SeekEnd. rewrite sys_no_faults by done. eexists. split; [done|]. split; [done|]. split; [done|].
  destruct H as [Hd Hso Hma Hla Ho Hli Hman Hseg Hh Hx Hw Hc Ht Hn Hb He Hcl Hst].
  destruct (Hseg _ _ Hs) as (Hid & Hu & Hlk & Hok & Hdat & Hsz & Hbw).
  assert (Hlive : ∀ id, is_live_id db' id ↔ is_live_id db id).
  { intros id. unfold is_live_id, db'. cbn. rewrite Hid, lookup_insert_is_Some'. split; [intros [<-|?]; [by exists s|done]|auto]. }
  split; cbn; try done.
  - intros id. by rewrite Hlive.
  - intros id x Hx'. rewrite Hid in Hx'. apply lookup_insert_Some in Hx' as [[<- <-]|[Hne Hx']].
    + cbn. rewrite decide_True by done. done.
    + destruct (Hseg _ _ Hx') as (? & ? & ? & ? & ? & ? & Hb'). rewrite Ha in Hb'. rewrite decide_False in Hb' by done.
      rewrite decide_False by congruence. done.
  - intros id x Hx'. rewrite Hid in Hx'. apply lookup_insert_Some in Hx' as [[<- <-]|[Hne Hx']]; [|by apply Hh].
    specialize (Hh _ _ Hs). by rewrite decide_True in * by done.
Qed.

Lemma alloc_at d name : d_dir (alloc name d).2 !! name = Some (d_next d) ∧ file_data (alloc name d).2 (d_next d) = [].
Proof. unfold file_data. cbn. by rewrite !lookup_insert_eq. Qed.

Lemma createSegment_quiet id e :
  quiet e → d_dir (e_disk e) !! segmentFilename id = None →
  createSegment id e = (Ok (mkSegment id (d_next (e_disk e)) (Some bufio_new) 0),
                        mkEnv (alloc (segmentFilename id) (e_disk e)).2 [] (e_clock e)).
Proof. intros Hq H. unfold createSegment, ebind, on_error. by rewrite os_create_excl_quiet. Qed.

Section fresh.
Context (logs : logmap) (live : list Z) (ma : Z) (db : DB) (e : env).
Context (H : ready logs live ma db e) (Ha : active db = None) (Hq : quiet e).
Context (Hn : nextID db < 2 ^ 32 - 1) (Hlt : ∀ id, id ∈ live → id < nextID db).
Context (Hfree : d_dir (e_disk e) !! segmentFilename (nextID db) = None).
Context (Hhint : d_dir (e_disk e) !! hintFilename (nextID db) = None).
Abbreviation n := (nextID db).
Let next : segment := mkSegment n (d_next (e_disk e)) (Some bufio_new) 0.
Let db' : DB := set_active (Some n) (put_segment next (set_nextID (n + 1) db)).
Let e1 : env := mkEnv (alloc (segmentFilename n) (e_disk e)).2 [] (e_clock e).

Lemma fresh_active_quiet : fresh_active (db, e) = (Ok true, (db', e1)).
Proof using H Ha Hq Hn Hfree.
  pose proof (rd_next _ _ _ _ _ H) as [Hn0 _]. unfold fresh_active, ebind, get_db. cbn [fst snd]. rewrite Ha.
  unfold claimID, lift, modify. cbn [fst snd]. rewrite (to_u32_small (n + 1)) by lia. rewrite Z.add_simpl_r, to_u32_small by lia.
  by rewrite createSegment_quiet.
Qed.

Lemma fresh_e1_framed : framed (λ x, x ≠ segmentFilename n) (e_disk e) (e_disk e1).
Proof using H Hfree. apply alloc_framed; [apply H|done|]. by intros ?. Qed.

Lemma fresh_live id : is_live_id db' id ↔ id ∈ live ++ [n].
Proof using H.
  unfold is_live_id, db'. cbn. rewrite lookup_insert_is_Some', elem_of_app, list_elem_of_singleton.
  pose proof (rd_live _ _ _ _ _ H id) as Hl. unfold is_live_id in Hl. split; intros [?|?]; [right; congruence|left; by apply Hl|right; by apply Hl|left; congruence].
Qed.

Lemma fresh_sorted : StronglySorted Z.lt (live ++ [n]).
Proof using H Hlt.
  apply StronglySorted_app_2; [|apply H|repeat constructor]. intros x y Hx ->%list_elem_of_singleton. by apply Hlt.
Qed.

Abbreviation logs' := (upd logs n []).

Lemma fresh_lookup id s : segs db' !! id = Some s → (n = id ∧ next = s) ∨ (n ≠ id ∧ segs db !! id = Some s).
Proof using Type. intros Hs. change (<[n := next]> (segs db) !! id = Some s) in Hs. by apply lookup_insert_Some in Hs. Qed.
Lemma fresh_ne id : id ∈ live → id ≠ n.
Proof using Hlt. intros Hl%Hlt. lia. Qed.
Lemma fresh_last id : id ∈ live ++ [n] → id < n + 1.
Proof using Hlt. intros [Hl%Hlt|Hl%list_elem_of_singleton]%elem_of_app; lia. Qed.

Section written.
Context (e2 : env) (F2 : framed not_manifest (e_disk e1) (e_disk e2)).

Lemma fresh_framed : framed (λ x, x ≠ segmentFilename n ∧ not_manifest x) (e_disk e) (e_disk e2).
Proof using H Hfree F2.
  eapply framed_trans; eapply framed_weaken; [apply fresh_e1_framed|by intros x []|exact F2|by intros x []].
Qed.

Lemma fresh_seg id s :
  segs db' !! id = Some s →
  s_id s = id ∧ is_u32 id ∧ d_dir (e_disk e2) !! segmentFilename id = Some (s_file s)
  ∧ Forall log_ok (logs' id) ∧ file_data (e_disk e2) (s_file s) = log_images (logs' id)
  ∧ s_size s = zlen (log_images (logs' id))
  ∧ s_bw s = if decide (active db' = Some id) then Some bufio_new else None.
Proof using H Ha Hlt Hfree Hhint F2.
  pose proof (rd_seg _ _ _ _ _ H) as Hseg. intros [[<- <-]|[Hne Hs]]%fresh_lookup.
  - rewrite upd_eq, decide_True by done. cbn [s_id s_file s_size s_bw next].
    destruct (alloc_at (e_disk e) (segmentFilename n)) as [A1 A2].
    split; [done|]. split; [apply H|]. split; [by rewrite (fr_dir _ _ _ F2) by apply segment_not_manifest|].
    split; [constructor|]. split; [|done].
    rewrite (framed_data _ _ _ (segmentFilename n) _ F2 (segment_not_manifest n) A1). exact A2.
  - destruct (Hseg _ _ Hs) as (Hid & Hui & Hlk & Hok & Hdat & Hsz & Hbw).
    assert (Hnn : segmentFilename id ≠ segmentFilename n) by (intros E%segmentFilename_inj; [done|done|apply H]).
    rewrite upd_ne, decide_False by (done || cbn; congruence). rewrite Ha, decide_False in Hbw by done.
    split; [done|]. split; [done|]. split; [rewrite (fr_dir _ _ _ fresh_framed) by (split; [done|apply segment_not_manifest]); done|].
    split; [done|]. split; [|done]. by rewrite (framed_data _ _ _ _ _ fresh_framed (conj Hnn (segment_not_manifest id)) Hlk).
Qed.

Lemma fresh_hint id s :
  segs db' !! id = Some s →
  if decide (id = n) then d_dir (e_disk e2) !! hintFilename id = None else hint_harmless (e_disk e2) s (logs' id).
Proof using H Hlt Hfree Hhint F2.
  assert (Hh : ∀ i, hintFilename i ≠ segmentFilename n ∧ not_manifest (hintFilename i))
    by (intros i; split; [apply not_eq_sym, segment_not_hint|apply hint_not_manifest]).
  intros [[<- <-]|[Hne Hs]]%fresh_lookup.
  - rewrite decide_True by done. by rewrite (fr_dir _ _ _ fresh_framed) by done.
  - rewrite decide_False, upd_ne by done. destruct (rd_seg _ _ _ _ _ H _ _ Hs) as (Hid & _). pose proof (rd_hint _ _ _ _ _ H _ _ Hs) as Hx.
    eapply hint_harmless_framed; [exact fresh_framed|apply Hh|].
    case_decide; [|done]. unfold hint_harmless, hint_of, read_file. by rewrite Hid, Hx.
Qed.
End written.

Lemma fresh_updates id : id ∈ live → all_updates logs' id = all_updates logs id.
Proof using Hlt. intros Hl. unfold all_updates. by rewrite upd_ne by (by apply fresh_ne). Qed.

Lemma fresh_index : index db' = foldl replay_update ∅ (concat (all_updates logs' <$> live ++ [n])).
Proof using H Hlt.
  change (index db') with (index db). rewrite (rd_index _ _ _ _ _ H), fmap_app, concat_app, foldl_app. cbn.
  unfold all_updates at 3. rewrite upd_eq. cbn. do 2 f_equal. apply list_fmap_ext. intros i id Hi.
  symmetry. by eapply fresh_updates, list_elem_of_lookup_2.
Qed.

Lemma fresh_winner k en :
  index db !! k = Some en → fileID en ∈ live ++ [n] ∧ winner nw logs' (λ id, id ∈ live ++ [n]) k en.
Proof using H Hlt.
  intros Hk. destruct (rd_winner _ _ _ _ _ H k en Hk) as [Hl [W O]]. split; [apply elem_of_app; by left|].
  split; [by rewrite fresh_updates|]. intros id u [Hid|Hid]%elem_of_app Hne Hin Hkey.
  - rewrite fresh_updates in Hin by done. by apply (O id u).
  - apply list_elem_of_singleton in Hid as ->. unfold all_updates in Hin. rewrite upd_eq in Hin. by apply not_elem_of_nil in Hin.
Qed.

(** The new segment is empty and [writeManifest] syncs the directory. *)
Lemma fresh_settled e2 text :
  framed not_manifest (e_disk e1) (e_disk e2) → d_sdir (e_disk e2) = d_dir (e_disk e2) →
  durable_file (e_disk e2) manifestFilename text → all_settled live (e_disk e) → all_settled (live ++ [n]) (e_disk e2).
Proof using H Hlt Hfree Hhint.
  intros F2 Hsd (ino & Hi & _ & Hdat & Hsyn) [S Hh M]. pose proof (fresh_framed _ F2) as F.
  assert (Hn' : ∀ x, named (e_disk e2) x) by (intros x; unfold named; by rewrite Hsd).
  assert (Hhp : ∀ id, hintFilename id ≠ segmentFilename n ∧ not_manifest (hintFilename id))
    by (intros id; split; [apply not_eq_sym, segment_not_hint|apply hint_not_manifest]).
  split.
  - intros id [Hl|Hl%list_elem_of_singleton]%elem_of_app; [|subst id].
    + eapply framed_settled; [exact F| |by apply S]. split; [|apply segment_not_manifest].
      intros E%segmentFilename_inj; [|apply (rd_live _ _ _ _ _ H) in Hl as [s Hs]; by destruct (rd_seg _ _ _ _ _ H _ _ Hs) as (_ & ? & _)|apply H].
      by apply (fresh_ne id).
    + split; [done|]. intros i Hi'. destruct (alloc_at (e_disk e) (segmentFilename n)) as [A1 A2].
      rewrite (fr_dir _ _ _ F2) in Hi' by apply segment_not_manifest. assert (i = d_next (e_disk e)) as -> by (unfold e1 in Hi'; cbn [e_disk] in Hi'; congruence). destruct (fr_file _ _ _ F2 _ _ (segment_not_manifest n) A1) as [D [E|E]]; [|done].
      rewrite E, D. unfold e1, file_synced, file_data. cbn. by rewrite !lookup_insert_eq.
  - intros id [Hl|Hl%list_elem_of_singleton]%elem_of_app; [|subst id].
    + eapply framed_settled; [exact F|apply Hhp|by apply Hh].
    + split; [done|]. intros i Hi'. rewrite (fr_dir _ _ _ F) in Hi' by apply Hhp. congruence.
  - split; [done|]. intros i Hi'. assert (i = ino) as -> by congruence. congruence.
Qed.

Lemma fresh_written e2 r :
  writeManifest (sort_ids (live_ids db')) n e1 = (r, e2) →
  r = Ok tt ∧ quiet e2 ∧ ready logs' (live ++ [n]) n db' e2.
Proof using H Ha Hq Hn Hlt Hfree Hhint.
  intros E. pose proof fresh_e1_framed as F1. destruct (live_ids_are db' (live ++ [n]) fresh_sorted fresh_live) as [Hsort Hcan].
  rewrite Hsort in E.
  assert (Hu : Forall is_u32 (live ++ [n])).
  { apply Forall_app. split; [|apply Forall_singleton, H]. apply Forall_forall. intros id Hl. apply (rd_live _ _ _ _ _ H) in Hl as [s Hs].
    by destruct (rd_seg _ _ _ _ _ H _ _ Hs) as (_ & ? & _). }
  destruct (writeManifest_quiet (live ++ [n]) n e1 (fr_ok _ _ _ F1) eq_refl) as (e2' & E' & Hq2);
    [apply elem_of_app; right; by left|]. rewrite E in E'. injection E' as -> ->. split; [done|]. split; [done|].
  pose proof (writeManifest_outcome _ _ _ _ _ (fr_ok _ _ _ F1) Hu E) as Hman2. cbn in Hman2.
  assert (Hcan2 : canonical (live ++ [n]) = live ++ [n]).
  { destruct (sorted_lt_facts _ fresh_sorted) as (_ & Hle & Hdd). unfold canonical. by rewrite sort_ids_id. }
  rewrite Hcan2 in Hman2. apply writeManifest_spec in E as [F2 (_ & Hdur & Hsd)]; [|apply F1].
  split; [apply F2|apply fresh_sorted| | |done|apply fresh_live|done|by apply fresh_seg|by apply fresh_hint|apply fresh_index
    |exact fresh_winner|apply H| | |exact fresh_last|apply H|apply H|intros Hds; eapply fresh_settled; [done|done|exact Hdur|by apply H]].
  - apply elem_of_app. right. by left.
  - intros _ id Hl%fresh_last. lia.
  - intros id l [Hid|Hid%list_elem_of_singleton]%elem_of_app Hl.
    + rewrite upd_ne in Hl by (by apply fresh_ne). by apply (rd_ts _ _ _ _ _ H id).
    + subst id. rewrite upd_eq in Hl. by apply not_elem_of_nil in Hl.
  - destruct (rd_next _ _ _ _ _ H). split; cbn; lia.
Qed.
End fresh.

(** ** Disks that can be opened *)

(** [d] holds the segments of [live], each its log, the active one perhaps with a
    torn record behind it. *)
Record restorable (logs : logmap) (tails : Z → bytes) (live : list Z) (ma : Z) (d : disk) : Prop := {
  rs_disk : disk_ok d;
  rs_sorted : StronglySorted Z.lt live;
  rs_ma : ma ∈ live;
  rs_last : nw = true → ∀ id, id ∈ live → id <= ma;
  rs_manifest : manifest_of d = Ok (live, ma);
  rs_seg : ∀ id, id ∈ live → is_u32 id ∧ ∃ ino, d_dir d !! segmentFilename id = Some ino
    ∧ segment_log (id =? ma) (file_data d ino) (logs id) (tails id)
    ∧ if decide (id = ma) then d_dir d !! hintFilename id = None
      else hint_harmless d (mkSegment id ino None (zlen (file_data d ino))) (logs id);
  rs_winner : nw = true → ∀ k en, foldl replay_update ∅ (concat (all_updates logs <$> live)) !! k = Some en →
    fileID en ∈ live ∧ winner nw logs (λ id, id ∈ live) k en;
  rs_settled : ds = true → all_settled live d ∧ ∀ id, id ∈ live → tails id = [];
}.

(** No hint file without its segment, and ids left for two more segments. *)
Record paired (d : disk) : Prop := {
  pr_hint : ∀ id, is_u32 id → is_Some (d_dir d !! hintFilename id) → on_disk d id;
  pr_room : ∀ id, on_disk d id → id < 2 ^ 32 - 2;
}.

Lemma restorable_framed (P : bytes → Prop) logs tails live ma d d' :
  framed P d d' → P manifestFilename → (∀ id, P (segmentFilename id) ∧ P (hintFilename id)) →
  restorable logs tails live ma d → restorable logs tails live ma d'.
Proof.
  intros F HPm HP [Hd Hso Hma Hla Hman Hseg Hw Hst]. split; [apply F|done..| | |done|].
  - unfold manifest_of. by rewrite (framed_read _ _ _ _ F).
  - intros id Hl. destruct (Hseg id Hl) as (Hu & ino & Hlk & Hlog & Hh). destruct (HP id) as [HPs HPh].
    split; [done|]. exists ino. rewrite (framed_data _ _ _ _ _ F HPs Hlk). split; [by rewrite (fr_dir _ _ _ F)|].
    split; [done|]. case_decide; [by rewrite (fr_dir _ _ _ F)|].
    eapply hint_harmless_framed; [exact F| |done]. done.
  - intros Hds. destruct (Hst Hds) as [S T]. split; [|done]. by eapply all_settled_framed.
Qed.

Lemma max_ts_spec ls : ∀ last,
  last <= max_ts last ls ∧ (∀ l, l ∈ ls → log_ts l <= max_ts last ls)
  ∧ (is_i64 last → Forall log_ok ls → is_i64 (max_ts last ls)).
Proof.
  unfold max_ts. induction ls as [|l ls IH]; intros last; cbn [foldl].
  - split; [lia|]. split; [by intros l ?%not_elem_of_nil|done].
  - destruct (IH (Z.max last (log_ts l))) as (H1 & H2 & H3). split; [lia|]. split.
    + intros x [->|Hx]%elem_of_cons; [lia|auto].
    + intros Hl [Hok Hls]%Forall_cons. apply H3; [|done]. apply log_ok_i64 in Hok. unfold is_i64 in *. lia.
Qed.

Lemma replayed_ts_spec logs ids : ∀ last,
  last <= replayed_ts logs last ids ∧ (∀ id l, id ∈ ids → l ∈ logs id → log_ts l <= replayed_ts logs last ids)
  ∧ (is_i64 last → (∀ id, id ∈ ids → Forall log_ok (logs id)) → is_i64 (replayed_ts logs last ids)).
Proof.
  unfold replayed_ts. induction ids as [|id ids IH]; intros last; cbn [foldl].
  - split; [lia|]. split; [by intros id l ?%not_elem_of_nil|done].
  - destruct (max_ts_spec (logs id) last) as (M1 & M2 & M3). destruct (IH (max_ts last (logs id))) as (H1 & H2 & H3).
    split; [lia|]. split.
    + intros id' l [->|Hx]%elem_of_cons Hl; [specialize (M2 l Hl); lia|by eapply H2].
    + intros Hl Hok. apply H3; [apply M3; [done|apply Hok; by left]|]. intros id' Hid. apply Hok. by right.
Qed.

Lemma replayed_concat logs ids : replayed logs ids = concat (all_updates logs <$> ids).
Proof. unfold replayed, all_updates. induction ids as [|id ids IH]; [done|]. cbn. by rewrite <- IH. Qed.

Lemma restorable_logs logs tails live ma d id : restorable logs tails live ma d → id ∈ live → Forall log_ok (logs id).
Proof using Type. intros R Hl. by destruct (rs_seg _ _ _ _ _ R id Hl) as (_ & ino & _ & (H & _) & _). Qed.

(** The entries a replay finds are locations in the logs. *)
Lemma restorable_winner logs tails live ma d k en :
  restorable logs tails live ma d → foldl replay_update ∅ (concat (all_updates logs <$> live)) !! k = Some en →
  fileID en ∈ live ∧ winner nw logs (λ id, id ∈ live) k en.
Proof using Type.
  intros R H. destruct (decide (nw = true)) as [Hn|Hn]; [by apply (rs_winner _ _ _ _ _ R)|].
  destruct (replay_written _ _ _ _ H) as [E|(u & Hu & Hk & He)]; [by rewrite lookup_empty in E|].
  apply elem_of_replayed in Hu as (id & Hl & Hu).
  assert (Eu : u = mkUpdate k (u_ts u) (Some en)) by (destruct u; cbn in *; congruence).
  rewrite Eu in Hu. destruct (backed_entry _ _ _ _ _ (restorable_logs _ _ _ _ _ _ R Hl) Hu) as (Hf & Ht & _). rewrite Hf.
  split; [done|]. split; [|by intros]. rewrite Hf, Ht. destruct (list_elem_of_split _ _ Hu) as (pre & post & E). exists pre, post.
  split; [by rewrite E|]. split; by intros.
Qed.

(** ** Recovery *)

Definition empty_db (o : Options) : DB := mkDB o None 0 0 (make_bytes (64 * 1024)) (Some ∅) newKeydir false None false None.

(** The segments opened, the index replayed. *)
Lemma recover_ready logs tails live ma o n m (e : env) :
  restorable logs tails live ma (e_disk e) → quiet e → is_u32 n → (∀ id, id ∈ live → id < n) →
  (∀ id, id ∈ live → ∃ seg, m !! id = Some seg ∧ opened (e_disk e) id seg) → (∀ id, id ∉ live → m !! id = None) →
  ∃ m3 t e', run_recover true ma (set_nextID n (set_segments (Some m) (empty_db o)), e)
    = (Ok tt, (set_segments (Some m3) (set_index (foldl replay_update ∅ (concat (all_updates logs <$> live)))
                (set_lastTstamp t (set_nextID n (set_segments (Some m) (empty_db o))))), e'))
    ∧ quiet e' ∧ d_dir (e_disk e') = d_dir (e_disk e)
    ∧ ready logs live ma (set_segments (Some m3) (set_index (foldl replay_update ∅ (concat (all_updates logs <$> live)))
                (set_lastTstamp t (set_nextID n (set_segments (Some m) (empty_db o)))))) e'.
Proof.
  intros R0 Hq Hn Hlt Hin Hout. pose proof (λ k en, restorable_winner _ _ _ _ _ k en R0) as Hw.
  destruct R0 as [Hd Hso Hma Hla Hman Hseg _ Hst]. destruct (sorted_lt_facts live Hso) as (Hnd & Hle & _).
  assert (Hdom : sort_ids (elements (dom m)) = live).
  { rewrite (sort_ids_unique _ live); [by apply sort_ids_id|]. apply NoDup_Permutation; [apply NoDup_elements|done|].
    intros id. rewrite elem_of_elements, elem_of_dom. split; [intros [s Hs]|intros Hl].
    - destruct (decide (id ∈ live)); [done|]. rewrite Hout in Hs by done. done.
    - destruct (Hin id Hl) as (seg & -> & _). by eexists. }
  assert (Hready : ∀ id, id ∈ live → ∃ seg, m !! id = Some seg ∧ seg_ready logs tails true ma (e_disk e) id seg).
  { intros id Hl. destruct (Hin id Hl) as (seg & Hs & ino & Hlk & ->). destruct (Hseg id Hl) as (Hu & ino' & Hlk' & Hlog & Hh).
    assert (ino' = ino) as -> by congruence. exists (mkSegment id ino None (zlen (file_data (e_disk e) ino))). split; [done|].
    split; [done|done|done|done|done|]. unfold isAct. cbn. intros Hne%Z.eqb_neq. by rewrite decide_False in Hh. }
  destruct (recover_ids_quiet logs tails true ma live m newKeydir 0 e Hnd Hd Hq Hready)
    as (m3 & e' & E & Hq' & F & Hdir & Hm3 & Hdat).
  rewrite replayed_concat in E.
  exists m3, (replayed_ts logs 0 live), e'. unfold run_recover, recover. set (db0 := set_nextID n _).
  change (segs db0) with m. change (index db0) with newKeydir. change (lastTstamp db0) with 0. rewrite Hdom, E. split; [done|]. split; [done|]. split; [done|].
  assert (Hsegs : ∀ id s, m3 !! id = Some s → id ∈ live ∧ ∃ s0, m !! id = Some s0 ∧ s = cut s0 (logs id)).
  { intros id s Hs. rewrite Hm3 in Hs. case_decide as Hl; [|by rewrite Hout in Hs]. split; [done|].
    destruct (m !! id) as [s0|]; [|done]. injection Hs as <-. by exists s0. }
  assert (HF : ∀ n0, (∀ id, id ∈ live → n0 ≠ segmentFilename id) → ∀ id, id ∈ live → n0 ≠ segmentFilename id ∨ isAct true ma id = false ∨ tails id = []) by auto.
  split; cbn; try done.
  - apply F.
  - intros id. unfold is_live_id. cbn. rewrite Hm3. case_decide as Hl; [|rewrite Hout by done; split; [by intros []|done]].
    destruct (Hin id Hl) as (seg & -> & _). split; [done|by eexists].
  - unfold manifest_of. rewrite (framed_read _ _ _ _ F); [exact Hman|]. apply HF. intros id _ E'.
    symmetry in E'. apply (f_equal filepath_Ext) in E'. rewrite Ext_segmentFilename in E'. discriminate.
  - intros id s Hs. destruct (Hsegs id s Hs) as (Hl & s0 & Hs0 & ->). destruct (Hready id Hl) as (seg & Hs1 & R).
    assert (seg = s0) as -> by congruence. cbn [cut s_id s_file s_size s_bw].
    split; [apply R|]. split; [apply R|]. split; [rewrite Hdir; apply R|]. split; [apply (sr_log _ _ _ _ _ _ _ R)|].
    split; [by apply Hdat|]. split; [done|]. destruct (Hin id Hl) as (s1 & Hs1' & ino & _ & ->).
    by assert (s0 = mkSegment id ino None (zlen (file_data (e_disk e) ino))) as -> by congruence.
  - intros id s Hs. destruct (Hsegs id s Hs) as (Hl & s0 & Hs0 & ->). destruct (Hin id Hl) as (s1 & Hs1' & ino & Hlk & ->).
    assert (s0 = mkSegment id ino None (zlen (file_data (e_disk e) ino))) as -> by congruence.
    destruct (Hseg id Hl) as (Hu & ino' & Hlk' & Hlog & Hh). assert (ino' = ino) as -> by congruence.
    destruct (decide (id = ma)) as [->|Hne]; [by rewrite Hdir|].
    eapply (hint_harmless_framed _ _ _ _ _ F).
    { cbn. intros id' Hl' . left. apply not_eq_sym, segment_not_hint. }
    eapply hint_harmless_seg; [| |exact Hh]; [done|]. cbn. destruct Hlog as (_ & -> & [->|[Ht _]]); [by rewrite app_nil_r|].
    apply Z.eqb_eq in Ht. done.
  - destruct (replayed_ts_spec logs live 0) as (_ & _ & H3). apply H3; [done|]. intros id Hl.
    destruct (Hready id Hl) as (seg & _ & R). apply (sr_log _ _ _ _ _ _ _ R).
  - intros id l Hl Hin'. destruct (replayed_ts_spec logs live 0) as (_ & H2 & _). by eapply H2.
  - intros Hds. destruct (Hst Hds) as [S T]. eapply all_settled_framed; [exact F| | |exact S]; cbn; auto 6.
Qed.

(** ** Open as a whole *)

Lemma ebind_ok {S A B} (f : S → result A * S) (k : A → S → result B * S) s a s' :
  f s = (Ok a, s') → ebind f k s = k a s'.
Proof. intros H. unfold ebind. by rewrite H. Qed.
Lemma guarded_ok {A} (f : M A) h wrap s a s' : f s = (Ok a, s') → on_error f h wrap s = (Ok a, s').
Proof. intros H. unfold on_error. by rewrite H. Qed.
Lemma lift_ok {A} (f : env → result A * env) (db : DB) (e : env) a e' :
  f e = (Ok a, e') → lift f (db, e) = (Ok a, (db, e')).
Proof. intros H. unfold lift. cbn. by rewrite H. Qed.

Lemma reconcile_quiet live ma onDisk e :
  quiet e → manifest_of (e_disk e) = Ok (live, ma) → (∀ id, id ∈ live → id ∈ onDisk) →
  ∃ e', reconcileManifest onDisk e = (Ok (live, ma, false), e') ∧ quiet e' ∧ e_disk e' = e_disk e.
Proof.
  intros Hq Hm Hin. unfold reconcileManifest. destruct (readManifest e) as [r e1] eqn:E1.
  pose proof (readManifest_spec _ _ _ E1) as [D1 _]. destruct (readManifest_quiet e Hq) as (e1' & E1' & Hq1).
  rewrite E1, Hm in E1'. injection E1' as -> ->.
  assert (forallb (λ id, existsb (Z.eqb id) onDisk) live = true) as ->; [|by exists e1'].
  apply forallb_forall. intros id Hid. apply existsb_elem_of, Hin. by apply list_elem_of_In.
Qed.

(** What restarting gives: an open database with the replayed index. *)
Definition restarted (logs : logmap) (live : list Z) (o : Options) (db : DB) (e : env) : Prop :=
  quiet e ∧ opts db = o ∧ writesDisabled db = false ∧ closed db = false
  ∧ index db = foldl replay_update ∅ (concat (all_updates logs <$> live))
  ∧ ∃ logs', db_inv (mkMode true ds nw nw) logs' db e ∧ ∀ id, id ∈ live → logs' id = logs id.

(** The sweep and what it leaves. *)
Lemma sweep_ready logs live ma (db : DB) (e : env) :
  ready logs live ma db e → active db = Some ma → quiet e →
  let e' := ignore sweepOrphans e in quiet e' ∧ db_inv (mkMode true ds nw nw) logs db e'.
Proof.
  intros H Ha Hq e'. destruct (sweepOrphans_quiet live ma e (rd_disk _ _ _ _ _ H) Hq (rd_manifest _ _ _ _ _ H)) as (Hq' & F & R).
  split; [done|]. eapply ready_inv; [|exact Ha|].
  - eapply ready_framed; [exact F|apply kept_manifest| |exact H]. intros id Hl Hu. split; [by apply kept_segment|by apply kept_hint].
  - intros id Hu Hh. left. destruct (decide (id ∈ live)); [done|]. destruct Hh as [i Hi].
    pose proof (R (hintFilename id) id (orphan_id_hint id Hu) ltac:(done)) as Hnone. unfold e' in Hi. congruence.
Qed.

(** From the recovered state to service. *)
Lemma serve_recovered logs live ma (db : DB) (e : env) :
  ready logs live ma db e → active db = None → quiet e → nextID db < 2 ^ 32 - 1 →
  d_dir (e_disk e) !! segmentFilename (nextID db) = None → d_dir (e_disk e) !! hintFilename (nextID db) = None →
  ∃ db' e' (created : bool),
    (do! _ := on_error (promote_active true ma) teardown Datatypes.id in
     do! created := on_error fresh_active teardown Datatypes.id in
     do! db := get_db in
     do! _ := (if false || created
               then on_error (lift (writeManifest (sort_ids (live_ids db)) (default 0 (active db)))) teardown
                      (λ err, EWrap "engine: write manifest: %w" [err])
               else eret tt) in
     λ s, (Ok tt, lift_ (ignore sweepOrphans) s)) (db, e) = (Ok tt, (db', e'))
    ∧ quiet e' ∧ opts db' = opts db ∧ writesDisabled db' = false ∧ closed db' = false ∧ index db' = index db
    ∧ ∃ logs', db_inv (mkMode true ds nw nw) logs' db' e' ∧ ∀ id, id ∈ live → logs' id = logs id.
Proof.
  intros H Ha Hq Hn Hfree Hhint. destruct (ready_seg_of _ _ _ _ _ _ H (rd_ma _ _ _ _ _ H)) as [s Hs].
  destruct (Z.lt_ge_cases (s_size s) (MaxSegmentSize (opts db))) as [Hsz|Hsz].
  - destruct (promote_room _ _ _ _ _ _ H Ha Hq Hs Hsz) as (e1 & E1 & Hq1 & D1 & H1).
    set (db1 := set_active _ _) in *. destruct (sweep_ready _ _ _ _ _ H1 eq_refl Hq1) as [Hq2 Hi].
    exists db1, (ignore sweepOrphans e1), false. split.
    { erewrite ebind_ok by (apply guarded_ok; exact E1). erewrite ebind_ok by (by apply guarded_ok). done. }
    split; [done|]. split; [done|]. split; [apply H|]. split; [apply H|]. split; [done|]. by exists logs.
  - pose proof (promote_full _ _ _ _ _ _ H Hs Hsz) as E1.
    pose proof (fresh_active_quiet _ _ _ _ _ H Ha Hq Hn Hfree) as E2.
    set (db1 := set_active _ _) in *. set (e1 := mkEnv _ _ _) in *.
    destruct (writeManifest (sort_ids (live_ids db1)) (nextID db) e1) as [r e2] eqn:E3.
    destruct (fresh_written _ _ _ _ _ H Ha Hq Hn (rd_below _ _ _ _ _ H) Hfree Hhint e2 r E3) as (-> & Hq2 & H2).
    destruct (sweep_ready _ _ _ _ _ H2 eq_refl Hq2) as [Hq3 Hi].
    exists db1, (ignore sweepOrphans e2), true. split.
    { erewrite ebind_ok by (apply guarded_ok; exact E1). erewrite ebind_ok by (apply guarded_ok; exact E2).
      erewrite ebind_ok by done. cbn [orb]. erewrite ebind_ok by (apply guarded_ok, lift_ok; exact E3). done. }
    split; [done|]. split; [done|]. split; [apply H|]. split; [apply H|]. split; [done|].
    eexists. split; [exact Hi|]. intros id Hl. apply upd_ne. pose proof (rd_below _ _ _ _ _ H id Hl). lia.
Qed.

Lemma Open_run logs tails live ma o o' d clock :
  resolve_options o = Ok o' → restorable logs tails live ma d → paired d →
  ∃ db e, Open o (mkEnv d [] clock) = (Ok db, e) ∧ restarted logs live o' db e.
Proof.
  intros Ho R0 [Hpair0 Hroom0]. unfold Open. rewrite Ho.
  set (e0 := mkEnv d [] clock). unfold ebind, on_error at 1, os_MkdirAll. rewrite sys_no_faults by done. cbn [fst snd].
  set (e1 := mkEnv _ _ _). destruct (acquire_quiet e1) as (e2 & E2 & Hq2 & F2); [apply R0|done|].
  unfold on_error at 1. rewrite E2.
  assert (R : restorable logs tails live ma (e_disk e2)).
  { eapply restorable_framed; [exact F2|apply manifest_not_lock| |exact R0]. intros id. split; [apply segment_not_lock|apply hint_not_lock]. }
  assert (Hdir : ∀ id, d_dir (e_disk e2) !! segmentFilename id = d_dir d !! segmentFilename id
    ∧ d_dir (e_disk e2) !! hintFilename id = d_dir d !! hintFilename id).
  { intros id. split; apply (fr_dir _ _ _ F2); [apply segment_not_lock|apply hint_not_lock]. }
  assert (Hond : ∀ id, on_disk (e_disk e2) id ↔ on_disk d id).
  { intros id. unfold on_disk. split; intros (x & Hx & Hid); exists x; (split; [|done]); revert Hx;
      rewrite (fr_dir _ _ _ F2); try done; intros ->; by vm_compute in Hid. }
  assert (Hlive : ∀ id, id ∈ live → on_disk (e_disk e2) id ∧ is_Some (d_dir (e_disk e2) !! segmentFilename id)).
  { intros id Hl. destruct (rs_seg _ _ _ _ _ R id Hl) as (Hu & ino & Hlk & _). split; [|by exists ino].
    apply on_disk_segment; [done|by exists ino]. }
  destruct (listSegments_quiet e2 Hq2) as (onDisk & e3 & E3 & Hq3 & D3 & Hso & Hon).
  destruct (reconcile_quiet live ma onDisk e3 Hq3) as (e4 & E4 & Hq4 & D4); [rewrite D3; apply R|intros id Hl; apply Hon; by apply Hlive|].
  assert (Hbound : ∀ id, on_disk (e_disk e2) id → 0 <= id < 2 ^ 32 - 2).
  { intros id Hx. split; [destruct Hx as (x & _ & Hx); by apply segment_id_u32 in Hx as []|]. apply Hroom0. by apply Hond. }
  destruct (open_segments_quiet (2 ^ 32 - 2) live (empty_db o') e4) as (m & n & e5 & E5 & Hq5 & D5 & Hn5 & Hlt5 & Hin & Hout);
    [done|done|done|lia| |].
  { intros id Hl. rewrite D4, D3. split; [apply Hbound|]; by apply Hlive. }
  set (db5 := set_nextID n (set_segments (Some m) (empty_db o'))) in *.
  destruct (skip_orphan_spec (2 ^ 32 - 2) onDisk db5 Hso) as (n6 & E6 & Hn6 & Hlt6);
    [intros id Hid; apply Hbound; by apply Hon|cbn in *; lia|lia|].
  assert (Hdb6 : set_nextID n6 db5 = set_nextID n6 (set_segments (Some m) (empty_db o'))) by done.
  assert (D5' : e_disk e5 = e_disk e2) by congruence.
  destruct (recover_ready logs tails live ma o' n6 m e5) as (m7 & t & e7 & E7 & Hq7 & Dir7 & H7);
    [by rewrite D5'|done|unfold is_u32; cbn in *; lia|intros id Hl; apply Hlt6, Hon; by apply Hlive| | |].
  { intros id Hl. destruct (Hin id Hl) as (seg & Hseg & Hop). exists seg. split; [done|]. by rewrite D5, <- D5 in *. }
  { intros id Hl. by rewrite Hout. }
  assert (Hfree : d_dir (e_disk e7) !! segmentFilename n6 = None ∧ d_dir (e_disk e7) !! hintFilename n6 = None).
  { rewrite Dir7, D5'. assert (Hu6 : is_u32 n6) by (unfold is_u32; cbn in *; lia). split.
    - destruct (d_dir (e_disk e2) !! segmentFilename n6) eqn:Ex; [exfalso|done].
      assert (n6 ∈ onDisk) as Hbad%Hlt6 by (apply Hon, on_disk_segment; [done|by eexists]). lia.
    - destruct (d_dir (e_disk e2) !! hintFilename n6) eqn:Ex; [exfalso|done].
      assert (n6 ∈ onDisk) as Hbad%Hlt6; [|lia]. apply Hon, Hond, Hpair0; [done|].
      rewrite <- (proj2 (Hdir n6)), Ex. by eexists. }
  destruct Hfree as [Hfree Hhint].
  destruct (serve_recovered logs live ma _ e7 H7) as (db' & e' & created & E8 & Hq8 & Ho8 & Hw8 & Hc8 & Hx8 & Hi8);
    [done|done|cbn in *; lia|done|done|].
  assert (Hbody : open_body (empty_db o', e2) = (Ok tt, (db', e'))).
  { unfold open_body. erewrite ebind_ok by (apply guarded_ok, lift_ok; exact E3).
    erewrite ebind_ok by (apply guarded_ok, lift_ok; exact E4). cbv beta iota.
    erewrite ebind_ok by (apply guarded_ok; exact E5). erewrite ebind_ok by done. cbn [fst snd]. cbv zeta.
    rewrite E6, Hdb6. rewrite bool_decide_eq_false_2.
    2: { intros ->. by apply (not_elem_of_nil ma), (rs_ma _ _ _ _ _ R). }
    cbn [negb]. erewrite ebind_ok by (apply guarded_ok; exact E7). exact E8. }
  fold (empty_db o'). rewrite Hbody. exists db', e'. split; [done|]. split; [done|]. split; [done|]. split; [done|].
  split; [done|]. split; [done|]. exact Hi8.
Qed.
End ready.
