(* ===== verification/Crash.v ===== *)
(** * Crashes: what a restart finds and what Open makes of it

    Three ways for a process to end: [Close], being killed at any point of an
    append, and losing power.  For each, when the disk that is left holds what
    [Open] needs, in terms of the invariant; Lives puts them together. *)
From S2P Require Import Prelude LogRecord Keydir Storage Frame Names Publish Manifest HintFile Log Recovery Db Invariant WritePath Rotation Compact Engine Compactor Writes Api Meanwhile Scan Commit Pass OpenSteps Reopen.

(** ** The disk after the end of the process *)

(** The part of an append that reached the file: less than a whole record. *)
Definition in_flight (tail : bytes) : Prop := ∃ l q, log_ok l ∧ log_image l = tail ++ q ∧ q ≠ [].

(** The files an open [DB] relies on are there, with [tail] behind the active
    segment.  Nothing is said of other files: temporary files, half-written
    outputs of a compaction and the like may be there or not. *)
Record survives (db : DB) (d d' : disk) (tail : bytes) : Prop := {
  sv_ok : disk_ok d';
  sv_manifest : read_file d' manifestFilename = read_file d manifestFilename;
  sv_sealed : ∀ id, is_live_id db id → active db ≠ Some id →
    read_file d' (segmentFilename id) = read_file d (segmentFilename id);
  sv_hint : ∀ id, is_live_id db id → read_file d' (hintFilename id) = read_file d (hintFilename id);
  sv_active : ∀ a old, active db = Some a → read_file d (segmentFilename a) = Some old →
    read_file d' (segmentFilename a) = Some (old ++ tail);
}.

(** The process is killed, perhaps in the middle of an append. *)
Definition killed (db : DB) (d d' : disk) : Prop := ∃ tail, in_flight tail ∧ survives db d d' tail.

(** The power goes: what an fsync settled is there, the rest may be anything;
    after the reboot what is there is on stable storage. *)
Record power_loss (d d' : disk) : Prop := {
  pl_ok : disk_ok d';
  pl_settled : ∀ n, settled d n → read_file d' n = read_file d n;
  pl_stable : ∀ n, settled d' n;
}.

Lemma in_flight_torn tail : in_flight tail → tail = [] ∨ torn tail.
Proof.
  intros (l & q & Hl & E & Hq). destruct tail as [|b tail]; [by left|right]. by eapply prefix_torn.
Qed.
Lemma in_flight_nil : in_flight [].
Proof. exists (LPut 0 [x61] []), (log_image (LPut 0 [x61] [])). split; [done|]. split; [done|]. by vm_compute. Qed.

Lemma survives_refl (db : DB) d : disk_ok d → survives db d d [].
Proof. intros H. split; [done..|]. intros a old _ ->. by rewrite app_nil_r. Qed.

(** After synced writes a power loss takes nothing. *)
Lemma power_loss_survives m logs (db : DB) (e : env) d' :
  db_inv m logs db e → durable db e → all_durable db e → writesDisabled db = false →
  power_loss (e_disk e) d' → survives db (e_disk e) d' [].
Proof.
  intros Hi [_ _ Hh Hm] [Hs _] Hw [Hok Hp _]. split; [done| | | |].
  - by apply Hp, Hm.
  - intros id Hl _. by apply Hp, Hs.
  - intros id Hl. by apply Hp, Hh.
  - intros a old Ha Hold. rewrite app_nil_r, <- Hold. apply Hp, Hs.
    destruct (di_active _ _ _ _ Hi) as (a' & s & Ha' & Hs'). exists s. congruence.
Qed.

(** ** What is left can be opened *)

Lemma sorted_nodup_lt l : StronglySorted Z.le l → NoDup l → StronglySorted Z.lt l.
Proof.
  induction 1 as [|x l Hl IH Hx]; [constructor|]. intros [Hnin Hn]%NoDup_cons. constructor; [by apply IH|].
  rewrite Forall_forall in *. intros y Hy. specialize (Hx y Hy). assert (x ≠ y) by congruence. lia.
Qed.
Lemma sorted_live (db : DB) :
  StronglySorted Z.lt (sort_ids (live_ids db)) ∧ canonical (live_ids db) = sort_ids (live_ids db).
Proof.
  assert (H : StronglySorted Z.lt (sort_ids (live_ids db))).
  { apply sorted_nodup_lt; [apply sort_ids_sorted|]. unfold live_ids. rewrite sort_ids_perm. apply NoDup_elements. }
  split; [done|]. unfold canonical. by destruct (sorted_lt_facts _ H) as (_ & _ & ->).
Qed.

Lemma flushed_data m logs (db : DB) (e : env) a s :
  db_inv m logs db e → flushed db e → active_at db a s → file_data (e_disk e) (s_file s) = log_images (logs a).
Proof.
  intros Hi Hf Has. destruct (Hf a s Has) as (_ & Hb & _). destruct Has as [Ha Hs].
  destruct (di_seg _ _ _ _ Hi a s Hs) as [_ _ _ _ Hd]. cbn zeta in Hd. rewrite decide_True in Hd by done.
  destruct Hd as [[_ Hd]|[(b & Hb' & He) _]]; [done|]. rewrite Hb in Hb'. by injection Hb' as <-.
Qed.

Lemma read_file_Some d n x : read_file d n = Some x → ∃ i, d_dir d !! n = Some i ∧ file_data d i = x.
Proof. unfold read_file. destruct (d_dir d !! n) as [i|]; [|done]. intros [= <-]. by exists i. Qed.
Lemma read_linked d n i : d_dir d !! n = Some i → read_file d n = Some (file_data d i).
Proof. unfold read_file. by intros ->. Qed.
Lemma read_file_None d n : read_file d n = None ↔ d_dir d !! n = None.
Proof. unfold read_file. by destruct (d_dir d !! n). Qed.

Lemma hint_harmless_read d d' s s' ls :
  read_file d' (hintFilename (s_id s)) = read_file d (hintFilename (s_id s)) →
  s_id s = s_id s' → s_size s = s_size s' → hint_harmless d s ls → hint_harmless d' s' ls.
Proof.
  intros E Hid Hsz H. apply (hint_harmless_seg _ s s'); [done..|]. revert H. unfold hint_harmless, hint_of. by rewrite E.
Qed.

(** The map that the logs of [live] stand for. *)
Definition contents (logs : logmap) (live : list Z) : kvmap :=
  log_value logs <$> foldl replay_update ∅ (concat (all_updates logs <$> live)).

(** A directory Open can restore [M] from, all of it on stable storage if
    [dur]; unless [exact] it holds more than [M]. *)
Definition holds (exact dur : bool) (M : kvmap) (d : disk) : Prop :=
  ∃ logs tails live ma, restorable exact dur logs tails live ma d
    ∧ M ⊆ contents logs live ∧ (exact = true → contents logs live = M).

(** What Open gives on [d]: an open database that serves [M], or at least [M]. *)
Definition serves (exact dur : bool) (o o' : Options) (clock : list Z) (d : disk) (M : kvmap) : Prop :=
  ∃ db e, Open o (mkEnv d [] clock) = (Ok db, e) ∧ opts db = o' ∧ closed db = false ∧ writesDisabled db = false
    ∧ M ⊆ abs db e ∧ (exact = true → abs db e = M)
    ∧ ∃ logs, db_inv (mkMode true dur exact exact) logs db e.

Lemma restored_abs exact dur logs live o (db : DB) (e : env) tails ma d :
  restorable exact dur logs tails live ma d → restarted exact dur logs live o db e → abs db e = contents logs live.
Proof.
  intros R (_ & _ & _ & _ & X & logs' & Hi & HL). rewrite (abs_logs _ _ _ _ Hi), X. apply map_fmap_ext. intros k en Hk.
  unfold log_value. rewrite HL; [done|]. by apply (restorable_winner _ _ _ _ _ _ _ k en R).
Qed.

Lemma holds_serves exact dur M o o' d clock :
  holds exact dur M d → paired d → resolve_options o = Ok o' → serves exact dur o o' clock d M.
Proof.
  intros (logs & tails & live & ma & R & Hsub & Hex) Hp Ho.
  destruct (Open_run _ _ _ _ _ _ o o' d clock Ho R Hp) as (db & e & E & Hr).
  pose proof (restored_abs _ _ _ _ _ _ _ _ _ _ R Hr) as HA. destruct Hr as (_ & O & W & C & _ & logs' & Hi & _).
  exists db, e. rewrite HA. do 6 (split; [done|]). by exists logs'.
Qed.

Section survives.
Context (ds : bool) (m : mode) (logs : logmap) (db : DB) (e : env) (d' : disk) (tail : bytes).
Context (Hi : db_inv m logs db e) (Hst : m_stored m = true) (Hnw : m_newest m = true).
Context (Hw : writesDisabled db = false) (Hf : flushed db e).
Context (Ht : in_flight tail) (Hs : survives db (e_disk e) d' tail).
Context (Hds : ds = true → tail = [] ∧ all_settled (sort_ids (live_ids db)) d').

Lemma index_winner k en :
  index db !! k = Some en →
  fileID en ∈ sort_ids (live_ids db) ∧ winner (m_newest m) logs (λ id, id ∈ sort_ids (live_ids db)) k en.
Proof using Hi.
  intros H. destruct (di_index _ _ _ _ Hi k en H) as [Hl W]. split; [by apply elem_of_sorted_live|].
  eapply winner_live; [|exact W]. intros id. symmetry. apply elem_of_sorted_live.
Qed.

(** Every entry of the index is found again. *)
Lemma index_replayed : index db ⊆ foldl replay_update ∅ (concat (all_updates logs <$> sort_ids (live_ids db))).
Proof using Hi Hnw.
  apply map_subseteq_spec. intros k en H. destruct (index_winner k en H) as [Hl W]. rewrite Hnw in W.
  apply winner_replayed; [|done| |done].
  - rewrite sort_ids_perm. unfold live_ids. apply NoDup_elements.
  - intros id [s Hsg]%elem_of_sorted_live. apply (di_seg _ _ _ _ Hi id s Hsg).
Qed.

Lemma survives_restorable :
  ∃ a, restorable (m_exact m) ds logs (λ id, if id =? a then tail else []) (sort_ids (live_ids db)) a d'.
Proof using Hi Hst Hnw Hw Hf Ht Hs Hds.
  destruct (di_active _ _ _ _ Hi) as (a & s & Ha & Hsa). exists a.
  pose proof (di_stored _ _ _ _ Hi Hst) as Hsto. pose proof (di_exact _ _ _ _ Hi) as Hexa.
  destruct (sorted_live db) as [Hlt Hcan].
  split; [apply Hs|done| | | | | |].
  - apply elem_of_sorted_live. by exists s.
  - intros Hx id Hl%elem_of_sorted_live. by apply (ex_last _ _ (Hexa Hx)).
  - unfold manifest_of. rewrite (sv_manifest _ _ _ _ Hs). pose proof (st_manifest _ _ _ Hsto a Hw Ha) as Hm.
    unfold manifest_of in Hm. by rewrite Hcan in Hm.
  - intros id [sg Hsg]%elem_of_sorted_live. destruct (di_seg _ _ _ _ Hi id sg Hsg) as [Hid Hu Hlk Hok Hd].
    pose proof (st_hint _ _ _ Hsto id sg Hsg) as Hh. pose proof (sv_hint _ _ _ _ Hs id ltac:(by exists sg)) as Hrh.
    split; [done|]. cbn zeta in Hd. destruct (decide (id = a)) as [->|Hne].
    + assert (sg = s) as -> by congruence. rewrite Z.eqb_refl. pose proof (flushed_data _ _ _ _ a s Hi Hf (conj Ha Hsg)) as Hdat.
      destruct (read_file_Some _ _ _ (sv_active _ _ _ _ Hs a _ Ha (read_linked _ _ _ Hlk))) as (i & Hlk' & Hdat').
      exists i. split; [done|]. split.
      * split; [done|]. rewrite Hdat', Hdat. split; [done|]. destruct (in_flight_torn _ Ht); auto.
      * rewrite decide_True in Hh by done. apply read_file_None. rewrite Hrh. by apply read_file_None.
    + assert (active db ≠ Some id) as Hna by congruence. rewrite decide_False in Hd, Hh by done. destruct Hd as (_ & Hsz & Hdat).
      pose proof (sv_sealed _ _ _ _ Hs id ltac:(by exists sg) Hna) as Hr. rewrite (read_linked _ _ _ Hlk) in Hr.
      destruct (read_file_Some _ _ _ Hr) as (i & Hlk' & Hdat'). exists i. split; [done|].
      destruct (Z.eqb_spec id a); [done|]. rewrite Hdat', Hdat. split.
      * split; [done|]. rewrite app_nil_r. by split; [|left].
      * apply (hint_harmless_read (e_disk e) _ sg); [by rewrite Hid|done|cbn; congruence|done].
  - intros Hx k en. rewrite <- (ex_index _ _ (Hexa Hx)), Hx, <- Hnw. apply index_winner.
  - intros Hd. destruct (Hds Hd) as [-> Has]. split; [done|]. intros id _. by case_match.
Qed.

(** What is left holds the map there was, or at least all of it. *)
Lemma survives_holds : holds (m_exact m) ds (abs db e) d'.
Proof using Hi Hst Hnw Hw Hf Ht Hs Hds.
  destruct survives_restorable as [a R]. eexists logs, _, _, a. split; [exact R|]. rewrite (abs_logs _ _ _ _ Hi). unfold contents. split.
  - apply map_subseteq_spec. intros k v. rewrite !lookup_fmap, !fmap_Some. intros (en & Hk & ->).
    exists en. split; [by apply (lookup_weaken _ _ _ _ Hk), index_replayed|done].
  - intros Hx. by rewrite <- (ex_index _ _ (di_exact _ _ _ _ Hi Hx)).
Qed.
End survives.

(** ** A write that succeeded *)

(** The calls that write, with what they do to the map; an empty batch is not one. *)
Inductive write_call (db : DB) : M unit → (kvmap → kvmap) → Prop :=
| call_Put k v : write_call db (Put k v) (λ M, <[k := v]> M)
| call_Delete k : write_call db (Delete k) (λ M, base.delete k M)
| call_BatchPut es :
    es ≠ [] → MaxBatchEncodedSize (opts db) <= recordHeaderSize + maxBatchBodyLen →
    write_call db (BatchPut es) (spec_apply (writeKindBatch es)).

Lemma submit_enabled m logs (db : DB) (e : env) req s' :
  db_inv m logs db e → has_room m db → request_ok req → submit req (db, e) = (Ok tt, s') → writesDisabled s'.1 = false.
Proof.
  intros Hi Hr Hok. unfold submit, submit_gate. cbn [fst snd]. destruct (closed db); [done|]. destruct (writesDisabled db) eqn:Hw; [done|].
  destruct (processBurst _ (db, e)) as [rs s1] eqn:E. destruct rs as [|r []]; [done| |done]. intros [= -> ->].
  by apply (burst_enabled m logs req db e s').
Qed.

Lemma write_call_run m logs (db : DB) (e : env) call f s' :
  db_inv m logs db e → has_room m db → write_call db call f → call (db, e) = (Ok tt, s') →
  call_outcome m f db e (Ok tt) s' ∧ writesDisabled s'.1 = false.
Proof.
  intros Hi Hr Hc. destruct Hc as [k v|k|es Hne Hopt]; intros H.
  - pose proof (Put_run _ _ _ _ _ _ _ _ Hi Hr H) as Ho. unfold Put in H. pose proof (validateKeyValue_ok k v) as Hv.
    destruct (validateKeyValue k v); [by destruct Ho|]. destruct (refused _ db); [by destruct Ho|]. destruct Ho as (_ & _ & Ho).
    split; [done|]. by apply (submit_enabled m logs db e (writeKindPut k v)); [..|apply Hv|].
  - pose proof (Delete_run _ _ _ _ _ _ _ Hi Hr H) as Ho. unfold Delete in H. destruct (refused _ db); [by destruct Ho|].
    destruct Ho as (Hk & Ho). split; [done|]. do 2 (case_match; [done|]). by apply (submit_enabled m logs db e (writeKindDelete k)).
  - pose proof (BatchPut_run _ _ _ _ _ _ _ Hi Hr Hopt H) as Ho. rewrite decide_False in Ho by done.
    destruct (refused _ db); [by destruct Ho|]. destruct Ho as (Hk & Ho). split; [done|]. unfold BatchPut in H.
    destruct (Z.eqb_spec (zlen es) 0) as [E|_]; [by apply zlen_0 in E|]. do 2 (case_match; [done|]). unfold ebind in H. cbn [get_db fst] in H.
    case_match; [done|]. by apply (submit_enabled m logs db e (writeKindBatch es)).
Qed.

(** ** Close *)

Lemma clean_close_ok s e : clean s → e_disk (close s e).2 = e_disk e.
Proof. intros H. rewrite <- (clean_close s e H). unfold ignore. done. Qed.

Lemma close_each_clean l : ∀ e, Forall clean l → e_disk (close_each l e).2 = e_disk e.
Proof.
  induction l as [|s l IH]; intros e H; [done|]. inversion H as [|? ? Hs Hl]; subst. cbn [close_each].
  pose proof (clean_close_ok s e Hs) as D. destruct (close s e) as [r e1]. pose proof (IH e1 Hl) as D'.
  destruct (close_each l e1) as [f e2]. cbn in *. congruence.
Qed.

Lemma inv_clean m logs (db : DB) (e : env) :
  db_inv m logs db e → flushed db e → Forall clean (map_to_list (segs db)).*2.
Proof.
  intros Hi Hf. apply Forall_forall. intros s ([id s'] & -> & Hin)%list_elem_of_fmap.
  apply elem_of_map_to_list in Hin. destruct (decide (active db = Some id)) as [Ha|Ha].
  - destruct (Hf id s' (conj Ha Hin)) as (_ & Hb & _). by right.
  - destruct (di_seg _ _ _ _ Hi id s' Hin) as [_ _ _ _ Hd]. cbn zeta in Hd. rewrite decide_False in Hd by done. apply Hd.
Qed.

Lemma Close_run m logs (db : DB) (e : env) s' :
  db_inv m logs db e → closed db = false → Close (db, e) = (Ok tt, s') →
  closed s'.1 = true ∧ ∃ e1, e_disk s'.2 = e_disk e1 ∧ keeps m logs logs (db, e) (db, e1) ∧ flushed db e1
    ∧ (m_durable m = true → all_durable db e1).
Proof.
  intros Hi Hc. unfold Close. cbn [fst snd]. rewrite Hc. destruct (di_active _ _ _ _ Hi) as (a & s & Ha & Hs). rewrite Ha.
  pose proof (sync_active_durable m logs db e Hi) as H. pose proof (sync_active_spec m logs db e Hi) as H2. unfold wp in H, H2.
  destruct (with_active sync (db, e)) as [r [db1 e1]]. cbn [fst snd] in *. destruct H as (K & -> & Hd), H2 as (_ & _ & _ & H2).
  unfold closeAllSegmentsLocked. cbn [fst snd]. destruct r as [[]|err]; cbn [fst snd].
  2: { destruct (close_each (map_to_list (segs db)).*2 e1) as [f e2]. done. }
  destruct H2 as (a' & s0 & [Ha' Hs0] & Hq & _).
  assert (Hf : flushed db e1) by (intros b sb [Hb Hsb]; by simplify_eq).
  pose proof (inv_clean _ _ _ _ (kp_inv _ _ _ _ _ K) Hf) as Hcl.
  cbn [fst] in Hcl. pose proof (close_each_clean _ e1 Hcl) as D.
  destruct (close_each (map_to_list (segs db)).*2 e1) as [f e2]. cbn [snd] in D. destruct f; [discriminate|]. intros [= <-]. split; [done|].
  exists e1. cbn [fst snd]. split; [cbn; by rewrite ignore_Close_disk|]. split; [exact K|]. split; [exact Hf|]. intros Hm. by apply Hd.
Qed.

(** ** The three ends *)

(** Killed, with what was flushed in the files. *)
Lemma killed_holds m logs (db : DB) (e : env) d' :
  db_inv m logs db e → m_stored m = true → m_newest m = true → writesDisabled db = false → flushed db e →
  killed db (e_disk e) d' → holds (m_exact m) false (abs db e) d'.
Proof. intros Hi Hst Hnw Hw Hf (tail & Ht & Hs). by eapply survives_holds. Qed.

(** Power lost when everything is durable, or the process ended and nothing lost. *)
Definition durable_mode (m : mode) : Prop := m_stored m = true ∧ m_durable m = true ∧ m_newest m = true.

Lemma power_loss_holds m logs (db : DB) (e : env) d' :
  db_inv m logs db e → durable_mode m → writesDisabled db = false → all_durable db e →
  power_loss (e_disk e) d' → holds (m_exact m) true (abs db e) d'.
Proof.
  intros Hi (Hs & Hd & Hn) Hw Had Hl. eapply survives_holds; [exact Hi|done|done|done|apply Had|apply in_flight_nil| |].
  - eapply power_loss_survives; [done|by apply (di_durable _ _ _ _ Hi)|done..].
  - intros _. split; [done|]. split; intros; apply (pl_stable _ _ Hl).
Qed.

Lemma ended_holds m logs (db : DB) (e : env) :
  db_inv m logs db e → durable_mode m → writesDisabled db = false → all_durable db e → holds (m_exact m) true (abs db e) (e_disk e).
Proof.
  intros Hi (Hs & Hd & Hn) Hw Had. pose proof (di_durable _ _ _ _ Hi Hd) as [_ _ Hh Hm].
  eapply survives_holds; [exact Hi|done|done|done|apply Had|apply in_flight_nil|apply survives_refl, Hi|].
  intros _. split; [done|]. split; [| |by apply Hm]; intros id Hl%elem_of_sorted_live; [|by apply Hh]. by apply Had.
Qed.

(** The worst a power loss can do: only what is settled is left. *)
Definition lose_power (d : disk) : disk :=
  mkDisk ((λ i, mkInode (i_synced i) (i_synced i)) <$> d_inodes d) (d_sdir d) (d_sdir d) (d_next d).

Lemma lose_power_loss d : disk_ok d → d_sdir d = d_dir d → power_loss d (lose_power d).
Proof.
  intros [Hf Hl Hi] E. split; [split| |]; cbn [lose_power d_inodes d_dir d_next].
  - intros i. rewrite dom_fmap_L. apply Hf.
  - intros n i. rewrite dom_fmap_L, E. apply Hl.
  - intros n n' i. rewrite E. apply Hi.
  - intros n [_ Hs]. unfold read_file. cbn [lose_power d_dir]. rewrite E.
    destruct (d_dir d !! n) as [i|] eqn:En; [|done]. cbn. rewrite <- (Hs i eq_refl).
    unfold file_data, file_synced. cbn. rewrite lookup_fmap. by destruct (d_inodes d !! i).
  - intros n. split; [done|]. intros i _. unfold file_data, file_synced. cbn. rewrite lookup_fmap. by destruct (d_inodes d !! i).
Qed.

