(* ===== verification/Lives.v ===== *)
(** * The lives of a data directory: opened, written, ended, opened again

    A directory starts empty.  In each life [Open] takes it, callers and the
    writer work on it with whatever system calls failing, compaction passes may
    run, and the life ends: a power loss after an acknowledged write, a [Close],
    or a kill.  [directory] says which map the directory then stands for, and
    the theorems that the next [Open] serves it. *)
From S2P Require Import Prelude LogRecord Keydir Storage Frame Names Publish Manifest HintFile Log Recovery Db Invariant WritePath Rotation Compact Engine Compactor Writes Api WriterLoop Meanwhile Scan Commit Pass OpenSteps Reopen Crash.

(** ** Lives *)

(** Within a life that Open began on [d], which held [M]: [s] is a state the
    database gets to, [M1] the map of the requests the writer has taken.  Calls
    may fail in any pattern ([fs]) and the clock may read anything.  The flag
    before [M1] says whether a compaction pass has run; with [dur], passes run
    alone, without failing calls. *)
Inductive serving (dur : bool) (o : Options) (d : disk) (M : kvmap) : bool → kvmap → state → Prop :=
| serving_opened clock db e fs clk :
    Open o (mkEnv d [] clock) = (Ok db, e) →
    serving dur o d M false M (db, mkEnv (e_disk e) fs clk)
| serving_writes b M1 s x :
    serving dur o d M b M1 s → wsteps (roomy full_mode) (started s) x →
    serving dur o d M b (apply_served (w_served x).*1.*2 (w_served x).*2 M1) (w_db x)
| serving_compacts b M1 s script r p :
    serving dur o d M b M1 s → nextID s.1 < 2 ^ 32 - 1 → script_ok script →
    (dur = true → unhindered (mkP script [] s)) → Compact (mkP script [] s) = (r, p) →
    serving dur o d M true (apply_served (p_served p).*1 (p_served p).*2 M1) (p_db p, p_env p).

(** A directory that lives without a compaction have left, and the map it
    stands for; the flag says that it is all on stable storage. *)
Inductive directory : bool → kvmap → disk → Prop :=
| directory_new : directory true ∅ empty_disk
| directory_acknowledged M d o M1 s call f s' d' :
    directory true M d → serving true o d M false M1 s →
    SyncOnPut (opts s.1) = true → has_room full_mode s.1 → write_call s.1 call f → call s = (Ok tt, s') →
    power_loss (e_disk s'.2) d' → paired d' → directory true (f M1) d'
| directory_closed M d o M1 s s' d' :
    directory true M d → serving true o d M false M1 s →
    closed s.1 = false → writesDisabled s.1 = false → Close s = (Ok tt, s') →
    d' = e_disk s'.2 ∨ power_loss (e_disk s'.2) d' → paired d' → directory true M1 d'
| directory_killed dur M d o M1 s d' :
    directory dur M d → serving false o d M false M1 s →
    writesDisabled s.1 = false → flushed s.1 s.2 → killed s.1 (e_disk s.2) d' → paired d' →
    directory false M1 d'.

(** What the next Open gives: a database that serves [M], or, if a compaction
    pass has run, every binding of [M] and perhaps others. *)
Definition restores (compacted : bool) (o o' : Options) (clock : list Z) (d : disk) (M : kvmap) : Prop :=
  ∃ db e, Open o (mkEnv d [] clock) = (Ok db, e) ∧ opts db = o' ∧ closed db = false ∧ writesDisabled db = false
    ∧ M ⊆ abs db e ∧ (compacted = false → abs db e = M).

(** ** A fresh directory *)

Definition fresh_dir : gmap bytes N :=
  {[ lockFilename := 0%N; segmentFilename 0 := 1%N; manifestFilename := 2%N ]}.
Definition fresh_inodes : gmap N inode :=
  let text := manifest_text [0] 0 in
  {[ 0%N := mkInode [] []; 1%N := mkInode [] []; 2%N := mkInode text text ]}.
Definition fresh_disk : disk := mkDisk fresh_inodes fresh_dir fresh_dir 3.
Definition fresh_segs : gmap Z segment := {[ 0 := mkSegment 0 1 (Some bufio_new) 0 ]}.
Definition fresh_db (o : Options) (buf : bytes) : DB :=
  mkDB o (Some 0) 1 0 buf (Some fresh_segs) ∅ false None false None.

Lemma fresh_opened o buf clock :
  (do! _ := on_error os_MkdirAll Datatypes.id (λ err, EWrap "engine: mkdir %s: %w" [err]) in
   do! _ := on_error acquireDataDirLock Datatypes.id (λ err, EWrap "engine: %w" [err]) in
   λ e, match open_body (mkDB o None 0 0 buf (Some ∅) newKeydir false None false None, e) with
        | (Err err, (_, e)) => (Err err, e)
        | (Ok _, (db, e)) => (Ok db, e)
        end) (mkEnv empty_disk [] clock) = (Ok (fresh_db o buf), mkEnv fresh_disk [] clock).
Proof. vm_compute. reflexivity. Qed.

Lemma Open_fresh o o' clock :
  resolve_options o = Ok o' →
  Open o (mkEnv empty_disk [] clock) = (Ok (fresh_db o' (make_bytes (64 * 1024))), mkEnv fresh_disk [] clock).
Proof. intros Ho. unfold Open. rewrite Ho. apply fresh_opened. Qed.

Lemma fresh_no_hint id : d_dir fresh_disk !! hintFilename id = None.
Proof.
  cbn [d_dir fresh_disk]. unfold fresh_dir. rewrite lookup_insert_ne by apply not_eq_sym, hint_not_lock.
  rewrite lookup_insert_ne by apply segment_not_hint. rewrite lookup_singleton_ne; [done|]. apply not_eq_sym, hint_not_manifest.
Qed.

Lemma fresh_dir_Some n i :
  fresh_dir !! n = Some i →
  n = lockFilename ∧ i = 0%N ∨ n = segmentFilename 0 ∧ i = 1%N ∨ n = manifestFilename ∧ i = 2%N.
Proof.
  unfold fresh_dir. intros [[<- <-]|[_ [[<- <-]|[_ [<- <-]%lookup_singleton_Some]]%lookup_insert_Some]]%lookup_insert_Some; auto.
Qed.
Lemma fresh_segs_Some id s : fresh_segs !! id = Some s → id = 0 ∧ s = mkSegment 0 1 (Some bufio_new) 0.
Proof. unfold fresh_segs. by intros [<- <-]%lookup_singleton_Some. Qed.

Lemma fresh_disk_ok : disk_ok fresh_disk.
Proof.
  assert (Hd : dom fresh_inodes = {[ 0%N; 1%N; 2%N ]}) by by vm_compute.
  split; cbn [fresh_disk d_inodes d_dir d_next].
  - intros i. rewrite Hd. set_unfold. intros [[->| ->]| ->]; lia.
  - intros n i [[_ ->]|[[_ ->]|[_ ->]]]%fresh_dir_Some; rewrite Hd; set_solver.
  - intros n n' i [[-> ->]|[[-> ->]|[-> ->]]]%fresh_dir_Some [[-> ?]|[[-> ?]|[-> ?]]]%fresh_dir_Some; done.
Qed.

Lemma fresh_inv o buf fs clk : db_inv full_mode (λ _, []) (fresh_db o buf) (mkEnv fresh_disk fs clk).
Proof.
  assert (Hl : ∀ id, is_live_id (fresh_db o buf) id → id = 0) by by intros id [s [-> _]%fresh_segs_Some].
  split; [apply fresh_disk_ok|done| | | |done| | | |].
  - exists 0, (mkSegment 0 1 (Some bufio_new) 0). done.
  - intros id s [-> ->]%fresh_segs_Some.
    split; [done|done| |constructor|]; [by vm_compute|]. cbn zeta. rewrite decide_True by done. left.
    split; [|by vm_compute]. split; [|by vm_compute]. unfold has_file. cbn. set_solver.
  - intros k en H. change ((∅ : keydir) !! k = Some en) in H. by rewrite lookup_empty in H.
  - intros id l _ H. by apply not_elem_of_nil in H.
  - intros _. split; [|done| |].
    + intros a _ [= <-]. by vm_compute.
    + intros id _ [->%Hl|[i Hi]]; [done|]. cbn [e_disk] in Hi. by rewrite fresh_no_hint in Hi.
    + intros id s [-> ->]%fresh_segs_Some. rewrite decide_True by done. apply fresh_no_hint.
  - intros _. split.
    + intros id _. done.
    + intros id ->%Hl. done.
    + intros id _. split; [done|]. intros i Hi. cbn [e_disk] in Hi. by rewrite fresh_no_hint in Hi.
    + intros _. split; [done|]. intros i [= <-]. by vm_compute.
  - intros _. split; [by vm_compute| |].
    + intros a id [= <-] ->%Hl. done.
    + intros id ->%Hl. done.
Qed.

(** ** The map through a life *)

Lemma has_room_stored m (db : DB) : m_stored m = true → has_room full_mode db → has_room m db.
Proof. intros Hs (Ht & _ & Hn). split; [done|]. split; [done|]. intros _. by apply Hn. Qed.
Lemma burst_room_stored m burst : m_stored m = true → ∀ s, burst_room full_mode burst s → burst_room m burst s.
Proof.
  intros Hs. induction burst as [|req burst IH]; intros s; [done|]. cbn [burst_room]. intros [Hr Hb].
  split; [by apply has_room_stored|by apply IH].
Qed.
Lemma wsteps_mono (room room' : list writeRequest → state → Prop) x y :
  (∀ b s, room b s → room' b s) → wsteps room x y → wsteps room' x y.
Proof.
  intros H. induction 1 as [|x y z _ IH Hs]; [constructor|]. eapply wsteps_step; [exact IH|].
  destruct Hs; [by apply step_refused|by apply step_enter|by eapply step_send|apply step_burst; auto|by apply step_close|apply step_exit; auto].
Qed.

Lemma inv_env m logs (db : DB) (e e' : env) : e_disk e' = e_disk e → db_inv m logs db e → db_inv m logs db e'.
Proof. intros E Hi. eapply (inv_framed (λ _, True)); [exact Hi|rewrite E; apply framed_refl, Hi|done]. Qed.

Lemma Open_options o e (db : DB) e' : Open o e = (Ok db, e') → ∃ o', resolve_options o = Ok o'.
Proof. unfold Open. destruct (resolve_options o) as [o'|]; [|done]. by exists o'. Qed.

(** What the database of a life is known to keep. *)
Definition alive (dur b : bool) (M1 : kvmap) (s : state) : Prop :=
  ∃ m logs, db_inv m logs s.1 s.2 ∧ m_stored m = true ∧ m_newest m = true ∧ (dur = true → m_durable m = true)
    ∧ (b = false → m_exact m = true) ∧ abs s.1 s.2 = M1.

(** A directory is empty, or holds its map. *)
Definition held (dur : bool) (M : kvmap) (d : disk) : Prop :=
  M = ∅ ∧ d = empty_disk ∨ holds true dur M d ∧ paired d.

Lemma held_serves dur M d o o' clock : held dur M d → resolve_options o = Ok o' → serves true dur o o' clock d M.
Proof.
  intros [[-> ->]|[H Hp]] Ho; [|by apply holds_serves].
  eexists _, _. split; [by apply Open_fresh|]. do 3 (split; [done|]).
  assert (HA : ∀ buf fs clk, abs (fresh_db o' buf) (mkEnv fresh_disk fs clk) = ∅) by done.
  split; [rewrite HA; apply map_empty_subseteq|]. split; [by intros _; apply HA|]. exists (λ _, []).
  destruct (fresh_inv o' (make_bytes (64 * 1024)) [] clock) as [? ? ? ? ? ? ? ? Hdu ?]. split; try done. intros _. by apply Hdu.
Qed.

Lemma held_weaken dur M d : held dur M d → held false M d.
Proof.
  intros [H|[(logs & tails & live & ma & [? ? ? ? ? ? ? ?] & Hc) Hp]]; [by left|]. right. split; [|done].
  exists logs, tails, live, ma. split; [by split|done].
Qed.


Lemma serving_alive dur M d o b M1 s : held dur M d → serving dur o d M b M1 s → alive dur b M1 s.
Proof.
  intros H Hs. induction Hs as [clock db e fs clk E|b M1 s x _ IH Hx|b M1 s script r p _ IH Hn Hsc Hun HC].
  - destruct (Open_options _ _ _ _ E) as [o' Ho]. destruct (held_serves _ _ _ _ _ clock H Ho) as (db' & e' & E' & _ & _ & _ & _ & HM & logs & Hi).
    rewrite E in E'. injection E' as <- <-. exists (mkMode true dur true true), logs.
    split; [by eapply inv_env; [|exact Hi]|]. do 4 (split; [done|]). by rewrite <- HM.
  - destruct IH as (m & logs & Hi & Hst & Hnw & Hdu & Hex & <-). destruct s as [db e].
    destruct (wsteps_linear m logs db e x Hi) as [_ [_ [logs' Hi'] HA _ _]].
    { eapply wsteps_mono; [|exact Hx]. intros burst s [Hok Hr]. split; [done|by apply burst_room_stored]. }
    exists m, logs'. cbn [fst snd]. by rewrite HA.
  - destruct IH as (m & logs & Hi & Hst & Hnw & Hdu & Hex & <-). destruct s as [db e].
    destruct (Compact_run _ _ _ _ _ _ _ Hi Hst Hn Hsc HC) as [HA (m' & logs' & Hi' & Hst' & Hnw' & Hdu') _].
    exists m', logs'. cbn [fst snd]. rewrite HA. split; [done|]. split; [done|]. split; [congruence|].
    split; [|done]. intros Hd. by rewrite Hdu', Hdu by auto.
Qed.

(** ** The map through the end of a life *)

Definition ended (dur b : bool) (M : kvmap) (d : disk) : Prop := ∃ ex, (b = false → ex = true) ∧ holds ex dur M d.

Lemma acknowledged_ended b M1 s call f s' d' :
  alive true b M1 s → SyncOnPut (opts s.1) = true → has_room full_mode s.1 → write_call s.1 call f →
  call s = (Ok tt, s') → power_loss (e_disk s'.2) d' → ended true b (f M1) d'.
Proof.
  intros (m & logs & Hi & Hst & Hnw & Hdu & Hex & <-) Hsync Hr Hc HP Hl. destruct s as [db e], s' as [db' e'].
  destruct (write_call_run _ _ _ _ _ _ _ Hi (has_room_stored m db Hst Hr) Hc HP) as [(_ & _ & logs' & Hi' & HA & Hd) Hw].
  exists (m_exact m). split; [done|]. cbn [fst snd] in *. rewrite <- HA. specialize (Hdu eq_refl). by eapply power_loss_holds; eauto.
Qed.

Lemma closed_ended b M1 s s' d' :
  alive true b M1 s → closed s.1 = false → writesDisabled s.1 = false → Close s = (Ok tt, s') →
  d' = e_disk s'.2 ∨ power_loss (e_disk s'.2) d' → closed s'.1 = true ∧ ended true b M1 d'.
Proof.
  intros (m & logs & Hi & Hst & Hnw & Hdu & Hex & <-) Hc Hw HC Hend. destruct s as [db e]. specialize (Hdu eq_refl).
  destruct (Close_run _ _ _ _ _ Hi Hc HC) as (Hcl & e1 & D & K & _ & Hd). split; [done|]. exists (m_exact m). split; [done|].
  rewrite D in Hend. cbn [fst snd] in *. rewrite <- (keeps_abs _ _ _ _ _ _ _ Hi K). pose proof (kp_inv _ _ _ _ _ K) as Hi1.
  destruct Hend as [->|Hl]; [by eapply ended_holds; eauto|by eapply power_loss_holds; eauto].
Qed.

Lemma killed_ended dur b M1 s d' :
  alive dur b M1 s → writesDisabled s.1 = false → flushed s.1 s.2 → killed s.1 (e_disk s.2) d' → ended false b M1 d'.
Proof.
  intros (m & logs & Hi & Hst & Hnw & Hdu & Hex & <-) Hw Hf Hk. exists (m_exact m). split; [done|]. by eapply killed_holds.
Qed.

Lemma ended_held dur M d : ended dur false M d → paired d → held dur M d.
Proof. intros (ex & Hex & H) Hp. right. by rewrite (Hex eq_refl) in H. Qed.

Lemma ended_restores dur b M o o' d clock :
  ended dur b M d → paired d → resolve_options o = Ok o' → restores b o o' clock d M.
Proof.
  intros (ex & Hex & H) Hp Ho. destruct (holds_serves _ _ _ _ _ _ clock H Hp Ho) as (db & e & E & O & C & W & Hsub & Heq & _).
  exists db, e. do 5 (split; [done|]). auto.
Qed.

Lemma directory_held dur M d : directory dur M d → held dur M d.
Proof.
  induction 1 as [|M d o M1 s call f s' d' _ IH Hs Hsync Hr Hc HP Hl Hp|M d o M1 s s' d' _ IH Hs Hc Hw HC Hend Hp
    |dur M d o M1 s d' _ IH Hs Hw Hf Hk Hp].
  - by left.
  - apply ended_held; [|done]. eapply acknowledged_ended; [by eapply serving_alive|done..].
  - apply ended_held; [|done]. eapply closed_ended; [by eapply serving_alive|done..].
  - apply ended_held; [|done]. eapply killed_ended; [by eapply serving_alive, Hs; eapply held_weaken|done..].
Qed.
Lemma directory_alive dur M d o b M1 s : directory dur M d → serving dur o d M b M1 s → alive dur b M1 s.
Proof. intros Hd. by apply serving_alive, directory_held. Qed.
Lemma directory_alive_any dur M d o b M1 s : directory dur M d → serving false o d M b M1 s → alive false b M1 s.
Proof. intros Hd. by eapply serving_alive, held_weaken, directory_held. Qed.

(** ** The three ends of a life *)

(** C4: an acknowledged write survives a power loss.  Take a directory that lives
    of this database have left on stable storage (it began empty; each life ran
    no compaction and ended with an acknowledged write and a power loss, or with
    a Close), and any state of a further life on it, whatever calls failed.  With
    SyncOnPut, once Put, Delete or BatchPut has returned without an error and
    before anything else is written, lose every byte and every directory entry
    that no fsync has settled: the next [Open] serves exactly the map of the
    writes served, this one included.  If compaction passes have run in that life
    (alone, no call of theirs failing), it serves at least the bindings of that
    map: a deletion may be undone, see [Deviations.deleted_key_resurrects].  As in
    the theorems below, no call of that Open fails, and what is left has segment
    ids to spare and no hint file without its segment ([paired]). *)
Theorem write_survives_power_loss M d o b M1 s call f s' d' o1 o1' clock :
  directory true M d → serving true o d M b M1 s →
  SyncOnPut (opts s.1) = true → has_room full_mode s.1 → write_call s.1 call f → call s = (Ok tt, s') →
  power_loss (e_disk s'.2) d' → paired d' → resolve_options o1 = Ok o1' →
  restores b o1 o1' clock d' (f M1).
Proof. intros Hd Hs Hsync Hr Hc HP Hl Hp Ho. eapply ended_restores; [|done..]. by eapply acknowledged_ended; [eapply directory_alive|..]. Qed.

(** C14: Close seals the database.  From any state of a life on a directory that is
    on stable storage (no earlier life of it was killed or compacted it), its
    writer healthy: once [Close] has returned without an error, whatever SyncOnPut
    says, neither the end of the process nor a power loss takes anything.  The
    next [Open] serves exactly the map of the writes served, or at least its
    bindings if compaction passes have run in that life (alone, no call of theirs
    failing).  After a kill in an earlier life it is not so, see
    [Deviations.sealed_unsynced]. *)
Theorem Close_then_Open M d o b M1 s s' d' o1 o1' clock :
  directory true M d → serving true o d M b M1 s → closed s.1 = false → writesDisabled s.1 = false →
  Close s = (Ok tt, s') → d' = e_disk s'.2 ∨ power_loss (e_disk s'.2) d' → paired d' → resolve_options o1 = Ok o1' →
  closed s'.1 = true ∧ restores b o1 o1' clock d' M1.
Proof.
  intros Hd Hs Hc Hw HC Hend Hp Ho. destruct (closed_ended b M1 s s' d') as [Hcl He]; [by eapply directory_alive|done..|].
  split; [done|]. by eapply ended_restores.
Qed.

(** C9: killing the process loses nothing that was flushed.  From any state of any
    life on a directory that earlier lives have not compacted, on stable storage
    or not, with the writer healthy and no append of the active segment cut short
    by a failing write: kill the process, between two appends or in the middle of
    the next.  The next [Open], with any options it accepts, serves exactly the
    map of the writes served, or at least its bindings if compaction passes have
    run in that life, with writes going on and calls failing or not: a deletion
    may then be undone. *)
Theorem Open_restores_killed dur M d o b M1 s d' o1 o1' clock :
  directory dur M d → serving false o d M b M1 s → writesDisabled s.1 = false → flushed s.1 s.2 →
  killed s.1 (e_disk s.2) d' → paired d' → resolve_options o1 = Ok o1' →
  restores b o1 o1' clock d' M1.
Proof. intros Hd Hs Hw Hf Hk Hp Ho. eapply ended_restores; [|done..]. by eapply killed_ended; [eapply directory_alive_any|..]. Qed.

(** ** Two lives *)

(** Names a restart can take: no hint file, ids left. *)
Definition tidy (n : bytes) : bool :=
  negb (bool_decide (filepath_Ext n = filepath_Ext (hintFilename 0)))
  && match segment_id_of n with Some id => id <? 2 ^ 32 - 2 | None => true end.

Lemma paired_tidy d : forallb tidy (map_to_list (d_dir d)).*1 = true → paired d.
Proof.
  rewrite forallb_forall. intros H.
  assert (Hn : ∀ n, is_Some (d_dir d !! n) → tidy n = true).
  { intros n [i Hi]. apply H, list_elem_of_In, list_elem_of_fmap. exists (n, i). split; [done|]. by apply elem_of_map_to_list. }
  split.
  - intros id _ Hh%Hn. unfold tidy in Hh. rewrite !Ext_hintFilename, bool_decide_true in Hh by done. done.
  - intros id (n & Hd%Hn & Hid). unfold tidy in Hd. rewrite Hid in Hd. apply andb_prop in Hd as [_ Hd]. by apply Z.ltb_lt in Hd.
Qed.

Lemma same_map (m1 m2 : gmap bytes N) : map_to_list m1 = map_to_list m2 → m1 = m2.
Proof. intros E. by rewrite <- (list_to_map_to_list m1), E, list_to_map_to_list. Qed.

(** The worst of a kill: part of the next record is in the file. *)
Lemma killed_append m logs (db : DB) (e : env) a s tail :
  db_inv m logs db e → active_at db a s → in_flight tail → killed db (e_disk e) (append_data tail (s_file s) (e_disk e)).
Proof.
  intros Hi [Ha Hs] Ht. exists tail. split; [done|]. destruct (di_seg _ _ _ _ Hi a s Hs) as [_ Hu Hlk _ _].
  pose proof (append_data_appended (s_file s) tail e [] (e_clock e) (inv_has_file _ _ _ _ Hi a s Hs) eq_refl) as A.
  pose proof (appended_framed _ _ _ _ (di_disk _ _ _ _ Hi) A) as F. cbn [e_disk] in F.
  assert (Hother : ∀ n, n ≠ segmentFilename a → d_dir (e_disk e) !! n ≠ Some (s_file s))
    by (intros n Hn Hd; by apply Hn, (dk_inj _ (di_disk _ _ _ _ Hi) _ _ (s_file s))).
  split; [apply F| | | |].
  - apply (framed_read _ _ _ _ F), Hother, not_eq_sym, segment_not_manifest.
  - intros id [s' Hs'] Hne. apply (framed_read _ _ _ _ F), Hother. intros E%segmentFilename_inj; [congruence| |done].
    apply (di_seg _ _ _ _ Hi id s' Hs').
  - intros id _. apply (framed_read _ _ _ _ F), Hother, not_eq_sym, segment_not_hint.
  - intros a' old Ha' Hold. assert (a' = a) as -> by congruence. rewrite (read_linked _ _ _ Hlk) in Hold. injection Hold as <-.
    rewrite (read_linked _ _ (s_file s)); [f_equal; apply A|]. rewrite <- Hlk. exact (f_equal (.!! segmentFilename a) (app_dir _ _ _ _ A)).
Qed.

Lemma alive_Close_disk dur b M1 s s' : alive dur b M1 s → closed s.1 = false → Close s = (Ok tt, s') → disk_ok (e_disk s'.2).
Proof.
  intros (m & logs & Hi & _) Hc HC. destruct s as [db e]. destruct (Close_run _ _ _ _ _ Hi Hc HC) as (_ & e1 & -> & K & _).
  apply (di_disk _ _ _ _ (kp_inv _ _ _ _ _ K)).
Qed.
Lemma alive_has_file dur b M1 st a s : alive dur b M1 st → segs st.1 !! a = Some s → has_file (s_file s) st.2.
Proof. intros (m & logs & Hi & _) Hs. by eapply inv_has_file. Qed.
Lemma alive_killed dur b M1 st a s tail :
  alive dur b M1 st → active st.1 = Some a → segs st.1 !! a = Some s → in_flight tail →
  killed st.1 (e_disk st.2) (append_data tail (s_file s) (e_disk st.2)).
Proof. intros (m & logs & Hi & _) Ha Hs Ht. by eapply killed_append. Qed.

(** The first life: [Open] on the empty directory, a [Put], and the power goes. *)
Definition life1 : state := (fresh_db init_opts (make_bytes (64 * 1024)), mkEnv fresh_disk [] []).
Definition put1 : result unit * state := Put [x61] [x31] life1.
Definition left1 : disk := lose_power (e_disk put1.2.2).

Lemma serving1 : serving true init_opts empty_disk ∅ false ∅ life1.
Proof. apply (serving_opened _ _ _ _ [] (fresh_db init_opts _) (mkEnv fresh_disk [] []) [] []). by apply Open_fresh. Qed.
Lemma put1_ok : Put [x61] [x31] life1 = (Ok tt, put1.2).
Proof. assert (E : put1.1 = Ok tt) by (vm_compute; reflexivity). rewrite <- E. apply surjective_pairing. Qed.
Lemma room1 : has_room full_mode life1.1.
Proof. split; [done|]. split; [done|]. intros _. done. Qed.
Lemma lost1 : power_loss (e_disk put1.2.2) left1.
Proof.
  apply lose_power_loss; [|apply same_map; vm_compute; reflexivity].
  destruct (Put_run full_mode (λ _, []) life1.1 life1.2 _ _ _ put1.2 (fresh_inv _ _ _ _) room1 put1_ok) as (_ & _ & _ & _ & logs & Hi & _).
  exact (di_disk _ _ _ _ Hi).
Qed.
Lemma paired1 : paired left1.
Proof. apply paired_tidy. vm_compute. reflexivity. Qed.

Lemma write_survives_power_loss_witness : restores false init_opts init_opts [5] left1 (<[[x61] := [x31]]> ∅).
Proof.
  apply (write_survives_power_loss ∅ empty_disk init_opts false ∅ life1 (Put [x61] [x31]) (λ M, <[[x61] := [x31]]> M) put1.2 left1
    init_opts init_opts [5] directory_new serving1 eq_refl room1 (call_Put life1.1 [x61] [x31]) put1_ok lost1 paired1 eq_refl).
Defined.

(** The second life: [Open] on what is left. *)
Lemma directory1 : directory true (<[[x61] := [x31]]> ∅) left1.
Proof.
  apply (directory_acknowledged ∅ empty_disk init_opts ∅ life1 (Put [x61] [x31]) (λ M, <[[x61] := [x31]]> M) put1.2);
    [apply directory_new|apply serving1|done|apply room1|apply call_Put|apply put1_ok|apply lost1|apply paired1].
Qed.
Definition life2 : state :=
  match Open init_opts (mkEnv left1 [] []) with (Ok db, e) => (db, mkEnv (e_disk e) [] []) | (Err _, e) => life1 end.

Lemma serving2 dur : serving dur init_opts left1 (<[[x61] := [x31]]> ∅) false (<[[x61] := [x31]]> ∅) life2.
Proof.
  assert (E : is_ok (Open init_opts (mkEnv left1 [] [])).1 = true) by (vm_compute; reflexivity). revert E. unfold life2.
  destruct (Open init_opts (mkEnv left1 [] [])) as [[db|err] e] eqn:E; [intros _|done]. by eapply serving_opened.
Qed.
Definition close2 : result unit * state := Close life2.
Lemma close2_ok : Close life2 = (Ok tt, close2.2).
Proof. assert (E : close2.1 = Ok tt) by (vm_compute; reflexivity). rewrite <- E. apply surjective_pairing. Qed.
Lemma open2 : closed life2.1 = false ∧ writesDisabled life2.1 = false.
Proof. split; vm_compute; reflexivity. Qed.
Lemma lost2 : power_loss (e_disk close2.2.2) (lose_power (e_disk close2.2.2)).
Proof.
  apply lose_power_loss; [|apply same_map; vm_compute; reflexivity].
  exact (alive_Close_disk _ _ _ _ _ (directory_alive _ _ _ _ _ _ _ directory1 (serving2 _)) (proj1 open2) close2_ok).
Qed.

Lemma Close_then_Open_witness :
  closed close2.2.1 = true ∧ restores false init_opts init_opts [] (lose_power (e_disk close2.2.2)) (<[[x61] := [x31]]> ∅).
Proof.
  apply (Close_then_Open _ left1 init_opts false _ life2 close2.2 _ init_opts init_opts [] directory1 (serving2 _)
    (proj1 open2) (proj2 open2) close2_ok (or_intror lost2)); [|done].
  apply paired_tidy. vm_compute. reflexivity.
Defined.

Definition torn : bytes := slice_to (log_image (LPut 7 [x61] [x31])) 9.
Lemma torn_in_flight : in_flight torn.
Proof. exists (LPut 7 [x61] [x31]), (slice_from (log_image (LPut 7 [x61] [x31])) 9). done. Qed.
Lemma active2 : active life2.1 = Some 0 ∧ segs life2.1 !! 0 = Some (mkSegment 0 1 (Some bufio_new) 23).
Proof. split; vm_compute; reflexivity. Qed.

Lemma flushed2 : flushed life2.1 life2.2.
Proof.
  destruct active2 as [Ha Hs]. intros a s [Ha' Hs']. rewrite Ha in Ha'. injection Ha' as <-. rewrite Hs in Hs'. injection Hs' as <-.
  split; [exact (alive_has_file _ _ _ _ _ _ (directory_alive _ _ _ _ _ _ _ directory1 (serving2 _)) Hs)|]. split; vm_compute; reflexivity.
Qed.

Lemma Open_restores_killed_witness :
  restores false init_opts init_opts [] (append_data torn 1%N (e_disk life2.2)) (<[[x61] := [x31]]> ∅).
Proof.
  apply (Open_restores_killed true (<[[x61] := [x31]]> ∅) left1 init_opts false _ life2 _ init_opts init_opts []
    directory1 (serving2 _) (proj2 open2)); [exact flushed2| | |exact eq_refl].
  - exact (alive_killed _ _ _ _ _ _ torn (directory_alive _ _ _ _ _ _ _ directory1 (serving2 _)) (proj1 active2) (proj2 active2) torn_in_flight).
  - apply paired_tidy. vm_compute. reflexivity.
Defined.
