(* ===== verification/Deviations.v ===== *)
(** * Runs that show where code and intention part

    Concrete runs of the model, evaluated by the kernel: each one is a sequence
    of calls that a user can make, with an outcome that a comment or the
    specification rules out. *)
From S2P Require Import Prelude LogRecord Keydir Storage Names Log Recovery Db Compact Engine Compactor Crash.

(** ** A deleted key comes back after a compaction *)

(** Segments of 48 bytes hold two of these records of 24 bytes. *)
Definition small_opts (sync : bool) : Options := mkOptions "d" 48 sync 0 0 0.
Definition puts (keys : list bytes) : M unit :=
  fold_right (λ k rest, do! _ := Put k [x31; x31] in rest) (eret tt) keys.

(** [f] on a database opened on [d]: the disk it leaves, and its result. *)
Definition run_on {A} (sync : bool) (f : M A) (d : disk) : result (A * disk) :=
  match Open (small_opts sync) (mkEnv d [] []) with
  | (Err err, _) => Err err
  | (Ok db, e) => match f (db, e) with
                  | (Err err, _) => Err err
                  | (Ok a, s) => Ok (a, e_disk s.2)
                  end
  end.
Definition and_close (f : M unit) : M unit := do! _ := f in Engine.Close.
Definition deleted_after_compaction : M unit :=
  do! _ := puts [[x61]; [x62]; [x63]; [x64]; [x65]; [x64]; [x65]] in
  do! _ := alone Compact in
  Engine.Delete [x61].

(** Compaction gives the live records of sealed segments a segment of a higher
    id than the active one, and recovery replays by id: the active segment's
    newer deletion of [a] comes first, deletes nothing, and is forgotten. *)
Lemma deleted_key_resurrects :
  match run_on true (and_close deleted_after_compaction) empty_disk with
  | Ok (_, d) => match run_on true (Db.Get [x61]) d with Ok (v, _) => v = [x31; x31] | Err _ => False end
  | Err _ => False
  end.
Proof. by vm_compute. Qed.

(** Before the restart the deletion is seen. *)
Lemma deleted_key_gone :
  match Open (small_opts true) (mkEnv empty_disk [] []) with
  | (Ok db, e) => match (do! _ := deleted_after_compaction in Db.Get [x61]) (db, e) with
                  | (r, _) => r = Err (ESentinel ErrKeyNotFound)
                  end
  | _ => False
  end.
Proof. by vm_compute. Qed.

(** ** Open seals an active segment that was never synced *)

(** Two unsynced writes fill segment 0 and the process is killed.  The next
    process finds it full, makes a fresh active segment and closes without an
    error, but [Close] syncs the fresh segment only. *)
Lemma sealed_unsynced :
  match run_on false (puts [[x61]; [x62]]) empty_disk with
  | Ok (_, d1) =>
    match run_on true (and_close (puts [[x63]])) d1 with
    | Ok (_, d2) =>
        is_ok (run_on true (Db.Get [x61]) d2) = true
        ∧ is_ok (run_on true (Db.Get [x62]) d2) = true
        ∧ is_ok (run_on true (Db.Get [x63]) (lose_power d2)) = true
        ∧ is_ok (run_on true (Db.Get [x62]) (lose_power d2)) = false
    | Err _ => False
    end
  | Err _ => False
  end.
Proof. by vm_compute. Qed.

(** ** A single record can exceed the threshold *)

(** handleOne's comment has only batches exceed MaxSegmentSize, and handleBatch's
    has it that an empty segment is never abandoned for an oversize record: a put
    of 72 bytes with segments of 48 does both. *)
Lemma oversize_put :
  match Open (small_opts true) (mkEnv empty_disk [] []) with
  | (Ok db, e) =>
      let (r, s) := Put [x61] (replicate 50 x30) (db, e) in
      r = Ok tt ∧ active_size db = 0 ∧ active db = Some 0 ∧ active s.1 = Some 1
      ∧ s_size <$> segs s.1 = {[ 0 := 0; 1 := 72 ]}
  | _ => False
  end.
Proof. by vm_compute. Qed.

(** ** A damaged length drops the records behind it *)

(** Two records were acknowledged; one bit of the first one's value length flips,
    so that its body would end past the file.  On the active segment recovery
    takes this for a torn tail, and cuts the file to nothing. *)
Lemma damaged_length_drops :
  let first := log_image (LPut 5 [x61] [x31]) in
  let second := log_image (LPut 6 [x62] [x32]) in
  let damaged := slice_to first 18 ++ [x01] ++ slice_from first 19 in
  let data := damaged ++ second in
  let disk := mkDisk {[ 0%N := mkInode data data ]} {[ segmentFilename 0 := 0%N ]} ∅ 1 in
  slice first 18 19 = [x00]
  ∧ match recoverSegment ∅ 0 (mkSegment 0 0 None (zlen data)) true (mkEnv disk [] []) with
    | (Ok (kd, _, seg), e) => kd = ∅ ∧ s_size seg = 0 ∧ file_data (e_disk e) 0 = []
    | _ => False
    end.
Proof. vm_compute. done. Qed.
