(* ===== verification/WireFrame.v ===== *)
(** * Frames and connections (src/internal/wire/wire.go, frame.go)

    A connection seen from one side, the wire limits, opcodes and statuses, and
    the length-prefixed frames everything else travels in. *)
From S2P Require Import Prelude.

(** ** Limits, opcodes, statuses *)

Definition MaxFramePayload : Z := 32 * 1024 * 1024.
Definition MaxKeyLen : Z := 64 * 1024.
Definition MaxValLen : Z := 16 * 1024 * 1024.
Definition MaxBatchEntries : Z := 65536.
Definition MaxErrMsgLen : Z := 1024.
Definition minBatchEntryBytes : Z := 10.
Definition minRangePairBytes : Z := 9.
Definition RangeEndSentinel : Z := 2 ^ 32 - 1.

Definition OpPut : Z := 1.
Definition OpGet : Z := 2.
Definition OpDelete : Z := 3.
Definition OpBatch : Z := 4.
Definition OpReadKeyRange : Z := 5.
Definition OpPing : Z := 6.
Definition OpStats : Z := 7.

Definition StatusOK : Z := 0.
Definition StatusNotFound : Z := 1.
Definition StatusBadRequest : Z := 2.
Definition StatusInternal : Z := 3.
Definition StatusClosed : Z := 4.
Definition StatusOverload : Z := 5.

Definition BatchOpPut : Z := 0.
Definition BatchOpDelete : Z := 1.

Definition Op_String (o : Z) : string :=
  if o =? OpPut then "PUT"
  else if o =? OpGet then "GET"
  else if o =? OpDelete then "DELETE"
  else if o =? OpBatch then "BATCH"
  else if o =? OpReadKeyRange then "READKEYRANGE"
  else if o =? OpPing then "PING"
  else if o =? OpStats then "STATS"
  else "UNKNOWN".

Definition Status_String (s : Z) : string :=
  if s =? StatusOK then "OK"
  else if s =? StatusNotFound then "NOT_FOUND"
  else if s =? StatusBadRequest then "BAD_REQUEST"
  else if s =? StatusInternal then "INTERNAL"
  else if s =? StatusClosed then "CLOSED"
  else if s =? StatusOverload then "OVERLOAD"
  else "UNKNOWN".

(** ** The error classes *)

(** [*FrameError] and [*ProtocolError] carry a reason and wrap nothing. *)
Definition frame_class : string := "wire: frame: ".
Definition protocol_class : string := "wire: protocol: ".
Definition asFrameErr (format : string) : error := EWrap frame_class [errorf format].
Definition asProtocolErr (format : string) : error := EWrap protocol_class [errorf format].

(** [errors.As] for one of the two: the reason of the first such error of the
    chain. *)
Fixpoint errors_As (class : string) (e : error) : option error :=
  match e with
  | ESentinel _ => None
  | EWrap f es =>
      if String.eqb f class then head es
      else foldr (λ e' r, match errors_As class e' with Some x => Some x | None => r end) None es
  end.

(** ** Connections *)

(** One end of a connection: the bytes still to arrive and the error that a
    read meets after them, the bytes sent so far, and which of the coming writes
    and deadline calls fail; a write that fails first sends some of its bytes. *)
Record conn := mkConn {
  c_in : bytes;
  c_end : error;
  c_out : bytes;
  c_faults : list (option Z);
}.

Definition net_error : error := errorf "i/o on the connection failed".

Definition set_in (l : bytes) (c : conn) : conn := mkConn l (c_end c) (c_out c) (c_faults c).

Definition conn_call (effect : conn → conn) (partial : Z → conn → conn) (c : conn) : result unit * conn :=
  match c_faults c with
  | [] => (Ok tt, effect c)
  | f :: fs =>
    let c := mkConn (c_in c) (c_end c) (c_out c) fs in
    match f with Some n => (Err net_error, partial n c) | None => (Ok tt, effect c) end
  end.

Definition send (bs : bytes) (c : conn) : conn := mkConn (c_in c) (c_end c) (c_out c ++ bs) (c_faults c).

(** [conn.Write] and [conn.SetReadDeadline] and its siblings. *)
Definition conn_Write (bs : bytes) : conn → result unit * conn := conn_call (send bs) (λ n, send (slice_to bs n)).
Definition conn_SetDeadline : conn → result unit * conn := conn_call Datatypes.id (λ _, Datatypes.id).

(** [io.ReadFull] of [n] bytes. *)
Definition conn_ReadFull (n : Z) (c : conn) : result bytes * conn :=
  match io_ReadFull n (c_in c) with
  | (b, None, rest) => (Ok b, set_in rest c)
  | (b, Some err, rest) =>
      (Err (match c_end c with
            | ESentinel s => if String.eqb s io_EOF then err else c_end c
            | EWrap _ _ => c_end c
            end), set_in rest c)
  end.

(** ** Frames *)

Definition ReadFrame (c : conn) : result (Z * bytes) * conn :=
  match conn_ReadFull 4 c with
  | (Err err, c) => (Err err, c)
  | (Ok hdr, c) =>
    let payloadLen := be_get hdr in
    if payloadLen <? 1 then (Err (asFrameErr "payload_len=0 (must be >= 1 to carry a tag)"), c)
    else if MaxFramePayload <? payloadLen then (Err (asFrameErr "payload_len=%d exceeds max=%d"), c)
    else match conn_ReadFull payloadLen c with
         | (Err err, c) =>
             (Err (if errors_Is err io_EOF then ESentinel io_ErrUnexpectedEOF else err), c)
         | (Ok buf, c) => (Ok (byte_at buf 0, slice_from buf 1), c)
         end
  end.

Definition body_too_large : error := asFrameErr "body too large: %d bytes (max payload=%d)".

Definition WriteFrame (tag : Z) (body : bytes) : conn → result unit * conn :=
  if MaxFramePayload <? zlen body + 1 then λ c, (Err body_too_large, c)
  else
    let hdr := copy_at (make_bytes 5) 0 (be_put 4 (to_u32 (zlen body + 1))) in
    let hdr := copy_at hdr 4 [z2b tag] in
    do! _ := conn_Write hdr in
    if 0 <? zlen body then conn_Write body else eret tt.

Definition EncodeFrame (tag : Z) (body : bytes) : result bytes :=
  if MaxFramePayload <? zlen body + 1 then Err body_too_large
  else
    let out := make_bytes (5 + zlen body) in
    let out := copy_at out 0 (be_put 4 (to_u32 (zlen body + 1))) in
    let out := copy_at out 4 [z2b tag] in
    Ok (copy_at out 5 body).

(** ** The reference format *)

Definition frame_image (tag : Z) (body : bytes) : bytes := be_put 4 (zlen body + 1) ++ z2b tag :: body.

Definition is_u8 (z : Z) : Prop := 0 <= z < 256.
#[global] Instance is_u8_dec z : Decision (is_u8 z).
Proof. unfold is_u8. apply _. Defined.
Definition frame_ok (tag : Z) (body : bytes) : Prop := is_u8 tag ∧ zlen body + 1 <= MaxFramePayload.
#[global] Instance frame_ok_dec tag body : Decision (frame_ok tag body).
Proof. unfold frame_ok. apply _. Defined.

Ltac wconsts :=
  unfold MaxFramePayload, MaxKeyLen, MaxValLen, MaxBatchEntries, MaxErrMsgLen, minBatchEntryBytes,
    minRangePairBytes, RangeEndSentinel in *.

Lemma zlen_frame_image tag body : zlen (frame_image tag body) = 5 + zlen body.
Proof. unfold frame_image. zl. Qed.
#[export] Hint Rewrite zlen_frame_image : golen.

Lemma zlen_make_bytes n : 0 <= n → zlen (make_bytes n) = n.
Proof. intros. unfold make_bytes, zlen. rewrite length_replicate. lia. Qed.

Lemma EncodeFrame_image tag body : zlen body + 1 <= MaxFramePayload → EncodeFrame tag body = Ok (frame_image tag body).
Proof.
  intros Hb. unfold EncodeFrame. destruct (Z.ltb_spec MaxFramePayload (zlen body + 1)); [lia|]. f_equal.
  pose proof (zlen_nonneg body). rewrite to_u32_small by (wconsts; lia).
  pose proof (zlen_make_bytes (5 + zlen body) ltac:(lia)) as Hm. revert Hm. generalize (make_bytes (5 + zlen body)).
  intros m Hm. peel m 4 as p1. peel m 1 as p2. fill. rewrite <- (app_nil_r m). fill.
  unfold frame_image. by rewrite app_nil_r.
Qed.

(** What a write puts on the wire. *)
Lemma WriteFrame_spec tag body c r c' :
  WriteFrame tag body c = (r, c') →
  c_in c' = c_in c ∧ c_end c' = c_end c ∧
  if MaxFramePayload <? zlen body + 1 then r = Err body_too_large ∧ c_out c' = c_out c
  else match r with
       | Ok _ => c_out c' = c_out c ++ frame_image tag body
       | Err err => err = net_error ∧ ∃ p, p `prefix_of` frame_image tag body ∧ c_out c' = c_out c ++ p
       end.
Proof.
  unfold WriteFrame. destruct (Z.ltb_spec MaxFramePayload (zlen body + 1)) as [|Hb]; [by intros [= <- <-]|].
  pose proof (zlen_nonneg body). rewrite to_u32_small by (wconsts; lia).
  change (make_bytes 5) with ([x00; x00; x00; x00] ++ [x00] ++ []). fill. rewrite app_nil_r.
  assert (Himg : frame_image tag body = (be_put 4 (zlen body + 1) ++ [z2b tag]) ++ body).
  { unfold frame_image. by rewrite <- app_assoc. }
  generalize (be_put 4 (zlen body + 1) ++ [z2b tag]) Himg. intros hdr ->.
  assert (Hp : ∀ n, slice_to hdr n `prefix_of` hdr ++ body).
  { intros n. exists (slice_from hdr n ++ body). by rewrite app_assoc, slice_to_from. }
  unfold ebind, conn_Write at 1, conn_call.
  assert (Hend : ∀ c1, c_in c1 = c_in c → c_end c1 = c_end c → c_out c1 = c_out c ++ hdr →
    ∀ r c', (if 0 <? zlen body then conn_Write body else eret tt) c1 = (r, c') →
    c_in c' = c_in c ∧ c_end c' = c_end c ∧
    match r with
    | Ok _ => c_out c' = c_out c ++ hdr ++ body
    | Err err => err = net_error ∧ ∃ p, p `prefix_of` hdr ++ body ∧ c_out c' = c_out c ++ p
    end).
  { intros c1 H1 H2 H3 r1 c1'. destruct (Z.ltb_spec 0 (zlen body)) as [|Hz].
    2: { assert (body = []) as -> by (apply zlen_0; lia). intros [= <- <-]. by rewrite app_nil_r. }
    unfold conn_Write, conn_call, send. destruct (c_faults c1) as [|[n|] fs1]; intros [= <- <-]; cbn;
      rewrite ?H1, ?H2, ?H3, <- ?app_assoc; do 2 (split; [done|]); [done| |done].
    split; [done|]. exists (hdr ++ slice_to body n). split; [|done]. apply prefix_app.
    exists (slice_from body n). by rewrite slice_to_from. }
  destruct (c_faults c) as [|[n|] fs]; [intros E; apply Hend in E; [exact E|done..]| |intros E; apply Hend in E; [exact E|done..]].
  intros [= <- <-]. cbn. do 2 (split; [done|]). split; [done|]. exists (slice_to hdr n). by split.
Qed.

(** The whole frame is read back, and no byte more. *)
Lemma ReadFrame_image tag body rest c :
  frame_ok tag body → c_in c = frame_image tag body ++ rest →
  ReadFrame c = (Ok (tag, body), set_in rest c).
Proof.
  intros [Ht Hb] Hin. pose proof (zlen_nonneg body). unfold ReadFrame, conn_ReadFull. rewrite Hin.
  unfold frame_image. rewrite <- app_assoc, ReadFull_app by zl. cbn [c_in c_end set_in].
  rewrite be_get_put_small by (wconsts; change (256 ^ Z.of_nat 4) with (2 ^ 32); lia).
  destruct (Z.ltb_spec (zlen body + 1) 1); [lia|]. destruct (Z.ltb_spec MaxFramePayload (zlen body + 1)); [lia|].
  rewrite ReadFull_app by zl. f_equal. f_equal. change (z2b tag :: body) with ([z2b tag] ++ body).
  rewrite slice_from_app by zl. f_equal. rewrite byte_at_head by done. rewrite b2z_z2b. by apply Z.mod_small.
Qed.

(** The error that a cut-off read reports. *)
Definition cut_error (e : error) : error := if errors_Is e io_EOF then ESentinel io_ErrUnexpectedEOF else e.

(** How an input can end: with [io.EOF] itself or with an error unrelated to it. *)
Definition plain_end (c : conn) : Prop := c_end c = ESentinel io_EOF ∨ errors_Is (c_end c) io_EOF = false.

Lemma ReadFull_end c n b err rest :
  plain_end c → io_ReadFull n (c_in c) = (b, Some err, rest) → c_in c ≠ [] →
  match c_end c with
  | ESentinel s => if String.eqb s io_EOF then err else c_end c
  | EWrap _ _ => c_end c
  end = cut_error (c_end c).
Proof.
  intros Hp H Hne. assert (err = ESentinel io_ErrUnexpectedEOF) as ->.
  { revert H. unfold io_ReadFull. destruct (n <=? 0); [done|]. destruct (c_in c); [done|]. by case_match; intros [= <- <- <-]. }
  unfold cut_error. destruct Hp as [->|Hp]; [done|]. rewrite Hp. destruct (c_end c) as [s|]; [|done].
  cbn in Hp. by rewrite Hp.
Qed.

Lemma ReadFrame_inv c r c' :
  plain_end c → ReadFrame c = (r, c') →
  match r with
  | Ok (tag, body) => frame_ok tag body ∧ c_in c = frame_image tag body ++ c_in c'
  | Err err =>
      (c_in c = [] ∧ err = c_end c)
      ∨ (c_in c ≠ [] ∧ err = cut_error (c_end c)
         ∧ (zlen (c_in c) < 4 ∨ ∃ n rest, c_in c = be_put 4 n ++ rest ∧ 1 <= n <= MaxFramePayload ∧ zlen rest < n))
      ∨ (∃ n, c_in c = be_put 4 n ++ c_in c' ∧ (n = 0 ∨ MaxFramePayload < n < 2 ^ 32) ∧ is_Some (errors_As frame_class err))
  end.
Proof.
  intros Hp. unfold ReadFrame, conn_ReadFull.
  destruct (ReadFull_cases 4 (c_in c) ltac:(lia)) as [(h & b & Hin & Hh & E)|[Hlt E]]; rewrite E; cbn [c_in c_end set_in].
  2: { intros [= <- <-]. destruct (c_in c) as [|x l] eqn:Hin.
       - left. split; [done|]. destruct Hp as [->|Hp']; [done|]. destruct (c_end c) as [s|]; [|done]. cbn in Hp'. by rewrite Hp'.
       - right. left. split; [done|]. split; [|by left]. rewrite <- Hin in E.
         eapply ReadFull_end; [done|exact E|]. by rewrite Hin. }
  assert (Hput : be_put 4 (be_get h) = h) by (apply be_put_get; unfold zlen in Hh; lia).
  pose proof (be_get_bound h) as Hb. rewrite Hh in Hb. change (256 ^ 4) with (2 ^ 32) in Hb.
  destruct (Z.ltb_spec (be_get h) 1).
  { intros [= <- <-]. right. right. exists (be_get h). rewrite Hput. split; [done|]. split; [left; lia|done]. }
  destruct (Z.ltb_spec MaxFramePayload (be_get h)).
  { intros [= <- <-]. right. right. exists (be_get h). rewrite Hput. split; [done|]. split; [right; lia|by eexists]. }
  destruct (ReadFull_cases (be_get h) b ltac:(lia)) as [(p & rest & -> & Hlen & E2)|[Hlt E2]]; rewrite E2.
  - intros [= <- <-]. cbn [c_in set_in]. destruct p as [|x p]; [rewrite zlen_nil in Hlen; lia|]. rewrite zlen_cons in Hlen.
    change (byte_at (x :: p) 0) with (b2z x). change (slice_from (x :: p) 1) with p.
    split; [split; [apply b2z_bound|lia]|]. unfold frame_image. rewrite z2b_b2z, Hin, <- Hput at 1.
    rewrite <- Hlen, <- app_assoc. do 2 f_equal. lia.
  - intros [= <- <-]. right. left. split; [rewrite Hin; by destruct h|]. split.
    + unfold cut_error. destruct Hp as [->|Hp]; [by destruct b|]. rewrite Hp.
      destruct (c_end c) as [s|] eqn:Ec; [|by rewrite Hp]. cbn in Hp. rewrite Hp. cbn. by rewrite Hp.
    + right. exists (be_get h), b. by rewrite Hput.
Qed.


(** C30: framing is exact.  [ReadFrame] succeeds precisely when the input starts
    with the image of a frame within the limits, whose tag and body it returns,
    consuming no byte more; otherwise the input is empty and the error is the
    stream's own end, or it is cut inside a frame and the error is
    io.ErrUnexpectedEOF in place of EOF, or the length is 0 or above the maximum
    and the error is a FrameError, raised before any payload byte is read. *)
Theorem ReadFrame_exact c r c' :
  plain_end c → ReadFrame c = (r, c') →
  match r with
  | Ok (tag, body) => frame_ok tag body ∧ c_in c = frame_image tag body ++ c_in c'
  | Err err =>
      (c_in c = [] ∧ err = c_end c)
      ∨ (c_in c ≠ [] ∧ err = cut_error (c_end c)
         ∧ (zlen (c_in c) < 4 ∨ ∃ n rest, c_in c = be_put 4 n ++ rest ∧ 1 <= n <= MaxFramePayload ∧ zlen rest < n))
      ∨ (∃ n, c_in c = be_put 4 n ++ c_in c' ∧ (n = 0 ∨ MaxFramePayload < n < 2 ^ 32) ∧ is_Some (errors_As frame_class err))
  end.
Proof. apply ReadFrame_inv. Qed.

Definition some_conn (input : bytes) : conn := mkConn input (ESentinel io_EOF) [] [].

Lemma ReadFrame_exact_witness :
  let p := ReadFrame (some_conn (frame_image 6 [] ++ [x00; x00])) in
  p = (Ok (6, []), some_conn [x00; x00])
  ∧ match p.1 with
    | Ok (tag, body) => frame_ok tag body ∧ frame_image 6 [] ++ [x00; x00] = frame_image tag body ++ c_in p.2
    | Err _ => True
    end.
Proof.
  intros p. pose proof (ReadFrame_exact (some_conn (frame_image 6 [] ++ [x00; x00])) p.1 p.2 (or_introl eq_refl) (surjective_pairing p)) as H.
  split; [by vm_compute|]. destruct p.1 as [[tag body]|]; [exact H|done].
Defined.
