(* ===== verification/WireRequest.v ===== *)
(** * Requests (src/internal/wire/request.go)

    The request messages, their decoder and encoder, and the proof that the
    decoder accepts exactly the encoder's output on valid requests. *)
From S2P Require Import Prelude WireFrame.

Module Wire.

Record BatchEntry := mkBatchEntry {
  Delete : bool;
  Key : bytes;
  Value : bytes;
}.

Inductive Request :=
| PutRequest (Key Value : bytes)
| GetRequest (Key : bytes)
| DeleteRequest (Key : bytes)
| BatchRequest (Entries : list BatchEntry)
| ReadKeyRangeRequest (Start End_ : option bytes)
| PingRequest
| StatsRequest.

#[global] Instance BatchEntry_eq_dec : EqDecision BatchEntry.
Proof. solve_decision. Defined.
#[global] Instance Request_eq_dec : EqDecision Request.
Proof. solve_decision. Defined.

Definition Op (req : Request) : Z :=
  match req with
  | PutRequest _ _ => OpPut
  | GetRequest _ => OpGet
  | DeleteRequest _ => OpDelete
  | BatchRequest _ => OpBatch
  | ReadKeyRangeRequest _ _ => OpReadKeyRange
  | PingRequest => OpPing
  | StatsRequest => OpStats
  end.

End Wire.
Import Wire.

(** [binary.BigEndian.Uint32(l[off : off+4])] *)
Definition u32_at (l : bytes) (off : Z) : Z := be_get (slice l off (off + 4)).

(** ** Decoding *)

Definition decodeKeyOnly (body : bytes) : result bytes :=
  if zlen body <? 4 then Err (asProtocolErr "%s: truncated key_len header (have %d, want >=4)")
  else
    let klen := u32_at body 0 in
    if klen <? 1 then Err (asProtocolErr "%s: empty key")
    else if MaxKeyLen <? klen then Err (asProtocolErr "%s: key_len=%d exceeds max=%d")
    else if negb (zlen body =? 4 + klen)
    then Err (asProtocolErr "%s: body length %d does not match key_len=%d (want %d)")
    else Ok (slice_from body 4).

Definition decodePut (body : bytes) : result Request :=
  if zlen body <? 4 then Err (asProtocolErr "PUT: truncated key_len header (have %d, want >=4)")
  else
    let klen := u32_at body 0 in
    if klen <? 1 then Err (asProtocolErr "PUT: empty key")
    else if MaxKeyLen <? klen then Err (asProtocolErr "PUT: key_len=%d exceeds max=%d")
    else if zlen body <? 4 + klen + 4
    then Err (asProtocolErr "PUT: truncated before val_len (have %d, need >=%d)")
    else
      let valLenOff := 4 + klen in
      let vlen := u32_at body valLenOff in
      if MaxValLen <? vlen then Err (asProtocolErr "PUT: val_len=%d exceeds max=%d")
      else
        let want := 4 + klen + 4 + vlen in
        if negb (zlen body =? want)
        then Err (asProtocolErr "PUT: body length %d does not match (key_len=%d, val_len=%d, want %d)")
        else Ok (PutRequest (slice body 4 (4 + klen)) (slice_from body (valLenOff + 4))).

(** One turn of the entry loop of [decodeBatch]. *)
Definition decode_entry (remaining : bytes) (off : Z) : result (BatchEntry * Z) :=
  if zlen remaining <? off + 1 + 4 then Err (asProtocolErr "BATCH entry %d: truncated header at offset %d")
  else
    let op := byte_at remaining off in
    let off := off + 1 in
    let klen := u32_at remaining off in
    let off := off + 4 in
    if klen <? 1 then Err (asProtocolErr "BATCH entry %d: empty key")
    else if MaxKeyLen <? klen then Err (asProtocolErr "BATCH entry %d: key_len=%d exceeds max=%d")
    else if zlen remaining <? off + klen + 4
    then Err (asProtocolErr "BATCH entry %d: truncated before val_len")
    else
      let key := slice remaining off (off + klen) in
      let off := off + klen in
      let vlen := u32_at remaining off in
      let off := off + 4 in
      if MaxValLen <? vlen then Err (asProtocolErr "BATCH entry %d: val_len=%d exceeds max=%d")
      else if zlen remaining <? off + vlen
      then Err (asProtocolErr "BATCH entry %d: truncated value (need %d more bytes)")
      else if op =? BatchOpPut
      then Ok (mkBatchEntry false key (slice remaining off (off + vlen)), off + vlen)
      else if op =? BatchOpDelete then
        if negb (vlen =? 0)
        then Err (asProtocolErr "BATCH entry %d: delete op must have val_len=0, got %d")
        else Ok (mkBatchEntry true key [], off + vlen)
      else Err (asProtocolErr "BATCH entry %d: unknown op 0x%02x").

Fixpoint decode_entries (count : nat) (remaining : bytes) (off : Z) : result (list BatchEntry * Z) :=
  match count with
  | O => Ok ([], off)
  | S count' =>
    let? p := decode_entry remaining off in
    let? q := decode_entries count' remaining p.2 in
    Ok (p.1 :: q.1, q.2)
  end.

Definition decodeBatch (body : bytes) : result Request :=
  if zlen body <? 4 then Err (asProtocolErr "BATCH: truncated count header (have %d, want >=4)")
  else
    let count := u32_at body 0 in
    if count =? 0 then Err (asProtocolErr "BATCH: count=0 (must be >=1)")
    else if MaxBatchEntries <? count then Err (asProtocolErr "BATCH: count=%d exceeds max=%d")
    else
      let remaining := slice_from body 4 in
      if zlen remaining <? count * minBatchEntryBytes
      then Err (asProtocolErr "BATCH: count=%d implies >=%d body bytes, have %d")
      else
        let? p := decode_entries (Z.to_nat count) remaining 0 in
        if negb (p.2 =? zlen remaining) then Err (asProtocolErr "BATCH: %d trailing bytes after %d entries")
        else Ok (BatchRequest p.1).

(** A bound of the range; the empty one is open. *)
Definition open_bound (b : bytes) : option bytes := match b with [] => None | _ => Some b end.

Definition start_after_end (start end_ : option bytes) : bool :=
  match start, end_ with
  | Some s, Some e => 0 <? bytes_Compare s e
  | _, _ => false
  end.

Definition decodeReadKeyRange (body : bytes) : result Request :=
  if zlen body <? 4 then Err (asProtocolErr "READKEYRANGE: truncated start_len header (have %d, want >=4)")
  else
    let slen := u32_at body 0 in
    if MaxKeyLen <? slen then Err (asProtocolErr "READKEYRANGE: start_len=%d exceeds max=%d")
    else if zlen body <? 4 + slen + 4
    then Err (asProtocolErr "READKEYRANGE: truncated before end_len (have %d, need >=%d)")
    else
      let endLenOff := 4 + slen in
      let elen := u32_at body endLenOff in
      if MaxKeyLen <? elen then Err (asProtocolErr "READKEYRANGE: end_len=%d exceeds max=%d")
      else
        let want := 4 + slen + 4 + elen in
        if negb (zlen body =? want)
        then Err (asProtocolErr "READKEYRANGE: body length %d does not match (start_len=%d, end_len=%d, want %d)")
        else
          let start := if 0 <? slen then Some (slice body 4 (4 + slen)) else None in
          let end_ := if 0 <? elen then Some (slice_from body (endLenOff + 4)) else None in
          if start_after_end start end_ then Err (asProtocolErr "READKEYRANGE: start > end")
          else Ok (ReadKeyRangeRequest start end_).

Definition DecodeRequest (op : Z) (body : bytes) : result Request :=
  if op =? OpPut then decodePut body
  else if op =? OpGet then let? key := decodeKeyOnly body in Ok (GetRequest key)
  else if op =? OpDelete then let? key := decodeKeyOnly body in Ok (DeleteRequest key)
  else if op =? OpBatch then decodeBatch body
  else if op =? OpReadKeyRange then decodeReadKeyRange body
  else if op =? OpPing then
    if negb (zlen body =? 0) then Err (asProtocolErr "PING: expected empty body, got %d bytes")
    else Ok PingRequest
  else if op =? OpStats then
    if negb (zlen body =? 0) then Err (asProtocolErr "STATS: expected empty body, got %d bytes")
    else Ok StatsRequest
  else Err (asProtocolErr "unknown opcode 0x%02x").

Definition ReadRequest (c : conn) : result Request * conn :=
  match ReadFrame c with
  | (Err err, c) => (Err err, c)
  | (Ok (tag, body), c) => (DecodeRequest tag body, c)
  end.

(** ** Encoding *)

Definition checkKey (key : bytes) : option error :=
  if zlen key =? 0 then Some (asProtocolErr "%s: empty key")
  else if MaxKeyLen <? zlen key then Some (asProtocolErr "%s: key_len=%d exceeds max=%d")
  else None.

Definition check (e : option error) : result unit := match e with Some err => Err err | None => Ok tt end.

Definition encodeKeyOnly (key : bytes) : result bytes :=
  let? _ := check (checkKey key) in
  let buf := make_bytes (4 + zlen key) in
  let buf := copy_at buf 0 (be_put 4 (to_u32 (zlen key))) in
  Ok (copy_at buf 4 key).

(** Two length-prefixed strings, as PUT and READKEYRANGE have them. *)
Definition put_two (a b : bytes) : bytes :=
  let buf := make_bytes (4 + zlen a + 4 + zlen b) in
  let buf := copy_at buf 0 (be_put 4 (to_u32 (zlen a))) in
  let buf := copy_at buf 4 a in
  let off := 4 + zlen a in
  let buf := copy_at buf off (be_put 4 (to_u32 (zlen b))) in
  copy_at buf (off + 4) b.

(** The validation loop of [encodeBatch]: the size of the body so far. *)
Fixpoint batch_size (entries : list BatchEntry) (size : Z) : result Z :=
  match entries with
  | [] => Ok size
  | e :: entries' =>
    match checkKey (Key e) with
    | Some err => Err (asProtocolErr "BATCH entry %d: %s")
    | None =>
      if Delete e && negb (zlen (Value e) =? 0)
      then Err (asProtocolErr "BATCH entry %d: delete op must have empty value")
      else if negb (Delete e) && (MaxValLen <? zlen (Value e))
      then Err (asProtocolErr "BATCH entry %d: val_len=%d exceeds max=%d")
      else
        let entrySize := 1 + 4 + zlen (Key e) + 4 + zlen (Value e) in
        if MaxFramePayload - 1 <? size + entrySize
        then Err (asProtocolErr "BATCH: encoded body would exceed wire max (running=%d, entry=%d adds to %d, max=%d)")
        else batch_size entries' (size + entrySize)
    end
  end.

Fixpoint fill_entries (entries : list BatchEntry) (buf : bytes) (off : Z) : bytes :=
  match entries with
  | [] => buf
  | e :: entries' =>
    let buf := copy_at buf off [z2b (if Delete e then BatchOpDelete else BatchOpPut)] in
    let off := off + 1 in
    let buf := copy_at buf off (be_put 4 (to_u32 (zlen (Key e)))) in
    let off := off + 4 in
    let buf := copy_at buf off (Key e) in
    let off := off + zlen (Key e) in
    let buf := copy_at buf off (be_put 4 (to_u32 (zlen (Value e)))) in
    let off := off + 4 in
    let buf := copy_at buf off (Value e) in
    fill_entries entries' buf (off + zlen (Value e))
  end.

Definition encodeBatch (entries : list BatchEntry) : result bytes :=
  if zlen entries =? 0 then Err (asProtocolErr "BATCH: count=0 (must be >=1)")
  else if MaxBatchEntries <? zlen entries then Err (asProtocolErr "BATCH: count=%d exceeds max=%d")
  else
    let? size := batch_size entries 4 in
    let buf := make_bytes size in
    let buf := copy_at buf 0 (be_put 4 (to_u32 (zlen entries))) in
    Ok (fill_entries entries buf 4).

Definition encodeReadKeyRange (start end_ : option bytes) : result bytes :=
  let s := default [] start in
  let e := default [] end_ in
  if MaxKeyLen <? zlen s then Err (asProtocolErr "READKEYRANGE: start_len=%d exceeds max=%d")
  else if MaxKeyLen <? zlen e then Err (asProtocolErr "READKEYRANGE: end_len=%d exceeds max=%d")
  else if (0 <? zlen s) && (0 <? zlen e) && (0 <? bytes_Compare s e)
  then Err (asProtocolErr "READKEYRANGE: start > end")
  else Ok (put_two s e).

Definition encodeRequestBody (req : Request) : result bytes :=
  match req with
  | PutRequest key value =>
    let? _ := check (checkKey key) in
    if MaxValLen <? zlen value then Err (asProtocolErr "PUT: val_len=%d exceeds max=%d")
    else Ok (put_two key value)
  | GetRequest key => encodeKeyOnly key
  | DeleteRequest key => encodeKeyOnly key
  | BatchRequest entries => encodeBatch entries
  | ReadKeyRangeRequest start end_ => encodeReadKeyRange start end_
  | PingRequest => Ok []
  | StatsRequest => Ok []
  end.

Definition EncodeRequest (req : Request) : result bytes :=
  let? body := encodeRequestBody req in EncodeFrame (Op req) body.

(** ** The reference format *)

Definition lenp (x : bytes) : bytes := be_put 4 (zlen x) ++ x.

Definition wire_entry (e : BatchEntry) : bytes :=
  [z2b (if Delete e then BatchOpDelete else BatchOpPut)] ++ lenp (Key e) ++ lenp (Value e).

Definition request_body (req : Request) : bytes :=
  match req with
  | PutRequest key value => lenp key ++ lenp value
  | GetRequest key | DeleteRequest key => lenp key
  | BatchRequest entries => be_put 4 (zlen entries) ++ concat (wire_entry <$> entries)
  | ReadKeyRangeRequest start end_ => lenp (default [] start) ++ lenp (default [] end_)
  | PingRequest | StatsRequest => []
  end.

Definition wkey_ok (k : bytes) : Prop := 1 <= zlen k <= MaxKeyLen.
Definition wval_ok (v : bytes) : Prop := zlen v <= MaxValLen.
Definition wentry_ok (e : BatchEntry) : Prop :=
  wkey_ok (Key e) ∧ wval_ok (Value e) ∧ (Delete e = true → Value e = []).
Definition bound_ok (b : option bytes) : Prop :=
  match b with Some k => wkey_ok k | None => True end.

(** The requests a well-formed frame can carry; an open bound is [None]. *)
Definition wrequest_ok (req : Request) : Prop :=
  match req with
  | PutRequest key value => wkey_ok key ∧ wval_ok value
  | GetRequest key | DeleteRequest key => wkey_ok key
  | BatchRequest entries => 1 <= zlen entries <= MaxBatchEntries ∧ Forall wentry_ok entries
  | ReadKeyRangeRequest start end_ => bound_ok start ∧ bound_ok end_ ∧ start_after_end start end_ = false
  | PingRequest | StatsRequest => True
  end.

#[global] Instance wkey_ok_dec k : Decision (wkey_ok k).
Proof. unfold wkey_ok. apply _. Defined.
#[global] Instance wval_ok_dec k : Decision (wval_ok k).
Proof. unfold wval_ok. apply _. Defined.
#[global] Instance wentry_ok_dec e : Decision (wentry_ok e).
Proof. unfold wentry_ok. apply _. Defined.
#[global] Instance bound_ok_dec b : Decision (bound_ok b).
Proof. destruct b; cbn; apply _. Defined.
#[global] Instance wrequest_ok_dec req : Decision (wrequest_ok req).
Proof. destruct req; cbn; apply _. Defined.

(** ** Lemmas: fields *)

Lemma zlen_lenp x : zlen (lenp x) = 4 + zlen x.
Proof. unfold lenp. zl. Qed.
#[export] Hint Rewrite zlen_lenp : golen.
Lemma zlen_wire_entry e : zlen (wire_entry e) = 9 + zlen (Key e) + zlen (Value e).
Proof. unfold wire_entry. zl. Qed.
#[export] Hint Rewrite zlen_wire_entry : golen.

Lemma wkey_u32 k : wkey_ok k → 0 <= zlen k < 2 ^ 32.
Proof. unfold wkey_ok. wconsts. zl. Qed.
Lemma wval_u32 v : wval_ok v → 0 <= zlen v < 2 ^ 32.
Proof. unfold wval_ok. wconsts. zl. Qed.

(** An integer field, wherever it is in a buffer. *)
Lemma u32_at_put pre n post off :
  off = zlen pre → 0 <= n < 2 ^ 32 → u32_at (pre ++ be_put 4 n ++ post) off = n.
Proof. intros -> Hn. unfold u32_at. rewrite slice_mid by zl. by apply be_get_put_small. Qed.

Lemma u32_at_head n post : 0 <= n < 2 ^ 32 → u32_at (be_put 4 n ++ post) 0 = n.
Proof. apply (u32_at_put [] n post 0 eq_refl). Qed.

Lemma u32_at_second a k n post :
  0 <= n < 2 ^ 32 → u32_at (be_put 4 a ++ k ++ be_put 4 n ++ post) (4 + zlen k) = n.
Proof. intros. rewrite app_assoc. apply u32_at_put; [zl|done]. Qed.

(** Fields are where they are relative to the part of the buffer they are in. *)
Lemma slice_shift (pre l : bytes) o n : 0 <= o → slice (pre ++ l) (zlen pre + o) (zlen pre + n) = slice l o n.
Proof. intros Ho. rewrite slice_app_r by lia. f_equal; lia. Qed.
Lemma u32_at_shift pre l o : 0 <= o → u32_at (pre ++ l) (zlen pre + o) = u32_at l o.
Proof. intros Ho. unfold u32_at. rewrite <- Z.add_assoc, slice_shift by lia. done. Qed.
Lemma u32_at_bound l o : 0 <= u32_at l o.
Proof. apply be_get_bound. Qed.

(** [shift_bounds] drops a common prefix from the bounds checks of a decoder. *)
Ltac shift_bounds pre l :=
  repeat (match goal with |- context [zlen pre + zlen l <? zlen pre + ?x] =>
    replace (zlen pre + zlen l <? zlen pre + x) with (zlen l <? x)
      by (destruct (Z.ltb_spec (zlen l) x), (Z.ltb_spec (zlen pre + zlen l) (zlen pre + x)); lia) end).

(** Any four bytes are an integer field. *)
Lemma peel_u32 l : 4 <= zlen l → ∃ n rest, l = be_put 4 n ++ rest ∧ 0 <= n < 2 ^ 32.
Proof.
  intros H. destruct (split_at l 4) as (h & rest & -> & Hh); [lia|]. exists (be_get h), rest.
  rewrite be_put_get by (unfold zlen in Hh; lia). split; [done|].
  pose proof (be_get_bound h) as Hb. by rewrite Hh in Hb.
Qed.

(** What the checks of a length-prefixed field leave. *)
Lemma peel_lenp pre l n :
  0 <= n <= zlen l → ∃ x rest, l = x ++ rest ∧ zlen x = n ∧ pre ++ be_put 4 n ++ l = pre ++ lenp x ++ rest.
Proof.
  intros H. destruct (split_at l n H) as (x & rest & -> & Hx). exists x, rest. split; [done|]. split; [done|].
  unfold lenp. by rewrite Hx, <- app_assoc.
Qed.

(** ** Lemmas: decoding *)

Lemma decodeKeyOnly_iff body key : decodeKeyOnly body = Ok key ↔ wkey_ok key ∧ body = lenp key.
Proof.
  unfold decodeKeyOnly. split.
  - destruct (Z.ltb_spec (zlen body) 4) as [|H4]; [done|]. destruct (peel_u32 body H4) as (n & rest & -> & Hn).
    rewrite u32_at_head by done. zcmp. intros <-%Ok_inj. rewrite slice_from_app by zl.
    assert (n = zlen rest) as -> by zl. split; [|done]. unfold wkey_ok. lia.
  - intros [Hk ->]. pose proof (wkey_u32 _ Hk). unfold lenp. rewrite u32_at_head by done.
    unfold wkey_ok in Hk. zcmp; try zl. by rewrite slice_from_app by zl.
Qed.

Lemma decodePut_iff body req :
  decodePut body = Ok req ↔ ∃ k v, req = PutRequest k v ∧ wkey_ok k ∧ wval_ok v ∧ body = lenp k ++ lenp v.
Proof.
  unfold decodePut. split.
  - destruct (Z.ltb_spec (zlen body) 4) as [|H4]; [done|]. destruct (peel_u32 body H4) as (n & rest & -> & Hn).
    rewrite u32_at_head by done. zcmp. destruct (split_at rest n ltac:(zl)) as (k & l & -> & Hk).
    destruct (peel_u32 l ltac:(zl)) as (m & v & -> & Hm). subst n. rewrite u32_at_second in * by done.
    intros <-%Ok_inj. exists k, v. assert (m = zlen v) as -> by zl.
    rewrite slice_mid by zl. rewrite !(app_assoc (be_put 4 _)), (app_assoc (_ ++ k)), slice_from_app by zl.
    split; [done|]. unfold wkey_ok, wval_ok, lenp. split; [lia|]. split; [lia|]. by rewrite <- !app_assoc.
  - intros (k & v & -> & Hk & Hv & ->). pose proof (wkey_u32 _ Hk). pose proof (wval_u32 _ Hv). unfold lenp.
    rewrite <- app_assoc, u32_at_head by done. rewrite u32_at_second by done.
    unfold wkey_ok, wval_ok in *. zcmp; try zl. rewrite slice_mid by zl.
    by rewrite (app_assoc (be_put 4 _)), (app_assoc (_ ++ k)), slice_from_app by zl.
Qed.

Lemma open_bound_ok b : zlen b <= MaxKeyLen → bound_ok (open_bound b).
Proof. destruct b as [|x b]; [done|]. cbn. unfold wkey_ok. intros. pose proof (zlen_nonneg b). rewrite zlen_cons in *. lia. Qed.
Lemma open_bound_default b : bound_ok b → open_bound (default [] b) = b.
Proof. destruct b as [[|x b]|]; [|done..]. unfold bound_ok, wkey_ok. rewrite zlen_nil. lia. Qed.
Lemma default_open_bound b : default [] (open_bound b) = b.
Proof. by destruct b. Qed.
Lemma bound_slice b n : zlen b = n → (if 0 <? n then Some b else None) = open_bound b.
Proof. intros <-. destruct b as [|x b]; [done|]. rewrite zlen_cons. pose proof (zlen_nonneg b). by zcmp. Qed.
Lemma bound_zlen b : bound_ok b → zlen (default [] b) <= MaxKeyLen.
Proof. destruct b; [by intros []|done]. Qed.

Lemma decodeReadKeyRange_iff body req :
  decodeReadKeyRange body = Ok req ↔
  ∃ s e, req = ReadKeyRangeRequest s e ∧ bound_ok s ∧ bound_ok e ∧ start_after_end s e = false
    ∧ body = lenp (default [] s) ++ lenp (default [] e).
Proof.
  unfold decodeReadKeyRange. split.
  - destruct (Z.ltb_spec (zlen body) 4) as [|H4]; [done|]. destruct (peel_u32 body H4) as (n & rest & -> & Hn).
    rewrite u32_at_head by done. destruct (Z.ltb_spec MaxKeyLen n); [done|].
    destruct (Z.ltb_spec (zlen (be_put 4 n ++ rest)) (4 + n + 4)); [done|].
    destruct (split_at rest n ltac:(zl)) as (k & l & -> & Hk).
    destruct (peel_u32 l ltac:(zl)) as (m & v & -> & Hm). subst n. rewrite u32_at_second by done.
    destruct (Z.ltb_spec MaxKeyLen m); [done|].
    destruct (Z.eqb_spec (zlen (be_put 4 (zlen k) ++ k ++ be_put 4 m ++ v)) (4 + zlen k + 4 + m)) as [E|]; [|done].
    cbn [negb]. rewrite slice_mid by zl. rewrite (app_assoc (be_put 4 _)), (app_assoc (_ ++ k)), slice_from_app by zl.
    rewrite (bound_slice k), (bound_slice v m) by zl.
    destruct (start_after_end (open_bound k) (open_bound v)) eqn:Es; [done|].
    intros <-%Ok_inj. exists (open_bound k), (open_bound v). rewrite !default_open_bound.
    split; [done|]. split; [apply open_bound_ok; lia|]. split; [apply open_bound_ok; zl|]. split; [done|].
    unfold lenp. rewrite <- !app_assoc. assert (m = zlen v) as -> by zl. done.
  - intros (s & e & -> & Hs & He & Hse & ->).
    pose proof (bound_zlen s Hs) as H1. pose proof (bound_zlen e He) as H2.
    rewrite <- (open_bound_default s Hs), <- (open_bound_default e He) in Hse |- *.
    rewrite !default_open_bound. set (k := default [] s) in *. set (v := default [] e) in *.
    pose proof (zlen_nonneg k). pose proof (zlen_nonneg v). unfold lenp. wconsts.
    rewrite <- app_assoc, u32_at_head, u32_at_second by lia. rewrite slice_mid by zl.
    rewrite (app_assoc (be_put 4 _)), (app_assoc (_ ++ k)), slice_from_app by zl.
    rewrite (bound_slice k), (bound_slice v) by done. rewrite Hse. zcmp; try zl. done.
Qed.

(** An entry is decoded the same wherever it starts. *)
Lemma decode_entry_shift pre l :
  decode_entry (pre ++ l) (zlen pre) = (let? p := decode_entry l 0 in Ok (p.1, zlen pre + p.2)).
Proof.
  unfold decode_entry. rewrite zlen_app. rewrite byte_at_app_r, Z.sub_diag by lia.
  rewrite <- !(Z.add_assoc (zlen pre)). rewrite !Z.add_0_l, !(u32_at_shift pre l 1) by lia.
  pose proof (u32_at_bound l 1). set (klen := u32_at l 1) in *.
  rewrite !(u32_at_shift pre l (1 + 4 + klen)), !(slice_shift pre l (1 + 4)) by lia.
  pose proof (u32_at_bound l (1 + 4 + klen)). set (vlen := u32_at l (1 + 4 + klen)) in *.
  rewrite !(slice_shift pre l (1 + 4 + klen + 4)) by lia. shift_bounds pre l.
  repeat case_match; done.
Qed.

Lemma op_byte d : b2z (z2b (if d : bool then BatchOpDelete else BatchOpPut)) = if d then BatchOpDelete else BatchOpPut.
Proof. by destruct d. Qed.

Lemma decode_entry_iff l e off' :
  decode_entry l 0 = Ok (e, off') ↔
  ∃ tail, l = wire_entry e ++ tail ∧ wentry_ok e ∧ off' = zlen (wire_entry e).
Proof.
  unfold decode_entry. split.
  - destruct (Z.ltb_spec (zlen l) (0 + 1 + 4)) as [|H5]; [done|].
    destruct (split_at l 1) as (o & r & -> & Ho); [lia|]. destruct o as [|x [|y o]]; try zl. clear Ho.
    destruct (peel_u32 r ltac:(zl)) as (n & rest & -> & Hn).
    change (byte_at ([x] ++ ?t) 0) with (b2z x). change (0 + 1) with 1. rewrite (u32_at_put [x] n rest 1) by done.
    destruct (Z.ltb_spec n 1); [done|]. destruct (Z.ltb_spec MaxKeyLen n); [done|].
    destruct (Z.ltb_spec (zlen ([x] ++ be_put 4 n ++ rest)) (1 + 4 + n + 4)); [done|].
    destruct (split_at rest n ltac:(zl)) as (k & q & -> & Hk). subst n.
    destruct (peel_u32 q ltac:(zl)) as (m & s & -> & Hm).
    assert (E1 : u32_at ([x] ++ be_put 4 (zlen k) ++ k ++ be_put 4 m ++ s) (1 + 4 + zlen k) = m).
    { rewrite !app_assoc, <- (app_assoc _ (be_put 4 m)). apply u32_at_put; [zl|done]. }
    rewrite E1. destruct (Z.ltb_spec MaxValLen m); [done|].
    destruct (Z.ltb_spec (zlen ([x] ++ be_put 4 (zlen k) ++ k ++ be_put 4 m ++ s)) (1 + 4 + zlen k + 4 + m)); [done|].
    destruct (split_at s m ltac:(zl)) as (v & tail & -> & Hv). subst m.
    assert (E2 : slice ([x] ++ be_put 4 (zlen k) ++ k ++ be_put 4 (zlen v) ++ v ++ tail) (1 + 4) (1 + 4 + zlen k) = k).
    { rewrite (app_assoc [x]). apply slice_mid; zl. }
    assert (E3 : slice ([x] ++ be_put 4 (zlen k) ++ k ++ be_put 4 (zlen v) ++ v ++ tail)
      (1 + 4 + zlen k + 4) (1 + 4 + zlen k + 4 + zlen v) = v).
    { rewrite !app_assoc, <- (app_assoc _ v). apply slice_mid; zl. }
    rewrite E2, E3. unfold BatchOpPut, BatchOpDelete. pose proof (z2b_b2z x) as Hx.
    destruct (Z.eqb_spec (b2z x) 0) as [Ex|]; [|destruct (Z.eqb_spec (b2z x) 1) as [Ex|]; [|done]];
      rewrite Ex in Hx; subst x.
    + intros Hok%Ok_inj. apply pair_equal_spec in Hok as [<- <-]. exists tail.
      split; [unfold wire_entry, lenp; cbn [Delete Key Value]; by rewrite <- !app_assoc|].
      split; [|rewrite zlen_wire_entry; cbn [Key Value]; zl]. unfold wentry_ok, wkey_ok, wval_ok. cbn [Delete Key Value]. split; [lia|]. split; [lia|done].
    + destruct (Z.eqb_spec (zlen v) 0) as [Hv|]; [|done]. apply zlen_0 in Hv as ->. cbn [negb].
      intros Hok%Ok_inj. apply pair_equal_spec in Hok as [<- <-]. exists tail.
      split; [unfold wire_entry, lenp; cbn [Delete Key Value]; by rewrite <- !app_assoc|].
      split; [|rewrite zlen_wire_entry; cbn [Key Value]; zl]. unfold wentry_ok, wkey_ok, wval_ok. cbn [Delete Key Value]. split; [lia|]. split; [zl|done].
  - intros (tail & -> & (Hk & Hv & Hd) & ->). destruct e as [d k v]. cbn [Delete Key Value] in *.
    pose proof (wkey_u32 _ Hk). pose proof (wval_u32 _ Hv). unfold wkey_ok, wval_ok in *.
    assert (E0 : wire_entry (mkBatchEntry d k v) ++ tail
      = [z2b (if d then BatchOpDelete else BatchOpPut)] ++ be_put 4 (zlen k) ++ k ++ be_put 4 (zlen v) ++ v ++ tail).
    { unfold wire_entry, lenp. cbn [Delete Key Value]. by rewrite <- !app_assoc. }
    rewrite zlen_wire_entry, E0. cbn [Key Value]. set (x := z2b _). pose proof (op_byte d) as Hx. fold x in Hx.
    change (byte_at ([x] ++ ?t) 0) with (b2z x). change (0 + 1) with 1.
    rewrite (u32_at_put [x] (zlen k) _ 1) by done.
    assert (E1 : u32_at ([x] ++ be_put 4 (zlen k) ++ k ++ be_put 4 (zlen v) ++ v ++ tail) (1 + 4 + zlen k) = zlen v).
    { rewrite !app_assoc, <- (app_assoc _ v), <- (app_assoc _ (be_put 4 (zlen v))). apply u32_at_put; [zl|done]. }
    assert (E2 : slice ([x] ++ be_put 4 (zlen k) ++ k ++ be_put 4 (zlen v) ++ v ++ tail) (1 + 4) (1 + 4 + zlen k) = k).
    { rewrite (app_assoc [x]). apply slice_mid; zl. }
    assert (E3 : slice ([x] ++ be_put 4 (zlen k) ++ k ++ be_put 4 (zlen v) ++ v ++ tail)
      (1 + 4 + zlen k + 4) (1 + 4 + zlen k + 4 + zlen v) = v).
    { rewrite !app_assoc, <- (app_assoc _ v). apply slice_mid; zl. }
    rewrite E1, E2, E3, Hx. unfold BatchOpPut, BatchOpDelete. destruct d; zcmp; try zl.
    + rewrite (Hd eq_refl). do 2 f_equal. zl.
    + rewrite (Hd eq_refl) in *. zl.
    + do 2 f_equal. zl.
Qed.

Lemma decode_entries_iff n : ∀ pre l es off',
  decode_entries n (pre ++ l) (zlen pre) = Ok (es, off') ↔
  ∃ tail, l = concat (wire_entry <$> es) ++ tail ∧ length es = n ∧ Forall wentry_ok es
    ∧ off' = zlen pre + zlen (concat (wire_entry <$> es)).
Proof.
  induction n as [|n IH]; intros pre l es off'; cbn [decode_entries].
  - split.
    + intros [= <- <-]. exists l. cbn. rewrite zlen_nil, Z.add_0_r. by repeat constructor.
    + intros (tail & -> & Hn & _ & ->). destruct es; [|done]. cbn. by rewrite zlen_nil, Z.add_0_r.
  - rewrite decode_entry_shift. split.
    + destruct (decode_entry l 0) as [[e o]|] eqn:E; [|done]. cbn [rbind fst snd].
      apply decode_entry_iff in E as (t & -> & He & ->). rewrite app_assoc, <- zlen_app.
      destruct (decode_entries n _ _) as [[es1 o1]|] eqn:E1; [|done]. apply IH in E1 as (tail & -> & Hn & Hes & ->).
      cbn [rbind fst snd]. intros [= <- <-]. exists tail. cbn [fmap list_fmap concat]. rewrite !zlen_app, <- app_assoc.
      split; [done|]. split; [cbn; by rewrite Hn|]. split; [by constructor|lia].
    + intros (tail & -> & Hn & Hes & ->). destruct es as [|e es]; [done|]. injection Hn as Hn.
      apply Forall_cons in Hes as [He Hes]. cbn [fmap list_fmap concat]. rewrite <- app_assoc.
      assert (decode_entry (wire_entry e ++ concat (wire_entry <$> es) ++ tail) 0 = Ok (e, zlen (wire_entry e))) as ->.
      { apply decode_entry_iff. by eexists. }
      cbn [rbind fst snd]. rewrite app_assoc, <- zlen_app.
      assert (decode_entries n ((pre ++ wire_entry e) ++ concat (wire_entry <$> es) ++ tail) (zlen (pre ++ wire_entry e))
        = Ok (es, zlen (pre ++ wire_entry e) + zlen (concat (wire_entry <$> es)))) as ->.
      { apply IH. by eexists. }
      cbn [rbind fst snd]. f_equal. f_equal. rewrite !zlen_app. lia.
Qed.

Lemma wire_entries_min es : Forall wentry_ok es → minBatchEntryBytes * zlen es <= zlen (concat (wire_entry <$> es)).
Proof.
  induction 1 as [|e es [Hk _] _ IH]; [done|]. cbn [fmap list_fmap concat]. unfold minBatchEntryBytes, wkey_ok in *. zl.
Qed.

Lemma decodeBatch_iff body req :
  decodeBatch body = Ok req ↔ ∃ es, req = BatchRequest es ∧ 1 <= zlen es <= MaxBatchEntries ∧ Forall wentry_ok es
    ∧ body = be_put 4 (zlen es) ++ concat (wire_entry <$> es).
Proof.
  unfold decodeBatch. split.
  - destruct (Z.ltb_spec (zlen body) 4) as [|H4]; [done|]. destruct (peel_u32 body H4) as (n & l & -> & Hn).
    rewrite u32_at_head by done. rewrite slice_from_app by zl.
    destruct (Z.eqb_spec n 0); [done|]. destruct (Z.ltb_spec MaxBatchEntries n); [done|].
    destruct (Z.ltb_spec (zlen l) (n * minBatchEntryBytes)); [done|].
    destruct (decode_entries (Z.to_nat n) l 0) as [[es o]|] eqn:E; [|done].
    apply (decode_entries_iff _ []) in E as (tail & -> & Hlen & Hes & ->). cbn [rbind fst snd]. rewrite zlen_nil.
    destruct (Z.eqb_spec (0 + zlen (concat (wire_entry <$> es))) (zlen (concat (wire_entry <$> es) ++ tail))) as [Ez|]; [|done].
    cbn [negb]. intros <-%Ok_inj. exists es. assert (n = zlen es) as -> by (unfold zlen; lia).
    assert (tail = []) as -> by (apply zlen_0; zl). rewrite app_nil_r. split; [done|]. split; [lia|done].
  - intros (es & -> & Hn & Hes & ->). pose proof (wire_entries_min es Hes) as Hmin.
    rewrite u32_at_head by (wconsts; lia). rewrite slice_from_app by zl.
    assert (decode_entries (Z.to_nat (zlen es)) (concat (wire_entry <$> es)) 0
      = Ok (es, zlen (concat (wire_entry <$> es)))) as ->.
    { apply (decode_entries_iff _ []). exists []. rewrite app_nil_r, zlen_nil. split; [done|]. split; [unfold zlen; lia|done]. }
    cbn [rbind fst snd]. pose proof (zlen_nonneg (concat (wire_entry <$> es))). zcmp; try zl. done.
Qed.

(** The decoder accepts exactly the reference format. *)
Lemma DecodeRequest_iff op body req :
  DecodeRequest op body = Ok req ↔ Op req = op ∧ wrequest_ok req ∧ body = request_body req.
Proof.
  unfold DecodeRequest, OpPut, OpGet, OpDelete, OpBatch, OpReadKeyRange, OpPing, OpStats.
  destruct (Z.eqb_spec op 1) as [->|]; [|destruct (Z.eqb_spec op 2) as [->|]; [|destruct (Z.eqb_spec op 3) as [->|];
    [|destruct (Z.eqb_spec op 4) as [->|]; [|destruct (Z.eqb_spec op 5) as [->|]; [|destruct (Z.eqb_spec op 6) as [->|];
    [|destruct (Z.eqb_spec op 7) as [->|]]]]]]].
  - rewrite decodePut_iff. split; [intros (k & v & -> & ? & ? & ->); done|]. intros (Ho & Hr & ->). destruct req; naive_solver.
  - destruct (decodeKeyOnly body) as [k|err] eqn:E; cbn [rbind]; split; try done.
    + apply decodeKeyOnly_iff in E as [Hk ->]. by intros [= <-].
    + apply decodeKeyOnly_iff in E as [Hk ->]. intros (Ho & Hr & Hb). destruct req; try done. cbn in *.
      f_equal. f_equal. unfold lenp in Hb. apply app_inj_zlen in Hb as [_ ->]; [done|zl].
    + intros (Ho & Hr & Hb). destruct req as [|k| | | | |]; try done. cbn in *.
      pose proof (proj2 (decodeKeyOnly_iff body k) (conj Hr Hb)). congruence.
  - destruct (decodeKeyOnly body) as [k|err] eqn:E; cbn [rbind]; split; try done.
    + apply decodeKeyOnly_iff in E as [Hk ->]. by intros [= <-].
    + apply decodeKeyOnly_iff in E as [Hk ->]. intros (Ho & Hr & Hb). destruct req; try done. cbn in *.
      f_equal. f_equal. unfold lenp in Hb. apply app_inj_zlen in Hb as [_ ->]; [done|zl].
    + intros (Ho & Hr & Hb). destruct req as [| |k| | | |]; try done. cbn in *.
      pose proof (proj2 (decodeKeyOnly_iff body k) (conj Hr Hb)). congruence.
  - rewrite decodeBatch_iff. split; [intros (es & -> & ? & ? & ->); done|]. intros (Ho & Hr & ->). destruct req; naive_solver.
  - rewrite decodeReadKeyRange_iff. split; [intros (s & e & -> & ? & ? & ? & ->); done|].
    intros (Ho & Hr & ->). destruct req as [| | | |s e| |]; try done. destruct Hr as (? & ? & ?). by exists s, e.
  - destruct (Z.eqb_spec (zlen body) 0) as [Hz|Hz]; cbn [negb]; split; try done.
    + apply zlen_0 in Hz as ->. by intros [= <-].
    + intros (Ho & _ & _). by destruct req.
    + intros (Ho & _ & ->). by destruct req.
  - destruct (Z.eqb_spec (zlen body) 0) as [Hz|Hz]; cbn [negb]; split; try done.
    + apply zlen_0 in Hz as ->. by intros [= <-].
    + intros (Ho & _ & _). by destruct req.
    + intros (Ho & _ & ->). by destruct req.
  - split; [done|]. intros (Ho & _). by destruct req.
Qed.

(** ** Lemmas: encoding *)

Lemma put_two_image a b : zlen a < 2 ^ 32 → zlen b < 2 ^ 32 → put_two a b = lenp a ++ lenp b.
Proof.
  intros Ha Hb. pose proof (zlen_nonneg a). pose proof (zlen_nonneg b). unfold put_two. rewrite !to_u32_small by lia.
  pose proof (zlen_make_bytes (4 + zlen a + 4 + zlen b) ltac:(lia)) as Hm. revert Hm.
  generalize (make_bytes (4 + zlen a + 4 + zlen b)). intros m Hm.
  peel m 4 as p1. peel m (zlen a) as p2. peel m 4 as p3. rewrite <- (app_nil_r m). fill.
  unfold lenp. by rewrite app_nil_r, <- app_assoc.
Qed.

Lemma encodeKeyOnly_image k : wkey_ok k → encodeKeyOnly k = Ok (lenp k).
Proof.
  intros Hk. pose proof (wkey_u32 _ Hk). unfold encodeKeyOnly, checkKey, wkey_ok in *.
  zcmp. cbn [check rbind]. rewrite to_u32_small by lia. f_equal.
  pose proof (zlen_make_bytes (4 + zlen k) ltac:(lia)) as Hm. revert Hm. generalize (make_bytes (4 + zlen k)). intros m Hm.
  peel m 4 as p1. rewrite <- (app_nil_r m). fill. unfold lenp. by rewrite app_nil_r.
Qed.

Lemma checkKey_None k : checkKey k = None ↔ wkey_ok k.
Proof. unfold checkKey, wkey_ok. pose proof (zlen_nonneg k). zcmp; split; try done; lia. Qed.

Lemma batch_size_iff es : ∀ n size,
  batch_size es n = Ok size ↔
  Forall wentry_ok es ∧ size = n + zlen (concat (wire_entry <$> es)) ∧ (es ≠ [] → size + 1 <= MaxFramePayload).
Proof.
  induction es as [|e es IH]; intros n size; cbn [batch_size].
  - cbn [fmap list_fmap concat]. rewrite zlen_nil, Z.add_0_r. split; [by intros [= <-]|]. by intros (_ & -> & _).
  - pose proof (checkKey_None (Key e)) as Hk. destruct (checkKey (Key e)) as [err|].
    { split; [done|]. intros (He & _). apply Forall_cons in He as [[He _] _]. by apply Hk in He. }
    specialize (proj1 Hk eq_refl) as Hkey. clear Hk.
    cbn [fmap list_fmap concat]. rewrite zlen_app, zlen_wire_entry.
    pose proof (zlen_nonneg (Value e)). pose proof (zlen_nonneg (concat (wire_entry <$> es))).
    destruct (Delete e) eqn:Ed; cbn [andb negb].
    + destruct (Z.eqb_spec (zlen (Value e)) 0) as [Hv|Hv]; cbn [negb].
      2: { split; [done|]. intros (He & _). apply Forall_cons in He as [(_ & _ & He) _]. by rewrite (He Ed) in Hv. }
      destruct (Z.ltb_spec (MaxFramePayload - 1) (n + (1 + 4 + zlen (Key e) + 4 + zlen (Value e)))).
      { split; [done|]. intros (_ & -> & Hs). specialize (Hs ltac:(done)). lia. }
      rewrite IH, Forall_cons. split.
      * intros (Hes & -> & Hfit). split; [split; [|done]|split; [lia|]].
        -- split; [done|]. split; [unfold wval_ok; wconsts; lia|]. intros _. by apply zlen_0.
        -- intros _. destruct es; [cbn; rewrite zlen_nil; lia|by apply Hfit].
      * intros ([_ Hes] & -> & Hfit). split; [done|]. split; [lia|]. intros _. by apply Hfit.
    + destruct (Z.ltb_spec MaxValLen (zlen (Value e))).
      { split; [done|]. intros (He & _). apply Forall_cons in He as [(_ & He & _) _]. unfold wval_ok in He. lia. }
      destruct (Z.ltb_spec (MaxFramePayload - 1) (n + (1 + 4 + zlen (Key e) + 4 + zlen (Value e)))).
      { split; [done|]. intros (_ & -> & Hs). specialize (Hs ltac:(done)). lia. }
      rewrite IH, Forall_cons. split.
      * intros (Hes & -> & Hfit). split; [split; [|done]|split; [lia|]].
        -- split; [done|]. split; [done|]. by rewrite Ed.
        -- intros _. destruct es; [cbn; rewrite zlen_nil; lia|by apply Hfit].
      * intros ([_ Hes] & -> & Hfit). split; [done|]. split; [lia|]. intros _. by apply Hfit.
Qed.

Lemma fill_entries_image es : ∀ pre m,
  Forall wentry_ok es → zlen m = zlen (concat (wire_entry <$> es)) →
  fill_entries es (pre ++ m) (zlen pre) = pre ++ concat (wire_entry <$> es).
Proof.
  induction es as [|e es IH]; intros pre m Hes Hm; cbn [fmap list_fmap concat fill_entries] in *.
  - rewrite zlen_nil in Hm. by apply zlen_0 in Hm as ->.
  - apply Forall_cons in Hes as [(Hk & Hv & _) Hes]. pose proof (wkey_u32 _ Hk). pose proof (wval_u32 _ Hv).
    rewrite !to_u32_small by lia. set (b := [z2b _]).
    assert (Hb : zlen b = 1) by done. rewrite zlen_app, zlen_wire_entry in Hm.
    pose proof (zlen_nonneg (concat (wire_entry <$> es))).
    peel m 1 as p1. peel m 4 as p2. peel m (zlen (Key e)) as p3. peel m 4 as p4. peel m (zlen (Value e)) as p5.
    rewrite <- (app_nil_r m). cbv zeta. fill. rewrite app_nil_r.
    transitivity (fill_entries es ((pre ++ wire_entry e) ++ m) (zlen (pre ++ wire_entry e))).
    + unfold wire_entry, lenp. fold b. rewrite <- !app_assoc. f_equal. zl.
    + rewrite IH; [by rewrite <- app_assoc|done|zl].
Qed.

Lemma encodeBatch_iff es body :
  encodeBatch es = Ok body ↔ 1 <= zlen es <= MaxBatchEntries ∧ Forall wentry_ok es
    ∧ zlen (request_body (BatchRequest es)) + 1 <= MaxFramePayload ∧ body = request_body (BatchRequest es).
Proof.
  unfold encodeBatch. cbn [request_body]. pose proof (zlen_nonneg es). rewrite zlen_app, zlen_be_put.
  destruct (Z.eqb_spec (zlen es) 0); [split; [done|lia]|]. destruct (Z.ltb_spec MaxBatchEntries (zlen es)); [split; [done|lia]|].
  assert (Hne : es ≠ []) by (intros ->; done).
  destruct (batch_size es 4) as [size|err] eqn:E; cbn [rbind].
  - apply batch_size_iff in E as (Hes & -> & Hs). specialize (Hs Hne). rewrite to_u32_small by (wconsts; lia).
    assert (Hm : zlen (make_bytes (4 + zlen (concat (wire_entry <$> es)))) = 4 + zlen (concat (wire_entry <$> es))).
    { apply zlen_make_bytes. zl. }
    revert Hm. generalize (make_bytes (4 + zlen (concat (wire_entry <$> es)))). intros m Hm. peel m 4 as p1. fill.
    assert (fill_entries es (be_put 4 (zlen es) ++ m) 4 = be_put 4 (zlen es) ++ concat (wire_entry <$> es)) as ->.
    { pose proof (fill_entries_image es (be_put 4 (zlen es)) m Hes ltac:(zl)) as Hf. by rewrite zlen_be_put in Hf. }
    split; [intros <-%Ok_inj|by intros (_ & _ & _ & ->)]. split; [lia|]. split; [done|]. split; [lia|done].
  - split; [done|]. intros (_ & Hes & Hs & _).
    assert (batch_size es 4 = Ok (4 + zlen (concat (wire_entry <$> es)))) as E2; [|congruence].
    apply batch_size_iff. split; [done|]. split; [done|]. intros _. lia.
Qed.

(** What the decoder makes of a request: an empty bound is an open one. *)
Definition normalise (req : Request) : Request :=
  match req with
  | ReadKeyRangeRequest start end_ => ReadKeyRangeRequest (open_bound (default [] start)) (open_bound (default [] end_))
  | _ => req
  end.

Lemma normalise_body req : request_body (normalise req) = request_body req.
Proof. destruct req; try done. cbn. by rewrite !default_open_bound. Qed.
Lemma normalise_ok req : wrequest_ok req → normalise req = req.
Proof. destruct req; try done. cbn. intros (Hs & He & _). by rewrite !open_bound_default. Qed.
Lemma normalise_Op req : Op (normalise req) = Op req.
Proof. by destruct req. Qed.

Lemma start_after_end_lens s e :
  (0 <? zlen s) && (0 <? zlen e) && (0 <? bytes_Compare s e) = start_after_end (open_bound s) (open_bound e).
Proof.
  destruct s as [|x s], e as [|y e]; cbn [open_bound start_after_end]; rewrite ?zlen_nil, ?andb_false_r, ?andb_false_l; try done.
Qed.

Lemma encodeRequestBody_iff req body :
  encodeRequestBody req = Ok body ↔
  wrequest_ok (normalise req) ∧ zlen (request_body req) + 1 <= MaxFramePayload ∧ body = request_body req.
Proof.
  destruct req as [k v|k|k|es|s e| |]; cbn [encodeRequestBody normalise wrequest_ok request_body].
  - pose proof (checkKey_None k) as Hk. destruct (checkKey k) as [err|]; cbn [check rbind].
    { split; [done|]. intros ([H _] & _). by apply Hk in H. }
    pose proof (proj1 Hk eq_refl) as Hkey. destruct (Z.ltb_spec MaxValLen (zlen v)).
    { split; [done|]. unfold wval_ok. lia. }
    pose proof (wkey_u32 _ Hkey). assert (wval_ok v) as Hv by done. pose proof (wval_u32 _ Hv).
    rewrite put_two_image by lia. split; [intros <-%Ok_inj|by intros (_ & _ & ->)].
    split; [done|]. split; [|done]. unfold wkey_ok, wval_ok in *. wconsts. zl.
  - split.
    + unfold encodeKeyOnly at 1. pose proof (checkKey_None k) as Hk. destruct (checkKey k) as [err|] eqn:E; [done|].
      pose proof (proj1 Hk eq_refl) as Hkey. pose proof (encodeKeyOnly_image k Hkey) as Hi. unfold encodeKeyOnly in Hi.
      rewrite E in Hi. rewrite Hi. intros <-%Ok_inj. split; [done|]. split; [|done]. unfold wkey_ok in *. wconsts. zl.
    + intros (Hk & _ & ->). by apply encodeKeyOnly_image.
  - split.
    + unfold encodeKeyOnly at 1. pose proof (checkKey_None k) as Hk. destruct (checkKey k) as [err|] eqn:E; [done|].
      pose proof (proj1 Hk eq_refl) as Hkey. pose proof (encodeKeyOnly_image k Hkey) as Hi. unfold encodeKeyOnly in Hi.
      rewrite E in Hi. rewrite Hi. intros <-%Ok_inj. split; [done|]. split; [|done]. unfold wkey_ok in *. wconsts. zl.
    + intros (Hk & _ & ->). by apply encodeKeyOnly_image.
  - rewrite encodeBatch_iff. cbn [request_body]. intuition.
  - unfold encodeReadKeyRange. rewrite start_after_end_lens. set (a := default [] s). set (b := default [] e).
    destruct (Z.ltb_spec MaxKeyLen (zlen a)).
    { split; [done|]. intros ((H1 & _ & _) & _). apply bound_zlen in H1. rewrite default_open_bound in H1. lia. }
    destruct (Z.ltb_spec MaxKeyLen (zlen b)).
    { split; [done|]. intros ((_ & H1 & _) & _). apply bound_zlen in H1. rewrite default_open_bound in H1. lia. }
    destruct (start_after_end (open_bound a) (open_bound b)) eqn:Es; [split; [done|]; by intros ((_ & _ & ?) & _)|].
    pose proof (open_bound_ok a ltac:(done)). pose proof (open_bound_ok b ltac:(done)). wconsts.
    rewrite put_two_image by lia. split; [intros <-%Ok_inj|by intros (_ & _ & ->)].
    split; [done|]. split; [zl|done].
  - split; [intros <-%Ok_inj|by intros (_ & _ & ->)]. split; [done|]. split; [wconsts; rewrite zlen_nil; lia|done].
  - split; [intros <-%Ok_inj|by intros (_ & _ & ->)]. split; [done|]. split; [wconsts; rewrite zlen_nil; lia|done].
Qed.

(** Every refusal is a ProtocolError. *)
Lemma DecodeRequest_error op body err : DecodeRequest op body = Err err → ∃ format, err = asProtocolErr format.
Proof.
  assert (Hk : ∀ b e, decodeKeyOnly b = Err e → ∃ format, e = asProtocolErr format).
  { unfold decodeKeyOnly. intros b e. repeat case_match; intros Herr; try done; injection Herr as <-; by eexists. }
  assert (He : ∀ l o e, decode_entry l o = Err e → ∃ format, e = asProtocolErr format).
  { unfold decode_entry. intros l o e. repeat case_match; intros Herr; try done; injection Herr as <-; by eexists. }
  assert (Hes : ∀ n l o e, decode_entries n l o = Err e → ∃ format, e = asProtocolErr format).
  { induction n as [|n IH]; intros l o e; [done|]. cbn [decode_entries].
    destruct (decode_entry l o) as [[x o']|] eqn:E1; cbn [rbind fst snd]; [|intros [= <-]; by eapply He].
    destruct (decode_entries n l o') eqn:E2; cbn [rbind]; [done|]. intros [= <-]. by eapply IH. }
  unfold DecodeRequest, decodePut, decodeBatch, decodeReadKeyRange.
  repeat (match goal with
          | |- (if ?b then _ else _) = _ → _ => destruct b
          | |- rbind ?r _ = _ → _ => let E := fresh in destruct r eqn:E; cbn [rbind]
          end); intros H'; try done; injection H' as <-; try (by eexists); eauto.
Qed.

Lemma EncodeRequest_inv req frame :
  EncodeRequest req = Ok frame →
  wrequest_ok (normalise req) ∧ frame_ok (Op req) (request_body req) ∧ frame = frame_image (Op req) (request_body req).
Proof.
  unfold EncodeRequest. destruct (encodeRequestBody req) as [body|] eqn:E; [|done]. cbn [rbind].
  apply encodeRequestBody_iff in E as (Hok & Hsz & ->). rewrite EncodeFrame_image by done. intros <-%Ok_inj.
  split; [done|]. split; [|done]. split; [by destruct req|done].
Qed.

(** ** Properties *)

(** Requests survive the wire.  Every request the encoder accepts is read
    back by [ReadRequest] as itself, an empty range bound as an open one,
    whatever follows it in the stream, none of which is consumed. *)
Theorem request_roundtrip req frame rest c :
  EncodeRequest req = Ok frame → c_in c = frame ++ rest →
  ReadRequest c = (Ok (normalise req), set_in rest c) ∧ wrequest_ok (normalise req).
Proof.
  intros (Hok & Hf & ->)%EncodeRequest_inv Hin. split; [|done]. unfold ReadRequest.
  rewrite (ReadFrame_image (Op req) (request_body req) rest) by done.
  f_equal. apply DecodeRequest_iff. by rewrite normalise_Op, normalise_body.
Qed.

Lemma request_roundtrip_witness :
  let req := BatchRequest [mkBatchEntry false [x61] [x31; x32]; mkBatchEntry true [x62] []] in
  EncodeRequest req = Ok (frame_image OpBatch (request_body req))
  ∧ ReadRequest (some_conn (frame_image OpBatch (request_body req) ++ [x00])) = (Ok req, some_conn [x00])
  ∧ wrequest_ok req.
Proof.
  intros req. assert (H : EncodeRequest req = Ok (frame_image OpBatch (request_body req))) by by vm_compute.
  split; [done|]. exact (request_roundtrip req _ [x00] (some_conn (frame_image OpBatch (request_body req) ++ [x00])) H eq_refl).
Defined.

(** C29: the request format is canonical and the decoder total.  A body decodes to
    a request only if it is that request's one encoding and the request is within
    every limit; everything else, truncated fields, trailing bytes, lying counts
    and lengths, unknown opcodes and operations, is refused with a
    ProtocolError. *)
Theorem DecodeRequest_canonical op body :
  zlen body + 1 <= MaxFramePayload →
  match DecodeRequest op body with
  | Ok req => Op req = op ∧ wrequest_ok req ∧ normalise req = req
      ∧ EncodeRequest req = Ok (frame_image op body)
  | Err err => is_Some (errors_As protocol_class err)
      ∧ ∀ req, wrequest_ok req → Op req = op → encodeRequestBody req ≠ Ok body
  end.
Proof.
  intros Hsz. destruct (DecodeRequest op body) as [req|err] eqn:E.
  - apply DecodeRequest_iff in E as (<- & Hok & ->). split; [done|]. split; [done|]. split; [by apply normalise_ok|].
    unfold EncodeRequest. assert (encodeRequestBody req = Ok (request_body req)) as ->.
    { apply encodeRequestBody_iff. by rewrite normalise_ok. }
    by apply EncodeFrame_image.
  - split.
    + destruct (DecodeRequest_error _ _ _ E) as [format ->]. by eexists.
    + intros req Hok <- (_ & _ & ->)%encodeRequestBody_iff.
      assert (DecodeRequest (Op req) (request_body req) = Ok req) by (by apply DecodeRequest_iff). congruence.
Qed.

Lemma DecodeRequest_canonical_witness :
  let body := [x00; x00; x00; x01; x61] in
  DecodeRequest OpGet body = Ok (GetRequest [x61]) ∧
  match DecodeRequest OpGet body with
  | Ok req => Op req = OpGet ∧ wrequest_ok req ∧ normalise req = req ∧ EncodeRequest req = Ok (frame_image OpGet body)
  | Err err => is_Some (errors_As protocol_class err)
      ∧ ∀ req, wrequest_ok req → Op req = OpGet → encodeRequestBody req ≠ Ok body
  end.
Proof. intros body. split; [by vm_compute|]. apply (DecodeRequest_canonical OpGet body). by vm_compute. Defined.
