(* ===== verification/WireResponse.v ===== *)
(** * Responses (src/internal/wire/response.go)

    The bodies of the responses, the error envelope, the pages of a range stream
    and the reader of such a stream. *)
From S2P Require Import Prelude WireFrame WireRequest.

Record KV := mkKV { kv_Key : bytes; kv_Value : bytes }.
#[global] Instance KV_eq_dec : EqDecision KV.
Proof. solve_decision. Defined.

(** ** The error envelope *)

Definition EncodeError (msg : bytes) : bytes :=
  let msg := if MaxErrMsgLen <? zlen msg then slice_to msg MaxErrMsgLen else msg in
  let buf := make_bytes (2 + zlen msg) in
  let buf := copy_at buf 0 (be_put 2 (to_u16 (zlen msg))) in
  copy_at buf 2 msg.

Definition DecodeError (body : bytes) : result bytes :=
  if zlen body <? 2 then Err (asProtocolErr "error envelope: truncated msg_len (have %d, want >=2)")
  else
    let mlen := be_get (slice body 0 2) in
    if MaxErrMsgLen <? mlen then Err (asProtocolErr "error envelope: msg_len=%d exceeds max=%d")
    else if negb (zlen body =? 2 + mlen)
    then Err (asProtocolErr "error envelope: body length %d does not match msg_len=%d")
    else Ok (slice_from body 2).

Definition WriteError (status : Z) (msg : bytes) : conn → result unit * conn :=
  if status =? StatusOK then λ c, (Err (asFrameErr "WriteError called with StatusOK"), c)
  else WriteFrame status (EncodeError msg).

(** ** Unary responses *)

Definition EncodeGetOK (value : bytes) : result bytes :=
  if MaxValLen <? zlen value then Err (asProtocolErr "GET response: val_len=%d exceeds max=%d")
  else
    let buf := make_bytes (4 + zlen value) in
    let buf := copy_at buf 0 (be_put 4 (to_u32 (zlen value))) in
    Ok (copy_at buf 4 value).

Definition DecodeGetOK (body : bytes) : result bytes :=
  if zlen body <? 4 then Err (asProtocolErr "GET response: truncated val_len (have %d, want >=4)")
  else
    let vlen := u32_at body 0 in
    if MaxValLen <? vlen then Err (asProtocolErr "GET response: val_len=%d exceeds max=%d")
    else if negb (zlen body =? 4 + vlen)
    then Err (asProtocolErr "GET response: body length %d does not match val_len=%d")
    else Ok (slice_from body 4).

Definition EncodeStatsOK (keyCount bytesOnDisk : Z) : bytes :=
  let buf := make_bytes 16 in
  let buf := copy_at buf 0 (be_put 8 keyCount) in
  copy_at buf 8 (be_put 8 bytesOnDisk).

Definition DecodeStatsOK (body : bytes) : result (Z * Z) :=
  if negb (zlen body =? 16) then Err (asProtocolErr "STATS response: expected 16 bytes, got %d")
  else Ok (be_get (slice body 0 8), be_get (slice body 8 16)).

(** ** Range pages *)

(** The validation loop of [EncodeRangePage]: the size of the body so far. *)
Fixpoint page_size (pairs : list KV) (size : Z) : result Z :=
  match pairs with
  | [] => Ok size
  | p :: pairs' =>
    if zlen (kv_Key p) =? 0 then Err (asProtocolErr "range page pair %d: empty key")
    else if MaxKeyLen <? zlen (kv_Key p) then Err (asProtocolErr "range page pair %d: key_len=%d exceeds max=%d")
    else if MaxValLen <? zlen (kv_Value p) then Err (asProtocolErr "range page pair %d: val_len=%d exceeds max=%d")
    else page_size pairs' (size + (4 + zlen (kv_Key p) + 4 + zlen (kv_Value p)))
  end.

Fixpoint fill_pairs (pairs : list KV) (buf : bytes) (off : Z) : bytes :=
  match pairs with
  | [] => buf
  | p :: pairs' =>
    let buf := copy_at buf off (be_put 4 (to_u32 (zlen (kv_Key p)))) in
    let off := off + 4 in
    let buf := copy_at buf off (kv_Key p) in
    let off := off + zlen (kv_Key p) in
    let buf := copy_at buf off (be_put 4 (to_u32 (zlen (kv_Value p)))) in
    let off := off + 4 in
    let buf := copy_at buf off (kv_Value p) in
    fill_pairs pairs' buf (off + zlen (kv_Value p))
  end.

Definition EncodeRangePage (pairs : list KV) : result bytes :=
  if RangeEndSentinel <=? zlen pairs then Err (asProtocolErr "range page: pair_count=%d collides with end sentinel")
  else
    let? size := page_size pairs 4 in
    if MaxFramePayload <? size + 1 then Err (asProtocolErr "range page: encoded size %d exceeds frame payload max %d")
    else
      let buf := make_bytes size in
      let buf := copy_at buf 0 (be_put 4 (to_u32 (zlen pairs))) in
      Ok (fill_pairs pairs buf 4).

Definition EncodeRangeEnd : bytes := copy_at (make_bytes 4) 0 (be_put 4 RangeEndSentinel).

(** One turn of the pair loop of [DecodeRangeFrame]. *)
Definition decode_pair (remaining : bytes) (off : Z) : result (KV * Z) :=
  if zlen remaining <? off + 4 then Err (asProtocolErr "range pair %d: truncated key_len")
  else
    let klen := u32_at remaining off in
    let off := off + 4 in
    if klen <? 1 then Err (asProtocolErr "range pair %d: empty key")
    else if MaxKeyLen <? klen then Err (asProtocolErr "range pair %d: key_len=%d exceeds max=%d")
    else if zlen remaining <? off + klen + 4 then Err (asProtocolErr "range pair %d: truncated before val_len")
    else
      let key := slice remaining off (off + klen) in
      let off := off + klen in
      let vlen := u32_at remaining off in
      let off := off + 4 in
      if MaxValLen <? vlen then Err (asProtocolErr "range pair %d: val_len=%d exceeds max=%d")
      else if zlen remaining <? off + vlen then Err (asProtocolErr "range pair %d: truncated value")
      else Ok (mkKV key (slice remaining off (off + vlen)), off + vlen).

Fixpoint decode_pairs (count : nat) (remaining : bytes) (off : Z) : result (list KV * Z) :=
  match count with
  | O => Ok ([], off)
  | S count' =>
    let? p := decode_pair remaining off in
    let? q := decode_pairs count' remaining p.2 in
    Ok (p.1 :: q.1, q.2)
  end.

(** The pairs of a page and whether the frame is the end of the stream. *)
Definition DecodeRangeFrame (body : bytes) : result (list KV * bool) :=
  if zlen body <? 4 then Err (asProtocolErr "range frame: truncated header (have %d, want >=4)")
  else
    let count := u32_at body 0 in
    if count =? RangeEndSentinel then
      if negb (zlen body =? 4) then Err (asProtocolErr "range end frame: expected 4-byte body, got %d")
      else Ok ([], true)
    else
      let remaining := slice_from body 4 in
      if zlen remaining <? count * minRangePairBytes
      then Err (asProtocolErr "range page: pair_count=%d implies >=%d body bytes, have %d")
      else
        let? p := decode_pairs (Z.to_nat count) remaining 0 in
        if negb (p.2 =? zlen remaining) then Err (asProtocolErr "range page: %d trailing bytes after %d pairs")
        else Ok (p.1, false).

(** ** Range streams *)

(** What a caller of the client gets: a local error or the server's. *)
#[warnings="-register-all"]
Inductive werror :=
| WErr (e : error)
| RemoteError (status : Z) (msg : bytes).

Definition ErrStreamStopped : string := "wire: range stream stopped by caller".

(** The frame loop; [pageFn] is the caller's function with its own state. *)
Fixpoint stream_loop {A} (fuel : nat) (pageFn : list KV → A → bool * A) (a : A) (c : conn)
    : option werror * A * conn :=
  match fuel with
  | O => (Some (WErr (errorf "out of fuel")), a, c)
  | S fuel' =>
    match ReadFrame c with
    | (Err err, c) => (Some (WErr err), a, c)
    | (Ok (status, body), c) =>
      if negb (status =? StatusOK) then
        match DecodeError body with
        | Err derr => (Some (WErr derr), a, c)
        | Ok msg => (Some (RemoteError status msg), a, c)
        end
      else match DecodeRangeFrame body with
           | Err err => (Some (WErr err), a, c)
           | Ok (_, true) => (None, a, c)
           | Ok (pairs, false) =>
             let (go, a) := pageFn pairs a in
             if go then stream_loop fuel' pageFn a c
             else (Some (WErr (ESentinel ErrStreamStopped)), a, c)
           end
    end
  end.

(** Every turn consumes a frame of at least five bytes. *)
Definition ReadRangeStream {A} (pageFn : list KV → A → bool * A) (a : A) (c : conn) : option werror * A * conn :=
  stream_loop (S (length (c_in c))) pageFn a c.

(** ** The reference format *)

Definition wire_pair (p : KV) : bytes := lenp (kv_Key p) ++ lenp (kv_Value p).
Definition page_body (pairs : list KV) : bytes := be_put 4 (zlen pairs) ++ concat (wire_pair <$> pairs).
Definition pair_ok (p : KV) : Prop := wkey_ok (kv_Key p) ∧ wval_ok (kv_Value p).
#[global] Instance pair_ok_dec p : Decision (pair_ok p).
Proof. unfold pair_ok. apply _. Defined.

Lemma zlen_wire_pair p : zlen (wire_pair p) = 8 + zlen (kv_Key p) + zlen (kv_Value p).
Proof. unfold wire_pair. zl. Qed.
#[export] Hint Rewrite zlen_wire_pair : golen.

(** ** Lemmas: unary responses *)

Definition envelope (msg : bytes) : bytes := be_put 2 (zlen msg) ++ msg.
Definition truncated (msg : bytes) : bytes := slice_to msg MaxErrMsgLen.

Lemma zlen_truncated msg : zlen (truncated msg) <= MaxErrMsgLen.
Proof.
  unfold truncated. destruct (Z.le_gt_cases (zlen msg) MaxErrMsgLen) as [H|H].
  - by rewrite slice_to_all.
  - rewrite zlen_slice_to by (wconsts; lia). lia.
Qed.

Lemma EncodeError_image msg : EncodeError msg = envelope (truncated msg).
Proof.
  unfold EncodeError. assert ((if MaxErrMsgLen <? zlen msg then slice_to msg MaxErrMsgLen else msg) = truncated msg) as ->.
  { unfold truncated. destruct (Z.ltb_spec MaxErrMsgLen (zlen msg)); [done|]. by rewrite slice_to_all. }
  pose proof (zlen_truncated msg) as Ht. set (t := truncated msg) in *. pose proof (zlen_nonneg t).
  assert (to_u16 (zlen t) = zlen t) as -> by (apply Z.mod_small; wconsts; lia).
  pose proof (zlen_make_bytes (2 + zlen t) ltac:(lia)) as Hm. revert Hm. generalize (make_bytes (2 + zlen t)). intros m Hm.
  peel m 2 as p1. rewrite <- (app_nil_r m). fill. by rewrite app_nil_r.
Qed.

Lemma DecodeError_iff body msg : DecodeError body = Ok msg ↔ zlen msg <= MaxErrMsgLen ∧ body = envelope msg.
Proof.
  unfold DecodeError. split.
  - destruct (Z.ltb_spec (zlen body) 2) as [|H2]; [done|].
    destruct (split_at body 2) as (h & r & -> & Hh); [lia|]. rewrite slice_head by zl.
    assert (Hput : be_put 2 (be_get h) = h) by (apply be_put_get; unfold zlen in Hh; lia).
    destruct (Z.ltb_spec MaxErrMsgLen (be_get h)); [done|].
    destruct (Z.eqb_spec (zlen (h ++ r)) (2 + be_get h)) as [E|]; [|done]. cbn [negb]. intros <-%Ok_inj.
    rewrite slice_from_app by zl. unfold envelope. assert (be_get h = zlen r) as Er by zl. rewrite <- Er, Hput. split; [lia|done].
  - intros [Hm ->]. unfold envelope. pose proof (zlen_nonneg msg). rewrite slice_head by zl.
    rewrite be_get_put_small by (wconsts; change (256 ^ Z.of_nat 2) with 65536; lia). zcmp; try zl.
    by rewrite slice_from_app by zl.
Qed.

Lemma EncodeGetOK_image v : wval_ok v → EncodeGetOK v = Ok (lenp v).
Proof.
  intros Hv. pose proof (wval_u32 _ Hv). unfold EncodeGetOK, wval_ok in *. zcmp. rewrite to_u32_small by lia. f_equal.
  pose proof (zlen_make_bytes (4 + zlen v) ltac:(lia)) as Hm. revert Hm. generalize (make_bytes (4 + zlen v)). intros m Hm.
  peel m 4 as p1. rewrite <- (app_nil_r m). fill. unfold lenp. by rewrite app_nil_r.
Qed.

Lemma DecodeGetOK_iff body v : DecodeGetOK body = Ok v ↔ wval_ok v ∧ body = lenp v.
Proof.
  unfold DecodeGetOK. split.
  - destruct (Z.ltb_spec (zlen body) 4) as [|H4]; [done|]. destruct (peel_u32 body H4) as (n & r & -> & Hn).
    rewrite u32_at_head by done. destruct (Z.ltb_spec MaxValLen n); [done|].
    destruct (Z.eqb_spec (zlen (be_put 4 n ++ r)) (4 + n)) as [E|]; [|done]. cbn [negb]. intros <-%Ok_inj.
    rewrite slice_from_app by zl. assert (n = zlen r) as -> by zl. done.
  - intros [Hv ->]. pose proof (wval_u32 _ Hv). unfold lenp, wval_ok in *. rewrite u32_at_head by done. zcmp; try zl.
    by rewrite slice_from_app by zl.
Qed.

Lemma EncodeStatsOK_image kc bd : EncodeStatsOK kc bd = be_put 8 kc ++ be_put 8 bd.
Proof.
  unfold EncodeStatsOK. assert (Hm : zlen (make_bytes 16) = 16) by done. revert Hm. generalize (make_bytes 16). intros m Hm.
  peel m 8 as p1. rewrite <- (app_nil_r m). fill. by rewrite app_nil_r.
Qed.

Lemma stats_roundtrip kc bd : DecodeStatsOK (EncodeStatsOK kc bd) = Ok (to_u64 kc, to_u64 bd).
Proof.
  rewrite EncodeStatsOK_image.
  unfold DecodeStatsOK. destruct (Z.eqb_spec (zlen (be_put 8 kc ++ be_put 8 bd)) 16) as [|E]; [|zl].
  cbn [negb]. rewrite slice_head by zl. rewrite slice_last by zl. by rewrite !be_get_put.
Qed.

(** ** Lemmas: pages *)

Lemma decode_pair_shift pre l :
  decode_pair (pre ++ l) (zlen pre) = (let? p := decode_pair l 0 in Ok (p.1, zlen pre + p.2)).
Proof.
  unfold decode_pair. rewrite zlen_app, <- !(Z.add_assoc (zlen pre)), !Z.add_0_l.
  assert (u32_at (pre ++ l) (zlen pre) = u32_at l 0) as -> by (rewrite <- (u32_at_shift pre l 0) by lia; by rewrite Z.add_0_r).
  pose proof (u32_at_bound l 0). set (klen := u32_at l 0) in *.
  rewrite !(u32_at_shift pre l (4 + klen)), !(slice_shift pre l 4) by lia.
  pose proof (u32_at_bound l (4 + klen)). set (vlen := u32_at l (4 + klen)) in *.
  rewrite !(slice_shift pre l (4 + klen + 4)) by lia. shift_bounds pre l.
  repeat case_match; done.
Qed.

Lemma decode_pair_iff l p off' :
  decode_pair l 0 = Ok (p, off') ↔ ∃ tail, l = wire_pair p ++ tail ∧ pair_ok p ∧ off' = zlen (wire_pair p).
Proof.
  unfold decode_pair. rewrite Z.add_0_l. split.
  - destruct (Z.ltb_spec (zlen l) 4) as [|H4]; [done|]. destruct (peel_u32 l H4) as (n & rest & -> & Hn).
    rewrite u32_at_head by done. destruct (Z.ltb_spec n 1); [done|]. destruct (Z.ltb_spec MaxKeyLen n); [done|].
    destruct (Z.ltb_spec (zlen (be_put 4 n ++ rest)) (4 + n + 4)); [done|].
    destruct (split_at rest n ltac:(zl)) as (k & q & -> & Hk). subst n.
    destruct (peel_u32 q ltac:(zl)) as (m & s & -> & Hm). rewrite u32_at_second by done.
    destruct (Z.ltb_spec MaxValLen m); [done|].
    destruct (Z.ltb_spec (zlen (be_put 4 (zlen k) ++ k ++ be_put 4 m ++ s)) (4 + zlen k + 4 + m)); [done|].
    destruct (split_at s m ltac:(zl)) as (v & tail & -> & Hv). subst m. rewrite slice_mid by zl.
    rewrite (app_assoc (be_put 4 _)), (app_assoc (_ ++ k)), slice_mid by zl.
    intros Hok%Ok_inj. apply pair_equal_spec in Hok as [<- <-]. exists tail.
    split; [unfold wire_pair, lenp; cbn [kv_Key kv_Value]; by rewrite <- !app_assoc|].
    split; [|rewrite zlen_wire_pair; cbn [kv_Key kv_Value]; lia]. unfold pair_ok, wkey_ok, wval_ok. cbn. lia.
  - intros (tail & -> & (Hk & Hv) & ->). destruct p as [k v]. cbn [kv_Key kv_Value] in *.
    pose proof (wkey_u32 _ Hk). pose proof (wval_u32 _ Hv). unfold wkey_ok, wval_ok in *. pose proof (zlen_nonneg tail).
    rewrite zlen_wire_pair. cbn [kv_Key kv_Value]. unfold wire_pair, lenp. cbn [kv_Key kv_Value]. rewrite <- !app_assoc.
    rewrite u32_at_head by done. rewrite u32_at_second by done. rewrite (slice_mid (be_put 4 (zlen k)) k) by zl.
    rewrite (app_assoc (be_put 4 (zlen k))), (app_assoc (_ ++ k)), (slice_mid _ v) by zl.
    zcmp; try zl. do 2 f_equal. zl.
Qed.

Lemma decode_pairs_iff n : ∀ pre l ps off',
  decode_pairs n (pre ++ l) (zlen pre) = Ok (ps, off') ↔
  ∃ tail, l = concat (wire_pair <$> ps) ++ tail ∧ length ps = n ∧ Forall pair_ok ps
    ∧ off' = zlen pre + zlen (concat (wire_pair <$> ps)).
Proof.
  induction n as [|n IH]; intros pre l ps off'; cbn [decode_pairs].
  - split.
    + intros [= <- <-]. exists l. cbn. rewrite zlen_nil, Z.add_0_r. by repeat constructor.
    + intros (tail & -> & Hn & _ & ->). destruct ps; [|done]. cbn. by rewrite zlen_nil, Z.add_0_r.
  - rewrite decode_pair_shift. split.
    + destruct (decode_pair l 0) as [[p o]|] eqn:E; [|done]. cbn [rbind fst snd].
      apply decode_pair_iff in E as (t & -> & He & ->). rewrite app_assoc, <- zlen_app.
      destruct (decode_pairs n _ _) as [[ps1 o1]|] eqn:E1; [|done]. apply IH in E1 as (tail & -> & Hn & Hes & ->).
      cbn [rbind fst snd]. intros [= <- <-]. exists tail. cbn [fmap list_fmap concat]. rewrite !zlen_app, <- app_assoc.
      split; [done|]. split; [cbn; by rewrite Hn|]. split; [by constructor|lia].
    + intros (tail & -> & Hn & Hes & ->). destruct ps as [|p ps]; [done|]. injection Hn as Hn.
      apply Forall_cons in Hes as [He Hes]. cbn [fmap list_fmap concat]. rewrite <- app_assoc.
      assert (decode_pair (wire_pair p ++ concat (wire_pair <$> ps) ++ tail) 0 = Ok (p, zlen (wire_pair p))) as ->.
      { apply decode_pair_iff. by eexists. }
      cbn [rbind fst snd]. rewrite app_assoc, <- zlen_app.
      assert (decode_pairs n ((pre ++ wire_pair p) ++ concat (wire_pair <$> ps) ++ tail) (zlen (pre ++ wire_pair p))
        = Ok (ps, zlen (pre ++ wire_pair p) + zlen (concat (wire_pair <$> ps)))) as ->.
      { apply IH. by eexists. }
      cbn [rbind fst snd]. f_equal. f_equal. rewrite !zlen_app. lia.
Qed.

Lemma wire_pairs_min ps : Forall pair_ok ps → minRangePairBytes * zlen ps <= zlen (concat (wire_pair <$> ps)).
Proof.
  induction 1 as [|p ps [Hk _] _ IH]; [done|]. cbn [fmap list_fmap concat]. unfold minRangePairBytes, wkey_ok in *. zl.
Qed.

Lemma EncodeRangeEnd_image : EncodeRangeEnd = be_put 4 RangeEndSentinel.
Proof. by vm_compute. Qed.

(** The decoder accepts exactly the pages and the end marker. *)
Lemma DecodeRangeFrame_iff body ps end_ :
  DecodeRangeFrame body = Ok (ps, end_) ↔
  if end_ then ps = [] ∧ body = EncodeRangeEnd
  else Forall pair_ok ps ∧ zlen ps < RangeEndSentinel ∧ body = page_body ps.
Proof.
  unfold DecodeRangeFrame, page_body. rewrite EncodeRangeEnd_image. split.
  - destruct (Z.ltb_spec (zlen body) 4) as [|H4]; [done|]. destruct (peel_u32 body H4) as (n & l & -> & Hn).
    rewrite u32_at_head by done. rewrite slice_from_app by zl.
    destruct (Z.eqb_spec n RangeEndSentinel) as [->|Hne].
    { destruct (Z.eqb_spec (zlen (be_put 4 RangeEndSentinel ++ l)) 4) as [E|]; [|done]. cbn [negb]. intros [= <- <-].
      assert (l = []) as -> by (apply zlen_0; zl). by rewrite app_nil_r. }
    destruct (Z.ltb_spec (zlen l) (n * minRangePairBytes)); [done|].
    destruct (decode_pairs (Z.to_nat n) l 0) as [[ps1 o]|] eqn:E; [|done].
    apply (decode_pairs_iff _ []) in E as (tail & -> & Hlen & Hps & ->). cbn [rbind fst snd]. rewrite zlen_nil.
    destruct (Z.eqb_spec (0 + zlen (concat (wire_pair <$> ps1))) (zlen (concat (wire_pair <$> ps1) ++ tail))) as [Ez|]; [|done].
    cbn [negb]. intros Hok%Ok_inj. apply pair_equal_spec in Hok as [<- <-].
    assert (n = zlen ps1) as -> by (unfold zlen; lia).
    assert (tail = []) as -> by (apply zlen_0; zl). rewrite app_nil_r. split; [done|]. split; [wconsts; lia|done].
  - destruct end_.
    + intros [-> ->]. by vm_compute.
    + intros (Hps & Hn & ->). pose proof (wire_pairs_min ps Hps) as Hmin. pose proof (zlen_nonneg ps).
      rewrite u32_at_head by (wconsts; lia). rewrite slice_from_app by zl.
      assert (decode_pairs (Z.to_nat (zlen ps)) (concat (wire_pair <$> ps)) 0
        = Ok (ps, zlen (concat (wire_pair <$> ps)))) as ->.
      { apply (decode_pairs_iff _ []). exists []. rewrite app_nil_r, zlen_nil. split; [done|]. split; [unfold zlen; lia|done]. }
      cbn [rbind fst snd]. pose proof (zlen_nonneg (concat (wire_pair <$> ps))).
      destruct (Z.eqb_spec (zlen ps) RangeEndSentinel); [lia|]. zcmp; try zl. done.
Qed.

Lemma page_size_iff ps : ∀ n size,
  page_size ps n = Ok size ↔ Forall pair_ok ps ∧ size = n + zlen (concat (wire_pair <$> ps)).
Proof.
  induction ps as [|p ps IH]; intros n size; cbn [page_size fmap list_fmap concat].
  - rewrite zlen_nil, Z.add_0_r. split; [by intros [= <-]|]. by intros (_ & ->).
  - rewrite zlen_app, zlen_wire_pair, Forall_cons. unfold pair_ok at 1, wkey_ok, wval_ok.
    pose proof (zlen_nonneg (kv_Key p)). zcmp; try (split; [done|lia]).
    rewrite IH. split; [intros [? ->]|intros [[_ ?] ->]]; split; [split; [lia|done]|lia|done|lia].
Qed.

Lemma fill_pairs_image ps : ∀ pre m,
  Forall pair_ok ps → zlen m = zlen (concat (wire_pair <$> ps)) →
  fill_pairs ps (pre ++ m) (zlen pre) = pre ++ concat (wire_pair <$> ps).
Proof.
  induction ps as [|p ps IH]; intros pre m Hps Hm; cbn [fmap list_fmap concat fill_pairs] in *.
  - rewrite zlen_nil in Hm. by apply zlen_0 in Hm as ->.
  - apply Forall_cons in Hps as [(Hk & Hv) Hps]. pose proof (wkey_u32 _ Hk). pose proof (wval_u32 _ Hv).
    rewrite !to_u32_small by lia. rewrite zlen_app, zlen_wire_pair in Hm.
    pose proof (zlen_nonneg (concat (wire_pair <$> ps))).
    peel m 4 as p2. peel m (zlen (kv_Key p)) as p3. peel m 4 as p4. peel m (zlen (kv_Value p)) as p5.
    rewrite <- (app_nil_r m). cbv zeta. fill. rewrite app_nil_r.
    transitivity (fill_pairs ps ((pre ++ wire_pair p) ++ m) (zlen (pre ++ wire_pair p))).
    + unfold wire_pair, lenp. rewrite <- !app_assoc. f_equal. zl.
    + rewrite IH; [by rewrite <- app_assoc|done|zl].
Qed.

Lemma EncodeRangePage_iff ps body :
  EncodeRangePage ps = Ok body ↔
  Forall pair_ok ps ∧ zlen ps < RangeEndSentinel ∧ zlen (page_body ps) + 1 <= MaxFramePayload ∧ body = page_body ps.
Proof.
  unfold EncodeRangePage, page_body. rewrite zlen_app, zlen_be_put. pose proof (zlen_nonneg ps).
  destruct (Z.leb_spec RangeEndSentinel (zlen ps)); [split; [done|lia]|].
  destruct (page_size ps 4) as [size|err] eqn:E; cbn [rbind].
  - apply page_size_iff in E as (Hps & ->).
    destruct (Z.ltb_spec MaxFramePayload (4 + zlen (concat (wire_pair <$> ps)) + 1)); [split; [done|lia]|].
    rewrite to_u32_small by (wconsts; lia).
    assert (Hm : zlen (make_bytes (4 + zlen (concat (wire_pair <$> ps)))) = 4 + zlen (concat (wire_pair <$> ps))).
    { apply zlen_make_bytes. zl. }
    revert Hm. generalize (make_bytes (4 + zlen (concat (wire_pair <$> ps)))). intros m Hm. 
    pose proof (zlen_nonneg (concat (wire_pair <$> ps))). peel m 4 as p1. fill.
    assert (fill_pairs ps (be_put 4 (zlen ps) ++ m) 4 = be_put 4 (zlen ps) ++ concat (wire_pair <$> ps)) as ->.
    { pose proof (fill_pairs_image ps (be_put 4 (zlen ps)) m Hps ltac:(zl)) as Hf. by rewrite zlen_be_put in Hf. }
    split; [intros <-%Ok_inj|by intros (_ & _ & _ & ->)]. split; [done|]. split; [lia|]. split; [lia|done].
  - split; [done|]. intros (Hps & _ & Hs & _).
    assert (page_size ps 4 = Ok (4 + zlen (concat (wire_pair <$> ps)))) as E2; [|congruence]. by apply page_size_iff.
Qed.

(** ** Lemmas: streams *)

Definition page_ok (ps : list KV) : Prop :=
  Forall pair_ok ps ∧ zlen ps < RangeEndSentinel ∧ frame_ok StatusOK (page_body ps).
Definition page_frames (pages : list (list KV)) : bytes := concat ((λ ps, frame_image StatusOK (page_body ps)) <$> pages).
Definition end_frame : bytes := frame_image StatusOK EncodeRangeEnd.

(** The pages go to the caller's function until it refuses one. *)
Fixpoint feed {A} (pageFn : list KV → A → bool * A) (pages : list (list KV)) (a : A) : bool * A :=
  match pages with
  | [] => (true, a)
  | ps :: pages' => let (go, a) := pageFn ps a in if go then feed pageFn pages' a else (false, a)
  end.

(** A non-OK frame with an error envelope. *)
Definition error_ok (status : Z) (msg : bytes) : Prop :=
  is_u8 status ∧ status ≠ StatusOK ∧ zlen msg <= MaxErrMsgLen.

Lemma page_frames_cons ps pages : page_frames (ps :: pages) = frame_image StatusOK (page_body ps) ++ page_frames pages.
Proof. done. Qed.

Lemma envelope_frame_ok status msg : error_ok status msg → frame_ok status (envelope msg).
Proof. intros (Hs & _ & Hm). split; [done|]. unfold envelope. wconsts. zl. Qed.

Section stream.
Context {A : Type} (pageFn : list KV → A → bool * A).

Lemma stream_loop_pages pages : ∀ fuel a a' c rest,
  Forall page_ok pages → c_in c = page_frames pages ++ rest → feed pageFn pages a = (true, a') →
  (length pages < fuel)%nat →
  stream_loop fuel pageFn a c = stream_loop (fuel - length pages) pageFn a' (set_in rest c).
Proof.
  induction pages as [|ps pages IH]; intros fuel a a' c rest Hps Hin Hfeed Hfuel.
  - injection Hfeed as <-. cbn in Hin. subst rest. rewrite Nat.sub_0_r. by destruct c.
  - apply Forall_cons in Hps as [(Hp & Hn & Hf) Hps]. destruct fuel as [|fuel]; [cbn in Hfuel; lia|].
    rewrite page_frames_cons, <- app_assoc in Hin. cbn [stream_loop].
    rewrite (ReadFrame_image _ _ _ c Hf Hin). cbn [Z.eqb StatusOK negb].
    rewrite (proj2 (DecodeRangeFrame_iff (page_body ps) ps false)) by done. cbn [feed] in Hfeed.
    destruct (pageFn ps a) as [go a1]. destruct go; [|done].
    rewrite (IH fuel a1 a' (set_in (page_frames pages ++ rest) c) rest); [done|done|done|done|cbn in Hfuel; lia].
Qed.

Lemma stream_loop_end fuel a c rest :
  c_in c = end_frame ++ rest → stream_loop (S fuel) pageFn a c = (None, a, set_in rest c).
Proof.
  intros Hin. cbn [stream_loop]. unfold end_frame in Hin.
  assert (frame_ok StatusOK EncodeRangeEnd) as Hf by decided.
  rewrite (ReadFrame_image _ _ _ c Hf Hin). cbn [Z.eqb StatusOK negb].
  by rewrite (proj2 (DecodeRangeFrame_iff EncodeRangeEnd [] true)).
Qed.

Lemma stream_loop_error fuel a c status msg rest :
  error_ok status msg → c_in c = frame_image status (envelope msg) ++ rest →
  stream_loop (S fuel) pageFn a c = (Some (RemoteError status msg), a, set_in rest c).
Proof.
  intros He Hin. cbn [stream_loop]. rewrite (ReadFrame_image _ _ _ c (envelope_frame_ok _ _ He) Hin).
  destruct He as (_ & Hs & Hm). destruct (Z.eqb_spec status StatusOK); [done|]. cbn [negb].
  by rewrite (proj2 (DecodeError_iff (envelope msg) msg)).
Qed.

(** What ends a stream well: the end marker or the server's error. *)
Definition terminated (o : option werror) (frame : bytes) : Prop :=
  match o with
  | None => frame = end_frame
  | Some (RemoteError status msg) => error_ok status msg ∧ frame = frame_image status (envelope msg)
  | Some (WErr _) => False
  end.

Lemma ReadFrame_Ok c tag body c' :
  ReadFrame c = (Ok (tag, body), c') → frame_ok tag body ∧ c_in c = frame_image tag body ++ c_in c' ∧ c' = set_in (c_in c') c.
Proof.
  intros H. assert (frame_ok tag body ∧ c_in c = frame_image tag body ++ c_in c') as [Hf Hin].
  { assert (Hc : ReadFrame (mkConn (c_in c) (ESentinel io_EOF) (c_out c) (c_faults c)) = (Ok (tag, body), mkConn (c_in c') (ESentinel io_EOF) (c_out c') (c_faults c'))).
    { revert H. unfold ReadFrame, conn_ReadFull. cbn [c_in c_end set_in].
      destruct (io_ReadFull 4 (c_in c)) as [[h [err|]] r]; [by case_match; [case_match|]|]. cbn [c_in c_end set_in].
      destruct (_ <? 1); [done|]. destruct (_ <? _); [done|].
      destruct (io_ReadFull _ r) as [[b [err|]] r2]; [by case_match; [case_match|]|]. by intros [= <- <- <-]. }
    apply ReadFrame_inv in Hc; [exact Hc|by left]. }
  split; [done|]. split; [done|]. pose proof (ReadFrame_image tag body (c_in c') c Hf Hin). congruence.
Qed.

Lemma stream_loop_sound fuel : ∀ a c o a' c',
  stream_loop fuel pageFn a c = (o, a', c') →
  match o with
  | Some (WErr e) => True
  | _ => ∃ pages frame, Forall page_ok pages ∧ terminated o frame ∧ c_in c = page_frames pages ++ frame ++ c_in c'
      ∧ feed pageFn pages a = (true, a') ∧ c' = set_in (c_in c') c
  end.
Proof.
  induction fuel as [|fuel IH]; intros a c o a' c' H; [by injection H as <- <- <-|]. cbn [stream_loop] in H.
  destruct (ReadFrame c) as [[[status body]|err] c1] eqn:Er; [|by injection H as <- <- <-].
  apply ReadFrame_Ok in Er as (Hf & Hin & Hc1). destruct (Z.eqb_spec status StatusOK) as [->|Hs]; cbn [negb] in H.
  - destruct (DecodeRangeFrame body) as [[ps [|]]|] eqn:Ed; [| |by injection H as <- <- <-].
    + injection H as <- <- <-. apply DecodeRangeFrame_iff in Ed as [_ ->].
      exists [], end_frame. split; [constructor|]. by split.
    + apply DecodeRangeFrame_iff in Ed as (Hps & Hn & ->). destruct (pageFn ps a) as [[] a1] eqn:Ep.
      2: { by injection H as <- <- <-. }
      apply IH in H. destruct o as [[e|st msg]|]; [done| |];
        destruct H as (pages & frame & Hpages & Ht & Hin2 & Hfeed & Hc2); exists (ps :: pages), frame;
        (split; [by constructor|]); (split; [done|]); rewrite page_frames_cons, <- app_assoc, <- Hin2;
        (split; [done|]); cbn [feed]; rewrite Ep; (split; [done|]); rewrite Hc2; by rewrite Hc1.
  - destruct (DecodeError body) as [msg|] eqn:Ed; [|by injection H as <- <- <-]. injection H as <- <- <-.
    apply DecodeError_iff in Ed as [Hm ->]. exists [], (frame_image status (envelope msg)).
    split; [constructor|]. split; [|done]. split; [|done]. split; [apply Hf|done].
Qed.

Lemma stream_loop_fuel fuel : ∀ fuel' a c,
  (length (c_in c) < fuel)%nat → (fuel <= fuel')%nat → stream_loop fuel pageFn a c = stream_loop fuel' pageFn a c.
Proof.
  induction fuel as [|fuel IH]; intros fuel' a c Hf Hle; [lia|]. destruct fuel' as [|fuel']; [lia|]. cbn [stream_loop].
  destruct (ReadFrame c) as [[[status body]|err] c1] eqn:Er; [|done].
  apply ReadFrame_Ok in Er as (_ & Hin & _). apply (f_equal length) in Hin.
  unfold frame_image in Hin. rewrite !length_app, length_be_put in Hin. cbn [length] in Hin.
  destruct (negb _); [done|]. destruct (DecodeRangeFrame body) as [[ps [|]]|]; [done| |done].
  destruct (pageFn ps a) as [[] a1]; [|done]. apply IH; lia.
Qed.
End stream.

(** ** Properties *)

(** C31: a range stream is never silently cut.  [ReadRangeStream] reports success
    exactly when the input is a sequence of valid pages, all accepted by the
    caller's function, and the end marker; it reports a server error exactly when
    pages are followed by that error's frame; in both cases the caller saw every
    page, in order, and nothing behind the terminator was read.  Its fuel is
    enough: more changes nothing. *)
Theorem ReadRangeStream_exact {A} (pageFn : list KV → A → bool * A) a c o a' c' :
  match o with Some (WErr _) => False | _ => True end →
  (ReadRangeStream pageFn a c = (o, a', c') ↔
   ∃ pages frame rest, Forall page_ok pages ∧ terminated o frame ∧ c_in c = page_frames pages ++ frame ++ rest
     ∧ feed pageFn pages a = (true, a') ∧ c' = set_in rest c)
  ∧ ∀ fuel, (length (c_in c) < fuel)%nat → stream_loop fuel pageFn a c = ReadRangeStream pageFn a c.
Proof.
  intros Ho. split; [split|].
  - intros H%stream_loop_sound. destruct o as [[e|st msg]|]; [done| |];
      destruct H as (pages & frame & H1 & H2 & H3 & H4 & H5); exists pages, frame, (c_in c'); done.
  - intros (pages & frame & rest & Hp & Ht & Hin & Hfeed & ->). unfold ReadRangeStream.
    assert (Hlen : (length pages < length (c_in c))%nat).
    { rewrite Hin, !length_app. assert (length pages <= length (page_frames pages))%nat.
      { clear. induction pages as [|ps pages IH]; [done|]. rewrite page_frames_cons, length_app. unfold frame_image.
        rewrite length_app, length_be_put. cbn. lia. }
      assert (0 < length frame)%nat; [|lia]. destruct o as [[e|st msg]|]; [done| |].
      - destruct Ht as [_ ->]. unfold frame_image. rewrite length_app, length_be_put. lia.
      - cbn in Ht. subst frame. vm_compute. lia. }
    rewrite (stream_loop_pages pageFn pages _ a a' c (frame ++ rest)); [|done|done|done|lia].
    replace (S (length (c_in c)) - length pages)%nat with (S (length (c_in c) - length pages)) by lia.
    destruct o as [[e|st msg]|]; [done| |].
    + destruct Ht as [He ->]. by rewrite (stream_loop_error pageFn _ a' _ st msg rest).
    + cbn in Ht. subst frame. by rewrite (stream_loop_end pageFn _ a' _ rest).
  - intros fuel Hf. symmetry. apply stream_loop_fuel; lia.
Qed.

Lemma ReadRangeStream_exact_witness :
  let page := [mkKV [x61] [x31]; mkKV [x62] []] in
  let c := some_conn (page_frames [page; []] ++ end_frame ++ [x07]) in
  let fn := λ ps acc, (true, acc ++ ps) in
  (ReadRangeStream fn [] c = (None, page, some_conn [x07]) ↔
   ∃ pages frame rest, Forall page_ok pages ∧ terminated None frame ∧ c_in c = page_frames pages ++ frame ++ rest
     ∧ feed fn pages [] = (true, page) ∧ some_conn [x07] = set_in rest c)
  ∧ ReadRangeStream fn [] c = (None, page, some_conn [x07]).
Proof.
  intros page c fn. split; [|by vm_compute].
  exact (proj1 (ReadRangeStream_exact fn [] c None page (some_conn [x07]) I)).
Defined.

(** C32: response bodies survive the wire: values and error messages (cut to the
    maximum length) are read back as they were written, counters modulo 2^64, a
    page as its pairs, and a page is never taken for the end of the stream. *)
Theorem response_roundtrip :
  (∀ msg, DecodeError (EncodeError msg) = Ok (truncated msg))
  ∧ (∀ v body, EncodeGetOK v = Ok body → DecodeGetOK body = Ok v)
  ∧ (∀ kc bd, DecodeStatsOK (EncodeStatsOK kc bd) = Ok (to_u64 kc, to_u64 bd))
  ∧ (∀ ps body, EncodeRangePage ps = Ok body → DecodeRangeFrame body = Ok (ps, false) ∧ frame_ok StatusOK body)
  ∧ DecodeRangeFrame EncodeRangeEnd = Ok ([], true).
Proof.
  split; [|split; [|split; [|split]]].
  - intros msg. rewrite EncodeError_image. apply DecodeError_iff. split; [apply zlen_truncated|done].
  - intros v body. unfold EncodeGetOK at 1. destruct (Z.ltb_spec MaxValLen (zlen v)) as [|H]; [done|]. intros E.
    pose proof (EncodeGetOK_image v H) as Hi. unfold EncodeGetOK in Hi.
    destruct (Z.ltb_spec MaxValLen (zlen v)); [lia|]. rewrite Hi in E. apply Ok_inj in E as <-. by apply DecodeGetOK_iff.
  - apply stats_roundtrip.
  - intros ps body (Hp & Hn & Hs & ->)%EncodeRangePage_iff. split; [by apply DecodeRangeFrame_iff|]. split; [done|done].
  - by apply (DecodeRangeFrame_iff _ _ true).
Qed.
