(* ===== verification/Server.v ===== *)
(** * The TCP server's request handling (src/internal/server/server.go)

    One connection: reading requests, dispatching them to the engine, classifying
    engine errors and streaming range responses under the byte cap.  What other
    goroutines decide is observed: [draining n] before the [n]-th request, [slot n]
    whether its range stream gets a semaphore slot. *)
From S2P Require Import Prelude Storage Keydir Db Engine.
From S2P Require LogRecord.
From S2P Require Import WireFrame WireRequest WireResponse.
Import Wire.

(** ** Options *)

Record ServerOptions := mkServerOptions {
  ReadDeadline : Z;
  WriteDeadline : Z;
  MaxConcurrentRangeStreams : Z;
  MaxRangeResponseBytes : Z;
}.

Definition time_Second : Z := 1000000000.
Definition defaultReadDeadline : Z := 30 * time_Second.
Definition defaultWriteDeadline : Z := 30 * time_Second.
Definition defaultMaxConcurrentRangeStreams : Z := 4.
Definition defaultMaxRangeResponseBytes : Z := 64 * 1024 * 1024.
Definition rangePageFlushBytes : Z := 256 * 1024.

(** The defaults that [New] fills in. *)
Definition New_options (o : ServerOptions) : ServerOptions :=
  mkServerOptions
    (if ReadDeadline o <=? 0 then defaultReadDeadline else ReadDeadline o)
    (if WriteDeadline o <=? 0 then defaultWriteDeadline else WriteDeadline o)
    (if MaxConcurrentRangeStreams o <=? 0 then defaultMaxConcurrentRangeStreams else MaxConcurrentRangeStreams o)
    (if MaxRangeResponseBytes o <=? 0 then defaultMaxRangeResponseBytes else MaxRangeResponseBytes o).

(** ** Writing responses *)

Definition writeFrame (tag : Z) (body : bytes) : conn → result unit * conn :=
  do! _ := conn_SetDeadline in WriteFrame tag body.

Definition writeError (status : Z) (msg : bytes) : conn → result unit * conn :=
  do! _ := conn_SetDeadline in WriteError status msg.

(** The engine and the connection; a handler's status and transport error. *)
Abbreviation srv_state := (state * conn)%type.
Abbreviation outcome := (Z * result unit)%type.

Definition answer (status : Z) (write : conn → result unit * conn) (s : state) (c : conn) : outcome * srv_state :=
  let (r, c) := write c in ((status, r), (s, c)).

Definition text (s : string) : bytes := String.list_byte_of_string s.

Section server.
(** [err.Error()]: the text of an error. *)
Context (Error_text : error → bytes) (sopts : ServerOptions).

Definition classifyEngineErr (err : error) : Z * bytes :=
  if errors_Is err ErrKeyNotFound then (StatusNotFound, [])
  else if errors_Is err ErrDBClosed then (StatusClosed, Error_text err)
  else if errors_Is err ErrWritesDisabled then (StatusClosed, Error_text err)
  else if errors_Is err ErrEmptyKey || errors_Is err ErrKeyTooLarge || errors_Is err ErrValueTooLarge
          || errors_Is err ErrBatchTooLarge || errors_Is err ErrInvalidBatchEntry
  then (StatusBadRequest, Error_text err)
  else (StatusInternal, Error_text err).

Definition writeEngineErr (err : error) : state → conn → outcome * srv_state :=
  let (status, msg) := classifyEngineErr err in answer status (writeError status msg).

(** ** Range streams *)

(** The variables of [handleRange]. *)
Record rstate := mkRState {
  page : list KV;
  pageBytes : Z;
  streamedBytes : Z;
  writeErr : option error;
  overloaded : bool;
  r_conn : conn;
}.

Definition flush (st : rstate) : bool * rstate :=
  match page st with
  | [] => (true, st)
  | _ =>
    let failed err c := (false, mkRState (page st) (pageBytes st) (streamedBytes st) (Some err) (overloaded st) c) in
    match EncodeRangePage (page st) with
    | Err err => failed err (r_conn st)
    | Ok body =>
      match conn_SetDeadline (r_conn st) with
      | (Err err, c) => failed err c
      | (Ok _, c) =>
        match WriteFrame StatusOK body c with
        | (Err err, c) => failed err c
        | (Ok _, c) => (true, mkRState [] 0 (streamedBytes st + zlen body) (writeErr st) (overloaded st) c)
        end
      end
    end
  end.

(** The engine's callback for one pair. *)
Definition range_pair (k v : bytes) (st : rstate) : bool * rstate :=
  let entryBytes := 4 + zlen k + 4 + zlen v in
  let projected := streamedBytes st + pageBytes st + 4 + entryBytes in
  if MaxRangeResponseBytes sopts <? projected
  then (false, mkRState (page st) (pageBytes st) (streamedBytes st) (writeErr st) true (r_conn st))
  else
    let st := mkRState (page st ++ [mkKV k v]) (pageBytes st + entryBytes) (streamedBytes st) (writeErr st)
                (overloaded st) (r_conn st) in
    if rangePageFlushBytes <=? pageBytes st then flush st else (true, st).

(** What follows the scan. *)
Definition finish_range (scanErr : option error) (st : rstate) (s : state) : outcome * srv_state :=
  match writeErr st with
  | Some err => ((StatusInternal, Err err), (s, r_conn st))
  | None =>
    match scanErr, overloaded st with
    | Some err, false => writeEngineErr err s (r_conn st)
    | _, over =>
      let (ok, st) := flush st in
      if negb ok then ((StatusInternal, match writeErr st with Some err => Err err | None => Ok tt end), (s, r_conn st))
      else if over then answer StatusOverload (writeError StatusOverload (text "range response exceeds byte cap")) s (r_conn st)
      else answer StatusOK (writeFrame StatusOK EncodeRangeEnd) s (r_conn st)
    end
  end.

Definition handleRange (slot : bool) (start end_ : option bytes) (s : state) (c : conn) : outcome * srv_state :=
  if negb slot then
    answer StatusOverload (writeError StatusOverload (text "concurrent range stream limit reached")) s c
  else
    let st := mkRState [] 0 0 None false c in
    match ReadKeyRange start end_ (Some range_pair) st s with
    | (Ok st, s) => finish_range None st s
    | (Err err, s) => finish_range (Some err) st s
    end.

(** ** Dispatch *)

Definition engine_entry (e : BatchEntry) : LogRecord.BatchEntry :=
  LogRecord.mkBatchEntry (Key e) (Value e) (Delete e).

(** A mutation: OK with an empty body, or the engine's error. *)
Definition mutate (m : M unit) (s : state) (c : conn) : outcome * srv_state :=
  match m s with
  | (Err err, s) => writeEngineErr err s c
  | (Ok _, s) => answer StatusOK (writeFrame StatusOK []) s c
  end.

Definition dispatchOnce (slot : bool) (req : Request) (s : state) (c : conn) : outcome * srv_state :=
  match req with
  | PutRequest key value => mutate (Put key value) s c
  | GetRequest key =>
    match Get key s with
    | (Err err, s) =>
        if errors_Is err ErrKeyNotFound then answer StatusNotFound (writeError StatusNotFound []) s c
        else writeEngineErr err s c
    | (Ok val, s) =>
        match EncodeGetOK val with
        | Err err => answer StatusInternal (writeError StatusInternal (Error_text err)) s c
        | Ok body => answer StatusOK (writeFrame StatusOK body) s c
        end
    end
  | DeleteRequest key => mutate (Engine.Delete key) s c
  | BatchRequest entries => mutate (BatchPut (engine_entry <$> entries)) s c
  | PingRequest => answer StatusOK (writeFrame StatusOK []) s c
  | StatsRequest =>
      let st := db_Stats s.1 in
      answer StatusOK (writeFrame StatusOK (EncodeStatsOK (KeyCount st) (BytesOnDisk st))) s c
  | ReadKeyRangeRequest start end_ => handleRange slot start end_ s c
  end.

(** [dispatch]: the logging of the status has no effect. *)
Definition dispatch (slot : bool) (req : Request) (s : state) (c : conn) : result unit * srv_state :=
  let (o, sc) := dispatchOnce slot req s c in (o.2, sc).

(** ** The connection loop *)

Section conn.
Context (draining slot : nat → bool).

(** Every turn consumes a request frame; [n] counts the turns. *)
Fixpoint conn_loop (fuel : nat) (n : nat) (s : state) (c : conn) : srv_state :=
  match fuel with
  | O => (s, c)
  | S fuel' =>
    if draining n then (s, (writeError StatusClosed (text "server shutting down") c).2)
    else match conn_SetDeadline c with
         | (Err _, c) => (s, c)
         | (Ok _, c) =>
           match ReadRequest c with
           | (Err err, c) =>
             if errors_Is err io_EOF then (s, c)
             else match errors_As protocol_class err with
                  | None => (s, c)
                  | Some reason =>
                    let c := (conn_SetDeadline c).2 in
                    match WriteError StatusBadRequest (Error_text reason) c with
                    | (Err _, c) => (s, c)
                    | (Ok _, c) => conn_loop fuel' (S n) s c
                    end
                  end
           | (Ok req, c) =>
             match dispatch (slot n) req s c with
             | (Err _, sc) => sc
             | (Ok _, (s, c)) => conn_loop fuel' (S n) s c
             end
           end
         end
  end.

Definition handleConn (s : state) (c : conn) : srv_state := conn_loop (S (length (c_in c))) 0 s c.
End conn.
End server.

(** The request's sizes for the log line. *)
Definition reqMeta (req : Request) : string * Z * Z * Z :=
  match req with
  | PutRequest key value => ("put", zlen key, zlen value, 0)
  | GetRequest key => ("get", zlen key, 0, 0)
  | DeleteRequest key => ("delete", zlen key, 0, 0)
  | BatchRequest entries => ("batch", 0, 0, zlen entries)
  | PingRequest => ("ping", 0, 0, 0)
  | StatsRequest => ("stats", 0, 0, 0)
  | ReadKeyRangeRequest start end_ => ("range", zlen (default [] start) + zlen (default [] end_), 0, 0)
  end%string.
