(* ===== verification/ServerSpec.v ===== *)
(** * The server answers for the map

    Each request that reaches the dispatcher is answered with the frames its
    specification on the abstract map says, whichever engine and connection calls
    fail; range streams stay under the byte cap and never end in silence. *)
From S2P Require Import Prelude LogRecord Keydir Storage Frame Names Publish Manifest HintFile Log Recovery Db Invariant WritePath Rotation Compact Engine Writes Api WireFrame WireRequest WireResponse Server.
Import Wire.

(** ** Writes *)

(** [c'] is [c] with [l] sent, or cut inside it when the outcome is an error; on
    a healthy connection nothing is cut. *)
Definition wrote_out (c : conn) (l : bytes) (r : result unit) (c' : conn) : Prop :=
  c_in c' = c_in c ∧ c_end c' = c_end c ∧
  match r with
  | Ok _ => c_out c' = c_out c ++ l
  | Err _ => ∃ p, p `prefix_of` l ∧ c_out c' = c_out c ++ p
  end ∧ (c_faults c = [] → c_faults c' = [] ∧ r = Ok tt).

Lemma wrote_out_refl c : wrote_out c [] (Ok tt) c.
Proof. repeat split; [by rewrite app_nil_r|done]. Qed.

Lemma wrote_out_app c l1 c1 l2 r c2 :
  wrote_out c l1 (Ok tt) c1 → wrote_out c1 l2 r c2 → wrote_out c (l1 ++ l2) r c2.
Proof.
  intros (I1 & E1 & O1 & F1) (I2 & E2 & O2 & F2). split; [congruence|]. split; [congruence|]. split.
  - rewrite O1 in O2. destruct r; [by rewrite app_assoc|]. destruct O2 as (p & Hp & ->). exists (l1 ++ p).
    split; [by apply prefix_app|by rewrite app_assoc].
  - intros Hc. destruct (F1 Hc) as [Hc1 _]. auto.
Qed.

(** What follows a write that failed is not sent. *)
Lemma wrote_out_cut c l1 l2 err c' : wrote_out c l1 (Err err) c' → wrote_out c (l1 ++ l2) (Err err) c'.
Proof.
  intros (I & E & (p & Hp & O) & F). split; [done|]. split; [done|]. split; [|done].
  exists p. split; [|done]. by apply prefix_app_r.
Qed.

Lemma wrote_out_failed c l err err' c' : wrote_out c l (Err err) c' → wrote_out c l (Err err') c'.
Proof. intros (I & E & O & F). split; [done|]. split; [done|]. split; [done|]. intros H. by destruct (F H). Qed.

Lemma SetDeadline_out c r c' : conn_SetDeadline c = (r, c') → wrote_out c [] r c'.
Proof.
  unfold conn_SetDeadline, conn_call. destruct (c_faults c) as [|[n|] fs] eqn:Ef; intros [= <- <-]; unfold wrote_out; cbn; rewrite ?Ef;
    (split; [done|]); (split; [done|]); (split; [|done]); rewrite ?app_nil_r; [done| |done].
  exists []. by rewrite app_nil_r.
Qed.

Lemma conn_Write_clear bs c : c_faults c = [] → conn_Write bs c = (Ok tt, send bs c).
Proof. intros H. unfold conn_Write, conn_call. by rewrite H. Qed.

Lemma WriteFrame_out tag body c r c' :
  frame_ok tag body → WriteFrame tag body c = (r, c') → wrote_out c (frame_image tag body) r c'.
Proof.
  intros [_ Hb] H. pose proof (WriteFrame_spec _ _ _ _ _ H) as (H1 & H2 & H3). split; [done|]. split; [done|].
  destruct (Z.ltb_spec MaxFramePayload (zlen body + 1)); [lia|]. split; [destruct r; [done|]; by destruct H3|].
  intros Hc. unfold WriteFrame in H. destruct (Z.ltb_spec MaxFramePayload (zlen body + 1)); [lia|].
  unfold ebind in H. rewrite conn_Write_clear in H by done. cbv iota in H. destruct (0 <? zlen body).
  - rewrite conn_Write_clear in H by done. by injection H as <- <-.
  - by injection H as <- <-.
Qed.

Lemma writeFrame_out tag body c r c' :
  frame_ok tag body → writeFrame tag body c = (r, c') → wrote_out c (frame_image tag body) r c'.
Proof.
  intros Hf. unfold writeFrame, ebind. destruct (conn_SetDeadline c) as [r1 c1] eqn:E1.
  apply SetDeadline_out in E1. destruct r1 as [[]|err].
  - intros H. apply (wrote_out_app _ [] c1); [done|by apply WriteFrame_out].
  - intros [= <- <-]. by apply (wrote_out_cut _ []).
Qed.

Definition is_error_status (status : Z) : Prop := is_u8 status ∧ status ≠ StatusOK.
Definition error_frame (status : Z) (msg : bytes) : bytes := frame_image status (envelope (truncated msg)).

Lemma error_frame_ok status msg : is_error_status status → error_ok status (truncated msg).
Proof. intros []. split; [done|]. split; [done|]. apply zlen_truncated. Qed.

Lemma WriteError_out status msg c r c' :
  is_error_status status → WriteError status msg c = (r, c') → wrote_out c (error_frame status msg) r c'.
Proof.
  intros Hs. unfold WriteError. destruct (Z.eqb_spec status StatusOK); [by destruct Hs|].
  rewrite EncodeError_image. apply WriteFrame_out. by apply envelope_frame_ok, error_frame_ok.
Qed.

Lemma writeError_out status msg c r c' :
  is_error_status status → writeError status msg c = (r, c') → wrote_out c (error_frame status msg) r c'.
Proof.
  intros Hs H. unfold writeError, WriteError in H. destruct (Z.eqb_spec status StatusOK); [by destruct Hs|].
  rewrite EncodeError_image in H. apply (writeFrame_out status (envelope (truncated msg))).
  - by apply envelope_frame_ok, error_frame_ok.
  - exact H.
Qed.

(** An answer of one frame. *)
Lemma answer_out status write frame s c o s' c' :
  (∀ r c', write c = (r, c') → wrote_out c frame r c') → answer status write s c = (o, (s', c')) →
  o.1 = status ∧ s' = s ∧ wrote_out c frame o.2 c'.
Proof.
  intros Hw. unfold answer. destruct (write c) as [r c1] eqn:E. intros [= <- <- <-]. split; [done|].
  split; [done|]. by apply Hw.
Qed.

Section answers.
Context (Error_text : error → bytes).

Lemma classify_error err : is_error_status (classifyEngineErr Error_text err).1.
Proof using Type. unfold classifyEngineErr. repeat case_match; decided. Qed.

Lemma writeEngineErr_out err s c o s' c' :
  writeEngineErr Error_text err s c = (o, (s', c')) →
  o.1 = (classifyEngineErr Error_text err).1 ∧ s' = s
  ∧ wrote_out c (error_frame o.1 (classifyEngineErr Error_text err).2) o.2 c'.
Proof using Type.
  unfold writeEngineErr. pose proof (classify_error err) as Hs. destruct (classifyEngineErr Error_text err) as [status msg].
  intros H. eapply answer_out in H as (-> & -> & H); [done|]. intros r c1. by apply writeError_out.
Qed.
End answers.
