(* ===== verification/ServerRange.v ===== *)
(** * Range streams (src/internal/server/server.go, handleRange)

    How a range is cut into pages under the byte cap, as a function of the pairs
    alone, and the proof that the handler, whose callback buffers and flushes
    while the engine iterates, sends exactly those pages and the frame that ends
    them. *)
From S2P Require Import Prelude LogRecord Keydir Storage Frame Names Publish Manifest HintFile Log Recovery Db Invariant WritePath Rotation Compact Engine Writes Api WireFrame WireRequest WireResponse Server ServerSpec.

(** ** The reference pagination *)

Definition pairs_bytes (ps : list KV) : Z := zlen (concat (wire_pair <$> ps)).
Definition pending (ps : list KV) : list (list KV) := match ps with [] => [] | _ => [ps] end.

(** The pages of [l], the page [cur] being under way and [sent] bytes of pages
    done, and whether the cap was met before the end. *)
Fixpoint paginate (cap sent : Z) (cur l : list KV) : list (list KV) * bool :=
  match l with
  | [] => (pending cur, false)
  | p :: l' =>
    let cur' := cur ++ [p] in
    if cap <? sent + zlen (page_body cur') then (pending cur, true)
    else if rangePageFlushBytes <=? pairs_bytes cur'
    then let (pages, over) := paginate cap (sent + zlen (page_body cur')) [] l' in (cur' :: pages, over)
    else paginate cap sent cur' l'
  end.

Definition pages_bytes (pages : list (list KV)) : Z := zlen (concat (page_body <$> pages)).

Lemma zlen_page_body ps : zlen (page_body ps) = 4 + pairs_bytes ps.
Proof. unfold page_body, pairs_bytes. zl. Qed.
Lemma pairs_bytes_snoc ps p : pairs_bytes (ps ++ [p]) = pairs_bytes ps + zlen (wire_pair p).
Proof. unfold pairs_bytes. rewrite fmap_app, concat_app. cbn. rewrite app_nil_r. zl. Qed.
Lemma pairs_bytes_nonneg ps : 0 <= pairs_bytes ps.
Proof. apply zlen_nonneg. Qed.
Lemma pages_bytes_cons ps pages : pages_bytes (ps :: pages) = zlen (page_body ps) + pages_bytes pages.
Proof. unfold pages_bytes. cbn. zl. Qed.
Lemma pages_bytes_pending ps : pages_bytes (pending ps) = if decide (ps = []) then 0 else zlen (page_body ps).
Proof. destruct ps; [done|]. cbn [pending]. rewrite decide_False by done. rewrite pages_bytes_cons. change (pages_bytes []) with 0. lia. Qed.
Lemma concat_pending ps : concat (pending ps) = ps.
Proof. destruct ps; [done|]. cbn. by rewrite app_nil_r. Qed.

Definition ok_pages (pages : list (list KV)) : Prop := Forall (λ ps, page_ok ps ∧ ps ≠ []) pages.

(** A page that was short of the flush size before its last pair. *)
Lemma page_ok_snoc ps p :
  Forall pair_ok ps → pair_ok p → pairs_bytes ps < rangePageFlushBytes → page_ok (ps ++ [p]).
Proof.
  intros Hps Hp Hb. assert (Hall : Forall pair_ok (ps ++ [p])) by (by apply Forall_app_2; [|constructor]).
  split; [done|]. pose proof (wire_pairs_min _ Hall) as Hmin. fold (pairs_bytes (ps ++ [p])) in Hmin.
  rewrite pairs_bytes_snoc, zlen_wire_pair in Hmin. destruct Hp as [[_ Hk] Hv].
  unfold wval_ok in Hv. unfold rangePageFlushBytes in Hb. split; [wconsts; lia|].
  split; [decided|]. rewrite zlen_page_body, pairs_bytes_snoc, zlen_wire_pair. wconsts. lia.
Qed.

(** A page on its way: below the flush size, so one more pair still fits. *)
Definition filling (cap sent : Z) (cur : list KV) : Prop :=
  Forall pair_ok cur ∧ pairs_bytes cur < rangePageFlushBytes
  ∧ sent <= cap ∧ (cur ≠ [] → sent + zlen (page_body cur) <= cap).

Lemma filling_page_ok cap sent cur : filling cap sent cur → page_ok cur.
Proof.
  intros (Hps & Hb & _). split; [done|]. pose proof (wire_pairs_min _ Hps) as Hmin. fold (pairs_bytes cur) in Hmin.
  unfold rangePageFlushBytes in Hb. split; [wconsts; lia|]. split; [decided|]. rewrite zlen_page_body. wconsts. lia.
Qed.

Lemma filling_pending cap sent cur : filling cap sent cur → ok_pages (pending cur) ∧ sent + pages_bytes (pending cur) <= cap.
Proof.
  intros H. pose proof (filling_page_ok _ _ _ H) as Hp. destruct H as (_ & _ & Hs & Hc). rewrite pages_bytes_pending.
  destruct cur as [|p cur]; [split; [apply Forall_nil_2|rewrite decide_True by done; lia]|].
  rewrite decide_False by done. split; [|by apply Hc]. by apply Forall_singleton.
Qed.

Lemma filling_nil cap sent : sent <= cap → filling cap sent [].
Proof. intros. split; [constructor|]. by repeat split. Qed.

(** The pages are valid, hold the pairs in order, stay under the cap, and are cut
    short only by a pair that would not fit. *)
Lemma paginate_spec cap l : ∀ sent cur pages over,
  filling cap sent cur → Forall pair_ok l → paginate cap sent cur l = (pages, over) →
  ok_pages pages ∧ sent + pages_bytes pages <= cap
  ∧ if over then ∃ done p rest, l = done ++ p :: rest ∧ concat pages = cur ++ done
                   ∧ cap < sent + pages_bytes pages + 4 + zlen (wire_pair p)
    else concat pages = cur ++ l.
Proof.
  induction l as [|p l IH]; intros sent cur pages over Hf Hl; cbn [paginate].
  - intros [= <- <-]. destruct (filling_pending _ _ _ Hf). rewrite concat_pending, app_nil_r. done.
  - apply Forall_cons in Hl as [Hp Hl]. destruct (Z.ltb_spec cap (sent + zlen (page_body (cur ++ [p])))) as [Hcap|Hcap].
    { intros [= <- <-]. destruct (filling_pending _ _ _ Hf) as [H1 H2]. split; [done|]. split; [done|].
      exists [], p, l. split; [done|]. rewrite concat_pending, app_nil_r. split; [done|].
      rewrite zlen_page_body, pairs_bytes_snoc in Hcap. rewrite pages_bytes_pending. case_decide as Hd.
      - subst cur. change (pairs_bytes []) with 0 in Hcap. lia.
      - rewrite zlen_page_body. lia. }
    assert (Hok : page_ok (cur ++ [p])) by (apply page_ok_snoc; [apply Hf|done|apply Hf]).
    destruct (Z.leb_spec rangePageFlushBytes (pairs_bytes (cur ++ [p]))) as [Hfl|Hfl].
    + destruct (paginate cap _ [] l) as [pages1 over1] eqn:E. intros [= <- <-].
      apply IH in E as (H1 & H2 & H3); [|by apply filling_nil|done]. rewrite pages_bytes_cons.
      split; [constructor; [split; [done|by destruct cur]|done]|]. split; [lia|]. cbn [concat]. destruct over1.
      * destruct H3 as (done & q & rest & -> & Hc & Hx). exists (p :: done), q, rest. split; [reflexivity|].
        split; [rewrite Hc, <- app_assoc; reflexivity|lia].
      * by rewrite H3, <- app_assoc.
    + intros E. apply IH in E as (H1 & H2 & H3); [|split; [apply Hok|]; split; [done|]; split; [apply Hf|done]|done]. split; [done|]. split; [done|].
      destruct over.
      * destruct H3 as (done & q & rest & -> & Hc & Hx). exists (p :: done), q, rest.
        split; [reflexivity|]. split; [rewrite Hc, <- app_assoc; reflexivity|done].
      * by rewrite H3, <- app_assoc.
Qed.

(** ** The handler's buffer *)

Definition all_sent (st : rstate) (pages : list (list KV)) (c' : conn) : Prop :=
  wrote_out (r_conn st) (page_frames pages) (Ok tt) c'.

Lemma flush_empty st : page st = [] → flush st = (true, st).
Proof. intros H. unfold flush. by rewrite H. Qed.

(** [flush] sends the page and empties it, or stops with the transport's error. *)
Lemma range_flush_spec st ok st' :
  page_ok (page st) → flush st = (ok, st') →
  overloaded st' = overloaded st ∧
  (if ok then writeErr st' = writeErr st ∧ page st' = []
     ∧ (pageBytes st = pairs_bytes (page st) → pageBytes st' = 0)
     ∧ streamedBytes st' = streamedBytes st + pages_bytes (pending (page st))
     ∧ wrote_out (r_conn st) (page_frames (pending (page st))) (Ok tt) (r_conn st')
   else ∃ err, writeErr st' = Some err ∧ wrote_out (r_conn st) (page_frames (pending (page st))) (Err err) (r_conn st')).
Proof.
  intros (Hps & Hn & Hfr). destruct (page st) as [|p ps] eqn:Ep.
  { rewrite flush_empty by done. intros [= <- <-]. split; [done|]. split; [done|]. split; [done|].
    split; [done|]. split; [change (pages_bytes (pending [])) with 0; lia|apply wrote_out_refl]. }
  unfold flush. rewrite Ep.
  rewrite (proj2 (EncodeRangePage_iff (p :: ps) (page_body (p :: ps)))) by (split_and!; [done..|apply Hfr|done]).
  assert (Hfrm : page_frames (pending (p :: ps)) = frame_image StatusOK (page_body (p :: ps))).
  { cbn [pending]. rewrite page_frames_cons. apply app_nil_r. }
  rewrite Hfrm. destruct (conn_SetDeadline (r_conn st)) as [[[]|err] c1] eqn:E1; apply SetDeadline_out in E1.
  2: { intros [= <- <-]. split; [done|]. exists err. split; [done|]. by apply (wrote_out_cut _ []). }
  destruct (WriteFrame StatusOK (page_body (p :: ps)) c1) as [[[]|err] c2] eqn:E2; apply (WriteFrame_out _ _ _ _ _ Hfr) in E2.
  - intros [= <- <-]. cbn [overloaded writeErr page pageBytes streamedBytes r_conn]. split; [done|]. split; [done|]. split; [done|]. split; [done|].
    split; [|by apply (wrote_out_app _ [] c1)]. cbn [pending]. rewrite pages_bytes_cons. change (pages_bytes []) with 0. lia.
  - intros [= <- <-]. split; [done|]. exists err. split; [done|]. by apply (wrote_out_app _ [] c1).
Qed.

Definition to_kv (kv : bytes * bytes) : KV := mkKV kv.1 kv.2.

Lemma page_frames_app ps qs : page_frames (ps ++ qs) = page_frames ps ++ page_frames qs.
Proof. unfold page_frames. by rewrite fmap_app, concat_app. Qed.

Section stream.
Context (sopts : ServerOptions).
Abbreviation cap := (MaxRangeResponseBytes sopts).

(** The buffer between two callbacks. *)
Record buffering (st : rstate) : Prop := {
  bf_err : writeErr st = None;
  bf_over : overloaded st = false;
  bf_bytes : pageBytes st = pairs_bytes (page st);
  bf_filling : filling cap (streamedBytes st) (page st);
}.

Lemma range_pair_step k v st :
  let p := mkKV k v in
  buffering st → pair_ok p →
  let (go, st') := range_pair sopts k v st in
  if cap <? streamedBytes st + zlen (page_body (page st ++ [p]))
  then go = false ∧ st' = mkRState (page st) (pageBytes st) (streamedBytes st) (writeErr st) true (r_conn st)
  else if rangePageFlushBytes <=? pairs_bytes (page st ++ [p])
  then (if go then buffering st' ∧ page st' = []
          ∧ streamedBytes st' = streamedBytes st + zlen (page_body (page st ++ [p]))
          ∧ wrote_out (r_conn st) (page_frames [page st ++ [p]]) (Ok tt) (r_conn st')
        else ∃ err, writeErr st' = Some err ∧ wrote_out (r_conn st) (page_frames [page st ++ [p]]) (Err err) (r_conn st'))
  else go = true ∧ buffering st' ∧ page st' = page st ++ [p] ∧ streamedBytes st' = streamedBytes st ∧ r_conn st' = r_conn st.
Proof using Type.
  intros p [He Ho Hb Hf] Hp. unfold range_pair. fold p.
  assert (Hn : 4 + zlen k + 4 + zlen v = zlen (wire_pair p)) by (rewrite zlen_wire_pair; cbn; lia).
  rewrite Hn, Hb. rewrite zlen_page_body, pairs_bytes_snoc.
  replace (streamedBytes st + pairs_bytes (page st) + 4 + zlen (wire_pair p))
    with (streamedBytes st + (4 + (pairs_bytes (page st) + zlen (wire_pair p)))) by lia.
  destruct (Z.ltb_spec cap (streamedBytes st + (4 + (pairs_bytes (page st) + zlen (wire_pair p))))) as [|Hcap]; [done|].
  cbn [pageBytes]. assert (Hok : page_ok (page st ++ [p])) by (apply page_ok_snoc; [apply Hf|done|apply Hf]).
  assert (Hsnoc : pairs_bytes (page st) + zlen (wire_pair p) = pairs_bytes (page st ++ [p])) by (by rewrite pairs_bytes_snoc).
  rewrite Hsnoc in *. destruct (Z.leb_spec rangePageFlushBytes (pairs_bytes (page st ++ [p]))) as [Hfl|Hfl].
  - change (mkKV k v) with p. match goal with |- context [flush ?s] => set (st1 := s) end. destruct (flush st1) as [ok st2] eqn:E.
    destruct (range_flush_spec st1 ok st2 Hok E) as [Hov Hr]. unfold st1 in Hov, Hr; cbn [page overloaded writeErr streamedBytes pageBytes r_conn] in Hov, Hr.
    assert (Hpend : pending (page st ++ [p]) = [page st ++ [p]]) by (by destruct (page st)). rewrite Hpend in Hr.
    destruct ok; [|exact Hr]. destruct Hr as (H1 & H2 & H3 & H4 & H5). 
    rewrite pages_bytes_cons, zlen_page_body in H4. change (pages_bytes []) with 0 in H4.
    split; [|split; [done|]; split; [lia|done]]. split; [congruence|congruence|rewrite H2; by apply H3|].
    rewrite H2. apply filling_nil. lia.
  - split; [done|]. split; [|done]. split; [done|done|done|]. cbn [page streamedBytes]. split; [apply Hok|].
    split; [done|]. split; [apply Hf|]. intros _. rewrite zlen_page_body. lia.
Qed.

(** The pages of the callbacks are those of [paginate]; the last is pending. *)
Lemma visit_pages l : ∀ st pages over,
  buffering st → Forall pair_ok (to_kv <$> l) →
  paginate cap (streamedBytes st) (page st) (to_kv <$> l) = (pages, over) →
  let st' := visit (range_pair sopts) l st in
  match writeErr st' with
  | Some err => wrote_out (r_conn st) (page_frames pages) (Err err) (r_conn st')
  | None => overloaded st' = over ∧ page_ok (page st') ∧
      ∃ done, pages = done ++ pending (page st') ∧ wrote_out (r_conn st) (page_frames done) (Ok tt) (r_conn st')
  end.
Proof using Type.
  induction l as [|[k v] l IH]; intros st pages over Hb Hl; cbn [fmap list_fmap paginate visit].
  { intros [= <- <-]. rewrite (bf_err _ Hb). split; [apply Hb|]. split; [eapply filling_page_ok, Hb|].
    exists []. split; [done|apply wrote_out_refl]. }
  apply Forall_cons in Hl as [Hp Hl]. pose proof (range_pair_step k v st Hb Hp) as Hs.
  change (to_kv (k, v)) with (mkKV k v). destruct (range_pair sopts k v st) as [go st1].
  destruct (cap <? streamedBytes st + zlen (page_body (page st ++ [mkKV k v]))).
  { destruct Hs as [-> ->]. intros [= <- <-]. cbn [writeErr overloaded page r_conn]. rewrite (bf_err _ Hb). split; [done|].
    split; [eapply filling_page_ok, Hb|]. exists []. split; [done|apply wrote_out_refl]. }
  destruct (rangePageFlushBytes <=? pairs_bytes (page st ++ [mkKV k v])).
  - destruct (paginate cap _ [] (to_kv <$> l)) as [pages1 over1] eqn:E. intros [= <- <-]. rewrite page_frames_cons.
    destruct go.
    + destruct Hs as (Hb1 & Hp1 & Hs1 & Hw). rewrite <- Hs1, <- Hp1 in E. specialize (IH st1 pages1 over1 Hb1 Hl E).
      rewrite page_frames_cons, app_nil_r in Hw. cbv zeta in IH |- *. destruct (writeErr _) as [err|].
      * by eapply wrote_out_app.
      * destruct IH as (H1 & H2 & done & -> & H3). split; [done|]. split; [done|].
        exists ((page st ++ [mkKV k v]) :: done). split; [done|]. rewrite page_frames_cons. by eapply wrote_out_app.
    + destruct Hs as (err & He & Hw). cbv zeta. rewrite He. rewrite page_frames_cons, app_nil_r in Hw. by apply wrote_out_cut.
  - destruct Hs as (-> & Hb1 & Hp1 & Hs1 & Hc). rewrite <- Hs1, <- Hp1, <- Hc. by apply IH.
Qed.

(** ** The end of a stream *)

Context (Error_text : error → bytes).

(** The frame that ends the stream of a scan that ran. *)
Definition terminator (over : bool) : bytes :=
  if over then error_frame StatusOverload (text "range response exceeds byte cap") else end_frame.

Definition stream_of (pages : list (list KV)) (over : bool) : bytes := page_frames pages ++ terminator over.

Lemma finish_pages s st pages over o s' c' :
  writeErr st = None → overloaded st = over → page_ok (page st) → pages = pending (page st) →
  finish_range Error_text None st s = (o, (s', c')) →
  s' = s ∧ wrote_out (r_conn st) (stream_of pages over) o.2 c'
  ∧ o.1 = match o.2 with Ok _ => if over then StatusOverload else StatusOK | Err _ => o.1 end.
Proof using Type.
  intros He Ho Hp -> H. unfold finish_range in H. rewrite He in H.
  assert (Hfin : (let (ok, st) := flush st in
      if negb ok then ((StatusInternal, match writeErr st with Some err => Err err | None => Ok tt end), (s, r_conn st))
      else if over then answer StatusOverload (writeError StatusOverload (text "range response exceeds byte cap")) s (r_conn st)
      else answer StatusOK (writeFrame StatusOK EncodeRangeEnd) s (r_conn st)) = (o, (s', c'))).
  { rewrite Ho in H. by destruct over. }
  clear H. destruct (flush st) as [ok st1] eqn:E. apply range_flush_spec in E as [_ Hr]; [|done].
  destruct ok; cbn [negb] in Hfin.
  - destruct Hr as (_ & _ & _ & _ & Hw). unfold stream_of, terminator. destruct over.
    + eapply answer_out in Hfin as (H1 & -> & H3); [|intros r c1; apply writeError_out; decided].
      split; [done|]. split; [by eapply wrote_out_app|]. rewrite H1. by destruct o.2.
    + eapply answer_out in Hfin as (H1 & -> & H3); [|intros r c1; apply writeFrame_out; decided].
      split; [done|]. split; [by eapply wrote_out_app|]. rewrite H1. by destruct o.2.
  - destruct Hr as (err & Herr & Hw). rewrite Herr in Hfin. injection Hfin as <- <- <-. split; [done|].
    split; [by apply wrote_out_cut|done].
Qed.

Lemma scan_pages l s c o s' c' :
  0 <= cap → Forall pair_ok (to_kv <$> l) →
  finish_range Error_text None (visit (range_pair sopts) l (mkRState [] 0 0 None false c)) s = (o, (s', c')) →
  let (pages, over) := paginate cap 0 [] (to_kv <$> l) in
  s' = s ∧ wrote_out c (stream_of pages over) o.2 c'
  ∧ o.1 = match o.2 with Ok _ => if over then StatusOverload else StatusOK | Err _ => o.1 end.
Proof using Type.
  intros Hcap Hl H. destruct (paginate cap 0 [] (to_kv <$> l)) as [pages over] eqn:E.
  set (st0 := mkRState [] 0 0 None false c) in *.
  assert (Hb0 : buffering st0) by (split; [done|done|done|by apply filling_nil]).
  pose proof (visit_pages l st0 pages over Hb0 Hl E) as Hv. cbv zeta in Hv.
  set (st1 := visit _ _ _) in *. destruct (writeErr st1) as [err|] eqn:He.
  - unfold finish_range in H. rewrite He in H. injection H as <- <- <-. split; [done|].
    split; [by apply wrote_out_cut|done].
  - destruct Hv as (Ho & Hp & done & -> & Hw).
    destruct (finish_pages s st1 (pending (page st1)) over o s' c' He Ho Hp eq_refl H) as (-> & Hw2 & Hst).
    split; [reflexivity|]. split; [|exact Hst]. unfold stream_of in *. rewrite page_frames_app, <- app_assoc.
    eapply wrote_out_app; [exact Hw|exact Hw2].
Qed.
End stream.

(** ** The bindings of the map fit the wire *)

Lemma pair_ok_of k v : key_ok k → value_ok v → pair_ok (mkKV k v).
Proof. unfold key_ok, value_ok. split; [unfold wkey_ok|unfold wval_ok]; unfold maxKeyLen, maxValLen in *; wconsts; cbn; lia. Qed.

Lemma range_pairs_ok m logs (db : DB) (e : env) start end_ l :
  db_inv m logs db e → range_of (abs db e) start end_ l → Forall pair_ok (to_kv <$> l).
Proof.
  intros Hi [_ Hl]. apply Forall_fmap, Forall_forall. intros [k v] Hin. apply Hl in Hin as [Hk _].
  destruct (abs_key_value _ _ _ _ _ _ Hi Hk). by apply pair_ok_of.
Qed.

(** ** The handler *)

(** What a range request puts on the wire. *)
Definition range_response (sopts : ServerOptions) (slot : bool) (start end_ : option bytes)
    (db : DB) (e : env) (o : outcome) (frames : bytes) : Prop :=
  if negb slot then o.1 = StatusOverload ∧ frames = error_frame StatusOverload (text "concurrent range stream limit reached")
  else if closed db then o.1 = StatusClosed ∧ ∃ msg, frames = error_frame StatusClosed msg
  else (¬ quiet e ∧ o.1 = StatusInternal ∧ ∃ msg, frames = error_frame StatusInternal msg)
    ∨ ∃ l, range_of (abs db e) start end_ l ∧
      let (pages, over) := paginate (MaxRangeResponseBytes sopts) 0 [] (to_kv <$> l) in
      frames = stream_of pages over
      ∧ o.1 = match o.2 with Ok _ => if over then StatusOverload else StatusOK | Err _ => o.1 end.

Lemma handleRange_run Error_text sopts m logs slot start end_ (db : DB) (e : env) c o s' c' :
  db_inv m logs db e → 0 <= MaxRangeResponseBytes sopts →
  handleRange Error_text sopts slot start end_ (db, e) c = (o, (s', c')) →
  s'.1 = db ∧ e_disk s'.2 = e_disk e
  ∧ ∃ frames, range_response sopts slot start end_ db e o frames ∧ wrote_out c frames o.2 c'.
Proof.
  intros Hi Hcap H. unfold handleRange in H. unfold range_response. destruct slot; cbn [negb] in *.
  2: { eapply answer_out in H as (H1 & -> & H3); [|intros r c1; apply writeError_out; decided].
       split; [done|]. split; [done|]. eexists. split; [|exact H3]. by split. }
  destruct (ReadKeyRange start end_ (Some (range_pair sopts)) _ (db, e)) as [r s1] eqn:E.
  pose proof (ReadKeyRange_run _ _ _ _ _ _ _ _ _ _ Hi E) as (D & De & Hr). destruct r as [out|err].
  - destruct Hr as (Hc & f & l & [= <-] & Hl & ->). rewrite Hc.
    pose proof (scan_pages sopts Error_text l s1 c o s' c' Hcap (range_pairs_ok _ _ _ _ _ _ _ Hi Hl) H) as Hp.
    destruct (paginate _ 0 [] (to_kv <$> l)) as [pages over] eqn:Ep. destruct Hp as (-> & Hw & Hst).
    split; [done|]. split; [done|]. eexists. split; [|exact Hw]. right. exists l. split; [done|]. by rewrite Ep.
  - unfold finish_range in H. cbn [writeErr overloaded] in H. apply writeEngineErr_out in H as (H1 & -> & H3).
    split; [done|]. split; [done|]. eexists. split; [|exact H3]. destruct Hr as [?|[[Hc ->]|(Hc & Hq & ->)]]; [done| |].
    + rewrite Hc. split; [exact H1|]. rewrite H1. by eexists.
    + rewrite Hc. left. split; [done|]. split; [exact H1|]. rewrite H1. by eexists.
Qed.

(** C21: a range response is the range, or says why not.  On an open engine
    [handleRange] sends valid non-empty pages that hold, in key order, the
    bindings of one map, the current one, within the bounds; the bytes of the
    pages never exceed MaxRangeResponseBytes; the stream ends with the end marker
    exactly when no binding was left out, and with an OVERLOAD frame exactly when
    the next binding would have passed the cap.  Only a failed read of the engine
    gives an INTERNAL frame instead, before any page.  A failing connection cuts
    this byte sequence and nothing else; the engine is not changed. *)
Theorem handleRange_streams Error_text sopts m logs start end_ (db : DB) (e : env) c o s' c' :
  db_inv m logs db e → closed db = false → 0 <= MaxRangeResponseBytes sopts →
  handleRange Error_text sopts true start end_ (db, e) c = (o, (s', c')) →
  s'.1 = db ∧ e_disk s'.2 = e_disk e ∧
  ((¬ quiet e ∧ o.1 = StatusInternal ∧ ∃ msg, wrote_out c (error_frame StatusInternal msg) o.2 c')
   ∨ ∃ l pages (over : bool), range_of (abs db e) start end_ l ∧ ok_pages pages
       ∧ pages_bytes pages <= MaxRangeResponseBytes sopts
       ∧ wrote_out c (stream_of pages over) o.2 c'
       ∧ if over then ∃ p rest, to_kv <$> l = concat pages ++ p :: rest
                        ∧ MaxRangeResponseBytes sopts < pages_bytes pages + 4 + zlen (wire_pair p)
         else to_kv <$> l = concat pages).
Proof.
  intros Hi Hc Hcap H. destruct (handleRange_run _ _ _ _ _ _ _ _ _ _ _ _ _ Hi Hcap H) as (H1 & H2 & frames & Hf & Hw).
  split; [done|]. split; [done|]. unfold range_response in Hf. cbn [negb] in Hf. rewrite Hc in Hf.
  destruct Hf as [(Hq & Hs & msg & ->)|(l & Hl & Hp)]; [left; split; [done|]; split; [done|]; by exists msg|right].
  destruct (paginate _ 0 [] (to_kv <$> l)) as [pages over] eqn:Ep. destruct Hp as [-> _].
  apply paginate_spec in Ep as (Hok & Hb & Hx); [|by apply filling_nil|by eapply range_pairs_ok].
  exists l, pages, over. split; [done|]. split; [done|]. split; [lia|]. split; [done|]. destruct over; [|by rewrite Hx].
  destruct Hx as (done & p & rest & -> & -> & ?). exists p, rest. split; [done|lia].
Qed.

Definition plain_text (err : error) : bytes := text "engine error".
Definition small_range : ServerOptions := New_options (mkServerOptions 0 0 0 25).

(** Two bindings, of which the cap lets one through. *)
Definition two_keys : state := (BatchPut [mkBatchEntry [x61] [x31] false; mkBatchEntry [x62] (replicate 20 x32) false] (init_db, init_env)).2.

Lemma handleRange_streams_witness :
  let p := handleRange plain_text small_range true None None (init_db, init_env) (some_conn []) in
  p.2.1.1 = init_db ∧ e_disk p.2.1.2 = e_disk init_env ∧
  ((¬ quiet init_env ∧ p.1.1 = StatusInternal ∧ ∃ msg, wrote_out (some_conn []) (error_frame StatusInternal msg) p.1.2 p.2.2)
   ∨ ∃ l pages (over : bool), range_of (abs init_db init_env) None None l ∧ ok_pages pages
       ∧ pages_bytes pages <= MaxRangeResponseBytes small_range
       ∧ wrote_out (some_conn []) (stream_of pages over) p.1.2 p.2.2
       ∧ if over then ∃ q rest, to_kv <$> l = concat pages ++ q :: rest
                        ∧ MaxRangeResponseBytes small_range < pages_bytes pages + 4 + zlen (wire_pair q)
         else to_kv <$> l = concat pages).
Proof.
  intros p. apply (handleRange_streams plain_text small_range full_mode (λ _, []) None None init_db init_env (some_conn []) p.1 p.2.1 p.2.2);
    [apply init_inv|done|decided|]. by rewrite <- !surjective_pairing.
Defined.

(** The same request where the cap bites. *)
Lemma small_range_overloads :
  let p := handleRange plain_text small_range true None None two_keys (some_conn []) in
  p.1 = (StatusOverload, Ok tt) ∧ c_out p.2.2 = stream_of [[mkKV [x61] [x31]]] true.
Proof. by vm_compute. Qed.
