(* ===== verification/Service.v ===== *)
(** * The server serves the map

    The response of every request as a function of the abstract map, the proof
    that the dispatcher gives it, and the connection loop: a conversation in
    which every frame that arrives is answered in order. *)
From S2P Require Import Prelude LogRecord Keydir Storage Frame Names Publish Manifest HintFile Log Recovery Db Invariant WritePath Rotation Compact Engine Writes Api WireFrame WireRequest WireResponse Server ServerSpec ServerRange.
Import Wire.

(** ** Mutations *)

(** The effect of a mutating request on the map. *)
Definition effect_of (req : Request) : option (kvmap → kvmap) :=
  match req with
  | PutRequest k v => Some (λ M, <[k := v]> M)
  | DeleteRequest k => Some (λ M, base.delete k M)
  | BatchRequest es => Some (spec_apply (writeKindBatch (engine_entry <$> es)))
  | _ => None
  end.

(** The status of a mutation that is refused without any effect. *)
Definition gate_status (db : DB) (req : Request) : option Z :=
  let gate := if closed db || writesDisabled db then Some StatusClosed else None in
  match req with
  | BatchRequest es =>
      if MaxBatchEncodedSize (opts db) <? recordHeaderSize + encodedBatchBodySize (engine_entry <$> es)
      then Some StatusBadRequest else gate
  | _ => gate
  end.

(** What a mutation with effect [f] did, and the frame that says so.  The one
    error after which the effect may be visible is a failed fsync, INTERNAL. *)
Definition mutation_response (m : mode) (f : kvmap → kvmap) (s : state) (status : Z) (frame : bytes) (s' : state) : Prop :=
  (status = StatusOK ∧ frame = frame_image StatusOK [] ∧ abs s'.1 s'.2 = f (abs s.1 s.2)
   ∧ (SyncOnPut (opts s.1) = true → m_durable m = true → all_durable s'.1 s'.2))
  ∨ (is_error_status status ∧ (∃ msg, frame = error_frame status msg)
     ∧ (abs s'.1 s'.2 = abs s.1 s.2 ∨ SyncOnPut (opts s.1) = true ∧ abs s'.1 s'.2 = f (abs s.1 s.2))).

(** ** All requests *)

Definition response (sopts : ServerOptions) (m : mode) (slot : bool) (req : Request) (s : state) (o : outcome)
    (frames : bytes) (s' : state) : Prop :=
  let db := s.1 in let M := abs s.1 s.2 in
  match effect_of req with
  | Some f => match gate_status db req with
              | Some status => o.1 = status ∧ s' = s ∧ ∃ msg, frames = error_frame status msg
              | None => mutation_response m f s o.1 frames s'
              end
  | None =>
    s'.1 = db ∧ e_disk s'.2 = e_disk s.2 ∧
    match req with
    | GetRequest k =>
        if closed db then o.1 = StatusClosed ∧ ∃ msg, frames = error_frame StatusClosed msg
        else match M !! k with
             | Some v => (o.1 = StatusOK ∧ frames = frame_image StatusOK (lenp v))
                         ∨ (¬ quiet s.2 ∧ o.1 = StatusInternal ∧ ∃ msg, frames = error_frame StatusInternal msg)
             | None => o.1 = StatusNotFound ∧ frames = error_frame StatusNotFound []
             end
    | StatsRequest => o.1 = StatusOK ∧
        ∃ onDisk, frames = frame_image StatusOK (EncodeStatsOK (to_u64 (Z.of_nat (base.size M))) onDisk)
    | ReadKeyRangeRequest start end_ => range_response sopts slot start end_ db s.2 o frames
    | _ => o.1 = StatusOK ∧ frames = frame_image StatusOK []
    end
  end.

(** ** Lemmas *)

Lemma wkey_key_ok k : wkey_ok k → key_ok k.
Proof. unfold wkey_ok, key_ok, maxKeyLen. wconsts. lia. Qed.
Lemma wval_value_ok v : wval_ok v ↔ value_ok v.
Proof. unfold wval_ok, value_ok, maxValLen. wconsts. lia. Qed.

Section service.
Context (Error_text : error → bytes) (sopts : ServerOptions).
Context (m : mode) (logs : logmap) (db : DB) (e : env).
Context (Hinv : db_inv m logs db e) (Hroom : has_room m db).

(** A refused mutation. *)
Lemma mutate_refused (op : M unit) err status c o s' c' :
  op (db, e) = (Err err, (db, e)) → (classifyEngineErr Error_text err).1 = status →
  mutate Error_text op (db, e) c = (o, (s', c')) →
  o.1 = status ∧ s' = (db, e) ∧ ∃ msg, wrote_out c (error_frame status msg) o.2 c'.
Proof using Type.
  intros Hop <-. unfold mutate. rewrite Hop. intros (H1 & -> & H3)%writeEngineErr_out.
  split; [done|]. split; [done|]. rewrite H1 in H3. by eexists.
Qed.

(** A mutation that reached the writer. *)
Lemma mutate_called (op : M unit) f r s1 c o s' c' :
  op (db, e) = (r, s1) → call_outcome m f db e r s1 →
  mutate Error_text op (db, e) c = (o, (s', c')) →
  (∃ logs', db_inv m logs' s'.1 s'.2) ∧ opts s'.1 = opts db
  ∧ ∃ frame, mutation_response m f (db, e) o.1 frame s' ∧ wrote_out c frame o.2 c'.
Proof using Type.
  intros Hop (Ho & _ & logs' & Hi & Hr). unfold mutate. rewrite Hop. destruct r as [[]|err].
  - intros H. eapply answer_out in H as (H1 & -> & H3); [|intros ??; apply writeFrame_out; decided].
    split; [by exists logs'|]. split; [done|]. eexists. split; [|exact H3]. left. destruct Hr as [Ha Hd]. done.
  - intros (H1 & -> & H3)%writeEngineErr_out. split; [by exists logs'|]. split; [done|]. eexists. split; [|exact H3]. right.
    split; [rewrite H1; apply classify_error|]. split; [by eexists|]. destruct Hr as [?|(? & _ & ?)]; [by left|by right].
Qed.

Lemma read_inv (s' : state) : s'.1 = db → e_disk s'.2 = e_disk e → (∃ logs', db_inv m logs' s'.1 s'.2) ∧ opts s'.1 = opts db.
Proof using Hinv.
  intros -> Hd. split; [|done]. exists logs. eapply (inv_framed (λ _, True)); [done| |done]. rewrite Hd.
  apply framed_refl, Hinv.
Qed.

(** The gate's error and its status. *)
Lemma gate_refused f r s1 :
  match submit_gate db with
  | Some err => r = Err err ∧ s1 = (db, e)
  | None => call_outcome m f db e r s1
  end →
  match (if closed db || writesDisabled db then Some StatusClosed else None) with
  | Some status => ∃ err, r = Err err ∧ s1 = (db, e) ∧ (classifyEngineErr Error_text err).1 = status
  | None => call_outcome m f db e r s1
  end.
Proof using Type.
  unfold submit_gate. destruct (closed db), (writesDisabled db); cbn [orb]; [| | |done]; intros [-> ->]; by eexists.
Qed.

Definition mutation_op (req : Request) : M unit :=
  match req with
  | PutRequest k v => Put k v
  | DeleteRequest k => Engine.Delete k
  | BatchRequest es => BatchPut (engine_entry <$> es)
  | _ => eret tt
  end.

Lemma batch_rejected_wire es :
  wrequest_ok (BatchRequest es) →
  batch_rejected db (engine_entry <$> es) =
    if MaxBatchEncodedSize (opts db) <? recordHeaderSize + encodedBatchBodySize (engine_entry <$> es)
    then Some (ESentinel ErrBatchTooLarge) else None.
Proof using Type.
  intros [Hn Hes]. unfold batch_rejected.
  assert (zlen (engine_entry <$> es) = zlen es) as -> by (unfold zlen; by rewrite length_fmap).
  change maxBatchEntries with (2 ^ 20). destruct (Z.ltb_spec (2 ^ 20) (zlen es)); [wconsts; lia|].
  assert (validate_entries (engine_entry <$> es) = None) as ->; [|done].
  apply validate_entries_ok, Forall_fmap. eapply Forall_impl; [exact Hes|]. intros x (Hk & Hv & _).
  split; [by apply wkey_key_ok|]. intros _. by apply wval_value_ok.
Qed.

Lemma mutation_call req f r s1 :
  effect_of req = Some f → wrequest_ok req →
  MaxBatchEncodedSize (opts db) <= recordHeaderSize + maxBatchBodyLen →
  mutation_op req (db, e) = (r, s1) →
  match gate_status db req with
  | Some status => ∃ err, r = Err err ∧ s1 = (db, e) ∧ (classifyEngineErr Error_text err).1 = status
  | None => call_outcome m f db e r s1
  end.
Proof using Hinv Hroom.
  intros Hf Hreq Hopt H. destruct req as [k v|k|k|es|start end_| |]; cbn [effect_of] in Hf; try done; injection Hf as <-;
    cbn [mutation_op] in H; unfold gate_status.
  - pose proof (Put_run _ _ _ _ _ _ _ _ Hinv Hroom H) as Hp. destruct Hreq as [Hk Hv].
    rewrite (proj2 (validateKeyValue_ok k v)) in Hp by (split; [by apply wkey_key_ok|by apply wval_value_ok]).
    cbn [refused] in Hp. apply gate_refused. destruct (submit_gate db); [done|]. apply Hp.
  - pose proof (Delete_run _ _ _ _ _ _ _ Hinv Hroom H) as Hp. apply wkey_key_ok in Hreq as [Hk1 Hk2].
    unfold delete_rejected in Hp. destruct (Z.eqb_spec (zlen k) 0); [lia|]. destruct (Z.ltb_spec maxKeyLen (zlen k)); [lia|].
    cbn [refused] in Hp. apply gate_refused. destruct (submit_gate db); [done|]. apply Hp.
  - pose proof (BatchPut_run _ _ _ _ _ _ _ Hinv Hroom Hopt H) as Hp. rewrite batch_rejected_wire in Hp by done.
    rewrite decide_False in Hp.
    2: { intros E%(f_equal length). rewrite length_fmap in E. destruct Hreq as [Hn _]. unfold zlen in Hn. cbn in E. lia. }
    destruct (MaxBatchEncodedSize (opts db) <? _); [destruct Hp as [-> ->]; by eexists|]. cbn [refused] in Hp.
    apply gate_refused. destruct (submit_gate db); [done|]. apply Hp.
Qed.

Lemma dispatch_mutation slot req f s c :
  effect_of req = Some f → dispatchOnce Error_text sopts slot req s c = mutate Error_text (mutation_op req) s c.
Proof using Type. by destruct req. Qed.

Lemma stats_size : KeyCount (db_Stats db) = to_u64 (Z.of_nat (base.size (abs db e))).
Proof using Hinv.
  unfold db_Stats. rewrite (di_open _ _ _ _ Hinv). cbn. unfold Keydir.size.
  rewrite (abs_logs _ _ _ _ Hinv). by rewrite map_size_fmap.
Qed.

Lemma get_response k c o s' c' slot :
  wkey_ok k → dispatchOnce Error_text sopts slot (GetRequest k) (db, e) c = (o, (s', c')) →
  s'.1 = db ∧ e_disk s'.2 = e_disk e ∧ ∃ frames, wrote_out c frames o.2 c' ∧
  (if closed db then o.1 = StatusClosed ∧ ∃ msg, frames = error_frame StatusClosed msg
   else match abs db e !! k with
        | Some v => (o.1 = StatusOK ∧ frames = frame_image StatusOK (lenp v))
                    ∨ (¬ quiet e ∧ o.1 = StatusInternal ∧ ∃ msg, frames = error_frame StatusInternal msg)
        | None => o.1 = StatusNotFound ∧ frames = error_frame StatusNotFound []
        end).
Proof using Hinv.
  intros [Hk _] H. cbn [dispatchOnce] in H. destruct (Get k (db, e)) as [r s1] eqn:E.
  destruct (Get_run _ _ _ _ _ _ _ Hinv E) as (D & De & Hr). destruct (Z.eqb_spec (zlen k) 0); [lia|].
  destruct (closed db).
  { subst r. change (errors_Is (ESentinel ErrDBClosed) ErrKeyNotFound) with false in H. cbv iota in H.
    apply writeEngineErr_out in H as (H1 & -> & H3). split; [done|]. split; [done|]. eexists. split; [exact H3|].
    split; [done|]. rewrite H1. by eexists. }
  destruct r as [v|err].
  - rewrite Hr. destruct (abs_key_value _ _ _ _ _ _ Hinv Hr) as [_ Hv]. apply wval_value_ok in Hv.
    rewrite EncodeGetOK_image in H by done.
    eapply answer_out in H as (H1 & -> & H3); [|intros ??; apply writeFrame_out; split; [decided|]; unfold wval_ok in Hv; wconsts; zl].
    split; [done|]. split; [done|]. eexists. split; [exact H3|]. by left.
  - destruct Hr as [[-> Hn]|(-> & [v Hv] & Hq)].
    + rewrite Hn. change (errors_Is (ESentinel ErrKeyNotFound) ErrKeyNotFound) with true in H. cbv iota in H.
      eapply answer_out in H as (H1 & -> & H3); [|intros ??; apply writeError_out; decided].
      split; [done|]. split; [done|]. eexists. by split; [exact H3|].
    + rewrite Hv. change (errors_Is _ ErrKeyNotFound) with false in H. cbv iota in H.
      apply writeEngineErr_out in H as (H1 & -> & H3). split; [done|]. split; [done|]. eexists. split; [exact H3|].
      right. split; [done|]. split; [exact H1|]. rewrite H1. by eexists.
Qed.

Lemma dispatchOnce_run slot req c o s' c' :
  wrequest_ok req → MaxBatchEncodedSize (opts db) <= recordHeaderSize + maxBatchBodyLen →
  0 <= MaxRangeResponseBytes sopts → dispatchOnce Error_text sopts slot req (db, e) c = (o, (s', c')) →
  (∃ logs', db_inv m logs' s'.1 s'.2) ∧ opts s'.1 = opts db
  ∧ ∃ frames, response sopts m slot req (db, e) o frames s' ∧ wrote_out c frames o.2 c'.
Proof using Hinv Hroom.
  intros Hreq Hopt Hcap H. destruct (effect_of req) as [f|] eqn:Hf.
  - rewrite (dispatch_mutation _ _ _ _ _ Hf) in H. destruct (mutation_op req (db, e)) as [r s1] eqn:Hop.
    pose proof (mutation_call req f r s1 Hf Hreq Hopt Hop) as Hc. unfold response. rewrite Hf. cbn [fst].
    destruct (gate_status db req) as [status|].
    + destruct Hc as (err & -> & -> & Hst). destruct (mutate_refused _ _ _ _ _ _ _ Hop Hst H) as (H1 & -> & msg & H2).
      destruct (read_inv (db, e)); [done..|]. split; [done|]. split; [done|]. eexists. split; [|exact H2]. by eauto.
    + by eapply mutate_called.
  - unfold response. rewrite Hf. cbn [fst snd]. destruct req as [k v|k|k|es|start end_| |]; try done.
    + destruct (get_response _ _ _ _ _ _ Hreq H) as (D & De & frames & Hw & Hr). destruct (read_inv s'); [done..|].
      split; [done|]. split; [done|]. exists frames. done.
    + destruct (handleRange_run _ _ _ _ _ _ _ _ _ _ _ _ _ Hinv Hcap H) as (D & De & frames & Hr & Hw).
      destruct (read_inv s'); [done..|]. split; [done|]. split; [done|]. exists frames. done.
    + eapply answer_out in H as (H1 & -> & H3); [|intros ??; apply writeFrame_out; decided].
      destruct (read_inv (db, e)); [done..|]. split; [done|]. split; [done|]. eexists. split; [|exact H3]. done.
    + eapply answer_out in H as (H1 & -> & H3); [|intros ??; apply writeFrame_out; split; [decided|]].
      2: { rewrite EncodeStatsOK_image. wconsts. zl. }
      destruct (read_inv (db, e)); [done..|]. split; [done|]. split; [done|]. eexists. split; [|exact H3].
      split; [done|]. split; [done|]. split; [done|]. eexists. cbn [fst snd]. by rewrite stats_size.
Qed.
End service.

(** ** One request *)

(** C12: the server answers for the map.  Whatever the request and the outcome of
    the system calls and writes, the bytes put on the connection are the response
    that the map prescribes, or that response cut by a connection failure: a
    mutation answered OK is applied, and durable with SyncOnPut; one answered with
    an error is not applied, unless SyncOnPut is on (a failed fsync); a closed
    or disabled engine refuses with CLOSED; Get answers the map's binding or
    NOT_FOUND; Stats counts the map's keys; the engine stays well formed. *)
Theorem dispatchOnce_refines Error_text sopts m logs slot req (db : DB) (e : env) c o s' c' :
  db_inv m logs db e → has_room m db → wrequest_ok req →
  MaxBatchEncodedSize (opts db) <= recordHeaderSize + maxBatchBodyLen → 0 <= MaxRangeResponseBytes sopts →
  dispatchOnce Error_text sopts slot req (db, e) c = (o, (s', c')) →
  (∃ logs', db_inv m logs' s'.1 s'.2)
  ∧ ∃ frames, response sopts m slot req (db, e) o frames s' ∧ wrote_out c frames o.2 c'.
Proof. intros Hi Hr Hq Ho Hc H. destruct (dispatchOnce_run _ _ _ _ _ _ Hi Hr _ _ _ _ _ _ Hq Ho Hc H) as (? & _ & ?). done. Qed.

Lemma init_room : has_room full_mode init_db.
Proof. split; [done|split; [done|intros _; done]]. Qed.

Lemma dispatchOnce_refines_witness :
  let req := PutRequest [x61] [x31] in
  let p := dispatchOnce plain_text small_range true req (init_db, init_env) (some_conn []) in
  p.1 = (StatusOK, Ok tt)
  ∧ (∃ logs', db_inv full_mode logs' p.2.1.1 p.2.1.2)
  ∧ ∃ frames, response small_range full_mode true req (init_db, init_env) p.1 frames p.2.1 ∧ wrote_out (some_conn []) frames p.1.2 p.2.2.
Proof.
  intros req p. split; [by vm_compute|].
  apply (dispatchOnce_refines plain_text small_range full_mode (λ _, []) true req init_db init_env (some_conn []) p.1 p.2.1 p.2.2);
    [apply init_inv|apply init_room|decided..|by rewrite <- !surjective_pairing].
Defined.

(** ** A connection *)

Section connection.
Context (Error_text : error → bytes) (sopts : ServerOptions) (slot : nat → bool).

(** The frames that arrive, with the bytes and the state each turn leaves. *)
Inductive conversation (m : mode) : nat → state → list (Z * bytes) → bytes → state → Prop :=
| conv_end n s : conversation m n s [] [] s
| conv_request n s tag body req o frames s1 rest out s2 :
    DecodeRequest tag body = Ok req → (∃ logs, db_inv m logs s.1 s.2) →
    o.2 = Ok tt → response sopts m (slot n) req s o frames s1 →
    conversation m (S n) s1 rest out s2 →
    conversation m n s ((tag, body) :: rest) (frames ++ out) s2
| conv_refused n s tag body err reason rest out s2 :
    DecodeRequest tag body = Err err → errors_As protocol_class err = Some reason →
    conversation m (S n) s rest out s2 →
    conversation m n s ((tag, body) :: rest) (error_frame StatusBadRequest (Error_text reason) ++ out) s2.

(** One turn of the loop on a frame. *)
Definition serve_frame (n : nat) (f : Z * bytes) (s : state) (c : conn) : result unit * srv_state :=
  match DecodeRequest f.1 f.2 with
  | Ok req => dispatch Error_text sopts (slot n) req s c
  | Err err => match errors_As protocol_class err with
               | None => (Err err, (s, c))
               | Some reason => let (r, c) := WriteError StatusBadRequest (Error_text reason) (conn_SetDeadline c).2 in (r, (s, c))
               end
  end.

Definition frames_image (frames : list (Z * bytes)) : bytes := concat ((λ f, frame_image f.1 f.2) <$> frames).

(** The clock and the ids suffice for every request of the conversation. *)
Fixpoint conn_room (m : mode) (tail : bytes) (n : nat) (frames : list (Z * bytes)) (s : state) (c : conn) : Prop :=
  match frames with
  | [] => True
  | f :: rest =>
      has_room m s.1 ∧
      let p := (serve_frame n f s (set_in (frames_image rest ++ tail) c)).2 in conn_room m tail (S n) rest p.1 p.2
  end.

Lemma ReadRequest_frame f rest c :
  frame_ok f.1 f.2 → c_in c = frame_image f.1 f.2 ++ rest →
  ReadRequest c = (DecodeRequest f.1 f.2, set_in rest c).
Proof using Type. intros Hf Hin. unfold ReadRequest. by rewrite (ReadFrame_image f.1 f.2 rest c Hf Hin). Qed.

(** A read error that ends the loop: never one that is answered. *)
Lemma ReadFrame_closes c err c' :
  c_end c = ESentinel io_EOF → ReadFrame c = (Err err, c') →
  errors_As protocol_class err = None ∧ c_out c' = c_out c.
Proof using Type.
  intros He. unfold ReadFrame, conn_ReadFull. rewrite He. cbn [String.eqb].
  destruct (ReadFull_cases 4 (c_in c) ltac:(lia)) as [(h & b & _ & Hh & ->)|[_ ->]]; cbn [c_in c_end set_in].
  2: { intros [= <- <-]. by destruct (c_in c). }
  destruct (be_get h <? 1); [by intros [= <- <-]|]. destruct (MaxFramePayload <? be_get h); [by intros [= <- <-]|].
  rewrite He. destruct (io_ReadFull (be_get h) b) as [[p [er|]] r2] eqn:E2; [|done]. intros [= <- <-].
  cbn [String.eqb]. split; [|done]. unfold io_ReadFull in E2. destruct (be_get h <=? 0); [done|].
  destruct b; [by injection E2 as _ <- _|]. destruct (zlen _ <? _); [|done]. by injection E2 as _ <- _.
Qed.

(** The input ends, or goes on with something that is not a frame. *)
Definition no_frame (tail : bytes) : Prop :=
  ∀ c, c_in c = tail → c_end c = ESentinel io_EOF → ∃ err c', ReadFrame c = (Err err, c').

Lemma SetDeadline_clear c : c_faults c = [] → conn_SetDeadline c = (Ok tt, c).
Proof using Type. intros H. unfold conn_SetDeadline, conn_call. by rewrite H. Qed.

Lemma serve_frame_run m logs n f (db : DB) (e : env) c r s' c' :
  db_inv m logs db e → has_room m db → MaxBatchEncodedSize (opts db) <= recordHeaderSize + maxBatchBodyLen →
  0 <= MaxRangeResponseBytes sopts → c_faults c = [] → serve_frame n f (db, e) c = (r, (s', c')) →
  r = Ok tt ∧ c_in c' = c_in c ∧ c_end c' = c_end c ∧ c_faults c' = []
  ∧ (∃ logs', db_inv m logs' s'.1 s'.2) ∧ opts s'.1 = opts db
  ∧ ∃ out, c_out c' = c_out c ++ out
     ∧ ∀ rest tl s2, conversation m (S n) s' rest tl s2 → conversation m n (db, e) (f :: rest) (out ++ tl) s2.
Proof using Type.
  intros Hi Hroom Hopt Hcap Hclear H. destruct f as [tag body]. unfold serve_frame in H. cbn [fst snd] in H.
  destruct (DecodeRequest tag body) as [req|err] eqn:Ed.
  - unfold dispatch in H. destruct (dispatchOnce _ _ _ _ _ _) as [o [s1 c1]] eqn:Eo. injection H as <- <- <-.
    pose proof (proj1 (proj2 (proj1 (DecodeRequest_iff _ _ _) Ed))) as Hreq.
    destruct (dispatchOnce_run _ _ _ _ _ _ Hi Hroom _ _ _ _ _ _ Hreq Hopt Hcap Eo) as (H1 & H2 & frames & Hr & (W1 & W2 & W3 & W4)).
    destruct (W4 Hclear) as [W5 W6]. rewrite W6 in W3. split; [done|]. split; [done|]. split; [done|]. split; [done|].
    split; [done|]. split; [done|]. exists frames. split; [done|]. intros rest tl s2 Hc.
    eapply conv_request; [done|by exists logs|done..].
  - destruct (DecodeRequest_error _ _ _ Ed) as [format ->].
    change (errors_As _ _) with (Some (errorf format)) in H. cbv iota in H. rewrite SetDeadline_clear in H by done. cbn [snd] in H.
    destruct (WriteError StatusBadRequest (Error_text (errorf format)) c) as [r1 c1] eqn:Ew. injection H as <- <- <-.
    apply WriteError_out in Ew as (W1 & W2 & W3 & W4); [|decided]. destruct (W4 Hclear) as [W5 W6]. rewrite W6 in W3.
    split; [done|]. split; [done|]. split; [done|]. split; [done|]. split; [by exists logs|]. split; [done|].
    eexists. split; [exact W3|]. intros rest tl s2 Hc. by eapply conv_refused.
Qed.

(** A turn of the loop that reads a frame serves it. *)
Lemma conn_loop_turn fuel n f rest s c :
  frame_ok f.1 f.2 → c_in c = frame_image f.1 f.2 ++ rest → c_faults c = [] →
  conn_loop Error_text sopts (λ _, false) slot (S fuel) n s c =
    match serve_frame n f s (set_in rest c) with
    | (Err _, sc) => sc
    | (Ok _, (s, c)) => conn_loop Error_text sopts (λ _, false) slot fuel (S n) s c
    end.
Proof using Type.
  intros Hf Hin Hc. cbn [conn_loop]. rewrite SetDeadline_clear by done. rewrite (ReadRequest_frame f rest) by done.
  unfold serve_frame. destruct (DecodeRequest f.1 f.2) as [req|err] eqn:Ed; [done|].
  destruct (DecodeRequest_error _ _ _ Ed) as [format ->].
  change (errors_Is _ io_EOF) with false. change (errors_As _ _) with (Some (errorf format)). cbv iota.
  by destruct (WriteError _ _ _) as [[] c1].
Qed.

Lemma conn_loop_frames m frames : ∀ fuel n logs (db : DB) (e : env) c tail s' c',
  db_inv m logs db e → MaxBatchEncodedSize (opts db) <= recordHeaderSize + maxBatchBodyLen →
  0 <= MaxRangeResponseBytes sopts → Forall (λ f, frame_ok f.1 f.2) frames → no_frame tail →
  c_in c = frames_image frames ++ tail → c_end c = ESentinel io_EOF → c_faults c = [] →
  conn_room m tail n frames (db, e) c → (length frames < fuel)%nat →
  conn_loop Error_text sopts (λ _, false) slot fuel n (db, e) c = (s', c') →
  ∃ out, conversation m n (db, e) frames out s' ∧ c_out c' = c_out c ++ out ∧ ∃ logs', db_inv m logs' s'.1 s'.2.
Proof using Type.
  induction frames as [|f frames IH]; intros fuel n logs db e c tail s' c' Hi Hopt Hcap Hok Htail Hin Hend Hclear Hroom Hfuel H.
  - destruct fuel as [|fuel]; [cbn in Hfuel; lia|]. cbn [conn_loop] in H. rewrite SetDeadline_clear in H by done.
    destruct (Htail c Hin Hend) as (err & c1 & Hr). pose proof (ReadFrame_closes _ _ _ Hend Hr) as [Hp Ho].
    unfold ReadRequest in H. rewrite Hr, Hp in H. exists []. rewrite app_nil_r.
    assert ((db, e) = s' ∧ c1 = c') as [<- <-] by (by destruct (errors_Is err io_EOF); injection H as <- <-).
    split; [constructor|]. split; [done|by exists logs].
  - apply Forall_cons in Hok as [Hf Hok]. destruct fuel as [|fuel]; [cbn in Hfuel; lia|].
    assert (Hin' : c_in c = frame_image f.1 f.2 ++ frames_image frames ++ tail) by (rewrite Hin; cbn; by rewrite <- app_assoc).
    rewrite (conn_loop_turn _ _ _ _ _ _ Hf Hin' Hclear) in H. destruct Hroom as [Hr Hroom].
    destruct (serve_frame n f (db, e) _) as [r [[db1 e1] c1]] eqn:Es.
    destruct (serve_frame_run m logs _ _ _ _ (set_in (frames_image frames ++ tail) c) _ _ _ Hi Hr Hopt Hcap Hclear Es)
      as (-> & W1 & W2 & W3 & [logs1 H1] & H2 & out & Wo & Hconv).
    cbn [fst snd] in *. destruct (IH fuel (S n) logs1 db1 e1 c1 tail s' c' H1) as (tl & Hc & Ho & Hl);
      [by rewrite H2|done|done|done|done|by rewrite W2|done|done|cbn in Hfuel; lia|exact H|].
    exists (out ++ tl). split; [by apply Hconv|]. split; [|done]. rewrite Ho, Wo. by rewrite <- app_assoc.
Qed.
End connection.

Lemma length_frames_image frames : (length frames <= length (frames_image frames))%nat.
Proof.
  unfold frames_image. induction frames as [|f frames IH]; [done|]. cbn [fmap list_fmap concat length] in *.
  rewrite length_app. unfold frame_image at 1. rewrite length_app, length_be_put. cbn [length]. lia.
Qed.

(** C11: a connection is a conversation with the map.  If the input is any list of
    well-formed frames followed by the end of the stream or by bytes that are no
    frame, the loop answers each frame, in order and on the state the previous
    ones left: a request with its response on the map, a frame that does not
    decode with BAD_REQUEST and no effect, after which the next frame is served
    as if nothing had happened; then it stops, having sent nothing else, and the
    engine is well formed.  The fuel is always enough. *)
Theorem handleConn_converses Error_text sopts slot m logs (db : DB) (e : env) frames tail c s' c' :
  db_inv m logs db e → MaxBatchEncodedSize (opts db) <= recordHeaderSize + maxBatchBodyLen →
  0 <= MaxRangeResponseBytes sopts → Forall (λ f, frame_ok f.1 f.2) frames → no_frame tail →
  c_in c = frames_image frames ++ tail → c_end c = ESentinel io_EOF → c_faults c = [] →
  conn_room Error_text sopts slot m tail 0 frames (db, e) c →
  handleConn Error_text sopts (λ _, false) slot (db, e) c = (s', c') →
  ∃ out, conversation Error_text sopts slot m 0 (db, e) frames out s' ∧ c_out c' = c_out c ++ out
    ∧ ∃ logs', db_inv m logs' s'.1 s'.2.
Proof.
  intros Hi Hopt Hcap Hok Htail Hin Hend Hclear Hroom H. unfold handleConn in H.
  eapply conn_loop_frames; [done..|exact Hroom| |exact H].
  rewrite Hin, length_app. pose proof (length_frames_image frames). lia.
Qed.

Lemma no_frame_nil : no_frame [].
Proof. intros c Hin Hend. unfold ReadFrame, conn_ReadFull. rewrite Hin, Hend. by do 2 eexists. Qed.

Definition some_frames : list (Z * bytes) :=
  [(OpPut, request_body (PutRequest [x61] [x31])); (OpGet, [x00]); (OpGet, request_body (GetRequest [x61]))].

Lemma handleConn_converses_witness :
  let c := some_conn (frames_image some_frames) in
  let p := handleConn plain_text small_range (λ _, false) (λ _, true) (init_db, init_env) c in
  c_out p.2 = frame_image StatusOK [] ++ error_frame StatusBadRequest (plain_text (errorf "")) ++ frame_image StatusOK (lenp [x31])
  ∧ ∃ out, conversation plain_text small_range (λ _, true) full_mode 0 (init_db, init_env) some_frames out p.1
      ∧ c_out p.2 = c_out c ++ out ∧ ∃ logs', db_inv full_mode logs' p.1.1 p.1.2.
Proof.
  intros c p. split; [by vm_compute|].
  apply (handleConn_converses plain_text small_range (λ _, true) full_mode (λ _, []) init_db init_env some_frames [] c p.1 p.2);
    [apply init_inv|decided|decided|decided|apply no_frame_nil|by rewrite app_nil_r|done|done| |apply surjective_pairing].
  vm_compute. repeat split; try discriminate; intros; discriminate.
Defined.
