(* ===== verification/Sessions.v ===== *)
(** * Many connections on one engine (server.go, the goroutines of Serve)

    Every connection has its own goroutine and they share the engine.  A step is
    one turn of a connection's loop, from its read deadline to its response, the
    arrival of a connection or the start of a shutdown, in any order.  A turn is
    one step because an engine call takes effect at one moment (WriterLoop for
    writes, Snapshot for reads) and the rest of it touches only the connection. *)
From S2P Require Import Prelude LogRecord Keydir Storage Frame Names Publish Manifest HintFile Log Recovery Db Invariant WritePath Rotation Compact Engine Writes Api WireFrame WireRequest WireResponse Server ServerSpec ServerRange Service.
Import Wire.

(** ** Turns *)

(** A connection, a frame it sent and the response to it. *)
Abbreviation event := (nat * (Z * bytes) * bytes)%type.

Section turns.
Context (Error_text : error → bytes) (sopts : ServerOptions).

(** One iteration of [handleConn]'s loop; the boolean says that it goes on. *)
Definition conn_turn (draining slot : bool) (s : state) (c : conn) : bool * srv_state :=
  if draining then (false, (s, (writeError StatusClosed (text "server shutting down") c).2))
  else match conn_SetDeadline c with
       | (Err _, c) => (false, (s, c))
       | (Ok _, c) =>
         match ReadRequest c with
         | (Err err, c) =>
           if errors_Is err io_EOF then (false, (s, c))
           else match errors_As protocol_class err with
                | None => (false, (s, c))
                | Some reason =>
                  let c := (conn_SetDeadline c).2 in
                  match WriteError StatusBadRequest (Error_text reason) c with
                  | (Err _, c) => (false, (s, c))
                  | (Ok _, c) => (true, (s, c))
                  end
                end
         | (Ok req, c) =>
           match dispatch Error_text sopts slot req s c with
           | (Err _, sc) => (false, sc)
           | (Ok _, sc) => (true, sc)
           end
         end
       end.

Lemma conn_loop_unfold draining slot fuel n s c :
  conn_loop Error_text sopts draining slot (S fuel) n s c =
    let '(go, (s', c')) := conn_turn (draining n) (slot n) s c in
    if go then conn_loop Error_text sopts draining slot fuel (S n) s' c' else (s', c').
Proof using Type.
  cbn [conn_loop]. unfold conn_turn. destruct (draining n); [done|]. destruct (conn_SetDeadline c) as [[]  c1]; [|done].
  destruct (ReadRequest c1) as [[req|err] c2].
  - by destruct (dispatch _ _ _ _ _ _) as [[] []].
  - destruct (errors_Is err io_EOF); [done|]. destruct (errors_As _ err); [|done]. by destruct (WriteError _ _ _) as [[] ?].
Qed.

(** ** The server *)

(** A connection: as it was accepted, as it is now, and whether it is served. *)
Record session_conn := mkSC { sc_start : conn; sc_conn : conn; sc_live : bool }.

Record server := mkServer {
  sv_db : state;
  sv_draining : bool;
  sv_conns : gmap nat session_conn;
}.

(** What a peer may send: frames, then the end or bytes that are no frame. *)
Definition sends (c : conn) (frames : list (Z * bytes)) (tail : bytes) : Prop :=
  Forall (λ f, frame_ok f.1 f.2) frames ∧ no_frame tail ∧ c_in c = frames_image frames ++ tail ∧ c_end c = ESentinel io_EOF.

(** An accepted connection gets its goroutine, unless the server is draining by
    then: it is closed at once. *)
Definition accept_conn (i : nat) (c : conn) (x : server) : server :=
  if sv_draining x then x
  else mkServer (sv_db x) (sv_draining x) (<[i := mkSC c c true]> (sv_conns x)).

(** Connection [i] takes a turn. *)
Definition serve_turn (i : nat) (slot : bool) (x : server) : server :=
  match sv_conns x !! i with
  | None => x
  | Some sc =>
      let '(go, (s, c)) := conn_turn (sv_draining x) slot (sv_db x) (sc_conn sc) in
      mkServer s (sv_draining x) (<[i := mkSC (sc_start sc) c go]> (sv_conns x))
  end.

(** Its blocked read fails. *)
Definition wake_conn (i : nat) (x : server) : server :=
  mkServer (sv_db x) (sv_draining x)
    (alter (λ sc, mkSC (sc_start sc) (sc_conn sc) false) i (sv_conns x)).

Definition drain (x : server) : server := mkServer (sv_db x) true (sv_conns x).

Definition is_served (x : server) (i : nat) : Prop := sc_live <$> sv_conns x !! i = Some true.

(** A shutdown wakes idle reads and, when its context expires, closes what is
    left; range slots go to whoever gets them. *)
Variant turn (room : DB → Prop) (x : server) : server → Prop :=
| turn_accept i c :
    sv_conns x !! i = None → c_out c = [] → c_end c = ESentinel io_EOF → turn room x (accept_conn i c x)
| turn_serve i slot : is_served x i → room (sv_db x).1 → turn room x (serve_turn i slot x)
| turn_wake i : sv_draining x = true → is_served x i → turn room x (wake_conn i x)
| turn_drain : turn room x (drain x).

Inductive turns (room : DB → Prop) : server → server → Prop :=
| turns_refl x : turns room x x
| turns_step x y z : turns room x y → turn room y z → turns room x z.

Lemma turns_serve room x0 x i slot :
  turns room x0 x → is_served x i → room (sv_db x).1 → turns room x0 (serve_turn i slot x).
Proof using Type. intros H Hi Hr. eapply turns_step; [exact H|by apply turn_serve]. Qed.

(** ** The specification *)

(** What answering a frame means on the map. *)
Definition answers (m : mode) (f : Z * bytes) (s : state) (out : bytes) (s' : state) : Prop :=
  match DecodeRequest f.1 f.2 with
  | Ok req => ∃ slot o, response sopts m slot req s o out s'
  | Err err => s' = s ∧ ∃ reason, errors_As protocol_class err = Some reason
                 ∧ out = error_frame StatusBadRequest (Error_text reason)
  end.

(** One after the other, each answered on the state the one before left. *)
Inductive serial (m : mode) (s : state) : list event → state → Prop :=
| serial_start : serial m s [] s
| serial_next evs s1 i f out s2 :
    serial m s evs s1 → (∃ logs, db_inv m logs s1.1 s1.2) → answers m f s1 out s2 → serial m s (evs ++ [(i, f, out)]) s2.

(** What the history has of one connection. *)
Definition events_of (i : nat) (evs : list event) : list event := filter (λ ev, ev.1.1 = i) evs.
Definition asked (i : nat) (evs : list event) : list (Z * bytes) := (λ ev, ev.1.2) <$> events_of i evs.
Definition answered (i : nat) (evs : list event) : bytes := concat (snd <$> events_of i evs).

Definition farewell : bytes := error_frame StatusClosed (text "server shutting down").

(** The connection's view of a history: its frames were answered in order, in
    full while it is served; one that has ended may be cut inside the last
    answer or have been told of the shutdown, and a healthy one was answered
    everything it sent unless there is a shutdown. *)
Definition view (draining : bool) (evs : list event) (i : nat) (sc : session_conn) : Prop :=
  ∃ rest tail, sends (sc_start sc) (asked i evs ++ rest) tail ∧
  if sc_live sc then
    c_in (sc_conn sc) = frames_image rest ++ tail ∧ c_end (sc_conn sc) = ESentinel io_EOF
    ∧ c_out (sc_conn sc) = answered i evs ∧ (c_faults (sc_start sc) = [] → c_faults (sc_conn sc) = [])
  else
    (c_out (sc_conn sc) `prefix_of` answered i evs
     ∨ draining = true ∧ ∃ p, p `prefix_of` farewell ∧ c_out (sc_conn sc) = answered i evs ++ p)
    ∧ (c_faults (sc_start sc) = [] → draining = false → rest = [] ∧ c_out (sc_conn sc) = answered i evs).

(** ** One turn *)

(** Every input is frames and then no frame. *)
Lemma input_splits (k : nat) : ∀ l : bytes, (length l < k)%nat →
  ∃ frames tail, Forall (λ f : Z * bytes, frame_ok f.1 f.2) frames ∧ no_frame tail ∧ l = frames_image frames ++ tail.
Proof using Type.
  induction k as [|k IH]; intros l Hk; [lia|]. destruct (ReadFrame (some_conn l)) as [[[tag body]|err] c1] eqn:E.
  - apply ReadFrame_inv in E as [Hf Hin]; [|by left]. cbn [c_in some_conn] in Hin.
    destruct (IH (c_in c1)) as (frames & tail & Hok & Ht & Hr).
    { rewrite Hin in Hk. unfold frame_image in Hk. rewrite !length_app, length_be_put in Hk. cbn in Hk. lia. }
    exists ((tag, body) :: frames), tail. split; [by constructor|]. split; [done|]. cbn. by rewrite Hin, Hr, <- app_assoc.
  - exists [], l. split; [constructor|]. split; [|done]. intros c Hin Hend.
    destruct (ReadFrame c) as [[[tag body]|err'] c2] eqn:E2; [|by do 2 eexists].
    apply ReadFrame_inv in E2 as [Hf Hin2]; [|by left]. rewrite Hin in Hin2.
    by rewrite (ReadFrame_image tag body (c_in c2) (some_conn l) Hf Hin2) in E.
Qed.

(** [c1] is [c] but for its script. *)
Definition same_stream (c c1 : conn) : Prop :=
  c_in c1 = c_in c ∧ c_end c1 = c_end c ∧ c_out c1 = c_out c ∧ (c_faults c = [] → c_faults c1 = []).

Lemma SetDeadline_same c r c1 :
  conn_SetDeadline c = (r, c1) → same_stream c c1 ∧ (c_faults c = [] → r = Ok tt).
Proof using Type.
  unfold conn_SetDeadline, conn_call, same_stream.
  destruct (c_faults c) as [|[n|] fs] eqn:E; intros [= <- <-]; cbn; by rewrite ?E.
Qed.

Lemma draining_turn slot s c go s' c' :
  conn_turn true slot s c = (go, (s', c')) → go = false ∧ s' = s ∧ ∃ p, p `prefix_of` farewell ∧ c_out c' = c_out c ++ p.
Proof using Type.
  cbn [conn_turn]. intros [= <- <- <-]. split; [done|]. split; [done|].
  destruct (writeError _ _ c) as [r c1] eqn:E. apply writeError_out in E as (_ & _ & H & _); [|decided].
  destruct r; [by exists farewell|done].
Qed.

Context (m : mode).

(** A frame that arrived is answered; what reaches the peer may be cut. *)
Lemma frame_turn logs (slot : bool) (f : Z * bytes) (db : DB) (e : env) c go s' c' :
  db_inv m logs db e → has_room m db → MaxBatchEncodedSize (opts db) <= recordHeaderSize + maxBatchBodyLen →
  0 <= MaxRangeResponseBytes sopts →
  match DecodeRequest f.1 f.2 with
  | Ok req => match dispatch Error_text sopts slot req (db, e) c with (Err _, sc) => (false, sc) | (Ok _, sc) => (true, sc) end
  | Err err => match errors_As protocol_class err with
               | None => (false, ((db, e), c))
               | Some reason =>
                 match WriteError StatusBadRequest (Error_text reason) (conn_SetDeadline c).2 with
                 | (Err _, c) => (false, ((db, e), c))
                 | (Ok _, c) => (true, ((db, e), c))
                 end
               end
  end = (go, (s', c')) →
  (∃ logs', db_inv m logs' s'.1 s'.2) ∧ opts s'.1 = opts db
  ∧ ∃ out p, answers m f (db, e) out s' ∧ p `prefix_of` out ∧ c_out c' = c_out c ++ p
    ∧ (c_faults c = [] → go = true ∧ c_faults c' = [])
    ∧ (go = true → p = out ∧ c_in c' = c_in c ∧ c_end c' = c_end c).
Proof using Type.
  intros Hi Hroom Hopt Hcap H. unfold answers. destruct (DecodeRequest f.1 f.2) as [req|err] eqn:Ed.
  - unfold dispatch in H. destruct (dispatchOnce _ _ _ _ _ _) as [o [s1 c1]] eqn:Eo.
    pose proof (proj1 (proj2 (proj1 (DecodeRequest_iff _ _ _) Ed))) as Hreq.
    destruct (dispatchOnce_run _ _ _ _ _ _ Hi Hroom _ _ _ _ _ _ Hreq Hopt Hcap Eo) as (H1 & H2 & frames & Hr & (W1 & W2 & W3 & W4)).
    assert (s1 = s' ∧ c1 = c' ∧ go = match o.2 with Ok _ => true | Err _ => false end) as (<- & <- & ->)
      by (destruct o.2; by injection H as <- <- <-).
    split; [done|]. split; [done|]. exists frames. destruct o as [st r]. cbn [snd] in *. destruct r as [[]|err].
    + exists frames. split; [by exists slot, (st, Ok tt)|]. split; [done|]. split; [done|]. split; [|done].
      intros Hc. by destruct (W4 Hc).
    + destruct W3 as (p & Hp & W3). exists p. split; [by exists slot, (st, Err err)|]. split; [done|]. split; [done|]. split; [|done].
      intros Hc. by destruct (W4 Hc).
  - destruct (DecodeRequest_error _ _ _ Ed) as [format ->].
    change (errors_As _ (asProtocolErr format)) with (Some (errorf format)) in *. cbv iota in H.
    destruct (conn_SetDeadline c) as [rd c1] eqn:Esd. apply SetDeadline_same in Esd as [(D1 & D2 & D3 & D4) _]. cbn [snd] in H.
    destruct (WriteError StatusBadRequest (Error_text (errorf format)) c1) as [r1 c2] eqn:Ew.
    apply WriteError_out in Ew as (W1 & W2 & W3 & W4); [|decided].
    assert ((db, e) = s' ∧ c2 = c' ∧ go = match r1 with Ok _ => true | Err _ => false end) as (<- & <- & ->)
      by (destruct r1; by injection H as <- <- <-).
    split; [by exists logs|]. split; [done|]. exists (error_frame StatusBadRequest (Error_text (errorf format))).
    destruct r1 as [[]|err].
    + eexists. split; [by eauto|]. split; [done|]. split; [by rewrite W3, D3|]. split; [|by rewrite W1, W2].
      intros Hc. by destruct (W4 (D4 Hc)).
    + destruct W3 as (p & Hp & W3). exists p. split; [by eauto|]. split; [done|]. split; [by rewrite W3, D3|]. split; [|done].
      intros Hc. by destruct (W4 (D4 Hc)).
Qed.

(** A turn answers the next frame, or ends the connection without any. *)
Lemma conn_turn_run logs (slot : bool) frames tail (db : DB) (e : env) c go s' c' :
  db_inv m logs db e → has_room m db → MaxBatchEncodedSize (opts db) <= recordHeaderSize + maxBatchBodyLen →
  0 <= MaxRangeResponseBytes sopts → Forall (λ f, frame_ok f.1 f.2) frames → no_frame tail →
  c_in c = frames_image frames ++ tail → c_end c = ESentinel io_EOF →
  conn_turn false slot (db, e) c = (go, (s', c')) →
  (go = false ∧ s' = (db, e) ∧ c_out c' = c_out c ∧ (c_faults c = [] → frames = []))
  ∨ ∃ f rest out p, frames = f :: rest ∧ answers m f (db, e) out s' ∧ (∃ logs', db_inv m logs' s'.1 s'.2) ∧ opts s'.1 = opts db
      ∧ p `prefix_of` out ∧ c_out c' = c_out c ++ p ∧ (c_faults c = [] → go = true ∧ c_faults c' = [])
      ∧ (go = true → p = out ∧ c_in c' = frames_image rest ++ tail ∧ c_end c' = c_end c).
Proof using Type.
  intros Hi Hroom Hopt Hcap Hok Ht Hin Hend. unfold conn_turn.
  destruct (conn_SetDeadline c) as [r1 c1] eqn:Esd. apply SetDeadline_same in Esd as [(D1 & D2 & D3 & D4) Dr].
  destruct r1 as [[]|err]; [|intros [= <- <- <-]; left; repeat (split; [done|]); by intros H%Dr].
  destruct frames as [|f rest].
  - destruct (Ht c1) as (err & c2 & Hr); [by rewrite D1|by rewrite D2|]. pose proof Hr as [Hp Ho]%ReadFrame_closes; [|by rewrite D2].
    unfold ReadRequest. rewrite Hr, Hp. intros H. left.
    assert (go = false ∧ s' = (db, e) ∧ c' = c2) as (-> & -> & ->) by (by destruct (errors_Is err io_EOF); injection H as <- <- <-).
    split; [done|]. split; [done|]. split; [congruence|done].
  - apply Forall_cons in Hok as [Hf Hok]. rewrite (ReadRequest_frame f (frames_image rest ++ tail)).
    2: done. 2: { rewrite D1, Hin. cbn. by rewrite <- app_assoc. }
    intros H. right. set (c2 := set_in (frames_image rest ++ tail) c1) in *.
    destruct (frame_turn logs slot f db e c2 go s' c' Hi Hroom Hopt Hcap) as (H1 & H2 & out & p & Ha & Hp & Ho & Hc & Hg).
    { destruct (DecodeRequest f.1 f.2) as [req|err] eqn:Ed; [exact H|]. destruct (DecodeRequest_error _ _ _ Ed) as [format ->].
      exact H. }
    exists f, rest, out, p. split; [done|]. split; [done|]. split; [done|]. split; [done|]. split; [done|].
    split; [by rewrite Ho, <- D3|]. split; [by intros Hx%D4; apply Hc|].
    intros Hgo. destruct (Hg Hgo) as (-> & H5 & H6). split; [done|]. split; [exact H5|]. by rewrite H6, <- D2.
Qed.

(** ** Histories *)

Lemma events_of_snoc i evs ev :
  events_of i (evs ++ [ev]) = if decide (ev.1.1 = i) then events_of i evs ++ [ev] else events_of i evs.
Proof using Type. unfold events_of. rewrite filter_app, filter_cons, filter_nil. case_decide; [done|]. by rewrite app_nil_r. Qed.
Lemma view_other draining evs ev i sc : ev.1.1 ≠ i → view draining evs i sc → view draining (evs ++ [ev]) i sc.
Proof using Type. intros Hne. unfold view, asked, answered. by rewrite events_of_snoc, decide_False by done. Qed.
Lemma view_drain draining evs i sc : view draining evs i sc → view true evs i sc.
Proof using Type.
  intros (rest & tail & Hs & H). exists rest, tail. split; [done|]. destruct (sc_live sc); [done|]. destruct H as [H _].
  split; [|done]. destruct H as [?|[_ ?]]; [by left|by right].
Qed.

Lemma asked_snoc i evs f out : asked i (evs ++ [(i, f, out)]) = asked i evs ++ [f].
Proof using Type. unfold asked. by rewrite events_of_snoc, decide_True, fmap_app by done. Qed.
Lemma answered_snoc i evs f out : answered i (evs ++ [(i, f, out)]) = answered i evs ++ out.
Proof using Type.
  unfold answered. rewrite events_of_snoc, decide_True, fmap_app, concat_app by done. cbn. by rewrite app_nil_r.
Qed.

(** The invariant of the server. *)
Record serving_inv (s0 : state) (x : server) (evs : list event) : Prop := {
  sv_serial : serial m s0 evs (sv_db x);
  sv_engine : ∃ logs, db_inv m logs (sv_db x).1 (sv_db x).2;
  sv_opts : opts (sv_db x).1 = opts s0.1;
  sv_views : ∀ i sc, sv_conns x !! i = Some sc → view (sv_draining x) evs i sc;
  sv_fresh : ∀ i, sv_conns x !! i = None → events_of i evs = [];
}.

Lemma accept_view draining evs i c :
  events_of i evs = [] → c_out c = [] → c_end c = ESentinel io_EOF → view draining evs i (mkSC c c true).
Proof using Type.
  intros He Ho Hend. destruct (input_splits (S (length (c_in c))) (c_in c)) as (frames & tail & Hok & Ht & Hin); [lia|].
  exists frames, tail. unfold asked, answered. rewrite He. by repeat split.
Qed.

Lemma sends_frames c frames f rest tail : sends c (frames ++ f :: rest) tail → sends c ((frames ++ [f]) ++ rest) tail.
Proof using Type. by rewrite <- app_assoc. Qed.

Lemma serve_view logs (draining slot : bool) evs i sc (db : DB) (e : env) go s' c' :
  db_inv m logs db e → has_room m db → MaxBatchEncodedSize (opts db) <= recordHeaderSize + maxBatchBodyLen →
  0 <= MaxRangeResponseBytes sopts → view draining evs i sc → sc_live sc = true →
  conn_turn draining slot (db, e) (sc_conn sc) = (go, (s', c')) →
  let sc' := mkSC (sc_start sc) c' go in
  (s' = (db, e) ∧ view draining evs i sc')
  ∨ ∃ f out, answers m f (db, e) out s' ∧ (∃ logs', db_inv m logs' s'.1 s'.2) ∧ opts s'.1 = opts db
      ∧ view draining (evs ++ [(i, f, out)]) i sc'.
Proof using Type.
  intros Hi Hroom Hopt Hcap (rest & tail & Hs & Hv) Hl H sc'. rewrite Hl in Hv. destruct Hv as (V1 & V2 & V3 & V4).
  destruct draining.
  { apply draining_turn in H as (-> & -> & p & Hp & Ho). left. split; [done|]. exists rest, tail. split; [done|].
    split; [|done]. right. split; [done|]. exists p. split; [done|]. by rewrite <- V3. }
  pose proof Hs as (Hok & Ht & _ & _). apply Forall_app in Hok as [_ Hok].
  destruct (conn_turn_run logs slot rest tail db e _ _ _ _ Hi Hroom Hopt Hcap Hok Ht V1 V2 H)
    as [(-> & -> & Ho & Hc)|(f & rest' & out & p & -> & Ha & Hi' & Hop & Hp & Ho & Hc & Hg)].
  - left. split; [done|]. exists rest, tail. split; [done|]. rewrite V3 in Ho. cbn. split; [left; by rewrite Ho|].
    intros Hf _. split; [by apply Hc, V4|done].
  - right. exists f, out. split; [done|]. split; [done|]. split; [done|]. exists rest', tail.
    rewrite asked_snoc, answered_snoc. split; [by apply sends_frames|]. cbn. rewrite V3 in Ho. destruct go.
    + destruct (Hg eq_refl) as (-> & G1 & G2). split; [done|]. split; [by rewrite G2|]. split; [done|].
      intros Hf. by apply Hc, V4.
    + split; [left; rewrite Ho; by apply prefix_app|]. intros Hf _. by destruct (Hc (V4 Hf)).
Qed.

(** A connection changes and no answer is added. *)
Lemma inv_quiet s0 x evs draining i sc' :
  serving_inv s0 x evs → (sv_draining x = draining ∨ draining = true) → view draining evs i sc' →
  serving_inv s0 (mkServer (sv_db x) draining (<[i := sc']> (sv_conns x))) evs.
Proof using Type.
  intros [H1 H2 H3 H4 H5] Hd Hv. split; [done|done|done| |]; cbn.
  - intros j sc [[<- <-]|[_ Hj]]%lookup_insert_Some; [done|]. destruct Hd as [<- | ->]; [by apply H4|].
    eapply view_drain. by apply H4.
  - intros j [Hj _]%lookup_insert_None. by apply H5.
Qed.

Lemma serve_inv s0 x i (slot : bool) evs :
  MaxBatchEncodedSize (opts s0.1) <= recordHeaderSize + maxBatchBodyLen → 0 <= MaxRangeResponseBytes sopts →
  serving_inv s0 x evs → is_served x i → has_room m (sv_db x).1 → ∃ evs', serving_inv s0 (serve_turn i slot x) (evs ++ evs').
Proof using Type.
  intros Hopt Hcap HI Hs Hr. pose proof HI as [H1 [logs H2] H3 H4 H5]. unfold is_served in Hs.
  apply fmap_Some in Hs as (sc & Hi & Hl). symmetry in Hl. pose proof (H4 i sc Hi) as Hv. unfold serve_turn. rewrite Hi.
  destruct x as [[db e] draining conns]. cbn [sv_db sv_draining sv_conns fst snd] in *. rewrite <- H3 in Hopt.
  destruct (conn_turn draining slot (db, e) (sc_conn sc)) as [go [s' c']] eqn:Ep.
  destruct (serve_view logs draining slot evs i sc db e go s' c' H2 Hr Hopt Hcap Hv Hl Ep) as [[-> Hv']|(f & out & Ha & Hi' & Ho & Hv')].
  - exists []. rewrite app_nil_r. apply (inv_quiet s0 (mkServer (db, e) draining conns)); [done|by left|done].
  - exists [(i, f, out)]. split; [by eapply serial_next; [|exists logs|]|done|cbn; by rewrite Ho| |]; cbn.
    + intros j sj [[<- <-]|[Hne Hj]]%lookup_insert_Some; [done|]. apply view_other; [done|by apply H4].
    + intros j [Hj Hne]%lookup_insert_None. rewrite events_of_snoc, decide_False by done. by apply H5.
Qed.

Lemma turn_inv s0 x y evs :
  MaxBatchEncodedSize (opts s0.1) <= recordHeaderSize + maxBatchBodyLen → 0 <= MaxRangeResponseBytes sopts →
  serving_inv s0 x evs → turn (has_room m) x y → ∃ evs', serving_inv s0 y (evs ++ evs').
Proof using Type.
  intros Hopt Hcap HI Ht. pose proof HI as [H1 H2 H3 H4 H5].
  destruct Ht as [i c Hi Hout Hend|i slot Hs Hr|i Hd Hs|]; [exists []; rewrite app_nil_r|by apply serve_inv|exists []; rewrite app_nil_r..].
  - unfold accept_conn. destruct (sv_draining x) eqn:Hd; [done|]. apply inv_quiet; [done|by left|]. apply accept_view; auto.
  - unfold is_served in Hs. apply fmap_Some in Hs as (sc & Hi & Hl). symmetry in Hl. unfold wake_conn.
    assert (alter (λ sc, mkSC (sc_start sc) (sc_conn sc) false) i (sv_conns x)
      = <[i := mkSC (sc_start sc) (sc_conn sc) false]> (sv_conns x)) as ->.
    { apply map_eq. intros j. destruct (decide (j = i)) as [->|Hne]; [by rewrite lookup_alter_eq, lookup_insert_eq, Hi|].
      by rewrite lookup_alter_ne, lookup_insert_ne by done. }
    apply inv_quiet; [done|by left|]. destruct (H4 i sc Hi) as (rest & tail & Hsd & Hv). rewrite Hl in Hv. destruct Hv as (_ & _ & V3 & _).
    exists rest, tail. split; [done|]. cbn. rewrite Hd. split; [|done]. right. split; [done|]. exists []. split; [apply prefix_nil|].
    by rewrite app_nil_r.
  - split; [done..| |done]. intros j sc Hj. eapply view_drain. by apply H4.
Qed.
Lemma turns_inv logs (db : DB) (e : env) x :
  db_inv m logs db e → MaxBatchEncodedSize (opts db) <= recordHeaderSize + maxBatchBodyLen →
  0 <= MaxRangeResponseBytes sopts → turns (has_room m) (mkServer (db, e) false ∅) x →
  ∃ evs, serving_inv (db, e) x evs.
Proof using Type.
  intros Hi Hopt Hcap Hx. remember (mkServer (db, e) false ∅) as x0 eqn:E0. revert E0.
  induction Hx as [x|x y z Hxy IH Ht]; intros ->.
  - exists []. split; [constructor|by exists logs|done| |done]. intros i sc. cbn. by rewrite lookup_empty.
  - destruct (IH eq_refl) as [evs Hy]. destruct (turn_inv (db, e) y z evs Hopt Hcap Hy Ht) as [evs' Hz]. by eexists.
Qed.
End turns.

(** C3: the server serialises its clients.  Any number of connections, each
    sending any bytes, arrive and are served in any interleaving of their turns,
    with write errors, malformed frames and a shutdown at any point: there is one
    history of all the frames answered, in which each is answered on the map the
    one before it left, whoever asked; each connection finds its own frames in it
    in the order it sent them and has been sent exactly those answers, the last
    one possibly cut if its writes failed; an unbroken connection that has ended
    without a shutdown was answered everything it sent; no connection's errors
    reach another; the engine is well formed. *)
Theorem server_serialises Error_text sopts m logs (db : DB) (e : env) (x : server) :
  db_inv m logs db e → MaxBatchEncodedSize (opts db) <= recordHeaderSize + maxBatchBodyLen →
  0 <= MaxRangeResponseBytes sopts →
  turns Error_text sopts (has_room m) (mkServer (db, e) false ∅) x →
  ∃ evs, serial Error_text sopts m (db, e) evs (sv_db x)
    ∧ (∃ logs', db_inv m logs' (sv_db x).1 (sv_db x).2)
    ∧ ∀ i sc, sv_conns x !! i = Some sc → view (sv_draining x) evs i sc.
Proof.
  intros Hi Hopt Hcap Hx. destruct (turns_inv Error_text sopts m logs db e x Hi Hopt Hcap Hx) as (evs & [H1 H2 _ H4 _]).
  by exists evs.
Qed.

(** One connection puts, another gets what it put and hangs up; a malformed frame
    of the first follows and the server is told to shut down. *)
Definition two_clients : server :=
  let c1 := some_conn (frames_image [(OpPut, request_body (PutRequest [x61] [x31])); (OpGet, [x00])]) in
  let c2 := some_conn (frames_image [(OpGet, request_body (GetRequest [x61]))]) in
  let turn := serve_turn plain_text small_range in
  wake_conn 1 (drain (turn 1%nat true (turn 2%nat true (turn 2%nat true (turn 1%nat true
    (accept_conn 2 c2 (accept_conn 1 c1 (mkServer (init_db, init_env) false ∅)))))))).

Lemma two_clients_turns : turns plain_text small_range (has_room full_mode) (mkServer (init_db, init_env) false ∅) two_clients.
Proof.
  unfold two_clients. eapply turns_step; [eapply turns_step; [|apply turn_drain]|apply turn_wake; by vm_compute].
  do 4 (apply turns_serve; [|by vm_compute|split; [by vm_compute|split; [done|intros _; by vm_compute]]]).
  eapply turns_step; [eapply turns_step; [apply turns_refl|]|]; apply turn_accept; by vm_compute.
Qed.

Lemma server_serialises_witness :
  (∃ sc, sv_conns two_clients !! 2%nat = Some sc ∧ sc_live sc = false ∧ c_out (sc_conn sc) = frame_image StatusOK (lenp [x31]))
  ∧ ∃ evs, serial plain_text small_range full_mode (init_db, init_env) evs (sv_db two_clients)
    ∧ (∃ logs', db_inv full_mode logs' (sv_db two_clients).1 (sv_db two_clients).2)
    ∧ ∀ i sc, sv_conns two_clients !! i = Some sc → view (sv_draining two_clients) evs i sc.
Proof.
  split; [eexists; split; [by vm_compute|by vm_compute]|].
  apply (server_serialises plain_text small_range full_mode (λ _, []) init_db init_env two_clients);
    [apply init_inv|decided|decided|apply two_clients_turns].
Defined.
