(* ===== verification/Lifecycle.v ===== *)
(** * The server's lifecycle (server.go, Serve and Shutdown)

    The accept loop, the goroutine of each connection, the slots of the range
    streams and Shutdown, as a step relation: a step is one atomic action or one
    critical section of [connsMu].  What a connection's goroutine answers in
    between is Server's [handleConn]. *)
From S2P Require Import Prelude Server.

(** ** The shared state *)

Abbreviation connId := nat.

(** The accept loop: in [Accept], with a connection not yet tracked, returned. *)
Variant serving := Accepting | Accepted (c : connId) | Returned (err : option error).

(** A connection's goroutine: in [handleConn], or past its deferred [c.Close],
    or past [untrackConn] too, with [wg.Done] still to run. *)
Variant handler := Handling | Closed | Untracked.

Variant shutting :=
| NotCalled
| Begun       (* draining is set *)
| Poked       (* the listener is closed and the idle reads are woken *)
| Forced      (* the context expired; every tracked connection is closed *)
| Done (err : option error).

Record lstate := mkL {
  l_draining : bool;
  l_listening : bool;
  l_serving : serving;
  l_conns : gset connId;
  l_handlers : gmap connId handler;
  l_shutting : shutting;
  l_poked : gset connId;
  l_streams : gset connId;
}.

Definition ctx_err : error := ESentinel "context deadline exceeded".

(** ** The actions *)

(** [Accept] returns an error. *)
Definition accept_failed (err : error) (x : lstate) : lstate :=
  mkL (l_draining x) (l_listening x)
    (Returned (if l_draining x then None else Some (EWrap "server: accept: %w" [err])))
    (l_conns x) (l_handlers x) (l_shutting x) (l_poked x) (l_streams x).
Definition accept_ok (c : connId) (x : lstate) : lstate :=
  mkL (l_draining x) (l_listening x) (Accepted c) (l_conns x) (l_handlers x) (l_shutting x) (l_poked x) (l_streams x).

(** The critical section after [Accept]: recheck, then track and count. *)
Definition track_conn (c : connId) (x : lstate) : lstate :=
  if l_draining x then
    mkL (l_draining x) (l_listening x) (Returned None) (l_conns x) (l_handlers x) (l_shutting x) (l_poked x) (l_streams x)
  else
    mkL (l_draining x) (l_listening x) Accepting ({[c]} ∪ l_conns x) (<[c := Handling]> (l_handlers x))
      (l_shutting x) (l_poked x) (l_streams x).

Definition set_handlers (h : gmap connId handler) (x : lstate) : lstate :=
  mkL (l_draining x) (l_listening x) (l_serving x) (l_conns x) h (l_shutting x) (l_poked x) (l_streams x).
Definition set_streams (l : gset connId) (x : lstate) : lstate :=
  mkL (l_draining x) (l_listening x) (l_serving x) (l_conns x) (l_handlers x) (l_shutting x) (l_poked x) l.
Definition set_shutting (p : shutting) (x : lstate) : lstate :=
  mkL (l_draining x) (l_listening x) (l_serving x) (l_conns x) (l_handlers x) p (l_poked x) (l_streams x).

(** The goroutine's deferred calls. *)
Definition handler_returns (c : connId) (x : lstate) : lstate := set_handlers (<[c := Closed]> (l_handlers x)) x.
Definition untrackConn (c : connId) (x : lstate) : lstate :=
  let x := set_handlers (<[c := Untracked]> (l_handlers x)) x in
  mkL (l_draining x) (l_listening x) (l_serving x) (l_conns x ∖ {[c]}) (l_handlers x) (l_shutting x) (l_poked x) (l_streams x).
Definition wg_done (c : connId) (x : lstate) : lstate := set_handlers (base.delete c (l_handlers x)) x.

(** A slot of [rangeSem]. *)
Definition take_slot (c : connId) (x : lstate) : lstate := set_streams ({[c]} ∪ l_streams x) x.
Definition give_slot (c : connId) (x : lstate) : lstate := set_streams (l_streams x ∖ {[c]}) x.

(** [Shutdown]: a second call is an error and changes nothing. *)
Definition shutdown_begins (x : lstate) : lstate :=
  mkL true (l_listening x) (l_serving x) (l_conns x) (l_handlers x) Begun (l_poked x) (l_streams x).
Definition shutdown_pokes (x : lstate) : lstate :=
  mkL (l_draining x) false (l_serving x) (l_conns x) (l_handlers x) Poked (l_conns x) (l_streams x).

Section steps.
Context (o : ServerOptions).

Variant lstep (x : lstate) : lstate → Prop :=
| l_accept c : l_serving x = Accepting → l_listening x = true → l_handlers x !! c = None → lstep x (accept_ok c x)
| l_accept_fails err : l_serving x = Accepting → lstep x (accept_failed err x)
| l_track c : l_serving x = Accepted c → l_handlers x !! c = None → lstep x (track_conn c x)
| l_returns c : l_handlers x !! c = Some Handling → c ∉ l_streams x → lstep x (handler_returns c x)
| l_untrack c : l_handlers x !! c = Some Closed → lstep x (untrackConn c x)
| l_wg_done c : l_handlers x !! c = Some Untracked → lstep x (wg_done c x)
| l_take c : l_handlers x !! c = Some Handling → c ∉ l_streams x →
    Z.of_nat (base.size (l_streams x)) < MaxConcurrentRangeStreams o → lstep x (take_slot c x)
| l_give c : c ∈ l_streams x → lstep x (give_slot c x)
| l_begin : l_draining x = false → lstep x (shutdown_begins x)
| l_poke : l_shutting x = Begun → lstep x (shutdown_pokes x)
| l_graceful : l_shutting x = Poked → l_handlers x = ∅ → lstep x (set_shutting (Done None) x)
| l_expires : l_shutting x = Poked → lstep x (set_shutting Forced x)
| l_forced : l_shutting x = Forced → l_handlers x = ∅ → lstep x (set_shutting (Done (Some ctx_err)) x).

Inductive lsteps : lstate → lstate → Prop :=
| lsteps_refl x : lsteps x x
| lsteps_step x y z : lsteps x y → lstep y z → lsteps x z.

(** After New and Bind, Serve running. *)
Definition bound : lstate := mkL false true Accepting ∅ ∅ NotCalled ∅ ∅.

(** ** The invariant *)

Definition after_poke (p : shutting) : Prop := match p with NotCalled | Begun => False | _ => True end.

Record life (x : lstate) : Prop := {
  (* a goroutine is tracked until it untracks itself *)
  lf_tracked : ∀ c, c ∈ l_conns x ↔ l_handlers x !! c = Some Handling ∨ l_handlers x !! c = Some Closed;
  lf_draining : l_draining x = true ↔ l_shutting x ≠ NotCalled;
  lf_poked : after_poke (l_shutting x) → l_conns x ⊆ l_poked x;
  lf_done : ∀ err, l_shutting x = Done err → l_handlers x = ∅;
  lf_streams : ∀ c, c ∈ l_streams x → l_handlers x !! c = Some Handling;
  lf_slots : Z.of_nat (base.size (l_streams x)) <= MaxConcurrentRangeStreams o;
}.

Lemma bound_life : 0 <= MaxConcurrentRangeStreams o → life bound.
Proof using Type. intros Ho. split; cbn; try done; set_solver. Qed.

(** A connection's goroutine goes on to the next of its deferred calls. *)
Lemma handlers_tracked (conns conns' : gset connId) (h : gmap connId handler) c p :
  (∀ c', c' ∈ conns ↔ h !! c' = Some Handling ∨ h !! c' = Some Closed) →
  (c ∈ conns' ↔ p = Handling ∨ p = Closed) → (∀ c', c' ≠ c → c' ∈ conns' ↔ c' ∈ conns) →
  ∀ c', c' ∈ conns' ↔ <[c := p]> h !! c' = Some Handling ∨ <[c := p]> h !! c' = Some Closed.
Proof using Type.
  intros H Hc Hne c'. destruct (decide (c' = c)) as [->|Hn].
  - rewrite lookup_insert_eq, Hc. split; intros [?|?]; simplify_eq; auto.
  - by rewrite lookup_insert_ne, (Hne c' Hn) by done.
Qed.
Lemma streams_insert (streams : gset connId) (h : gmap connId handler) c p :
  (∀ c', c' ∈ streams → h !! c' = Some Handling) → c ∉ streams → ∀ c', c' ∈ streams → <[c := p]> h !! c' = Some Handling.
Proof using Type. intros H Hc c' Hin. rewrite lookup_insert_ne; [by apply H|]. by intros ->. Qed.

Lemma lstep_life x y : life x → lstep x y → life y.
Proof using Type.
  intros [H1 H2 H3 H4 H5 H6] Hs.
  destruct Hs as [c Hs Hl Hn|err Hs|c Hs Hn|c Hc Hst|c Hc|c Hc|c Hc Hst Hz|c Hc|Hd|Hp|Hp He|Hp|Hp He].
  - by split.
  - by split.
  - unfold track_conn. destruct (l_draining x) eqn:Hd; [split; cbn; by rewrite ?Hd|].
    assert (l_shutting x = NotCalled) as Hnc
      by (destruct (l_shutting x); [done|by assert (false = true) by (apply H2; done)..]).
    split; cbn; rewrite ?Hnc in *.
    + apply (handlers_tracked (l_conns x)); [done|set_solver|set_solver].
    + done.
    + done.
    + done.
    + apply streams_insert; [done|]. intros Hin. apply H5 in Hin. congruence.
    + done.
  - split; cbn; [|done|done| | |done].
    + apply (handlers_tracked (l_conns x)); [done| |done]. rewrite H1, Hc. naive_solver.
    + intros err E. apply H4 in E. rewrite E in Hc. by rewrite lookup_empty in Hc.
    + by apply streams_insert.
  - split; cbn; [|done| | | |done].
    + apply (handlers_tracked (l_conns x)); [done|set_solver|set_solver].
    + intros Hp. specialize (H3 Hp). set_solver.
    + intros err E. apply H4 in E. rewrite E in Hc. by rewrite lookup_empty in Hc.
    + apply streams_insert; [done|]. intros Hin. apply H5 in Hin. congruence.
  - split; cbn; [|done|done| | |done].
    + intros c'. rewrite H1. destruct (decide (c' = c)) as [->|Hne]; [rewrite Hc, lookup_delete_eq|by rewrite lookup_delete_ne].
      naive_solver.
    + intros err E. apply H4 in E. by rewrite E, delete_empty.
    + intros c' Hin. specialize (H5 c' Hin). rewrite lookup_delete_ne; [done|]. intros ->. congruence.
  - split; cbn; [done|done|done|done| |].
    + intros c' [->%elem_of_singleton|Hin]%elem_of_union; [done|by apply H5].
    + rewrite size_union by set_solver. rewrite size_singleton. lia.
  - split; cbn; [done|done|done|done| |].
    + intros c' [Hin _]%elem_of_difference. by apply H5.
    + assert (base.size (l_streams x ∖ {[c]}) <= base.size (l_streams x))%nat by (apply subseteq_size; set_solver). lia.
  - split; cbn; done.
  - assert (l_draining x = true) as Hd by (apply H2; congruence). split; cbn; rewrite ?Hd; done.
  - assert (l_draining x = true) as Hd by (apply H2; congruence). split; cbn; rewrite ?Hd; try done. intros _. apply H3. by rewrite Hp.
  - assert (l_draining x = true) as Hd by (apply H2; congruence). split; cbn; rewrite ?Hd; try done. intros _. apply H3. by rewrite Hp.
  - assert (l_draining x = true) as Hd by (apply H2; congruence). split; cbn; rewrite ?Hd; try done. intros _. apply H3. by rewrite Hp.
Qed.

Lemma lsteps_life x y : lsteps x y → life x → life y.
Proof using Type. intros H Hx. induction H as [|x y z _ IH Hs]; [done|]. eapply lstep_life; [by apply IH|done]. Qed.

Lemma lstep_done x y err : life x → l_shutting x = Done err → lstep x y → l_shutting y = Done err.
Proof using Type.
  intros Hx Hd Hs. pose proof (lf_draining _ Hx) as H2. assert (l_draining x = true) as Hdr by (apply H2; congruence).
  destruct Hs; cbn; try congruence. unfold track_conn. by rewrite Hdr.
Qed.
Lemma lsteps_done x y err : lsteps x y → life x → l_shutting x = Done err → l_shutting y = Done err.
Proof using Type.
  intros H Hx Hd. induction H as [|x y z Hxy IH Hs]; [done|]. eapply lstep_done; [|by apply IH|exact Hs]. by eapply lsteps_life.
Qed.

(** C28: Shutdown leaves nobody running.  Under every interleaving of the accept
    loop, the connections' goroutines and Shutdown: every goroutine that is not
    past its deferred calls is tracked; once Shutdown has poked the idle reads, by
    a deadline in the past, it has poked those of every tracked connection; when it has returned, forced
    or not, no goroutine is left and none is ever started again; and the range
    streams in flight are connections being handled, within the cap. *)
Theorem Shutdown_complete x :
  0 <= MaxConcurrentRangeStreams o → lsteps bound x →
  (∀ c h, l_handlers x !! c = Some h → h ≠ Untracked → c ∈ l_conns x)
  ∧ (after_poke (l_shutting x) → l_conns x ⊆ l_poked x)
  ∧ (∀ err y, l_shutting x = Done err → lsteps x y → l_handlers y = ∅ ∧ l_shutting y = Done err)
  ∧ Z.of_nat (base.size (l_streams x)) <= MaxConcurrentRangeStreams o
  ∧ ∀ c, c ∈ l_streams x → l_handlers x !! c = Some Handling.
Proof using Type.
  intros Ho H. pose proof (lsteps_life _ _ H (bound_life Ho)) as Hx. split.
  { intros c h Hc Hne. apply (lf_tracked _ Hx). destruct h; [by left|by right|done]. }
  split; [apply Hx|]. split; [|split; apply Hx]. intros err y Hd Hy.
  pose proof (lsteps_done _ _ _ Hy Hx Hd) as Hdy. split; [|done]. eapply lf_done; [by eapply lsteps_life|exact Hdy].
Qed.
End steps.

(** One connection with a range stream, then a graceful Shutdown. *)
Definition streaming : lstate := shutdown_pokes (shutdown_begins (take_slot 1 (track_conn 1 (accept_ok 1 bound)))).
Definition drained : lstate :=
  set_shutting (Done None) (wg_done 1 (untrackConn 1 (handler_returns 1 (give_slot 1 streaming)))).
Definition one_slot : ServerOptions := mkServerOptions 0 0 1 0.

Lemma drained_steps : lsteps one_slot bound drained.
Proof.
  unfold drained, streaming.
  repeat (eapply lsteps_step; [|first
    [ apply l_graceful; [done|by apply (bool_decide_unpack _); vm_compute]
    | apply l_wg_done; by vm_compute | apply l_untrack; by vm_compute
    | apply l_returns; [by vm_compute|by apply (bool_decide_unpack _); vm_compute]
    | apply l_give; by apply (bool_decide_unpack _); vm_compute
    | by apply l_poke | by apply l_begin
    | apply l_take; [by vm_compute|by apply (bool_decide_unpack _); vm_compute|by vm_compute]
    | apply l_track; by vm_compute | apply l_accept; by vm_compute ]]).
  apply lsteps_refl.
Qed.

Lemma Shutdown_complete_witness :
  (∀ c h, l_handlers drained !! c = Some h → h ≠ Untracked → c ∈ l_conns drained)
  ∧ (after_poke (l_shutting drained) → l_conns drained ⊆ l_poked drained)
  ∧ (∀ err y, l_shutting drained = Done err → lsteps one_slot drained y → l_handlers y = ∅ ∧ l_shutting y = Done err)
  ∧ Z.of_nat (base.size (l_streams drained)) <= MaxConcurrentRangeStreams one_slot
  ∧ ∀ c, c ∈ l_streams drained → l_handlers drained !! c = Some Handling.
Proof. apply (Shutdown_complete one_slot drained); [done|apply drained_steps]. Defined.
