(* ===== verification/Client.v ===== *)
(** * The client library (src/internal/client/client.go)

    One connection to a server: a request is written and its response read, or
    the pages of a range up to their terminator.  [c_in] of the connection is what
    the server will have sent by the time it is read. *)
From S2P Require Import Prelude Server.
From S2P Require Import WireFrame WireRequest WireResponse.
Import Wire.

(** ** Options *)

Definition DefaultDialTimeout : Z := 5 * time_Second.
Definition DefaultRequestTimeout : Z := 30 * time_Second.

Record ClientOptions := mkClientOptions { DialTimeout : Z; RequestTimeout : Z }.

Definition withDefaults (o : ClientOptions) : ClientOptions :=
  mkClientOptions (if DialTimeout o <=? 0 then DefaultDialTimeout else DialTimeout o)
    (if RequestTimeout o <=? 0 then DefaultRequestTimeout else RequestTimeout o).

(** ** The client *)

(** [c.conn], nil once closed. *)
Record client := mkClient { cl_conn : option conn; cl_opts : ClientOptions }.

Definition NewClient (c : conn) (o : ClientOptions) : client := mkClient (Some c) (withDefaults o).
(** [Dial], where [net_DialTimeout] is [net.DialTimeout("tcp", ...)]. *)
Definition Dial (net_DialTimeout : bytes → Z → result conn) (addr : bytes) (o : ClientOptions) : result client :=
  let o := withDefaults o in
  match net_DialTimeout addr (DialTimeout o) with
  | Err err => Err (EWrap "client: dial %q: %w" [err])
  | Ok c => Ok (mkClient (Some c) o)
  end.

Definition set_conn (c : option conn) (cl : client) : client := mkClient c (cl_opts cl).

(** [net.Conn.Close], and [Close], after which the connection is gone even if that
    failed. *)
Definition conn_Close : conn → result unit * conn := conn_call Datatypes.id (λ _, Datatypes.id).

Definition Close (cl : client) : result unit * client :=
  match cl_conn cl with
  | None => (Ok tt, cl)
  | Some c => let (r, _) := conn_Close c in (r, set_conn None cl)
  end.

Definition ErrNotFound : string := "client: key not found".

(** A value or an error of the library. *)
Abbreviation reply A := (A + werror)%type.

Definition local {A} (e : error) : reply A := inr (WErr e).

Definition nil_conn : error := errorf "client: closed".

Definition setDeadlines (cl : client) : result unit * client :=
  match cl_conn cl with
  | None => (Err nil_conn, cl)
  | Some c => let (r, c) := conn_SetDeadline c in (r, set_conn (Some c) cl)
  end.

Definition clearDeadlines (cl : client) : client :=
  match cl_conn cl with
  | None => cl
  | Some c => set_conn (Some (conn_SetDeadline c).2) cl
  end.

(** [c.conn.Write] and [wire.ReadFrame(c.conn)]. *)
Definition on_conn {A} (f : conn → result A * conn) (cl : client) : result A * client :=
  match cl_conn cl with
  | None => (Err nil_conn, cl)
  | Some c => let (r, c) := f c in (r, set_conn (Some c) cl)
  end.

Definition roundTripUnary (req : Request) (cl : client) : result (Z * bytes) * client :=
  match setDeadlines cl with
  | (Err err, cl) => (Err err, cl)
  | (Ok _, cl) =>
    let (r, cl) :=
      match EncodeRequest req with
      | Err err => (Err err, cl)
      | Ok frame =>
        match on_conn (conn_Write frame) cl with
        | (Err err, cl) => (Err err, cl)
        | (Ok _, cl) => on_conn ReadFrame cl
        end
      end in
    (r, clearDeadlines cl)
  end.

Definition statusToErr (status : Z) (body : bytes) : option werror :=
  if status =? StatusOK then None
  else match DecodeError body with
       | Err derr => Some (WErr derr)
       | Ok msg => Some (RemoteError status msg)
       end.

(** ** The unary calls *)

(** A call whose response carries nothing. *)
Definition simple_call (req : Request) (cl : client) : reply unit * client :=
  match roundTripUnary req cl with
  | (Err err, cl) => (local err, cl)
  | (Ok (status, body), cl) =>
      (match statusToErr status body with None => inl tt | Some e => inr e end, cl)
  end.

Definition Put (key value : bytes) : client → reply unit * client := simple_call (PutRequest key value).
Definition Delete (key : bytes) : client → reply unit * client := simple_call (DeleteRequest key).
Definition Batch (entries : list BatchEntry) : client → reply unit * client := simple_call (BatchRequest entries).
Definition Ping : client → reply unit * client := simple_call PingRequest.

Definition of_result {A} (r : result A) : reply A :=
  match r with Ok a => inl a | Err err => local err end.

(** The error of a non-OK response; OK, which it is not called with, gives a nil
    error and the zero value. *)
Definition status_reply {A} (zero : A) (status : Z) (body : bytes) : reply A :=
  match statusToErr status body with None => inl zero | Some e => inr e end.

Definition Get (key : bytes) (cl : client) : reply bytes * client :=
  match roundTripUnary (GetRequest key) cl with
  | (Err err, cl) => (local err, cl)
  | (Ok (status, body), cl) =>
      (if status =? StatusNotFound then local (ESentinel ErrNotFound)
       else if negb (status =? StatusOK) then status_reply [] status body
       else of_result (DecodeGetOK body), cl)
  end.

Definition Stats (cl : client) : reply (Z * Z) * client :=
  match roundTripUnary StatsRequest cl with
  | (Err err, cl) => (local err, cl)
  | (Ok (status, body), cl) =>
      (if negb (status =? StatusOK) then status_reply (0, 0) status body
       else of_result (DecodeStatsOK body), cl)
  end.

(** ** Ranges *)

(** The frame loop; [None] is success. *)
Fixpoint range_loop {A} (fuel : nat) (pageFn : list KV → A → bool * A) (a : A) (cl : client)
    : option werror * A * client :=
  match fuel with
  | O => (Some (WErr (errorf "out of fuel")), a, cl)
  | S fuel' =>
    match on_conn conn_SetDeadline cl with
    | (Err err, cl) => (Some (WErr err), a, clearDeadlines cl)
    | (Ok _, cl) =>
      match on_conn ReadFrame cl with
      | (Err err, cl) => (Some (WErr err), a, clearDeadlines cl)
      | (Ok (status, fbody), cl) =>
        if negb (status =? StatusOK) then
          let cl := clearDeadlines cl in
          match DecodeError fbody with
          | Err derr => (Some (WErr derr), a, cl)
          | Ok msg => (Some (RemoteError status msg), a, cl)
          end
        else match DecodeRangeFrame fbody with
             | Err err => (Some (WErr err), a, clearDeadlines cl)
             | Ok (_, true) => (None, a, clearDeadlines cl)
             | Ok (pairs, false) =>
               let (go, a) := pageFn pairs a in
               if go then range_loop fuel' pageFn a cl
               else (Some (WErr (ESentinel ErrStreamStopped)), a, cl)
             end
      end
    end
  end.

Definition client_in (cl : client) : bytes := match cl_conn cl with Some c => c_in c | None => [] end.

Definition ReadKeyRange {A} (start end_ : option bytes) (pageFn : option (list KV → A → bool * A)) (a : A) (cl : client)
    : option werror * A * client :=
  match pageFn with
  | None => (Some (WErr (errorf "client: ReadKeyRange pageFn must not be nil")), a, cl)
  | Some pageFn =>
    match setDeadlines cl with
    | (Err err, cl) => (Some (WErr err), a, cl)
    | (Ok _, cl) =>
      match EncodeRequest (ReadKeyRangeRequest start end_) with
      | Err err => (Some (WErr err), a, clearDeadlines cl)
      | Ok frame =>
        match on_conn (conn_Write frame) cl with
        | (Err err, cl) => (Some (WErr err), a, clearDeadlines cl)
        | (Ok _, cl) => range_loop (S (length (client_in cl))) pageFn a cl
        end
      end
    end
  end.
