(* ===== verification/EndToEnd.v ===== *)
(** * Client, wire, server and engine together

    What a call of the client returns when its connection delivers the server's
    response: the operation on the server's abstract map, or the server's error. *)
From S2P Require Import Prelude LogRecord Keydir Storage Frame Names Publish Manifest HintFile Log Recovery Db Invariant WritePath Rotation Compact Engine Writes Api WireFrame WireRequest WireResponse Server ServerSpec ServerRange Service Client.
Import Wire.

(** ** Calls by request *)

Inductive result_of_call :=
| RUnit (r : reply unit)
| RValue (r : reply bytes)
| RStats (r : reply (Z * Z))
| RPairs (pairs : list KV) (err : option werror).

(** A range call that keeps every pair it is given. *)
Definition collect (ps acc : list KV) : bool * list KV := (true, acc ++ ps).

Definition call (req : Request) (cl : client) : result_of_call * client :=
  match req with
  | PutRequest k v => let (r, cl) := Client.Put k v cl in (RUnit r, cl)
  | GetRequest k => let (r, cl) := Client.Get k cl in (RValue r, cl)
  | DeleteRequest k => let (r, cl) := Client.Delete k cl in (RUnit r, cl)
  | BatchRequest es => let (r, cl) := Batch es cl in (RUnit r, cl)
  | PingRequest => let (r, cl) := Ping cl in (RUnit r, cl)
  | StatsRequest => let (r, cl) := Client.Stats cl in (RStats r, cl)
  | ReadKeyRangeRequest start end_ =>
      let '(err, ps, cl) := Client.ReadKeyRange start end_ (Some collect) [] cl in (RPairs ps err, cl)
  end.

(** ** What the caller learns *)

Definition remote {A} (status : Z) (msg : bytes) : reply A := inr (RemoteError status (truncated msg)).

Definition outcome_of (sopts : ServerOptions) (m : mode) (slot : bool) (req : Request) (s s' : state) (r : result_of_call) : Prop :=
  let db := s.1 in let M := abs s.1 s.2 in
  match effect_of req with
  | Some f =>
    match gate_status db req with
    | Some status => s' = s ∧ ∃ msg, r = RUnit (remote status msg)
    | None =>
      (r = RUnit (inl tt) ∧ abs s'.1 s'.2 = f M ∧ (SyncOnPut (opts db) = true → m_durable m = true → all_durable s'.1 s'.2))
      ∨ (∃ status msg, r = RUnit (remote status msg))
        ∧ (abs s'.1 s'.2 = M ∨ SyncOnPut (opts db) = true ∧ abs s'.1 s'.2 = f M)
    end
  | None =>
    s'.1 = db ∧ e_disk s'.2 = e_disk s.2 ∧
    match req with
    | GetRequest k =>
      if closed db then ∃ msg, r = RValue (remote StatusClosed msg)
      else match M !! k with
           | Some v => r = RValue (inl v) ∨ ¬ quiet s.2 ∧ ∃ msg, r = RValue (remote StatusInternal msg)
           | None => r = RValue (inr (WErr (ESentinel ErrNotFound)))
           end
    | StatsRequest => ∃ onDisk, r = RStats (inl (to_u64 (Z.of_nat (base.size M)), onDisk))
    | ReadKeyRangeRequest start end_ =>
      if negb slot then ∃ msg, r = RPairs [] (Some (RemoteError StatusOverload msg))
      else if closed db then ∃ msg, r = RPairs [] (Some (RemoteError StatusClosed msg))
      else (¬ quiet s.2 ∧ ∃ msg, r = RPairs [] (Some (RemoteError StatusInternal msg)))
        ∨ ∃ l, range_of M start end_ l ∧
            (r = RPairs (to_kv <$> l) None
             ∨ ∃ ps rest msg, to_kv <$> l = ps ++ rest ∧ rest ≠ [] ∧ r = RPairs ps (Some (RemoteError StatusOverload msg)))
    | _ => r = RUnit (inl tt)
    end
  end.

(** ** Lemmas *)

Section client.
Context (cl : client) (c : conn) (Hcl : cl_conn cl = Some c) (Hclear : c_faults c = []).

(** The client after a call that wrote [frame] and left [rest] unread. *)
Definition after_call (frame rest : bytes) : client :=
  set_conn (Some (mkConn rest (c_end c) (c_out c ++ frame) [])) cl.

Lemma setDeadlines_clear : setDeadlines cl = (Ok tt, cl).
Proof using Hcl Hclear.
  unfold setDeadlines. rewrite Hcl, SetDeadline_clear by done. destruct cl; cbn in *. by subst.
Qed.

Lemma on_conn_open {A} (f : conn → result A * conn) : on_conn f cl = let (r, c) := f c in (r, set_conn (Some c) cl).
Proof using Hcl. unfold on_conn. by rewrite Hcl. Qed.

Lemma roundTrip_frame req frame tag body rest :
  EncodeRequest req = Ok frame → frame_ok tag body → c_in c = frame_image tag body ++ rest →
  roundTripUnary req cl = (Ok (tag, body), after_call frame rest).
Proof using Hcl Hclear.
  intros Hf Hb Hin. unfold roundTripUnary. rewrite setDeadlines_clear, Hf, on_conn_open.
  rewrite conn_Write_clear by done. unfold on_conn. cbn [cl_conn set_conn].
  rewrite (ReadFrame_image tag body rest) by done. unfold clearDeadlines. cbn [cl_conn set_conn].
  rewrite SetDeadline_clear by done. cbn [snd]. unfold after_call, set_in, send. cbn. by rewrite Hclear.
Qed.

(** The two shapes of a unary response. *)
Lemma simple_call_ok req frame rest :
  EncodeRequest req = Ok frame → c_in c = frame_image StatusOK [] ++ rest →
  simple_call req cl = (inl tt, after_call frame rest).
Proof using Hcl Hclear.
  intros Hf Hin. unfold simple_call. by rewrite (roundTrip_frame _ _ StatusOK [] rest Hf ltac:(decided) Hin).
Qed.

Lemma statusToErr_envelope status msg :
  is_error_status status → statusToErr status (envelope (truncated msg)) = Some (RemoteError status (truncated msg)).
Proof using Type.
  intros [Hu Hs]. unfold statusToErr. destruct (Z.eqb_spec status StatusOK); [done|].
  rewrite (proj2 (DecodeError_iff _ (truncated msg))); [done|]. split; [apply zlen_truncated|done].
Qed.

Lemma roundTrip_error req frame status msg rest :
  EncodeRequest req = Ok frame → is_error_status status → c_in c = error_frame status msg ++ rest →
  roundTripUnary req cl = (Ok (status, envelope (truncated msg)), after_call frame rest).
Proof using Hcl Hclear.
  intros Hf Hs Hin. apply roundTrip_frame; [done| |done]. by apply envelope_frame_ok, error_frame_ok.
Qed.

Lemma simple_call_error req frame status msg rest :
  EncodeRequest req = Ok frame → is_error_status status → c_in c = error_frame status msg ++ rest →
  simple_call req cl = (remote status msg, after_call frame rest).
Proof using Hcl Hclear.
  intros Hf Hs Hin. unfold simple_call. rewrite (roundTrip_error _ _ _ _ _ Hf Hs Hin). by rewrite statusToErr_envelope.
Qed.
End client.

Lemma ReadFrame_faults c r c' : ReadFrame c = (r, c') → c_faults c' = c_faults c ∧ c_end c' = c_end c ∧ c_out c' = c_out c.
Proof.
  unfold ReadFrame, conn_ReadFull. destruct (io_ReadFull 4 (c_in c)) as [[h [er|]] rest]; [by intros [= <- <-]|].
  cbn [c_in c_end set_in]. destruct (be_get h <? 1); [by intros [= <- <-]|].
  destruct (MaxFramePayload <? be_get h); [by intros [= <- <-]|].
  destruct (io_ReadFull (be_get h) rest) as [[p [er|]] rest2]; by intros [= <- <-].
Qed.

(** On a healthy connection the client's loop is the stream reader. *)
Lemma range_loop_stream {A} (pageFn : list KV → A → bool * A) fuel : ∀ a cl c,
  cl_conn cl = Some c → c_faults c = [] →
  range_loop fuel pageFn a cl = let '(o, a, c') := stream_loop fuel pageFn a c in (o, a, set_conn (Some c') cl).
Proof.
  induction fuel as [|fuel IH]; intros a cl c Hcl Hc; cbn [range_loop stream_loop].
  { destruct cl; cbn in *. by subst. }
  rewrite (on_conn_open cl c Hcl), SetDeadline_clear by done.
  rewrite (on_conn_open _ c) by done. destruct (ReadFrame c) as [r c1] eqn:Er.
  apply ReadFrame_faults in Er as (Hf & _). rewrite Hc in Hf.
  assert (Hclr : clearDeadlines (set_conn (Some c1) (set_conn (Some c) cl)) = set_conn (Some c1) cl).
  { unfold clearDeadlines. cbn [cl_conn set_conn]. by rewrite SetDeadline_clear. }
  destruct r as [[status fbody]|err]; [|by rewrite Hclr]. destruct (negb (status =? StatusOK)).
  - rewrite Hclr. by destruct (DecodeError fbody).
  - destruct (DecodeRangeFrame fbody) as [[ps [|]]|]; [by rewrite Hclr| |by rewrite Hclr].
    destruct (pageFn ps a) as [[] a1]; [|done]. by rewrite (IH a1 _ c1).
Qed.

Lemma feed_collect pages : ∀ acc, feed collect pages acc = (true, acc ++ concat pages).
Proof.
  induction pages as [|ps pages IH]; intros acc; cbn [feed concat]; [by rewrite app_nil_r|].
  unfold collect at 1. by rewrite IH, <- app_assoc.
Qed.

Lemma range_call cl c start end_ frame pages tail err rest :
  cl_conn cl = Some c → c_faults c = [] → EncodeRequest (ReadKeyRangeRequest start end_) = Ok frame →
  ok_pages pages → c_in c = page_frames pages ++ tail →
  (∀ fuel a c1, c_in c1 = tail → stream_loop (S fuel) collect a c1 = (err, a, set_in rest c1)) → tail ≠ [] →
  Client.ReadKeyRange start end_ (Some collect) [] cl = (err, concat pages, after_call cl c frame rest).
Proof.
  intros Hcl Hc Hf Hok Hin Htail Hne. unfold Client.ReadKeyRange. rewrite (setDeadlines_clear cl c) by done.
  rewrite Hf, (on_conn_open cl c) by done. rewrite conn_Write_clear by done.
  rewrite (range_loop_stream _ _ _ _ (send frame c)) by done.
  cbn [client_in cl_conn set_conn]. change (c_in (send frame c)) with (c_in c).
  assert (Hlen : (length pages < length (c_in c))%nat).
  { rewrite Hin, length_app. assert (length pages <= length (page_frames pages))%nat.
    { clear. induction pages as [|ps pages IH]; [done|]. rewrite page_frames_cons, length_app. unfold frame_image.
      rewrite length_app, length_be_put. cbn. lia. }
    destruct tail; [done|]. cbn. lia. }
  rewrite (stream_loop_pages collect pages _ [] (concat pages) (send frame c) tail); [|eapply Forall_impl; [exact Hok|by intros ? []]|done|by rewrite feed_collect|lia].
  replace (S (length (c_in c)) - length pages)%nat with (S (length (c_in c) - length pages)) by lia.
  rewrite Htail by done. unfold after_call, set_in, send. cbn. by rewrite Hc.
Qed.

Lemma stream_end_frame rest fuel a c1 :
  c_in c1 = end_frame ++ rest → stream_loop (S fuel) collect a c1 = (None, a, set_in rest c1).
Proof. apply stream_loop_end. Qed.
Lemma stream_error_frame status msg rest fuel a c1 :
  is_error_status status → c_in c1 = error_frame status msg ++ rest →
  stream_loop (S fuel) collect a c1 = (Some (RemoteError status (truncated msg)), a, set_in rest c1).
Proof. intros Hs. apply stream_loop_error. by apply error_frame_ok. Qed.

(** ** A call *)

Section call.
Context (sopts : ServerOptions) (m : mode) (logs : logmap) (slot : bool) (s s' : state).
Context (Hinv : db_inv m logs s.1 s.2) (Hcap : 0 <= MaxRangeResponseBytes sopts).
Context (cl : client) (c : conn) (Hcl : cl_conn cl = Some c) (Hclear : c_faults c = []).
Context (frame frames rest : bytes) (Hin : c_in c = frames ++ rest).
Abbreviation cl' := (after_call cl c frame rest).

(** The error responses, whatever the call. *)
Lemma get_error k status msg :
  EncodeRequest (GetRequest k) = Ok frame → is_error_status status → status ≠ StatusNotFound →
  frames = error_frame status msg → Client.Get k cl = (remote status msg, cl').
Proof using Hcl Hclear Hin.
  intros Hf Hs Hn ->. unfold Client.Get. rewrite (roundTrip_error cl c Hcl Hclear _ _ _ _ _ Hf Hs Hin).
  destruct (Z.eqb_spec status StatusNotFound); [done|]. destruct (Z.eqb_spec status StatusOK); [by destruct Hs|].
  cbn [negb]. unfold status_reply. by rewrite statusToErr_envelope.
Qed.

Lemma range_error start end_ status msg :
  EncodeRequest (ReadKeyRangeRequest start end_) = Ok frame → is_error_status status → frames = error_frame status msg →
  Client.ReadKeyRange start end_ (Some collect) [] cl = (Some (RemoteError status (truncated msg)), [], cl').
Proof using Hcl Hclear Hin.
  intros Hf Hs ->. apply (range_call cl c start end_ frame [] (error_frame status msg ++ rest)); [done..|constructor|done| |].
  - intros. by apply stream_error_frame.
  - unfold error_frame, frame_image. by destruct (be_put 4 _) eqn:E; [apply (f_equal length) in E; rewrite length_be_put in E|].
Qed.

Lemma get_call k o :
  EncodeRequest (GetRequest k) = Ok frame → response sopts m slot (GetRequest k) s o frames s' →
  ∃ r, call (GetRequest k) cl = (r, cl') ∧ outcome_of sopts m slot (GetRequest k) s s' r.
Proof using Hinv Hcl Hclear Hin.
  intros Hf (D & De & H). unfold outcome_of. cbn [effect_of call]. destruct (closed s.1).
  { destruct H as [_ [msg H]]. rewrite (get_error k StatusClosed msg) by decided || done. eexists. split; [done|]. split; [done|].
    split; [done|]. by exists msg. }
  destruct (abs s.1 s.2 !! k) as [v|] eqn:Ev.
  - destruct H as [[_ H]|(Hq & _ & msg & H)].
    + destruct (abs_key_value _ _ _ _ _ _ Hinv Ev) as [_ Hv]. apply wval_value_ok in Hv. subst frames.
      assert (Hfr : frame_ok StatusOK (lenp v)) by (split; [decided|]; unfold wval_ok in Hv; wconsts; zl).
      unfold Client.Get. rewrite (roundTrip_frame cl c Hcl Hclear _ _ _ _ _ Hf Hfr Hin).
      cbn [Z.eqb StatusOK StatusNotFound negb]. rewrite (proj2 (DecodeGetOK_iff (lenp v) v)) by done.
      eexists. split; [done|]. split; [done|]. split; [done|]. by left.
    + rewrite (get_error k StatusInternal msg) by decided || done. eexists. split; [done|]. split; [done|].
      split; [done|]. right. split; [done|]. by exists msg.
  - destruct H as [_ ->]. unfold Client.Get.
    rewrite (roundTrip_error cl c Hcl Hclear _ _ StatusNotFound [] _ Hf ltac:(decided) Hin).
    eexists. split; [done|]. split; [done|]. by split.
Qed.

(** The calls that return nothing. *)
Lemma simple_run req :
  EncodeRequest req = Ok frame → call req cl = (let (r, cl) := simple_call req cl in (RUnit r, cl)) →
  (frames = frame_image StatusOK [] → call req cl = (RUnit (inl tt), cl'))
  ∧ (∀ status msg, is_error_status status → frames = error_frame status msg → call req cl = (RUnit (remote status msg), cl')).
Proof using Hcl Hclear Hin.
  intros Hf ->. split.
  - intros ->. by rewrite (simple_call_ok cl c Hcl Hclear _ _ _ Hf Hin).
  - intros status msg Hs ->. by rewrite (simple_call_error cl c Hcl Hclear _ _ _ _ _ Hf Hs Hin).
Qed.

Lemma mutation_run req f o :
  effect_of req = Some f → EncodeRequest req = Ok frame → response sopts m slot req s o frames s' →
  ∃ r, call req cl = (r, cl') ∧ outcome_of sopts m slot req s s' r.
Proof using Hcl Hclear Hin.
  intros He Hf H. destruct (simple_run req Hf) as [Hok Herr]; [by destruct req|].
  unfold response in H. unfold outcome_of. rewrite He in *. destruct (gate_status s.1 req) as [status|] eqn:Hg.
  - destruct H as (_ & -> & msg & ->). exists (RUnit (remote status msg)). split; [|by eauto].
    apply Herr; [|done]. revert Hg. unfold gate_status. destruct req; repeat case_match; intros [= <-]; decided.
  - destruct H as [(_ & -> & Ha & Hd)|(Hs & [msg ->] & Ha)].
    + exists (RUnit (inl tt)). split; [by apply Hok|]. by left.
    + exists (RUnit (remote o.1 msg)). split; [by apply Herr|]. right. by eauto.
Qed.

Lemma stats_call o :
  EncodeRequest StatsRequest = Ok frame → response sopts m slot StatsRequest s o frames s' →
  ∃ r, call StatsRequest cl = (r, cl') ∧ outcome_of sopts m slot StatsRequest s s' r.
Proof using Hcl Hclear Hin.
  intros Hf (D & De & _ & onDisk & ->). unfold outcome_of. cbn [effect_of call]. unfold Client.Stats.
  assert (Hfr : ∀ kc, frame_ok StatusOK (EncodeStatsOK kc onDisk)).
  { intros kc. split; [decided|]. rewrite EncodeStatsOK_image. wconsts. zl. }
  rewrite (roundTrip_frame cl c Hcl Hclear _ _ _ _ _ Hf (Hfr _) Hin).
  cbn [Z.eqb StatusOK negb]. rewrite stats_roundtrip. eexists. split; [done|]. split; [done|]. split; [done|].
  exists (to_u64 onDisk). cbn. do 3 f_equal. unfold to_u64. by rewrite Z.mod_mod.
Qed.

Lemma ranges_call start end_ o :
  let req := normalise (ReadKeyRangeRequest start end_) in
  EncodeRequest (ReadKeyRangeRequest start end_) = Ok frame → response sopts m slot req s o frames s' →
  ∃ r, call (ReadKeyRangeRequest start end_) cl = (r, cl') ∧ outcome_of sopts m slot req s s' r.
Proof using Hinv Hcap Hcl Hclear Hin.
  intros req Hf (D & De & H). unfold outcome_of. cbn [effect_of normalise req call].
  assert (Herr : ∀ status msg, is_error_status status → frames = error_frame status msg →
    ∃ r, (let '(err, ps, cl0) := Client.ReadKeyRange start end_ (Some collect) [] cl in (RPairs ps err, cl0)) = (r, cl')
      ∧ r = RPairs [] (Some (RemoteError status (truncated msg)))).
  { intros status msg Hs Hfr. rewrite (range_error start end_ status msg Hf Hs Hfr). by eexists. }
  unfold range_response in H. destruct (negb slot).
  { destruct H as [_ H]. destruct (Herr StatusOverload _ ltac:(decided) H) as (r & -> & ->). eexists. split; [done|]. eauto. }
  destruct (closed s.1).
  { destruct H as [_ [msg H]]. destruct (Herr StatusClosed _ ltac:(decided) H) as (r & -> & ->). eexists. split; [done|]. eauto. }
  destruct H as [(Hq & _ & msg & H)|(l & Hl & Hp)].
  { destruct (Herr StatusInternal _ ltac:(decided) H) as (r & -> & ->). eexists. split; [done|]. split; [done|]. split; [done|]. left. eauto. }
  destruct (paginate _ 0 [] (to_kv <$> l)) as [pages over] eqn:Ep. destruct Hp as [-> _].
  apply paginate_spec in Ep as (Hok & Hb & Hx); [|by apply filling_nil|by eapply range_pairs_ok].
  assert (Hin' : c_in c = page_frames pages ++ terminator over ++ rest) by (rewrite Hin; unfold stream_of; by rewrite <- app_assoc).
  destruct over; cbn [terminator] in Hin'.
  - rewrite (range_call cl c start end_ frame pages _ (Some (RemoteError StatusOverload (truncated (text "range response exceeds byte cap")))) rest Hcl Hclear Hf Hok Hin');
      [|intros; by apply stream_error_frame|done].
    eexists. split; [done|]. split; [done|]. split; [done|]. right. exists l. split; [done|]. right.
    destruct Hx as (done & p & tl & -> & -> & _). exists done, (p :: tl). eexists. split; [reflexivity|]. by split.
  - rewrite (range_call cl c start end_ frame pages _ None rest Hcl Hclear Hf Hok Hin');
      [|intros; by apply stream_end_frame|done].
    eexists. split; [done|]. split; [done|]. split; [done|]. right. exists l. split; [done|]. left. by rewrite Hx.
Qed.

Lemma call_run req o :
  EncodeRequest req = Ok frame → response sopts m slot (normalise req) s o frames s' →
  ∃ r, call req cl = (r, cl') ∧ outcome_of sopts m slot (normalise req) s s' r.
Proof using Hinv Hcap Hcl Hclear Hin.
  intros Hf H. destruct req as [k v|k|k|es|start end_| |].
  - by eapply mutation_run.
  - by eapply get_call.
  - by eapply mutation_run.
  - by eapply mutation_run.
  - by eapply ranges_call.
  - destruct H as (D & De & _ & Hfr). destruct (simple_run PingRequest Hf) as [Hok _]; [done|].
    eexists. split; [by apply Hok|]. by split.
  - by eapply stats_call.
Qed.
End call.

(** ** A session *)

Fixpoint calls (reqs : list Request) (cl : client) : list result_of_call * client :=
  match reqs with
  | [] => ([], cl)
  | req :: reqs' => let (r, cl) := call req cl in let (rs, cl) := calls reqs' cl in (r :: rs, cl)
  end.

(** Each call's result is an operation on the map the previous calls left. *)
Inductive session (sopts : ServerOptions) (m : mode) (slot : nat → bool) : nat → state → list Request → list result_of_call → state → Prop :=
| session_end n s : session sopts m slot n s [] [] s
| session_call n s req r s1 reqs rs s2 :
    outcome_of sopts m (slot n) (normalise req) s s1 r →
    session sopts m slot (S n) s1 reqs rs s2 →
    session sopts m slot n s (req :: reqs) (r :: rs) s2.

Definition request_frames (reqs : list Request) : list (Z * bytes) := (λ req, (Op req, request_body req)) <$> reqs.

Definition encodable (req : Request) : Prop := EncodeRequest req = Ok (frame_image (Op req) (request_body req)).

Lemma encodable_frame req : encodable req → frame_ok (Op req) (request_body req) ∧ DecodeRequest (Op req) (request_body req) = Ok (normalise req).
Proof.
  intros (Hok & Hf & _)%EncodeRequest_inv. split; [done|]. apply DecodeRequest_iff. by rewrite normalise_Op, normalise_body.
Qed.

Lemma session_run Error_text sopts slot m n s frames out s' :
  0 <= MaxRangeResponseBytes sopts → conversation Error_text sopts slot m n s frames out s' →
  ∀ reqs cl c rest, frames = request_frames reqs → Forall encodable reqs →
  cl_conn cl = Some c → c_faults c = [] → c_in c = out ++ rest →
  ∃ rs, calls reqs cl = (rs, set_conn (Some (mkConn rest (c_end c) (c_out c ++ frames_image frames) [])) cl)
    ∧ session sopts m slot n s reqs rs s'.
Proof.
  intros Hcap H. induction H as [n s|n s tag body req o frames s1 more out s2 Hd [logs Hi] Ho Hr _ IH|n s tag body err reason more out s2 Hd _ _ _];
    intros reqs cl c rest Hfr Hen Hcl Hclear Hin.
  - destruct reqs; [|done]. exists []. split; [|constructor]. cbn [calls frames_image fmap list_fmap concat] in *.
    rewrite app_nil_r. destruct cl, c; cbn in *. by subst.
  - destruct reqs as [|q reqs]; [done|]. injection Hfr as -> -> Hfr. apply Forall_cons in Hen as [Hq Hen].
    destruct (encodable_frame _ Hq) as [_ Hdq]. assert (req = normalise q) as -> by congruence.
    rewrite <- app_assoc in Hin.
    destruct (call_run sopts m logs (slot n) s s1 Hi Hcap cl c Hcl Hclear _ frames (out ++ rest) Hin q o Hq Hr)
      as (r & Hcall & Hout).
    destruct (IH reqs (after_call cl c (frame_image (Op q) (request_body q)) (out ++ rest)) _ rest Hfr Hen eq_refl eq_refl eq_refl)
      as (rs & Hcalls & Hs).
    exists (r :: rs). split; [|by eapply session_call]. cbn [calls]. rewrite Hcall, Hcalls. cbn [c_end c_out].
    unfold after_call, frames_image. cbn [fmap list_fmap concat fst snd]. by rewrite <- app_assoc.
  - destruct reqs as [|q reqs]; [done|]. injection Hfr as -> -> Hfr. apply Forall_cons in Hen as [Hq Hen].
    destruct (encodable_frame _ Hq) as [_ Hdq]. congruence.
Qed.

(** End to end, the client operates the server's map.  Let a client make any
    list of calls whose requests it can encode, over a connection whose other
    end the server serves: the bytes the client sends are the ones the server
    reads, the bytes the server sends are the ones the client reads, and every
    call returns what the map at that point prescribes, a mutation reported
    successful having been applied (and made durable, with SyncOnPut), one
    reported as refused not having been, a Get the binding or ErrNotFound, a range
    exactly the bindings of the range unless it reports OVERLOAD or an error, in
    the order of the calls. *)
Theorem client_operates_map Error_text sopts slot m logs (db : DB) (e : env) reqs s' sc' cl c :
  db_inv m logs db e → MaxBatchEncodedSize (opts db) <= recordHeaderSize + maxBatchBodyLen →
  0 <= MaxRangeResponseBytes sopts → Forall encodable reqs →
  let sc := some_conn (frames_image (request_frames reqs)) in
  conn_room Error_text sopts slot m [] 0 (request_frames reqs) (db, e) sc →
  handleConn Error_text sopts (λ _, false) slot (db, e) sc = (s', sc') →
  cl_conn cl = Some c → c_faults c = [] → c_in c = c_out sc' →
  ∃ rs cl', calls reqs cl = (rs, cl') ∧ session sopts m slot 0 (db, e) reqs rs s'
    ∧ client_in cl' = [] ∧ (∃ c', cl_conn cl' = Some c' ∧ c_out c' = c_out c ++ c_in sc).
Proof.
  intros Hi Hopt Hcap Hen sc Hroom H Hcl Hclear Hin.
  assert (Hok : Forall (λ f, frame_ok f.1 f.2) (request_frames reqs)).
  { unfold request_frames. apply Forall_fmap. eapply Forall_impl; [exact Hen|]. intros q Hq. by apply encodable_frame. }
  destruct (conn_loop_frames Error_text sopts slot m (request_frames reqs) (S (length (c_in sc))) 0 logs db e sc [] s' sc')
    as (out & Hconv & Hout & _); try done.
  { apply no_frame_nil. }
  { by rewrite app_nil_r. }
  { cbn. pose proof (length_frames_image (request_frames reqs)). lia. }
  destruct (session_run _ _ _ _ _ _ _ _ _ Hcap Hconv reqs cl c [] eq_refl Hen Hcl Hclear) as (rs & Hcalls & Hs).
  { rewrite Hin, Hout. by rewrite app_nil_r. }
  eexists rs, _. split; [exact Hcalls|]. split; [done|]. split; [done|]. eexists. by split.
Qed.

Definition some_calls : list Request :=
  [PutRequest [x61] [x31]; GetRequest [x61]; DeleteRequest [x61]; GetRequest [x61]; ReadKeyRangeRequest None None].

Lemma client_operates_map_witness :
  let sc := some_conn (frames_image (request_frames some_calls)) in
  let p := handleConn plain_text small_range (λ _, false) (λ _, true) (init_db, init_env) sc in
  let c := some_conn (c_out p.2) in
  let cl := NewClient c (mkClientOptions 0 0) in
  (calls some_calls cl).1 =
    [RUnit (inl tt); RValue (inl [x31]); RUnit (inl tt); RValue (inr (WErr (ESentinel ErrNotFound))); RPairs [] None]
  ∧ ∃ rs cl', calls some_calls cl = (rs, cl') ∧ session small_range full_mode (λ _, true) 0 (init_db, init_env) some_calls rs p.1
    ∧ client_in cl' = [] ∧ (∃ c', cl_conn cl' = Some c' ∧ c_out c' = c_out c ++ c_in sc).
Proof.
  intros sc p c cl. split; [by vm_compute|].
  apply (client_operates_map plain_text small_range (λ _, true) full_mode (λ _, []) init_db init_env some_calls p.1 p.2 cl c);
    [apply init_inv|decided|decided| | |apply surjective_pairing|done|done|done].
  - repeat constructor; by vm_compute.
  - vm_compute. repeat split; try discriminate; intros; discriminate.
Defined.
