(* ===== verification/Clients.v ===== *)
(** * Many clients, one map

    Any number of clients, each with a connection of its own to one server: the
    calls of all of them together are one sequence of operations on the map. *)
From S2P Require Import Prelude LogRecord Keydir Storage Frame Names Publish Manifest HintFile Log Recovery Db Invariant WritePath Rotation Compact Engine Writes Api WireFrame WireRequest WireResponse Server ServerSpec ServerRange Service Sessions Client EndToEnd.
Import Wire.

(** ** The specification *)

(** A client, a call it made and what it was told. *)
Abbreviation call_event := (nat * Request * result_of_call)%type.

(** One after the other, each an operation on the map the one before left. *)
Inductive operations (sopts : ServerOptions) (m : mode) (s : state) : list call_event → state → Prop :=
| operations_start : operations sopts m s [] s
| operations_next hs s1 i req r slot s2 :
    operations sopts m s hs s1 → outcome_of sopts m slot (normalise req) s1 s2 r →
    operations sopts m s (hs ++ [(i, req, r)]) s2.

Definition calls_of (i : nat) (hs : list call_event) : list call_event := filter (λ h, h.1.1 = i) hs.

(** ** The frames of a connection are its client's requests *)

Lemma frames_unique frames : ∀ frames' tail,
  Forall (λ f : Z * bytes, frame_ok f.1 f.2) frames → Forall (λ f : Z * bytes, frame_ok f.1 f.2) frames' → no_frame tail →
  frames_image frames' = frames_image frames ++ tail → frames = frames'.
Proof.
  assert (Hread : ∀ f rest, frame_ok f.1 f.2 →
    ReadFrame (some_conn (frame_image f.1 f.2 ++ rest)) = (Ok f, set_in rest (some_conn (frame_image f.1 f.2 ++ rest)))).
  { intros [t b] rest Hf. by apply ReadFrame_image. }
  assert (Hcons : ∀ f fs, frames_image (f :: fs) = frame_image f.1 f.2 ++ frames_image fs) by done.
  assert (Hne : ∀ f fs rest, frames_image (f :: fs) ++ rest ≠ []).
  { intros f fs rest [E _]%app_eq_nil. rewrite Hcons in E. apply app_eq_nil in E as [E _]. unfold frame_image in E.
    apply (f_equal length) in E. rewrite length_app, length_be_put in E. cbn in E. lia. }
  induction frames as [|f frames IH]; intros [|f' frames'] tail Hok Hok' Ht E; [done| | |].
  - apply Forall_cons in Hok' as [Hf' _]. destruct (Ht (some_conn (frames_image (f' :: frames')))) as (err & c & Hr); [by rewrite E|done|].
    by rewrite Hcons, Hread in Hr by done.
  - symmetry in E. by apply Hne in E.
  - apply Forall_cons in Hok as [Hf Hok]. apply Forall_cons in Hok' as [Hf' Hok']. rewrite !Hcons, <- app_assoc in E.
    pose proof (Hread f' (frames_image frames') Hf') as R. rewrite E, Hread in R by done. injection R as -> R.
    f_equal. by eapply (IH _ tail).
Qed.

(** A history of the server with the requests its frames stand for. *)
Definition tagged (ev : nat * Request * bytes) : event :=
  (ev.1.1, (Op ev.1.2, request_body ev.1.2), ev.2).
Definition requests_of (i : nat) (qs : list (nat * Request * bytes)) : list Request :=
  (λ ev, ev.1.2) <$> filter (λ ev, ev.1.1 = i) qs.

Lemma requests_snoc i qs j q (out : bytes) :
  requests_of i (qs ++ [(j, q, out)]) = if decide (j = i) then requests_of i qs ++ [q] else requests_of i qs.
Proof.
  unfold requests_of. rewrite filter_app, filter_cons, filter_nil. cbn. case_decide; [by rewrite fmap_app|by rewrite app_nil_r].
Qed.

Lemma asked_tagged i qs : asked i (tagged <$> qs) = request_frames (requests_of i qs).
Proof.
  induction qs as [|[[j q] out] qs IH] using rev_ind; [done|]. rewrite fmap_app. cbn. unfold asked.
  rewrite events_of_snoc, requests_snoc. cbn. case_decide; [|exact IH]. unfold request_frames in *. rewrite !fmap_app. by f_equal.
Qed.

Lemma tag_history (reqs : nat → list Request) evs :
  (∀ i, asked i evs `prefix_of` request_frames (reqs i)) →
  ∃ qs, evs = tagged <$> qs ∧ ∀ i, requests_of i qs `prefix_of` reqs i.
Proof.
  induction evs as [|[[j f] out] evs IH] using rev_ind; intros H; [exists []; split; [done|]; intros i; apply prefix_nil|].
  destruct IH as (qs & -> & Hp).
  { intros i. etrans; [|apply H]. unfold asked. rewrite events_of_snoc. case_decide; [|done]. rewrite fmap_app. by eexists. }
  destruct (Hp j) as [more Hm]. destruct (H j) as [rest Hr]. unfold request_frames in Hr.
  rewrite asked_snoc, asked_tagged, Hm, fmap_app, <- app_assoc in Hr. apply app_inv_head in Hr.
  destruct more as [|q more]; [done|]. injection Hr as <- _. exists (qs ++ [(j, q, out)]). split; [by rewrite fmap_app|].
  intros i. rewrite requests_snoc. case_decide as E; [subst i|done]. exists more. by rewrite Hm, <- app_assoc.
Qed.

(** ** Every call is an operation *)

(** [cl] has a healthy connection on which [l] is to arrive. *)
Definition reads (cl : client) (l : bytes) : Prop := ∃ c, cl_conn cl = Some c ∧ c_faults c = [] ∧ c_in c = l.

Lemma calls_snoc reqs q : ∀ cl,
  calls (reqs ++ [q]) cl = let (rs, cl) := calls reqs cl in let (r, cl) := call q cl in (rs ++ [r], cl).
Proof.
  induction reqs as [|q0 reqs IH]; intros cl; cbn [calls app]; [by destruct (call q cl)|].
  destruct (call q0 cl) as [r0 cl0]. rewrite IH. destruct (calls reqs cl0) as [rs cl1]. by destruct (call q cl1).
Qed.

Lemma calls_of_snoc i hs j q r :
  calls_of i (hs ++ [(j, q, r)]) = if decide (j = i) then calls_of i hs ++ [(j, q, r)] else calls_of i hs.
Proof. unfold calls_of. rewrite filter_app, filter_cons, filter_nil. cbn. case_decide; [done|by rewrite app_nil_r]. Qed.

Definition sent (cl : client) : bytes := default [] (c_out <$> cl_conn cl).

(** The client's side of a history of calls: it made these, was told that, has
    [rest] still to read and sent its requests, one frame each. *)
Definition made (reqs : list Request) (cl : client) (rest : bytes) (hs : list call_event) : Prop :=
  (λ h, h.1.2) <$> hs = reqs ∧
  ∃ cl', calls reqs cl = (snd <$> hs, cl') ∧ reads cl' rest ∧ sent cl' = sent cl ++ frames_image (request_frames reqs).

Lemma frames_image_snoc reqs q :
  frames_image (request_frames (reqs ++ [q])) = frames_image (request_frames reqs) ++ frame_image (Op q) (request_body q).
Proof. unfold frames_image, request_frames. rewrite !fmap_app, concat_app. cbn. by rewrite app_nil_r. Qed.

Lemma operations_run Error_text sopts m s evs s' :
  0 <= MaxRangeResponseBytes sopts → serial Error_text sopts m s evs s' →
  ∀ qs (cls : nat → client) (rest : nat → bytes),
    evs = tagged <$> qs → (∀ i, Forall encodable (requests_of i qs)) → (∀ i, reads (cls i) (answered i evs ++ rest i)) →
    ∃ hs, operations sopts m s hs s' ∧ ∀ i, made (requests_of i qs) (cls i) (rest i) (calls_of i hs).
Proof.
  intros Hcap H. induction H as [|evs s1 j f out s2 _ IH [logs Hi] Ha]; intros qs cls rest Eq Hen Hr.
  - destruct qs; [|done]. exists []. split; [constructor|]. intros i. split; [done|]. eexists. split; [done|]. split; [apply Hr|]. by rewrite app_nil_r.
  - destruct qs as [|[[j' q] out'] qs _] using rev_ind; [by destruct evs|]. rewrite fmap_app in Eq.
    apply app_inj_tail in Eq as [Eq [= <- -> <-]].
    destruct (IH qs cls (λ i, if decide (j = i) then out ++ rest i else rest i) Eq) as (hs & Hops & Hmade).
    { intros i. specialize (Hen i). rewrite requests_snoc in Hen. case_decide; [|done]. by apply Forall_app in Hen as [? _]. }
    { intros i. specialize (Hr i). case_decide as E; [subst i; by rewrite answered_snoc, <- app_assoc in Hr|].
      unfold answered in *. by rewrite events_of_snoc, decide_False in Hr by done. }
    pose proof (Hen j) as Hq. rewrite requests_snoc, decide_True in Hq by done. apply Forall_app in Hq as [_ Hq].
    rewrite Forall_singleton in Hq. destruct (encodable_frame q Hq) as [_ Hd]. unfold answers in Ha. cbn [fst snd] in Ha.
    rewrite Hd in Ha. destruct Ha as (slot & o & Hresp).
    destruct (Hmade j) as (Em & clj & Ec & (c & Hc1 & Hc2 & Hc3) & Hsent). rewrite decide_True in Hc3 by done.
    destruct (call_run sopts m logs slot s1 s2 Hi Hcap clj c Hc1 Hc2 _ out (rest j) Hc3 q o Hq Hresp) as (r & Hcall & Hout).
    exists (hs ++ [(j, q, r)]). split; [by eapply operations_next|]. intros i. rewrite requests_snoc, calls_of_snoc.
    case_decide as E; [subst i|specialize (Hmade i); by rewrite decide_False in Hmade].
    split; [by rewrite fmap_app, Em|]. eexists. split; [rewrite calls_snoc, Ec, Hcall, fmap_app; reflexivity|].
    split; [eexists; split; [reflexivity|]; by split|]. unfold sent in Hsent at 1. rewrite Hc1 in Hsent. cbn in Hsent.
    unfold sent at 1. cbn. by rewrite Hsent, frames_image_snoc, <- app_assoc.
Qed.

(** C1: many clients operate one map.  Any number of clients make any calls, each
    over its own connection, and the server takes their turns in any order, more
    clients arriving at any time: all calls the server has answered are one
    sequence of operations on the map, each told what the map that the call
    before it left prescribes, and every client has been told exactly the results
    of its own calls in that sequence, in the order it made them, has read every
    byte the server sent it and has sent exactly those calls' requests; a
    connection that has ended has had all its calls answered. *)
Theorem clients_operate_map Error_text sopts m logs (db : DB) (e : env) (x : server)
    (reqs : nat → list Request) (cl : nat → client) :
  db_inv m logs db e → MaxBatchEncodedSize (opts db) <= recordHeaderSize + maxBatchBodyLen →
  0 <= MaxRangeResponseBytes sopts → (∀ i, Forall encodable (reqs i)) →
  turns Error_text sopts (has_room m) (mkServer (db, e) false ∅) x →
  (∀ i sc, sv_conns x !! i = Some sc →
     c_in (sc_start sc) = frames_image (request_frames (reqs i))
     ∧ (sc_live sc = true ∨ c_faults (sc_start sc) = [] ∧ sv_draining x = false)
     ∧ reads (cl i) (c_out (sc_conn sc))) →
  ∃ hs, operations sopts m (db, e) hs (sv_db x)
    ∧ ∀ i sc, sv_conns x !! i = Some sc →
        ∃ done, done `prefix_of` reqs i ∧ made done (cl i) [] (calls_of i hs) ∧ (sc_live sc = false → done = reqs i).
Proof.
  intros Hi Hopt Hcap Hen Hx Hcl. destruct (turns_inv Error_text sopts m logs db e x Hi Hopt Hcap Hx) as (evs & [Hs _ _ Hv Hf]).
  assert (Hconn : ∀ i sc, sv_conns x !! i = Some sc →
    ∃ rest, asked i evs ++ rest = request_frames (reqs i) ∧ c_out (sc_conn sc) = answered i evs ∧ (sc_live sc = false → rest = [])).
  { intros i sc Hsc. destruct (Hcl i sc Hsc) as (Hin & Hl & _). destruct (Hv i sc Hsc) as (rest & tail & (Hok & Ht & E & _) & Hd).
    exists rest. rewrite Hin in E. split.
    - apply (frames_unique _ _ tail); [done| |done|done]. unfold request_frames. apply Forall_fmap. eapply Forall_impl; [apply Hen|].
      intros q Hq. by apply encodable_frame.
    - destruct (sc_live sc); [by destruct Hd as (_ & _ & ? & _)|]. destruct Hl as [Hl|[Hl1 Hl2]]; [done|].
      destruct Hd as [_ Hd]. by destruct (Hd Hl1 Hl2). }
  destruct (tag_history reqs evs) as (qs & -> & Hp).
  { intros i. destruct (sv_conns x !! i) as [sc|] eqn:Esc; [destruct (Hconn i sc Esc) as (rest & <- & _); by eexists|].
    unfold asked. rewrite (Hf i Esc). apply prefix_nil. }
  set (cls := λ i, if sv_conns x !! i is Some _ then cl i else NewClient (some_conn []) (mkClientOptions 0 0)).
  destruct (operations_run Error_text sopts m (db, e) _ _ Hcap Hs qs cls (λ _, [])) as (hs & Hops & Hmade); [done| | |].
  - intros i. destruct (Hp i) as [more E]. specialize (Hen i). rewrite E in Hen. by apply Forall_app in Hen as [? _].
  - intros i. rewrite app_nil_r. unfold cls. destruct (sv_conns x !! i) as [sc|] eqn:Esc.
    + destruct (Hconn i sc Esc) as (_ & _ & <- & _). by apply Hcl.
    + unfold answered. rewrite (Hf i Esc). eexists. by repeat split.
  - exists hs. split; [done|]. intros i sc Esc. exists (requests_of i qs). split; [done|]. specialize (Hmade i).
    unfold cls in Hmade. rewrite Esc in Hmade. split; [done|]. intros Hl. destruct (Hconn i sc Esc) as (rest & E & _ & Hr).
    rewrite (Hr Hl), app_nil_r, asked_tagged in E. apply (f_equal length) in E. unfold request_frames in E. rewrite !length_fmap in E.
    by apply prefix_length_eq; [|lia].
Qed.

(** The first client is half-way through its calls when the second, which has
    read what the first put, is done. *)
Definition two_requests (i : nat) : list Request :=
  match i with
  | 1%nat => [PutRequest [x61] [x31]; PutRequest [x62] [x32]]
  | 2%nat => [GetRequest [x61]]
  | _ => []
  end.
Definition two_callers : server :=
  let start i := accept_conn i (some_conn (frames_image (request_frames (two_requests i)))) in
  let turn i := serve_turn plain_text small_range i true in
  turn 2%nat (turn 2%nat (turn 1%nat (start 2%nat (start 1%nat (mkServer (init_db, init_env) false ∅))))).
Definition two_readers (i : nat) : client :=
  NewClient (some_conn (default [] (c_out ∘ sc_conn <$> sv_conns two_callers !! i))) (mkClientOptions 0 0).

Lemma two_callers_turns : turns plain_text small_range (has_room full_mode) (mkServer (init_db, init_env) false ∅) two_callers.
Proof.
  unfold two_callers. cbv zeta.
  do 3 (apply turns_serve; [|by vm_compute|split; [by vm_compute|split; [done|intros _; by vm_compute]]]).
  eapply turns_step; [eapply turns_step; [apply turns_refl|]|]; apply turn_accept; by vm_compute.
Qed.

Lemma two_callers_conns i sc :
  sv_conns two_callers !! i = Some sc →
  c_in (sc_start sc) = frames_image (request_frames (two_requests i))
  ∧ (sc_live sc = true ∨ c_faults (sc_start sc) = [] ∧ sv_draining two_callers = false)
  ∧ reads (two_readers i) (c_out (sc_conn sc)).
Proof.
  intros H. assert (i = 1%nat ∨ i = 2%nat) as Hi.
  { assert (E : dom (sv_conns two_callers) = {[1%nat; 2%nat]}) by by vm_compute.
    apply elem_of_dom_2 in H. rewrite E in H. by apply elem_of_union in H as [H%elem_of_singleton|H%elem_of_singleton]; [left|right]. }
  assert (Hr : reads (two_readers i) (c_out (sc_conn sc))).
  { unfold two_readers. rewrite H. eexists. by repeat split. }
  split; [|split; [|exact Hr]]; clear Hr; destruct Hi as [->| ->]; vm_compute in H; injection H as <-; auto.
Qed.

Lemma clients_operate_map_witness :
  (calls (two_requests 2) (two_readers 2)).1 = [RValue (inl [x31])]
  ∧ ∃ hs, operations small_range full_mode (init_db, init_env) hs (sv_db two_callers)
    ∧ ∀ i sc, sv_conns two_callers !! i = Some sc →
        ∃ done, done `prefix_of` two_requests i ∧ made done (two_readers i) [] (calls_of i hs) ∧ (sc_live sc = false → done = two_requests i).
Proof.
  split; [by vm_compute|].
  apply (clients_operate_map plain_text small_range full_mode (λ _, []) init_db init_env two_callers two_requests two_readers);
    [apply init_inv|decided|decided| |apply two_callers_turns|exact two_callers_conns].
  intros [|[|[|i]]]; repeat constructor; by vm_compute.
Defined.
