(* ===== verification/Flags.v ===== *)
(** * Command-line flags (cmd/little-db/subcommands.go, parseFlags)

    The [FlagSet] of package flag as far as the subcommands use it, and the
    wrapper that lets flags stand before, between and after the positional
    arguments. *)
From S2P Require Import Prelude Server.

(** ** Flag sets *)

Variant flagKind := BoolFlag | StringFlag | IntFlag (bits : Z) | DurationFlag.

(** The registered flags. *)
Abbreviation formals := (list (bytes * flagKind)).

(** The assignments made, in order, and the positional arguments. *)
Record FlagSet := mkFlagSet { fs_actual : list (bytes * bytes); fs_args : list bytes }.

Definition dash : byte := x2d.
Definition equals : byte := x3d.
Definition dashdash : bytes := [dash; dash].

Definition Lookup (formal : formals) (name : bytes) : option flagKind :=
  snd <$> find (λ f, bool_decide (f.1 = name)) formal.

(** [strconv.ParseBool] *)
Definition ParseBool (s : bytes) : option bool :=
  if existsb (λ t, bool_decide (s = text t)) ["1"; "t"; "T"; "true"; "TRUE"; "True"]%string then Some true
  else if existsb (λ t, bool_decide (s = text t)) ["0"; "f"; "F"; "false"; "FALSE"; "False"]%string then Some false
  else None.

(** The dashes a flag token starts with are one or two; the rest is the name and,
    after an equals sign that is not its first byte, the value. *)
Fixpoint split_equals (s : bytes) : bytes * option bytes :=
  match s with
  | [] => ([], None)
  | c :: s' => if Byte.eqb c equals then ([], Some s')
               else let (name, value) := split_equals s' in (c :: name, value)
  end.

Variant token :=
| TPositional
| TTerminator
| TBadSyntax
| TFlag (name : bytes) (value : option bytes).

Definition flag_name_token (s : bytes) : token :=
  match s with
  | [] => TBadSyntax
  | c :: _ => if Byte.eqb c dash || Byte.eqb c equals then TBadSyntax
              else let (name, value) := split_equals s in TFlag name value
  end.

Definition token_of (s : bytes) : token :=
  match s with
  | c :: c1 :: s' =>
      if negb (Byte.eqb c dash) then TPositional
      else if Byte.eqb c1 dash then match s' with [] => TTerminator | _ => flag_name_token s' end
      else flag_name_token (c1 :: s')
  | _ => TPositional
  end.

Definition ErrHelp : string := "flag: help requested".

Section flags.
(** [time.ParseDuration] and [strconv.ParseInt(s, 0, bits)]. *)
Context (ParseDuration : bytes → option Z) (ParseInt : Z → bytes → option Z).

(** [Value.Set]: whether a flag of the kind takes the text. *)
Definition accepts (k : flagKind) (s : bytes) : bool :=
  match k with
  | BoolFlag => match ParseBool s with Some _ => true | None => false end
  | StringFlag => true
  | IntFlag bits => match ParseInt bits s with Some _ => true | None => false end
  | DurationFlag => match ParseDuration s with Some _ => true | None => false end
  end.

Definition set_flag (k : flagKind) (name value : bytes) (actual : list (bytes * bytes)) : result (list (bytes * bytes)) :=
  if accepts k value then Ok (actual ++ [(name, value)])
  else Err (errorf (match k with
                    | BoolFlag => "invalid boolean value %q for -%s: %v"
                    | _ => "invalid value %q for flag -%s: %v"
                    end)).

(** [FlagSet.Parse] *)
Fixpoint Parse (formal : formals) (actual : list (bytes * bytes)) (args : list bytes) : result FlagSet :=
  match args with
  | [] => Ok (mkFlagSet actual [])
  | s :: args1 =>
    match token_of s with
    | TPositional => Ok (mkFlagSet actual args)
    | TTerminator => Ok (mkFlagSet actual args1)
    | TBadSyntax => Err (errorf "bad flag syntax: %s")
    | TFlag name value =>
      match Lookup formal name with
      | None => if bool_decide (name = text "help" ∨ name = text "h") then Err (ESentinel ErrHelp)
                else Err (errorf "flag provided but not defined: -%s")
      | Some BoolFlag =>
          let? actual := set_flag BoolFlag name (default (text "true") value) actual in
          Parse formal actual args1
      | Some k =>
        match value, args1 with
        | Some v, _ => let? actual := set_flag k name v actual in Parse formal actual args1
        | None, v :: args2 => let? actual := set_flag k name v actual in Parse formal actual args2
        | None, [] => Err (errorf "flag needs an argument: -%s")
        end
      end
    end
  end.

(** ** parseFlags *)

Definition is_dashed (s : bytes) : bool :=
  match s with c :: _ :: _ => Byte.eqb c dash | _ => false end.

Definition needsFlagSentinel (positional : list bytes) : bool :=
  existsb (λ p, (0 <? zlen p) && Byte.eqb (nth 0 p x00) dash && negb (bool_decide (p = [dash]))) positional.

(** [strings.TrimLeft(s, "-")] *)
Fixpoint TrimLeft_dash (s : bytes) : bytes :=
  match s with
  | c :: s' => if Byte.eqb c dash then TrimLeft_dash s' else s
  | [] => []
  end.

Definition isKnownFlagToken (formal : formals) (tok : bytes) : bool :=
  if (zlen tok <? 2) || negb (Byte.eqb (nth 0 tok x00) dash) || bool_decide (tok = dashdash) then false
  else
    let name := TrimLeft_dash tok in
    let name := (split_equals name).1 in
    match Lookup formal name with Some _ => true | None => false end.

Definition contains_equals (s : bytes) : bool := existsb (λ c, Byte.eqb c equals) s.

(** The argument list that [parseFlags] hands to [fs.Parse]. *)
Fixpoint reorder (formal : formals) (sawDoubleDash : bool) (reordered positional args : list bytes) : list bytes :=
  match args with
  | [] => (if needsFlagSentinel positional then reordered ++ [dashdash] else reordered) ++ positional
  | a :: args1 =>
    if sawDoubleDash then reorder formal sawDoubleDash reordered (positional ++ [a]) args1
    else if bool_decide (a = dashdash) then reorder formal true reordered positional args1
    else if is_dashed a then
      let reordered := reordered ++ [a] in
      if contains_equals a then reorder formal sawDoubleDash reordered positional args1
      else match Lookup formal (TrimLeft_dash a) with
           | None | Some BoolFlag => reorder formal sawDoubleDash reordered positional args1
           | Some _ =>
             match args1 with
             | [] => reordered
             | next :: args2 =>
                 if isKnownFlagToken formal next then reordered
                 else reorder formal sawDoubleDash (reordered ++ [next]) positional args2
             end
           end
    else reorder formal sawDoubleDash reordered (positional ++ [a]) args1
  end.

Definition parseFlags (formal : formals) (args : list bytes) : result FlagSet :=
  Parse formal [] (reorder formal false [] [] args).
End flags.

(** ** Reading the flags *)

(** The last assignment of a flag, or its default. *)
Definition flag_text (fs : FlagSet) (name : string) (dflt : bytes) : bytes :=
  foldl (λ acc nv, if bool_decide (nv.1 = text name) then nv.2 else acc) dflt (fs_actual fs).
Definition flag_bool (fs : FlagSet) (name : string) (dflt : bool) : bool :=
  foldl (λ acc nv, if bool_decide (nv.1 = text name) then default acc (ParseBool nv.2) else acc) dflt (fs_actual fs).
Definition NArg (fs : FlagSet) : Z := zlen (fs_args fs).
Definition Arg (fs : FlagSet) (i : nat) : bytes := nth i (fs_args fs) [].

(** ** Arguments as the user means them *)

(** A flag with one or two dashes: [-name], [-name=value] or [-name value]; or a
    positional argument. *)
Variant item :=
| Switch (two : bool) (name : bytes)
| Assign (two : bool) (name value : bytes)
| Setting (two : bool) (name value : bytes)
| Positional (p : bytes).

Definition dashes (two : bool) : bytes := if two then dashdash else [dash].

Definition render (i : item) : list bytes :=
  match i with
  | Switch two name => [dashes two ++ name]
  | Assign two name value => [dashes two ++ name ++ equals :: value]
  | Setting two name value => [dashes two ++ name; value]
  | Positional p => [p]
  end.

Definition positionals (items : list item) : list bytes :=
  omap (λ i, match i with Positional p => Some p | _ => None end) items.

Definition name_ok (name : bytes) : Prop := (equals ∉ name) ∧ (match name with [] => False | c :: _ => c ≠ dash end).

(** What makes the tokens mean the item: a flag without a value is a boolean one,
    a flag whose value is the next token is not, and the value is no flag; a
    positional is ["-"] or does not start with a dash. *)
Definition item_ok (formal : formals) (i : item) : Prop :=
  match i with
  | Switch _ name => name_ok name ∧ Lookup formal name = Some BoolFlag
  | Assign _ name _ => name_ok name ∧ is_Some (Lookup formal name)
  | Setting _ name value => name_ok name ∧ (∃ k, Lookup formal name = Some k ∧ k ≠ BoolFlag) ∧ isKnownFlagToken formal value = false
  | Positional p => is_dashed p = false
  end.

Section any_order.
Context (ParseDuration : bytes → option Z) (ParseInt : Z → bytes → option Z) (formal : formals).
Abbreviation set := (set_flag ParseDuration ParseInt).

(** The assignments of the items, or the error of the first that is refused. *)
Fixpoint settings (items : list item) (actual : list (bytes * bytes)) : result (list (bytes * bytes)) :=
  match items with
  | [] => Ok actual
  | i :: items' =>
    let? actual :=
      (match i with
       | Switch _ name => set BoolFlag name (text "true") actual
       | Assign _ name v | Setting _ name v => set (default StringFlag (Lookup formal name)) name v actual
       | Positional _ => Ok actual
       end) in
    settings items' actual
  end.

Lemma split_equals_name name : equals ∉ name → split_equals name = (name, None).
Proof using Type.
  induction name as [|c name IH]; [done|]. intros H. cbn [split_equals]. rewrite not_elem_of_cons in H. destruct H as [Hc H].
  destruct (Byte.eqb c equals) eqn:E; [by apply Byte.byte_dec_bl in E|]. by rewrite IH.
Qed.
Lemma split_equals_value name v : equals ∉ name → split_equals (name ++ equals :: v) = (name, Some v).
Proof using Type.
  induction name as [|c name IH]; [done|]. intros H. cbn [split_equals app]. rewrite not_elem_of_cons in H. destruct H as [Hc H].
  destruct (Byte.eqb c equals) eqn:E; [by apply Byte.byte_dec_bl in E|]. by rewrite IH.
Qed.

Lemma flag_name_token_ok name rest :
  name_ok name → flag_name_token (name ++ rest) = let (n, v) := split_equals (name ++ rest) in TFlag n v.
Proof using Type.
  intros [Heq Hd]. destruct name as [|c name]; [done|]. cbn [app flag_name_token]. rewrite not_elem_of_cons in Heq.
  destruct (Byte.eqb c dash) eqn:E; [by apply Byte.byte_dec_bl in E|].
  destruct (Byte.eqb c equals) eqn:E2; [apply Byte.byte_dec_bl in E2; subst; by destruct Heq|]. done.
Qed.

Lemma token_of_flag two name rest :
  name_ok name → token_of (dashes two ++ name ++ rest) = let (n, v) := split_equals (name ++ rest) in TFlag n v.
Proof using Type.
  intros Hn. rewrite <- (flag_name_token_ok name rest Hn). destruct Hn as [_ Hd], name as [|c name]; [done|].
  destruct two; cbn; [done|]. destruct (Byte.eqb c dash) eqn:E; [by apply Byte.byte_dec_bl in E|]. done.
Qed.

Lemma TrimLeft_dashes two name : name_ok name → TrimLeft_dash (dashes two ++ name) = name.
Proof using Type.
  intros [_ Hd]. destruct name as [|c name]; [done|].
  destruct two; cbn; destruct (Byte.eqb c dash) eqn:E; try done; by apply Byte.byte_dec_bl in E.
Qed.

Lemma contains_name two name rest :
  equals ∉ name → contains_equals (dashes two ++ name ++ rest) = contains_equals rest.
Proof using Type.
  intros Heq. unfold contains_equals. rewrite !existsb_app.
  assert (existsb (λ c, Byte.eqb c equals) name = false) as ->.
  { apply not_true_iff_false. intros (c & Hc & E)%existsb_exists. apply Byte.byte_dec_bl in E. subst.
    by apply list_elem_of_In in Hc. }
  by destruct two.
Qed.

Lemma flag_dashed two name rest :
  name_ok name → is_dashed (dashes two ++ name ++ rest) = true ∧ dashes two ++ name ++ rest ≠ dashdash.
Proof using Type.
  intros [_ Hd]. destruct name as [|c name]; [done|]. destruct two; (split; [done|]); cbn; [done|]. by intros [= ->].
Qed.

(** The tokens of the flags, in order. *)
Definition flag_tokens (items : list item) : list bytes :=
  concat ((λ i, match i with Positional _ => [] | _ => render i end) <$> items).

Lemma reorder_item i saw : ∀ re pos rest,
  item_ok formal i → saw = false →
  reorder formal saw re pos (render i ++ rest)
  = reorder formal saw (re ++ flag_tokens [i]) (pos ++ positionals [i]) rest.
Proof using Type.
  intros re pos rest Hi ->. destruct i as [two name|two name v|two name v|p]; cbn [render app reorder];
    unfold flag_tokens; cbn [fmap list_fmap concat render positionals omap list_omap]; rewrite ?app_nil_r.
  - destruct Hi as [Hn Hk]. pose proof (flag_dashed two name [] Hn) as [Hd Hne]. pose proof (contains_name two name []) as Hc.
    rewrite app_nil_r in *. rewrite bool_decide_eq_false_2, Hd, Hc, TrimLeft_dashes, Hk by (done || apply Hn). done.
  - destruct Hi as [Hn _]. pose proof (flag_dashed two name (equals :: v) Hn) as [Hd Hne].
    rewrite bool_decide_eq_false_2, Hd, contains_name by (done || apply Hn). done.
  - destruct Hi as (Hn & (k & Hk & Hb) & Hv). pose proof (flag_dashed two name [] Hn) as [Hd Hne].
    pose proof (contains_name two name []) as Hc. rewrite app_nil_r in *.
    rewrite bool_decide_eq_false_2, Hd, Hc, TrimLeft_dashes, Hk, Hv by (done || apply Hn).
    rewrite <- app_assoc. by destruct k.
  - cbn in Hi. rewrite bool_decide_eq_false_2 by (by intros ->). by rewrite Hi.
Qed.

Lemma reorder_items items : ∀ re pos rest,
  Forall (item_ok formal) items →
  reorder formal false re pos (concat (render <$> items) ++ rest)
  = reorder formal false (re ++ flag_tokens items) (pos ++ positionals items) rest.
Proof using Type.
  induction items as [|i items IH]; intros re pos rest H; [by rewrite !app_nil_r|].
  apply Forall_cons in H as [Hi H]. rewrite fmap_cons. cbn [concat]. rewrite <- app_assoc, reorder_item, IH; [|done..].
  f_equal; rewrite <- app_assoc; f_equal.
  - unfold flag_tokens. rewrite !fmap_cons. cbn [concat fmap list_fmap]. by rewrite app_nil_r.
  - unfold positionals. by destruct i.
Qed.

Lemma reorder_after re pos after :
  reorder formal true re pos after = reorder formal true re (pos ++ after) [].
Proof using Type.
  revert pos. induction after as [|a after IH]; intros pos; [by rewrite app_nil_r|]. cbn [reorder]. by rewrite IH, <- app_assoc.
Qed.

Ltac split_set := match goal with |- context [set_flag ?a ?b ?k ?n ?v ?x] => destruct (set_flag a b k n v x) end.

Lemma Parse_flag_items items : ∀ actual rest,
  Forall (item_ok formal) items →
  Parse ParseDuration ParseInt formal actual (flag_tokens items ++ rest)
  = let? actual := settings items actual in Parse ParseDuration ParseInt formal actual rest.
Proof using Type.
  induction items as [|i items IH]; intros actual rest H; [done|]. apply Forall_cons in H as [Hi H].
  unfold flag_tokens. rewrite fmap_cons. cbn [concat settings]. fold (flag_tokens items). rewrite <- app_assoc.
  destruct i as [two name|two name v|two name v|p]; cbn [render app Parse].
  - destruct Hi as [Hn Hk]. pose proof (token_of_flag two name [] Hn) as Ht. rewrite app_nil_r, split_equals_name in Ht by apply Hn.
    rewrite Ht, Hk. cbn [default from_option id]. destruct (set_flag _ _ BoolFlag name (text "true") actual); [by apply IH|done].
  - destruct Hi as [Hn [k Hk]]. pose proof (token_of_flag two name (equals :: v) Hn) as Ht. rewrite split_equals_value in Ht by apply Hn.
    rewrite Ht, Hk. cbn [default from_option id]. destruct k; cbn [default from_option id]; split_set; by try apply IH.
  - destruct Hi as (Hn & (k & Hk & Hb) & _). pose proof (token_of_flag two name [] Hn) as Ht.
    rewrite app_nil_r, split_equals_name in Ht by apply Hn. rewrite Ht, Hk. cbn [default from_option id].
    destruct k; cbn [default from_option id]; [done|..]; split_set; by try apply IH.
  - by apply IH.
Qed.

Lemma Parse_positionals actual pos :
  Parse ParseDuration ParseInt formal actual ((if needsFlagSentinel pos then [dashdash] else []) ++ pos) = Ok (mkFlagSet actual pos).
Proof using Type.
  destruct (needsFlagSentinel pos) eqn:E; [done|]. destruct pos as [|p pos]; [done|]. cbn [app Parse].
  cbn [needsFlagSentinel existsb] in E. apply orb_false_iff in E as [E _].
  assert (token_of p = TPositional) as ->; [|done]. destruct p as [|c [|c1 p]]; [done..|]. cbn.
  destruct (Byte.eqb c dash) eqn:Ed; [|done]. cbn in E. rewrite Ed in E. rewrite zlen_cons in E. cbn in E.
  destruct (Z.ltb_spec 0 (1 + zlen (c1 :: p))) as [|Hz]; [|zl]. by rewrite bool_decide_eq_false_2 in E.
Qed.

(** C39: flags may stand anywhere.  Whatever the order in which a command line
    mixes flags, their values and positional arguments, with a ["--"] before any
    that start with a dash, parsing it makes the flags' assignments in order and
    leaves the positional arguments in order; an argument a flag refuses is the
    error. *)
Theorem parseFlags_any_order items (after : option (list bytes)) :
  Forall (item_ok formal) items →
  parseFlags ParseDuration ParseInt formal
    (concat (render <$> items) ++ match after with Some l => dashdash :: l | None => [] end)
  = let? actual := settings items [] in Ok (mkFlagSet actual (positionals items ++ default [] after)).
Proof using Type.
  intros H. unfold parseFlags. rewrite reorder_items by done. cbn [app].
  assert (Hr : reorder formal false (flag_tokens items) (positionals items) (match after with Some l => dashdash :: l | None => [] end)
    = flag_tokens items ++ (if needsFlagSentinel (positionals items ++ default [] after) then [dashdash] else [])
        ++ positionals items ++ default [] after).
  { destruct after as [l|]; cbn [reorder default].
    - rewrite bool_decide_eq_true_2, reorder_after by done. cbn [reorder].
      destruct (needsFlagSentinel _); by rewrite <- ?app_assoc.
    - rewrite app_nil_r. destruct (needsFlagSentinel _); by rewrite <- ?app_assoc. }
  rewrite Hr, Parse_flag_items by done. destruct (settings items []) as [actual|]; [|done]. cbn [rbind]. apply Parse_positionals.
Qed.
End any_order.

(** A flag after the arguments, and one that only looks like a flag. *)
Lemma parseFlags_any_order_witness :
  let formal := [(text "addr", StringFlag); (text "hex", BoolFlag)] in
  let items := [Positional (text "k"); Setting true (text "addr") (text "h:1"); Positional (text "-"); Switch false (text "hex")] in
  let set := settings (λ _, None) (λ _ _, None) formal in
  parseFlags (λ _, None) (λ _ _, None) formal (concat (render <$> items) ++ [dashdash; text "-v"])
  = (let? actual := set items [] in Ok (mkFlagSet actual (positionals items ++ [text "-v"]))).
Proof.
  intros formal items set.
  apply (parseFlags_any_order (λ _, None) (λ _ _, None) formal items (Some [text "-v"])). unfold items.
  assert (Hn : name_ok (text "addr") ∧ name_ok (text "hex")) by (split; (split; [by apply (bool_decide_unpack _); vm_compute|done])).
  repeat constructor; try apply Hn; try done. by exists StringFlag.
Defined.
