(* ===== verification/JsonProgress.v ===== *)
(** * The JSON parser consumes input

    Each parser of Json leaves less than it was given, so that a loop over the
    values of a stream ends. *)
From S2P Require Import Prelude Names Json.

(** What a parser returns is followed by strictly less. *)
Definition consumes {A} (p : bytes → option (A * bytes)) : Prop := ∀ s a r, p s = Some (a, r) → (length r < length s)%nat.

Lemma skip_ws_le s : (length (skip_ws s) <= length s)%nat.
Proof. induction s as [|b s IH]; [done|]. cbn [skip_ws]. destruct (_ || _); cbn in *; lia. Qed.

Lemma emit_Some bs x t r : emit bs x = Some (t, r) → ∃ t', x = Some (t', r).
Proof. unfold emit. destruct x as [[t' r']|]; [|done]. cbn. intros [= _ <-]. by exists t'. Qed.

Lemma json_string_bounded n : ∀ s t r, (length s <= n)%nat → json_string s = Some (t, r) → (length r < length s)%nat.
Proof.
  induction n as [|n IH]; intros [|c s] t r Hn; cbn [length] in *; try done; [lia|]. cbn [json_string].
  assert (Hrec : ∀ s' t' r', json_string s' = Some (t', r') → (length s' <= length s)%nat → (length r' < S (length s))%nat).
  { intros s' t' r' E Hs. apply IH in E; lia. }
  intros H.
  repeat (first
    [ discriminate
    | match type of H with Some _ = Some _ => injection H as <- <-; lia end
    | match type of H with emit _ _ = Some _ => apply emit_Some in H as [? H]; eapply Hrec; [exact H|cbn [length]; lia] end
    | match type of H with mbind _ ?x = Some _ => destruct x; cbn [mbind option_bind] in H end
    | match type of H with (if ?b then _ else _) = _ => destruct b end
    | match type of H with (match ?x with _ => _ end) = _ => destruct x end ]).
Qed.
Lemma json_string_consumes : consumes json_string.
Proof. intros s t r. by eapply json_string_bounded. Qed.

(** ** Numbers *)

Lemma span_digits_le s : ∀ ds r, span_digits s = (ds, r) → (length r + length ds = length s)%nat.
Proof.
  induction s as [|b s IH]; intros ds r; cbn; [by intros [= <- <-]|]. destruct (is_digit b); [|by intros [= <- <-]].
  destruct (span_digits s) as [ds' r'] eqn:E. intros [= <- <-]. specialize (IH _ _ eq_refl). cbn. lia.
Qed.
Lemma digits1_consumes : consumes digits1.
Proof.
  intros s ds r. unfold digits1. destruct (span_digits s) as [[|d ds'] r'] eqn:E; [done|]. intros [= <- <-].
  apply span_digits_le in E. cbn in E. lia.
Qed.
Lemma json_int_consumes : consumes json_int.
Proof.
  intros [|b s] ds r; cbn [json_int]; [done|]. destruct (_ =? _); [intros [= <- <-]; cbn; lia|]. apply digits1_consumes.
Qed.
Lemma json_frac_le s ds r : json_frac s = Some (ds, r) → (length r <= length s)%nat.
Proof.
  destruct s as [|b s]; cbn; [by intros [= <- <-]|]. destruct (_ =? _); [|by intros [= <- <-]].
  destruct (digits1 s) as [[ds' r']|] eqn:E; [|done]. cbn. intros [= <- <-]. apply digits1_consumes in E. lia.
Qed.
Lemma json_exp_le s ds r : json_exp s = Some (ds, r) → (length r <= length s)%nat.
Proof.
  destruct s as [|b s]; cbn; [by intros [= <- <-]|]. destruct (_ || _); [|by intros [= <- <-]].
  destruct (json_sign s) as [sg s1] eqn:Es. destruct (digits1 s1) as [[ds' r']|] eqn:E; [|done]. cbn. intros [= <- <-].
  apply digits1_consumes in E. unfold json_sign in Es. destruct s as [|b' s]; [injection Es as <- <-; cbn in *; lia|].
  destruct (_ || _); injection Es as <- <-; cbn in *; lia.
Qed.
Lemma json_number_consumes : consumes json_number.
Proof.
  intros s n r. unfold json_number.
  assert (Hm : ∀ m s0, match s with b :: s' => if b2z b =? 45 then ([b], s') else ([], s) | [] => ([], []) end = (m, s0) → (length s0 <= length s)%nat).
  { intros m s0. destruct s as [|b s]; [by intros [= <- <-]|]. destruct (_ =? _); intros [= <- <-]; cbn; lia. }
  destruct (match s with b :: s' => _ | [] => _ end) as [m s0] eqn:Em. specialize (Hm _ _ eq_refl).
  destruct (json_int s0) as [[i s1]|] eqn:Ei; [|done]. cbn [mbind option_bind].
  destruct (json_frac s1) as [[f s2]|] eqn:Ef; [|done]. cbn [mbind option_bind].
  destruct (json_exp s2) as [[x s3]|] eqn:Ex; [|done]. cbn. intros [= <- <-].
  apply json_int_consumes in Ei. apply json_frac_le in Ef. apply json_exp_le in Ex. lia.
Qed.

(** ** Values *)

Lemma has_prefix_length p s : has_prefix p s = true → (length p <= length s)%nat.
Proof. unfold has_prefix. intros H%bool_decide_eq_true. apply (f_equal length) in H. rewrite length_take in H. lia. Qed.

Lemma json_literal_consumes : consumes json_literal.
Proof.
  intros s v r. unfold json_literal.
  destruct (has_prefix _ s) eqn:E1; [|destruct (has_prefix (String.list_byte_of_string "true") s) eqn:E2;
    [|destruct (has_prefix (String.list_byte_of_string "false") s) eqn:E3]].
  1-3: intros [= <- <-]; rewrite length_drop;
    match goal with H : has_prefix _ _ = true |- _ => apply has_prefix_length in H; cbn in H end; lia.
  destruct (json_number s) as [[n r']|] eqn:E; [|done]. cbn. intros [= <- <-]. by eapply json_number_consumes.
Qed.

Section containers.
Context (value : bytes → option (json * bytes)) (Hv : consumes value).

Lemma json_elements_consumes fuel : consumes (json_elements value fuel).
Proof using Hv.
  induction fuel as [|fuel IH]; intros s vs r; [done|]. cbn [json_elements].
  destruct (value s) as [[v r1]|] eqn:E; [|done]. cbn [mbind option_bind]. apply Hv in E. pose proof (skip_ws_le r1) as Hle.
  destruct (skip_ws r1) as [|c r']; [done|]. cbn in Hle. destruct (_ =? _).
  - destruct (json_elements value fuel r') as [[vs' r2]|] eqn:E2; [|done]. cbn. intros [= <- <-]. apply IH in E2. lia.
  - destruct (_ =? _); [|done]. intros [= <- <-]. lia.
Qed.

Lemma json_members_consumes fuel : consumes (json_members value fuel).
Proof using Hv.
  induction fuel as [|fuel IH]; intros s ms r; [done|]. cbn [json_members]. pose proof (skip_ws_le s) as Hs.
  destruct (skip_ws s) as [|q s1]; [done|]. destruct (_ =? _); [|done].
  destruct (json_string s1) as [[k r1]|] eqn:Ek; [|done]. cbn [mbind option_bind]. apply json_string_consumes in Ek.
  pose proof (skip_ws_le r1) as Hr1. destruct (skip_ws r1) as [|c r']; [done|]. destruct (_ =? _); [|done].
  destruct (value r') as [[v r2]|] eqn:Ev; [|done]. cbn [mbind option_bind]. apply Hv in Ev.
  pose proof (skip_ws_le r2) as Hr2. destruct (skip_ws r2) as [|c2 r3]; [done|]. cbn [length] in *. destruct (_ =? _).
  - destruct (json_members value fuel r3) as [[ms' r4]|] eqn:E4; [|done]. cbn. intros [= <- <-]. apply IH in E4. lia.
  - destruct (_ =? _); [|done]. intros [= <- <-]. lia.
Qed.
End containers.

Lemma json_value_consumes d : consumes (json_value d).
Proof.
  induction d as [|d IH]; intros s v r; cbn [json_value]; pose proof (skip_ws_le s) as Hs;
    (destruct (skip_ws s) as [|c s1]; [done|]); cbn [length] in Hs; destruct (_ =? 34).
  1, 3: destruct (json_string s1) as [[t r1]|] eqn:E; [|done]; cbn; intros [= <- <-]; apply json_string_consumes in E; lia.
  - destruct (_ =? 91); [done|]. destruct (_ =? 123); [done|]. intros E%json_literal_consumes. cbn in E. lia.
  - pose proof (skip_ws_le s1) as Hs1. destruct (_ =? 91).
    + destruct (skip_ws s1) as [|c1 r1]; [done|]. cbn [length] in Hs1. destruct (_ =? _); [intros [= <- <-]; lia|].
      destruct (json_elements _ _ s1) as [[vs r2]|] eqn:E; [|done]. cbn. intros [= <- <-]. apply json_elements_consumes in E; [lia|done].
    + destruct (_ =? 123); [|intros E%json_literal_consumes; cbn in E; lia].
      destruct (skip_ws s1) as [|c1 r1]; [done|]. cbn [length] in Hs1. destruct (_ =? _); [intros [= <- <-]; lia|].
      destruct (json_members _ _ s1) as [[ms r2]|] eqn:E; [|done]. cbn. intros [= <- <-]. apply json_members_consumes in E; [lia|done].
Qed.
