(* ===== verification/Encoding.v ===== *)
(** * Text encodings of bytes (encoding/hex, encoding/base64)

    The two the command line uses: hexadecimal arguments, and the base64 of the
    NDJSON lines that [range] prints and [batch] reads. *)
From S2P Require Import Prelude Names Json.

(** ** encoding/hex *)

Definition hex_ErrLength : string := "encoding/hex: odd length hex string".

(** [hex.DecodeString] *)
Fixpoint hex_DecodeString (s : bytes) : result bytes :=
  match s with
  | [] => Ok []
  | [a] => match hex_value a with
           | Some _ => Err (ESentinel hex_ErrLength)
           | None => Err (errorf "encoding/hex: invalid byte: %#U")
           end
  | a :: b :: s' =>
      match hex_value a, hex_value b with
      | Some x, Some y => let? r := hex_DecodeString s' in Ok (z2b (16 * x + y) :: r)
      | _, _ => Err (errorf "encoding/hex: invalid byte: %#U")
      end
  end.

(** ** encoding/base64, the standard alphabet with padding *)

Definition b64_char (z : Z) : byte :=
  if z <? 26 then z2b (65 + z) else if z <? 52 then z2b (97 + (z - 26))
  else if z <? 62 then z2b (48 + (z - 52)) else if z =? 62 then x2b else x2f.

Definition b64_value (b : byte) : option Z :=
  let z := b2z b in
  if (65 <=? z) && (z <=? 90) then Some (z - 65)
  else if (97 <=? z) && (z <=? 122) then Some (z - 71)
  else if (48 <=? z) && (z <=? 57) then Some (z + 4)
  else if z =? 43 then Some 62
  else if z =? 47 then Some 63
  else None.

Definition pad : byte := x3d.

(** [StdEncoding.EncodeToString] *)
Fixpoint b64_EncodeToString (s : bytes) : bytes :=
  match s with
  | [] => []
  | [a] => let x := b2z a in [b64_char (x / 4); b64_char (x mod 4 * 16); pad; pad]
  | [a; b] =>
      let x := b2z a in let y := b2z b in
      [b64_char (x / 4); b64_char (x mod 4 * 16 + y / 16); b64_char (y mod 16 * 4); pad]
  | a :: b :: c :: s' =>
      let x := b2z a in let y := b2z b in let z := b2z c in
      [b64_char (x / 4); b64_char (x mod 4 * 16 + y / 16); b64_char (y mod 16 * 4 + z / 64); b64_char (z mod 64)]
      ++ b64_EncodeToString s'
  end.

(** The quanta of four characters, the last perhaps padded; the bits that padding
    leaves over are not looked at. *)
Fixpoint b64_quanta (s : bytes) : option bytes :=
  match s with
  | [] => Some []
  | a :: b :: c :: d :: s' =>
      x ← b64_value a; y ← b64_value b;
      let b1 := z2b (x * 4 + y / 16) in
      if bool_decide (c = pad) then
        (if bool_decide (d = pad ∧ s' = []) then Some [b1] else None)
      else
        z ← b64_value c;
        let b2 := z2b (y mod 16 * 16 + z / 4) in
        if bool_decide (d = pad) then (if bool_decide (s' = []) then Some [b1; b2] else None)
        else w ← b64_value d; r ← b64_quanta s'; Some (b1 :: b2 :: z2b (z mod 4 * 64 + w) :: r)
  | _ => None
  end.

(** [StdEncoding.DecodeString]: line breaks are skipped. *)
Definition b64_DecodeString (s : bytes) : result bytes :=
  match b64_quanta (List.filter (λ b, negb ((b2z b =? 10) || (b2z b =? 13))) s) with
  | Some r => Ok r
  | None => Err (errorf "illegal base64 data at input byte %d")
  end.

(** ** Lemmas *)

Lemma b64_char_facts z :
  0 <= z < 64 →
  b64_value (b64_char z) = Some z ∧ b64_char z ≠ pad ∧ plain (b64_char z) = true
  ∧ b2z (b64_char z) ≠ 10 ∧ b2z (b64_char z) ≠ 13.
Proof.
  intros H.
  assert (Hall : forallb (λ n, let c := b64_char (Z.of_nat n) in
    bool_decide (b64_value c = Some (Z.of_nat n)) && bool_decide (c ≠ pad) && plain c
    && negb (b2z c =? 10) && negb (b2z c =? 13)) (seq 0 64) = true) by by vm_compute.
  rewrite forallb_forall in Hall. specialize (Hall (Z.to_nat z)). rewrite Z2Nat.id in Hall by lia.
  specialize (Hall ltac:(apply in_seq; lia)). cbn zeta in Hall.
  repeat (apply andb_prop in Hall as [Hall ?]). apply bool_decide_eq_true in Hall. split; [done|].
  split; [by eapply bool_decide_eq_true_1|]. split; [done|]. split; by apply Z.eqb_neq, negb_true_iff.
Qed.

(** The characters of an encoding. *)
Definition b64_text (s : bytes) : Prop := Forall (λ b, plain b = true ∧ b2z b ≠ 10 ∧ b2z b ≠ 13) s.

(** [three_ind] follows the recursion of the encoder. *)
Lemma three_ind (P : bytes → Prop) :
  P [] → (∀ a, P [a]) → (∀ a b, P [a; b]) → (∀ a b c s, P s → P (a :: b :: c :: s)) → ∀ s, P s.
Proof.
  intros H0 H1 H2 H3. fix IH 1. intros [|a [|b [|c s]]]; [done|apply H1|apply H2|apply H3, IH].
Qed.

Ltac b64_chars :=
  repeat match goal with
         | |- context [b64_char ?z] =>
             lazymatch goal with H : b64_value (b64_char z) = _ |- _ => fail | _ => idtac end;
             let H := fresh in
             assert (H : 0 <= z < 64) by (Z.to_euclidean_division_equations; lia);
             apply b64_char_facts in H as (? & ? & ? & ? & ?)
         end.

Lemma b64_text_encode s : b64_text (b64_EncodeToString s).
Proof.
  induction s as [|a|a b|a b c s IH] using three_ind; unfold b64_text in *; cbn [b64_EncodeToString app];
    try pose proof (b2z_bound a); try pose proof (b2z_bound b); try pose proof (b2z_bound c);
    b64_chars; repeat (constructor; [done|]); by try apply IH.
Qed.

Lemma z2b_eq z b : z = b2z b → z2b z = b.
Proof. intros ->. apply z2b_b2z. Qed.
Ltac b64_bytes := repeat f_equal; apply z2b_eq; Z.to_euclidean_division_equations; lia.

Lemma b64_quanta_encode s : b64_quanta (b64_EncodeToString s) = Some s.
Proof.
  induction s as [|a|a b|a b c s IH] using three_ind; [done|..]; cbn [b64_EncodeToString b64_quanta app];
    try pose proof (b2z_bound a); try pose proof (b2z_bound b); try pose proof (b2z_bound c); b64_chars;
    repeat match goal with
           | H : b64_value ?c = Some _ |- context [b64_value ?c] => rewrite H
           | H : ?c ≠ pad |- context [bool_decide (?c = pad)] => rewrite (bool_decide_eq_false_2 _ H)
           end; cbn [mbind option_bind].
  - rewrite bool_decide_eq_true_2 by done. by b64_bytes.
  - rewrite bool_decide_eq_true_2 by done. rewrite bool_decide_eq_true_2 by done. by b64_bytes.
  - rewrite IH. cbn [mbind option_bind]. by b64_bytes.
Qed.

Lemma b64_roundtrip s : b64_DecodeString (b64_EncodeToString s) = Ok s.
Proof.
  unfold b64_DecodeString. replace (List.filter _ _) with (b64_EncodeToString s); [by rewrite b64_quanta_encode|].
  pose proof (b64_text_encode s) as H. induction H as [|c t (_ & H1 & H2) _ IH]; [done|]. cbn.
  destruct (Z.eqb_spec (b2z c) 10), (Z.eqb_spec (b2z c) 13); try done. cbn. by f_equal.
Qed.
