(* ===== verification/Cli.v ===== *)
(** * The command line (cmd/little-db)

    Each subcommand parses its flags, checks its arguments, dials the server and
    makes one call of the client.  A run is a function of the arguments and of
    the standard streams; what package flag prints, and the text of errors inside
    diagnostics, are left out. *)
From S2P Require Import Prelude Names Json Encoding Server WireFrame WireRequest WireResponse Client Flags.
Import Wire.

(** ** Exit codes *)

Definition exitOK : Z := 0.
Definition exitTransport : Z := 1.
Definition exitUsage : Z := 2.
Definition exitRemoteBad : Z := 3.
Definition exitNotFound : Z := 4.
Definition exitOverloaded : Z := 5.

Definition defaultAddr : bytes := text "127.0.0.1:4242".
Definition cli_defaultDialTimeout : Z := 5 * time_Second.
Definition cli_defaultRequestTimeout : Z := 30 * time_Second.

(** ** Standard streams *)

(** What standard input holds and the error after it ([None] for its end), what
    was written to standard output and which of the coming writes fail, and the
    diagnostics: their formats and those operands that are text. *)
Record stdio := mkStdio {
  si_data : bytes;
  si_err : option error;
  so_data : bytes;
  so_faults : list (option Z);
  se_diag : list (string * list bytes);
}.

Definition say (format : string) (args : list bytes) (io : stdio) : stdio :=
  mkStdio (si_data io) (si_err io) (so_data io) (so_faults io) (se_diag io ++ [(format, args)]).

(** [stdout.Write] *)
Definition stdout_Write (bs : bytes) (io : stdio) : option error * stdio :=
  let wrote bs fs := mkStdio (si_data io) (si_err io) (so_data io ++ bs) fs (se_diag io) in
  match so_faults io with
  | [] => (None, wrote bs [])
  | None :: fs => (None, wrote bs fs)
  | Some n :: fs => (Some (errorf "write /dev/stdout"), wrote (slice_to bs n) fs)
  end.

(** [io.ReadAll(io.LimitReader(stdin, n))] *)
Definition read_limited (n : Z) (io : stdio) : result bytes :=
  if n <=? zlen (si_data io) then Ok (slice_to (si_data io) n)
  else match si_err io with Some err => Err err | None => Ok (si_data io) end.

(** The exit code, the streams, and the connection as the deferred [Close] finds
    it, if one was made. *)
Abbreviation outcome := (Z * stdio * option conn)%type.

Definition quit (code : Z) (format : string) (args : list bytes) (io : stdio) : outcome :=
  (code, say format args io, None).
Definition usage (format : string) (io : stdio) : outcome := quit exitUsage format [] io.

(** ** Errors *)

Definition statusName (s : Z) : string :=
  if s =? StatusOK then "OK"
  else if s =? StatusNotFound then "NOT_FOUND"
  else if s =? StatusBadRequest then "BAD_REQUEST"
  else if s =? StatusInternal then "INTERNAL"
  else if s =? StatusClosed then "CLOSED"
  else if s =? StatusOverload then "OVERLOAD"
  else "status(0x%02x)".

Definition classifyErr (err : option werror) (io : stdio) : Z * stdio :=
  match err with
  | None => (exitOK, io)
  | Some (RemoteError status msg) =>
      let io := say "little-db: server returned %s: %s" [text (statusName status); msg] io in
      (if status =? StatusNotFound then exitNotFound
       else if (status =? StatusBadRequest) || (status =? StatusInternal) then exitRemoteBad
       else if (status =? StatusOverload) || (status =? StatusClosed) then exitOverloaded
       else exitRemoteBad, io)
  | Some (WErr e) =>
      if errors_Is e Client.ErrNotFound then (exitNotFound, say "little-db: not found" [] io)
      else match errors_As protocol_class e, errors_As frame_class e with
           | Some _, _ => (exitTransport, say "little-db: protocol error: %v" [] io)
           | None, Some _ => (exitTransport, say "little-db: frame error: %v" [] io)
           | None, None => (exitTransport, say "little-db: %v" [] io)
           end
  end.

(** The error of a reply. *)
Definition reply_err {A} (r : reply A) : option werror := match r with inl _ => None | inr e => Some e end.

(** ** Arguments *)

Definition decodeArg (arg : bytes) (asHex : bool) : result bytes :=
  if asHex then match hex_DecodeString arg with
                | Ok b => Ok b
                | Err _ => Err (errorf "%s: invalid hex: %v")
                end
  else Ok arg.

Definition validateKey (key : bytes) : option error :=
  if zlen key =? 0 then Some (errorf "%s: empty")
  else if MaxKeyLen <? zlen key then Some (errorf "%s: %d bytes exceeds max=%d")
  else None.

Definition validateValue (val : bytes) : option error :=
  if MaxValLen <? zlen val then Some (errorf "%s: %d bytes exceeds max=%d") else None.

Definition validateRangeBound (b : bytes) : option error :=
  if MaxKeyLen <? zlen b then Some (errorf "%s: %d bytes exceeds max=%d") else None.

(** ** Batch files *)

Record batchLine := mkBatchLine { bl_Op : bytes; bl_Key : bytes; bl_Value : bytes }.

(** One member of a line's object, into the field it names; null leaves it. *)
Definition unmarshal_line_member (l : batchLine) (kv : bytes * json) : option batchLine :=
  let (k, v) := kv in
  let into set := match v with JNull => Some l | JStr s => Some (set s) | _ => None end in
  if equal_fold k (text "op") then into (λ s, mkBatchLine s (bl_Key l) (bl_Value l))
  else if equal_fold k (text "key") then into (λ s, mkBatchLine (bl_Op l) s (bl_Value l))
  else if equal_fold k (text "value") then into (λ s, mkBatchLine (bl_Op l) (bl_Key l) s)
  else Some l.

Definition unmarshal_line (v : json) : option batchLine :=
  let l0 := mkBatchLine [] [] [] in
  match v with
  | JNull => Some l0
  | JObj kvs => foldl (λ acc kv, l ← acc; unmarshal_line_member l kv) (Some l0) kvs
  | _ => None
  end.

(** [json.Decoder.Decode(&l)]: the next value of the stream. *)
Definition Decode (r : bytes) (rerr : option error) : result (batchLine * bytes) :=
  match skip_ws r with
  | [] => Err (match rerr with None => ESentinel io_EOF | Some err => err end)
  | _ => match json_value json_maxDepth r with
         | None => Err (errorf "invalid JSON")
         | Some (v, rest) => match unmarshal_line v with
                             | Some l => Ok (l, rest)
                             | None => Err (errorf "json: cannot unmarshal")
                             end
         end
  end.

Definition decodeBatchField (s : bytes) (plain : bool) : result bytes :=
  if plain then Ok s
  else match b64_DecodeString s with
       | Ok b => Ok b
       | Err err => Err (EWrap "not valid base64: %w (use --plain for literal strings)" [err])
       end.

Definition batchEntryOverhead : Z := 1 + 4 + 4.
Definition batchHeaderSize : Z := 4.
Definition batchBodyBudget : Z := MaxFramePayload - 1.

(** An entry and the encoded size with it; an error is a usage error. *)
Definition batch_line (plain : bool) (encodedSize : Z) (l : batchLine) : result (BatchEntry * Z) :=
  match decodeBatchField (bl_Key l) plain with
  | Err _ => Err (errorf "batch: entry %d: key %v")
  | Ok key =>
    match validateKey key with
    | Some _ => Err (errorf "batch: entry %d: %v")
    | None =>
      if bool_decide (bl_Op l = text "put") then
        match decodeBatchField (bl_Value l) plain with
        | Err _ => Err (errorf "batch: entry %d: value %v")
        | Ok val =>
          match validateValue val with
          | Some _ => Err (errorf "batch: entry %d: %v")
          | None =>
            let encodedSize := encodedSize + (batchEntryOverhead + zlen key + zlen val) in
            if batchBodyBudget <? encodedSize
            then Err (errorf "batch: encoded size after entry %d exceeds max frame payload (%d > %d)")
            else Ok (mkBatchEntry false key val, encodedSize)
          end
        end
      else if bool_decide (bl_Op l = text "delete") then
        let encodedSize := encodedSize + (batchEntryOverhead + zlen key) in
        if batchBodyBudget <? encodedSize
        then Err (errorf "batch: encoded size after entry %d exceeds max frame payload (%d > %d)")
        else Ok (mkBatchEntry true key [], encodedSize)
      else Err (errorf "batch: entry %d: op must be put or delete, got %q")
    end
  end.

(** The decode loop; the end of the stream ends it. *)
Fixpoint batch_entries (fuel : nat) (plain : bool) (r : bytes) (rerr : option error) (encodedSize : Z) (entries : list BatchEntry)
    : result (list BatchEntry) :=
  match fuel with
  | O => Err (errorf "out of fuel")
  | S fuel' =>
    match Decode r rerr with
    | Err err => if errors_Is err io_EOF then Ok entries else Err (errorf "batch: entry %d: invalid JSON: %v")
    | Ok (l, r) =>
      let? (e, encodedSize) := batch_line plain encodedSize l in
      batch_entries fuel' plain r rerr encodedSize (entries ++ [e])
    end
  end.

(** ** The subcommands *)

Section cli.
(** Package time's and strconv's parsers, the environment, files and the network. *)
Context (ParseDuration : bytes → option Z) (ParseInt : Z → bytes → option Z).
Context (os_Getenv : string → bytes) (os_Open : bytes → result (bytes * option error)).
Context (net_DialTimeout : bytes → Z → result conn).

Record connOpts := mkConnOpts { co_addr : bytes; co_dialTimeout : Z; co_requestTimeout : Z }.

Definition envOr (key : string) (fallback : bytes) : bytes :=
  match os_Getenv key with [] => fallback | v => v end.

Definition envDurOr (key : string) (fallback : Z) : Z :=
  match os_Getenv key with
  | [] => fallback
  | v => match ParseDuration v with Some d => d | None => fallback end
  end.

(** [registerConnFlags]: the flags, and their values once parsed. *)
Definition conn_formals : formals :=
  [(text "addr", StringFlag); (text "dial-timeout", DurationFlag); (text "request-timeout", DurationFlag)].
Definition flag_duration (fs : FlagSet) (name : string) (dflt : Z) : Z :=
  foldl (λ acc nv, if bool_decide (nv.1 = text name) then default acc (ParseDuration nv.2) else acc) dflt (fs_actual fs).
Definition conn_opts (fs : FlagSet) : connOpts :=
  mkConnOpts (flag_text fs "addr" (envOr "LITTLE_DB_ADDR" defaultAddr))
    (flag_duration fs "dial-timeout" (envDurOr "LITTLE_DB_DIAL_TIMEOUT" cli_defaultDialTimeout))
    (flag_duration fs "request-timeout" (envDurOr "LITTLE_DB_REQUEST_TIMEOUT" cli_defaultRequestTimeout)).

Definition dialClient (co : connOpts) (io : stdio) : option client * Z * stdio :=
  match Dial net_DialTimeout (co_addr co) (mkClientOptions (co_dialTimeout co) (co_requestTimeout co)) with
  | Err _ => (None, exitTransport, say "little-db: dial %s: %v" [co_addr co] io)
  | Ok c => (Some c, exitOK, io)
  end.

(** Dial, use the client, close it. *)
Definition with_client (co : connOpts) (f : client → stdio → Z * stdio * client) (io : stdio) : outcome :=
  match dialClient co io with
  | (None, code, io) => (code, io, None)
  | (Some c, _, io) => let '(code, io, c) := f c io in (code, io, cl_conn c)
  end.

(** The flags of a subcommand, or [exitUsage]. *)
Definition with_flags (formal : formals) (args : list bytes) (io : stdio) (f : FlagSet → outcome) : outcome :=
  match parseFlags ParseDuration ParseInt (conn_formals ++ formal) args with
  | Err _ => (exitUsage, io, None)
  | Ok fs => f fs
  end.

Definition key_formals : formals := [(text "key-hex", BoolFlag)].
Definition put_formals : formals :=
  [(text "key-hex", BoolFlag); (text "value-hex", BoolFlag); (text "value-stdin", BoolFlag)].
Definition range_formals : formals :=
  [(text "start", StringFlag); (text "end", StringFlag); (text "start-hex", BoolFlag); (text "end-hex", BoolFlag);
   (text "format", StringFlag)].
Definition batch_formals : formals := [(text "plain", BoolFlag)].

(** A call whose success is announced on standard error. *)
Definition announce (format : string) (r : reply unit) (c : client) (io : stdio) : Z * stdio * client :=
  let (code, io) := classifyErr (reply_err r) io in
  if negb (code =? exitOK) then (code, io, c) else (exitOK, say format [] io, c).

Definition runPut (args : list bytes) (io : stdio) : outcome :=
  with_flags put_formals args io (λ fs,
    let valHex := flag_bool fs "value-hex" false in
    let valStdin := flag_bool fs "value-stdin" false in
    let wantArgs := if valStdin then 1 else 2 in
    if valStdin && valHex then usage "put: --value-stdin and --value-hex are mutually exclusive" io
    else if negb (NArg fs =? wantArgs) then
      usage (if valStdin then "put --value-stdin: expected KEY (value comes from stdin)" else "put: expected KEY VALUE") io
    else match decodeArg (Arg fs 0) (flag_bool fs "key-hex" false) with
         | Err _ => usage "key: invalid hex: %v" io
         | Ok key =>
           match validateKey key with
           | Some _ => usage "put: %v" io
           | None =>
             match (if valStdin then
                      match read_limited (MaxValLen + 1) io with
                      | Err _ => inr (quit exitTransport "put --value-stdin: read: %v" [] io)
                      | Ok val => inl val
                      end
                    else match decodeArg (Arg fs 1) valHex with
                         | Err _ => inr (usage "value: invalid hex: %v" io)
                         | Ok val => inl val
                         end) with
             | inr out => out
             | inl val =>
               match validateValue val with
               | Some _ => usage "put: %v" io
               | None => with_client (conn_opts fs) (λ c io,
                   let (r, c) := Client.Put key val c in announce "OK put key=%d val=%d" r c io) io
               end
             end
           end
         end).

(** The argument of [get] and [delete]. *)
Definition one_key (cmd : string) (fs : FlagSet) (io : stdio) (f : bytes → outcome) : outcome :=
  if negb (NArg fs =? 1) then usage (String.append cmd ": expected KEY") io
  else match decodeArg (Arg fs 0) (flag_bool fs "key-hex" false) with
       | Err _ => usage "key: invalid hex: %v" io
       | Ok key => match validateKey key with
                   | Some _ => usage (String.append cmd ": %v") io
                   | None => f key
                   end
       end.

Definition runGet (args : list bytes) (io : stdio) : outcome :=
  with_flags key_formals args io (λ fs,
    one_key "get" fs io (λ key,
      with_client (conn_opts fs) (λ c io,
        match Client.Get key c with
        | (inr err, c) =>
            if match err with WErr e => errors_Is e Client.ErrNotFound | RemoteError _ _ => false end
            then (exitNotFound, say "little-db get: no such key %q" [key] io, c)
            else let (code, io) := classifyErr (Some err) io in (code, io, c)
        | (inl val, c) =>
            match stdout_Write val io with
            | (Some _, io) => (exitTransport, say "get: write stdout: %v" [] io, c)
            | (None, io) => (exitOK, io, c)
            end
        end) io)).

Definition runDelete (args : list bytes) (io : stdio) : outcome :=
  with_flags key_formals args io (λ fs,
    one_key "delete" fs io (λ key,
      with_client (conn_opts fs) (λ c io,
        let (r, c) := Client.Delete key c in announce "OK delete key=%d" r c io) io)).

(** [fmt.Fprintln(stdout, ...)] and [Fprintf], whose errors are dropped. *)
Definition print (bs : bytes) (io : stdio) : stdio := (stdout_Write bs io).2.

Definition runPing (args : list bytes) (io : stdio) : outcome :=
  with_flags [] args io (λ fs,
    if negb (NArg fs =? 0) then usage "ping: takes no positional args" io
    else with_client (conn_opts fs) (λ c io,
      match Ping c with
      | (inr err, c) => let (code, io) := classifyErr (Some err) io in (code, io, c)
      | (inl _, c) => (exitOK, print (text "pong" ++ [x0a]) io, c)
      end) io).

Definition runStats (args : list bytes) (io : stdio) : outcome :=
  with_flags [] args io (λ fs,
    if negb (NArg fs =? 0) then usage "stats: takes no positional args" io
    else with_client (conn_opts fs) (λ c io,
      match Client.Stats c with
      | (inr err, c) => let (code, io) := classifyErr (Some err) io in (code, io, c)
      | (inl (keys, nbytes), c) =>
          (exitOK, print (text "key_count=" ++ itoa 20 keys ++ text " bytes_on_disk=" ++ itoa 20 nbytes ++ [x0a]) io, c)
      end) io).

(** [runRange]'s bound: an empty flag is an open bound. *)
Definition range_bound (fs : FlagSet) (name hexName : string) : result (option bytes) :=
  match flag_text fs name [] with
  | [] => Ok None
  | s => match decodeArg s (flag_bool fs hexName false) with
         | Err _ => Err (errorf "%s: invalid hex: %v")
         | Ok b => match validateRangeBound b with
                   | Some _ => Err (errorf "range: %v")
                   | None => Ok (Some b)
                   end
         end
  end.

(** [json.Marshal] of a pair of base64 strings, whose characters it leaves alone,
    and a line break. *)
Definition ndjson_line (kv : KV) : bytes :=
  let quoted s := [x22] ++ s ++ [x22] in
  text "{" ++ quoted (text "key") ++ text ":" ++ quoted (b64_EncodeToString (kv_Key kv))
    ++ text "," ++ quoted (text "value") ++ text ":" ++ quoted (b64_EncodeToString (kv_Value kv)) ++ text "}" ++ [x0a].

Variant rangeFormat := Ndjson | Raw.

(** [emit]; the raw format makes four writes. *)
Fixpoint write_each (l : list bytes) (io : stdio) : option error * stdio :=
  match l with
  | [] => (None, io)
  | bs :: l' => match stdout_Write bs io with
                | (Some err, io) => (Some err, io)
                | (None, io) => write_each l' io
                end
  end.
Definition pair_writes (f : rangeFormat) (kv : KV) : list bytes :=
  match f with
  | Ndjson => [ndjson_line kv]
  | Raw => [kv_Key kv; [x09]; kv_Value kv; [x0a]]
  end.
Definition emit_pair (f : rangeFormat) (kv : KV) : stdio → option error * stdio := write_each (pair_writes f kv).

(** The page function, over the streams and [writeErr]. *)
Fixpoint emit_page (f : rangeFormat) (pairs : list KV) (a : stdio * option error) : bool * (stdio * option error) :=
  match pairs with
  | [] => (true, a)
  | kv :: pairs' => match emit_pair f kv a.1 with
                    | (Some werr, io) => (false, (io, Some werr))
                    | (None, io) => emit_page f pairs' (io, a.2)
                    end
  end.

Definition format_of (s : bytes) : option rangeFormat :=
  if bool_decide (s = text "ndjson") then Some Ndjson else if bool_decide (s = text "raw") then Some Raw else None.

Definition run_range_call (f : rangeFormat) (start end_ : option bytes) (c : client) (io : stdio) : Z * stdio * client :=
  let '(err, (io, writeErr), c) := Client.ReadKeyRange start end_ (Some (emit_page f)) (io, None) c in
  match writeErr with
  | Some _ => (exitTransport, say "range: write stdout: %v" [] io, c)
  | None => let (code, io) := classifyErr err io in (code, io, c)
  end.

Definition runRange (args : list bytes) (io : stdio) : outcome :=
  with_flags range_formals args io (λ fs,
    if negb (NArg fs =? 0) then usage "range: use --start/--end flags, not positional args" io
    else match range_bound fs "start" "start-hex" with
         | Err _ => usage "range: %v" io
         | Ok start =>
           match range_bound fs "end" "end-hex" with
           | Err _ => usage "range: %v" io
           | Ok end_ =>
             let s := default [] start in let e := default [] end_ in
             if (0 <? zlen s) && (0 <? zlen e) && (0 <? bytes_Compare s e)
             then quit exitUsage "range: --start (%q) > --end (%q)" [s; e] io
             else match format_of (flag_text fs "format" (text "ndjson")) with
                  | None => usage "range: unknown --format %q (want ndjson|raw)" io
                  | Some f => with_client (conn_opts fs) (run_range_call f start end_) io
                  end
           end
         end).

Definition runBatch (args : list bytes) (io : stdio) : outcome :=
  with_flags batch_formals args io (λ fs,
    let plain := flag_bool fs "plain" false in
    if negb (NArg fs =? 1) then usage "batch: expected one positional arg (- for stdin)" io
    else
      let src := Arg fs 0 in
      match (if bool_decide (src = [dash]) then Ok (si_data io, si_err io) else os_Open src) with
      | Err _ => quit exitUsage "batch: open %s: %v" [src] io
      | Ok (data, rerr) =>
        match batch_entries (S (length data)) plain data rerr batchHeaderSize [] with
        | Err _ => usage "batch: entry %d: %v" io
        | Ok entries =>
          if zlen entries =? 0 then usage "batch: no entries to submit" io
          else if MaxBatchEntries <? zlen entries then usage "batch: %d entries exceeds max=%d" io
          else with_client (conn_opts fs) (λ c io,
                 let (r, c) := Batch entries c in announce "OK batch entries=%d" r c io) io
        end
      end).

(** ** The entry point *)

(** A line of the usage text; [dq] is a double quote. *)
Definition dq : bytes := [x22].
Definition line (parts : list bytes) : bytes := concat parts ++ [x0a].
Definition usage_text : bytes :=
  concat
    (line <$>
       [[text "Usage: little-db <subcommand> [flags]"]; [];
        [text "Subcommands:"];
        [text "  serve    Run the TCP server, bound to an on-disk engine"];
        [text "  put      PUT a key=value"];
        [text "  get      GET a key"];
        [text "  delete   DELETE a key"];
        [text "  range    Stream a key range"];
        [text "  batch    Submit a batch (NDJSON on stdin with "; dq; text "-"; dq; text ")"];
        [text "  stats    Print server stats"];
        [text "  ping     Health-check the server"]; [];
        [text "Run "; dq; text "little-db <subcommand> --help"; dq; text " for subcommand flags."]]).

(** [run]: [serve] is handed its arguments, every other subcommand is run. *)
Variant command := Serve (rest : list bytes) | Done (o : outcome).

Definition run (args : list bytes) (io : stdio) : command :=
  match args with
  | [] => Done (exitUsage, say "%s" [usage_text] io, None)
  | cmd :: rest =>
    if bool_decide (cmd = text "serve") then Serve rest
    else if bool_decide (cmd = text "put") then Done (runPut rest io)
    else if bool_decide (cmd = text "get") then Done (runGet rest io)
    else if bool_decide (cmd = text "delete") then Done (runDelete rest io)
    else if bool_decide (cmd = text "range") then Done (runRange rest io)
    else if bool_decide (cmd = text "batch") then Done (runBatch rest io)
    else if bool_decide (cmd = text "stats") then Done (runStats rest io)
    else if bool_decide (cmd = text "ping") then Done (runPing rest io)
    else if bool_decide (cmd = text "-h" ∨ cmd = text "--help" ∨ cmd = text "help")
    then Done (exitOK, print usage_text io, None)
    else Done (exitUsage, say "%s" [usage_text] (say "little-db: unknown subcommand %q" [cmd] io), None)
  end.
End cli.
