(* ===== verification/CliSpec.v ===== *)
(** * What a command line does

    Every subcommand that gets past its own checks makes one call, of a request
    the wire accepts, and its exit code and output report what the server did. *)
From S2P Require Import Prelude LogRecord Keydir Storage Frame Names Json Publish Manifest HintFile Log Recovery Db Invariant WritePath Rotation Compact Engine Writes Api WireFrame WireRequest WireResponse Server ServerSpec ServerRange Service Client EndToEnd Encoding Flags Cli.
Import Wire.

(** ** One call *)

(** The call of a request and the report of its result. *)
Definition perform (f : rangeFormat) (req : Request) (c : client) (io : stdio) : Z * stdio * client :=
  match req with
  | PutRequest key val => let (r, c) := Client.Put key val c in announce "OK put key=%d val=%d" r c io
  | DeleteRequest key => let (r, c) := Client.Delete key c in announce "OK delete key=%d" r c io
  | BatchRequest entries => let (r, c) := Batch entries c in announce "OK batch entries=%d" r c io
  | GetRequest key =>
      match Client.Get key c with
      | (inr err, c) =>
          if match err with WErr e => errors_Is e Client.ErrNotFound | RemoteError _ _ => false end
          then (exitNotFound, say "little-db get: no such key %q" [key] io, c)
          else let (code, io) := classifyErr (Some err) io in (code, io, c)
      | (inl val, c) =>
          match stdout_Write val io with
          | (Some _, io) => (exitTransport, say "get: write stdout: %v" [] io, c)
          | (None, io) => (exitOK, io, c)
          end
      end
  | ReadKeyRangeRequest start end_ => run_range_call f start end_ c io
  | PingRequest =>
      match Ping c with
      | (inr err, c) => let (code, io) := classifyErr (Some err) io in (code, io, c)
      | (inl _, c) => (exitOK, print (text "pong" ++ [x0a]) io, c)
      end
  | StatsRequest =>
      match Client.Stats c with
      | (inr err, c) => let (code, io) := classifyErr (Some err) io in (code, io, c)
      | (inl (keys, nbytes), c) =>
          (exitOK, print (text "key_count=" ++ itoa 20 keys ++ text " bytes_on_disk=" ++ itoa 20 nbytes ++ [x0a]) io, c)
      end
  end.

(** ** Lemmas: requests that pass the checks *)

Lemma encodable req :
  wrequest_ok (normalise req) → zlen (request_body req) + 1 <= MaxFramePayload → ∃ frame, EncodeRequest req = Ok frame.
Proof.
  intros Hok Hsz. unfold EncodeRequest. rewrite (proj2 (encodeRequestBody_iff req _)) by done.
  cbn [rbind]. rewrite EncodeFrame_image by done. by eexists.
Qed.

Lemma validateKey_None k : validateKey k = None ↔ wkey_ok k.
Proof. unfold validateKey, wkey_ok. pose proof (zlen_nonneg k). zcases; split; intros; try done; lia. Qed.
Lemma validateValue_None v : validateValue v = None ↔ wval_ok v.
Proof. unfold validateValue, wval_ok. zcases; split; intros; try done; lia. Qed.

Lemma encode_key (mk : bytes → Request) k :
  mk = GetRequest ∨ mk = DeleteRequest → wkey_ok k → ∃ frame, EncodeRequest (mk k) = Ok frame.
Proof.
  intros Hmk Hk. apply encodable; [by destruct Hmk as [->| ->]|].
  assert (request_body (mk k) = lenp k) as -> by by destruct Hmk as [->| ->]. rewrite zlen_lenp. unfold wkey_ok in Hk. wconsts. lia.
Qed.
Lemma encode_put k v : wkey_ok k → wval_ok v → ∃ frame, EncodeRequest (PutRequest k v) = Ok frame.
Proof.
  intros Hk Hv. apply encodable; [done|]. cbn [request_body]. rewrite zlen_app, !zlen_lenp. unfold wkey_ok, wval_ok in *. wconsts. lia.
Qed.

Definition bound_fits (b : option bytes) : Prop := zlen (default [] b) <= MaxKeyLen.

Lemma encode_range start end_ :
  bound_fits start → bound_fits end_ →
  (0 <? zlen (default [] start)) && (0 <? zlen (default [] end_)) && (0 <? bytes_Compare (default [] start) (default [] end_)) = false →
  ∃ frame, EncodeRequest (ReadKeyRangeRequest start end_) = Ok frame.
Proof.
  intros Hs He Hc. rewrite start_after_end_lens in Hc. apply encodable.
  - cbn [normalise wrequest_ok]. split; [by apply open_bound_ok|]. split; [by apply open_bound_ok|done].
  - cbn [request_body]. rewrite zlen_app, !zlen_lenp. unfold bound_fits in *. wconsts. lia.
Qed.

(** The running size of a batch is that of its encoding. *)
Definition batch_fits (n : Z) (es : list BatchEntry) : Prop :=
  Forall wentry_ok es ∧ n = zlen (request_body (BatchRequest es)) ∧ n <= batchBodyBudget.

Lemma batch_fits_nil : batch_fits batchHeaderSize [].
Proof. split; [constructor|]. by vm_compute. Qed.

Lemma batch_line_spec plain n es l e n' :
  batch_fits n es → batch_line plain n l = Ok (e, n') → batch_fits n' (es ++ [e]).
Proof.
  intros (Hes & Hn & _). unfold batch_line.
  destruct (decodeBatchField (bl_Key l) plain) as [key|]; [|done]. destruct (validateKey key) eqn:Hk; [done|]. apply validateKey_None in Hk.
  assert (Hadd : ∀ e, zlen (request_body (BatchRequest (es ++ [e])))
      = zlen (request_body (BatchRequest es)) + (9 + zlen (Key e) + zlen (Value e))).
  { intros x. cbn [request_body]. rewrite fmap_app, concat_app, !zlen_app, !zlen_be_put. cbn [fmap list_fmap concat].
    rewrite app_nil_r, zlen_wire_entry. lia. }
  assert (Hok : ∀ e, wentry_ok e → Forall wentry_ok (es ++ [e])) by (intros x Hx; apply Forall_app; split; [done|by constructor]).
  case_bool_decide.
  - destruct (decodeBatchField (bl_Value l) plain) as [val|]; [|done]. destruct (validateValue val) eqn:Hv; [done|].
    apply validateValue_None in Hv. destruct (Z.ltb_spec batchBodyBudget (n + (batchEntryOverhead + zlen key + zlen val))); [done|].
    intros [= <- <-]. split; [by apply Hok|]. rewrite Hadd, <- Hn. cbn [Key Value]. unfold batchEntryOverhead in *. split; lia.
  - case_bool_decide; [|done].
    destruct (Z.ltb_spec batchBodyBudget (n + (batchEntryOverhead + zlen key))); [done|].
    intros [= <- <-]. split; [by apply Hok|]. rewrite Hadd, <- Hn. cbn [Key Value]. rewrite zlen_nil. unfold batchEntryOverhead in *. split; lia.
Qed.

Lemma batch_entries_spec plain rerr fuel : ∀ r n es es',
  batch_fits n es → batch_entries fuel plain r rerr n es = Ok es' → ∃ n', batch_fits n' es'.
Proof.
  induction fuel as [|fuel IH]; intros r n es es' Hf; cbn [batch_entries]; [done|].
  destruct (Decode r rerr) as [[l r']|err].
  - destruct (batch_line plain n l) as [[e n']|] eqn:El; [|done]. cbn [rbind]. apply IH. by eapply batch_line_spec.
  - destruct (errors_Is err io_EOF); [|done]. intros [= <-]. by exists n.
Qed.

Lemma encode_batch n es :
  batch_fits n es → zlen es ≠ 0 → zlen es <= MaxBatchEntries → ∃ frame, EncodeRequest (BatchRequest es) = Ok frame.
Proof.
  intros (Hes & -> & Hn) H0 Hm. pose proof (zlen_nonneg es). apply encodable; [split; [lia|done]|]. unfold batchBodyBudget in Hn. lia.
Qed.

(** ** What a call's result looks like *)

(** The streams after [bs] went to a working standard output. *)
Definition out_app (io : stdio) (bs : bytes) : stdio :=
  mkStdio (si_data io) (si_err io) (so_data io ++ bs) [] (se_diag io).

Definition pairs_text (f : rangeFormat) (ps : list KV) : bytes := concat (concat (pair_writes f <$> ps)).

Lemma stdout_Write_ok bs io : so_faults io = [] → stdout_Write bs io = (None, out_app io bs).
Proof. intros H. unfold stdout_Write. by rewrite H. Qed.
Lemma out_app_app io b1 b2 : out_app (out_app io b1) b2 = out_app io (b1 ++ b2).
Proof. unfold out_app. cbn. by rewrite app_assoc. Qed.

Lemma write_each_ok l : ∀ io, so_faults io = [] → write_each l io = (None, out_app io (concat l)).
Proof.
  induction l as [|bs l IH]; intros io H; cbn [write_each concat].
  - destruct io; cbn in *. subst. unfold out_app. cbn. by rewrite app_nil_r.
  - rewrite stdout_Write_ok by done. rewrite IH by done. by rewrite out_app_app.
Qed.

Lemma emit_page_ok f ps : ∀ io w, so_faults io = [] → emit_page f ps (io, w) = (true, (out_app io (pairs_text f ps), w)).
Proof.
  unfold pairs_text. induction ps as [|kv ps IH]; intros io w H; cbn [emit_page fmap list_fmap concat].
  - destruct io; cbn in *. subst. unfold out_app. cbn. by rewrite app_nil_r.
  - unfold emit_pair. cbn [fst snd]. rewrite write_each_ok by done. rewrite IH by done.
    by rewrite out_app_app, concat_app.
Qed.

(** A page function that never stops sees the pairs that [collect] keeps. *)
Section collect.
Context {A} (pageFn : list KV → A → bool * A) (a_of : list KV → A).
Context (Hpage : ∀ ps acc, pageFn ps (a_of acc) = (true, a_of (acc ++ ps))).

Lemma range_loop_collect fuel : ∀ acc cl,
  range_loop fuel pageFn (a_of acc) cl = let '(e, ps, cl) := range_loop fuel collect acc cl in (e, a_of ps, cl).
Proof using Hpage.
  induction fuel as [|fuel IH]; intros acc cl; [done|]. cbn [range_loop].
  destruct (on_conn conn_SetDeadline cl) as [[u|err] cl1]; [|done]. destruct (on_conn ReadFrame cl1) as [[[status fbody]|err] cl2]; [|done].
  destruct (negb _); [by destruct (DecodeError fbody)|]. destruct (DecodeRangeFrame fbody) as [[ps [|]]|]; [done| |done].
  rewrite Hpage. unfold collect at 1. apply IH.
Qed.

Lemma ReadKeyRange_collect start end_ cl :
  Client.ReadKeyRange start end_ (Some pageFn) (a_of []) cl
  = let '(e, ps, cl) := Client.ReadKeyRange start end_ (Some collect) [] cl in (e, a_of ps, cl).
Proof using Hpage.
  unfold Client.ReadKeyRange. destruct (setDeadlines cl) as [[u|err] cl1]; [|done].
  destruct (EncodeRequest _) as [frame|]; [|done]. destruct (on_conn _ cl1) as [[u2|err] cl2]; [|done]. apply range_loop_collect.
Qed.
End collect.

Lemma run_range_ok f start end_ c io :
  so_faults io = [] →
  run_range_call f start end_ c io
  = let '(err, ps, c) := Client.ReadKeyRange start end_ (Some collect) [] c in
    let (code, io) := classifyErr err (out_app io (pairs_text f ps)) in (code, io, c).
Proof.
  intros H. unfold run_range_call.
  assert ((io, None) = (out_app io (pairs_text f []), @None error)) as ->.
  { destruct io; cbn in *. subst. unfold out_app. cbn. by rewrite app_nil_r. }
  rewrite (ReadKeyRange_collect (emit_page f) (λ ps, (out_app io (pairs_text f ps), None))).
  - by destruct (Client.ReadKeyRange _ _ _ _ _) as [[err ps] c'].
  - intros ps acc. rewrite emit_page_ok by done. rewrite out_app_app. unfold pairs_text. by rewrite fmap_app, !concat_app.
Qed.

(** ** Exit codes *)

(** The exit code of an error status. *)
Definition code_of (status : Z) : Z := (classifyErr (Some (RemoteError status [])) (mkStdio [] None [] [] [])).1.

Lemma classify_remote status msg io :
  ∃ d, classifyErr (Some (RemoteError status msg)) io = (code_of status, say d [text (statusName status); msg] io).
Proof. eexists. reflexivity. Qed.
Lemma code_of_not_ok status : code_of status ≠ exitOK.
Proof. unfold code_of, classifyErr. cbn [fst]. by repeat case_match. Qed.

(** What the exit code and the output of a run say of a server's state before and
    after the request. *)
Definition told (m : mode) (f : rangeFormat) (req : Request) (s s' : state) (io : stdio) (code : Z) (io' : stdio) : Prop :=
  let M := abs s.1 s.2 in
  match effect_of req with
  | Some g =>
    so_data io' = so_data io
    ∧ if decide (code = exitOK)
      then abs s'.1 s'.2 = g M ∧ (SyncOnPut (opts s.1) = true → m_durable m = true → all_durable s'.1 s'.2)
      else abs s'.1 s'.2 = M ∨ SyncOnPut (opts s.1) = true ∧ abs s'.1 s'.2 = g M
  | None =>
    abs s'.1 s'.2 = M ∧
    match req with
    | GetRequest k =>
        (code = exitOK ∧ ∃ v, M !! k = Some v ∧ so_data io' = so_data io ++ v)
        ∨ so_data io' = so_data io
          ∧ (code = exitNotFound ∧ M !! k = None
             ∨ code = exitOverloaded ∧ closed s.1 = true
             ∨ code = exitRemoteBad ∧ ¬ quiet s.2)
    | ReadKeyRangeRequest start end_ =>
        (so_data io' = so_data io ∧ (code = exitOverloaded ∨ code = exitRemoteBad ∧ ¬ quiet s.2))
        ∨ ∃ l ps rest, range_of M start end_ l ∧ to_kv <$> l = ps ++ rest ∧ so_data io' = so_data io ++ pairs_text f ps
            ∧ (code = exitOK ∧ rest = [] ∨ code = exitOverloaded ∧ rest ≠ [])
    | StatsRequest => code = exitOK ∧ ∃ onDisk,
        so_data io' = so_data io ++ text "key_count=" ++ itoa 20 (to_u64 (Z.of_nat (base.size M)))
                      ++ text " bytes_on_disk=" ++ itoa 20 onDisk ++ [x0a]
    | _ => code = exitOK ∧ so_data io' = so_data io ++ text "pong" ++ [x0a]
    end
  end.

Lemma announce_told sopts m slot f format req g r r0 s s' io c :
  effect_of req = Some g → outcome_of sopts m slot req s s' r → r = RUnit r0 →
  told m f req s s' io (announce format r0 c io).1.1 (announce format r0 c io).1.2.
Proof.
  intros He Ho ->. unfold outcome_of in Ho. unfold told. rewrite He in *. unfold announce. destruct r0 as [[]|err]; cbn [reply_err].
  - cbn. split; [done|]. destruct (gate_status s.1 req); [by destruct Ho as (_ & msg & [=])|].
    destruct Ho as [(_ & Ha & Hd)|[(st & msg & [=]) _]]. by rewrite decide_True.
  - assert (Hab : abs s'.1 s'.2 = abs s.1 s.2 ∨ SyncOnPut (opts s.1) = true ∧ abs s'.1 s'.2 = g (abs s.1 s.2)).
    { destruct (gate_status s.1 req); [destruct Ho as (-> & _); by left|]. by destruct Ho as [([=] & _)|[_ ?]]. }
    assert (∃ st msg, err = RemoteError st msg) as (st & msg & ->).
    { destruct (gate_status s.1 req); [destruct Ho as (_ & msg & [= ->]); by do 2 eexists|].
      destruct Ho as [([=] & _)|[(st & msg & [= ->]) _]]. by do 2 eexists. }
    destruct (classify_remote st msg io) as [d ->]. destruct (Z.eqb_spec (code_of st) exitOK) as [E|E]; [by apply code_of_not_ok in E|].
    cbn [negb fst snd]. split; [done|]. by rewrite decide_False by apply code_of_not_ok.
Qed.

(** An equality of runs, without evaluating what they carry. *)
Lemma triple_inj {A B C} (a a' : A) (b b' : B) (c c' : C) : (a, b, c) = (a', b', c') → a' = a ∧ b' = b ∧ c' = c.
Proof. by intros [= -> -> ->]. Qed.

(** The report of a [get]. *)
Definition get_report (k : bytes) (r : reply bytes) (io : stdio) (c : client) : Z * stdio * client :=
  match r with
  | inr err =>
      if match err with WErr e => errors_Is e Client.ErrNotFound | RemoteError _ _ => false end
      then (exitNotFound, say "little-db get: no such key %q" [k] io, c)
      else let (code, io) := classifyErr (Some err) io in (code, io, c)
  | inl val =>
      match stdout_Write val io with
      | (Some _, io) => (exitTransport, say "get: write stdout: %v" [] io, c)
      | (None, io) => (exitOK, io, c)
      end
  end.

Lemma same_abs (s s' : state) : s'.1 = s.1 → e_disk s'.2 = e_disk s.2 → abs s'.1 s'.2 = abs s.1 s.2.
Proof. unfold abs. by intros -> ->. Qed.

Lemma get_told sopts m slot f k r0 s s' io c' code io' c2 :
  so_faults io = [] → outcome_of sopts m slot (GetRequest k) s s' (RValue r0) →
  get_report k r0 io c' = (code, io', c2) → told m f (GetRequest k) s s' io code io' ∧ c2 = c'.
Proof.
  intros Hio (D & De & Ho) Hp. unfold told. cbn [effect_of]. split; [split; [by apply same_abs|]|].
  - destruct (closed s.1) eqn:Hcl.
    { destruct Ho as [msg [= ->]]. injection Hp as <- <- <-. right. split; [done|]. by right; left. }
    destruct (abs s.1 s.2 !! k) as [v|] eqn:Ev.
    + destruct Ho as [[= ->]|(Hq & msg & [= ->])].
      * cbn [get_report] in Hp. rewrite stdout_Write_ok in Hp by done. injection Hp as <- <- <-. left. split; [done|]. by exists v.
      * injection Hp as <- <- <-. right. split; [done|]. by right; right.
    + injection Ho as ->. injection Hp as <- <- <-. right. split; [done|]. by left.
  - revert Hp. unfold get_report. destruct r0 as [v|err]; [|repeat case_match; congruence].
    rewrite stdout_Write_ok by done. congruence.
Qed.

Lemma range_told sopts m slot f start end_ err ps s s' (io io' : stdio) (c' c2 : client) (code : Z) :
  so_faults io = [] → outcome_of sopts m slot (ReadKeyRangeRequest start end_) s s' (RPairs ps err) →
  (let (code, io) := classifyErr err (out_app io (pairs_text f ps)) in (code, io, c')) = (code, io', c2) →
  told m f (ReadKeyRangeRequest start end_) s s' io code io' ∧ c2 = c'.
Proof.
  intros Hio (D & De & Ho) Hp. unfold told. cbn [effect_of]. split; [split; [by apply same_abs|]|].
  2: { destruct (classifyErr err _). congruence. }
  assert (Hnil : so_data (out_app io (pairs_text f [])) = so_data io) by (unfold out_app; cbn; by rewrite app_nil_r).
  destruct (negb slot).
  { destruct Ho as [msg [= -> ->]]. injection Hp as <- <- <-. left. split; [exact Hnil|by left]. }
  destruct (closed s.1).
  { destruct Ho as [msg [= -> ->]]. injection Hp as <- <- <-. left. split; [exact Hnil|by left]. }
  destruct Ho as [(Hq & msg & [= -> ->])|(l & Hl & [[= -> ->]|(ps' & rest & msg & Hsp & Hne & [= -> ->])])].
  - injection Hp as <- <- <-. left. split; [exact Hnil|by right].
  - injection Hp as <- <- <-. right. exists l, (to_kv <$> l), []. split; [done|]. split; [by rewrite app_nil_r|].
    split; [done|by left].
  - injection Hp as <- <- <-. right. exists l, ps', rest. split; [done|]. split; [done|]. split; [done|by right].
Qed.

Lemma perform_told sopts m slot f req c io s s' r c' code io' c2 :
  so_faults io = [] → call req c = (r, c') → outcome_of sopts m slot (normalise req) s s' r →
  perform f req c io = (code, io', c2) → told m f (normalise req) s s' io code io' ∧ c2 = c'.
Proof.
  intros Hio Hc Ho Hp.
  assert (Hann : ∀ format r0 g, effect_of (normalise req) = Some g → r = RUnit r0 → announce format r0 c' io = (code, io', c2) →
    told m f (normalise req) s s' io code io' ∧ c2 = c').
  { intros format r0 g He Hr Ha. pose proof (announce_told sopts m slot f format _ g r r0 s s' io c' He Ho Hr) as H.
    rewrite Ha in H. split; [done|]. revert Ha. unfold announce. destruct (classifyErr _ io) as [cd io1].
    destruct (negb _); by intros [= _ _ ->]. }
  destruct req as [k v|k|k|es|start end_| |]; cbn [call perform normalise] in *.
  - destruct (Client.Put k v c) as [r0 c1] eqn:E. injection Hc as <- ->. by eapply Hann.
  - destruct (Client.Get k c) as [r0 c1] eqn:E. injection Hc as <- ->. by eapply get_told.
  - destruct (Client.Delete k c) as [r0 c1] eqn:E. injection Hc as <- ->. by eapply Hann.
  - destruct (Batch es c) as [r0 c1] eqn:E. injection Hc as <- ->. by eapply Hann.
  - destruct (Client.ReadKeyRange start end_ (Some collect) [] c) as [[err ps] c1] eqn:E. injection Hc as <- ->.
    rewrite run_range_ok, E in Hp by done. by eapply range_told.
  - destruct (Ping c) as [r0 c1] eqn:E. injection Hc as <- ->. destruct Ho as (D & De & [= ->]).
    unfold print in Hp. rewrite stdout_Write_ok in Hp by done. apply triple_inj in Hp as (-> & -> & ->). split; [|done].
    split; [by apply same_abs|done].
  - destruct (Client.Stats c) as [r0 c1] eqn:E. injection Hc as <- ->. destruct Ho as (D & De & onDisk & [= ->]).
    unfold print in Hp. rewrite stdout_Write_ok in Hp by done. apply triple_inj in Hp as (-> & -> & ->). split; [|done].
    split; [by apply same_abs|]. split; [done|]. by exists onDisk.
Qed.

(** ** The frame is written whatever comes back *)

(** A client whose connection has taken [frame] since it was [c]. *)
Definition wrote (frame : bytes) (c : conn) (cl : client) : Prop :=
  ∃ c', cl_conn cl = Some c' ∧ c_faults c' = [] ∧ c_out c' = c_out c ++ frame.

Lemma wrote_clear frame c cl : wrote frame c cl → wrote frame c (clearDeadlines cl).
Proof. intros (c' & E & F & O). unfold clearDeadlines. rewrite E. rewrite SetDeadline_clear by done. by exists c'. Qed.
Lemma wrote_read frame c cl r cl' : wrote frame c cl → on_conn ReadFrame cl = (r, cl') → wrote frame c cl'.
Proof.
  intros (c' & E & F & O). unfold on_conn. rewrite E. destruct (ReadFrame c') as [r1 c1] eqn:ER. intros [= <- <-].
  destruct (ReadFrame_faults _ _ _ ER) as (F1 & _ & O1). exists c1. split; [done|]. split; congruence.
Qed.

Section wrote.
Context (cl : client) (c : conn) (Hcl : cl_conn cl = Some c) (Hclear : c_faults c = []).

Lemma write_wrote frame cl' r : on_conn (conn_Write frame) cl = (r, cl') → r = Ok tt ∧ wrote frame c cl'.
Proof using Hcl Hclear.
  unfold on_conn. rewrite Hcl, conn_Write_clear by done. intros [= <- <-]. split; [done|]. eexists. split; [done|]. done.
Qed.

Lemma roundTrip_wrote req frame r cl' : EncodeRequest req = Ok frame → roundTripUnary req cl = (r, cl') → wrote frame c cl'.
Proof using Hcl Hclear.
  intros Hf. unfold roundTripUnary. rewrite (setDeadlines_clear cl c Hcl Hclear), Hf.
  destruct (on_conn (conn_Write frame) cl) as [r1 cl1] eqn:E1. apply write_wrote in E1 as [-> W].
  destruct (on_conn ReadFrame cl1) as [r2 cl2] eqn:E2. intros [= <- <-]. by eapply wrote_clear, wrote_read.
Qed.

Lemma range_loop_wrote {A} (pageFn : list KV → A → bool * A) frame fuel : ∀ a cl1 o a' cl',
  wrote frame c cl1 → range_loop fuel pageFn a cl1 = (o, a', cl') → wrote frame c cl'.
Proof using Type.
  induction fuel as [|fuel IH]; intros a cl1 o a' cl' W; cbn [range_loop]; [by intros [= <- <- <-]|].
  assert (on_conn conn_SetDeadline cl1 = (Ok tt, cl1)) as ->.
  { destruct W as (c' & E & F & _). unfold on_conn. rewrite E, SetDeadline_clear by done. destruct cl1; cbn in *. by subst. }
  destruct (on_conn ReadFrame cl1) as [r2 cl2] eqn:E2. pose proof (wrote_read _ _ _ _ _ W E2) as W2. pose proof (wrote_clear _ _ _ W2) as W3.
  destruct r2 as [[status fbody]|err]; [|by intros [= <- <- <-]].
  destruct (negb _); [by destruct (DecodeError fbody); intros [= <- <- <-]|].
  destruct (DecodeRangeFrame fbody) as [[ps [|]]|]; [by intros [= <- <- <-]| |by intros [= <- <- <-]].
  destruct (pageFn ps a) as [[|] a2]; [by apply IH|by intros [= <- <- <-]].
Qed.

Lemma ReadKeyRange_wrote {A} start end_ (pageFn : list KV → A → bool * A) a frame o a' cl' :
  EncodeRequest (ReadKeyRangeRequest start end_) = Ok frame →
  Client.ReadKeyRange start end_ (Some pageFn) a cl = (o, a', cl') → wrote frame c cl'.
Proof using Hcl Hclear.
  intros Hf. unfold Client.ReadKeyRange. rewrite (setDeadlines_clear cl c Hcl Hclear), Hf.
  destruct (on_conn (conn_Write frame) cl) as [r1 cl1] eqn:E1. apply write_wrote in E1 as [-> W]. by apply range_loop_wrote.
Qed.

Lemma simple_call_wrote req frame r cl' : EncodeRequest req = Ok frame → simple_call req cl = (r, cl') → wrote frame c cl'.
Proof using Hcl Hclear.
  intros Hf. unfold simple_call. destruct (roundTripUnary req cl) as [r1 cl1] eqn:E.
  destruct r1 as [[]|]; intros [= <- <-]; by eapply roundTrip_wrote.
Qed.

Lemma announce_client format r io (c1 : client) : (announce format r c1 io).2 = c1.
Proof using Type. unfold announce. destruct (classifyErr _ io). by destruct (negb _). Qed.

Lemma perform_wrote f req frame io : EncodeRequest req = Ok frame → wrote frame c (perform f req cl io).2.
Proof using Hcl Hclear.
  intros Hf. destruct req as [k v|k|k|es|start end_| |]; cbn [perform].
  - destruct (Client.Put k v cl) as [r c1] eqn:E. rewrite announce_client. by eapply simple_call_wrote.
  - unfold Client.Get. destruct (roundTripUnary _ cl) as [r1 cl1] eqn:E. apply (roundTrip_wrote _ _ _ _ Hf) in E.
    repeat case_match; simplify_eq; done.
  - destruct (Client.Delete k cl) as [r c1] eqn:E. rewrite announce_client. by eapply simple_call_wrote.
  - destruct (Batch es cl) as [r c1] eqn:E. rewrite announce_client. by eapply simple_call_wrote.
  - unfold run_range_call. destruct (Client.ReadKeyRange _ _ _ _ cl) as [[err [io1 w]] c1] eqn:E.
    apply (ReadKeyRange_wrote _ _ _ _ _ _ _ _ Hf) in E. destruct w; [done|]. by destruct (classifyErr _ _).
  - destruct (Ping cl) as [r c1] eqn:E. apply (simple_call_wrote _ _ _ _ Hf) in E.
    destruct r; [done|]. by destruct (classifyErr _ _).
  - unfold Client.Stats. destruct (roundTripUnary _ cl) as [r1 cl1] eqn:E. apply (roundTrip_wrote _ _ _ _ Hf) in E.
    repeat case_match; simplify_eq; done.
Qed.
End wrote.

(** ** What a command line asks for *)

(** An argument that stands for [b], itself or in hexadecimal. *)
Definition argument (asHex : bool) (s b : bytes) : Prop := if asHex then hex_DecodeString s = Ok b else b = s.

Lemma argument_decodeArg asHex s b : decodeArg s asHex = Ok b ↔ argument asHex s b.
Proof.
  unfold decodeArg, argument. destruct asHex; [destruct (hex_DecodeString s); split; congruence|].
  split; [by intros [= ->]|by intros ->].
Qed.

(** A bound of a range: none if its flag is absent or empty. *)
Definition bound_argument (fs : FlagSet) (name hexName : string) (b : option bytes) : Prop :=
  match flag_text fs name [] with
  | [] => b = None
  | s => ∃ d, argument (flag_bool fs hexName false) s d ∧ b = Some d
  end.

Section cli.
Context (ParseDuration : bytes → option Z) (ParseInt : Z → bytes → option Z).
Context (os_Getenv : string → bytes) (os_Open : bytes → result (bytes * option error)).
Context (net_DialTimeout : bytes → Z → result conn).
Abbreviation cli f := (f ParseDuration ParseInt os_Getenv net_DialTimeout).
Abbreviation parsed formal args fs := (parseFlags ParseDuration ParseInt (conn_formals ++ formal) args = Ok fs).
Abbreviation conn_of fs := (conn_opts ParseDuration os_Getenv fs).

(** The request a command line stands for, with the format its answer is to be
    printed in and the server it is for.  Keys and values are arguments, or a
    value is all of standard input; a batch is the entries of a file or of
    standard input. *)
Variant asks (io : stdio) : list bytes → rangeFormat → Request → connOpts → Prop :=
| asks_put rest fs key val :
    parsed put_formals rest fs → flag_bool fs "value-stdin" false = false → NArg fs = 2 →
    argument (flag_bool fs "key-hex" false) (Arg fs 0) key → argument (flag_bool fs "value-hex" false) (Arg fs 1) val →
    asks io (text "put" :: rest) Ndjson (PutRequest key val) (conn_of fs)
| asks_put_stdin rest fs key :
    parsed put_formals rest fs → flag_bool fs "value-stdin" false = true → flag_bool fs "value-hex" false = false → NArg fs = 1 →
    argument (flag_bool fs "key-hex" false) (Arg fs 0) key → si_err io = None →
    asks io (text "put" :: rest) Ndjson (PutRequest key (si_data io)) (conn_of fs)
| asks_get rest fs key :
    parsed key_formals rest fs → NArg fs = 1 → argument (flag_bool fs "key-hex" false) (Arg fs 0) key →
    asks io (text "get" :: rest) Ndjson (GetRequest key) (conn_of fs)
| asks_delete rest fs key :
    parsed key_formals rest fs → NArg fs = 1 → argument (flag_bool fs "key-hex" false) (Arg fs 0) key →
    asks io (text "delete" :: rest) Ndjson (DeleteRequest key) (conn_of fs)
| asks_range rest fs f start end_ :
    parsed range_formals rest fs → NArg fs = 0 →
    bound_argument fs "start" "start-hex" start → bound_argument fs "end" "end-hex" end_ →
    format_of (flag_text fs "format" (text "ndjson")) = Some f →
    asks io (text "range" :: rest) f (ReadKeyRangeRequest start end_) (conn_of fs)
| asks_batch rest fs data rerr es :
    parsed batch_formals rest fs → NArg fs = 1 →
    (if bool_decide (Arg fs 0 = [dash]) then Ok (si_data io, si_err io) else os_Open (Arg fs 0)) = Ok (data, rerr) →
    batch_entries (S (length data)) (flag_bool fs "plain" false) data rerr batchHeaderSize [] = Ok es →
    asks io (text "batch" :: rest) Ndjson (BatchRequest es) (conn_of fs)
| asks_stats rest fs :
    parsed [] rest fs → NArg fs = 0 → asks io (text "stats" :: rest) Ndjson StatsRequest (conn_of fs)
| asks_ping rest fs :
    parsed [] rest fs → NArg fs = 0 → asks io (text "ping" :: rest) Ndjson PingRequest (conn_of fs).

(** ** A run that dialled asked for a valid request *)

Definition justified (io : stdio) (args : list bytes) (out : outcome) : Prop :=
  ∀ cn, out.2 = Some cn → ∃ f req co frame, asks io args f req co ∧ EncodeRequest req = Ok frame.

Lemma justified_quit args code format ops io : justified io args (quit code format ops io).
Proof using Type. by intros cn. Qed.
Lemma justified_usage args format io : justified io args (usage format io).
Proof using Type. by intros cn. Qed.
Lemma justified_asks args f req co frame io out : asks io args f req co → EncodeRequest req = Ok frame → justified io args out.
Proof using Type. intros Ha He cn _. by exists f, req, co, frame. Qed.

Lemma justified_flags formal args rest io g :
  (∀ fs, parsed formal rest fs → justified io args (g fs)) → justified io args (with_flags ParseDuration ParseInt formal rest io g).
Proof using Type. intros H. unfold with_flags. destruct (parseFlags _ _ _ _) eqn:E; [by apply H|by intros cn]. Qed.

Lemma justified_one_key args cmd fs io g :
  (∀ key, NArg fs = 1 → argument (flag_bool fs "key-hex" false) (Arg fs 0) key → wkey_ok key → justified io args (g key)) →
  justified io args (one_key cmd fs io g).
Proof using Type.
  intros H. unfold one_key. destruct (Z.eqb_spec (NArg fs) 1); [cbn [negb]|apply justified_usage].
  destruct (decodeArg _ _) as [key|] eqn:Ek; [|apply justified_usage]. apply argument_decodeArg in Ek.
  destruct (validateKey key) eqn:Hk; [apply justified_usage|]. by apply H; [..|apply validateKey_None].
Qed.

(** Standard input, when it is short enough for a value. *)
Lemma read_limited_all n io : read_limited n io = (if n <=? zlen (si_data io) then Ok (slice_to (si_data io) n)
  else match si_err io with Some err => Err err | None => Ok (si_data io) end).
Proof using Type. done. Qed.

Lemma runPut_justified rest io : justified io (text "put" :: rest) (cli runPut rest io).
Proof using Type.
  apply justified_flags. intros fs Hp. cbv zeta. destruct (flag_bool fs "value-stdin" false) eqn:Hin.
  - destruct (flag_bool fs "value-hex" false) eqn:Hh; cbn [andb]; [apply justified_usage|].
    destruct (Z.eqb_spec (NArg fs) 1) as [Hn|]; cbn [negb]; [|apply justified_usage].
    destruct (decodeArg _ _) as [key|] eqn:Ek; [|apply justified_usage]. apply argument_decodeArg in Ek.
    destruct (validateKey key) eqn:Hk; [apply justified_usage|]. apply validateKey_None in Hk.
    rewrite read_limited_all. destruct (Z.leb_spec (MaxValLen + 1) (zlen (si_data io))).
    + assert (validateValue (slice_to (si_data io) (MaxValLen + 1)) ≠ None) as Hv.
      { rewrite validateValue_None. unfold wval_ok. rewrite zlen_slice_to by (wconsts; lia). lia. }
      by destruct (validateValue _); [apply justified_usage|].
    + destruct (si_err io) eqn:He; [apply justified_quit|].
      destruct (validateValue _) eqn:Hv; [apply justified_usage|]. apply validateValue_None in Hv.
      destruct (encode_put key _ Hk Hv) as [frame Hf]. eapply justified_asks; [by apply asks_put_stdin|exact Hf].
  - cbn [andb]. destruct (Z.eqb_spec (NArg fs) 2) as [Hn|]; cbn [negb]; [|apply justified_usage].
    destruct (decodeArg (Arg fs 0) _) as [key|] eqn:Ek; [|apply justified_usage]. apply argument_decodeArg in Ek.
    destruct (validateKey key) eqn:Hk; [apply justified_usage|]. apply validateKey_None in Hk.
    destruct (decodeArg (Arg fs 1) _) as [val|] eqn:Ev; [|apply justified_usage]. apply argument_decodeArg in Ev.
    destruct (validateValue val) eqn:Hv; [apply justified_usage|]. apply validateValue_None in Hv.
    destruct (encode_put key val Hk Hv) as [frame Hf]. eapply justified_asks; [by eapply asks_put|exact Hf].
Qed.

Lemma runGet_justified rest io : justified io (text "get" :: rest) (cli runGet rest io).
Proof using Type.
  apply justified_flags. intros fs Hp. apply justified_one_key. intros key Hn Ha Hk.
  destruct (encode_key GetRequest key) as [frame He]; [by left|done|]. eapply justified_asks; [by eapply asks_get|exact He].
Qed.
Lemma runDelete_justified rest io : justified io (text "delete" :: rest) (cli runDelete rest io).
Proof using Type.
  apply justified_flags. intros fs Hp. apply justified_one_key. intros key Hn Ha Hk.
  destruct (encode_key DeleteRequest key) as [frame He]; [by right|done|]. eapply justified_asks; [by eapply asks_delete|exact He].
Qed.
Lemma runPing_justified rest io : justified io (text "ping" :: rest) (cli runPing rest io).
Proof using Type.
  apply justified_flags. intros fs Hp. destruct (Z.eqb_spec (NArg fs) 0) as [Hn|]; cbn [negb]; [|apply justified_usage].
  by eapply justified_asks; [apply asks_ping|].
Qed.
Lemma runStats_justified rest io : justified io (text "stats" :: rest) (cli runStats rest io).
Proof using Type.
  apply justified_flags. intros fs Hp. destruct (Z.eqb_spec (NArg fs) 0) as [Hn|]; cbn [negb]; [|apply justified_usage].
  by eapply justified_asks; [apply asks_stats|].
Qed.

(** The bounds of a range, when they are not too long. *)
Lemma range_bound_argument fs name hexName b :
  range_bound fs name hexName = Ok b ↔ bound_argument fs name hexName b ∧ bound_fits b.
Proof using Type.
  unfold range_bound, bound_argument, bound_fits. destruct (flag_text fs name []) as [|x s].
  - split; [intros [= <-]; split; [done|by wconsts]|by intros [-> _]].
  - destruct (decodeArg _ _) as [d|] eqn:Ed.
    + pose proof (proj1 (argument_decodeArg _ _ _) Ed) as Ha. unfold validateRangeBound. destruct (Z.ltb_spec MaxKeyLen (zlen d)).
      * split; [done|]. intros [(d' & Ha' & ->) Hf]. apply argument_decodeArg in Ha'. cbn in Hf. rewrite Ed in Ha'. injection Ha' as ->. lia.
      * split; [intros [= <-]; split; [by exists d|done]|]. intros [(d' & Ha' & ->) _]. apply argument_decodeArg in Ha'. congruence.
    + split; [done|]. intros [(d & Ha & _) _]. apply argument_decodeArg in Ha. congruence.
Qed.

Lemma runRange_justified rest io : justified io (text "range" :: rest) (cli runRange rest io).
Proof using Type.
  apply justified_flags. intros fs Hp. destruct (Z.eqb_spec (NArg fs) 0) as [Hn|]; cbn [negb]; [|apply justified_usage].
  destruct (range_bound fs "start" _) as [start|] eqn:Hs; [|apply justified_usage].
  destruct (range_bound fs "end" _) as [end_|] eqn:He; [|apply justified_usage].
  apply range_bound_argument in Hs as [Hs Hs'], He as [He He']. cbv zeta. destruct (_ && _) eqn:Hc; [apply justified_quit|].
  destruct (format_of _) as [f|] eqn:Hfm; [|apply justified_usage].
  destruct (encode_range start end_ Hs' He' Hc) as [frame Hf]. eapply justified_asks; [by eapply asks_range|exact Hf].
Qed.

Lemma runBatch_justified rest io :
  justified io (text "batch" :: rest) (runBatch ParseDuration ParseInt os_Getenv os_Open net_DialTimeout rest io).
Proof using Type.
  apply justified_flags. intros fs Hp. cbv zeta. destruct (Z.eqb_spec (NArg fs) 1) as [Hn|]; cbn [negb]; [|apply justified_usage].
  match goal with |- context [match ?x with Ok _ => _ | Err _ => _ end] => destruct x as [[data rerr]|] eqn:Hsrc end; [|apply justified_quit].
  destruct (batch_entries _ _ _ _ _ _) as [es|] eqn:Hb; [|apply justified_usage].
  destruct (batch_entries_spec _ _ _ _ _ _ _ batch_fits_nil Hb) as [n Hf].
  destruct (Z.eqb_spec (zlen es) 0); [apply justified_usage|]. destruct (Z.ltb_spec MaxBatchEntries (zlen es)); [apply justified_usage|].
  destruct (encode_batch n es) as [frame He]; [done..|]. eapply justified_asks; [by eapply asks_batch|exact He].
Qed.

Abbreviation run_cli := (run ParseDuration ParseInt os_Getenv os_Open net_DialTimeout).

Lemma run_justified args io o : run_cli args io = Done o → justified io args o.
Proof using Type.
  destruct args as [|cmd rest]; cbn [run]; [by intros [= <-] cn|].
  repeat (case_bool_decide; [try (intros [= <-]); subst|]); try done.
  - apply runPut_justified.
  - apply runGet_justified.
  - apply runDelete_justified.
  - apply runRange_justified.
  - apply runBatch_justified.
  - apply runStats_justified.
  - apply runPing_justified.
  - intros [= <-]. by intros cn.
Qed.

(** ** What is asked for and valid is asked of the server *)

Lemma asked_one_key cmd fs io key g :
  NArg fs = 1 → argument (flag_bool fs "key-hex" false) (Arg fs 0) key → wkey_ok key → one_key cmd fs io g = g key.
Proof using Type.
  intros Hn Ha%argument_decodeArg Hk%validateKey_None. unfold one_key. by rewrite Hn, Ha, Hk.
Qed.

Lemma read_limited_fits io : si_err io = None → wval_ok (si_data io) → read_limited (MaxValLen + 1) io = Ok (si_data io).
Proof using Type. unfold wval_ok. intros He Hv. rewrite read_limited_all, He. destruct (Z.leb_spec (MaxValLen + 1) (zlen (si_data io))); [lia|done]. Qed.

Lemma range_checks start end_ :
  wrequest_ok (normalise (ReadKeyRangeRequest start end_)) →
  bound_fits start ∧ bound_fits end_
  ∧ (0 <? zlen (default [] start)) && (0 <? zlen (default [] end_)) && (0 <? bytes_Compare (default [] start) (default [] end_)) = false.
Proof using Type.
  cbn [normalise wrequest_ok]. intros (Hs & He & Hc). apply bound_zlen in Hs, He. rewrite default_open_bound in Hs, He.
  rewrite start_after_end_lens. unfold bound_fits. split; [lia|]. by split; [lia|].
Qed.

Lemma asked_run args io f req co frame :
  asks io args f req co → EncodeRequest req = Ok frame → run_cli args io = Done (with_client net_DialTimeout co (perform f req) io).
Proof using Type.
  intros Ha Hf. apply EncodeRequest_inv in Hf as (Hok & _ & _).
  destruct Ha as [rest fs key val Hp Hin Hn Hk Hv|rest fs key Hp Hin Hh Hn Hk He|rest fs key Hp Hn Hk|rest fs key Hp Hn Hk
    |rest fs f start end_ Hp Hn Hs He Hfm|rest fs data rerr es Hp Hn Hsrc Hb|rest fs Hp Hn|rest fs Hp Hn].
  - change (Done (cli runPut rest io) = Done (with_client net_DialTimeout (conn_of fs) (perform Ndjson (PutRequest key val)) io)).
    destruct Hok as [Hk'%validateKey_None Hv'%validateValue_None]. apply argument_decodeArg in Hk, Hv.
    unfold runPut, with_flags. rewrite Hp, Hin, Hn, Hk, Hk', Hv. cbn [andb]. by rewrite Hv'.
  - change (Done (cli runPut rest io) = Done (with_client net_DialTimeout (conn_of fs) (perform Ndjson (PutRequest key (si_data io))) io)).
    destruct Hok as [Hk'%validateKey_None Hv']. apply argument_decodeArg in Hk.
    unfold runPut, with_flags. rewrite Hp, Hin, Hh, Hn, Hk, Hk', (read_limited_fits io He Hv'). cbn [andb].
    apply validateValue_None in Hv'. by rewrite Hv'.
  - change (Done (cli runGet rest io) = Done (with_client net_DialTimeout (conn_of fs) (perform Ndjson (GetRequest key)) io)).
    unfold runGet, with_flags. rewrite Hp. by rewrite (asked_one_key _ _ _ _ _ Hn Hk Hok).
  - change (Done (cli runDelete rest io) = Done (with_client net_DialTimeout (conn_of fs) (perform Ndjson (DeleteRequest key)) io)).
    unfold runDelete, with_flags. rewrite Hp. by rewrite (asked_one_key _ _ _ _ _ Hn Hk Hok).
  - change (Done (cli runRange rest io) = Done (with_client net_DialTimeout (conn_of fs) (perform f (ReadKeyRangeRequest start end_)) io)).
    apply range_checks in Hok as (Hs' & He' & Hc).
    unfold runRange, with_flags. rewrite Hp, Hn. cbn [Z.eqb negb].
    rewrite (proj2 (range_bound_argument _ _ _ _) (conj Hs Hs')), (proj2 (range_bound_argument _ _ _ _) (conj He He')).
    cbv zeta. by rewrite Hc, Hfm.
  - change (Done (runBatch ParseDuration ParseInt os_Getenv os_Open net_DialTimeout rest io)
      = Done (with_client net_DialTimeout (conn_of fs) (perform Ndjson (BatchRequest es)) io)).
    destruct Hok as [Hlen _]. unfold runBatch, with_flags. rewrite Hp. cbv zeta. rewrite Hn, Hsrc, Hb.
    cbn [negb Z.eqb]. destruct (Z.eqb_spec (zlen es) 0); [lia|]. by destruct (Z.ltb_spec MaxBatchEntries (zlen es)); [lia|].
  - change (Done (cli runStats rest io) = Done (with_client net_DialTimeout (conn_of fs) (perform Ndjson StatsRequest) io)).
    unfold runStats, with_flags. by rewrite Hp, Hn.
  - change (Done (cli runPing rest io) = Done (with_client net_DialTimeout (conn_of fs) (perform Ndjson PingRequest) io)).
    unfold runPing, with_flags. by rewrite Hp, Hn.
Qed.

(** C27: the command line asks for what its arguments say and tells the truth.  A
    run that gets as far as a connection was given a command line that stands for
    a request, one the protocol accepts ([asks]).  And a command line that stands
    for such a request makes it: with a healthy connection to the server its
    options name, the run writes that request's frame to it and nothing else.
    When the server's response to that request is what arrives and standard
    output works, the exit code and the output report it: 0 only if the mutation
    was applied or the value, the whole range or the statistics printed; 4 only
    for a key that is not there; otherwise an error code and, for a mutation, a
    map that did not change but for a write whose fsync failed. *)
Theorem run_tells args io :
  (∀ code io' cn', run_cli args io = Done (code, io', Some cn') →
     ∃ f req co frame, asks io args f req co ∧ EncodeRequest req = Ok frame)
  ∧ ∀ f req co frame c cn,
      asks io args f req co → EncodeRequest req = Ok frame →
      Dial net_DialTimeout (co_addr co) (mkClientOptions (co_dialTimeout co) (co_requestTimeout co)) = Ok c →
      cl_conn c = Some cn → c_faults cn = [] →
      ∃ code io' cn', run_cli args io = Done (code, io', Some cn') ∧ c_out cn' = c_out cn ++ frame
        ∧ ∀ sopts m logs slot (s s' : state) o frames rest,
            db_inv m logs s.1 s.2 → 0 <= MaxRangeResponseBytes sopts →
            c_in cn = frames ++ rest → response sopts m slot (normalise req) s o frames s' → so_faults io = [] →
            told m f (normalise req) s s' io code io' ∧ c_in cn' = rest.
Proof using Type.
  split.
  - intros code io' cn' Hrun. by apply (run_justified _ _ _ Hrun cn').
  - intros f req co frame c cn Ha Hf Hd Hcl Hcn. rewrite (asked_run _ _ _ _ _ _ Ha Hf). unfold with_client, dialClient. rewrite Hd.
    destruct (perform_wrote c cn Hcl Hcn f req frame io Hf) as (cn' & Ecn & _ & Eout).
    destruct (perform f req c io) as [[code io'] c2] eqn:Ep. cbn [snd] in Ecn. exists code, io', cn'. rewrite Ecn.
    split; [done|]. split; [done|]. intros sopts m logs slot s s' o frames rest Hi Hcap Hin Hr Hio.
    destruct (call_run sopts m logs slot s s' Hi Hcap c cn Hcl Hcn frame frames rest Hin req o Hf Hr) as (r & Hc & Hout).
    destruct (perform_told _ _ _ _ _ _ _ _ _ _ _ _ _ _ Hio Hc Hout Ep) as [Ht ->]. split; [done|].
    unfold after_call in Ecn. cbn in Ecn. injection Ecn as <-. done.
Qed.
End cli.

(** A run of [put], its key in hexadecimal, against a server that takes it. *)
Definition no_env (_ : string) : bytes := [].
Definition ok_conn : conn := mkConn (frame_image StatusOK []) (ESentinel io_EOF) [] [].
Definition no_io : stdio := mkStdio [] None [] [] [].
Definition try_args : list bytes := [text "61"; text "--addr"; text "h:1"; text "1"; text "-key-hex"].
Definition try_flags : FlagSet :=
  match parseFlags (λ _, None) (λ _ _, None) (conn_formals ++ put_formals) try_args with
  | Ok fs => fs
  | Err _ => mkFlagSet [] []
  end.
Definition try_dial (addr : bytes) (_ : Z) : result conn :=
  if bool_decide (addr = text "h:1") then Ok ok_conn else Err (ESentinel EIO).
Definition try_server := dispatchOnce plain_text small_range true (PutRequest [x61] [x31]) (init_db, init_env) (some_conn []).

Lemma try_asks :
  asks (λ _, None) (λ _ _, None) no_env (λ _, Err (ESentinel EIO)) no_io (text "put" :: try_args) Ndjson
    (PutRequest [x61] [x31]) (conn_opts (λ _, None) no_env try_flags).
Proof. apply asks_put; vm_compute; reflexivity. Qed.

Lemma try_response :
  response small_range full_mode true (PutRequest [x61] [x31]) (init_db, init_env) try_server.1 (frame_image StatusOK []) try_server.2.1.
Proof.
  destruct (dispatchOnce_run plain_text small_range full_mode (λ _, []) init_db init_env init_inv init_room true
    (PutRequest [x61] [x31]) (some_conn []) try_server.1 try_server.2.1 try_server.2.2) as (_ & _ & frames & Hr & _ & _ & Hw & _);
    [decided|decided|decided|by rewrite <- !surjective_pairing|].
  assert (E : frames = frame_image StatusOK []); [|by subst].
  assert (E2 : try_server.1.2 = Ok tt) by (vm_compute; reflexivity). rewrite E2 in Hw.
  assert (E3 : c_out try_server.2.2 = frame_image StatusOK []) by (vm_compute; reflexivity). rewrite E3 in Hw. by rewrite Hw.
Qed.

Lemma run_tells_witness :
  ∃ code io' cn', run (λ _, None) (λ _ _, None) no_env (λ _, Err (ESentinel EIO)) try_dial (text "put" :: try_args) no_io
      = Done (code, io', Some cn')
    ∧ c_out cn' = frame_image OpPut (request_body (PutRequest [x61] [x31])) ∧ c_in cn' = []
    ∧ told full_mode Ndjson (PutRequest [x61] [x31]) (init_db, init_env) try_server.2.1 no_io code io'.
Proof.
  destruct (run_tells (λ _, None) (λ _ _, None) no_env (λ _, Err (ESentinel EIO)) try_dial (text "put" :: try_args) no_io) as [_ H].
  destruct (H _ _ _ (frame_image OpPut (request_body (PutRequest [x61] [x31]))) (NewClient ok_conn (mkClientOptions (5 * time_Second) (30 * time_Second)))
    ok_conn try_asks) as (code & io' & cn' & Hrun & Hout & Htold); [vm_compute; reflexivity..|].
  destruct (Htold small_range full_mode (λ _, []) true (init_db, init_env) try_server.2.1 try_server.1 (frame_image StatusOK []) []) as [Ht Hin];
    [apply init_inv|decided|vm_compute; reflexivity|exact try_response|reflexivity|].
  exists code, io', cn'. split; [exact Hrun|]. split; [exact Hout|]. by split.
Defined.
