(* ===== verification/CliFormats.v ===== *)
(** * The formats of range and batch

    What [range] prints in its default format reads back as the pairs, whatever
    bytes they hold; a batch file of entries reads back as the entries. *)
From S2P Require Import Prelude Storage Names Json JsonProgress Encoding Server WireFrame WireRequest WireResponse Client Flags Cli CliSpec.
Import Wire.

(** ** Objects of plain strings *)

Abbreviation plain_text s := (Forall (λ b, plain b = true) s).

Definition quoted (s : bytes) : bytes := [x22] ++ s ++ [x22].
Fixpoint members_text (kvs : list (bytes * bytes)) : bytes :=
  match kvs with
  | [] => []
  | [(k, v)] => quoted k ++ [x3a] ++ quoted v
  | (k, v) :: kvs' => quoted k ++ [x3a] ++ quoted v ++ [x2c] ++ members_text kvs'
  end.
Definition object_text (kvs : list (bytes * bytes)) : bytes := [x7b] ++ members_text kvs ++ [x7d].

(** [json_step] passes the next byte, a given one that is not white space. *)
Ltac byte_tests :=
  repeat match goal with
         | |- context [b2z ?c =? ?n] =>
             let v := eval vm_compute in (b2z c =? n) in
             lazymatch v with true => idtac | false => idtac end;
             change (b2z c =? n) with v
         end; cbv beta iota.
Ltac json_step := rewrite skip_ws_head by done; byte_tests.

Lemma json_value_string d s r : plain_text s → json_value d (quoted s ++ r) = Some (JStr s, r).
Proof.
  intros H. unfold quoted. cbn [app]. rewrite <- app_assoc. cbn [app]. pose proof (json_string_plain s r H) as Hs.
  destruct d; cbn [json_value]; json_step; by rewrite Hs.
Qed.

Lemma json_members_plain d kvs r : ∀ fuel,
  kvs ≠ [] → Forall (λ kv, plain_text kv.1 ∧ plain_text kv.2) kvs → (length kvs <= fuel)%nat →
  json_members (json_value d) fuel (members_text kvs ++ x7d :: r) = Some ((λ kv, (kv.1, JStr kv.2)) <$> kvs, r).
Proof.
  induction kvs as [|[k v] kvs IH]; intros fuel Hne H Hf; [done|]. destruct fuel as [|fuel]; [cbn in Hf; lia|].
  apply Forall_cons in H as [[Hk Hv] H]. cbn [fst snd] in *. cbn [json_members].
  assert (Hstr : ∀ t, json_value d (quoted v ++ t) = Some (JStr v, t)) by (intros t; by apply json_value_string).
  assert (Hkey : ∀ t, quoted k ++ t = x22 :: k ++ x22 :: t) by (intros t; unfold quoted; cbn; by rewrite <- app_assoc).
  destruct kvs as [|kv kvs].
  - cbn [members_text]. rewrite <- !app_assoc. rewrite Hkey. cbn [app]. json_step. rewrite json_string_plain by done.
    cbn [mbind option_bind]. json_step. rewrite Hstr. cbn [mbind option_bind]. by json_step.
  - change (members_text ((k, v) :: kv :: kvs)) with (quoted k ++ [x3a] ++ quoted v ++ [x2c] ++ members_text (kv :: kvs)).
    rewrite <- !app_assoc. rewrite Hkey. cbn [app]. json_step. rewrite json_string_plain by done.
    cbn [mbind option_bind]. json_step. rewrite Hstr. cbn [mbind option_bind]. json_step.
    rewrite IH; [done|done|done|cbn in *; lia].
Qed.

Lemma json_object_plain d kvs r :
  kvs ≠ [] → Forall (λ kv, plain_text kv.1 ∧ plain_text kv.2) kvs →
  json_value (S d) (object_text kvs ++ r) = Some (JObj ((λ kv, (kv.1, JStr kv.2)) <$> kvs), r).
Proof.
  intros Hne H. unfold object_text. cbn [app]. rewrite <- app_assoc. cbn [app json_value]. json_step.
  assert (Hh : ∃ t, members_text kvs ++ x7d :: r = x22 :: t).
  { destruct kvs as [|[k v] [|kv kvs]]; [done|by eexists..]. }
  destruct Hh as [t Ht]. rewrite Ht at 1. json_step. rewrite json_members_plain; [done|done|done|].
  rewrite length_app. enough (length kvs <= length (members_text kvs))%nat by lia.
  clear. induction kvs as [|[k v] [|kv kvs] IH]; [done|cbn; lia|].
  change (members_text ((k, v) :: kv :: kvs)) with (quoted k ++ [x3a] ++ quoted v ++ [x2c] ++ members_text (kv :: kvs)).
  rewrite !length_app. cbn [length] in *. lia.
Qed.

(** ** Lines of range *)

Lemma b64_plain s : plain_text (b64_EncodeToString s).
Proof. eapply Forall_impl; [apply b64_text_encode|]. by intros ? []. Qed.

Lemma ndjson_object kv :
  ndjson_line kv = object_text [(text "key", b64_EncodeToString (kv_Key kv)); (text "value", b64_EncodeToString (kv_Value kv))] ++ [x0a].
Proof. unfold ndjson_line, object_text. cbn [members_text]. unfold quoted. by rewrite <- !app_assoc. Qed.

Lemma Decode_object kvs r rerr l :
  kvs ≠ [] → Forall (λ kv, plain_text kv.1 ∧ plain_text kv.2) kvs →
  unmarshal_line (JObj ((λ kv, (kv.1, JStr kv.2)) <$> kvs)) = Some l →
  Decode (object_text kvs ++ r) rerr = Ok (l, r).
Proof.
  intros Hne H Hl. unfold Decode. assert (Hd : json_maxDepth = S (Nat.pred json_maxDepth)) by by vm_compute.
  rewrite Hd, json_object_plain, Hl by done. unfold object_text. cbn [app]. by rewrite skip_ws_head.
Qed.

(** The default output of [range] loses nothing.  A line it prints, whatever
    bytes the key and the value hold, is one JSON object in UTF-8 whose base64
    fields decode to the key and the value, with only a line break behind it. *)
Theorem ndjson_lossless kv rest rerr :
  ∃ l, Decode (ndjson_line kv ++ rest) rerr = Ok (l, x0a :: rest)
    ∧ decodeBatchField (bl_Key l) false = Ok (kv_Key kv) ∧ decodeBatchField (bl_Value l) false = Ok (kv_Value kv).
Proof.
  exists (mkBatchLine [] (b64_EncodeToString (kv_Key kv)) (b64_EncodeToString (kv_Value kv))). split.
  - rewrite ndjson_object, <- app_assoc. apply Decode_object; [done| |done].
    repeat constructor; cbn [fst snd]; by try apply b64_plain.
  - unfold decodeBatchField. cbn [bl_Key bl_Value]. by rewrite !b64_roundtrip.
Qed.

(** ** Batch files *)

(** The line of an entry, as the documentation has it. *)
Definition entry_line (e : BatchEntry) : bytes :=
  object_text
    (if Delete e then [(text "op", text "delete"); (text "key", b64_EncodeToString (Key e))]
     else [(text "op", text "put"); (text "key", b64_EncodeToString (Key e)); (text "value", b64_EncodeToString (Value e))])
  ++ [x0a].

Lemma json_value_newline d r : json_value (S d) (x0a :: r) = json_value (S d) r.
Proof. done. Qed.
Lemma Decode_newline r rerr : Decode (x0a :: r) rerr = Decode r rerr.
Proof.
  unfold Decode. assert (Hd : json_maxDepth = S (Nat.pred json_maxDepth)) by by vm_compute.
  rewrite Hd, json_value_newline. generalize (json_value (S (Nat.pred json_maxDepth)) r). done.
Qed.

Lemma Decode_entry e r rerr :
  wentry_ok e →
  ∃ l, Decode (entry_line e ++ r) rerr = Ok (l, x0a :: r)
    ∧ ∀ n es, batch_fits (n + (9 + zlen (Key e) + zlen (Value e))) es →
        batch_line false n l = Ok (e, n + (9 + zlen (Key e) + zlen (Value e))).
Proof.
  intros (Hk & Hv & Hd). unfold entry_line. destruct e as [[] k v]; cbn [Delete Key Value] in *.
  - specialize (Hd eq_refl). subst v. exists (mkBatchLine (text "delete") (b64_EncodeToString k) []). split.
    + rewrite <- app_assoc. apply Decode_object; [done| |done]. repeat constructor; cbn [fst snd]; by try apply b64_plain.
    + intros n es (_ & _ & Hn). unfold batch_line, decodeBatchField. cbn [bl_Key bl_Op bl_Value].
      rewrite b64_roundtrip, (proj2 (validateKey_None k)) by done. rewrite bool_decide_eq_false_2 by done.
      rewrite bool_decide_eq_true_2 by done. rewrite zlen_nil in *. unfold batchEntryOverhead.
      destruct (Z.ltb_spec batchBodyBudget (n + (1 + 4 + 4 + zlen k))); [lia|]. do 2 f_equal; lia.
  - exists (mkBatchLine (text "put") (b64_EncodeToString k) (b64_EncodeToString v)). split.
    + rewrite <- app_assoc. apply Decode_object; [done| |done]. repeat constructor; cbn [fst snd]; by try apply b64_plain.
    + intros n es (_ & _ & Hn). unfold batch_line, decodeBatchField. cbn [bl_Key bl_Op bl_Value].
      rewrite !b64_roundtrip, (proj2 (validateKey_None k)), (proj2 (validateValue_None v)) by done.
      rewrite bool_decide_eq_true_2 by done. unfold batchEntryOverhead.
      destruct (Z.ltb_spec batchBodyBudget (n + (1 + 4 + 4 + zlen k + zlen v))); [lia|]. do 2 f_equal; lia.
Qed.

Lemma batch_size_app acc e :
  zlen (request_body (BatchRequest (acc ++ [e]))) = zlen (request_body (BatchRequest acc)) + (9 + zlen (Key e) + zlen (Value e)).
Proof.
  cbn [request_body]. rewrite fmap_app, concat_app, !zlen_app, !zlen_be_put. cbn [fmap list_fmap concat].
  rewrite app_nil_r, zlen_wire_entry. lia.
Qed.
Lemma batch_size_mono acc es : zlen (request_body (BatchRequest acc)) <= zlen (request_body (BatchRequest (acc ++ es))).
Proof. cbn [request_body]. rewrite fmap_app, concat_app, !zlen_app, !zlen_be_put. pose proof (zlen_nonneg (concat (wire_entry <$> es))). lia. Qed.

Lemma batch_entries_lines es : ∀ fuel (nl : bool) acc,
  Forall wentry_ok es → zlen (request_body (BatchRequest (acc ++ es))) <= batchBodyBudget → Forall wentry_ok acc →
  (length es < fuel)%nat →
  batch_entries fuel false ((if nl then [x0a] else []) ++ concat (entry_line <$> es)) None (zlen (request_body (BatchRequest acc))) acc
  = Ok (acc ++ es).
Proof.
  induction es as [|e es IH]; intros fuel nl acc Hes Hsz Hacc Hf; (destruct fuel as [|fuel]; [cbn in Hf; lia|]); cbn [batch_entries].
  - destruct nl; cbn; by rewrite app_nil_r.
  - apply Forall_cons in Hes as [He Hes]. destruct (Decode_entry e (concat (entry_line <$> es)) None He) as (l & Hl & Hline).
    rewrite fmap_cons. cbn [concat].
    assert (Decode ((if nl then [x0a] else []) ++ entry_line e ++ concat (entry_line <$> es)) None = Ok (l, x0a :: concat (entry_line <$> es))) as ->.
    { destruct nl; cbn [app]; [by rewrite Decode_newline|done]. }
    assert (Hfit : batch_fits (zlen (request_body (BatchRequest acc)) + (9 + zlen (Key e) + zlen (Value e))) (acc ++ [e])).
    { split; [apply Forall_app; split; [done|by constructor]|]. rewrite batch_size_app. split; [done|].
      pose proof (batch_size_mono (acc ++ [e]) es) as Hm. rewrite <- app_assoc in Hm. cbn [app] in Hm.
      rewrite batch_size_app in Hm. lia. }
    rewrite (Hline _ _ Hfit). cbn [rbind]. rewrite <- batch_size_app.
    pose proof (IH fuel true (acc ++ [e])) as IH'. cbn [app] in IH'. rewrite <- app_assoc in IH'. apply IH'; [done|done| |cbn in Hf; lia].
    apply Forall_app. split; [done|by constructor].
Qed.

(** C40: a batch file says what it sends.  Given a file of entries on standard
    input, one JSON object per line with base64 fields, that fit a frame, [batch]
    dials the server and makes one [Batch] call with exactly these entries. *)
Theorem runBatch_submits ParseDuration ParseInt os_Getenv os_Open net_DialTimeout es io :
  Forall wentry_ok es → 1 <= zlen es <= MaxBatchEntries →
  zlen (request_body (BatchRequest es)) + 1 <= MaxFramePayload →
  si_data io = concat (entry_line <$> es) → si_err io = None →
  ∃ co frame, EncodeRequest (BatchRequest es) = Ok frame
    ∧ runBatch ParseDuration ParseInt os_Getenv os_Open net_DialTimeout [[dash]] io
      = with_client net_DialTimeout co (perform Ndjson (BatchRequest es)) io.
Proof.
  intros Hes Hn Hsz Hdata Herr. exists (conn_opts ParseDuration os_Getenv (mkFlagSet [] [[dash]])).
  destruct (encodable (BatchRequest es)) as [frame He]; [by split|done|]. exists frame. split; [done|].
  unfold runBatch, with_flags. rewrite (eq_refl : parseFlags ParseDuration ParseInt (conn_formals ++ batch_formals) [[dash]] = Ok (mkFlagSet [] [[dash]])).
  rewrite (eq_refl : NArg (mkFlagSet [] [[dash]]) = 1). cbn [Z.eqb negb Arg fs_args nth].
  rewrite bool_decide_eq_true_2 by done. rewrite Hdata, Herr.
  pose proof (batch_entries_lines es (S (length (concat (entry_line <$> es)))) false [] Hes) as Hb. cbn [app] in Hb.
  rewrite (eq_refl : zlen (request_body (BatchRequest [])) = batchHeaderSize) in Hb.
  rewrite (eq_refl : flag_bool (mkFlagSet [] [[dash]]) "plain" false = false).
  rewrite Hb; [|unfold batchBodyBudget; lia|constructor|].
  - destruct (Z.eqb_spec (zlen es) 0); [lia|]. destruct (Z.ltb_spec MaxBatchEntries (zlen es)); [lia|]. done.
  - clear. enough (length es <= length (concat (entry_line <$> es)))%nat by lia.
    induction es as [|e es IH]; [done|]. rewrite fmap_cons. cbn [concat length]. rewrite length_app.
    unfold entry_line at 1, object_text. cbn. lia.
Qed.

(** ** The loop over a stream ends *)

Lemma Decode_consumes r rerr l r' : Decode r rerr = Ok (l, r') → (length r' < length r)%nat.
Proof.
  unfold Decode. destruct (skip_ws r); [done|]. destruct (json_value json_maxDepth r) as [[v rest]|] eqn:E; [|done].
  destruct (unmarshal_line v); [|done]. intros [= _ <-]. by apply json_value_consumes in E.
Qed.

Lemma batch_line_error plain n l err : batch_line plain n l = Err err → err ≠ errorf "out of fuel".
Proof. unfold batch_line. repeat case_match; intros [= <-]; done. Qed.

Lemma batch_entries_enough plain rerr fuel : ∀ fuel' r n es,
  (length r < fuel)%nat → (fuel <= fuel')%nat →
  batch_entries fuel' plain r rerr n es = batch_entries fuel plain r rerr n es
  ∧ batch_entries fuel plain r rerr n es ≠ Err (errorf "out of fuel").
Proof.
  induction fuel as [|fuel IH]; intros fuel' r n es Hr Hf; [lia|]. destruct fuel' as [|fuel']; [lia|]. cbn [batch_entries].
  destruct (Decode r rerr) as [[l r']|err] eqn:E; [|by destruct (errors_Is err io_EOF)].
  apply Decode_consumes in E. destruct (batch_line plain n l) as [[e n']|err] eqn:El; cbn [rbind].
  - apply IH; lia.
  - split; [done|]. intros [= ->]. by apply batch_line_error in El.
Qed.

(** Reading a batch file ends.  Whatever the bytes of the file, every JSON
    value the loop decodes takes some of them, so that the fuel that runBatch
    gives it, one more than there are bytes, is never used up and more of it
    makes no difference. *)
Theorem batch_entries_terminates plain data rerr fuel :
  (length data < fuel)%nat →
  batch_entries fuel plain data rerr batchHeaderSize [] = batch_entries (S (length data)) plain data rerr batchHeaderSize []
  ∧ batch_entries fuel plain data rerr batchHeaderSize [] ≠ Err (errorf "out of fuel").
Proof.
  intros H. destruct (batch_entries_enough plain rerr (S (length data)) fuel data batchHeaderSize []) as [-> Hne]; [lia..|]. done.
Qed.

Lemma batch_entries_terminates_witness :
  let data := text "{ } [" in
  batch_entries 9 true data None batchHeaderSize [] = batch_entries (S (length data)) true data None batchHeaderSize []
  ∧ batch_entries 9 true data None batchHeaderSize [] ≠ Err (errorf "out of fuel").
Proof. intros data. apply (batch_entries_terminates true data None 9). vm_compute. lia. Defined.

(** A file of two lines. *)
Definition two_entries : list BatchEntry := [mkBatchEntry false [x61; xff] [x31]; mkBatchEntry true [x62] []].
Definition two_lines : stdio := mkStdio (concat (entry_line <$> two_entries)) None [] [] [].

Lemma runBatch_submits_witness :
  ∃ co frame, EncodeRequest (BatchRequest two_entries) = Ok frame
    ∧ runBatch (λ _, None) (λ _ _, None) no_env (λ _, Err (ESentinel EIO)) (λ _ _, Ok ok_conn) [[dash]] two_lines
      = with_client (λ _ _, Ok ok_conn) co (perform Ndjson (BatchRequest two_entries)) two_lines.
Proof.
  apply (runBatch_submits (λ _, None) (λ _ _, None) no_env (λ _, Err (ESentinel EIO)) (λ _ _, Ok ok_conn) two_entries two_lines);
    [repeat constructor; decided|split; vm_compute; done|vm_compute; done|done|done].
Defined.
