(* ===== verification/Serve.v ===== *)
(** * Starting the server (cmd/little-db/main.go, runServe; internal/logging)

    From the arguments of [serve] to an open engine and a bound listener, and
    from the end of serving to the exit code.  What happens in between is Server,
    Lifecycle and WriterLoop. *)
From S2P Require Import Prelude Storage Db Engine Server Flags Cli.

(** ** Log settings *)

Variant Format := FormatText | FormatJSON.

(** slog's levels. *)
Definition LevelDebug : Z := -4.
Definition LevelInfo : Z := 0.
Definition LevelWarn : Z := 4.
Definition LevelError : Z := 8.

(** [strings.ToLower], as far as equality with ASCII text goes: ASCII letters, and
    the two other letters whose lower case is one, U+0130 and U+212A. *)
Fixpoint ToLower (s : bytes) : bytes :=
  match s with
  | xc4 :: xb0 :: s' => x69 :: ToLower s'
  | xe2 :: x84 :: xaa :: s' => x6b :: ToLower s'
  | b :: s' => (if (65 <=? b2z b) && (b2z b <=? 90) then z2b (b2z b + 32) else b) :: ToLower s'
  | [] => []
  end.

Definition one_of (s : bytes) (names : list string) : bool := existsb (λ t, bool_decide (ToLower s = text t)) names.

Definition ParseFormat (s : bytes) : result Format :=
  if one_of s [EmptyString; "text"]%string then Ok FormatText
  else if one_of s ["json"]%string then Ok FormatJSON
  else Err (errorf "unknown log format %q (want text|json)").

Definition ParseLevel (s : bytes) : result Z :=
  if one_of s ["debug"]%string then Ok LevelDebug
  else if one_of s [EmptyString; "info"]%string then Ok LevelInfo
  else if one_of s ["warn"; "warning"]%string then Ok LevelWarn
  else if one_of s ["error"]%string then Ok LevelError
  else Err (errorf "unknown log level %q (want debug|info|warn|error)").

(** ** serve *)

Section serve.
Context (ParseDuration : bytes → option Z) (ParseInt : Z → bytes → option Z).
(** [net.Listen(tcp, addr)]: the address it is bound to. *)
Context (net_Listen : bytes → result bytes).

Definition flag_int (fs : FlagSet) (name : string) (bits dflt : Z) : Z :=
  foldl (λ acc nv, if bool_decide (nv.1 = text name) then default acc (ParseInt bits nv.2) else acc) dflt (fs_actual fs).

Definition serve_formals : formals :=
  [(text "addr", StringFlag); (text "read-deadline", DurationFlag); (text "write-deadline", DurationFlag);
   (text "max-concurrent-range-streams", IntFlag 64); (text "max-range-response-bytes", IntFlag 64);
   (text "shutdown-grace", DurationFlag);
   (text "data-dir", StringFlag); (text "max-segment-size", IntFlag 64); (text "sync-on-put", BoolFlag);
   (text "write-queue-depth", IntFlag 64); (text "max-batch-encoded-size", IntFlag 64);
   (text "compaction-interval", DurationFlag); (text "log-level", StringFlag); (text "log-format", StringFlag)].

Definition duration (fs : FlagSet) (name : string) (dflt : Z) : Z := flag_duration ParseDuration fs name dflt.

(** The engine's and the server's options. *)
Definition serve_engine_options (fs : FlagSet) : Options :=
  mkOptions (String.string_of_list_byte (flag_text fs "data-dir" []))
    (flag_int fs "max-segment-size" 64 (256 * 1024 * 1024)) (flag_bool fs "sync-on-put" false)
    (flag_int fs "write-queue-depth" 64 64) (flag_int fs "max-batch-encoded-size" 64 (64 * 1024 * 1024))
    (duration fs "compaction-interval" 0).
Definition serve_server_options (fs : FlagSet) : ServerOptions :=
  mkServerOptions (duration fs "read-deadline" (30 * time_Second)) (duration fs "write-deadline" (30 * time_Second))
    (flag_int fs "max-concurrent-range-streams" 64 4) (flag_int fs "max-range-response-bytes" 64 (64 * 1024 * 1024)).

Variant served := ServeExit (code : Z) (io : stdio) | Serving (db : DB) (o : ServerOptions) (io : stdio).

(** [runServe] up to [srv.Serve]; the engine is closed again if the listener
    cannot be bound, and an error of that is only reported. *)
Definition serve_start (args : list bytes) (io : stdio) (e : env) : served * env :=
  match parseFlags ParseDuration ParseInt serve_formals args with
  | Err _ => (ServeExit exitUsage io, e)
  | Ok fs =>
    if bool_decide (flag_text fs "data-dir" [] = []) then (ServeExit exitUsage (say "little-db serve: --data-dir is required" [] io), e)
    else
      match ParseLevel (flag_text fs "log-level" (text "info")), ParseFormat (flag_text fs "log-format" (text "text")) with
      | Err _, _ | _, Err _ => (ServeExit exitUsage (say "little-db serve: %v" [] io), e)
      | Ok _, Ok _ =>
        match Open (serve_engine_options fs) e with
        | (Err _, e) => (ServeExit exitTransport (say "little-db serve: open engine: %v" [] io), e)
        | (Ok db, e) =>
          let addr := flag_text fs "addr" defaultAddr in
          match net_Listen addr with
          | Err _ =>
              let io := say "little-db serve: bind %s: %v" [addr] io in
              let (r, s) := Engine.Close (db, e) in
              (ServeExit exitTransport (match r with Err _ => say "little-db serve: close engine: %v" [] io | Ok _ => io end), s.2)
          | Ok bound =>
              let line := text "little-db: listening on " ++ bound ++ text " (data-dir=" ++ flag_text fs "data-dir" [] ++ text ")" ++ [x0a] in
              (Serving db (New_options (serve_server_options fs)) (print line io), e)
          end
        end
      end
  end.

(** A server that runs has an engine opened on a named directory, and limits that
    are positive whatever the flags say. *)
Lemma serve_start_serving args io e db o io' e' :
  serve_start args io e = (Serving db o io', e') →
  ∃ eo, Open eo e = (Ok db, e') ∧ 0 < MaxConcurrentRangeStreams o ∧ 0 < MaxRangeResponseBytes o.
Proof using Type.
  unfold serve_start. destruct (parseFlags _ _ _ _) as [fs|]; [|done]. case_bool_decide; [done|].
  destruct (ParseLevel _); [|done]. destruct (ParseFormat _); [|done].
  destruct (Open (serve_engine_options fs) e) as [[db1|] e1] eqn:E; [|done].
  destruct (net_Listen _); [|by destruct (Engine.Close _)].
  intros Hr. apply (f_equal (λ p, (match p.1 with Serving d o _ => Some (d, o) | _ => None end, p.2))) in Hr.
  cbn [fst snd] in Hr. injection Hr as <- <- <-. exists (serve_engine_options fs). split; [done|].
  unfold New_options, defaultMaxConcurrentRangeStreams, defaultMaxRangeResponseBytes. cbn [MaxConcurrentRangeStreams MaxRangeResponseBytes].
  split; match goal with |- context [?a <=? ?b] => destruct (Z.leb_spec a b) end; lia.
Qed.
End serve.

(** How serving ends: by a signal, with what Shutdown then returned, or because
    Serve returned. *)
Variant ending := Signalled (shutdown : option error) | ServeReturned (err : option error).

(** The rest of [runServe] and its deferred [db.Close]. *)
Definition serve_stop (how : ending) (db : DB) (io : stdio) (e : env) : Z * stdio * state :=
  let (code, io) :=
    match how with
    | Signalled shutdown =>
        let io := print (text "little-db: shutting down" ++ [x0a]) io in
        match shutdown with
        | Some _ => (exitTransport, say "little-db serve: shutdown: %v" [] io)
        | None => (exitOK, io)
        end
    | ServeReturned (Some _) => (exitTransport, say "little-db serve: %v" [] io)
    | ServeReturned None => (exitOK, io)
    end in
  let (r, s) := Engine.Close (db, e) in
  (code, match r with Err _ => say "little-db serve: close engine: %v" [] io | Ok _ => io end, s).

(** However it ends, the engine is closed, and the exit code is 0 exactly for an
    orderly end, whatever closing the engine said. *)
Lemma serve_stop_closes how db io e code io' s' :
  serve_stop how db io e = (code, io', s') →
  s' = (Engine.Close (db, e)).2 ∧ (code = exitOK ↔ how = Signalled None ∨ how = ServeReturned None).
Proof.
  unfold serve_stop. destruct how as [[err|]|[err|]]; destruct (Engine.Close (db, e)) as [r s]; intros H;
    apply (f_equal (λ p, (p.1.1, p.2))) in H; cbn in H; injection H as <- <-; (split; [done|]); naive_solver.
Qed.
